(* ===== verification/_CoqProject ===== *)
-Q . S2P
Prelude.v
Errors.v
WireFormat.v
Frame.v
HeaderPool.v
FrameBuffer.v
Backpressure.v
Codec.v
Writer.v
WriterTask.v
WriterLive.v
WriterDrop.v
Json.v
Init.v
Msgpack.v
Control.v
Program.v
Schedule.v
Context.v
Registry.v
Transport.v
PollIo.v
UnixPipe.v
WindowsPipe.v
Session.v
Streams.v
Client.v
Table.v
Completion.v
WriterImpl.v
WriterHealthy.v
EndToEnd.v
Delivery.v
Quiesce.v
Answered.v
Typing.v
Order.v
Examples.v
Start.v
Process.v
Simulate.v
UnitTest.v
UnitTestRuntime.v
TestsProtocol.v
TestsRuntime.v
TestsControl.v
TestsWriter.v
TestsMsgpack.v
TestsContext.v
TestsClient.v
TestsIntegration.v
