(* ===== verification/Prelude.v ===== *)
(** * procwire-client: a verification library for the Rust client SDK

    The crate under [src/] lets a worker process serve requests of a parent
    process.  The parent starts the worker, reads one line of JSON from its
    stdout (the control plane) and connects to the socket named there (the
    data plane), on which both sides exchange binary frames: an 11-byte header
    and a payload.  This library models the crate and proves what makes it
    correct.

    ** The parts of the program and the files that model them

    Each operation keeps the name it has in the source, with a prefix where two
    modules use the same one.  In the order of the compilation, which is also
    that of the dependencies:

    - [Prelude]: machine integers as [Z] with their width, [result] with the
      [?] operator as its bind, big-endian integers, tactics, the hint
      database [procwire].
    - [Errors] (error.rs): [ProcwireError] and its text.  [ThirdParty] holds the
      error types of [serde_json] and [rmp_serde].
    - [WireFormat], [Frame], [HeaderPool], [FrameBuffer] (protocol/): the header
      and its codec, frames and their builders, the round-robin pool of header
      buffers with references as slot numbers, and the state machine that turns
      chunks of bytes into frames.
    - [Backpressure] (backpressure.rs): the controller and its guard over a
      store of atomic cells; [rstep] is concurrent reservation, one atomic
      access per step.
    - [Codec] (codec/): the wrappers of [rmp_serde], and raw bytes.
    - [Writer], [WriterTask] (writer.rs): the vectored write of a batch with
      its continuation after partial writes; then handles, bounded channel,
      pending counter and writer loop as one concurrent system [wstep].
      [WriterLive]: its steps that make progress ([work_step]) and what is left
      after a failed write.  [WriterDrop]: calls whose future is dropped, as
      calls that take no step any more ([live_step]).
    - [Json], [Init], [Control] (control/): [serde_json] as a class with laws
      and an instance; the schema and the [$init] message; stdin lines, the
      reader loop and stdout.
    - [Msgpack]: the MessagePack format as a concrete [rmp_serde], with its
      round trip; the unit tests run on it.
    - [Program]: asynchronous code as trees of atomic actions on shared cells
      and a writer, pools of them interleaving, and the interface
      [FrameWriter] with its laws [FrameWriterOk] and [FrameWriterOrdered].
      [Schedule]: the evaluator [run] computes what some schedule does, on
      every writer that lets calls return ([ServingWriter]).
    - [Context], [Registry] (handler/): the methods of [RequestContext] as such
      programs; registration, lookups, schema and dispatch.
    - [Transport] (transport/pipe.rs): the socket path, the listener and its
      socket file.  [PollIo]: the polled reads and writes of a pipe as classes
      with laws, and the [AsyncWrite] they give.  [UnixPipe], [WindowsPipe]
      (the same file, [unix_impl] and [windows_impl]): accepting a connection
      and the stream of each system, on Windows also the pipe path and the
      listener over the namespace of named pipes.
    - [Session], [Client] (client.rs): the authentication handshake, the accept
      loop and the read loop as functions of what [accept] and [read] return;
      the builder's options, [dispatch_frame], the spawned handler tasks, the
      semaphore, the table of active requests and [emit], as one concurrent
      system [cstep].  [Table]: the entries of the table over the life of the
      tasks.  [Streams]: accept and read loop against [session_spec], which
      knows the byte streams of the connections but not how they were cut;
      [reads_equiv] is the equality of streams, a setoid.  [Completion]: tasks
      that can be run to their end.
    - [WriterImpl]: the writer task is an instance of [FrameWriter];
      [WriterHealthy]: on a pipe that takes bytes ([HealthyWrite]) it serves
      every call.
    - [EndToEnd]: the compositions, from handlers to the parent's parser.
      [Delivery]: an answered request reaches the pipe.  [Quiesce]: without new
      frames and events the client comes to rest under every schedule.
      [Answered]: there, every request has been answered.
    - [Typing]: the invariant that Rust's types and the channel's capacity
      state of the whole client.
    - [Order]: the frames of one request keep their order, all the way to the
      parent; [scripted] describes the handlers it applies to.
    - [Examples] (examples/): the workers echo.rs, stream.rs and events.rs.
    - [Start] (client.rs): [ClientBuilder::start] and [Client::start].
      [Process]: what a start leaves running (the read loop, the control
      reader, the writer task, the handlers and [main]) side by side, up to
      the end of the process.
    - [Simulate]: one schedule of the running client as a function, with the
      proof that it is an execution and that it stops only at rest.
    - [UnitTest], [UnitTestRuntime]: assertions, an executor and the far end
      of a pipe.  [TestsProtocol], [TestsRuntime] (backpressure and raw codec),
      [TestsMsgpack], [TestsControl] (control and registry), [TestsWriter]
      (writer and pipe), [TestsContext], [TestsClient]: the [mod tests] of the
      files under [src/], one definition per test, evaluated on the model.
      [TestsIntegration]: those of tests/integration.rs.

    ** How they interact

    Bytes read from the socket go through [FrameBuffer.push]; [Session]
    determines the frames that reach [Client.dispatch_frame].  Each request
    allocates a flag and a cancellation token (cells of the shared store) and
    starts a task running [handler_task]; ABORT frames set the token through
    the table.  Handlers act on a [RequestContext] only through its public
    methods ([uses_ctx]), which call [send].  A call of [send] is begun by one
    step of its program, proceeds by steps of the writer system (waiting for
    the counter, the addition, the channel) and has returned when that system
    has a result for it.  The writer task takes frames from the channel in
    batches and writes them with [write_batch].  [Client] is proved against
    the interface [FrameWriter]; [WriterImpl] discharges the laws, so
    [EndToEnd] can put the client on top of the writer task.  The parent is
    not in the repository; where a theorem speaks of what it parses, it runs
    the crate's own [FrameBuffer], which shares the wire format with it.

    ** What the theorems show

    - Wire format: encoding and decoding are inverse, on the nose for the
      eleven bytes; [encode_into] panics exactly on short buffers; [validate]
      is the wire contract; the pool returns the same bytes, and its references
      stay valid for sixteen acquisitions.
    - Frame buffer: it refines [parse], a parser of the whole stream that knows
      neither chunks nor states; hence chunking does not matter, frames and
      remaining bytes are exactly the input, the buffer is bounded, invalid
      headers are rejected before any payload, and written frames are read
      back.
    - Writer: a batch is written whole or, on an error, a prefix of it; in
      every interleaving the channel holds the frames of the calls that
      returned [Ok], the pipe gets them once and in order, and the counter is
      the number of frames in flight modulo 2^64; the task always drains when
      its writes complete, no schedule of calls and task runs for ever, and
      only a write that stays pending gets one stuck.  After a failed write
      nothing is accepted; calls dropped half way stay in the counter.
    - Requests: at most one terminal frame per request, with the request's ids;
      every method of the context on every branch; the table and the semaphore
      account for the running tasks, and the table does not leak unless a
      handler panics; a task that returns on its own can always be run to its
      end; ABORT reaches the handler; failures are reported; ids announced in
      [$init] are those dispatch and emit use.
    - Session and start: which connection is adopted and which frames are
      dispatched, a function of the byte streams alone, also of malformed ones
      unless they authenticate; the order of the start and each of its
      outcomes.
    - Process: every state of the running process is one the client theorems
      cover; when [main] returns and when it can.
    - Compositions: [parent_gets_one_answer], [request_frames_in_order],
      [peer_receives_accepted_frames], [client_state_typed] and
      [started_session]; [request_reaches_wire] (what is answered arrives),
      [client_comes_to_rest] (nothing keeps the client busy for ever) and
      [every_request_answered] (a request whose handler answers or fails gets
      its one answer under every schedule, and on a connection that works the
      parent receives it).  Two conditions come from the code: it does not
      bound outbound payloads, so the parent may refuse a frame ([over_limit],
      [oversized_frame_refused]) and from 4 GiB on the header's length wraps
      ([ob_fits]); and a parent that stops reading keeps a write pending
      ([writing]), a case the theorems on coming to rest state apart.
    - Controller: bounds on overshoot, termination of the wait.
    - Tests: all that are modelled pass on the model, so the definitions
      agree with what the authors of the crate expect of the code.
    - Examples: the stream reaches its parent in order and without gaps; echo
      answers; the events worker never emits.

    Some theorems state what the code does where its documentation or its
    purpose says otherwise: [dropped_send_leaks], [failed_writer_refuses],
    [malformed_cut_matters], [bind_does_not_listen], and, next to the
    properties, [silent_connection_blocks], [events_worker_silent],
    [reserve_limit_exceeded], [encode_failure_unanswered],
    [duplicate_id_loses_abort], [panicked_request_leaks],
    [reserved_id_assigned], [register_overflow], [rand_u64_collides],
    [progress_percent] and [chunk_after_end_is_sent].

    ** Third-party code, as parameters

    [rmp_serde] ([Serialize], [DeserializeOwned]), [serde_json] ([SerdeJson],
    laws [SerdeJsonOk]), [tokio]'s vectored write ([AsyncWrite]: at most the
    bytes offered are written, laws [AsyncWriteOk]; a write that never completes
    is a step that is not taken, and [readable] lets the parent read any part
    of a batch being written; [PollRead] and [PollWrite]
    for the pipes of the system), stdout ([StdWrite]), the socket files ([SocketFs]) and the named
    pipes of the system ([NamedPipes]).  Each has a concrete instance for which the
    laws are proved; the witnesses use them.  That of [rmp_serde] for the tests
    is the MessagePack format itself ([Msgpack]), integers without the range of
    their type and floats by their bits.  Channels, semaphores, atomics and
    cancellation tokens of the standard library and of [tokio] are modelled by
    their documented behaviour, with sequentially consistent atomics.

    ** Bounds and fuel

    [usize] has 64 bits.  [push_loop] has as fuel two more than the bytes
    buffered: each round but the first and the last takes at least a header
    ([push_terminates] shows the loop ends by its own exit).  [write_rest] has
    as fuel the bytes to write plus one, since each round writes at least one
    byte or ends; [write_batch_exact] shows a result is always reached.  [hex]
    prints at most sixteen digits, which hold a [u64].  [parse], [run] and the
    loops over reads recurse on their input; code that runs for ever is a tree
    with [Hang], and a list of reads that is used up is a read that never
    returns.  Registration theorems are bounded by the sixteen bits of the ids.
    [iterate] stops at rest; [simulate_reaches_rest] shows some fuel gets it
    there, and 500 steps are more than any unit test makes (it would fail).

    ** What is not modelled

    lib.rs (re-exports); the derived JSON form of the legacy structs of
    control/init.rs; log output; memory orderings weaker than sequential
    consistency; benches (a placeholder), and of the unit tests those that
    compare addresses.  A dropped future is modelled for the calls of [send]
    ([WriterDrop]), not for whole handlers: a program of [Program] is never cut
    off.  [ap_work] of [Examples] lets any handler fill the channel of work,
    and the emitter of events.rs outlives [main]. *)

From stdpp Require Export base tactics numbers list option gmap strings pretty.

#[export] Set Default Goal Selector "!".
#[global] Open Scope Z_scope.

(** ** Machine integers

    Rust's unsigned integers are kept as [Z] with their width written out: a
    value [x] of width [w] satisfies [0 <= x < 2 ^ w]; operations that wrap
    are written with [wrap].  [usize] is 64 bits wide. *)

Abbreviation u8 := Z (only parsing).
Abbreviation u16 := Z (only parsing).
Abbreviation u32 := Z (only parsing).
Abbreviation u64 := Z (only parsing).
Abbreviation usize := Z (only parsing).

Definition fits (w x : Z) : Prop := 0 <= x < 2 ^ w.
Definition wrap (w x : Z) : Z := x mod 2 ^ w.

#[export] Instance fits_dec w x : Decision (fits w x).
Proof. unfold fits. apply _. Defined.

(** A byte string ([&[u8]], [Vec<u8>], [Bytes]) and its validity. *)
Abbreviation bytes := (list Z) (only parsing).
Definition is_bytes (bs : bytes) : Prop := Forall (fits 8) bs.

(** The length of a Rust slice, as a [usize]. *)
Abbreviation zlen l := (Z.of_nat (length l)).

(** ** [std::result::Result] *)

Inductive result (E T : Type) : Type :=
| Ok (t : T)
| Err (e : E).
Arguments Ok {E T} _.
Arguments Err {E T} _.

(** The [?] operator: [x ← e; k] returns early on [Err]. *)
#[export] Instance result_ret E : MRet (result E) := λ _ x, Ok x.
#[export] Instance result_bind E : MBind (result E) := λ _ _ k r,
  match r with Ok x => k x | Err e => Err e end.
#[export] Instance result_fmap E : FMap (result E) := λ _ _ f r,
  match r with Ok x => Ok (f x) | Err e => Err e end.

Definition map_err {E E' T} (f : E → E') (r : result E T) : result E' T :=
  match r with Ok x => Ok x | Err e => Err (f e) end.

Definition is_ok {E T} (r : result E T) : bool :=
  match r with Ok _ => true | Err _ => false end.

(** [Option::ok_or] and [Result::ok]. *)
Definition ok_or {E T} (e : E) (o : option T) : result E T :=
  match o with Some x => Ok x | None => Err e end.
Definition result_ok {E T} (r : result E T) : option T :=
  match r with Ok x => Some x | Err _ => None end.

(** [Option::filter]. *)
Definition option_filter {T} (f : T → bool) (o : option T) : option T :=
  match o with Some x => if f x then Some x else None | None => None end.

(** ** Automation *)

#[global] Arguments Nat.modulo : simpl never.
#[global] Arguments Z.modulo : simpl never.
#[global] Arguments Z.pow : simpl never.
#[global] Arguments Z.mul : simpl never.

Create HintDb procwire.

(** Case analysis on the first conditional or match of the goal. *)
Ltac step_match :=
  match goal with
  | |- context [if decide _ then _ else _] => case_decide
  | |- context [match ?x with _ => _ end] => destruct x eqn:?
  end.

(** Split conjunctions, existentials and equalities between pairs. *)
Ltac crush_hyps :=
  repeat match goal with
  | H : _ ∧ _ |- _ => destruct H
  | H : ∃ _, _ |- _ => destruct H
  | H : (_, _) = (_, _) |- _ => injection H as ?; subst
  | H : Ok _ = Ok _ |- _ => injection H as ?; subst
  | H : Err _ = Err _ |- _ => injection H as ?; subst
  | H : Some _ = Some _ |- _ => injection H as ?; subst
  | H : Ok _ = Err _ |- _ => discriminate H
  | H : Err _ = Ok _ |- _ => discriminate H
  | H : Some _ = None |- _ => discriminate H
  | H : None = Some _ |- _ => discriminate H
  end.

(** Reflect boolean comparisons on [Z] found in hypotheses. *)
Ltac reflect_Z :=
  repeat match goal with
  | H : (_ <? _) = true |- _ => rewrite Z.ltb_lt in H
  | H : (_ <? _) = false |- _ => rewrite Z.ltb_ge in H
  | H : (_ <=? _) = true |- _ => rewrite Z.leb_le in H
  | H : (_ <=? _) = false |- _ => rewrite Z.leb_gt in H
  | H : (_ =? _) = true |- _ => rewrite Z.eqb_eq in H
  | H : (_ =? _) = false |- _ => rewrite Z.eqb_neq in H
  end.

(** Unfold the monadic binds only. *)
Ltac msimpl :=
  cbn [mbind option_bind result_bind mret option_ret result_ret
       fmap option_fmap result_fmap option_map from_option id fst snd].

(** Validity of an explicit byte string. *)
Ltac solve_bytes :=
  unfold is_bytes;
  repeat (apply Forall_cons; split; [assumption || (unfold fits; simpl; lia)|]);
  solve [by apply Forall_nil | assumption].

(** ** Bounds *)

Lemma wrap_fits w x : 0 <= w → fits w (wrap w x).
Proof. intros Hw. apply Z.mod_pos_bound, Z.pow_pos_nonneg; lia. Qed.

Lemma wrap_id w x : fits w x → wrap w x = x.
Proof. intros H. by apply Z.mod_small. Qed.

Lemma is_bytes_app xs ys : is_bytes (xs ++ ys) ↔ is_bytes xs ∧ is_bytes ys.
Proof. apply Forall_app. Qed.

Lemma is_bytes_take n xs : is_bytes xs → is_bytes (take n xs).
Proof. apply Forall_take. Qed.

Lemma is_bytes_drop n xs : is_bytes xs → is_bytes (drop n xs).
Proof. apply Forall_drop. Qed.

#[export] Hint Resolve wrap_fits is_bytes_take is_bytes_drop : procwire.

(** ** Big-endian integers

    [to_be_bytes n x] is [uN::to_be_bytes] for an [8 * n]-bit integer and
    [from_be_bytes] its inverse. *)

Fixpoint to_be_bytes (n : nat) (x : Z) : bytes :=
  match n with
  | O => []
  | S n' => (x / 2 ^ (8 * Z.of_nat n')) mod 2 ^ 8 :: to_be_bytes n' x
  end.

Definition from_be_bytes (bs : bytes) : Z :=
  foldl (λ acc b, acc * 2 ^ 8 + b) 0 bs.

Lemma length_to_be_bytes n x : length (to_be_bytes n x) = n.
Proof. induction n; simpl; congruence. Qed.

Lemma to_be_bytes_is_bytes n x : is_bytes (to_be_bytes n x).
Proof.
  induction n as [|n IH]; constructor; [|exact IH].
  by apply Z.mod_pos_bound.
Qed.

#[export] Hint Resolve to_be_bytes_is_bytes : procwire.

Lemma foldl_be_acc bs acc :
  foldl (λ a b, a * 2 ^ 8 + b) acc bs
  = acc * 2 ^ (8 * zlen bs) + from_be_bytes bs.
Proof.
  unfold from_be_bytes. revert acc.
  induction bs as [|b bs IH]; intros acc; cbn [foldl length].
  - rewrite Z.mul_0_r. lia.
  - rewrite IH, (IH (0 * 2 ^ 8 + b)).
    replace (8 * Z.of_nat (S (length bs))) with (8 + 8 * zlen bs) by lia.
    rewrite Z.pow_add_r by lia. lia.
Qed.

Lemma from_be_bytes_cons b bs :
  from_be_bytes (b :: bs) = b * 2 ^ (8 * zlen bs) + from_be_bytes bs.
Proof. unfold from_be_bytes at 1. cbn [foldl]. rewrite foldl_be_acc. lia. Qed.

Lemma from_be_bytes_fits bs : is_bytes bs → fits (8 * zlen bs) (from_be_bytes bs).
Proof.
  unfold fits. induction 1 as [|b bs Hb Hbs IH]; [done|].
  rewrite from_be_bytes_cons. cbn [length].
  replace (8 * Z.of_nat (S (length bs))) with (8 + 8 * zlen bs) by lia.
  rewrite Z.pow_add_r by lia. unfold fits in Hb. nia.
Qed.

Lemma from_to_be_bytes_mod n x :
  from_be_bytes (to_be_bytes n x) = x mod 2 ^ (8 * Z.of_nat n).
Proof.
  induction n as [|n IH]; cbn [to_be_bytes].
  - change (2 ^ (8 * Z.of_nat 0)) with 1. by rewrite Z.mod_1_r.
  - rewrite from_be_bytes_cons, length_to_be_bytes, IH.
    replace (8 * Z.of_nat (S n)) with (8 * Z.of_nat n + 8) by lia.
    rewrite Z.pow_add_r by lia.
    rewrite Z.rem_mul_r by (try apply Z.pow_nonzero; lia). lia.
Qed.

(** Encoding then decoding is the identity on values of the width. *)
Lemma from_to_be_bytes n x :
  fits (8 * Z.of_nat n) x → from_be_bytes (to_be_bytes n x) = x.
Proof. intros H. rewrite from_to_be_bytes_mod. by apply wrap_id. Qed.

(** Decoding then encoding is the identity on byte strings. *)
Lemma to_from_be_bytes bs n :
  is_bytes bs → n = length bs → to_be_bytes n (from_be_bytes bs) = bs.
Proof.
  intros Hbs ->.
  assert (∀ k, to_be_bytes (length bs)
                 (k * 2 ^ (8 * zlen bs) + from_be_bytes bs) = bs) as Hk.
  { induction Hbs as [|b bs Hb Hbs IH]; intros k; [done|].
    cbn [to_be_bytes length]. rewrite from_be_bytes_cons.
    pose proof (from_be_bytes_fits bs Hbs) as Hf. unfold fits in Hb, Hf.
    replace (8 * Z.of_nat (S (length bs))) with (8 + 8 * zlen bs) by lia.
    rewrite Z.pow_add_r by lia. rewrite Z.add_assoc, Z.mul_assoc.
    rewrite <- Z.mul_add_distr_r. f_equal; [|apply IH].
    rewrite Z.div_add_l by lia. rewrite (Z.div_small (from_be_bytes bs)) by lia.
    rewrite Z.add_0_r, Z.add_comm, Z.mod_add by lia. by apply Z.mod_small. }
  specialize (Hk 0). by rewrite Z.mul_0_l in Hk.
Qed.

(** ** Lists *)

Lemma length_omap_le {A B} (f : A → option B) (l : list A) :
  (length (omap f l) ≤ length l)%nat.
Proof.
  induction l as [|x l IH]; [done|].
  change (omap f (x :: l)) with (match f x with Some y => y :: omap f l | None => omap f l end).
  destruct (f x); cbn [length]; lia.
Qed.

Lemma NoDup_fmap_eq {A B} (f : A → B) (l : list A) x y :
  NoDup (f <$> l) → x ∈ l → y ∈ l → f x = f y → x = y.
Proof.
  intros Hnd (i & Hi)%list_elem_of_lookup (j & Hj)%list_elem_of_lookup Heq.
  assert (i = j) as ->; [|congruence].
  eapply NoDup_lookup; [exact Hnd|rewrite list_lookup_fmap, Hi; reflexivity|].
  rewrite list_lookup_fmap, Hj. cbn. by rewrite Heq.
Qed.

Lemma filter_all {A} (P : A → Prop) `{∀ x, Decision (P x)} (l : list A) :
  Forall P l → filter P l = l.
Proof. induction 1 as [|x l Hx _ IH]; [done|]. by rewrite filter_cons_True, IH. Qed.

Lemma sublist_filter_mono {A} (P : A → Prop) `{∀ x, Decision (P x)} (l k : list A) :
  l `sublist_of` k → filter P l `sublist_of` filter P k.
Proof.
  induction 1 as [|x l k _ IH|x l k _ IH]; [done|..]; rewrite !filter_cons; case_decide;
    by try constructor.
Qed.

Lemma sum_list_with_insert {A} (f : A → nat) (l : list A) i x y :
  l !! i = Some x →
  (sum_list_with f (<[i := y]> l) + f x = sum_list_with f l + f y)%nat.
Proof.
  revert i. induction l as [|z l IH]; intros [|i] Hi; simpl in *; try done.
  - injection Hi as ->. lia.
  - specialize (IH i Hi). lia.
Qed.
