(* ===== verification/Errors.v ===== *)
(** * Error values (src/error.rs)

    [ProcwireError] and its [Display] text.  The error types of the
    serialisation crates are parameters, gathered in the class [ThirdParty];
    the code only ever wraps them and prints them. *)

From S2P Require Import Prelude.

(** What the code uses of the error types of [serde_json] and [rmp_serde]. *)
Class ThirdParty := {
  serde_json_Error : Type;
  rmp_encode_Error : Type;
  rmp_decode_Error : Type;
  show_json_Error : serde_json_Error → string;
  show_encode_Error : rmp_encode_Error → string;
  show_decode_Error : rmp_decode_Error → string
}.

(** [std::io::Error]: the kinds the code creates or matches, and a message. *)
Inductive ErrorKind :=
| WriteZero
| OtherKind (code : Z).

#[export] Instance ErrorKind_eq_dec : EqDecision ErrorKind.
Proof. solve_decision. Defined.

Record io_Error := { io_kind : ErrorKind; io_message : string }.

#[export] Instance io_Error_eq_dec : EqDecision io_Error.
Proof. solve_decision. Defined.

Inductive ProcwireError `{ThirdParty} :=
| Io (e : io_Error)
| Json (e : serde_json_Error)
| MsgPackEncode (e : rmp_encode_Error)
| MsgPackDecode (e : rmp_decode_Error)
| Protocol (message : string)
| HandlerNotFound (id : u16)
| ResponseAlreadySent
| ConnectionClosed
| BackpressureTimeout.

(** [pub type Result<T> = std::result::Result<T, ProcwireError>]. *)
Abbreviation Result T := (result ProcwireError T).

Section Display.
Context `{TP : ThirdParty}.

(** The [#[error(...)]] attributes: the text [e.to_string()] produces. *)
Definition error_to_string (e : ProcwireError) : string :=
  match e with
  | Io e => "I/O error: " +:+ io_message e
  | Json e => "JSON error: " +:+ show_json_Error e
  | MsgPackEncode e => "MsgPack encode error: " +:+ show_encode_Error e
  | MsgPackDecode e => "MsgPack decode error: " +:+ show_decode_Error e
  | Protocol m => "Protocol error: " +:+ m
  | HandlerNotFound id => "Handler not found for method ID: " +:+ pretty id
  | ResponseAlreadySent => "Response already sent for this request"
  | ConnectionClosed => "Connection closed"
  | BackpressureTimeout => "Backpressure timeout"
  end.
End Display.

(** A concrete choice of the parameters, for evaluating the model: errors are
    strings that print as themselves. *)
Definition string_errors : ThirdParty := {|
  serde_json_Error := string;
  rmp_encode_Error := string;
  rmp_decode_Error := string;
  show_json_Error := id;
  show_encode_Error := id;
  show_decode_Error := id
|}.
