(* ===== verification/WireFormat.v ===== *)
(** * The 11-byte frame header (src/protocol/wire_format.rs)

    Constants, the flag byte, [Header] with its encoder, decoder and
    validation.  Slices that the code writes in place are passed as values and
    returned; [None] is a panic. *)

From S2P Require Import Prelude Errors.

Definition HEADER_SIZE : nat := 11.
Definition DEFAULT_MAX_PAYLOAD_SIZE : u32 := 1073741824.
Definition ABSOLUTE_MAX_PAYLOAD_SIZE : u32 := 2147483647.
Definition ABORT_METHOD_ID : u16 := 0xFFFF.
Definition AUTH_METHOD_ID : u16 := 0xFFFE.
Definition RESERVED_METHOD_ID : u16 := 0.
Definition HEADER_POOL_SIZE : nat := 16.

(** ** [mod flags] *)

Module flags.
Definition DIRECTION_TO_PARENT : u8 := 1.
Definition IS_RESPONSE : u8 := 2.
Definition IS_ERROR : u8 := 4.
Definition IS_STREAM : u8 := 8.
Definition STREAM_END : u8 := 16.
Definition IS_ACK : u8 := 32.
Definition RESERVED_MASK : u8 := 192.

Definition has_flag (flags flag : u8) : bool := negb (Z.land flags flag =? 0).

Definition RESPONSE : u8 := Z.lor DIRECTION_TO_PARENT IS_RESPONSE.
Definition ERROR_RESPONSE : u8 := Z.lor (Z.lor DIRECTION_TO_PARENT IS_RESPONSE) IS_ERROR.
Definition STREAM_ERROR_RESPONSE : u8 :=
  Z.lor (Z.lor (Z.lor DIRECTION_TO_PARENT IS_RESPONSE) IS_ERROR) IS_STREAM.
Definition STREAM_CHUNK : u8 := Z.lor (Z.lor DIRECTION_TO_PARENT IS_RESPONSE) IS_STREAM.
Definition STREAM_END_RESPONSE : u8 :=
  Z.lor (Z.lor (Z.lor DIRECTION_TO_PARENT IS_RESPONSE) IS_STREAM) STREAM_END.
Definition ACK_RESPONSE : u8 := Z.lor (Z.lor DIRECTION_TO_PARENT IS_RESPONSE) IS_ACK.
End flags.

(** ** [Header] *)

Record Header := new_header {
  method_id : u16;
  hflags : u8;
  request_id : u32;
  payload_length : u32
}.

#[export] Instance Header_eq_dec : EqDecision Header.
Proof. solve_decision. Defined.

(** The Rust types of the fields. *)
Record header_wf (h : Header) : Prop := {
  wf_method_id : fits 16 (method_id h);
  wf_flags : fits 8 (hflags h);
  wf_request_id : fits 32 (request_id h);
  wf_payload_length : fits 32 (payload_length h)
}.

(** [buf[a..b].copy_from_slice(src)]: panics when the range is out of bounds
    or the lengths differ. *)
Definition copy_from_slice (a b : nat) (src buf : bytes) : option bytes :=
  if decide (a ≤ b ≤ length buf ∧ length src = b - a)%nat
  then Some (take a buf ++ src ++ drop b buf) else None.

(** [buf[i] = x]. *)
Definition index_set (i : nat) (x : Z) (buf : bytes) : option bytes :=
  if decide (i < length buf)%nat then Some (<[i := x]> buf) else None.

Definition encode_into (h : Header) (buf : bytes) : option bytes :=
  buf ← copy_from_slice 0 2 (to_be_bytes 2 (method_id h)) buf;
  buf ← index_set 2 (hflags h) buf;
  buf ← copy_from_slice 3 7 (to_be_bytes 4 (request_id h)) buf;
  copy_from_slice 7 11 (to_be_bytes 4 (payload_length h)) buf.

(** [encode] works on a zeroed [[u8; 11]], on which [encode_into] cannot panic
    (lemma [encode_eq]). *)
Definition encode (h : Header) : bytes :=
  default [] (encode_into h (replicate HEADER_SIZE 0)).

(** [buf[i]], which the length test guards. *)
Definition byte_at (buf : bytes) (i : nat) : u8 := default 0 (buf !! i).

Definition decode (buf : bytes) : option Header :=
  if decide (length buf < HEADER_SIZE)%nat then None
  else Some {|
    method_id := from_be_bytes [byte_at buf 0; byte_at buf 1];
    hflags := byte_at buf 2;
    request_id :=
      from_be_bytes [byte_at buf 3; byte_at buf 4; byte_at buf 5; byte_at buf 6];
    payload_length :=
      from_be_bytes [byte_at buf 7; byte_at buf 8; byte_at buf 9; byte_at buf 10]
  |}.

Definition validate `{ThirdParty} (h : Header) (max_payload_size : u32) : Result unit :=
  if method_id h =? RESERVED_METHOD_ID then Err (Protocol "Method ID 0 is reserved")
  else if max_payload_size <? payload_length h then
    Err (Protocol ("Payload size " +:+ pretty (payload_length h)
                   +:+ " exceeds maximum " +:+ pretty max_payload_size))
  else if ABSOLUTE_MAX_PAYLOAD_SIZE <? payload_length h then
    Err (Protocol ("Payload size " +:+ pretty (payload_length h)
                   +:+ " exceeds absolute maximum " +:+ pretty ABSOLUTE_MAX_PAYLOAD_SIZE))
  else if negb (Z.land (hflags h) flags.RESERVED_MASK =? 0) then
    Err (Protocol "Reserved flag bits must be 0")
  else Ok tt.

Definition is_abort (h : Header) : bool := method_id h =? ABORT_METHOD_ID.
Definition is_auth (h : Header) : bool := method_id h =? AUTH_METHOD_ID.
Definition is_response (h : Header) : bool := flags.has_flag (hflags h) flags.IS_RESPONSE.
Definition is_error (h : Header) : bool := flags.has_flag (hflags h) flags.IS_ERROR.
Definition is_stream (h : Header) : bool := flags.has_flag (hflags h) flags.IS_STREAM.
Definition is_stream_end (h : Header) : bool := flags.has_flag (hflags h) flags.STREAM_END.
Definition is_ack (h : Header) : bool := flags.has_flag (hflags h) flags.IS_ACK.
Definition is_to_parent (h : Header) : bool :=
  flags.has_flag (hflags h) flags.DIRECTION_TO_PARENT.
Definition is_event (h : Header) : bool := request_id h =? 0.

(** The standalone functions. *)
Definition encode_header (h : Header) : bytes := encode h.
Definition encode_header_into (buf : bytes) (h : Header) : option bytes := encode_into h buf.
Definition decode_header (buf : bytes) : option Header := decode buf.
Definition validate_header `{ThirdParty} (h : Header) (max : u32) : Result unit :=
  validate h max.

(** ** Specification: the header layout *)

(** The layout the module comment draws: method id, flags, request id, length. *)
Definition header_layout (h : Header) : bytes :=
  to_be_bytes 2 (method_id h) ++ [hflags h]
    ++ to_be_bytes 4 (request_id h) ++ to_be_bytes 4 (payload_length h).

#[global] Arguments header_layout : simpl never.
#[global] Arguments encode : simpl never.
#[global] Arguments decode : simpl never.
#[global] Arguments validate : simpl never.

(** The contract every frame on the wire is held to. *)
Definition header_valid (max : u32) (h : Header) : Prop :=
  method_id h ≠ RESERVED_METHOD_ID
  ∧ payload_length h ≤ max
  ∧ payload_length h ≤ ABSOLUTE_MAX_PAYLOAD_SIZE
  ∧ Z.land (hflags h) flags.RESERVED_MASK = 0.

#[export] Instance header_valid_dec max h : Decision (header_valid max h).
Proof. unfold header_valid. apply _. Defined.

(** ** Lemmas *)

Lemma length_header_layout h : length (header_layout h) = HEADER_SIZE.
Proof. done. Qed.

Lemma header_layout_is_bytes h : header_wf h → is_bytes (header_layout h).
Proof.
  intros [? Hf ? ?]. unfold header_layout.
  rewrite !is_bytes_app. split_and!; auto with procwire. by constructor.
Qed.

Lemma encode_into_panics h buf :
  (length buf < HEADER_SIZE)%nat → encode_into h buf = None.
Proof.
  unfold HEADER_SIZE. intros Hlen.
  do 11 (destruct buf as [|? buf]; [reflexivity|]). simpl in Hlen. lia.
Qed.

Lemma encode_into_writes h buf :
  (HEADER_SIZE ≤ length buf)%nat →
  encode_into h buf = Some (header_layout h ++ drop HEADER_SIZE buf).
Proof.
  unfold HEADER_SIZE. intros Hlen.
  do 11 (destruct buf as [|? buf]; [simpl in Hlen; lia|]).
  unfold encode_into, copy_from_slice, index_set. simpl.
  repeat (rewrite decide_True by (simpl; lia); simpl). done.
Qed.

Lemma encode_eq h : encode h = header_layout h.
Proof. unfold encode. by rewrite encode_into_writes. Qed.

Lemma length_encode h : length (encode h) = HEADER_SIZE.
Proof. by rewrite encode_eq. Qed.

(** The header the layout of [h] holds: its fields cut to their widths. *)
Definition header_cut (h : Header) : Header :=
  {| method_id := wrap 16 (method_id h); hflags := hflags h;
     request_id := wrap 32 (request_id h); payload_length := wrap 32 (payload_length h) |}.

Lemma decode_layout_cut h rest : decode (header_layout h ++ rest) = Some (header_cut h).
Proof.
  unfold decode. rewrite decide_False by (rewrite length_app, length_header_layout; lia).
  destruct h as [m f r p]. unfold header_cut. cbn [method_id hflags request_id payload_length].
  do 2 f_equal.
  - exact (from_to_be_bytes_mod 2 m).
  - exact (from_to_be_bytes_mod 4 r).
  - exact (from_to_be_bytes_mod 4 p).
Qed.

Lemma header_cut_id h : header_wf h → header_cut h = h.
Proof. intros [Hm _ Hr Hp]. destruct h. unfold header_cut. simpl in *. by rewrite !wrap_id. Qed.

Lemma decode_layout h rest : header_wf h → decode (header_layout h ++ rest) = Some h.
Proof. intros Hh. by rewrite decode_layout_cut, header_cut_id. Qed.

Lemma decode_short buf : decode buf = None ↔ (length buf < HEADER_SIZE)%nat.
Proof. unfold decode. case_decide; split; intros; (done || lia). Qed.

(** Peeking at the first eleven bytes decodes the same header. *)
Lemma decode_take buf : decode (take HEADER_SIZE buf) = decode buf.
Proof.
  unfold HEADER_SIZE.
  do 11 (destruct buf as [|? buf]; [reflexivity|]). simpl.
  unfold decode. rewrite decide_False by (simpl; unfold HEADER_SIZE; lia).
  rewrite decide_False by (simpl; unfold HEADER_SIZE; lia). done.
Qed.

Lemma decode_app buf rest h : decode buf = Some h → decode (buf ++ rest) = Some h.
Proof.
  intros H. rewrite <- decode_take in H |- *.
  destruct (decide (length buf < HEADER_SIZE)%nat) as [Hs|Hs].
  - rewrite decode_take, (proj2 (decode_short buf)) in H by done. done.
  - by rewrite take_app_le by lia.
Qed.

Lemma decode_inv buf h :
  is_bytes buf → decode buf = Some h →
  header_wf h ∧ header_layout h = take HEADER_SIZE buf.
Proof.
  intros Hb Hd.
  assert (Hlen : ¬ (length buf < HEADER_SIZE)%nat).
  { rewrite <- decode_short, Hd. done. }
  unfold HEADER_SIZE in *.
  do 11 (destruct buf as [|? buf]; [simpl in Hlen; lia|]).
  unfold decode in Hd. rewrite decide_False in Hd by done.
  unfold is_bytes in Hb.
  repeat match goal with
  | H : Forall _ (_ :: _) |- _ => apply Forall_cons in H as [? H]
  end.
  injection Hd as <-. unfold header_layout. cbn [method_id hflags request_id payload_length].
  split.
  - split; cbn [method_id hflags request_id payload_length]; [|done| |].
    + apply (from_be_bytes_fits [_; _]). solve_bytes.
    + apply (from_be_bytes_fits [_; _; _; _]). solve_bytes.
    + apply (from_be_bytes_fits [_; _; _; _]). solve_bytes.
  - cbn [take]. do 2 rewrite (to_from_be_bytes _ 4) by first [reflexivity | solve_bytes].
    rewrite to_from_be_bytes by first [reflexivity | solve_bytes]. done.
Qed.

(** Whatever integers a header holds, its layout is that of the truncated
    fields. *)
Lemma header_layout_cut h :
  fits 8 (hflags h) → header_wf (header_cut h) ∧ header_layout (header_cut h) = header_layout h.
Proof.
  intros Hf. destruct (decode_inv (header_layout h) (header_cut h)) as [Hwf Heq].
  - unfold header_layout. rewrite !is_bytes_app. split_and!; auto with procwire. by constructor.
  - rewrite <- (app_nil_r (header_layout h)). apply decode_layout_cut.
  - split; [done|]. by rewrite Heq, take_ge by (by rewrite length_header_layout).
Qed.

Section Validate.
Context `{TP : ThirdParty}.

Lemma validate_ok h max : validate h max = Ok tt ↔ header_valid max h.
Proof.
  unfold validate, header_valid.
  destruct (method_id h =? RESERVED_METHOD_ID) eqn:E1; reflect_Z;
    [split; [done | intros (? & _); done]|].
  destruct (max <? payload_length h) eqn:E2; reflect_Z;
    [split; [done | lia]|].
  destruct (ABSOLUTE_MAX_PAYLOAD_SIZE <? payload_length h) eqn:E3; reflect_Z;
    [split; [done|lia]|].
  destruct (Z.land (hflags h) flags.RESERVED_MASK =? 0) eqn:E4; reflect_Z.
  - split; [intros _; split_and!; done || lia | done].
  - split; [done | intros (_ & _ & _ & ?); done].
Qed.

Lemma validate_err h max : ¬ header_valid max h → ∃ m, validate h max = Err (Protocol m).
Proof.
  rewrite <- validate_ok. unfold validate. intros H.
  repeat (case_match; eauto). done.
Qed.
End Validate.

(** ** Properties *)

(** C34: decoding inverts encoding.  A header whose fields fit their Rust types,
    encoded and followed by any bytes, decodes to itself. *)
Theorem decode_encode_roundtrip (h : Header) (rest : bytes) :
  header_wf h → decode (encode h ++ rest) = Some h.
Proof. intros H. rewrite encode_eq. by apply decode_layout. Qed.

Lemma decode_encode_roundtrip_witness :
  decode (encode (new_header 0x0102 3 0x04050607 0x08090A0B) ++ [7])
  = Some (new_header 0x0102 3 0x04050607 0x08090A0B).
Proof. apply decode_encode_roundtrip. split; by vm_compute. Defined.

(** C35: encoding inverts decoding.  Whenever a byte string decodes, the header
    found fits its Rust types, and encoding it gives back exactly the first
    eleven bytes, so the header codec loses no information in either
    direction. *)
Theorem encode_decode_roundtrip (buf : bytes) (h : Header) :
  is_bytes buf → decode buf = Some h → header_wf h ∧ encode h = take HEADER_SIZE buf.
Proof. intros Hb Hd. rewrite encode_eq. by apply decode_inv. Qed.

Lemma encode_decode_roundtrip_witness :
  let buf := [0; 1; 3; 0; 0; 0; 42; 0; 0; 0; 100; 9] in
  header_wf (new_header 1 3 42 100) ∧ encode (new_header 1 3 42 100) = take HEADER_SIZE buf.
Proof. apply encode_decode_roundtrip; [by repeat constructor | reflexivity]. Defined.

(** [encode_into] panics exactly on buffers shorter than the header, and
    otherwise writes the documented big-endian layout over the first eleven
    bytes and leaves the remaining bytes alone. *)
Theorem encode_into_spec (h : Header) (buf : bytes) :
  encode_into h buf =
    if decide (length buf < HEADER_SIZE)%nat then None
    else Some (header_layout h ++ drop HEADER_SIZE buf).
Proof.
  case_decide as Hd; [by apply encode_into_panics|].
  apply encode_into_writes. lia.
Qed.

(** [validate] accepts a header exactly when its method id is not 0, its
    declared payload length is within both the configured and the absolute
    maximum, and reserved bits 6 and 7 are clear; otherwise it returns a
    protocol error. *)
Theorem validate_spec `{TP : ThirdParty} (h : Header) (max : u32) :
  if decide (header_valid max h) then validate h max = Ok tt
  else ∃ m, validate h max = Err (Protocol m).
Proof.
  case_decide as Hv; [by apply validate_ok | by apply validate_err].
Qed.
