(* ===== verification/Frame.v ===== *)
(** * Frames (src/protocol/frame.rs)

    A header with its payload, the accessors, and the builders of the
    contiguous and the scatter/gather form of a frame. *)

From S2P Require Import Prelude Errors WireFormat.

(** [struct Frame]; [Frame::new] is its constructor.  The reference-counted
    [Bytes] of the payload is immutable, so it is a value. *)
Record Frame := new_frame {
  header : Header;
  payload : bytes
}.

#[export] Instance Frame_eq_dec : EqDecision Frame.
Proof. solve_decision. Defined.

Definition from_parts (h : Header) (p : bytes) : Frame := new_frame h p.
Definition frame_payload_bytes (f : Frame) : bytes := payload f.
Definition frame_payload_len (f : Frame) : usize := zlen (payload f).
Definition frame_method_id (f : Frame) : u16 := method_id (header f).
Definition frame_flags (f : Frame) : u8 := hflags (header f).
Definition frame_request_id (f : Frame) : u32 := request_id (header f).
Definition frame_is_response (f : Frame) : bool :=
  flags.has_flag (hflags (header f)) flags.IS_RESPONSE.
Definition frame_is_error (f : Frame) : bool :=
  flags.has_flag (hflags (header f)) flags.IS_ERROR.
Definition frame_is_stream (f : Frame) : bool :=
  flags.has_flag (hflags (header f)) flags.IS_STREAM.
Definition frame_is_stream_end (f : Frame) : bool :=
  flags.has_flag (hflags (header f)) flags.STREAM_END.
Definition frame_is_ack (f : Frame) : bool :=
  flags.has_flag (hflags (header f)) flags.IS_ACK.
Definition frame_is_to_parent (f : Frame) : bool :=
  flags.has_flag (hflags (header f)) flags.DIRECTION_TO_PARENT.
Definition frame_is_event (f : Frame) : bool :=
  (request_id (header f) =? 0) && negb (frame_is_response f).
Definition frame_is_abort (f : Frame) : bool := is_abort (header f).

Definition build_frame (h : Header) (p : bytes) : bytes := encode h ++ p.
Definition build_frame_parts (h : Header) (p : bytes) : bytes * bytes := (encode h, p).

(** The bytes of a whole frame on the wire. *)
Definition frame_bytes (f : Frame) : bytes := build_frame (header f) (payload f).

(** A frame as the parser yields it: a header of the right types that passes
    validation, and as many payload bytes as the header declares. *)
Record frame_wf (max : u32) (f : Frame) : Prop := {
  fwf_header : header_wf (header f);
  fwf_valid : header_valid max (header f);
  fwf_length : zlen (payload f) = payload_length (header f);
  fwf_bytes : is_bytes (payload f)
}.

(** A frame within a limit is within the limit of the wire format. *)
Lemma frame_wf_absolute max f : frame_wf max f → frame_wf ABSOLUTE_MAX_PAYLOAD_SIZE f.
Proof. intros [? (? & ? & ? & ?) ? ?]. by split. Qed.

Lemma length_build_frame h p : length (build_frame h p) = (HEADER_SIZE + length p)%nat.
Proof. unfold build_frame. by rewrite length_app, length_encode. Qed.

Lemma frame_bytes_is_bytes max f : frame_wf max f → is_bytes (frame_bytes f).
Proof.
  intros [Hh _ _ Hp]. unfold frame_bytes, build_frame.
  rewrite encode_eq, is_bytes_app. auto using header_layout_is_bytes.
Qed.

#[export] Hint Resolve frame_bytes_is_bytes header_layout_is_bytes : procwire.
