(* ===== verification/HeaderPool.v ===== *)
(** * The header buffer pool (src/protocol/header_pool.rs)

    Sixteen eleven-byte buffers handed out round-robin.  [acquire] returns a
    reference into the pool, modelled as the index of the buffer, so that two
    acquisitions of the same buffer alias. *)

From S2P Require Import Prelude Errors WireFormat.

Record HeaderPool := {
  buffers : list bytes;
  index : nat
}.

Definition new_pool : HeaderPool := {|
  buffers := replicate HEADER_POOL_SIZE (replicate HEADER_SIZE 0);
  index := 0
|}.

(** [HeaderPool::default], and the pool a thread starts with. *)
Definition default_pool : HeaderPool := new_pool.
Definition THREAD_LOCAL_POOL : HeaderPool := new_pool.

(** [&mut self.buffers[self.index]] panics out of range; the reference is the
    index. *)
Definition acquire (p : HeaderPool) : option (HeaderPool * nat) :=
  if decide (index p < length (buffers p))%nat then
    Some ({| buffers := buffers p;
             index := ((index p + 1) mod HEADER_POOL_SIZE)%nat |}, index p)
  else None.

(** Reading through a reference returned by [acquire]. *)
Definition deref (p : HeaderPool) (r : nat) : bytes := default [] (buffers p !! r).

(** [header.encode_into(buf)] through a reference. *)
Definition encode_at (p : HeaderPool) (r : nat) (h : Header) : option HeaderPool :=
  buf ← buffers p !! r;
  buf' ← encode_into h buf;
  Some {| buffers := <[r := buf']> (buffers p); index := index p |}.

(** [HeaderPool::encode]: the reference to the buffer now holding the header. *)
Definition pool_encode (p : HeaderPool) (h : Header) : option (HeaderPool * nat) :=
  '(p', r) ← acquire p;
  p'' ← encode_at p' r h;
  Some (p'', r).

Definition current_index (p : HeaderPool) : nat := index p.

Definition reset (p : HeaderPool) : HeaderPool := {| buffers := buffers p; index := 0 |}.

(** [encode_header_pooled] on the calling thread's pool: the new pool and the
    copy of the buffer it returns. *)
Definition encode_header_pooled (p : HeaderPool) (h : Header) : option (HeaderPool * bytes) :=
  '(p', r) ← acquire p;
  p'' ← encode_at p' r h;
  Some (p'', deref p'' r).

(** [with_header_pool(f)]: run a closure on the thread's pool. *)
Definition with_header_pool {R} (p : HeaderPool) (f : HeaderPool → HeaderPool * R) :
  HeaderPool * R := f p.

(** Encoding a sequence of headers, keeping every reference. *)
Fixpoint pool_encode_all (p : HeaderPool) (hs : list Header) :
  option (HeaderPool * list nat) :=
  match hs with
  | [] => Some (p, [])
  | h :: hs =>
    '(p', r) ← pool_encode p h;
    '(p'', rs) ← pool_encode_all p' hs;
    Some (p'', r :: rs)
  end.

(** ** The invariant *)

Record pool_wf (p : HeaderPool) : Prop := {
  pool_wf_count : length (buffers p) = HEADER_POOL_SIZE;
  pool_wf_sizes : Forall (λ b, length b = HEADER_SIZE) (buffers p);
  pool_wf_index : (index p < HEADER_POOL_SIZE)%nat
}.

Lemma new_pool_wf : pool_wf new_pool.
Proof.
  split; simpl; [done|by repeat constructor|]. unfold HEADER_POOL_SIZE. lia.
Qed.

Lemma reset_wf p : pool_wf p → pool_wf (reset p).
Proof. intros [H1 H2 H3]. split; simpl; [done|done|]. unfold HEADER_POOL_SIZE. lia. Qed.

(** What one [pool_encode] does to a well-formed pool. *)
Lemma pool_encode_eq p h :
  pool_wf p →
  pool_encode p h =
    Some ({| buffers := <[index p := header_layout h]> (buffers p);
             index := ((index p + 1) mod HEADER_POOL_SIZE)%nat |}, index p).
Proof.
  intros [Hc Hs Hi]. unfold pool_encode, acquire.
  rewrite decide_True by lia. msimpl. unfold encode_at. cbn [buffers index].
  destruct (lookup_lt_is_Some_2 (buffers p) (index p)) as [b Hb]; [lia|].
  rewrite Hb. msimpl.
  assert (length b = HEADER_SIZE) as Hlen by (by exact (Forall_lookup_1 _ _ _ _ Hs Hb)).
  rewrite encode_into_writes by lia. msimpl.
  by rewrite drop_ge, app_nil_r by lia.
Qed.

Lemma pool_encode_wf p h p' r :
  pool_wf p → pool_encode p h = Some (p', r) → pool_wf p'.
Proof.
  intros Hw. rewrite pool_encode_eq by done. intros [= <- <-]. destruct Hw as [Hc Hs Hi].
  split; cbn [buffers index].
  - by rewrite length_insert.
  - apply Forall_insert; [done|]. apply length_header_layout.
  - apply Nat.mod_upper_bound. done.
Qed.

(** A slot comes round again only after a full turn. *)
Lemma slot_not_reused i k :
  (i < HEADER_POOL_SIZE)%nat → (S k < HEADER_POOL_SIZE)%nat →
  i ≠ ((i + S k) mod HEADER_POOL_SIZE)%nat.
Proof.
  unfold HEADER_POOL_SIZE. intros Hi Hk.
  destruct (decide (i + S k < 16)%nat).
  - rewrite Nat.mod_small by lia. lia.
  - replace (i + S k)%nat with ((i + S k - 16) + 1 * 16)%nat by lia.
    rewrite Nat.Div0.mod_add, Nat.mod_small by lia. lia.
Qed.

(** The [k]-th of a run of encodings goes to slot [index + k] modulo 16. *)
Lemma pool_encode_all_spec hs p :
  pool_wf p →
  ∃ p' rs, pool_encode_all p hs = Some (p', rs) ∧ pool_wf p'
    ∧ rs = (λ k, (index p + k) mod HEADER_POOL_SIZE)%nat <$> seq 0 (length hs)
    ∧ (∀ s, (∀ k, (k < length hs)%nat → s ≠ ((index p + k) mod HEADER_POOL_SIZE)%nat) →
            buffers p' !! s = buffers p !! s)
    ∧ (∀ k h, hs !! k = Some h → (length hs ≤ k + HEADER_POOL_SIZE)%nat →
              buffers p' !! ((index p + k) mod HEADER_POOL_SIZE)%nat
              = Some (header_layout h)).
Proof.
  revert p. induction hs as [|h hs IH]; intros p Hw.
  { exists p, []. split_and!; try done. }
  pose proof (pool_encode_eq p h Hw) as He.
  destruct (pool_encode p h) as [[p1 r]|] eqn:Hp; [|done]. injection He as -> ->.
  set (p1 := {| buffers := _; index := _ |}) in *.
  pose proof (pool_encode_wf _ _ _ _ Hw Hp) as Hw1.
  destruct (IH p1 Hw1) as (p' & rs & Hall & Hw' & Hrs & Hkeep & Hlast).
  assert (Hidx : ∀ k, ((index p1 + k) mod HEADER_POOL_SIZE
                       = (index p + S k) mod HEADER_POOL_SIZE)%nat).
  { intros k. subst p1. cbn [index]. rewrite Nat.Div0.add_mod_idemp_l. f_equal. lia. }
  assert (H0 : ((index p + 0) mod HEADER_POOL_SIZE = index p)%nat).
  { rewrite Nat.add_0_r. apply Nat.mod_small, Hw. }
  exists p', (index p :: rs). cbn [pool_encode_all]. rewrite Hp. msimpl. rewrite Hall. msimpl.
  split_and!; [done|done| | |].
  - cbn [length seq fmap list_fmap]. f_equal; [done|]. rewrite Hrs.
    rewrite <- fmap_S_seq, <- list_fmap_compose. apply list_fmap_ext. intros _ k _.
    apply Hidx.
  - intros s Hs. rewrite Hkeep.
    + subst p1. cbn [buffers]. rewrite list_lookup_insert_ne; [done|].
      specialize (Hs 0%nat). rewrite H0 in Hs. intros <-. apply Hs; [|done].
      cbn [length]. lia.
    + intros k Hk. rewrite Hidx. apply Hs. cbn [length]. lia.
  - intros [|k] h' Hk Hlen; cbn [lookup list_lookup length] in Hk, Hlen.
    + injection Hk as ->. rewrite H0, Hkeep.
      * apply list_lookup_insert_eq. destruct Hw. lia.
      * intros k Hk. rewrite Hidx. destruct Hw as [_ _ Hi].
        apply slot_not_reused; [done|lia].
    + rewrite <- Hidx. apply Hlast; [done|lia].
Qed.

(** ** Properties *)

(** On any reachable pool the pooled encoder cannot panic, keeps the pool
    well formed, and returns exactly the bytes [Header::encode] returns. *)
Theorem encode_header_pooled_eq (p : HeaderPool) (h : Header) :
  pool_wf p →
  ∃ p', encode_header_pooled p h = Some (p', encode h) ∧ pool_wf p'.
Proof.
  intros Hw. pose proof (pool_encode_eq p h Hw) as He.
  pose proof (pool_encode_wf p h) as Hwf.
  unfold pool_encode, encode_header_pooled in *.
  destruct (acquire p) as [[p1 r]|]; [|done]. cbn [mbind option_bind] in *.
  destruct (encode_at p1 r h) as [p2|] eqn:E; [|done]. cbn [mbind option_bind] in *.
  injection He as -> ->. eexists. split; [|by eapply Hwf]. do 2 f_equal.
  unfold deref. cbn [buffers]. rewrite list_lookup_insert_eq by (destruct Hw; lia).
  msimpl. symmetry. apply encode_eq.
Qed.

Lemma encode_header_pooled_eq_witness :
  ∃ p', encode_header_pooled new_pool (new_header 1 3 42 100)
        = Some (p', encode (new_header 1 3 42 100)) ∧ pool_wf p'.
Proof. apply encode_header_pooled_eq. exact new_pool_wf. Defined.

(** C39: aliasing in the pool.  Encoding up to sixteen headers in sequence
    while keeping the references leaves every one of them readable: the k-th
    reference still reads the k-th header.  (With more than sixteen, slots are
    reused: only the last sixteen references are intact.) *)
Theorem pool_references_valid (p : HeaderPool) (hs : list Header) :
  pool_wf p →
  ∃ p' rs, pool_encode_all p hs = Some (p', rs) ∧ length rs = length hs ∧
    ∀ k r h, rs !! k = Some r → hs !! k = Some h →
      (length hs ≤ k + HEADER_POOL_SIZE)%nat → deref p' r = encode h.
Proof.
  intros Hw. destruct (pool_encode_all_spec hs p Hw) as (p' & rs & Hall & _ & -> & _ & Hl).
  eexists _, _. split_and!; [exact Hall|by rewrite length_fmap, length_seq|].
  intros k r h Hr Hh Hk. rewrite list_lookup_fmap in Hr.
  rewrite lookup_seq_lt in Hr by (by eapply lookup_lt_Some). injection Hr as <-.
  unfold deref. rewrite (Hl k h Hh Hk). msimpl. symmetry. apply encode_eq.
Qed.

Lemma pool_references_valid_witness :
  ∃ p' rs, pool_encode_all new_pool [new_header 1 0 1 0; new_header 2 0 2 0] = Some (p', rs)
    ∧ length rs = 2%nat ∧
    ∀ k r h, rs !! k = Some r → [new_header 1 0 1 0; new_header 2 0 2 0] !! k = Some h →
      (2 ≤ k + HEADER_POOL_SIZE)%nat → deref p' r = encode h.
Proof.
  exact (pool_references_valid new_pool [new_header 1 0 1 0; new_header 2 0 2 0] new_pool_wf).
Defined.
