(* ===== verification/FrameBuffer.v ===== *)
(** * The frame buffer (src/protocol/frame_buffer.rs)

    The state machine that turns the chunks read from the socket back into
    frames.  Its reference is [parse], a parser over the whole byte stream
    that knows nothing of chunks, states or buffers. *)

From S2P Require Import Prelude Errors WireFormat Frame.

Inductive State :=
| WaitingForHeader
| WaitingForPayload (h : Header) (remaining : u32).

(** The capacity passed to [BytesMut::with_capacity] only pre-allocates; the
    buffer grows, so it is not part of the state. *)
Record FrameBuffer := {
  buffer : bytes;
  state : State;
  max_payload_size : u32
}.

Definition with_max_payload (max : u32) : FrameBuffer :=
  {| buffer := []; state := WaitingForHeader; max_payload_size := max |}.

Definition with_capacity_and_max_payload (capacity : usize) (max : u32) : FrameBuffer :=
  {| buffer := []; state := WaitingForHeader; max_payload_size := max |}.

Definition new_buffer : FrameBuffer := with_max_payload DEFAULT_MAX_PAYLOAD_SIZE.

Definition set_buffer (b : bytes) (fb : FrameBuffer) : FrameBuffer :=
  {| buffer := b; state := state fb; max_payload_size := max_payload_size fb |}.
Definition set_state (s : State) (fb : FrameBuffer) : FrameBuffer :=
  {| buffer := buffer fb; state := s; max_payload_size := max_payload_size fb |}.

(** [self.buffer.split_to(n)] when at least [n] bytes are buffered: the first
    [n] bytes, and the buffer without them. *)
Definition split_to (n : nat) (fb : FrameBuffer) : bytes * FrameBuffer :=
  (take n (buffer fb), set_buffer (drop n (buffer fb)) fb).

Definition extend (fb : FrameBuffer) (data : bytes) : FrameBuffer :=
  set_buffer (buffer fb ++ data) fb.

Section Extract.
Context `{TP : ThirdParty}.

(** The [WaitingForPayload] arm of [try_extract_one]. *)
Definition extract_payload (h : Header) (remaining : u32) (fb : FrameBuffer) :
  FrameBuffer * Result (option Frame) :=
  let remaining := Z.to_nat remaining in
  if decide (length (buffer fb) < remaining)%nat then (fb, Ok None)
  else
    let '(p, fb) := split_to remaining fb in
    (set_state WaitingForHeader fb, Ok (Some (new_frame h p))).

(** [try_extract_one].  Its recursive call is made in the state it has just
    set, [WaitingForPayload], so it is the arm above. *)
Definition try_extract_one (fb : FrameBuffer) : FrameBuffer * Result (option Frame) :=
  match state fb with
  | WaitingForHeader =>
    if decide (length (buffer fb) < HEADER_SIZE)%nat then (fb, Ok None)
    else
      match decode (take HEADER_SIZE (buffer fb)) with
      | None => (fb, Ok None) (* [expect]: not reachable: eleven bytes decode ([decode_short]) *)
      | Some h =>
        match validate h (max_payload_size fb) with
        | Err e => (fb, Err e)
        | Ok _ =>
          let '(_, fb) := split_to HEADER_SIZE fb in
          if payload_length h =? 0 then (fb, Ok (Some (new_frame h [])))
          else
            let fb := set_state (WaitingForPayload h (payload_length h)) fb in
            extract_payload h (payload_length h) fb
        end
      end
  | WaitingForPayload h remaining => extract_payload h remaining fb
  end.

(** The [while let] loop of [push]; every turn but the last consumes buffered
    bytes, so the fuel [push] passes is never exhausted ([push_loop_fuel]). *)
Fixpoint push_loop (fuel : nat) (fb : FrameBuffer) (frames : list Frame) :
  FrameBuffer * Result (list Frame) :=
  match fuel with
  | O => (fb, Ok frames)
  | S fuel =>
    match try_extract_one fb with
    | (fb, Ok (Some f)) => push_loop fuel fb (frames ++ [f])
    | (fb, Ok None) => (fb, Ok frames)
    | (fb, Err e) => (fb, Err e)
    end
  end.

Definition push_fuel (fb : FrameBuffer) : nat := S (S (length (buffer fb))).

Definition push (fb : FrameBuffer) (data : bytes) : FrameBuffer * Result (list Frame) :=
  let fb := extend fb data in
  push_loop (push_fuel fb) fb [].

(** [try_extract]: [self.try_extract_one().ok().flatten()]. *)
Definition try_extract (fb : FrameBuffer) : FrameBuffer * option Frame :=
  let '(fb, r) := try_extract_one fb in
  (fb, match r with Ok o => o | Err _ => None end).

Definition fb_len (fb : FrameBuffer) : usize := zlen (buffer fb).
Definition fb_is_empty (fb : FrameBuffer) : bool := bool_decide (buffer fb = []).

Definition clear (fb : FrameBuffer) : FrameBuffer :=
  {| buffer := []; state := WaitingForHeader; max_payload_size := max_payload_size fb |}.

(** A read loop that pushes chunk after chunk and stops at the first error:
    the frames delivered before it, and the error. *)
Fixpoint push_chunks (fb : FrameBuffer) (chunks : list bytes) :
  FrameBuffer * list Frame * option ProcwireError :=
  match chunks with
  | [] => (fb, [], None)
  | c :: cs =>
    match push fb c with
    | (fb, Err e) => (fb, [], Some e)
    | (fb, Ok fs) =>
      let '(fb, fs', e) := push_chunks fb cs in (fb, fs ++ fs', e)
    end
  end.

(** ** The reference parser *)

Inductive parse_step :=
| NeedMore
| Invalid (e : ProcwireError)
| Parsed (f : Frame) (rest : bytes).

Definition parse_one (max : u32) (bs : bytes) : parse_step :=
  match decode bs with
  | None => NeedMore
  | Some h =>
    match validate h max with
    | Err e => Invalid e
    | Ok _ =>
      let n := Z.to_nat (payload_length h) in
      let rest := drop HEADER_SIZE bs in
      if decide (length rest < n)%nat then NeedMore
      else Parsed (new_frame h (take n rest)) (drop n rest)
    end
  end.

(** All whole frames of a byte string, what remains, and the protocol error
    the remainder starts with, if any. *)
Fixpoint parse_fuel (fuel : nat) (max : u32) (bs : bytes) :
  list Frame * bytes * option ProcwireError :=
  match fuel with
  | O => ([], bs, None)
  | S fuel =>
    match parse_one max bs with
    | NeedMore => ([], bs, None)
    | Invalid e => ([], bs, Some e)
    | Parsed f rest =>
      let '(fs, r, e) := parse_fuel fuel max rest in (f :: fs, r, e)
    end
  end.

Definition parse (max : u32) (bs : bytes) : list Frame * bytes * option ProcwireError :=
  parse_fuel (S (length bs)) max bs.

(** The invariant, and the bytes a buffer state stands for. *)
Record fb_inv (fb : FrameBuffer) : Prop := {
  inv_bytes : is_bytes (buffer fb);
  inv_state : match state fb with
              | WaitingForHeader => True
              | WaitingForPayload h r =>
                header_wf h ∧ header_valid (max_payload_size fb) h
                ∧ r = payload_length h ∧ r ≠ 0
              end
}.

Definition stream_of (fb : FrameBuffer) : bytes :=
  match state fb with
  | WaitingForHeader => buffer fb
  | WaitingForPayload h _ => encode h ++ buffer fb
  end.
End Extract.

#[global] Arguments parse_one : simpl never.
#[global] Arguments parse : simpl never.

Section Parse.
Context `{TP : ThirdParty}.
Implicit Types (max : u32) (bs xs : bytes).

(** ** The reference parser *)

Lemma parse_one_short max bs :
  (length bs < HEADER_SIZE)%nat → parse_one max bs = NeedMore.
Proof. intros H. unfold parse_one. by rewrite (proj2 (decode_short bs)). Qed.

Lemma parse_one_parsed_app max bs xs f rest :
  parse_one max bs = Parsed f rest → parse_one max (bs ++ xs) = Parsed f (rest ++ xs).
Proof.
  unfold parse_one. destruct (decode bs) as [h|] eqn:Hd; [|done].
  rewrite (decode_app _ _ _ Hd). destruct (validate h max); [|done].
  assert (HEADER_SIZE ≤ length bs)%nat.
  { apply Nat.nlt_ge. rewrite <- decode_short, Hd. done. }
  rewrite drop_app_le by done.
  case_decide as Hn; [done|]. intros [= <- <-].
  rewrite decide_False by (rewrite length_app; lia).
  rewrite take_app_le, drop_app_le by lia. done.
Qed.

Lemma parse_one_invalid_app max bs xs e :
  parse_one max bs = Invalid e → parse_one max (bs ++ xs) = Invalid e.
Proof.
  unfold parse_one. destruct (decode bs) as [h|] eqn:Hd; [|done].
  rewrite (decode_app _ _ _ Hd). destruct (validate h max); [|done].
  case_decide; done.
Qed.

(** A parsed frame is exactly the consumed bytes, and satisfies the contract. *)
Lemma parse_one_parsed max bs f rest :
  is_bytes bs → parse_one max bs = Parsed f rest →
  bs = frame_bytes f ++ rest ∧ frame_wf max f ∧ is_bytes rest.
Proof.
  intros Hb. unfold parse_one. destruct (decode bs) as [h|] eqn:Hd; [|done].
  destruct (validate h max) as [[]|e] eqn:Hv; [|done].
  case_decide as Hn; [done|]. intros [= <- <-].
  destruct (decode_inv bs h Hb Hd) as [Hwf Hl]. split_and!.
  - unfold frame_bytes, build_frame. cbn [header payload].
    rewrite encode_eq, Hl, <- app_assoc, take_drop, take_drop. done.
  - split; cbn [header payload]; [done| |rewrite length_take|by auto with procwire].
    + by apply validate_ok in Hv.
    + destruct Hwf as [_ _ _ Hp]. unfold fits in Hp. lia.
  - auto with procwire.
Qed.

Lemma parse_one_shrinks max bs f rest :
  parse_one max bs = Parsed f rest → (length rest + HEADER_SIZE ≤ length bs)%nat.
Proof.
  unfold parse_one. destruct (decode bs) as [h|] eqn:Hd; [|done].
  destruct (validate h max); [|done]. case_decide as Hn; [done|]. intros [= <- <-].
  assert (HEADER_SIZE ≤ length bs)%nat.
  { apply Nat.nlt_ge. rewrite <- decode_short, Hd. done. }
  rewrite !length_drop. lia.
Qed.

Lemma parse_fuel_enough max bs n :
  (length bs < n)%nat → parse_fuel n max bs = parse max bs.
Proof.
  unfold parse. remember (S (length bs)) as m eqn:Hm.
  assert (Hlen : (length bs < m)%nat) by lia. clear Hm.
  revert bs m Hlen. induction n as [|n IH]; intros bs m Hm Hn; [lia|].
  destruct m as [|m]; [lia|]. cbn [parse_fuel].
  destruct (parse_one max bs) as [| |f rest] eqn:E; [done|done|].
  apply parse_one_shrinks in E. unfold HEADER_SIZE in E.
  rewrite (IH rest m) by lia. done.
Qed.

(** The equation of the reference parser, with no fuel in it. *)
Lemma parse_unfold max bs :
  parse max bs =
    match parse_one max bs with
    | NeedMore => ([], bs, None)
    | Invalid e => ([], bs, Some e)
    | Parsed f rest => let '(fs, r, e) := parse max rest in (f :: fs, r, e)
    end.
Proof.
  unfold parse at 1. cbn [parse_fuel].
  destruct (parse_one max bs) as [| |f rest] eqn:E; [done|done|].
  apply parse_one_shrinks in E. unfold HEADER_SIZE in E.
  by rewrite parse_fuel_enough by lia.
Qed.

(** Induction along the frames of a stream. *)
Lemma parse_ind max (P : bytes → list Frame → bytes → option ProcwireError → Prop) :
  (∀ bs, parse_one max bs = NeedMore → P bs [] bs None) →
  (∀ bs e, parse_one max bs = Invalid e → P bs [] bs (Some e)) →
  (∀ bs f rest fs r e, parse_one max bs = Parsed f rest →
     parse max rest = (fs, r, e) → P rest fs r e → P bs (f :: fs) r e) →
  ∀ bs fs r e, parse max bs = (fs, r, e) → P bs fs r e.
Proof.
  intros Hn Hi Hp bs. induction bs as [bs IH] using (induction_ltof1 _ (@length Z)).
  intros fs r e. rewrite parse_unfold.
  destruct (parse_one max bs) as [|err|f rest] eqn:E.
  - intros [= <- <- <-]. auto.
  - intros [= <- <- <-]. auto.
  - destruct (parse max rest) as [[fs' r'] e'] eqn:Er. intros [= <- <- <-].
    apply Hp with rest; [done|done|]. apply IH; [|done].
    apply parse_one_shrinks in E. unfold HEADER_SIZE, ltof in *. lia.
Qed.

(** Appending bytes to a stream only extends its parse. *)
Lemma parse_app max bs xs fs r e :
  parse max bs = (fs, r, e) →
  parse max (bs ++ xs) =
    match e with
    | Some err => (fs, r ++ xs, Some err)
    | None => let '(fs', r', e') := parse max (r ++ xs) in (fs ++ fs', r', e')
    end.
Proof.
  revert bs fs r e. apply parse_ind.
  - intros bs _. by destruct (parse max (bs ++ xs)) as [[??]?].
  - intros bs e He. rewrite parse_unfold. by rewrite (parse_one_invalid_app _ _ _ _ He).
  - intros bs f rest fs r e Hf _ IH. rewrite parse_unfold.
    rewrite (parse_one_parsed_app _ _ _ _ _ Hf), IH.
    destruct e; [done|]. by destruct (parse max (r ++ xs)) as [[??]?].
Qed.

Lemma parse_frames_wf max bs fs r e :
  is_bytes bs → parse max bs = (fs, r, e) →
  Forall (frame_wf max) fs ∧ bs = concat (frame_bytes <$> fs) ++ r ∧ is_bytes r.
Proof.
  intros Hb Hp. revert bs fs r e Hp Hb.
  apply (parse_ind max (λ bs fs r e, is_bytes bs → _)).
  - intros bs _ Hb. split_and!; [constructor|done|done].
  - intros bs e _ Hb. split_and!; [constructor|done|done].
  - intros bs f rest fs r e Hf _ IH Hb.
    destruct (parse_one_parsed _ _ _ _ Hb Hf) as (-> & Hwf & Hr).
    destruct (IH Hr) as (Hfs & -> & Hr'). split_and!; [by constructor| |done].
    cbn [fmap list_fmap concat]. by rewrite app_assoc.
Qed.

(** One well-formed frame at the head of a stream is parsed as such. *)
Lemma parse_one_frame max f rest :
  frame_wf max f → parse_one max (frame_bytes f ++ rest) = Parsed f rest.
Proof.
  intros [Hh Hv Hl Hb]. unfold parse_one, frame_bytes, build_frame.
  rewrite encode_eq, <- app_assoc, decode_layout by done.
  rewrite (proj2 (validate_ok _ _) Hv).
  rewrite drop_app_length' by done.
  assert (Hn : length (payload f) = Z.to_nat (payload_length (header f))) by lia.
  rewrite decide_False by (rewrite length_app; lia).
  rewrite <- Hn, take_app_length, drop_app_length. by destruct f.
Qed.

Lemma parse_frames max fs rest :
  Forall (frame_wf max) fs →
  parse max (concat (frame_bytes <$> fs) ++ rest) =
    let '(gs, r, e) := parse max rest in (fs ++ gs, r, e).
Proof.
  induction 1 as [|f fs Hf Hfs IH].
  - cbn. by destruct (parse max rest) as [[??]?].
  - cbn [fmap list_fmap concat]. rewrite <- app_assoc, parse_unfold, parse_one_frame by done.
    rewrite IH. by destruct (parse max rest) as [[??]?].
Qed.

Lemma parse_nil max : parse max [] = ([], [], None).
Proof.
  rewrite parse_unfold, parse_one_short; [done|]. unfold HEADER_SIZE. simpl. lia.
Qed.
End Parse.

(** ** The state machine refines the parser *)

Section Refine.
Context `{TP : ThirdParty}.

(** A state in which the machine waits for more bytes. *)
Definition settled (fb : FrameBuffer) : Prop :=
  match state fb with
  | WaitingForHeader => (length (buffer fb) < HEADER_SIZE)%nat
  | WaitingForPayload _ r => zlen (buffer fb) < r
  end.

(** What one [try_extract_one] does, by the reference parser's verdict. *)
Definition extract_spec (fb fb' : FrameBuffer) (r : Result (option Frame)) : Prop :=
  fb_inv fb' ∧ max_payload_size fb' = max_payload_size fb ∧
  match parse_one (max_payload_size fb) (stream_of fb) with
  | NeedMore => r = Ok None ∧ stream_of fb' = stream_of fb ∧ settled fb'
  | Invalid e => r = Err e ∧ fb' = fb
  | Parsed f rest =>
    r = Ok (Some f) ∧ stream_of fb' = rest
    ∧ (length (buffer fb') < length (buffer fb))%nat
  end.

Lemma parse_one_layout max h xs :
  header_wf h →
  parse_one max (header_layout h ++ xs) =
    match validate h max with
    | Err e => Invalid e
    | Ok _ =>
      if decide (length xs < Z.to_nat (payload_length h))%nat then NeedMore
      else Parsed (new_frame h (take (Z.to_nat (payload_length h)) xs))
                  (drop (Z.to_nat (payload_length h)) xs)
    end.
Proof.
  intros Hh. unfold parse_one. rewrite decode_layout by done.
  by rewrite (drop_app_length' (header_layout h)) by done.
Qed.

Lemma extract_payload_spec h fb :
  fb_inv fb → state fb = WaitingForPayload h (payload_length h) →
  let '(fb', r) := extract_payload h (payload_length h) fb in extract_spec fb fb' r.
Proof.
  intros Hinv Hs. pose proof Hinv as [Hb Hst]. rewrite Hs in Hst.
  destruct Hst as (Hwf & Hv & _ & Hnz).
  assert (Hp : 0 <= payload_length h) by (destruct Hwf as [_ _ _ [? _]]; done).
  unfold extract_payload, extract_spec, stream_of. rewrite Hs, encode_eq.
  rewrite parse_one_layout by done. rewrite (proj2 (validate_ok _ _) Hv).
  case_decide as Hlen.
  - split_and!; try done.
    + by rewrite Hs, encode_eq.
    + unfold settled. rewrite Hs. lia.
  - cbn [split_to set_buffer set_state buffer state].
    split_and!; [|done|done|done|].
    + split; cbn; [by apply is_bytes_drop|done].
    + cbn. rewrite length_drop. lia.
Qed.

Lemma try_extract_one_spec fb :
  fb_inv fb →
  let '(fb', r) := try_extract_one fb in extract_spec fb fb' r.
Proof.
  intros Hinv. unfold try_extract_one.
  destruct (state fb) as [|h n] eqn:Hs.
  2: { pose proof Hinv as [_ Hst]. rewrite Hs in Hst. destruct Hst as (_ & _ & -> & _).
       by apply extract_payload_spec. }
  assert (Hstr : stream_of fb = buffer fb) by (unfold stream_of; by rewrite Hs).
  case_decide as Hlen.
  { unfold extract_spec. rewrite Hstr, parse_one_short by done.
    split_and!; try done. unfold settled. by rewrite Hs. }
  rewrite decode_take.
  destruct (decode (buffer fb)) as [h|] eqn:Hd; [|by apply decode_short in Hd].
  destruct Hinv as [Hb Hst].
  destruct (decode_inv _ _ Hb Hd) as [Hwf Hl].
  assert (Hbuf : buffer fb = header_layout h ++ drop HEADER_SIZE (buffer fb))
    by (by rewrite Hl, take_drop).
  assert (Hinv : fb_inv fb) by (by split).
  pose proof (parse_one_layout (max_payload_size fb) h (drop HEADER_SIZE (buffer fb)) Hwf)
    as Hp1.
  rewrite <- Hbuf, <- Hstr in Hp1.
  destruct (validate h (max_payload_size fb)) as [[]|e] eqn:Hv.
  2: { unfold extract_spec. rewrite Hp1. done. }
  assert (Hvalid : header_valid (max_payload_size fb) h) by (by apply validate_ok).
  unfold split_to. destruct (Z.eqb_spec (payload_length h) 0) as [Hz|Hnz].
  - unfold extract_spec. rewrite Hp1, Hz. rewrite decide_False by lia.
    split_and!; [|done|done| |].
    + split; cbn; [by apply is_bytes_drop|by rewrite Hs].
    + unfold stream_of. cbn. by rewrite Hs.
    + cbn. rewrite length_drop. unfold HEADER_SIZE in *. lia.
  - set (fb1 := set_state _ _).
    assert (Hinv1 : fb_inv fb1) by (split; cbn; [by apply is_bytes_drop|done]).
    assert (Hstr1 : stream_of fb1 = stream_of fb).
    { rewrite Hstr. unfold fb1, stream_of. cbn. by rewrite encode_eq. }
    pose proof (extract_payload_spec h fb1 Hinv1 eq_refl) as Hsp.
    destruct (extract_payload h (payload_length h) fb1) as [fb' r].
    unfold extract_spec in *. cbn [max_payload_size fb1 set_state set_buffer] in Hsp.
    rewrite Hstr1, Hp1 in Hsp. rewrite Hp1. destruct Hsp as (Hi & Hm & Hsp).
    split_and!; [done|done|]. case_decide; [done|].
    destruct Hsp as (-> & <- & Hlt). split_and!; [done|done|].
    cbn in Hlt. rewrite length_drop in Hlt. lia.
Qed.

(** The loop of [push], run to its own exit. *)
Lemma push_loop_spec fuel fb acc :
  fb_inv fb → (length (buffer fb) < fuel)%nat →
  let '(fb', r) := push_loop fuel fb acc in
  let '(fs, rest, e) := parse (max_payload_size fb) (stream_of fb) in
  fb_inv fb' ∧ max_payload_size fb' = max_payload_size fb
  ∧ stream_of fb' = rest
  ∧ match e with
    | None => r = Ok (acc ++ fs) ∧ settled fb'
    | Some e => r = Err e ∧ try_extract_one fb' = (fb', Err e)
    end.
Proof.
  revert fb acc. induction fuel as [|fuel IH]; intros fb acc Hinv Hlen; [lia|].
  cbn [push_loop]. rewrite parse_unfold.
  pose proof (try_extract_one_spec fb Hinv) as Hsp.
  destruct (try_extract_one fb) as [fb1 r1] eqn:Hx.
  destruct Hsp as (Hi1 & Hm1 & Hsp).
  destruct (parse_one _ _) as [|e|f rest].
  - destruct Hsp as (-> & Hstr & Hset). rewrite app_nil_r. done.
  - destruct Hsp as (-> & ->). done.
  - destruct Hsp as (-> & <- & Hlt).
    specialize (IH fb1 (acc ++ [f]) Hi1 ltac:(lia)). rewrite Hm1 in IH.
    destruct (push_loop _ _ _) as [fb2 r2].
    destruct (parse _ _) as [[fs rest] e]. destruct IH as (? & ? & ? & IH).
    split_and!; try congruence.
    destruct e; [done|]. destruct IH as [-> ?]. by rewrite <- app_assoc.
Qed.

(** More fuel than buffered bytes changes nothing. *)
Lemma push_loop_fuel n m fb acc :
  fb_inv fb → (length (buffer fb) < n)%nat → (length (buffer fb) < m)%nat →
  push_loop n fb acc = push_loop m fb acc.
Proof.
  revert m fb acc. induction n as [|n IH]; intros m fb acc Hinv Hn Hm; [lia|].
  destruct m as [|m]; [lia|]. cbn [push_loop].
  pose proof (try_extract_one_spec fb Hinv) as Hsp.
  destruct (try_extract_one fb) as [fb1 [[f|]|e]]; [|done|done].
  destruct Hsp as (Hi1 & _ & Hsp).
  destruct (parse_one _ _); [by destruct Hsp|by destruct Hsp|].
  destruct Hsp as (_ & _ & Hlt). apply IH; [done|lia|lia].
Qed.

Lemma extend_inv fb data : fb_inv fb → is_bytes data → fb_inv (extend fb data).
Proof.
  intros [Hb Hs] Hd. split; cbn; [by apply is_bytes_app|done].
Qed.

Lemma stream_of_bytes fb : fb_inv fb → is_bytes (stream_of fb).
Proof.
  intros [Hb Hs]. unfold stream_of. destruct (state fb); [done|].
  rewrite encode_eq. apply is_bytes_app. split; [|done].
  apply header_layout_is_bytes, Hs.
Qed.

Lemma stream_of_extend fb data : stream_of (extend fb data) = stream_of fb ++ data.
Proof.
  unfold stream_of. cbn. destruct (state fb); [done|]. by rewrite app_assoc.
Qed.

(** [push] against the reference parser: the state stands for what the parser
    leaves, and the result is the parser's. *)
Lemma push_spec fb data :
  fb_inv fb → is_bytes data →
  let '(fb', r) := push fb data in
  let '(fs, rest, e) := parse (max_payload_size fb) (stream_of fb ++ data) in
  fb_inv fb' ∧ max_payload_size fb' = max_payload_size fb
  ∧ stream_of fb' = rest
  ∧ match e with
    | None => r = Ok fs ∧ settled fb'
    | Some e => r = Err e ∧ try_extract_one fb' = (fb', Err e)
    end.
Proof.
  intros Hinv Hd. unfold push.
  pose proof (push_loop_spec (push_fuel (extend fb data)) (extend fb data) []
                (extend_inv _ _ Hinv Hd)) as Hsp.
  rewrite stream_of_extend in Hsp. apply Hsp. unfold push_fuel. lia.
Qed.

Lemma settled_none fb :
  settled fb → try_extract_one fb = (fb, Ok None).
Proof.
  unfold settled, try_extract_one. destruct (state fb) as [|h r].
  - intros H. by rewrite decide_True.
  - intros H. unfold extract_payload. by rewrite decide_True by lia.
Qed.

Lemma settled_parse fb :
  fb_inv fb → settled fb →
  parse (max_payload_size fb) (stream_of fb) = ([], stream_of fb, None).
Proof.
  intros [_ Hs] Hset. rewrite parse_unfold. unfold settled, stream_of in *.
  destruct (state fb) as [|h r].
  - by rewrite parse_one_short.
  - destruct Hs as (Hwf & Hv & -> & _). rewrite encode_eq, parse_one_layout by done.
    rewrite (proj2 (validate_ok _ _) Hv). by rewrite decide_True by lia.
Qed.

(** Pushing a stream chunk by chunk: the frames, in order, are those of the
    whole stream; when it holds a protocol error, the frames parsed in the
    chunk that completes the offending header are lost with it. *)
Lemma push_chunks_spec chunks fb :
  fb_inv fb → settled fb → Forall is_bytes chunks →
  let '(fb', fs, e) := push_chunks fb chunks in
  let '(gs, rest, e') := parse (max_payload_size fb) (stream_of fb ++ concat chunks) in
  e = e' ∧ fb_inv fb' ∧
  match e' with
  | None => fs = gs ∧ stream_of fb' = rest ∧ settled fb'
  | Some _ => fs `prefix_of` gs
  end.
Proof.
  revert fb. induction chunks as [|c cs IH]; intros fb Hinv Hset Hcs; cbn [push_chunks concat].
  { rewrite app_nil_r, settled_parse by done. done. }
  apply Forall_cons in Hcs as [Hc Hcs]. rewrite app_assoc.
  pose proof (push_spec fb c Hinv Hc) as Hsp.
  destruct (push fb c) as [fb1 r1].
  destruct (parse _ (stream_of fb ++ c)) as [[fs1 rest1] e1] eqn:Hp1.
  rewrite (parse_app _ _ (concat cs) _ _ _ Hp1).
  destruct Hsp as (Hi1 & Hm1 & <- & He1). destruct e1 as [e1|].
  { destruct He1 as [-> _]. split_and!; [done|done|]. apply prefix_nil. }
  destruct He1 as [-> Hset1]. specialize (IH fb1 Hi1 Hset1 Hcs). rewrite Hm1 in IH.
  destruct (push_chunks fb1 cs) as [[fb2 fs2] e2].
  destruct (parse _ _) as [[gs rest] e']. destruct IH as (-> & ? & IH).
  split_and!; [done|done|]. destruct e'.
  - by apply prefix_app.
  - destruct IH as (-> & ? & ?). done.
Qed.

Lemma with_max_payload_inv max : fb_inv (with_max_payload max).
Proof. split; [by apply Forall_nil|done]. Qed.

Lemma with_max_payload_settled max : settled (with_max_payload max).
Proof. unfold settled, HEADER_SIZE. simpl. lia. Qed.

Lemma clear_inv fb : fb_inv (clear fb) ∧ settled (clear fb).
Proof. split; [split; [by apply Forall_nil|done]|unfold settled, HEADER_SIZE; simpl; lia]. Qed.
End Refine.

(** ** Properties *)

Section Properties.
Context `{TP : ThirdParty}.

(** C11: [push] refines the reference parser.  From any reachable buffer state,
    pushing bytes leaves a reachable state standing for exactly the bytes the
    parser leaves over, and returns the parser's frames, or its protocol
    error. *)
Theorem push_refines_parse (fb : FrameBuffer) (data : bytes) :
  fb_inv fb → is_bytes data →
  let '(fb', r) := push fb data in
  let '(fs, rest, e) := parse (max_payload_size fb) (stream_of fb ++ data) in
  fb_inv fb' ∧ max_payload_size fb' = max_payload_size fb ∧ stream_of fb' = rest
  ∧ r = match e with None => Ok fs | Some e => Err e end.
Proof.
  intros Hinv Hd. pose proof (push_spec fb data Hinv Hd) as Hsp.
  destruct (push fb data) as [fb' r], (parse _ _) as [[fs rest] e].
  destruct Hsp as (? & ? & ? & He). split_and!; try done. by destruct e, He.
Qed.

(** The [while let] loop of [push] terminates by its own exit.  The fuel of
    the model is never exhausted (any larger amount gives the same result), and
    at exit [try_extract_one] returns what stopped the loop: [Ok(None)] after
    [Ok], the same error after [Err], leaving the buffer as it is. *)
Theorem push_terminates (fb : FrameBuffer) (data : bytes) (fuel : nat) :
  fb_inv fb → is_bytes data → (push_fuel (extend fb data) ≤ fuel)%nat →
  push_loop fuel (extend fb data) [] = push fb data
  ∧ let '(fb', r) := push fb data in
    try_extract_one fb' = (fb', match r with Ok _ => Ok None | Err e => Err e end).
Proof.
  intros Hinv Hd Hf. split.
  - unfold push. unfold push_fuel in *. apply push_loop_fuel; [by apply extend_inv|lia|lia].
  - pose proof (push_spec fb data Hinv Hd) as Hsp.
    destruct (push fb data) as [fb' r], (parse _ _) as [[fs rest] e].
    destruct Hsp as (_ & _ & _ & He). destruct e, He as [-> He]; [done|].
    by apply settled_none.
Qed.

(** Every frame [push] returns satisfies the wire contract (a validated
    header, a payload of exactly the declared length within the limits), and
    the frames together with what stays buffered are exactly the bytes
    received: nothing is lost, repeated or reordered. *)
Theorem push_frames_exact (fb fb' : FrameBuffer) (data : bytes) (fs : list Frame) :
  fb_inv fb → is_bytes data → push fb data = (fb', Ok fs) →
  Forall (frame_wf (max_payload_size fb)) fs
  ∧ stream_of fb ++ data = concat (frame_bytes <$> fs) ++ stream_of fb'.
Proof.
  intros Hinv Hd Hpush. pose proof (push_spec fb data Hinv Hd) as Hsp.
  rewrite Hpush in Hsp. destruct (parse _ _) as [[gs rest] e] eqn:Hp.
  destruct Hsp as (_ & _ & <- & He). destruct e, He as [He _]; [done|].
  injection He as ->.
  apply parse_frames_wf in Hp as (? & ? & _); [done|].
  apply is_bytes_app. auto using stream_of_bytes.
Qed.

(** C36: bounded buffering.  After a successful [push] the buffer holds fewer
    bytes than a header, or fewer than the configured maximum payload, which
    is itself capped: the peer cannot make the child buffer more. *)
Theorem push_buffer_bounded (fb fb' : FrameBuffer) (data : bytes) (fs : list Frame) :
  fb_inv fb → is_bytes data → push fb data = (fb', Ok fs) →
  fb_len fb' < Z.max (Z.of_nat HEADER_SIZE)
                 (Z.min (max_payload_size fb) ABSOLUTE_MAX_PAYLOAD_SIZE).
Proof.
  intros Hinv Hd Hpush. pose proof (push_spec fb data Hinv Hd) as Hsp.
  rewrite Hpush in Hsp. destruct (parse _ _) as [[gs rest] e].
  destruct Hsp as ([_ Hst] & Hm & _ & He). destruct e, He as [He Hset]; [done|].
  unfold fb_len, settled in *. destruct (state fb') as [|h r]; [lia|].
  destruct Hst as (_ & (_ & ? & ? & _) & -> & _). lia.
Qed.

(** C37: early rejection.  When the bytes at a frame boundary start with an
    invalid header, [push] fails as soon as the eleven header bytes are there,
    whether or not any payload follows, and consumes nothing. *)
Theorem invalid_header_rejected (fb : FrameBuffer) (data xs : bytes) (h : Header) :
  fb_inv fb → is_bytes data → state fb = WaitingForHeader →
  header_wf h → ¬ header_valid (max_payload_size fb) h →
  buffer fb ++ data = encode h ++ xs →
  ∃ fb' m, push fb data = (fb', Err (Protocol m)) ∧ stream_of fb' = encode h ++ xs.
Proof.
  intros Hinv Hd Hs Hh Hv Hbuf. pose proof (push_spec fb data Hinv Hd) as Hsp.
  destruct (push fb data) as [fb' r]. unfold stream_of in Hsp at 1. rewrite Hs, Hbuf in Hsp.
  rewrite parse_unfold, encode_eq, parse_one_layout in Hsp by done.
  destruct (validate_err _ _ Hv) as [m Hm]. rewrite Hm in Hsp.
  destruct Hsp as (_ & _ & Hstr & -> & _). exists fb', m. by rewrite encode_eq.
Qed.

(** Fragmentation does not matter.  However a byte stream is cut into
    chunks, a fresh buffer delivers the same frames in the same order, or
    meets the same protocol error; without an error it also ends in a state
    standing for the same pending bytes. *)
Theorem chunking_irrelevant (max : u32) (cs1 cs2 : list bytes) :
  Forall is_bytes cs1 → Forall is_bytes cs2 → concat cs1 = concat cs2 →
  let '(fb1, fs1, e1) := push_chunks (with_max_payload max) cs1 in
  let '(fb2, fs2, e2) := push_chunks (with_max_payload max) cs2 in
  e1 = e2 ∧ (e1 = None → fs1 = fs2 ∧ stream_of fb1 = stream_of fb2)
  ∧ (fs1 `prefix_of` fs2 ∨ fs2 `prefix_of` fs1).
Proof.
  intros H1 H2 Heq.
  pose proof (push_chunks_spec cs1 (with_max_payload max) (with_max_payload_inv _)
                (with_max_payload_settled _) H1) as Hs1.
  pose proof (push_chunks_spec cs2 (with_max_payload max) (with_max_payload_inv _)
                (with_max_payload_settled _) H2) as Hs2.
  rewrite Heq in Hs1.
  destruct (push_chunks _ cs1) as [[fb1 fs1] e1], (push_chunks _ cs2) as [[fb2 fs2] e2].
  destruct (parse _ _) as [[gs rest] e].
  destruct Hs1 as (-> & _ & Hs1), Hs2 as (-> & _ & Hs2). split_and!; [done| |].
  - intros ->. destruct Hs1 as (-> & -> & _), Hs2 as (-> & -> & _). done.
  - destruct e.
    + by eapply prefix_weak_total.
    + destruct Hs1 as (-> & _), Hs2 as (-> & _). by left.
Qed.

(** C6: round trip.  A sequence of well-formed frames, laid out with
    [build_frame] and delivered in chunks of any sizes, comes out of a fresh
    buffer as the same sequence, and leaves the buffer empty at a frame
    boundary. *)
Theorem frames_roundtrip (max : u32) (frames : list Frame) (chunks : list bytes) :
  Forall (frame_wf max) frames → Forall is_bytes chunks →
  concat chunks = concat (frame_bytes <$> frames) →
  ∃ fb', push_chunks (with_max_payload max) chunks = (fb', frames, None)
    ∧ fb_is_empty fb' = true ∧ state fb' = WaitingForHeader.
Proof.
  intros Hf Hc Heq.
  pose proof (push_chunks_spec chunks (with_max_payload max) (with_max_payload_inv _)
                (with_max_payload_settled _) Hc) as Hs.
  destruct (push_chunks _ chunks) as [[fb' fs] e].
  change (max_payload_size (with_max_payload max)) with max in Hs.
  change (stream_of (with_max_payload max) ++ concat chunks) with (concat chunks) in Hs.
  rewrite Heq, <- (app_nil_r (concat _)), parse_frames, parse_nil in Hs by done.
  rewrite app_nil_r in Hs. destruct Hs as (-> & _ & -> & Hstr & _).
  exists fb'. unfold stream_of, fb_is_empty in *. destruct (state fb').
  - split_and!; [done|by rewrite bool_decide_eq_true|done].
  - by rewrite encode_eq in Hstr.
Qed.
End Properties.

(** ** Witnesses *)

Section Witnesses.
#[local] Existing Instance string_errors.

Lemma push_refines_parse_witness :
  let '(fb', r) := push new_buffer [0; 1; 3] in
  let '(fs, rest, e) := parse (max_payload_size new_buffer) (stream_of new_buffer ++ [0; 1; 3]) in
  fb_inv fb' ∧ max_payload_size fb' = max_payload_size new_buffer ∧ stream_of fb' = rest
  ∧ r = match e with None => Ok fs | Some e => Err e end.
Proof. apply push_refines_parse; [apply with_max_payload_inv|by repeat constructor]. Defined.

Lemma push_terminates_witness :
  push_loop 99 (extend new_buffer [0; 1; 3]) [] = push new_buffer [0; 1; 3]
  ∧ let '(fb', r) := push new_buffer [0; 1; 3] in
    try_extract_one fb' = (fb', match r with Ok _ => Ok None | Err e => Err e end).
Proof.
  apply push_terminates; [apply with_max_payload_inv|by repeat constructor|].
  unfold push_fuel. simpl. lia.
Defined.

Lemma push_frames_exact_witness :
  let data := [0; 1; 3; 0; 0; 0; 9; 0; 0; 0; 1; 77; 5] in
  let f := new_frame (new_header 1 3 9 1) [77] in
  Forall (frame_wf DEFAULT_MAX_PAYLOAD_SIZE) [f]
  ∧ data = concat (frame_bytes <$> [f]) ++ [5].
Proof.
  intros data f.
  refine (push_frames_exact new_buffer (set_buffer [5] new_buffer) data [f]
            (with_max_payload_inv _) _ _);
    [by repeat constructor|reflexivity].
Defined.

Lemma push_buffer_bounded_witness :
  fb_len (set_buffer [0; 1; 3] new_buffer) < 1073741824.
Proof.
  apply (push_buffer_bounded new_buffer _ [0; 1; 3] []);
    [apply with_max_payload_inv|by repeat constructor|reflexivity].
Defined.

Lemma invalid_header_rejected_witness :
  ∃ fb' m, push new_buffer (encode (new_header 0 0 1 4)) = (fb', Err (Protocol m))
    ∧ stream_of fb' = encode (new_header 0 0 1 4) ++ [].
Proof.
  apply invalid_header_rejected; [apply with_max_payload_inv|by repeat constructor|done
    |split; by vm_compute|by intros []|by rewrite app_nil_r].
Defined.

Lemma chunking_irrelevant_witness :
  let '(fb1, fs1, e1) := push_chunks (with_max_payload 10) [[0; 1]; [3; 0]] in
  let '(fb2, fs2, e2) := push_chunks (with_max_payload 10) [[0]; [1; 3; 0]] in
  e1 = e2 ∧ (e1 = None → fs1 = fs2 ∧ stream_of fb1 = stream_of fb2)
  ∧ (fs1 `prefix_of` fs2 ∨ fs2 `prefix_of` fs1).
Proof. apply chunking_irrelevant; [by repeat constructor..|reflexivity]. Defined.

Lemma frames_roundtrip_witness :
  let f := new_frame (new_header 1 3 9 1) [77] in
  ∃ fb', push_chunks (with_max_payload 10) [[0; 1; 3; 0; 0]; [0; 9; 0; 0; 0; 1; 77]]
         = (fb', [f], None)
    ∧ fb_is_empty fb' = true ∧ state fb' = WaitingForHeader.
Proof.
  apply frames_roundtrip; [|by repeat constructor|reflexivity].
  constructor; [|done]. split; [by split; vm_compute| |done|by repeat constructor].
  by vm_compute.
Defined.
End Witnesses.
