(* ===== verification/Backpressure.v ===== *)
(** * Backpressure (src/backpressure.rs)

    [BackpressureController] and [BackpressureGuard].  The counter is an
    [Arc<AtomicUsize>]: controllers hold the cell's address, so clones share
    the counter, and every operation is passed the store of atomic cells.
    Durations are in nanoseconds. *)

From S2P Require Import Prelude Errors.

(** ** Atomic cells *)

Abbreviation cells := (gmap nat Z).

(** [AtomicUsize::load], [fetch_add], [fetch_sub] and [store]; the arithmetic
    wraps.  A cell behind an [Arc] is always allocated. *)
Definition load (l : nat) (m : cells) : usize := default 0 (m !! l).
Definition store (l : nat) (v : usize) (m : cells) : cells := <[l := v]> m.
Definition fetch_add (l : nat) (n : usize) (m : cells) : cells :=
  store l (wrap 64 (load l m + n)) m.
Definition fetch_sub (l : nat) (n : usize) (m : cells) : cells :=
  store l (wrap 64 (load l m - n)) m.

Definition DEFAULT_MAX_PENDING : usize := 1024.
Definition DEFAULT_TIMEOUT : Z := 5 * 10 ^ 9.
Definition CHECK_INTERVAL : Z := 100 * 10 ^ 3.

Record BackpressureController := {
  bp_pending : nat;
  bp_max_pending : usize;
  bp_timeout : Z
}.

Section Controller.
Context `{TP : ThirdParty}.

(** [Arc::new(AtomicUsize::new(0))] at a fresh address [l]. *)
Definition bp_with_timeout (l : nat) (max : usize) (timeout : Z) (m : cells) :
  cells * BackpressureController :=
  (store l 0 m, {| bp_pending := l; bp_max_pending := max; bp_timeout := timeout |}).

Definition bp_new (l : nat) (max : usize) (m : cells) : cells * BackpressureController :=
  bp_with_timeout l max DEFAULT_TIMEOUT m.

Definition bp_default (l : nat) (m : cells) : cells * BackpressureController :=
  bp_new l DEFAULT_MAX_PENDING m.

Definition from_shared (l : nat) (max : usize) (timeout : Z) : BackpressureController :=
  {| bp_pending := l; bp_max_pending := max; bp_timeout := timeout |}.

Definition pending_counter (c : BackpressureController) : nat := bp_pending c.

(** [Clone]: the new controller shares the cell. *)
Definition bp_clone (c : BackpressureController) : BackpressureController :=
  {| bp_pending := bp_pending c; bp_max_pending := bp_max_pending c;
     bp_timeout := bp_timeout c |}.

Definition can_accept (c : BackpressureController) (m : cells) : bool :=
  load (bp_pending c) m <? bp_max_pending c.
Definition is_active (c : BackpressureController) (m : cells) : bool :=
  bp_max_pending c <=? load (bp_pending c) m.
Definition pending_count (c : BackpressureController) (m : cells) : usize :=
  load (bp_pending c) m.
Definition max_pending (c : BackpressureController) : usize := bp_max_pending c.

(** [saturating_sub]. *)
Definition available_capacity (c : BackpressureController) (m : cells) : usize :=
  Z.max 0 (bp_max_pending c - load (bp_pending c) m).

Definition try_reserve (c : BackpressureController) (m : cells) : cells * Result unit :=
  if bp_max_pending c <=? load (bp_pending c) m then (m, Err BackpressureTimeout)
  else (fetch_add (bp_pending c) 1 m, Ok tt).

(** [wait_and_reserve]: one element of [polls] per turn of the loop, holding
    the store as the other tasks have left it by then and the time elapsed
    since [start].  [None]: the future is still pending when the polls end. *)
Fixpoint wait_and_reserve (c : BackpressureController) (polls : list (cells * Z)) :
  option (cells * Result unit) :=
  match polls with
  | [] => None
  | (m, elapsed) :: polls =>
    if load (bp_pending c) m <? bp_max_pending c then
      Some (fetch_add (bp_pending c) 1 m, Ok tt)
    else if bp_timeout c <? elapsed then Some (m, Err BackpressureTimeout)
    else wait_and_reserve c polls
  end.

Definition reserve (c : BackpressureController) (m : cells) (polls : list (cells * Z)) :
  option (cells * Result unit) :=
  if load (bp_pending c) m <? bp_max_pending c then
    Some (fetch_add (bp_pending c) 1 m, Ok tt)
  else wait_and_reserve c polls.

Definition release (c : BackpressureController) (m : cells) : cells :=
  fetch_sub (bp_pending c) 1 m.
Definition release_many (c : BackpressureController) (count : usize) (m : cells) : cells :=
  fetch_sub (bp_pending c) count m.
Definition bp_reset (c : BackpressureController) (m : cells) : cells :=
  store (bp_pending c) 0 m.

(** ** [BackpressureGuard] *)

Record BackpressureGuard := {
  controller : BackpressureController;
  released : bool
}.

Definition guard_new (c : BackpressureController) : BackpressureGuard :=
  {| controller := c; released := false |}.

Definition guard_drop (g : BackpressureGuard) (m : cells) : cells :=
  if negb (released g) then release (controller g) m else m.

(** [release(mut self)] consumes the guard, so [drop] runs at its end. *)
Definition guard_release (g : BackpressureGuard) (m : cells) : cells :=
  let '(g, m) :=
    if negb (released g)
    then ({| controller := controller g; released := true |}, release (controller g) m)
    else (g, m) in
  guard_drop g m.

Definition disarm (g : BackpressureGuard) : BackpressureGuard :=
  {| controller := controller g; released := true |}.
End Controller.

(** ** Concurrent reservations

    [try_reserve] and [reserve] first load the counter and then add to it, as
    two atomic steps.  [Reserving] threads are between the two; at most [K]
    are at any time. *)

Inductive rthread :=
| RIdle
| RReserving
| RHolding.

Record rsys := { r_pending : usize; r_threads : list rthread }.

#[export] Instance rthread_eq_dec : EqDecision rthread.
Proof. solve_decision. Defined.

(** How many threads are in a given state. *)
Definition count_threads (s : rthread) (ts : list rthread) : Z :=
  zlen (filter (λ t, t = s) ts).

(** One atomic step of some thread of [reserve]/[try_reserve]/[release]. *)
Inductive rstep (max : usize) (K : Z) : rsys → rsys → Prop :=
| r_load p ts t :
    ts !! t = Some RIdle → p < max → count_threads RReserving ts < K →
    rstep max K {| r_pending := p; r_threads := ts |}
                {| r_pending := p; r_threads := <[t := RReserving]> ts |}
| r_load_full p ts t :
    ts !! t = Some RIdle → max <= p →
    rstep max K {| r_pending := p; r_threads := ts |} {| r_pending := p; r_threads := ts |}
| r_add p ts t :
    ts !! t = Some RReserving →
    rstep max K {| r_pending := p; r_threads := ts |}
                {| r_pending := wrap 64 (p + 1); r_threads := <[t := RHolding]> ts |}
| r_release p ts t :
    ts !! t = Some RHolding →
    rstep max K {| r_pending := p; r_threads := ts |}
                {| r_pending := wrap 64 (p - 1); r_threads := <[t := RIdle]> ts |}.

Definition rinit (n : nat) : rsys := {| r_pending := 0; r_threads := replicate n RIdle |}.

(** ** Lemmas *)

Lemma load_store l v m : load l (store l v m) = v.
Proof. unfold load, store. by rewrite lookup_insert_eq. Qed.

Lemma load_store_ne l l' v m : l ≠ l' → load l' (store l v m) = load l' m.
Proof. intros H. unfold load, store. by rewrite lookup_insert_ne. Qed.

(** Counting list elements of a kind, through an update. *)
Lemma count_insert s s' t0 ts t :
  ts !! t = Some t0 →
  count_threads s (<[t := s']> ts) =
    count_threads s ts
    + (if decide (s' = s) then 1 else 0) - (if decide (t0 = s) then 1 else 0).
Proof.
  unfold count_threads. revert t. induction ts as [|x ts IH]; intros t Ht; [done|].
  destruct t as [|t]; simpl in Ht |- *.
  - injection Ht as ->. rewrite !filter_cons. repeat case_decide; simpl; lia.
  - specialize (IH t Ht). rewrite !filter_cons. repeat case_decide; simpl; lia.
Qed.

Lemma count_threads_pos s ts : 0 <= count_threads s ts.
Proof. unfold count_threads. lia. Qed.

(** The counter is the number of holders; with the threads about to add, it
    exceeds the limit by at most [K - 1]. *)
Record r_inv (max : usize) (K : Z) (s : rsys) : Prop := {
  r_inv_holders : r_pending s = count_threads RHolding (r_threads s);
  r_inv_few : count_threads RReserving (r_threads s) <= K;
  r_inv_bound : r_pending s + count_threads RReserving (r_threads s) <= Z.max 0 (max + K - 1)
}.

Lemma rinit_inv max K n : 0 <= K → r_inv max K (rinit n).
Proof.
  intros HK.
  assert (H : ∀ s, s ≠ RIdle → count_threads s (replicate n RIdle) = 0).
  { intros s Hs. unfold count_threads. induction n as [|n IH]; [done|].
    simpl. rewrite filter_cons. by rewrite decide_False by congruence. }
  split; cbn; rewrite ?H by done; lia.
Qed.

Lemma rstep_inv max K s s' :
  max + K < 2 ^ 64 → 0 <= K → r_inv max K s → rstep max K s s' → r_inv max K s'.
Proof.
  intros Hw HK [Hh Hf Hb] Hs.
  pose proof (count_threads_pos RHolding (r_threads s)) as Hp1.
  pose proof (count_threads_pos RReserving (r_threads s)) as Hp2.
  inversion Hs as [p ts t Ht Hlt Hn|p ts t Ht Hle|p ts t Ht|p ts t Ht]; subst s s';
    cbn [r_pending r_threads] in *; [|by split| |].
  all: pose proof (λ k s', count_insert k s' _ ts t Ht) as Hc.
  - split; cbn [r_pending r_threads]; rewrite !Hc;
      repeat case_decide; done || lia.
  - pose proof (count_threads_pos RReserving (<[t := RHolding]> ts)) as Hp3.
    rewrite Hc in Hp3.
    repeat (case_decide; try done).
    split; cbn [r_pending r_threads]; rewrite !Hc, ?wrap_id by (unfold fits; lia);
      repeat case_decide; done || lia.
  - pose proof (count_threads_pos RHolding (<[t := RIdle]> ts)) as Hp3.
    rewrite Hc in Hp3.
    repeat (case_decide; try done).
    split; cbn [r_pending r_threads]; rewrite !Hc, ?wrap_id by (unfold fits; lia);
      repeat case_decide; done || lia.
Qed.

Lemma rsteps_inv max K s s' :
  max + K < 2 ^ 64 → 0 <= K → r_inv max K s → rtc (rstep max K) s s' → r_inv max K s'.
Proof. intros Hw HK Hi Hs. induction Hs; [done|]. eauto using rstep_inv. Qed.

(** [n] threads all load before any of them adds. *)
Lemma all_load n k :
  (k ≤ n)%nat →
  rtc (rstep 1 (Z.of_nat n)) (rinit n)
    {| r_pending := 0; r_threads := replicate k RReserving ++ replicate (n - k) RIdle |}.
Proof.
  induction k as [|k IH]; intros Hk.
  { rewrite Nat.sub_0_r. apply rtc_refl. }
  eapply rtc_r; [apply IH; lia|].
  replace (n - k)%nat with (S (n - S k)) by lia.
  assert (Hc : count_threads RReserving (replicate k RReserving ++ replicate (S (n - S k)) RIdle)
               = Z.of_nat k).
  { generalize (S (n - S k)) as j. intros j. unfold count_threads. clear.
    rewrite filter_app, length_app.
    induction k as [|k IH]; cbn [replicate]; [|rewrite filter_cons, decide_True by done].
    - induction j as [|j IH]; [done|]. cbn [replicate]. by rewrite filter_cons.
    - cbn [length]. lia. }
  replace (replicate (S k) RReserving ++ replicate (n - S k) RIdle)
    with (<[k := RReserving]> (replicate k RReserving ++ replicate (S (n - S k)) RIdle)).
  - apply r_load; [|lia|rewrite Hc; lia].
    rewrite lookup_app_r by (rewrite length_replicate; lia).
    by rewrite length_replicate, Nat.sub_diag.
  - rewrite insert_app_r_alt by (rewrite length_replicate; lia).
    rewrite length_replicate, Nat.sub_diag. cbn [replicate].
    rewrite (replicate_cons_app k), <- app_assoc. done.
Qed.

Lemma all_add max K n k :
  (k ≤ n)%nat → Z.of_nat n < 2 ^ 64 →
  rtc (rstep max K) {| r_pending := 0; r_threads := replicate n RReserving |}
    {| r_pending := Z.of_nat k;
       r_threads := replicate k RHolding ++ replicate (n - k) RReserving |}.
Proof.
  intros Hk Hw. induction k as [|k IH].
  { rewrite Nat.sub_0_r. apply rtc_refl. }
  eapply rtc_r; [apply IH; lia|].
  replace (n - k)%nat with (S (n - S k)) by lia.
  replace (Z.of_nat (S k)) with (wrap 64 (Z.of_nat k + 1)) by (rewrite wrap_id; unfold fits; lia).
  replace (replicate (S k) RHolding ++ replicate (n - S k) RReserving)
    with (<[k := RHolding]> (replicate k RHolding ++ replicate (S (n - S k)) RReserving)).
  - apply r_add.
    rewrite lookup_app_r by (rewrite length_replicate; lia).
    by rewrite length_replicate, Nat.sub_diag.
  - rewrite insert_app_r_alt by (rewrite length_replicate; lia).
    rewrite length_replicate, Nat.sub_diag. cbn [replicate].
    rewrite (replicate_cons_app k), <- app_assoc. done.
Qed.

(** ** Properties *)

Section Properties.
Context `{TP : ThirdParty}.

(** The pending counter counts exactly the slots held, and however the
    loads and additions of concurrent reservations interleave, it exceeds the
    configured maximum by at most [K - 1], where [K] bounds the reservations
    in flight at once; in particular a single reserver never exceeds it. *)
Theorem reserve_overshoot_bound (max : usize) (K : Z) (n : nat) (s : rsys) :
  max + K < 2 ^ 64 → 0 <= K → rtc (rstep max K) (rinit n) s →
  r_pending s = count_threads RHolding (r_threads s)
  ∧ r_pending s <= Z.max 0 (max + K - 1).
Proof.
  intros Hw HK Hs.
  destruct (rsteps_inv max K _ _ Hw HK (rinit_inv max K n HK) Hs) as [Hh Hf Hb].
  pose proof (count_threads_pos RReserving (r_threads s)). split; [done|lia].
Qed.

(** The limit itself is not enforced.  The load and the addition are not
    one compare-and-swap, so with a maximum of one pending frame, any number
    [n] of concurrent reservations can all succeed and bring the counter to
    [n]. *)
Theorem reserve_limit_exceeded (n : nat) :
  Z.of_nat n < 2 ^ 64 →
  ∃ s, rtc (rstep 1 (Z.of_nat n)) (rinit n) s ∧ r_pending s = Z.of_nat n
    ∧ r_threads s = replicate n RHolding.
Proof.
  intros Hn. eexists. split_and!.
  - etrans; [apply (all_load n n); lia|]. rewrite Nat.sub_diag. simpl.
    rewrite app_nil_r. apply (all_add 1 _ n n); [lia|done].
  - done.
  - simpl. by rewrite Nat.sub_diag, app_nil_r.
Qed.

(** [wait_and_reserve] terminates.  Since every turn sleeps at least
    [CHECK_INTERVAL], at the latest after [timeout / CHECK_INTERVAL + 2] turns
    it has reserved a slot that was free, or failed with
    [BackpressureTimeout] after the timeout has passed. *)
Theorem wait_and_reserve_terminates (c : BackpressureController) (polls : list (cells * Z)) :
  (∀ i m e, polls !! i = Some (m, e) → Z.of_nat i * CHECK_INTERVAL <= e) →
  0 <= bp_timeout c →
  bp_timeout c / CHECK_INTERVAL + 2 <= zlen polls →
  ∃ m e r, (m, e) ∈ polls ∧ wait_and_reserve c polls = Some r
    ∧ ((r = (fetch_add (bp_pending c) 1 m, Ok tt) ∧ load (bp_pending c) m < bp_max_pending c)
       ∨ (r = (m, Err BackpressureTimeout) ∧ bp_timeout c < e)).
Proof.
  intros Hsleep Ht Hlen.
  assert (Hk : ∀ k ps, (k + length ps = length polls)%nat → drop k polls = ps →
    bp_timeout c / CHECK_INTERVAL + 1 <= zlen polls - 1 → (0 < length ps)%nat →
    ∃ m e r, (m, e) ∈ ps ∧ wait_and_reserve c ps = Some r
    ∧ ((r = (fetch_add (bp_pending c) 1 m, Ok tt) ∧ load (bp_pending c) m < bp_max_pending c)
       ∨ (r = (m, Err BackpressureTimeout) ∧ bp_timeout c < e))).
  { intros k ps. revert k. induction ps as [|[m e] ps IH]; intros k Hl Hd Hb Hp; [simpl in *; lia|].
    cbn [wait_and_reserve].
    destruct (Z.ltb_spec (load (bp_pending c) m) (bp_max_pending c)).
    { exists m, e. eexists. split_and!; [apply list_elem_of_here|done|by left]. }
    destruct (Z.ltb_spec (bp_timeout c) e) as [He|He].
    { exists m, e. eexists. split_and!; [apply list_elem_of_here|done|by right]. }
    assert (Hi : polls !! k = Some (m, e)).
    { rewrite <- (Nat.add_0_r k), <- lookup_drop, Hd. done. }
    apply Hsleep in Hi.
    assert (Z.of_nat k <= bp_timeout c / CHECK_INTERVAL).
    { apply Z.div_le_lower_bound; [done|lia]. }
    destruct (IH (S k)) as (m' & e' & r & Hin & Hw & Hr); simpl in *; try lia.
    - rewrite <- Nat.add_1_r, <- drop_drop, Hd. done.
    - exists m', e', r. split_and!; [by apply list_elem_of_further|done|done]. }
  assert (0 <= bp_timeout c / CHECK_INTERVAL) by (apply Z.div_pos; done).
  destruct (Hk 0%nat polls) as (m & e & r & ?); [done|done|lia|lia|]. by exists m, e, r.
Qed.

(** A guard gives its slot back exactly once however it ends (dropped, or
    released and then dropped), and never after [disarm]. *)
Theorem guard_releases_once (c : BackpressureController) (m : cells) :
  guard_drop (guard_new c) m = release c m
  ∧ guard_release (guard_new c) m = release c m
  ∧ guard_drop (disarm (guard_new c)) m = m
  ∧ guard_release (disarm (guard_new c)) m = m.
Proof. done. Qed.
End Properties.

(** ** Witnesses *)

Section Witnesses.
#[local] Existing Instance string_errors.

Lemma reserve_overshoot_bound_witness :
  let s := {| r_pending := 0; r_threads := [RReserving] |} in
  r_pending s = count_threads RHolding (r_threads s) ∧ r_pending s <= Z.max 0 (1 + 1 - 1).
Proof.
  apply (reserve_overshoot_bound 1 1 1); [done|done|].
  apply rtc_once, (r_load 1 1 0 [RIdle] 0%nat); done.
Defined.

Lemma reserve_limit_exceeded_witness :
  ∃ s, rtc (rstep 1 (Z.of_nat 2)) (rinit 2) s ∧ r_pending s = Z.of_nat 2
    ∧ r_threads s = replicate 2 RHolding.
Proof. apply reserve_limit_exceeded. done. Defined.

Lemma wait_and_reserve_terminates_witness :
  let c := from_shared 0 1 100000 in
  let full : cells := {[0%nat := 5]} in
  let polls := [(full, 0); (full, 100000); (full, 200000)] in
  ∃ m e r, (m, e) ∈ polls ∧ wait_and_reserve c polls = Some r
    ∧ ((r = (fetch_add (bp_pending c) 1 m, Ok tt) ∧ load (bp_pending c) m < bp_max_pending c)
       ∨ (r = (m, Err BackpressureTimeout) ∧ bp_timeout c < e)).
Proof.
  apply wait_and_reserve_terminates; [|done|done].
  intros [|[|[|i]]] m e [= <- <-]; done.
Defined.
End Witnesses.
