(* ===== verification/Codec.v ===== *)
(** * Payload codecs (src/codec/raw.rs, src/codec/msgpack.rs)

    [rmp_serde] is a parameter: the classes below are the two traits of
    [serde] as far as [MsgPackCodec] uses them. *)

From S2P Require Import Prelude Errors.

(** [T: serde::Serialize], through [rmp_serde::to_vec_named]. *)
Class Serialize `{ThirdParty} (T : Type) :=
  to_vec_named : T → result rmp_encode_Error bytes.

(** [T: DeserializeOwned], through [rmp_serde::from_slice]. *)
Class DeserializeOwned `{ThirdParty} (T : Type) :=
  from_slice : bytes → result rmp_decode_Error T.

(** ** [MsgPackCodec] *)

Definition msgpack_encode `{ThirdParty} {T} `{!Serialize T} (value : T) : Result bytes :=
  map_err MsgPackEncode (to_vec_named value).

Definition msgpack_decode `{ThirdParty} {T} `{!DeserializeOwned T} (data : bytes) : Result T :=
  map_err MsgPackDecode (from_slice data).

(** ** [RawCodec] *)

Definition raw_serialize (data : bytes) : bytes := data.
Definition raw_serialize_bytes (data : bytes) : bytes := data.
Definition raw_deserialize (data : bytes) : bytes := data.
Definition raw_deserialize_bytes (data : bytes) : bytes := data.

(** A concrete serialiser for evaluation: byte strings as themselves, except
    that the empty one cannot be encoded. *)
Definition bytes_serialize : @Serialize string_errors (list Z) :=
  λ bs, match bs with [] => Err "empty"%string | _ => Ok bs end.
Definition bytes_deserialize : @DeserializeOwned string_errors (list Z) :=
  λ bs, match bs with [] => Err "empty"%string | _ => Ok bs end.
