(* ===== verification/Writer.v ===== *)
(** * Writing batches of frames (src/writer.rs)

    Outbound frames, the configuration, and the vectored write of a batch with
    its continuation after partial writes.  The concurrent system of senders
    and writer task is in [WriterTask]. *)

From S2P Require Import Prelude Errors WireFormat Frame.

Definition DEFAULT_MAX_PENDING_FRAMES : usize := 1024.
Definition DEFAULT_CHANNEL_CAPACITY : nat := 1024.
Definition DEFAULT_BACKPRESSURE_TIMEOUT : Z := 5 * 10 ^ 9.
Definition MAX_BATCH_SIZE : nat := 64.

(** [struct OutboundFrame]; the header is a [[u8; 11]]. *)
Record OutboundFrame := {
  ob_header : bytes;
  ob_payload : bytes
}.

#[export] Instance OutboundFrame_eq_dec : EqDecision OutboundFrame.
Proof. solve_decision. Defined.

Definition new_outbound (h : Header) (p : bytes) : OutboundFrame :=
  {| ob_header := encode h; ob_payload := p |}.

Definition empty_outbound (h : Header) : OutboundFrame :=
  {| ob_header := encode h; ob_payload := [] |}.

Definition size (f : OutboundFrame) : nat := (HEADER_SIZE + length (ob_payload f))%nat.

Record WriterConfig := {
  max_pending_frames : usize;
  channel_capacity : nat;
  backpressure_timeout : Z
}.

Definition default_config : WriterConfig := {|
  max_pending_frames := DEFAULT_MAX_PENDING_FRAMES;
  channel_capacity := DEFAULT_CHANNEL_CAPACITY;
  backpressure_timeout := DEFAULT_BACKPRESSURE_TIMEOUT
|}.

(** The array type of the header field. *)
Definition ob_wf (f : OutboundFrame) : Prop := length (ob_header f) = HEADER_SIZE.

(** The bytes a frame, and a batch, put on the pipe. *)
Definition ob_bytes (f : OutboundFrame) : bytes := ob_header f ++ ob_payload f.
Definition batch_bytes (batch : list OutboundFrame) : bytes := concat (ob_bytes <$> batch).

(** ** [build_remaining_slices] *)

(** The loop over the batch; [skipped] is the loop variable.  Subtraction on
    [nat] is [saturating_sub]. *)
Fixpoint remaining_slices (batch : list OutboundFrame) (skip_bytes skipped : nat) :
  list bytes :=
  match batch with
  | [] => []
  | f :: batch =>
    let header_start := skipped in
    let header_end := (skipped + HEADER_SIZE)%nat in
    let s1 :=
      if decide (skip_bytes < header_end)%nat
      then [drop (skip_bytes - header_start) (ob_header f)] else [] in
    let skipped := header_end in
    match ob_payload f with
    | [] => s1 ++ remaining_slices batch skip_bytes skipped
    | p =>
      let payload_start := skipped in
      let payload_end := (skipped + length p)%nat in
      let s2 :=
        if decide (skip_bytes < payload_end)%nat
        then [drop (skip_bytes - payload_start) p] else [] in
      s1 ++ s2 ++ remaining_slices batch skip_bytes payload_end
    end
  end.

Definition build_remaining_slices (batch : list OutboundFrame) (skip_bytes : nat) :
  list bytes := remaining_slices batch skip_bytes 0.

(** The slices of the first write. *)
Fixpoint batch_slices (batch : list OutboundFrame) : list bytes :=
  match batch with
  | [] => []
  | f :: batch =>
    ob_header f ::
    match ob_payload f with
    | [] => batch_slices batch
    | p => p :: batch_slices batch
    end
  end.

(** ** [AsyncWrite] *)

(** What [write_batch] uses of [W: AsyncWrite + Unpin], with the bytes the
    writer has taken so far: what an [await] returns when it returns.  One that
    stays pending, because the peer does not read, is a step of the writer task
    that is never taken ([writing] and [free_step] in WriterLive). *)
Class AsyncWrite (W : Type) := {
  write_vectored : W → list bytes → W * result io_Error nat;
  flush : W → W * result io_Error unit;
  written : W → bytes
}.

(** The documented contract: a successful [write_vectored] has taken the first
    [n] bytes of the slices, a failed one none; flushing writes nothing new. *)
Class AsyncWriteOk W `{AsyncWrite W} : Prop := {
  write_vectored_ok w sl w' n :
    write_vectored w sl = (w', Ok n) →
    (n ≤ length (concat sl))%nat ∧ written w' = written w ++ take n (concat sl);
  write_vectored_err w sl w' e :
    write_vectored w sl = (w', Err e) → written w' = written w;
  flush_written w w' r : flush w = (w', r) → written w' = written w
}.

Section WriteBatch.
Context `{TP : ThirdParty} {W : Type} `{AsyncWrite W}.

Definition write_zero : ProcwireError :=
  Io {| io_kind := WriteZero; io_message := "write_vectored returned 0" |}.

(** [writer.flush().await?; Ok(())]. *)
Definition flush_ok (w : W) : W * Result unit :=
  let '(w, r) := flush w in (w, map_err Io r).

(** The [while total_written < total_size] loop of the slow path. *)
Fixpoint write_rest (fuel : nat) (w : W) (batch : list OutboundFrame)
  (total_size total_written : nat) : option (W * Result unit) :=
  match fuel with
  | O => None
  | S fuel =>
    if decide (total_written < total_size)%nat then
      match build_remaining_slices batch total_written with
      | [] => Some (w, Ok tt) (* break *)
      | slices =>
        match write_vectored w slices with
        | (w, Err e) => Some (w, Err (Io e))
        | (w, Ok n) =>
          if decide (n = 0)%nat then Some (w, Err write_zero)
          else write_rest fuel w batch total_size (total_written + n)
        end
      end
    else Some (w, Ok tt)
  end.

(** [write_batch]; [None] would be an endless loop, which
    [write_batch_spec] excludes. *)
Definition write_batch (w : W) (batch : list OutboundFrame) : option (W * Result unit) :=
  match batch with
  | [] => Some (w, Ok tt)
  | _ =>
    let slices := batch_slices batch in
    let total_size := sum_list_with size batch in
    match write_vectored w slices with
    | (w, Err e) => Some (w, Err (Io e))
    | (w, Ok n) =>
      if decide (n = total_size) then Some (flush_ok w)
      else if decide (n = 0)%nat then Some (w, Err write_zero)
      else
        match write_rest (S total_size) w batch total_size n with
        | None => None
        | Some (w, Err e) => Some (w, Err e)
        | Some (w, Ok _) => Some (flush_ok w)
        end
    end
  end.
End WriteBatch.

(** ** Lemmas *)

Lemma new_outbound_wf h p : ob_wf (new_outbound h p).
Proof. apply length_encode. Qed.

Lemma empty_outbound_wf h : ob_wf (empty_outbound h).
Proof. apply length_encode. Qed.

Lemma ob_bytes_new h p : ob_bytes (new_outbound h p) = build_frame h p.
Proof. done. Qed.

#[export] Hint Resolve new_outbound_wf empty_outbound_wf : procwire.

Lemma length_ob_bytes f : ob_wf f → length (ob_bytes f) = size f.
Proof. intros H. unfold ob_bytes, size. by rewrite length_app, H. Qed.

Lemma batch_bytes_cons f batch : batch_bytes (f :: batch) = ob_bytes f ++ batch_bytes batch.
Proof. done. Qed.

Lemma batch_bytes_app b1 b2 : batch_bytes (b1 ++ b2) = batch_bytes b1 ++ batch_bytes b2.
Proof. unfold batch_bytes. by rewrite fmap_app, concat_app. Qed.

Lemma length_batch_bytes batch :
  Forall ob_wf batch → length (batch_bytes batch) = sum_list_with size batch.
Proof.
  induction 1 as [|f batch Hf Hb IH]; [done|].
  rewrite batch_bytes_cons, length_app, length_ob_bytes by done. simpl. lia.
Qed.

Lemma concat_batch_slices batch : concat (batch_slices batch) = batch_bytes batch.
Proof.
  induction batch as [|f batch IH]; [done|]. rewrite batch_bytes_cons.
  unfold ob_bytes. cbn [batch_slices].
  destruct (ob_payload f); cbn [concat]; rewrite IH, <- app_assoc; done.
Qed.

(** Dropping from a concatenation, slice by slice. *)
Lemma drop_slice (k s : nat) (x : bytes) :
  drop (k - s) x = if decide (k < s + length x)%nat then drop (k - s) x else [].
Proof. case_decide; [done|]. by rewrite drop_ge by lia. Qed.

Lemma concat_if (b : Prop) `{Decision b} (x : bytes) (rest : list bytes) :
  concat ((if decide b then [x] else []) ++ rest) = (if decide b then x else []) ++ concat rest.
Proof. by case_decide. Qed.

Lemma remaining_slices_spec batch k s :
  Forall ob_wf batch → concat (remaining_slices batch k s) = drop (k - s) (batch_bytes batch).
Proof.
  intros Hb. revert s. induction Hb as [|f batch Hf Hb IH]; intros s.
  { symmetry. apply drop_nil. }
  rewrite batch_bytes_cons. unfold ob_bytes. rewrite <- app_assoc, !drop_app.
  cbn [remaining_slices]. unfold ob_wf in Hf. rewrite Hf.
  destruct (ob_payload f) as [|b p] eqn:Hp.
  - rewrite concat_if, IH. rewrite <- Hf, <- drop_slice, Hf. cbn [app length].
    rewrite ?drop_nil. cbn [app]. do 2 f_equal. lia.
  - rewrite !concat_if, IH. rewrite <- Hf, <- drop_slice, Hf. f_equal.
    replace (k - s - HEADER_SIZE)%nat with (k - (s + HEADER_SIZE))%nat by lia.
    rewrite <- drop_slice. do 2 f_equal. lia.
Qed.

(** No slice handed to the writer is empty. *)
Lemma remaining_slices_nonempty batch k s :
  Forall ob_wf batch → Forall (λ sl, sl ≠ []) (remaining_slices batch k s).
Proof.
  intros Hb. revert s. induction Hb as [|f batch Hf Hb IH]; intros s; [constructor|].
  assert (Hd : ∀ (x : bytes) n, (n < length x)%nat → drop n x ≠ []).
  { intros x n Hn Hx. apply (f_equal length) in Hx. rewrite length_drop in Hx.
    simpl in Hx. lia. }
  assert (0 < HEADER_SIZE)%nat by (unfold HEADER_SIZE; lia).
  unfold ob_wf in Hf. cbn [remaining_slices].
  destruct (ob_payload f) as [|b p]; repeat apply Forall_app_2; auto;
    case_decide; constructor; try constructor; apply Hd; simpl in *; lia.
Qed.

Lemma build_remaining_slices_nil batch k :
  Forall ob_wf batch → build_remaining_slices batch k = [] →
  (sum_list_with size batch ≤ k)%nat.
Proof.
  intros Hb Hn. pose proof (remaining_slices_spec batch k 0 Hb) as Hs.
  unfold build_remaining_slices in Hn. rewrite Hn, Nat.sub_0_r in Hs.
  apply (f_equal length) in Hs. simpl in Hs.
  rewrite length_drop, length_batch_bytes in Hs by done. lia.
Qed.

Section WriteBatchLemmas.
Context `{TP : ThirdParty} {W : Type} `{AsyncWriteOk W}.

Lemma flush_ok_written w w' r : flush_ok w = (w', r) → written w' = written w.
Proof.
  unfold flush_ok. destruct (flush w) as [w1 r1] eqn:Hf. intros [= <- _].
  by eapply flush_written.
Qed.

(** The slow path, from any point of the batch. *)
Lemma write_rest_spec fuel w batch base k :
  Forall ob_wf batch →
  (k ≤ length (batch_bytes batch))%nat → (length (batch_bytes batch) - k < fuel)%nat →
  written w = base ++ take k (batch_bytes batch) →
  ∃ w' r, write_rest fuel w batch (sum_list_with size batch) k = Some (w', r)
    ∧ match r with
      | Ok _ => written w' = base ++ batch_bytes batch
      | Err _ => ∃ j, written w' = base ++ take j (batch_bytes batch)
      end.
Proof.
  intros Hb. rewrite <- length_batch_bytes by done. revert w k.
  induction fuel as [|fuel IH]; intros w k Hk Hfuel Hw; [lia|]. cbn [write_rest].
  case_decide as Hlt.
  2: { exists w, (Ok tt). split; [done|]. rewrite Hw, take_ge by lia. done. }
  pose proof (remaining_slices_spec batch k 0 Hb) as Hsl. rewrite Nat.sub_0_r in Hsl.
  unfold build_remaining_slices.
  destruct (remaining_slices batch k 0) as [|s0 sl].
  { apply (f_equal length) in Hsl. simpl in Hsl. rewrite length_drop in Hsl. lia. }
  destruct (write_vectored w (s0 :: sl)) as [w1 [n|e]] eqn:Hwv.
  2: { exists w1, (Err (Io e)). split; [done|]. exists k.
       by rewrite (write_vectored_err _ _ _ _ Hwv). }
  destruct (write_vectored_ok _ _ _ _ Hwv) as [Hn Hw1]. rewrite Hsl in Hn, Hw1.
  rewrite length_drop in Hn. rewrite Hw, <- app_assoc, take_take_drop in Hw1.
  case_decide as Hz.
  { exists w1, (Err write_zero). split; [done|]. by exists (k + n)%nat. }
  apply IH; [lia|lia|done].
Qed.

Lemma write_batch_spec w batch :
  Forall ob_wf batch →
  ∃ w' r, write_batch w batch = Some (w', r)
    ∧ match r with
      | Ok _ => written w' = written w ++ batch_bytes batch
      | Err _ => ∃ j, written w' = written w ++ take j (batch_bytes batch)
      end.
Proof.
  intros Hb. unfold write_batch. destruct batch as [|f fs] eqn:Hbatch.
  { exists w, (Ok tt). split; [done|]. by rewrite app_nil_r. }
  rewrite <- Hbatch in *. clear f fs Hbatch.
  destruct (write_vectored w (batch_slices batch)) as [w1 [n|e]] eqn:Hwv.
  2: { exists w1, (Err (Io e)). split; [done|]. exists 0%nat. simpl.
       rewrite app_nil_r. by eapply write_vectored_err. }
  destruct (write_vectored_ok _ _ _ _ Hwv) as [Hn Hw1].
  rewrite concat_batch_slices in Hn, Hw1.
  assert (Hflush : ∀ w2, written w2 = written w ++ batch_bytes batch →
    ∃ w' r, Some (flush_ok w2) = Some (w', r)
    ∧ match r with
      | Ok _ => written w' = written w ++ batch_bytes batch
      | Err _ => ∃ j, written w' = written w ++ take j (batch_bytes batch)
      end).
  { intros w2 Hw2. destruct (flush_ok w2) as [w3 r] eqn:Hf.
    apply flush_ok_written in Hf. exists w3, r. split; [done|]. rewrite Hf, Hw2.
    destruct r; [done|]. exists (length (batch_bytes batch)). by rewrite take_ge by lia. }
  rewrite <- length_batch_bytes by done.
  case_decide as Htot; [subst n; apply Hflush; by rewrite Hw1, take_ge by lia|].
  case_decide as Hz; [eexists _, _; split; [done|by exists n]|].
  destruct (write_rest_spec (S (length (batch_bytes batch))) w1 batch (written w) n)
    as (w2 & r & Hr & Hw2); [done..|lia|done|].
  rewrite length_batch_bytes in * by done. rewrite Hr.
  destruct r as [[]|e]; [by apply Hflush|]. eexists _, _. by split.
Qed.
End WriteBatchLemmas.

(** A writer that takes at most the scripted number of bytes per call (all of
    them once the script is over) and whose flush succeeds. *)
Record ScriptWriter := { sw_out : bytes; sw_script : list nat }.

#[export] Instance script_writer : AsyncWrite ScriptWriter := {|
  write_vectored w sl :=
    let data := concat sl in
    let n := match sw_script w with [] => length data | k :: _ => Nat.min k (length data) end in
    ({| sw_out := sw_out w ++ take n data; sw_script := tail (sw_script w) |}, Ok n);
  flush w := (w, Ok tt);
  written := sw_out
|}.

#[export] Instance script_writer_ok : AsyncWriteOk ScriptWriter.
Proof.
  split.
  - intros w sl w' n [= <- <-]. simpl. split; [destruct (sw_script w); lia|done].
  - intros w sl w' e. done.
  - intros w w' r [= <- _]. done.
Qed.

(** ** Properties *)

(** After a partial write, [build_remaining_slices] yields exactly the
    bytes of the batch that are not written yet, for every number of bytes
    already written (inside a header, inside a payload, or on a boundary), as
    a list with no empty slice. *)
Theorem remaining_slices_exact (batch : list OutboundFrame) (skip : nat) :
  Forall ob_wf batch →
  concat (build_remaining_slices batch skip) = drop skip (batch_bytes batch)
  ∧ Forall (λ sl, sl ≠ []) (build_remaining_slices batch skip).
Proof.
  intros Hb. split; [|by apply remaining_slices_nonempty].
  unfold build_remaining_slices. rewrite remaining_slices_spec by done.
  by rewrite Nat.sub_0_r.
Qed.

Lemma remaining_slices_exact_witness :
  let batch := [new_outbound (new_header 1 3 42 5) [1; 2; 3; 4; 5]] in
  concat (build_remaining_slices batch 13) = drop 13 (batch_bytes batch)
  ∧ Forall (λ sl, sl ≠ []) (build_remaining_slices batch 13).
Proof. apply remaining_slices_exact. by constructor. Defined.

(** C31: [write_batch] always returns, however the writer splits the data into
    partial writes: on success the pipe has received exactly the frames of the
    batch, whole and in order; on an error it has received a prefix of them. *)
Theorem write_batch_exact `{TP : ThirdParty} {W} `{AsyncWriteOk W}
  (w : W) (batch : list OutboundFrame) :
  Forall ob_wf batch →
  ∃ w' r, write_batch w batch = Some (w', r)
    ∧ match r with
      | Ok _ => written w' = written w ++ batch_bytes batch
      | Err _ => ∃ p, p `prefix_of` batch_bytes batch ∧ written w' = written w ++ p
      end.
Proof.
  intros Hb. destruct (write_batch_spec w batch Hb) as (w' & r & Hw & Hr).
  exists w', r. split; [done|]. destruct r; [done|]. destruct Hr as [j Hj].
  eexists. split; [apply prefix_take|exact Hj].
Qed.

Lemma write_batch_exact_witness :
  let batch := [new_outbound (new_header 1 3 42 2) [1; 2]] in
  let w := {| sw_out := [9]; sw_script := [5%nat; 7%nat] |} in
  ∃ w' r, @write_batch string_errors _ _ w batch = Some (w', r)
    ∧ match r with
      | Ok _ => written w' = written w ++ batch_bytes batch
      | Err _ => ∃ p, p `prefix_of` batch_bytes batch ∧ written w' = written w ++ p
      end.
Proof. apply write_batch_exact. by constructor. Defined.
