(* ===== verification/WriterTask.v ===== *)
(** * The writer task and its senders (src/writer.rs)

    [WriterHandle::send], [try_send], [wait_for_backpressure] and
    [writer_loop] as one concurrent system: any number of calls on cloned
    handles, the bounded channel, the pending counter they share and the task
    that drains the channel.  Each atomic access, channel operation and batch
    write is a step. *)

From S2P Require Import Prelude Errors WireFormat Frame Writer.

(** Which method a call runs. *)
Inductive send_mode := Send | TrySend.

#[export] Instance send_mode_eq_dec : EqDecision send_mode.
Proof. solve_decision. Defined.

Section System.
Context `{TP : ThirdParty} {W : Type} `{AsyncWrite W}.

(** Where a call is: before the first load, in [wait_for_backpressure], before
    [fetch_add(1)], before the channel send, before the [fetch_sub(1)] of the
    error path, or returned. *)
Inductive send_pc :=
| PcStart
| PcWait
| PcAdd
| PcEnqueue
| PcUndo (e : ProcwireError)
| PcDone (r : Result unit).

Record sender := { s_mode : send_mode; s_frame : OutboundFrame; s_pc : send_pc }.

Definition set_pc (s : sender) (pc : send_pc) : sender :=
  {| s_mode := s_mode s; s_frame := s_frame s; s_pc := pc |}.

(** Where [writer_loop] is: in [recv], collecting a batch with [try_recv],
    writing it, about to subtract its size, or returned. *)
Inductive task_pc :=
| TRecv
| TCollect (batch : list OutboundFrame)
| TWrite (batch : list OutboundFrame)
| TSub (batch_size : nat)
| TExit (r : Result unit).

(** [accepted] and [leaked] are history: the frames that entered the channel,
    in order, and the frames of the counter nobody will subtract. *)
Record wsys := {
  w_queue : list OutboundFrame;
  w_rx_open : bool;
  w_tx_alive : bool;
  w_pending : usize;
  w_senders : list sender;
  w_task : task_pc;
  w_sink : W;
  w_accepted : list OutboundFrame;
  w_leaked : nat
}.

Definition set_sender (t : nat) (s : sender) (y : wsys) : wsys :=
  {| w_queue := w_queue y; w_rx_open := w_rx_open y; w_tx_alive := w_tx_alive y;
     w_pending := w_pending y; w_senders := <[t := s]> (w_senders y); w_task := w_task y;
     w_sink := w_sink y; w_accepted := w_accepted y; w_leaked := w_leaked y |}.
Definition set_pending (p : usize) (y : wsys) : wsys :=
  {| w_queue := w_queue y; w_rx_open := w_rx_open y; w_tx_alive := w_tx_alive y;
     w_pending := p; w_senders := w_senders y; w_task := w_task y;
     w_sink := w_sink y; w_accepted := w_accepted y; w_leaked := w_leaked y |}.
Definition set_task (k : task_pc) (y : wsys) : wsys :=
  {| w_queue := w_queue y; w_rx_open := w_rx_open y; w_tx_alive := w_tx_alive y;
     w_pending := w_pending y; w_senders := w_senders y; w_task := k;
     w_sink := w_sink y; w_accepted := w_accepted y; w_leaked := w_leaked y |}.
Definition set_queue (q : list OutboundFrame) (y : wsys) : wsys :=
  {| w_queue := q; w_rx_open := w_rx_open y; w_tx_alive := w_tx_alive y;
     w_pending := w_pending y; w_senders := w_senders y; w_task := w_task y;
     w_sink := w_sink y; w_accepted := w_accepted y; w_leaked := w_leaked y |}.
Definition set_sink (w : W) (y : wsys) : wsys :=
  {| w_queue := w_queue y; w_rx_open := w_rx_open y; w_tx_alive := w_tx_alive y;
     w_pending := w_pending y; w_senders := w_senders y; w_task := w_task y;
     w_sink := w; w_accepted := w_accepted y; w_leaked := w_leaked y |}.

(** The frame enters the channel. *)
Definition enqueue (f : OutboundFrame) (y : wsys) : wsys :=
  {| w_queue := w_queue y ++ [f]; w_rx_open := w_rx_open y; w_tx_alive := w_tx_alive y;
     w_pending := w_pending y; w_senders := w_senders y; w_task := w_task y;
     w_sink := w_sink y; w_accepted := w_accepted y ++ [f]; w_leaked := w_leaked y |}.

(** [writer_loop] returns: the receiver is dropped with the frames in it. *)
Definition close_rx (r : Result unit) (leaked : nat) (y : wsys) : wsys :=
  {| w_queue := []; w_rx_open := false; w_tx_alive := w_tx_alive y;
     w_pending := w_pending y; w_senders := w_senders y; w_task := TExit r;
     w_sink := w_sink y; w_accepted := w_accepted y;
     w_leaked := (leaked + length (w_queue y))%nat |}.

(** A new call on a clone of the handle. *)
Definition spawn_sender (m : send_mode) (f : OutboundFrame) (y : wsys) : wsys :=
  {| w_queue := w_queue y; w_rx_open := w_rx_open y; w_tx_alive := w_tx_alive y;
     w_pending := w_pending y;
     w_senders := w_senders y ++ [{| s_mode := m; s_frame := f; s_pc := PcStart |}];
     w_task := w_task y; w_sink := w_sink y; w_accepted := w_accepted y;
     w_leaked := w_leaked y |}.

(** The last [WriterHandle] is dropped. *)
Definition drop_handles (y : wsys) : wsys :=
  {| w_queue := w_queue y; w_rx_open := w_rx_open y; w_tx_alive := false;
     w_pending := w_pending y; w_senders := w_senders y; w_task := w_task y;
     w_sink := w_sink y; w_accepted := w_accepted y; w_leaked := w_leaked y |}.

Definition all_returned (y : wsys) : Prop :=
  Forall (λ s, ∃ r, s_pc s = PcDone r) (w_senders y).

(** ** The steps of one call of [send] or [try_send]

    [send_step cfg y s s' y'] changes the call [s] into [s'] and the shared
    state [y] into [y']. *)
Inductive send_step (cfg : WriterConfig) (y : wsys) (s : sender) : sender → wsys → Prop :=
| st_check_ok :
    s_pc s = PcStart → w_pending y < max_pending_frames cfg →
    send_step cfg y s (set_pc s PcAdd) y
| st_check_full_wait :
    s_pc s = PcStart → s_mode s = Send → max_pending_frames cfg <= w_pending y →
    send_step cfg y s (set_pc s PcWait) y
| st_check_full_fail :
    s_pc s = PcStart → s_mode s = TrySend → max_pending_frames cfg <= w_pending y →
    send_step cfg y s (set_pc s (PcDone (Err BackpressureTimeout))) y
| st_wait_ok :
    s_pc s = PcWait → w_pending y < max_pending_frames cfg →
    send_step cfg y s (set_pc s PcAdd) y
| st_wait_again : (* not yet elapsed: sleep and look again *)
    s_pc s = PcWait → max_pending_frames cfg <= w_pending y →
    send_step cfg y s s y
| st_wait_timeout : (* [start.elapsed() > self.timeout] *)
    s_pc s = PcWait → max_pending_frames cfg <= w_pending y →
    send_step cfg y s (set_pc s (PcDone (Err BackpressureTimeout))) y
| st_add :
    s_pc s = PcAdd →
    send_step cfg y s (set_pc s PcEnqueue) (set_pending (wrap 64 (w_pending y + 1)) y)
| st_enqueue :
    s_pc s = PcEnqueue → w_rx_open y = true →
    (length (w_queue y) < channel_capacity cfg)%nat →
    send_step cfg y s (set_pc s (PcDone (Ok tt))) (enqueue (s_frame s) y)
| st_closed :
    s_pc s = PcEnqueue → w_rx_open y = false →
    send_step cfg y s (set_pc s (PcUndo ConnectionClosed)) y
| st_try_full :
    s_pc s = PcEnqueue → s_mode s = TrySend → w_rx_open y = true →
    (channel_capacity cfg ≤ length (w_queue y))%nat →
    send_step cfg y s (set_pc s (PcUndo BackpressureTimeout)) y
| st_undo e :
    s_pc s = PcUndo e →
    send_step cfg y s (set_pc s (PcDone (Err e))) (set_pending (wrap 64 (w_pending y - 1)) y).

(** ** The steps of [writer_loop] *)
Inductive task_step (y : wsys) : wsys → Prop :=
| ts_recv f q :
    w_task y = TRecv → w_queue y = f :: q →
    task_step y (set_queue q (set_task (TCollect [f]) y))
| ts_recv_closed :
    w_task y = TRecv → w_queue y = [] → w_tx_alive y = false →
    task_step y (close_rx (Ok tt) 0 y)
| ts_try_recv batch f q :
    w_task y = TCollect batch → (length batch < MAX_BATCH_SIZE)%nat → w_queue y = f :: q →
    task_step y (set_queue q (set_task (TCollect (batch ++ [f])) y))
| ts_collected batch :
    w_task y = TCollect batch →
    (MAX_BATCH_SIZE ≤ length batch)%nat ∨ w_queue y = [] →
    task_step y (set_task (TWrite batch) y)
| ts_written batch w :
    w_task y = TWrite batch → write_batch (w_sink y) batch = Some (w, Ok tt) →
    task_step y (set_sink w (set_task (TSub (length batch)) y))
| ts_failed batch w e :
    w_task y = TWrite batch → write_batch (w_sink y) batch = Some (w, Err e) →
    task_step y (close_rx (Err e) (length batch) (set_sink w y))
| ts_sub n :
    w_task y = TSub n →
    task_step y (set_task TRecv (set_pending (wrap 64 (w_pending y - Z.of_nat n)) y)).

(** ** The system *)
Inductive wstep (cfg : WriterConfig) (y : wsys) : wsys → Prop :=
| ws_spawn m f :
    w_tx_alive y = true → ob_wf f → wstep cfg y (spawn_sender m f y)
| ws_drop : all_returned y → wstep cfg y (drop_handles y)
| ws_send t s s' y' :
    w_senders y !! t = Some s → send_step cfg y s s' y' → wstep cfg y (set_sender t s' y')
| ws_task y' : task_step y y' → wstep cfg y y'.

(** [tokio::sync::Semaphore::MAX_PERMITS]. *)
Definition MAX_PERMITS : usize := Z.shiftr (2 ^ 64 - 1) 3.

(** [spawn_writer_task]: the channel, the counter, the first handle, the task.
    [None] is the panic of [mpsc::channel] on a capacity that is zero or above
    [MAX_PERMITS]. *)
Definition fresh_wsys (w : W) : wsys :=
  {| w_queue := []; w_rx_open := true; w_tx_alive := true; w_pending := 0;
     w_senders := []; w_task := TRecv; w_sink := w; w_accepted := []; w_leaked := 0 |}.
Definition spawn_writer_task (w : W) (cfg : WriterConfig) : option wsys :=
  if decide (channel_capacity cfg = 0%nat ∨ MAX_PERMITS < Z.of_nat (channel_capacity cfg))
  then None else Some (fresh_wsys w).
Definition spawn_writer_task_default (w : W) : option wsys :=
  spawn_writer_task w default_config.

(** The states the system can be in. *)
Definition reachable (w : W) (cfg : WriterConfig) (y : wsys) : Prop :=
  ∃ y0, spawn_writer_task w cfg = Some y0 ∧ rtc (wstep cfg) y0 y.

(** [is_backpressure_active] and [pending_count]. *)
Definition is_backpressure_active (cfg : WriterConfig) (y : wsys) : bool :=
  max_pending_frames cfg <=? w_pending y.
Definition writer_pending_count (y : wsys) : usize := w_pending y.

(** ** The invariant *)

(** A call between its addition and the point where the frame is handed over
    or the addition undone. *)
Definition counted (s : sender) : nat :=
  match s_pc s with PcEnqueue | PcUndo _ => 1 | _ => 0 end.

(** Frames the task holds: in the batch, or written and not yet subtracted. *)
Definition task_count (k : task_pc) : nat :=
  match k with
  | TRecv | TExit _ => 0
  | TCollect b | TWrite b => length b
  | TSub n => n
  end.

(** The frames taken from the channel and not written yet. *)
Definition task_batch (k : task_pc) : list OutboundFrame :=
  match k with TCollect b | TWrite b => b | _ => [] end.

(** The frames of the calls that returned [Ok]. *)
Definition sent_frames (ss : list sender) : list OutboundFrame :=
  omap (λ s, match s_pc s with PcDone (Ok _) => Some (s_frame s) | _ => None end) ss.

Definition in_flight (y : wsys) : nat :=
  (sum_list_with counted (w_senders y) + length (w_queue y)
   + task_count (w_task y) + w_leaked y)%nat.

Record w_inv (base : bytes) (y : wsys) : Prop := {
  wi_pending : w_pending y = wrap 64 (Z.of_nat (in_flight y));
  wi_frames : Forall (λ s, ob_wf (s_frame s)) (w_senders y) ∧ Forall ob_wf (w_accepted y);
  wi_sink :
    match w_task y with
    | TExit (Err _) =>
      w_rx_open y = false ∧
      ∃ p, p `prefix_of` batch_bytes (w_accepted y) ∧ written (w_sink y) = base ++ p
    | _ => w_leaked y = 0%nat
      ∧ (w_rx_open y = match w_task y with TExit _ => false | _ => true end)
      ∧ ∃ done, w_accepted y = done ++ task_batch (w_task y) ++ w_queue y
        ∧ written (w_sink y) = base ++ batch_bytes done
    end;
  wi_batch :
    match w_task y with
    | TCollect b | TWrite b => (1 ≤ length b ≤ MAX_BATCH_SIZE)%nat
    | TSub n => (1 ≤ n ≤ MAX_BATCH_SIZE)%nat
    | _ => True
    end;
  wi_results : w_accepted y ≡ₚ sent_frames (w_senders y);
  wi_closed : w_rx_open y = false → w_queue y = []
}.
End System.

#[global] Arguments sender {TP}.
#[global] Arguments wsys {TP} W.

Section Lemmas.
Context `{TP : ThirdParty} {W : Type} `{AsyncWriteOk W}.
Implicit Types (y : wsys W) (s : sender).

Lemma wrap_add a b : wrap 64 (wrap 64 a + b) = wrap 64 (a + b).
Proof. apply Zplus_mod_idemp_l. Qed.

Lemma wrap_sub a b : wrap 64 (wrap 64 a - b) = wrap 64 (a - b).
Proof. apply Zminus_mod_idemp_l. Qed.

(** The frame a call contributes to [sent_frames]. *)
Definition sent_of (s : sender) : list OutboundFrame := sent_frames [s].

Lemma sent_frames_insert (ss : list sender) t s s' :
  ss !! t = Some s →
  sent_of s ++ sent_frames (<[t := s']> ss) ≡ₚ sent_of s' ++ sent_frames ss.
Proof.
  assert (Hcons : ∀ x l, sent_frames (x :: l) = sent_of x ++ sent_frames l).
  { intros x l. unfold sent_of, sent_frames. simpl. by case_match. }
  revert t. induction ss as [|x ss IH]; intros [|t] Ht; simpl in *; try done.
  - injection Ht as ->. rewrite !Hcons. solve_Permutation.
  - rewrite !Hcons. specialize (IH t Ht).
    rewrite (Permutation_app_swap_app (sent_of s)), IH.
    by rewrite (Permutation_app_swap_app (sent_of s')).
Qed.

Lemma spawn_inv w : w_inv (written w) (fresh_wsys w).
Proof.
  split; cbn; [done|done| |done..]. split_and!; [done|done|]. exists [].
  split; [done|]. symmetry. apply app_nil_r.
Qed.

(** The invariant does not mention the handles' liveness. *)
Lemma drop_handles_inv base y : w_inv base y → w_inv base (drop_handles y).
Proof. intros [H1 H2 H3 H4 H5 H6]. by split. Qed.

Lemma spawn_sender_inv base m f y :
  ob_wf f → w_inv base y → w_inv base (spawn_sender m f y).
Proof.
  intros Hf [H1 [H2 H2'] H3 H4 H5 H6].
  split; [|split|..]; cbn; [|by apply Forall_app_2; [|constructor]|done|done|done| |done].
  - rewrite H1. unfold in_flight. cbn. rewrite sum_list_with_app. simpl. do 3 f_equal. lia.
  - unfold sent_frames. rewrite omap_app, app_nil_r. exact H5.
Qed.

(** A step of a call keeps the invariant: the counter moves with the call. *)
Lemma send_step_inv cfg base y t s s' y' :
  w_senders y !! t = Some s → send_step cfg y s s' y' → w_inv base y →
  w_inv base (set_sender t s' y').
Proof.
  intros Ht Hst [H1 [H2 H2'] H3 H4 H5 H6].
  assert (Hfr : s_frame s' = s_frame s) by (by destruct Hst).
  assert (Hwf : ob_wf (s_frame s)) by (by eapply (Forall_lookup_1 _ _ _ _ H2)).
  assert (Hss : w_senders y' = w_senders y) by (by destruct Hst).
  assert (Hsenders : Forall (λ s, ob_wf (s_frame s)) (<[t := s']> (w_senders y'))).
  { rewrite Hss. apply Forall_insert; [done|]. by rewrite Hfr. }
  pose proof (sum_list_with_insert counted _ _ _ s' Ht) as Hsum.
  pose proof (sent_frames_insert _ _ _ s' Ht) as Hsent.
  split; [|split; [exact Hsenders|]| | | |].
  - cbn [set_sender w_pending]. unfold in_flight in *.
    cbn [set_sender w_senders w_queue w_task w_leaked].
    set (SC := sum_list_with counted) in *.
    destruct Hst as [Hpc|Hpc|Hpc|Hpc|Hpc|Hpc|Hpc|Hpc|Hpc|Hpc|e Hpc];
      cbn [set_pending enqueue w_pending w_senders w_queue w_task w_leaked] in *;
      unfold counted in Hsum; cbn [set_pc s_pc] in Hsum; try rewrite Hpc in Hsum;
      rewrite ?H1, ?wrap_add, ?wrap_sub, ?length_app; cbn [length];
      f_equal; lia.
  - destruct Hst; cbn; [done..| |done|done|done].
    apply Forall_app_2; [done|]. by constructor.
  - destruct Hst; try exact H3. cbn. destruct (w_task y) as [|b|b|n|[[]|e]] eqn:Htask;
      cbn in *; try (destruct H3 as (? & ? & done & -> & ?); congruence);
      destruct H3 as (Hl & Ho & H3); split_and!; try done;
      try (destruct H3 as (dn & -> & ?); exists dn; split; [by rewrite <- !app_assoc|done]).
    congruence.
  - by destruct Hst.
  - destruct Hst as [Hpc|Hpc|Hpc|Hpc|Hpc|Hpc|Hpc|Hpc|Hpc|Hpc|e Hpc];
      unfold sent_of, sent_frames at 1 3 in Hsent; cbn in Hsent |- *; rewrite Hpc in Hsent;
      cbn in Hsent; rewrite ?Hsent, H5; try done.
    symmetry. apply Permutation_cons_append.
  - destruct Hst; try exact H6. cbn. congruence.
Qed.

Ltac task_fields :=
  cbn [set_pending set_queue set_task set_sink close_rx w_pending w_senders w_queue w_task
       w_leaked w_accepted w_sink w_rx_open] in *.

(** A step of the task keeps the invariant: frames move from the channel to
    the batch to the pipe, and leave the counter last. *)
Lemma task_step_inv base y y' : task_step y y' → w_inv base y → w_inv base y'.
Proof.
  intros Hst [H1 [H2 H2'] H3 H4 H5 H6].
  destruct Hst as [f q Hk Hq|Hk Hq Ha|b f q Hk Hb Hq|b Hk Hb|b w Hk Hw|b w e Hk Hw|n Hk];
    rewrite Hk in H3, H4; unfold in_flight in H1; rewrite ?Hk in H1;
    cbn [task_count task_batch] in *;
    try (destruct H3 as (Hl & Ho & dn & Hacc & Hout));
    (split; [|split|..]; task_fields; try congruence; try done).
  - rewrite H1. unfold in_flight. task_fields. rewrite Hq. do 2 f_equal. simpl. lia.
  - split_and!; try done. exists dn. by rewrite Hacc, Hq.
  - unfold MAX_BATCH_SIZE. simpl. lia.
  - rewrite H1. unfold in_flight. task_fields. rewrite Hq, Hl. do 2 f_equal.
  - rewrite Hq. split_and!; try done. exists dn. by rewrite Hacc, Hq.
  - rewrite H1. unfold in_flight. task_fields. rewrite Hq. do 2 f_equal.
    cbn [task_count]. rewrite length_app. simpl. lia.
  - split_and!; try done. exists dn. rewrite Hacc, Hq. cbn [task_batch].
    by rewrite <- app_assoc.
  - rewrite length_app. simpl. lia.
  - by split_and!; [..|exists dn].
  - split_and!; try done. exists (dn ++ b). cbn [task_batch].
    rewrite Hacc, <- app_assoc. split; [done|].
    destruct (write_batch_spec (w_sink y) b) as (w' & r & Hw' & Hr).
    { rewrite Hacc in H2'. by apply Forall_app in H2' as [_ [? _]%Forall_app]. }
    rewrite Hw in Hw'. injection Hw' as <- <-. rewrite Hr, Hout.
    by rewrite batch_bytes_app, app_assoc.
  - rewrite H1. unfold in_flight. task_fields. cbn [task_count]. rewrite Hl. f_equal. simpl. lia.
  - split; [done|].
    destruct (write_batch_spec (w_sink y) b) as (w' & r & Hw' & Hr).
    { rewrite Hacc in H2'. by apply Forall_app in H2' as [_ [? _]%Forall_app]. }
    rewrite Hw in Hw'. injection Hw' as <- <-. destruct Hr as [j Hr].
    exists (batch_bytes dn ++ take j (batch_bytes b)). split.
    + rewrite Hacc, !batch_bytes_app. apply prefix_app, prefix_app_r, prefix_take.
    + by rewrite Hr, Hout, app_assoc.
  - rewrite H1, wrap_sub. unfold in_flight. task_fields. cbn [task_count]. f_equal. lia.
  - by split_and!; [..|exists dn].
Qed.

Lemma wstep_inv cfg base y y' : wstep cfg y y' → w_inv base y → w_inv base y'.
Proof.
  intros Hst Hi. destruct Hst.
  - by apply spawn_sender_inv.
  - by apply drop_handles_inv.
  - by eapply send_step_inv.
  - by eapply task_step_inv.
Qed.

Lemma spawned_fresh cfg w y0 : spawn_writer_task w cfg = Some y0 → y0 = fresh_wsys w.
Proof. unfold spawn_writer_task. case_decide; congruence. Qed.

Lemma spawned_capacity cfg w y0 :
  spawn_writer_task w cfg = Some y0 → channel_capacity cfg ≠ 0%nat.
Proof. unfold spawn_writer_task. case_decide; [done|]. tauto. Qed.

Lemma reachable_inv cfg w y :
  reachable w cfg y → w_inv (written w) y.
Proof.
  intros (y0 & ->%spawned_fresh & Hs).
  apply (rtc_ind_r (λ y, w_inv (written w) y) (fresh_wsys w)) in Hs.
  - done.
  - apply spawn_inv.
  - intros y1 y2 _ Hst Hi. by eapply wstep_inv.
Qed.

(** ** Progress of the task *)

(** Every step of the task uses this up. *)
Definition task_measure (y : wsys W) : nat :=
  (4 * length (w_queue y)
   + match w_task y with
     | TCollect _ => 4 | TWrite _ => 3 | TSub _ => 2 | TRecv => 1 | TExit _ => 0
     end)%nat.

Lemma task_step_measure y y' : task_step y y' → (task_measure y' < task_measure y)%nat.
Proof.
  intros [f q Hk Hq|Hk Hq Ha|b f q Hk Hb Hq|b Hk Hb|b w Hk Hw|b w e Hk Hw|n Hk];
    unfold task_measure; task_fields; rewrite Hk, ?Hq; simpl; lia.
Qed.

Lemma task_step_sn y : sn task_step y.
Proof.
  remember (task_measure y) as m eqn:Hm. revert y Hm.
  induction (lt_wf m) as [m _ IH]. intros y ->. constructor. intros y' Hst.
  by eapply IH; [apply task_step_measure|].
Qed.

(** The task is at rest: waiting on an empty channel whose handles are alive,
    or returned. *)
Definition at_rest (y : wsys W) : Prop :=
  (w_task y = TRecv ∧ w_queue y = [] ∧ w_tx_alive y = true) ∨ ∃ r, w_task y = TExit r.

(** The task can move unless it is at rest. *)
Lemma task_moves base y : w_inv base y → at_rest y ∨ ∃ y', task_step y y'.
Proof.
  intros [_ [_ Hacc] Hsink _ _ _]. unfold at_rest.
  destruct (w_task y) as [|b|b|n|r] eqn:Hk; [|right..|by eauto].
  - destruct (w_queue y) as [|f q] eqn:Hq; [|right; eexists; by eapply ts_recv].
    destruct (w_tx_alive y) eqn:Ha; [by auto|]. right. eexists. by apply ts_recv_closed.
  - destruct (decide (MAX_BATCH_SIZE ≤ length b)%nat);
      [eexists; eapply ts_collected; eauto|].
    destruct (w_queue y) as [|f q] eqn:Hq; eexists;
      [eapply ts_collected|eapply ts_try_recv]; eauto; lia.
  - destruct Hsink as (_ & _ & dn & Hd & _). rewrite Hd in Hacc.
    destruct (write_batch_spec (w_sink y) b) as (w' & [[]|e] & Hw & _).
    { by apply Forall_app in Hacc as [_ [? _]%Forall_app]. }
    + eexists. by eapply ts_written.
    + eexists. by eapply ts_failed.
  - eexists. by eapply ts_sub.
Qed.

Lemma task_progress base y : w_inv base y → nf task_step y → at_rest y.
Proof. intros [?|Hst]%task_moves Hnf; [done|by destruct Hnf]. Qed.

(** A call that has returned counts for nothing. *)
Lemma all_returned_counted y :
  all_returned y → sum_list_with counted (w_senders y) = 0%nat.
Proof.
  unfold all_returned. induction 1 as [|s ss [r Hr] _ IH]; simpl; [done|].
  unfold counted at 1. by rewrite Hr, IH.
Qed.

(** Steps of the task leave the calls and the accepted frames alone. *)
Lemma task_step_frame y y' :
  task_step y y' → w_accepted y' = w_accepted y ∧ w_senders y' = w_senders y.
Proof. by intros []. Qed.

Lemma task_steps_inv base y y' :
  rtc task_step y y' → w_inv base y →
  w_inv base y' ∧ w_accepted y' = w_accepted y ∧ w_senders y' = w_senders y.
Proof.
  induction 1 as [|y y1 y2 Hst _ IH]; intros Hi; [done|].
  destruct (task_step_frame _ _ Hst) as [<- <-]. by apply IH, (task_step_inv _ y).
Qed.
End Lemmas.

(** ** A concrete run, for the witnesses *)
Section Demo.
#[local] Existing Instance string_errors.

Definition demo_frame : OutboundFrame := new_outbound (new_header 1 3 42 2) [1; 2].
Definition demo_writer : ScriptWriter := {| sw_out := [9]; sw_script := [5%nat; 3%nat] |}.

(** One frame sent and accepted; the task has not looked at it yet. *)
Definition demo_accepted (w : ScriptWriter) : wsys ScriptWriter :=
  {| w_queue := [demo_frame]; w_rx_open := true; w_tx_alive := true; w_pending := 1;
     w_senders := [{| s_mode := Send; s_frame := demo_frame; s_pc := PcDone (Ok tt) |}];
     w_task := TRecv; w_sink := w; w_accepted := [demo_frame]; w_leaked := 0 |}.

Lemma demo_accepted_reachable w : reachable w default_config (demo_accepted w).
Proof.
  eexists. split; [reflexivity|].
  eapply rtc_l. { apply (ws_spawn _ _ Send demo_frame); [done|apply new_outbound_wf]. }
  eapply rtc_l. { eapply (ws_send _ _ 0); [done|]. by apply st_check_ok. }
  eapply rtc_l. { eapply (ws_send _ _ 0); [done|]. by apply st_add. }
  eapply rtc_l.
  { eapply (ws_send _ _ 0); [done|]. apply st_enqueue; [done..|].
    cbn. unfold DEFAULT_CHANNEL_CAPACITY. lia. }
  apply rtc_refl.
Qed.

Definition demo_state : wsys ScriptWriter := demo_accepted demo_writer.
Lemma demo_reachable : reachable demo_writer default_config demo_state.
Proof. apply demo_accepted_reachable. Qed.
End Demo.

(** ** Properties *)

(** C29: under every interleaving of any number of [send] and [try_send] calls
    with the writer task, the shared counter is, modulo 2^64, the number of
    frames in flight: calls between [fetch_add] and handing the frame over (or
    undoing it), frames in the channel, frames in the task's hands, and the
    frames lost with a failed write.  Nothing is lost while no write has
    failed; then with every call returned and the task idle the counter is the
    length of the channel. *)
Theorem pending_accounting `{TP : ThirdParty} {W} `{AsyncWriteOk W}
  (w : W) (cfg : WriterConfig) (y : wsys W) :
  reachable w cfg y →
  writer_pending_count y = wrap 64 (Z.of_nat (in_flight y))
  ∧ ((∀ e, w_task y ≠ TExit (Err e)) → w_leaked y = 0%nat)
  ∧ (all_returned y → w_task y = TRecv →
     writer_pending_count y = wrap 64 (zlen (w_queue y))).
Proof.
  intros [Hp _ Hs _ _ _]%reachable_inv. split; [exact Hp|]. split.
  - intros Hne. destruct (w_task y) as [| | | |[|e]]; try apply Hs. by destruct (Hne e).
  - intros Hall Hk. unfold writer_pending_count. rewrite Hp. unfold in_flight.
    rewrite Hk in *. destruct Hs as [-> _]. rewrite all_returned_counted by done.
    unfold zlen. cbn [task_count]. by rewrite Nat.add_0_l, !Nat.add_0_r.
Qed.

Lemma pending_accounting_witness :
  writer_pending_count demo_state = wrap 64 (Z.of_nat (in_flight demo_state))
  ∧ ((∀ e, w_task demo_state ≠ TExit (Err e)) → w_leaked demo_state = 0%nat)
  ∧ (all_returned demo_state → w_task demo_state = TRecv →
     writer_pending_count demo_state = wrap 64 (zlen (w_queue demo_state))).
Proof. apply (pending_accounting _ _ _ demo_reachable). Defined.

(** C14: the frames in the channel are exactly those of the calls that returned
    [Ok] (a call that returned an error enqueued nothing); the pipe receives
    them whole, once each and in channel order: while no write has failed the
    bytes written are those of the frames before the current batch, and after
    a failure they are a prefix of the accepted stream.  A batch has between
    1 and [MAX_BATCH_SIZE] frames. *)
Theorem writer_delivers_in_order `{TP : ThirdParty} {W} `{AsyncWriteOk W}
  (w : W) (cfg : WriterConfig) (y : wsys W) :
  reachable w cfg y →
  w_accepted y ≡ₚ sent_frames (w_senders y)
  ∧ match w_task y with
    | TExit (Err _) =>
      ∃ p, p `prefix_of` batch_bytes (w_accepted y) ∧ written (w_sink y) = written w ++ p
    | _ =>
      ∃ before, w_accepted y = before ++ task_batch (w_task y) ++ w_queue y
        ∧ written (w_sink y) = written w ++ batch_bytes before
    end
  ∧ match w_task y with
    | TCollect b | TWrite b => (1 ≤ length b ≤ MAX_BATCH_SIZE)%nat
    | _ => True
    end.
Proof.
  intros [_ _ Hs Hb Hr _]%reachable_inv. split; [done|].
  destruct (w_task y) as [| | | |[|e]]; split; first [done | apply Hb | apply Hs].
Qed.

Lemma writer_delivers_in_order_witness :
  w_accepted demo_state ≡ₚ sent_frames (w_senders demo_state)
  ∧ match w_task demo_state with
    | TExit (Err _) =>
      ∃ p, p `prefix_of` batch_bytes (w_accepted demo_state)
        ∧ written (w_sink demo_state) = written demo_writer ++ p
    | _ =>
      ∃ before, w_accepted demo_state
          = before ++ task_batch (w_task demo_state) ++ w_queue demo_state
        ∧ written (w_sink demo_state) = written demo_writer ++ batch_bytes before
    end
  ∧ match w_task demo_state with
    | TCollect b | TWrite b => (1 ≤ length b ≤ MAX_BATCH_SIZE)%nat
    | _ => True
    end.
Proof. apply (writer_delivers_in_order _ _ _ demo_reachable). Defined.

(** The writer task always drains the channel: from every reachable state
    its own steps end, however the pipe splits the writes, and when they end
    either a write has failed, or the channel is empty, every accepted frame
    is on the pipe, and the counter counts only calls still in progress. *)
Theorem writer_drains `{TP : ThirdParty} {W} `{AsyncWriteOk W}
  (w : W) (cfg : WriterConfig) (y : wsys W) :
  reachable w cfg y →
  sn task_step y
  ∧ ∀ y', rtc task_step y y' → nf task_step y' →
    (∃ e, w_task y' = TExit (Err e))
    ∨ (w_queue y' = []
       ∧ written (w_sink y') = written w ++ batch_bytes (w_accepted y)
       ∧ w_pending y' = wrap 64 (Z.of_nat (sum_list_with counted (w_senders y)))).
Proof.
  intros Hi%reachable_inv. split; [apply task_step_sn|].
  intros y' Hst Hnf. destruct (task_steps_inv _ _ _ Hst Hi) as (Hi' & <- & <-).
  pose proof (task_progress _ _ Hi' Hnf) as Hrest.
  destruct Hi' as [Hp _ Hs _ _ Hc]. unfold in_flight in Hp.
  destruct Hrest as [(Hk & Hq & _)|[[[]|e] Hk]]; [right| |left; eauto]; try right;
    rewrite Hk in *; destruct Hs as (Hl & Ho & dn & Hd & ->);
    [|specialize (Hc Ho) as Hq]; rewrite Hq in *; cbn [task_batch app] in Hd;
    rewrite app_nil_r in Hd; subst dn; rewrite Hl in Hp; cbn [task_count length] in Hp;
    rewrite !Nat.add_0_r in Hp; done.
Qed.

Lemma writer_drains_witness :
  sn task_step demo_state
  ∧ ∀ y', rtc task_step demo_state y' → nf task_step y' →
    (∃ e, w_task y' = TExit (Err e))
    ∨ (w_queue y' = []
       ∧ written (w_sink y') = written demo_writer ++ batch_bytes (w_accepted demo_state)
       ∧ w_pending y' = wrap 64 (Z.of_nat (sum_list_with counted (w_senders demo_state)))).
Proof. apply (writer_drains _ _ _ demo_reachable). Defined.
