(* ===== verification/WriterLive.v ===== *)
(** * Progress and failure of the writer system (src/writer.rs)

    What [WriterTask] reaches in the end.  Under every schedule the calls and
    the task stop by themselves, apart from the polls of a call that waits for
    room; what is left is a task at rest and calls that have all returned, or a
    write that stays pending and calls that wait for room behind it.
    After a failed write nothing is accepted any more. *)

From S2P Require Import Prelude Errors WireFormat Frame Writer WriterTask.

Section Live.
Context `{TP : ThirdParty} {W : Type} `{AsyncWrite W}.
Implicit Types (y : wsys W) (s : sender).

(** A step of a call or of the task that changes something: a poll that finds
    the counter still at its maximum does not. *)
Inductive work_step (cfg : WriterConfig) y : wsys W → Prop :=
| wk_call t s s' y' :
    w_senders y !! t = Some s → send_step cfg y s s' y' → s' ≠ s →
    work_step cfg y (set_sender t s' y')
| wk_task y' : task_step y y' → work_step cfg y y'.

(** A write may stay pending for ever, when the parent stops reading: in the
    model the write of a batch then never takes its step.  [free_step] are the
    working steps that need no write to complete. *)
Definition writing y : Prop := ∃ batch, w_task y = TWrite batch.

Definition free_step (cfg : WriterConfig) y y' : Prop :=
  work_step cfg y y' ∧ (writing y → writing y').

(** A call about to hand its frame over, with no room in the channel. *)
Definition waits_for_room (cfg : WriterConfig) y s : Prop :=
  s_pc s = PcEnqueue ∧ (channel_capacity cfg ≤ length (w_queue y))%nat.

Definition returned s : Prop := ∃ r, s_pc s = PcDone r.

(** What is left to do in a call; handing a frame over gives the task work. *)
Definition call_measure s : nat :=
  match s_pc s with
  | PcStart => 9 | PcWait => 8 | PcAdd => 7 | PcEnqueue => 6 | PcUndo _ => 1 | PcDone _ => 0
  end.

Definition calls_measure (ss : list sender) : nat := sum_list_with call_measure ss.
End Live.

Section Lemmas.
Context `{TP : ThirdParty} {W : Type} `{AsyncWriteOk W}.
Implicit Types (y : wsys W) (s : sender).

(** Every working step uses up the sum of both measures. *)
Definition work_measure y : nat := (calls_measure (w_senders y) + task_measure y)%nat.

Lemma work_step_measure cfg y y' : work_step cfg y y' → (work_measure y' < work_measure y)%nat.
Proof.
  intros [t s s' y1 Ht Hst Hne|y1 Hst]; unfold work_measure.
  - pose proof (sum_list_with_insert call_measure _ _ _ s' Ht) as Hsum.
    unfold calls_measure, task_measure. cbn [set_sender w_senders w_queue w_task].
    destruct Hst as [Hp|Hp|Hp|Hp|Hp|Hp|Hp|Hp|Hp|Hp|e Hp];
      unfold call_measure in Hsum at 2 4; cbn [set_pc s_pc] in Hsum; rewrite Hp in Hsum;
      cbn [set_pending enqueue w_senders w_queue w_task]; rewrite ?length_app; cbn [length];
      first [done|lia].
  - pose proof (task_step_measure _ _ Hst). destruct (task_step_frame _ _ Hst) as [_ ->]. lia.
Qed.

Lemma work_step_sn cfg y : sn (work_step cfg) y.
Proof.
  remember (work_measure y) as m eqn:Hm. revert y Hm.
  induction (lt_wf m) as [m _ IH]. intros y ->. constructor. intros y' Hst.
  by eapply IH; [apply (work_step_measure cfg)|].
Qed.

Lemma work_step_wstep cfg y y' : work_step cfg y y' → wstep cfg y y'.
Proof. intros [t s s' y1 Ht Hst _|y1 Hst]; [by eapply ws_send|by apply ws_task]. Qed.

#[export] Instance writing_dec y : Decision (writing y).
Proof.
  destruct (w_task y) eqn:Hk; [right|right|by left; exists batch|right|right];
    intros [batch' Hb]; congruence.
Defined.

(** A call has returned, can do some work, or waits for room. *)
Lemma call_moves cfg y s :
  returned s ∨ (waits_for_room cfg y s ∧ w_rx_open y = true)
  ∨ ∃ s' y', send_step cfg y s s' y' ∧ s' ≠ s.
Proof.
  assert (Hgo : ∀ pc y1, pc ≠ s_pc s → send_step cfg y s (set_pc s pc) y1 →
    ∃ s' y', send_step cfg y s s' y' ∧ s' ≠ s).
  { intros pc y1 Hpc Hst. eexists _, _. split; [exact Hst|].
    intros Heq. apply Hpc. by rewrite <- Heq. }
  destruct (s_pc s) as [| | | |e|r] eqn:Hp; [do 2 right|do 2 right|do 2 right|right|do 2 right|left; by exists r].
  - destruct (decide (w_pending y < max_pending_frames cfg)) as [Hlt|Hge%Z.nlt_ge].
    { by eapply (Hgo PcAdd); [|by apply st_check_ok]. }
    destruct (s_mode s) eqn:Hmode.
    + by eapply (Hgo PcWait); [|by apply st_check_full_wait].
    + by eapply (Hgo (PcDone (Err BackpressureTimeout))); [|by apply st_check_full_fail].
  - destruct (decide (w_pending y < max_pending_frames cfg)) as [Hlt|Hge%Z.nlt_ge].
    + by eapply (Hgo PcAdd); [|by apply st_wait_ok].
    + by eapply (Hgo (PcDone (Err BackpressureTimeout))); [|by apply st_wait_timeout].
  - by eapply (Hgo PcEnqueue); [|by apply st_add].
  - destruct (w_rx_open y) eqn:Ho; [|right; by eapply (Hgo (PcUndo ConnectionClosed)); [|by apply st_closed]].
    destruct (decide (length (w_queue y) < channel_capacity cfg)%nat) as [Hlt|Hge%Nat.nlt_ge].
    + right. by eapply (Hgo (PcDone (Ok tt))); [|by apply st_enqueue].
    + by left.
  - by eapply (Hgo (PcDone (Err e))); [|by apply st_undo].
Qed.

(** A call that has not returned can do some work when the task is at rest. *)
Lemma call_progress cfg base y t s :
  channel_capacity cfg ≠ 0%nat → w_inv base y → at_rest y → w_senders y !! t = Some s →
  (∃ r, s_pc s = PcDone r) ∨ ∃ s' y', send_step cfg y s s' y' ∧ s' ≠ s.
Proof.
  intros Hcap [_ _ Hsink _ _ _] Hrest _.
  destruct (call_moves cfg y s) as [?|[[[_ Hroom] Ho]|?]]; [by left| |by right].
  assert (Hq : w_queue y = []).
  { destruct Hrest as [(_ & Hq & _)|[[[]|e] Hk]]; [done|..]; rewrite Hk in Hsink.
    - destruct Hsink as (_ & Ho' & _). congruence.
    - destruct Hsink as [Ho' _]. congruence. }
  rewrite Hq in Hroom. cbn in Hroom. lia.
Qed.

Lemma work_progress cfg base y :
  channel_capacity cfg ≠ 0%nat → w_inv base y → nf (work_step cfg) y →
  all_returned y ∧ at_rest y.
Proof.
  intros Hcap Hi Hnf.
  assert (Hrest : at_rest y).
  { eapply task_progress; [exact Hi|]. intros [y' Hst]. apply Hnf. exists y'. by apply wk_task. }
  split; [|done]. apply Forall_lookup. intros t s Ht.
  destruct (call_progress cfg base y t s Hcap Hi Hrest Ht) as [?|(s' & y' & Hst & Hne)]; [done|].
  destruct Hnf. eexists. by eapply wk_call.
Qed.

(** The task has a step to make while it writes; without it no call gets
    further than the channel. *)
Lemma writing_moves cfg base y : w_inv base y → nf (work_step cfg) y → ¬ writing y.
Proof.
  intros Hi Hnf [batch Hk]. destruct (task_moves _ _ Hi) as [[(Hk' & _)|[x Hk']]|[y' Hst]];
    [congruence..|]. apply Hnf. exists y'. by apply wk_task.
Qed.

Lemma free_not_writing cfg y : nf (free_step cfg) y → ¬ writing y → nf (work_step cfg) y.
Proof. intros Hnf Hw [y' Hst]. apply Hnf. exists y'. by split. Qed.

Lemma stalled_calls cfg y :
  nf (free_step cfg) y → writing y →
  Forall (λ s, returned s ∨ waits_for_room cfg y s) (w_senders y).
Proof.
  intros Hnf [batch Hk]. apply Forall_lookup. intros t s Ht.
  destruct (call_moves cfg y s) as [?|[[? _]|(s' & y' & Hst & Hne)]]; [by left|by right|].
  destruct Hnf. exists (set_sender t s' y'). split; [by eapply wk_call|].
  intros _. exists batch. cbn. by destruct Hst.
Qed.

(** A system at rest has delivered everything, or a write has failed. *)
Lemma rest_drained base y :
  w_inv base y → all_returned y → at_rest y →
  (∃ e, w_task y = TExit (Err e))
  ∨ (w_queue y = [] ∧ written (w_sink y) = base ++ batch_bytes (w_accepted y)
     ∧ writer_pending_count y = 0).
Proof.
  intros [Hp _ Hs _ _ Hc] Hall Hrest. unfold writer_pending_count, in_flight in *.
  rewrite all_returned_counted in Hp by done.
  assert (Hcase : (∃ e, w_task y = TExit (Err e))
    ∨ (w_queue y = [] ∧ (w_task y = TRecv ∨ w_task y = TExit (Ok tt)))).
  { destruct Hrest as [(Hk & Hq & _)|[[[]|e] Hk]]; [by auto| |by left; exists e].
    rewrite Hk in Hs. destruct Hs as (_ & Ho & _). right. auto. }
  destruct Hcase as [?|[Hq Hk]]; [by left|right]. rewrite Hq in Hp |- *.
  destruct Hk as [Hk|Hk]; rewrite Hk, Hq in Hs; rewrite Hk in Hp;
    destruct Hs as (Hl & _ & dn & Hd & Hout); cbn [task_batch app] in Hd;
    rewrite app_nil_r in Hd; subst dn; rewrite Hl in Hp; by split_and!.
Qed.

(** *** After the task has returned *)

(** The task has returned; nothing changes but the calls and the counter. *)
Record closed_since (y0 y : wsys W) : Prop := {
  cs_task : w_task y = w_task y0;
  cs_rx : w_rx_open y = false;
  cs_queue : w_queue y = [];
  cs_accepted : w_accepted y = w_accepted y0;
  cs_sink : w_sink y = w_sink y0;
  cs_leaked : w_leaked y = w_leaked y0
}.

Lemma closed_wstep cfg y0 y y' r :
  w_task y0 = TExit r → closed_since y0 y → wstep cfg y y' → closed_since y0 y'.
Proof.
  intros Hk0 [Hk Ho Hq Ha Hs Hl] Hst. rewrite Hk0 in Hk.
  destruct Hst as [m f|Hall|t s s' y1 Ht Hst|y1 Hst].
  - split; cbn; congruence.
  - split; cbn; congruence.
  - destruct Hst; split; cbn; congruence.
  - destruct Hst; congruence.
Qed.

(** What a call that began after the end of the task can be doing; [full]: the
    frames lost with the task fill the limit. *)
Definition refused (full : bool) s : Prop :=
  match s_pc s with
  | PcStart | PcWait | PcDone (Err BackpressureTimeout) => True
  | PcAdd | PcEnqueue | PcUndo ConnectionClosed | PcDone (Err ConnectionClosed) => full = false
  | _ => False
  end.

Lemma refused_step cfg y s s' y' (full : bool) :
  (full = false → w_rx_open y = false) → (full → max_pending_frames cfg ≤ w_pending y) →
  send_step cfg y s s' y' → refused full s → refused full s'.
Proof.
  intros Ho Hfull Hst. unfold refused.
  destruct Hst as [Hp Hlt|Hp|Hp|Hp Hlt|Hp|Hp|Hp|Hp Ho'|Hp|Hp Hm Ho'|e Hp];
    rewrite Hp; cbn [set_pc s_pc]; rewrite ?Hp; try done;
    try (intros Hf; specialize (Ho Hf); congruence).
  - intros _. destruct full; [|done]. specialize (Hfull I). lia.
  - intros _. destruct full; [|done]. specialize (Hfull I). lia.
  - by destruct e.
Qed.

(** The counter covers the lost frames while it has not wrapped around. *)
Lemma pending_leaked base y :
  w_inv base y → Z.of_nat (in_flight y) < 2 ^ 64 → Z.of_nat (w_leaked y) ≤ w_pending y.
Proof.
  intros [-> _ _ _ _ _] Hlt. rewrite wrap_id by (split; lia). unfold in_flight. lia.
Qed.

(** Only a call that has added to the counter and not undone it can account
    for a frame in flight. *)
Definition spent s : nat :=
  match s_pc s with PcEnqueue | PcUndo _ | PcDone (Ok _) => 1 | _ => 0 end.

Lemma spent_le (ss : list sender) : (sum_list_with spent ss ≤ length ss)%nat.
Proof.
  induction ss as [|s ss IH]; [done|]. cbn [sum_list_with length].
  assert (spent s ≤ 1)%nat by (unfold spent; repeat case_match; lia). lia.
Qed.

Lemma in_flight_step cfg y y' :
  wstep cfg y y' → (in_flight y ≤ sum_list_with spent (w_senders y))%nat →
  (in_flight y' ≤ sum_list_with spent (w_senders y'))%nat.
Proof.
  unfold in_flight. intros [m f Ha Hf|Hall|t s s' y1 Ht Hst|y1 Hst] Hle; cbn in *.
  - rewrite !sum_list_with_app. cbn. lia.
  - done.
  - pose proof (sum_list_with_insert counted _ _ _ s' Ht) as Hc.
    pose proof (sum_list_with_insert spent _ _ _ s' Ht) as Hs.
    destruct Hst as [Hp|Hp|Hp|Hp|Hp|Hp|Hp|Hp|Hp|Hp|e Hp];
      unfold counted at 2 4 in Hc; unfold spent at 2 4 in Hs; cbn in *; rewrite Hp in Hc, Hs;
      rewrite ?length_app; cbn; try lia.
  - destruct Hst as [f q Hk Hq|Hk Hq Ha|b f q Hk Hb Hq|b Hk Hb|b w1 Hk Hw|b w1 e Hk Hw|n Hk];
      cbn in *; rewrite Hk in Hle; try rewrite Hq in *; rewrite ?length_app; cbn in *; lia.
Qed.

(** Never more frames in flight than calls were made. *)
Lemma in_flight_calls cfg w y :
  reachable w cfg y → (in_flight y ≤ length (w_senders y))%nat.
Proof.
  intros (y0 & Hy0 & Hs). unfold spawn_writer_task in Hy0. case_decide; [done|].
  injection Hy0 as <-. transitivity (sum_list_with spent (w_senders y)); [|apply spent_le].
  revert y Hs. refine (rtc_ind_r _ (fresh_wsys w) _ _); [done|].
  intros y1 y2 _ Hst. by apply (in_flight_step cfg).
Qed.

Lemma reachable_rtc cfg w y y' : reachable w cfg y → rtc (wstep cfg) y y' → reachable w cfg y'.
Proof. intros (y0 & Hy0 & Hs) Hrun. exists y0. split; [done|]. by etrans. Qed.

(** Calls are never removed. *)
Lemma wstep_senders cfg y y' :
  wstep cfg y y' → (length (w_senders y) ≤ length (w_senders y'))%nat.
Proof.
  intros [m f Ha Hf|Hall|t s s' y1 Ht Hst|y1 Hst].
  - cbn. rewrite length_app. lia.
  - done.
  - cbn. rewrite length_insert. by destruct Hst.
  - by destruct (task_step_frame _ _ Hst) as [_ ->].
Qed.

Lemma refused_calls cfg w y0 y r (full : bool) :
  reachable w cfg y0 → w_task y0 = TExit r → rtc (wstep cfg) y0 y →
  (full → max_pending_frames cfg ≤ Z.of_nat (w_leaked y0)) →
  zlen (w_senders y) < 2 ^ 64 →
  closed_since y0 y
  ∧ ∀ t s, (length (w_senders y0) ≤ t)%nat → w_senders y !! t = Some s → refused full s.
Proof.
  intros Hr0 Hk0 Hrun Hfull.
  assert (Hclosed0 : closed_since y0 y0).
  { apply reachable_inv in Hr0. destruct Hr0 as [_ _ Hs _ _ Hc]. rewrite Hk0 in Hs.
    assert (Ho : w_rx_open y0 = false) by (destruct r; apply Hs). split; auto. }
  assert (Hgoal : Z.of_nat (length (w_senders y)) < 2 ^ 64 →
    reachable w cfg y ∧ closed_since y0 y
    ∧ ∀ t s, (length (w_senders y0) ≤ t)%nat → w_senders y !! t = Some s → refused full s).
  2: { intros Hlt. by destruct (Hgoal Hlt) as (_ & ? & ?). }
  revert y Hrun. refine (rtc_ind_r _ y0 _ _).
  { intros _. split_and!; [done..|]. intros t s Ht Hs. apply lookup_lt_Some in Hs. lia. }
  intros y y' _ Hst IH Hlt.
  pose proof (wstep_senders _ _ _ Hst) as Hlen.
  destruct IH as (Hr & Hcl & Hcalls); [lia|]. pose proof Hcl as [Hk Ho Hq _ _ Hl].
  split; [by eapply reachable_rtc, rtc_once|]. split; [by eapply closed_wstep|].
  assert (Hpend : full → max_pending_frames cfg ≤ w_pending y).
  { intros Hf. etrans; [by apply Hfull|]. rewrite <- Hl. eapply pending_leaked; [by eapply reachable_inv|].
    pose proof (in_flight_calls _ _ _ Hr). lia. }
  intros t s Ht. destruct Hst as [m f Ha Hf|Hall|t1 s1 s2 y1 Ht1 Hst|y1 Hst].
  - cbn. intros [Hs|[Hge Hs]]%lookup_app_Some; [by eapply Hcalls|].
    apply list_lookup_singleton_Some in Hs as [_ <-]. done.
  - by apply Hcalls.
  - cbn. assert (Hss : w_senders y1 = w_senders y) by by destruct Hst.
    rewrite Hss. destruct (decide (t = t1)) as [->|Hne].
    + rewrite list_lookup_insert_eq by (by eapply lookup_lt_Some). intros [= <-].
      eapply refused_step; [by intros _|exact Hpend|exact Hst|by eapply Hcalls].
    + rewrite list_lookup_insert_ne by done. by apply Hcalls.
  - destruct (task_step_frame _ _ Hst) as [_ ->]. by apply Hcalls.
Qed.
End Lemmas.

(** ** Concrete runs, for the witnesses *)
Section Demo.
#[local] Existing Instance string_errors.

(** A limit of one frame, room for one, and a pipe that takes no byte. *)
Definition tight_config : WriterConfig :=
  {| max_pending_frames := 1; channel_capacity := 1; backpressure_timeout := 0 |}.
Definition broken_pipe : ScriptWriter := {| sw_out := []; sw_script := [0%nat] |}.

Definition call_at (pc : send_pc) : sender :=
  {| s_mode := Send; s_frame := demo_frame; s_pc := pc |}.

(** The first frame was accepted and its write failed; [later] calls follow. *)
Definition failed_state (later : list sender) : wsys ScriptWriter :=
  {| w_queue := []; w_rx_open := false; w_tx_alive := true; w_pending := 1;
     w_senders := call_at (PcDone (Ok tt)) :: later; w_task := TExit (Err write_zero);
     w_sink := {| sw_out := []; sw_script := [] |};
     w_accepted := [demo_frame]; w_leaked := 1 |}.

Lemma failed_state_reachable : reachable broken_pipe tight_config (failed_state []).
Proof.
  eexists. split; [reflexivity|].
  eapply rtc_l. { apply (ws_spawn _ _ Send demo_frame); [done|apply new_outbound_wf]. }
  eapply rtc_l. { eapply (ws_send _ _ 0); [done|]. by apply st_check_ok. }
  eapply rtc_l. { eapply (ws_send _ _ 0); [done|]. by apply st_add. }
  eapply rtc_l. { eapply (ws_send _ _ 0); [done|]. apply st_enqueue; [done..|]. cbn. lia. }
  eapply rtc_l. { apply ws_task. by eapply ts_recv. }
  eapply rtc_l. { apply ws_task. eapply ts_collected; [done|]. by right. }
  eapply rtc_l. { apply ws_task. by eapply ts_failed. }
  apply rtc_refl.
Qed.

Lemma refused_run :
  rtc (wstep tight_config) (failed_state [])
    (failed_state [call_at (PcDone (Err BackpressureTimeout))]).
Proof.
  eapply rtc_l. { apply (ws_spawn _ _ Send demo_frame); [done|apply new_outbound_wf]. }
  eapply rtc_l. { eapply (ws_send _ _ 1); [done|]. by apply st_check_full_wait. }
  eapply rtc_l. { eapply (ws_send _ _ 1); [done|]. by apply st_wait_timeout. }
  apply rtc_refl.
Qed.
End Demo.

(** ** Properties *)

(** C12: no schedule runs for ever, and only the pipe can get one stuck.  From
    every reachable state, the steps of the calls and of the task that are not
    idle polls come to an end whatever the order in which they are taken, and
    whether or not the pipe lets the last write complete.  When no step is left
    but that write, there are two cases.  If no write is pending, every call
    has returned, and either a write has failed, or the channel is empty, every
    accepted frame is on the pipe and the counter is back at zero.  If one is
    (the parent does not read), every call has returned or waits for room in
    the full channel.  When the write too is taken as a step, only the first
    case remains. *)
Theorem sends_terminate `{TP : ThirdParty} {W} `{AsyncWriteOk W}
  (w : W) (cfg : WriterConfig) (y : wsys W) :
  reachable w cfg y →
  sn (work_step cfg) y
  ∧ ∀ y', rtc (work_step cfg) y y' → nf (free_step cfg) y' →
    (¬ writing y' →
      all_returned y'
      ∧ ((∃ e, w_task y' = TExit (Err e))
         ∨ (w_queue y' = [] ∧ written (w_sink y') = written w ++ batch_bytes (w_accepted y')
            ∧ writer_pending_count y' = 0)))
    ∧ (writing y' → Forall (λ s, returned s ∨ waits_for_room cfg y' s) (w_senders y'))
    ∧ (nf (work_step cfg) y' → ¬ writing y').
Proof.
  intros Hr. split; [apply work_step_sn|]. intros y' Hsteps Hnf.
  assert (Hi' : w_inv (written w) y').
  { eapply reachable_inv, reachable_rtc; [exact Hr|]. eapply rtc_subrel; [|exact Hsteps].
    intros ??. apply work_step_wstep. }
  split_and!; [|by apply stalled_calls|by eapply writing_moves].
  intros Hw. pose proof (free_not_writing _ _ Hnf Hw) as Hnf'.
  destruct (work_progress cfg (written w) y') as [Hall Hrest]; [|done..|].
  { destruct Hr as (y0 & Hy0 & _). by eapply spawned_capacity. }
  split; [exact Hall|]. by apply rest_drained.
Qed.

Lemma sends_terminate_witness :
  sn (work_step default_config) demo_state
  ∧ ∀ y', rtc (work_step default_config) demo_state y' → nf (free_step default_config) y' →
    ¬ writing y' →
    all_returned y'
    ∧ ((∃ e, w_task y' = TExit (Err e))
       ∨ (w_queue y' = []
          ∧ written (w_sink y') = written demo_writer ++ batch_bytes (w_accepted y')
          ∧ writer_pending_count y' = 0)).
Proof.
  destruct (sends_terminate _ _ _ demo_reachable) as [Hsn Hrest]. split; [exact Hsn|].
  intros y' Hrun Hnf. by apply (Hrest y' Hrun Hnf).
Defined.

(** C20: a failed write closes the connection for good.  After the task has
    ended with an error, whatever calls are made, the channel stays closed and
    empty, no frame is accepted and no byte is written; a call made after the failure never returns [Ok], and the
    only errors it returns are [ConnectionClosed] and [BackpressureTimeout].
    When the frames lost with the task reach the limit it is always
    [BackpressureTimeout]: they are never subtracted from the counter, so
    every call waits for room in vain. *)
Theorem failed_writer_refuses `{TP : ThirdParty} {W} `{AsyncWriteOk W}
  (w : W) (cfg : WriterConfig) (y y' : wsys W) (e : ProcwireError) :
  reachable w cfg y → w_task y = TExit (Err e) → rtc (wstep cfg) y y' →
  zlen (w_senders y') < 2 ^ 64 →
  closed_since y y'
  ∧ ∀ t s, (length (w_senders y) ≤ t)%nat → w_senders y' !! t = Some s →
      ∀ res, s_pc s = PcDone res →
        res = Err BackpressureTimeout
        ∨ res = Err ConnectionClosed ∧ Z.of_nat (w_leaked y) < max_pending_frames cfg.
Proof.
  intros Hr Hk Hrun Hlt.
  set (full := bool_decide (max_pending_frames cfg ≤ Z.of_nat (w_leaked y))).
  destruct (refused_calls cfg _ _ _ _ full Hr Hk Hrun) as [Hcl Hcalls]; [|done|].
  { unfold full. by intros ?%bool_decide_unpack. }
  split; [exact Hcl|]. intros t s Ht Hs' res Hres.
  specialize (Hcalls t s Ht Hs'). unfold refused in Hcalls. rewrite Hres in Hcalls.
  destruct res as [|[]]; try done; [|by left]. right. split; [done|].
  unfold full in Hcalls. apply bool_decide_eq_false in Hcalls. lia.
Qed.

Lemma failed_writer_refuses_witness :
  let y := failed_state [] in
  let y' := failed_state [call_at (PcDone (Err BackpressureTimeout))] in
  closed_since y y'
  ∧ ∀ t s, (length (w_senders y) ≤ t)%nat → w_senders y' !! t = Some s →
      ∀ res, s_pc s = PcDone res →
        res = Err BackpressureTimeout
        ∨ res = Err ConnectionClosed ∧ Z.of_nat (w_leaked y) < max_pending_frames tight_config.
Proof.
  cbv zeta.
  apply (failed_writer_refuses broken_pipe tight_config _ _ write_zero failed_state_reachable).
  - reflexivity.
  - exact refused_run.
  - reflexivity.
Defined.
