(* ===== verification/WriterDrop.v ===== *)
(** * Calls of [send] that are dropped (src/writer.rs)

    A future can be dropped at any of its awaits: the branch of a [select!]
    that loses.  [send] has nothing to clean up after it, so a dropped call is
    a call of [WriterTask] that takes no step any more; the states are the
    same.  Dropped while it waits for room in the channel, it has already been
    added to the counter, and nobody will subtract it. *)

From S2P Require Import Prelude Errors WireFormat Frame Writer WriterTask WriterLive.

(** Steps of a system in which the calls [D] have been dropped. *)
Section Dropped.
Context `{TP : ThirdParty} {W : Type} `{AsyncWrite W}.

Inductive live_step (cfg : WriterConfig) (D : list nat) (y : wsys W) : wsys W → Prop :=
| lv_spawn m f :
    w_tx_alive y = true → ob_wf f → live_step cfg D y (spawn_sender m f y)
| lv_drop : all_returned y → live_step cfg D y (drop_handles y)
| lv_send t s s' y' :
    t ∉ D → w_senders y !! t = Some s → send_step cfg y s s' y' →
    live_step cfg D y (set_sender t s' y')
| lv_task y' : task_step y y' → live_step cfg D y y'.
End Dropped.

Section Lemmas.
Context `{TP : ThirdParty} {W : Type} `{AsyncWriteOk W}.
Implicit Types (y : wsys W) (s : sender).

Lemma live_step_wstep cfg D y y' : live_step cfg D y y' → wstep cfg y y'.
Proof.
  intros [m f Ha Hf|Hall|t s s' y1 _ Ht Hst|y1 Hst];
    [by apply ws_spawn|by apply ws_drop|by eapply ws_send|by apply ws_task].
Qed.

(** A dropped call stays where it was. *)
Lemma live_step_dropped cfg D y y' t s :
  t ∈ D → live_step cfg D y y' → w_senders y !! t = Some s → w_senders y' !! t = Some s.
Proof.
  intros Hin [m f Ha Hf|Hall|t1 s1 s2 y1 Hnot Ht Hst|y1 Hst] Hs.
  - cbn. by apply lookup_app_l_Some.
  - done.
  - cbn. rewrite list_lookup_insert_ne by (by intros ->).
    by destruct Hst.
  - by destruct (task_step_frame _ _ Hst) as [_ ->].
Qed.

(** Counted calls, by their numbers. *)
Lemma counted_dropped (ss : list sender) (D : list nat) :
  NoDup D → (∀ t, t ∈ D → ∃ s, ss !! t = Some s ∧ counted s = 1%nat) →
  (length D ≤ sum_list_with counted ss)%nat.
Proof.
  revert D. induction ss as [|s ss IH] using rev_ind; intros D Hnd HD.
  { destruct D as [|t D]; [done|]. destruct (HD t) as (s & Hs & _); [by left|done]. }
  rewrite sum_list_with_app. cbn [sum_list_with].
  set (n := length ss). set (D' := filter (λ t, t ≠ n) D).
  assert (HD' : (length D' ≤ sum_list_with counted ss)%nat).
  { apply IH; [by apply NoDup_filter|]. intros t [Hne Ht]%list_elem_of_filter.
    destruct (HD t Ht) as (s' & Hs' & Hc). exists s'. split; [|done].
    apply lookup_app_Some in Hs' as [?|[Hge Hs']]; [done|].
    apply list_lookup_singleton_Some in Hs' as [Hz _]. fold n in Hge, Hz. lia. }
  destruct (decide (n ∈ D)) as [Hin|Hnot].
  - destruct (HD n Hin) as (s' & Hs' & Hc). unfold n in Hs'.
    rewrite lookup_app_r, Nat.sub_diag in Hs' by done. injection Hs' as <-.
    assert (Hsplit : D ≡ₚ n :: D').
    { apply NoDup_Permutation; [done| |].
      - apply NoDup_cons. split; [|by apply NoDup_filter].
        unfold D'. rewrite list_elem_of_filter. tauto.
      - intros t. rewrite elem_of_cons. unfold D'. rewrite list_elem_of_filter.
        destruct (decide (t = n)) as [->|]; tauto. }
    rewrite Hsplit. cbn [length]. lia.
  - assert (Hsame : D' = D).
    { unfold D'. apply filter_all, Forall_forall. by intros t Ht ->. }
    rewrite <- Hsame. lia.
Qed.

(** The dropped calls are still counted, whatever the others do. *)
Lemma dropped_counted cfg w D y0 y :
  reachable w cfg y0 → NoDup D →
  (∀ t, t ∈ D → ∃ s, w_senders y0 !! t = Some s ∧ s_pc s = PcEnqueue) →
  rtc (live_step cfg D) y0 y →
  reachable w cfg y ∧ (length D ≤ sum_list_with counted (w_senders y))%nat.
Proof.
  intros Hi0 Hnd HD Hrun.
  assert (Hgoal : reachable w cfg y ∧ ∀ t, t ∈ D → ∃ s, w_senders y !! t = Some s ∧ s_pc s = PcEnqueue).
  { revert y Hrun. refine (rtc_ind_r _ y0 _ _); [done|].
    intros y y' _ Hst (Hr & IH).
    split; [by eapply reachable_rtc, rtc_once, live_step_wstep|].
    intros t Ht. destruct (IH t Ht) as (s & Hs & Hp). exists s.
    split; [|done]. by eapply live_step_dropped. }
  destruct Hgoal as (Hi & HD'). split; [done|].
  apply counted_dropped; [done|]. intros t Ht. destruct (HD' t Ht) as (s & Hs & Hp).
  exists s. split; [done|]. unfold counted. by rewrite Hp.
Qed.

(** While fewer than 2^64 calls were made, the counter covers them. *)
Lemma pending_dropped cfg w D y0 y :
  reachable w cfg y0 → NoDup D →
  (∀ t, t ∈ D → ∃ s, w_senders y0 !! t = Some s ∧ s_pc s = PcEnqueue) →
  rtc (live_step cfg D) y0 y → zlen (w_senders y) < 2 ^ 64 → zlen D ≤ w_pending y.
Proof.
  intros Hr0 Hnd HD Hrun Hlt.
  destruct (dropped_counted _ _ _ _ _ Hr0 Hnd HD Hrun) as [Hr Hle].
  pose proof (in_flight_calls _ _ _ Hr) as Hfl. apply reachable_inv in Hr as [-> _ _ _ _ _].
  rewrite wrap_id by (split; lia). unfold in_flight in *. lia.
Qed.

(** Dropped calls that fill the limit keep every later call out. *)
Lemma dropped_refuse cfg w D y0 y :
  reachable w cfg y0 → NoDup D →
  (∀ t, t ∈ D → ∃ s, w_senders y0 !! t = Some s ∧ s_pc s = PcEnqueue) →
  max_pending_frames cfg ≤ zlen D →
  rtc (live_step cfg D) y0 y → zlen (w_senders y) < 2 ^ 64 →
  ∀ t s, (length (w_senders y0) ≤ t)%nat → w_senders y !! t = Some s → refused true s.
Proof.
  intros Hr0 Hnd HD Hfull Hrun. revert y Hrun. refine (rtc_ind_r _ y0 _ _).
  { intros _ t s Ht Hs. apply lookup_lt_Some in Hs. lia. }
  intros y y' Hrun Hst IH Hlt t s Ht.
  pose proof (wstep_senders _ _ _ (live_step_wstep _ _ _ _ Hst)) as Hlen.
  assert (Hlt' : zlen (w_senders y) < 2 ^ 64) by lia. specialize (IH Hlt').
  pose proof (pending_dropped _ _ _ _ _ Hr0 Hnd HD Hrun Hlt') as Hp.
  destruct Hst as [m f Ha Hf|Hall|t1 s1 s2 y1 Hnot Ht1 Hst|y1 Hst].
  - cbn. intros [Hs|[Hge Hs]]%lookup_app_Some; [by eapply IH|].
    by apply list_lookup_singleton_Some in Hs as [_ <-].
  - by apply IH.
  - cbn. assert (Hss : w_senders y1 = w_senders y) by by destruct Hst.
    rewrite Hss. destruct (decide (t = t1)) as [->|Hne].
    + rewrite list_lookup_insert_eq by (by eapply lookup_lt_Some). intros [= <-].
      eapply (refused_step cfg y _ _ _ true); [done|intros _; lia|exact Hst|by eapply IH].
    + rewrite list_lookup_insert_ne by done. by apply IH.
  - destruct (task_step_frame _ _ Hst) as [_ ->]. by apply IH.
Qed.
End Lemmas.

(** ** A concrete run, for the witness *)
Section Demo.
#[local] Existing Instance string_errors.

Definition drop_state (q : list OutboundFrame) (p : usize) (ss : list sender) (k : task_pc)
  (out : bytes) : wsys ScriptWriter :=
  {| w_queue := q; w_rx_open := true; w_tx_alive := true; w_pending := p;
     w_senders := ss; w_task := k; w_sink := {| sw_out := out; sw_script := [] |};
     w_accepted := [demo_frame]; w_leaked := 0 |}.

(** Two calls pass the check; the first fills the channel, the second waits. *)
Definition before_drop : wsys ScriptWriter :=
  drop_state [demo_frame] 2 [call_at (PcDone (Ok tt)); call_at PcEnqueue] TRecv [].
(** The second dropped and the channel drained, a third call times out. *)
Definition after_drop : wsys ScriptWriter :=
  drop_state [] 1
    [call_at (PcDone (Ok tt)); call_at PcEnqueue; call_at (PcDone (Err BackpressureTimeout))]
    TRecv (batch_bytes [demo_frame]).

Lemma before_drop_reachable :
  reachable {| sw_out := []; sw_script := [] |} tight_config before_drop.
Proof.
  eexists. split; [reflexivity|].
  eapply rtc_l. { apply (ws_spawn _ _ Send demo_frame); [done|apply new_outbound_wf]. }
  eapply rtc_l. { apply (ws_spawn _ _ Send demo_frame); [done|apply new_outbound_wf]. }
  eapply rtc_l. { eapply (ws_send _ _ 0); [done|]. by apply st_check_ok. }
  eapply rtc_l. { eapply (ws_send _ _ 1); [done|]. by apply st_check_ok. }
  eapply rtc_l. { eapply (ws_send _ _ 0); [done|]. by apply st_add. }
  eapply rtc_l. { eapply (ws_send _ _ 1); [done|]. by apply st_add. }
  eapply rtc_l. { eapply (ws_send _ _ 0); [done|]. apply st_enqueue; [done..|]. cbn. lia. }
  apply rtc_refl.
Qed.

Lemma after_drop_run : rtc (live_step tight_config [1%nat]) before_drop after_drop.
Proof.
  eapply rtc_l. { apply lv_task. by eapply ts_recv. }
  eapply rtc_l. { apply lv_task. eapply ts_collected; [done|]. by right. }
  eapply rtc_l. { apply lv_task. by eapply ts_written. }
  eapply rtc_l. { apply lv_task. by eapply ts_sub. }
  eapply rtc_l. { apply (lv_spawn _ _ _ Send demo_frame); [done|apply new_outbound_wf]. }
  eapply rtc_l. { eapply (lv_send _ _ _ 2); [by intros ?%list_elem_of_singleton|done|]. by apply st_check_full_wait. }
  eapply rtc_l. { eapply (lv_send _ _ _ 2); [by intros ?%list_elem_of_singleton|done|]. by apply st_wait_timeout. }
  apply rtc_refl.
Qed.
End Demo.

(** ** Properties *)

(** C19: [send] is not safe to cancel.  Calls dropped while they wait for room
    in the channel stay in the pending counter for ever, whatever the task
    and the other calls do; once as many as the limit have been dropped, no
    later call on the connection ever sends a frame: it waits, and all it can
    return is [BackpressureTimeout], however empty the channel is. *)
Theorem dropped_send_leaks `{TP : ThirdParty} {W} `{AsyncWriteOk W}
  (w : W) (cfg : WriterConfig) (D : list nat) (y0 y : wsys W) :
  reachable w cfg y0 → NoDup D →
  (∀ t, t ∈ D → ∃ s, w_senders y0 !! t = Some s ∧ s_pc s = PcEnqueue) →
  rtc (live_step cfg D) y0 y → zlen (w_senders y) < 2 ^ 64 →
  zlen D ≤ writer_pending_count y
  ∧ (max_pending_frames cfg ≤ zlen D →
     is_backpressure_active cfg y = true
     ∧ ∀ t s, (length (w_senders y0) ≤ t)%nat → w_senders y !! t = Some s →
         s_pc s = PcStart ∨ s_pc s = PcWait ∨ s_pc s = PcDone (Err BackpressureTimeout)).
Proof.
  intros Hr0 Hnd HD Hrun Hlt.
  pose proof (pending_dropped _ _ _ _ _ Hr0 Hnd HD Hrun Hlt) as Hp.
  split; [exact Hp|]. intros Hfull. split.
  { unfold is_backpressure_active. apply Z.leb_le. lia. }
  intros t s Ht Hs. pose proof (dropped_refuse _ _ _ _ _ Hr0 Hnd HD Hfull Hrun Hlt t s Ht Hs) as Hcall.
  unfold refused in Hcall.
  destruct (s_pc s) as [| | | |[]|[|[]]]; try done; auto.
Qed.

Lemma dropped_send_leaks_witness :
  zlen [1%nat] ≤ writer_pending_count after_drop
  ∧ (max_pending_frames tight_config ≤ zlen [1%nat] →
     is_backpressure_active tight_config after_drop = true
     ∧ ∀ t s, (length (w_senders before_drop) ≤ t)%nat → w_senders after_drop !! t = Some s →
         s_pc s = PcStart ∨ s_pc s = PcWait ∨ s_pc s = PcDone (Err BackpressureTimeout)).
Proof.
  apply (dropped_send_leaks {| sw_out := []; sw_script := [] |}).
  - exact before_drop_reachable.
  - apply NoDup_singleton.
  - intros t ->%list_elem_of_singleton. eexists. by split.
  - exact after_drop_run.
  - reflexivity.
Defined.
