(* ===== verification/Json.v ===== *)
(** * The JSON library as the control plane uses it

    [serde_json] is third-party code: its values, printer and parser are the
    operations of the class [SerdeJson], and [SerdeJsonOk] states the
    documented behaviour the control plane relies on.  [tree_json] shows that
    the laws can hold. *)

From S2P Require Import Prelude Errors.

(** [&str] as the bytes of its UTF-8 text. *)
Definition as_bytes (s : string) : bytes :=
  (λ a, Z.of_N (Ascii.N_of_ascii a)) <$> String.list_ascii_of_string s.

Definition NEWLINE : Z := 10.
Definition LEFT_BRACE : Z := 123.
Definition RIGHT_BRACE : Z := 125.

Class SerdeJson `{ThirdParty} := {
  Value : Type;
  v_string : string → Value;              (* Value::String *)
  v_number : Z → Value;                   (* Value::Number of an unsigned integer *)
  v_object : gmap string Value → Value;   (* Value::Object *)
  as_object : Value → option (gmap string Value);
  as_str : Value → option string;
  as_u64 : Value → option Z;
  json_to_string : Value → result serde_json_Error bytes;
  json_from_str : bytes → result serde_json_Error Value
}.

(** The accessors invert the constructors, printing succeeds and parses back,
    the compact printer puts no line break into its text, and objects are
    printed between braces. *)
Class SerdeJsonOk `{SerdeJson} : Prop := {
  as_object_object m : as_object (v_object m) = Some m;
  as_str_string s : as_str (v_string s) = Some s;
  as_str_object m : as_str (v_object m) = None;
  as_u64_number n : 0 <= n < 2 ^ 64 → as_u64 (v_number n) = Some n;
  json_print_parse v : ∃ t, json_to_string v = Ok t ∧ json_from_str t = Ok v
    ∧ is_bytes t ∧ NEWLINE ∉ t;
  json_print_object m t :
    json_to_string (v_object m) = Ok t → head t = Some LEFT_BRACE ∧ last t = Some RIGHT_BRACE
}.

(** [Value::get]: the member of an object, nothing on other values. *)
Definition get `{SerdeJson} (v : Value) (key : string) : option Value :=
  as_object v ≫= λ m, m !! key.

(** ** An instance: values as trees, printed as the binary digits of a code *)
Section Tree.
#[local] Existing Instance string_errors.

Abbreviation tree := (gen_tree (string + Z)).

Definition tree_object (m : gmap string tree) : tree :=
  GenNode 0 ((λ p : string * tree, GenNode 1 [GenLeaf (inl p.1); p.2]) <$> map_to_list m).

Definition tree_member (t : tree) : option (string * tree) :=
  match t with GenNode 1 [GenLeaf (inl k); v] => Some (k, v) | _ => None end.

Definition tree_as_object (t : tree) : option (gmap string tree) :=
  match t with
  | GenNode 0 ms => list_to_map <$> mapM tree_member ms
  | _ => None
  end.

Fixpoint print_pos (p : positive) : bytes :=
  match p with xH => [125] | xO p => 48 :: print_pos p | xI p => 49 :: print_pos p end.

Fixpoint parse_pos (t : bytes) : positive :=
  match t with
  | [] => xH
  | b :: t => if b =? 48 then xO (parse_pos t) else if b =? 49 then xI (parse_pos t) else xH
  end.

Lemma parse_print_pos p : parse_pos (print_pos p) = p.
Proof. induction p; simpl; congruence. Qed.

Lemma print_pos_bytes p : Forall (λ b, b ∈ [48; 49; 125]) (print_pos p).
Proof. induction p; repeat constructor; try done; set_solver. Qed.

Lemma print_pos_last p : last (print_pos p) = Some 125.
Proof. induction p; simpl; [| |done]; by destruct (print_pos p). Qed.

#[export] Instance tree_json : SerdeJson := {|
  Value := tree;
  v_string s := GenLeaf (inl s);
  v_number n := GenLeaf (inr n);
  v_object := tree_object;
  as_object := tree_as_object;
  as_str t := match t with GenLeaf (inl s) => Some s | _ => None end;
  as_u64 t := match t with GenLeaf (inr n) => Some n | _ => None end;
  json_to_string t := Ok (LEFT_BRACE :: print_pos (encode t));
  json_from_str bs := ok_or "syntax error"%string (decode (parse_pos (tail bs)))
|}.

#[export] Instance tree_json_ok : SerdeJsonOk.
Proof.
  split; try done.
  - intros m. simpl. unfold tree_object. rewrite mapM_fmap_Some by by intros [].
    simpl. by rewrite list_to_map_to_list.
  - intros v. eexists. split; [reflexivity|]. simpl. rewrite parse_print_pos, decode_encode.
    split; [done|]. pose proof (print_pos_bytes (encode v)) as Hb. rewrite Forall_forall in Hb.
    split.
    + constructor; [unfold LEFT_BRACE, fits; lia|]. apply Forall_forall. intros b Hin.
      specialize (Hb b Hin). rewrite !elem_of_cons, elem_of_nil in Hb.
      unfold fits. lia.
    + intros [Hx|Hx%Hb]%elem_of_cons; [done|].
      rewrite !elem_of_cons, elem_of_nil in Hx. unfold NEWLINE in Hx. lia.
  - intros m t [= <-]. split; [done|]. by rewrite last_cons, print_pos_last.
Qed.
End Tree.
