(* ===== verification/Init.v ===== *)
(** * The [$init] message (src/control/init.rs)

    The schema a worker announces and the JSON message that carries it.
    [HashMap] is [gmap]; the message does not depend on iteration order. *)

From S2P Require Import Prelude Errors Json.

Inductive ResponseType := RtResult | RtStream | RtAck | RtNone.

#[export] Instance ResponseType_eq_dec : EqDecision ResponseType.
Proof. solve_decision. Defined.

Record MethodSchema := { ms_id : u16; ms_response : ResponseType }.
Record EventSchema := { es_id : u16 }.

Record InitSchema := {
  is_methods : gmap string MethodSchema;
  is_events : gmap string EventSchema
}.

Definition new_schema : InitSchema := {| is_methods := ∅; is_events := ∅ |}.

Definition add_method (s : InitSchema) (name : string) (id : u16) (response : ResponseType) :
  InitSchema :=
  {| is_methods := <[name := {| ms_id := id; ms_response := response |}]> (is_methods s);
     is_events := is_events s |}.

Definition add_event (s : InitSchema) (name : string) (id : u16) : InitSchema :=
  {| is_methods := is_methods s; is_events := <[name := {| es_id := id |}]> (is_events s) |}.

Definition get_method (s : InitSchema) (name : string) : option MethodSchema :=
  is_methods s !! name.
Definition get_event (s : InitSchema) (name : string) : option EventSchema :=
  is_events s !! name.
Definition schema_is_empty (s : InitSchema) : bool :=
  bool_decide (is_methods s = ∅) && bool_decide (is_events s = ∅).

Definition PROTOCOL_VERSION : string := "1.0.0".

(** [#[serde(rename_all = "lowercase")]]. *)
Definition response_name (r : ResponseType) : string :=
  match r with
  | RtResult => "result" | RtStream => "stream" | RtAck => "ack" | RtNone => "none"
  end.

(** ** [build_init_message] *)
Section Message.
Context `{SJ : SerdeJson}.

(** [json!({ key: value, ... })]. *)
Definition json (members : list (string * Value)) : Value := v_object (list_to_map members).

Definition method_value (m : MethodSchema) : Value :=
  json [("id", v_number (ms_id m));
        ("response", v_string (response_name (ms_response m)))]%string.

Definition event_value (e : EventSchema) : Value := json [("id"%string, v_number (es_id e))].

Definition init_value (pipe_path : string) (schema : InitSchema) : Value :=
  let methods := method_value <$> is_methods schema in
  let events := event_value <$> is_events schema in
  json [("jsonrpc", v_string "2.0");
        ("method", v_string "$init");
        ("params", json [
          ("pipe", v_string pipe_path);
          ("schema", json [("methods", v_object methods); ("events", v_object events)]);
          ("version", v_string PROTOCOL_VERSION)])]%string.

(** [None] is the panic of [expect]. *)
Definition build_init_message (pipe_path : string) (schema : InitSchema) : option bytes :=
  match json_to_string (init_value pipe_path schema) with
  | Ok text => Some text
  | Err _ => None
  end.

(** ** The parent's side, as a specification: reading the message back *)

Definition read_response (name : string) : option ResponseType :=
  match name with
  | "result" => Some RtResult | "stream" => Some RtStream
  | "ack" => Some RtAck | "none" => Some RtNone
  | _ => None
  end%string.

Definition get_str (v : Value) (key : string) : option string := get v key ≫= as_str.
Definition get_u64 (v : Value) (key : string) : option Z := get v key ≫= as_u64.
Definition get_object (v : Value) (key : string) : option (gmap string Value) :=
  get v key ≫= as_object.

Definition read_method (v : Value) : option MethodSchema :=
  id ← get_u64 v "id";
  r ← get_str v "response";
  r ← read_response r;
  Some {| ms_id := id; ms_response := r |}.

Definition read_event (v : Value) : option EventSchema :=
  id ← get_u64 v "id";
  Some {| es_id := id |}.

(** The version, pipe path and schema of an [$init] message. *)
Definition read_init (text : bytes) : option (string * string * InitSchema) :=
  match json_from_str text with
  | Err _ => None
  | Ok v =>
    rpc ← get_str v "jsonrpc";
    name ← get_str v "method";
    params ← get v "params";
    pipe ← get_str params "pipe";
    version ← get_str params "version";
    schema ← get params "schema";
    methods ← get_object schema "methods";
    events ← get_object schema "events";
    if decide (rpc = "2.0" ∧ name = "$init")%string then
      Some (version, pipe,
            {| is_methods := omap read_method methods; is_events := omap read_event events |})
    else None
  end.
End Message.

(** Identifiers are [u16]. *)
Definition schema_wf (s : InitSchema) : Prop :=
  map_Forall (λ _ m, fits 16 (ms_id m)) (is_methods s)
  ∧ map_Forall (λ _ e, fits 16 (es_id e)) (is_events s).

(** ** Legacy types *)
Record MethodDef := { md_id : u16 }.
Record EventDef := { ed_id : u16 }.
Record LegacySchema := {
  ls_methods : gmap string MethodDef;
  ls_events : gmap string EventDef
}.
Record InitParams := { pipe_path : string; ip_schema : LegacySchema }.
Record InitMessage := { im_jsonrpc : string; im_method : string; im_params : InitParams }.

Definition new_init_message (path : string) (schema : LegacySchema) : InitMessage :=
  {| im_jsonrpc := "2.0"; im_method := "$init";
     im_params := {| pipe_path := path; ip_schema := schema |} |}.

(** ** Lemmas *)

Lemma add_method_wf s name id r :
  fits 16 id → schema_wf s → schema_wf (add_method s name id r).
Proof. intros Hid [Hm He]. split; [|done]. by apply map_Forall_insert_2. Qed.

Lemma add_event_wf s name id : fits 16 id → schema_wf s → schema_wf (add_event s name id).
Proof. intros Hid [Hm He]. split; [done|]. by apply map_Forall_insert_2. Qed.

Section Lemmas.
Context `{SJ : SerdeJson} `{!SerdeJsonOk}.

Lemma get_json ms key : get (json ms) key = (list_to_map ms : gmap string Value) !! key.
Proof. unfold get, json. by rewrite as_object_object. Qed.

Lemma omap_fmap_id {A B} (f : B → option A) (g : A → B) (m : gmap string A) :
  map_Forall (λ _ x, f (g x) = Some x) m → omap f (g <$> m) = m.
Proof.
  intros Hm. apply map_eq. intros k. rewrite lookup_omap, lookup_fmap.
  destruct (m !! k) as [x|] eqn:Hk; [|done]. exact (Hm k x Hk).
Qed.

Lemma read_method_value m : fits 16 (ms_id m) → read_method (method_value m) = Some m.
Proof.
  intros Hid. unfold read_method, get_u64, get_str, method_value. rewrite !get_json.
  simplify_map_eq. rewrite as_u64_number by (unfold fits in Hid; lia). simpl.
  rewrite as_str_string. simpl. by destruct m as [? []].
Qed.

Lemma read_event_value e : fits 16 (es_id e) → read_event (event_value e) = Some e.
Proof.
  intros Hid. unfold read_event, get_u64, event_value. rewrite !get_json.
  simplify_map_eq. rewrite as_u64_number by (unfold fits in Hid; lia). by destruct e.
Qed.
Lemma init_message_reads (path : string) (schema : InitSchema) :
  schema_wf schema →
  ∃ text, build_init_message path schema = Some text
    ∧ (NEWLINE ∉ text)
    ∧ read_init text = Some (PROTOCOL_VERSION, path, schema).
Proof.
  intros [Hm He]. unfold build_init_message.
  destruct (json_print_parse (init_value path schema)) as (t & -> & Hp & _ & Hn).
  exists t. split_and!; [done|done|]. unfold read_init, get_str, get_object. rewrite Hp. unfold init_value.
  rewrite !get_json. simplify_map_eq. rewrite !as_str_string. simpl.
  rewrite !get_json. simplify_map_eq. rewrite !as_str_string. simpl.
  rewrite !get_json. simplify_map_eq. rewrite !as_object_object. simpl.
  rewrite !omap_fmap_id; [by destruct schema|..].
  - intros k e Hk. apply read_event_value. exact (He k e Hk).
  - intros k m Hk. apply read_method_value. exact (Hm k m Hk).
Qed.
End Lemmas.

(** ** Properties *)

(** [build_init_message] never panics and yields one line of text; parsing
    it as JSON and reading the members the protocol documents gives back the
    protocol version, the pipe path and exactly the schema: every method with
    its id and response type, every event with its id, and nothing else. *)
Theorem init_message_roundtrip `{SJ : SerdeJson} `{!SerdeJsonOk}
  (path : string) (schema : InitSchema) :
  schema_wf schema →
  ∃ text, build_init_message path schema = Some text
    ∧ (NEWLINE ∉ text)
    ∧ read_init text = Some (PROTOCOL_VERSION, path, schema).
Proof. apply init_message_reads. Qed.

Lemma init_message_roundtrip_witness :
  let schema := add_event (add_method new_schema "echo" 1 RtStream) "progress" 2 in
  ∃ text, build_init_message (SJ := tree_json) "/tmp/p.sock" schema = Some text
    ∧ (NEWLINE ∉ text)
    ∧ read_init (SJ := tree_json) text = Some (PROTOCOL_VERSION, "/tmp/p.sock", schema)%string.
Proof.
  apply init_message_roundtrip, add_event_wf, add_method_wf;
    [unfold fits; lia|unfold fits; lia|by split].
Defined.
