(* ===== verification/Msgpack.v ===== *)
(** * MessagePack, as an instance of the third-party codec

    [rmp_serde] is a parameter of the model ([Serialize], [DeserializeOwned]).
    Here is a concrete codec that can stand for it: the MessagePack format in
    its shortest form, structs as maps, with the round trip proved.  The unit
    tests run on it. *)

From S2P Require Import Prelude Errors Codec Json.

(** ** Values *)
#[warnings="-register-all"]
Inductive mp :=
| MNil
| MBool (b : bool)
| MInt (z : Z)
| MFloat (bits : u64)
| MStr (s : bytes)
| MBin (b : bytes)
| MArr (l : list mp)
| MMap (l : list (mp * mp)).

(** The first bytes of a value: what it is, and how long. *)
Inductive shape :=
| ShNil
| ShBool (b : bool)
| ShInt (z : Z)
| ShFloat (bits : u64)
| ShStr (n : Z)
| ShBin (n : Z)
| ShArr (n : Z)
| ShMap (n : Z).

(** A tag and a number of [width] bytes, the first that fits. *)
Fixpoint put_number (tags : list (Z * nat)) (n : Z) : bytes :=
  match tags with
  | [] => []
  | (tag, width) :: tags =>
    if decide (fits (8 * Z.of_nat width) n) then tag :: to_be_bytes width n
    else put_number tags n
  end.

Definition put_shape (sh : shape) : bytes :=
  match sh with
  | ShNil => [0xC0]
  | ShBool b => [if b then 0xC3 else 0xC2]
  | ShInt z =>
    if decide (0 <= z) then
      if decide (z < 128) then [z]
      else put_number [(0xCC, 1%nat); (0xCD, 2%nat); (0xCE, 4%nat); (0xCF, 8%nat)] z
    else if decide (-32 <= z) then [256 + z]
    else if decide (-2 ^ 7 <= z) then 0xD0 :: to_be_bytes 1 z
    else if decide (-2 ^ 15 <= z) then 0xD1 :: to_be_bytes 2 z
    else if decide (-2 ^ 31 <= z) then 0xD2 :: to_be_bytes 4 z
    else 0xD3 :: to_be_bytes 8 z
  | ShFloat bits => 0xCB :: to_be_bytes 8 bits
  | ShStr n =>
    if decide (n < 32) then [0xA0 + n]
    else put_number [(0xD9, 1%nat); (0xDA, 2%nat); (0xDB, 4%nat)] n
  | ShBin n => put_number [(0xC4, 1%nat); (0xC5, 2%nat); (0xC6, 4%nat)] n
  | ShArr n =>
    if decide (n < 16) then [0x90 + n] else put_number [(0xDC, 2%nat); (0xDD, 4%nat)] n
  | ShMap n =>
    if decide (n < 16) then [0x80 + n] else put_number [(0xDE, 2%nat); (0xDF, 4%nat)] n
  end.

(** The lengths and integers the format has room for. *)
Definition shape_ok (sh : shape) : Prop :=
  match sh with
  | ShNil | ShBool _ => True
  | ShInt z => -2 ^ 63 <= z < 2 ^ 64
  | ShFloat bits => fits 64 bits
  | ShStr n | ShBin n | ShArr n | ShMap n => fits 32 n
  end.

(** A number of [width] bytes, then what it means. *)
Definition get_number (width : nat) (k : Z → shape) (bs : bytes) : option (shape * bytes) :=
  if decide (width ≤ length bs)%nat
  then Some (k (from_be_bytes (take width bs)), drop width bs) else None.

Definition signed (width : nat) (n : Z) : shape :=
  ShInt (if decide (n < 2 ^ (8 * Z.of_nat width - 1)) then n else n - 2 ^ (8 * Z.of_nat width)).

Definition get_shape (bs : bytes) : option (shape * bytes) :=
  match bs with
  | [] => None
  | b :: bs =>
    if decide (b < 0x80) then Some (ShInt b, bs)
    else if decide (b < 0x90) then Some (ShMap (b - 0x80), bs)
    else if decide (b < 0xA0) then Some (ShArr (b - 0x90), bs)
    else if decide (b < 0xC0) then Some (ShStr (b - 0xA0), bs)
    else if decide (0xE0 <= b) then Some (ShInt (b - 256), bs)
    else match b with
      | 0xC0 => Some (ShNil, bs)
      | 0xC2 => Some (ShBool false, bs)
      | 0xC3 => Some (ShBool true, bs)
      | 0xC4 => get_number 1 ShBin bs
      | 0xC5 => get_number 2 ShBin bs
      | 0xC6 => get_number 4 ShBin bs
      | 0xCB => get_number 8 ShFloat bs
      | 0xCC => get_number 1 ShInt bs
      | 0xCD => get_number 2 ShInt bs
      | 0xCE => get_number 4 ShInt bs
      | 0xCF => get_number 8 ShInt bs
      | 0xD0 => get_number 1 (signed 1) bs
      | 0xD1 => get_number 2 (signed 2) bs
      | 0xD2 => get_number 4 (signed 4) bs
      | 0xD3 => get_number 8 (signed 8) bs
      | 0xD9 => get_number 1 ShStr bs
      | 0xDA => get_number 2 ShStr bs
      | 0xDB => get_number 4 ShStr bs
      | 0xDC => get_number 2 ShArr bs
      | 0xDD => get_number 4 ShArr bs
      | 0xDE => get_number 2 ShMap bs
      | 0xDF => get_number 4 ShMap bs
      | _ => None
      end
  end.

(** ** Encoding and decoding *)

Fixpoint mp_encode (v : mp) : bytes :=
  match v with
  | MNil => put_shape ShNil
  | MBool b => put_shape (ShBool b)
  | MInt z => put_shape (ShInt z)
  | MFloat bits => put_shape (ShFloat bits)
  | MStr s => put_shape (ShStr (zlen s)) ++ s
  | MBin b => put_shape (ShBin (zlen b)) ++ b
  | MArr l => put_shape (ShArr (zlen l)) ++ concat (mp_encode <$> l)
  | MMap l =>
    put_shape (ShMap (zlen l))
      ++ concat ((λ e : mp * mp, mp_encode e.1 ++ mp_encode e.2) <$> l)
  end.

Definition take_bytes (n : Z) (bs : bytes) : option (bytes * bytes) :=
  if decide (n <= zlen bs) then Some (take (Z.to_nat n) bs, drop (Z.to_nat n) bs) else None.

(** [n] values, one after the other. *)
Fixpoint get_many {A} (get : bytes → option (A * bytes)) (n : nat) (bs : bytes) :
  option (list A * bytes) :=
  match n with
  | O => Some ([], bs)
  | S n =>
    '(x, bs) ← get bs;
    '(xs, bs) ← get_many get n bs;
    Some (x :: xs, bs)
  end.

Definition get_pair {A} (get : bytes → option (A * bytes)) (bs : bytes) :
  option (A * A * bytes) :=
  '(x, bs) ← get bs;
  '(y, bs) ← get bs;
  Some (x, y, bs).

(** [fuel] bounds the depth; a count that exceeds the bytes left is refused
    before anything is read. *)
Fixpoint get_value (fuel : nat) (bs : bytes) : option (mp * bytes) :=
  match fuel with
  | O => None
  | S fuel =>
    '(sh, bs) ← get_shape bs;
    match sh with
    | ShNil => Some (MNil, bs)
    | ShBool b => Some (MBool b, bs)
    | ShInt z => Some (MInt z, bs)
    | ShFloat bits => Some (MFloat bits, bs)
    | ShStr n => '(s, bs) ← take_bytes n bs; Some (MStr s, bs)
    | ShBin n => '(b, bs) ← take_bytes n bs; Some (MBin b, bs)
    | ShArr n =>
      if decide (n <= zlen bs) then
        '(l, bs) ← get_many (get_value fuel) (Z.to_nat n) bs; Some (MArr l, bs)
      else None
    | ShMap n =>
      if decide (n <= zlen bs) then
        '(l, bs) ← get_many (get_pair (get_value fuel)) (Z.to_nat n) bs; Some (MMap l, bs)
      else None
    end
  end.

(** The value at the front; as in [from_slice], what follows is not read. *)
Definition mp_decode (bs : bytes) : option mp := fst <$> get_value (S (length bs)) bs.

(** ** The round trip *)

Lemma get_number_put width k n rest :
  get_number width k (to_be_bytes width n ++ rest)
  = Some (k (n mod 2 ^ (8 * Z.of_nat width)), rest).
Proof.
  unfold get_number. rewrite decide_True by (rewrite length_app, length_to_be_bytes; lia).
  rewrite take_app_length', drop_app_length' by (by rewrite length_to_be_bytes).
  by rewrite from_to_be_bytes_mod.
Qed.

Lemma signed_mod width z :
  (0 < width)%nat → - 2 ^ (8 * Z.of_nat width - 1) <= z < 0 →
  signed width (z mod 2 ^ (8 * Z.of_nat width)) = ShInt z.
Proof.
  intros Hw Hz. assert (H2 : 2 ^ (8 * Z.of_nat width) = 2 * 2 ^ (8 * Z.of_nat width - 1)).
  { rewrite <- Z.pow_succ_r by lia. f_equal. lia. }
  assert (Hm : z mod 2 ^ (8 * Z.of_nat width) = z + 2 ^ (8 * Z.of_nat width)).
  { symmetry. apply (Z.mod_unique_pos _ _ (-1)); lia. }
  unfold signed. rewrite Hm, decide_False by lia. f_equal. lia.
Qed.

Ltac one_byte :=
  cbn [app get_shape];
  repeat first [rewrite decide_True by lia|rewrite decide_False by lia];
  repeat f_equal; lia.

Ltac tagged_number := cbn [app]; etrans; [apply get_number_put|]; do 3 f_equal; by apply Z.mod_small.

Lemma get_put_shape sh rest : shape_ok sh → get_shape (put_shape sh ++ rest) = Some (sh, rest).
Proof.
  intros Hok. destruct sh as [|[]|z|bits|n|n|n|n]; unfold put_shape, shape_ok in *; try done.
  - case_decide; [case_decide; [one_byte|]|].
    + cbn [put_number]. repeat (case_decide; [tagged_number|]).
      exfalso. unfold fits in *. cbn in *. lia.
    + case_decide; [one_byte|].
      repeat (case_decide; [cbn [app]; etrans; [apply get_number_put|];
        do 2 f_equal; apply signed_mod; cbn; lia|]).
      cbn [app]. etrans; [apply get_number_put|]. do 2 f_equal. apply signed_mod; cbn; lia.
  - tagged_number.
  - case_decide; [unfold fits in Hok; one_byte|]. cbn [put_number].
    repeat (case_decide; [tagged_number|]). done.
  - cbn [put_number]. repeat (case_decide; [tagged_number|]). done.
  - case_decide; [unfold fits in Hok; one_byte|]. cbn [put_number].
    repeat (case_decide; [tagged_number|]). done.
  - case_decide; [unfold fits in Hok; one_byte|]. cbn [put_number].
    repeat (case_decide; [tagged_number|]). done.
Qed.

(** Values the format has room for. *)
#[warnings="-register-all"]
Inductive mp_ok : mp → Prop :=
| ok_nil : mp_ok MNil
| ok_bool b : mp_ok (MBool b)
| ok_int z : shape_ok (ShInt z) → mp_ok (MInt z)
| ok_float bits : shape_ok (ShFloat bits) → mp_ok (MFloat bits)
| ok_str s : fits 32 (zlen s) → mp_ok (MStr s)
| ok_bin b : fits 32 (zlen b) → mp_ok (MBin b)
| ok_arr l : fits 32 (zlen l) → Forall mp_ok l → mp_ok (MArr l)
| ok_map l : fits 32 (zlen l) → Forall (λ e, mp_ok e.1 ∧ mp_ok e.2) l → mp_ok (MMap l).
#[local] Hint Constructors mp_ok : procwire.

Lemma put_shape_pos sh : shape_ok sh → (0 < length (put_shape sh))%nat.
Proof.
  intros Hok%(get_put_shape _ []). destruct (put_shape sh); [done|]. cbn. lia.
Qed.

Lemma mp_encode_pos v : mp_ok v → (0 < length (mp_encode v))%nat.
Proof.
  intros Hok. assert (∃ sh rest, shape_ok sh ∧ mp_encode v = put_shape sh ++ rest) as (sh & rest & Hsh & ->).
  { destruct Hok; cbn [mp_encode]; first
      [eexists _, _; split; [|reflexivity]; done
      |eexists _, []; split; [|rewrite app_nil_r; reflexivity]; done]. }
  rewrite length_app. pose proof (put_shape_pos sh Hsh). lia.
Qed.

(** Elements written one after the other are read back. *)
Lemma get_many_put {A} (put : A → bytes) (get : bytes → option (A * bytes)) l rest :
  Forall (λ x, ∀ rest, get (put x ++ rest) = Some (x, rest)) l →
  get_many get (length l) (concat (put <$> l) ++ rest) = Some (l, rest).
Proof.
  induction 1 as [|x l Hx _ IH]; [done|]. cbn. rewrite <- app_assoc, Hx. cbn. by rewrite IH.
Qed.

Lemma concat_long {A} (put : A → bytes) l :
  Forall (λ x, (0 < length (put x))%nat) l → (length l ≤ length (concat (put <$> l)))%nat.
Proof. induction 1; cbn; rewrite ?length_app; lia. Qed.

Lemma concat_elem {A} (put : A → bytes) l x :
  x ∈ l → (length (put x) ≤ length (concat (put <$> l)))%nat.
Proof. induction 1; cbn; rewrite length_app; lia. Qed.

Lemma take_bytes_put s rest : take_bytes (zlen s) (s ++ rest) = Some (s, rest).
Proof.
  unfold take_bytes. rewrite decide_True by (rewrite length_app; lia).
  by rewrite Nat2Z.id, take_app_length, drop_app_length.
Qed.

Lemma get_value_put fuel v rest :
  mp_ok v → (length (mp_encode v) ≤ fuel)%nat → get_value fuel (mp_encode v ++ rest) = Some (v, rest).
Proof.
  revert v rest. induction fuel as [|fuel IH]; intros v rest Hok Hfuel.
  { pose proof (mp_encode_pos v Hok). lia. }
  destruct Hok as [|b|z Hz|bits Hb|s Hs|b Hb|l Hl Hall|l Hl Hall]; cbn [mp_encode get_value] in *;
    rewrite <- ?app_assoc, get_put_shape by done; cbn [mbind option_bind]; try done.
  - by rewrite take_bytes_put.
  - by rewrite take_bytes_put.
  - rewrite length_app in Hfuel. pose proof (put_shape_pos (ShArr (zlen l)) Hl).
    assert (length l ≤ length (concat (mp_encode <$> l)))%nat.
    { apply concat_long. eapply Forall_impl; [exact Hall|]. apply mp_encode_pos. }
    rewrite decide_True by (rewrite length_app; lia). rewrite Nat2Z.id, get_many_put; [done|].
    rewrite Forall_forall in Hall. apply Forall_forall. intros x Hx rest'.
    apply IH; [by apply Hall|]. pose proof (concat_elem mp_encode l x Hx). lia.
  - set (put := λ e : mp * mp, mp_encode e.1 ++ mp_encode e.2) in *.
    rewrite length_app in Hfuel. pose proof (put_shape_pos (ShMap (zlen l)) Hl).
    rewrite Forall_forall in Hall.
    assert (length l ≤ length (concat (put <$> l)))%nat.
    { apply concat_long, Forall_forall. intros e He. unfold put. rewrite length_app.
      destruct (Hall e He) as [H1%mp_encode_pos _]. lia. }
    rewrite decide_True by (rewrite length_app; lia). rewrite Nat2Z.id, get_many_put; [done|].
    apply Forall_forall. intros [x y] He rest'. destruct (Hall _ He) as [Hx Hy].
    pose proof (concat_elem put l _ He) as Hlen. unfold put in *. cbn [fst snd] in *.
    rewrite length_app in Hlen. unfold get_pair. rewrite <- app_assoc, IH by (done || lia). cbn.
    by rewrite IH by (done || lia).
Qed.

Lemma mp_roundtrip v rest : mp_ok v → mp_decode (mp_encode v ++ rest) = Some v.
Proof.
  intros Hok. unfold mp_decode. rewrite get_value_put; [done..|].
  rewrite length_app. lia.
Qed.

(** ** Types with a MessagePack form ([derive(Serialize, Deserialize)]) *)
Class Mp (T : Type) := {
  to_mp : T → mp;
  of_mp : mp → option T
}.

(** The text of bytes; the inverse of [as_bytes]. *)
Definition of_bytes (bs : bytes) : string :=
  String.string_of_list_ascii ((λ b, Ascii.ascii_of_N (Z.to_N b)) <$> bs).

Lemma of_as_bytes s : of_bytes (as_bytes s) = s.
Proof.
  unfold of_bytes, as_bytes. rewrite <- list_fmap_compose.
  rewrite (list_fmap_ext _ id), list_fmap_id; [apply String.string_of_list_ascii_of_string|].
  intros _ a _. cbn. by rewrite N2Z.id, Ascii.ascii_N_embedding.
Qed.

#[export] Instance string_mp : Mp string := {|
  to_mp s := MStr (as_bytes s);
  of_mp v := match v with MStr s => Some (of_bytes s) | _ => None end
|}.
#[export] Instance int_mp : Mp Z := {|
  to_mp := MInt;
  of_mp v := match v with MInt z => Some z | _ => None end
|}.
#[export] Instance bool_mp : Mp bool := {|
  to_mp := MBool;
  of_mp v := match v with MBool b => Some b | _ => None end
|}.
#[export] Instance unit_mp : Mp unit := {|
  to_mp _ := MNil;
  of_mp v := match v with MNil => Some tt | _ => None end
|}.
#[export] Instance list_mp `{Mp T} : Mp (list T) := {|
  to_mp l := MArr (to_mp <$> l);
  of_mp v := match v with MArr l => mapM of_mp l | _ => None end
|}.
#[export] Instance option_mp `{Mp T} : Mp (option T) := {|
  to_mp o := match o with Some x => to_mp x | None => MNil end;
  of_mp v := match v with MNil => Some None | _ => Some <$> of_mp v end
|}.
#[export] Instance map_mp `{Mp T} : Mp (gmap string T) := {|
  to_mp m := MMap (prod_map (to_mp (T:=string)) (to_mp (T:=T)) <$> map_to_list m);
  of_mp v :=
    match v with
    | MMap l =>
      list_to_map <$>
        mapM (λ e : mp * mp, k ← of_mp (T:=string) e.1; x ← of_mp (T:=T) e.2; Some (k, x)) l
    | _ => None
    end
|}.

(** [f64] by its bits; [serde_bytes::Bytes] and [ByteBuf]. *)
Record f64 := { f_bits : u64 }.
Record ByteBuf := { buf_bytes : bytes }.
#[export] Instance float_mp : Mp f64 := {|
  to_mp x := MFloat (f_bits x);
  of_mp v := match v with MFloat bits => Some {| f_bits := bits |} | _ => None end
|}.
#[export] Instance bytebuf_mp : Mp ByteBuf := {|
  to_mp b := MBin (buf_bytes b);
  of_mp v := match v with MBin b => Some {| buf_bytes := b |} | _ => None end
|}.

(** A struct is a map from the names of its fields; a field is found by name. *)
Definition struct_mp (fields : list (string * mp)) : mp :=
  MMap (prod_map (to_mp (T:=string)) id <$> fields).

Fixpoint find_field (name : string) (l : list (mp * mp)) : option mp :=
  match l with
  | [] => None
  | (MStr k, v) :: l => if decide (k = as_bytes name) then Some v else find_field name l
  | _ :: l => find_field name l
  end.

Definition field_mp {T} `{Mp T} (name : string) (v : mp) : option T :=
  match v with MMap l => find_field name l ≫= of_mp | _ => None end.

(** ** The codec *)
#[export] Instance mp_serialize `{Mp T} : Serialize (H:=string_errors) T | 10 :=
  λ x, Ok (mp_encode (to_mp x)).
#[export] Instance mp_deserialize `{Mp T} : DeserializeOwned (H:=string_errors) T | 10 :=
  λ bs, match mp_decode bs ≫= of_mp with
        | Some x => Ok x
        | None => Err "invalid MessagePack"%string
        end.

(** The values of a type the format has room for, and that they are read back. *)
Class MpLaws (T : Type) `{Mp T} := {
  valid : T → Prop;
  to_mp_ok x : valid x → mp_ok (to_mp x);
  of_to_mp x : valid x → of_mp (to_mp x) = Some x
}.

#[export] Program Instance string_laws : MpLaws string := {| valid s := fits 32 (zlen (as_bytes s)) |}.
Next Obligation. by constructor. Qed.
Next Obligation. intros s _. cbn. by rewrite of_as_bytes. Qed.
#[export] Program Instance int_laws : MpLaws Z := {| valid z := -2 ^ 63 <= z < 2 ^ 64 |}.
Next Obligation. by constructor. Qed.
Next Obligation. done. Qed.
#[export] Program Instance bool_laws : MpLaws bool := {| valid _ := True |}.
Next Obligation. by constructor. Qed.
Next Obligation. done. Qed.
#[export] Program Instance unit_laws : MpLaws unit := {| valid _ := True |}.
Next Obligation. by constructor. Qed.
Next Obligation. by intros []. Qed.
#[export] Program Instance bytebuf_laws : MpLaws ByteBuf := {| valid b := fits 32 (zlen (buf_bytes b)) |}.
Next Obligation. by constructor. Qed.
Next Obligation. by intros []. Qed.
#[export] Program Instance list_laws `{MpLaws T} : MpLaws (list T) := {|
  valid l := fits 32 (zlen l) ∧ Forall valid l
|}.
Next Obligation.
  intros T ?? l [Hl Hall]. constructor; [by rewrite length_fmap|].
  apply Forall_fmap. eapply Forall_impl; [exact Hall|]. apply to_mp_ok.
Qed.
Next Obligation.
  intros T ?? l [_ Hall]. cbn. apply mapM_Some. induction Hall; constructor; [|done].
  by apply of_to_mp.
Qed.

#[local] Existing Instance string_errors.

(** [MsgPackCodec] gives back what it was given, whatever follows the value. *)
Lemma msgpack_roundtrip `{MpLaws T} (x : T) rest :
  valid x →
  ∃ b, msgpack_encode x = Ok b ∧ msgpack_decode (b ++ rest) = Ok x.
Proof.
  intros Hx. eexists. split; [reflexivity|].
  unfold msgpack_decode, from_slice, mp_deserialize.
  rewrite mp_roundtrip by (by apply to_mp_ok). cbn. by rewrite of_to_mp.
Qed.
