(* ===== verification/Control.v ===== *)
(** * The control-plane reader (src/control/stdin.rs, src/control/stdio.rs)

    Lines on stdin to actions, the reader loop over what [read_line] returns,
    and the writes to stdout.  A [&str] is the bytes of its UTF-8 text. *)

From S2P Require Import Prelude Errors Json.

(** ** [str::trim] *)

(** The characters with the Unicode property [White_Space], by the length of
    their UTF-8 encoding. *)
Definition is_ws1 (a : Z) : bool := ((9 <=? a) && (a <=? 13)) || (a =? 32).
Definition is_ws2 (a b : Z) : bool := (a =? 194) && ((b =? 133) || (b =? 160)).
Definition is_ws3 (a b c : Z) : bool :=
  ((a =? 225) && (b =? 154) && (c =? 128))
  || ((a =? 226) && (b =? 128)
      && (((128 <=? c) && (c <=? 138)) || (c =? 168) || (c =? 169) || (c =? 175)))
  || ((a =? 226) && (b =? 129) && (c =? 159))
  || ((a =? 227) && (b =? 128) && (c =? 128)).

(** Removes white space from the front, for a given reading direction. *)
Fixpoint trim_with (ws2 : Z → Z → bool) (ws3 : Z → Z → Z → bool) (l : bytes) : bytes :=
  match l with
  | [] => []
  | a :: l1 =>
    if is_ws1 a then trim_with ws2 ws3 l1
    else match l1 with
    | [] => l
    | b :: l2 =>
      if ws2 a b then trim_with ws2 ws3 l2
      else match l2 with
      | [] => l
      | c :: l3 => if ws3 a b c then trim_with ws2 ws3 l3 else l
      end
    end
  end.

Definition trim_start (s : bytes) : bytes := trim_with is_ws2 is_ws3 s.
Definition trim_end (s : bytes) : bytes :=
  reverse (trim_with (λ a b, is_ws2 b a) (λ a b c, is_ws3 c b a) (reverse s)).
Definition trim (s : bytes) : bytes := trim_end (trim_start s).

(** ** Lines to actions *)

Inductive ControlAction := Pong | Shutdown | Ignore.

#[export] Instance ControlAction_eq_dec : EqDecision ControlAction.
Proof. solve_decision. Defined.

Definition PONG_MESSAGE : bytes :=
  [123; 34; 106; 115; 111; 110; 114; 112; 99; 34; 58; 34; 50; 46; 48; 34; 44;
   34; 109; 101; 116; 104; 111; 100; 34; 58; 34; 36; 112; 111; 110; 103; 34; 125].

Definition parse_control_line `{SerdeJson} (line : bytes) : ControlAction :=
  let trimmed := trim line in
  if negb (bool_decide (head trimmed = Some LEFT_BRACE)) then Ignore
  else
    match json_from_str trimmed with
    | Err _ => Ignore
    | Ok value =>
      match get value "method" ≫= as_str with
      | Some "$ping" => Pong
      | Some "$shutdown" => Shutdown
      | _ => Ignore
      end%string
    end.

(** ** Stdout *)

(** [std::io::Write] as [write_stdout_line] uses it, with the bytes written. *)
Class StdWrite (W : Type) := {
  write_all : W → bytes → W * result io_Error unit;
  std_flush : W → W * result io_Error unit;
  std_out : W → bytes
}.

(** [write_all] writes everything or fails after a part of it. *)
Class StdWriteOk W `{StdWrite W} : Prop := {
  write_all_ok w bs w' : write_all w bs = (w', Ok tt) → std_out w' = std_out w ++ bs;
  write_all_err w bs w' e :
    write_all w bs = (w', Err e) → ∃ p, p `prefix_of` bs ∧ std_out w' = std_out w ++ p;
  std_flush_out w w' r : std_flush w = (w', r) → std_out w' = std_out w
}.

Definition write_stdout_line `{StdWrite W} (w : W) (line : bytes) : W * result io_Error unit :=
  match write_all w line with
  | (w, Err e) => (w, Err e)
  | (w, Ok _) =>
    match write_all w [NEWLINE] with
    | (w, Err e) => (w, Err e)
    | (w, Ok _) => std_flush w
    end
  end.

(** [serde_json::to_string] on any serialisable type. *)
Class JsonSerialize `{ThirdParty} (T : Type) :=
  to_json_string : T → result serde_json_Error bytes.

Definition write_stdout_json `{TP : ThirdParty} {T} `{!JsonSerialize T} `{StdWrite W}
  (w : W) (value : T) : W * Result unit :=
  match to_json_string value with
  | Err e => (w, Err (Json e))
  | Ok json => let '(w, r) := write_stdout_line w json in (w, map_err Io r)
  end.

(** ** [run_control_reader] *)

(** What [read_line] returns next: the line, of length zero at the end of the
    input, or an error. *)
Abbreviation read := (result io_Error bytes).

(** Why the loop ended. *)
Inductive reader_exit := Eof | ReadError | ShutdownReceived | PongFailed.

#[export] Instance reader_exit_eq_dec : EqDecision reader_exit.
Proof. solve_decision. Defined.

(** The loop over the reads to come; the result says why the loop ended
    ([None]: it is blocked in the next read), the state of stdout and whether
    [shutdown_token] is cancelled. *)
Fixpoint run_control_reader `{SerdeJson} `{StdWrite W} (reads : list read) (w : W)
  (cancelled : bool) : option reader_exit * W * bool :=
  match reads with
  | [] => (None, w, cancelled)
  | Ok [] :: _ => (Some Eof, w, cancelled)
  | Ok line :: reads =>
    match parse_control_line line with
    | Pong =>
      match write_stdout_line w PONG_MESSAGE with
      | (w, Err _) => (Some PongFailed, w, cancelled)
      | (w, Ok _) => run_control_reader reads w cancelled
      end
    | Shutdown => (Some ShutdownReceived, w, true)
    | Ignore => run_control_reader reads w cancelled
    end
  | Err _ :: _ => (Some ReadError, w, cancelled)
  end.

(** ** Specification *)

(** What ends the loop, if stdout works. *)
Definition stop_of `{SerdeJson} (r : read) : option reader_exit :=
  match r with
  | Ok [] => Some Eof
  | Ok line => if decide (parse_control_line line = Shutdown) then Some ShutdownReceived else None
  | Err _ => Some ReadError
  end.

(** The reads before the first that ends the loop, and the reason. *)
Fixpoint live_reads `{SerdeJson} (reads : list read) : list read * option reader_exit :=
  match reads with
  | [] => ([], None)
  | r :: reads =>
    match stop_of r with
    | Some x => ([], Some x)
    | None => let '(live, x) := live_reads reads in (r :: live, x)
    end
  end.

Definition is_ping `{SerdeJson} (r : read) : bool :=
  match r with Ok line => bool_decide (parse_control_line line = Pong) | Err _ => false end.

(** The output of [n] answered pings. *)
Definition pongs (n : nat) : bytes := concat (replicate n (PONG_MESSAGE ++ [NEWLINE])).

(** ** Lemmas *)

Lemma trim_with_ws ws2 ws3 ws l :
  Forall is_ws1 ws → trim_with ws2 ws3 (ws ++ l) = trim_with ws2 ws3 l.
Proof.
  induction 1 as [|a ws Ha _ IH]; [done|]. cbn [app trim_with].
  by rewrite (Is_true_true_1 _ Ha).
Qed.

(** A byte that starts no white space stops the trimming. *)
Lemma trim_with_stop ws2 ws3 a l :
  is_ws1 a = false → (∀ b, ws2 a b = false) → (∀ b c, ws3 a b c = false) →
  trim_with ws2 ws3 (a :: l) = a :: l.
Proof.
  intros H1 H2 H3. cbn [trim_with]. rewrite H1. destruct l as [|b [|c l]]; [done|..];
    by rewrite H2, ?H3.
Qed.

(** A byte that ends no white space is never trimmed away. *)
Lemma trim_with_keep ws2 ws3 (b : Z) :
  is_ws1 b = false → (∀ a, ws2 a b = false) → (∀ a c, ws3 a c b = false) →
  (∀ a c, ws3 a b c = false) → (∀ c, ws2 b c = false) →
  ∀ n l, (length l ≤ n)%nat → ∃ l', trim_with ws2 ws3 (l ++ [b]) = l' ++ [b].
Proof.
  intros H1 H2 H3 H3' H2' n. induction n as [|n IH]; intros l Hl.
  { destruct l; [|simpl in Hl; lia]. exists []. cbn [app trim_with]. by rewrite H1. }
  destruct l as [|x [|y [|z l]]]; cbn [app trim_with]; simpl in Hl.
  - exists []. by rewrite H1.
  - destruct (is_ws1 x); [exists []; by rewrite H1|]. rewrite H2. by exists [x].
  - destruct (is_ws1 x); [apply (IH [y]); simpl; lia|].
    destruct (ws2 x y); [apply (IH []); simpl; lia|]. rewrite H3. by exists [x; y].
  - destruct (is_ws1 x); [apply (IH (y :: z :: l)); simpl; lia|].
    destruct (ws2 x y); [apply (IH (z :: l)); simpl; lia|].
    destruct (ws3 x y z); [apply (IH l); lia|]. by exists (x :: y :: z :: l).
Qed.

(** An ASCII byte is part of no longer white space. *)
Lemma ascii_not_ws2 a b : (a < 128 ∨ b < 128) → is_ws2 a b = false.
Proof. unfold is_ws2. lia. Qed.

Lemma ascii_not_ws3 a b c : (a < 128 ∨ b < 128 ∨ c < 128) → is_ws3 a b c = false.
Proof. unfold is_ws3. lia. Qed.

Lemma trim_start_stop ws a l :
  Forall is_ws1 ws → is_ws1 a = false → a < 128 → trim_start (ws ++ a :: l) = a :: l.
Proof.
  intros Hws Ha Hlt. unfold trim_start. rewrite trim_with_ws by done.
  apply trim_with_stop; [done|..]; intros; [apply ascii_not_ws2|apply ascii_not_ws3]; lia.
Qed.

Lemma trim_end_stop ws a l :
  Forall is_ws1 ws → is_ws1 a = false → a < 128 → trim_end ((l ++ [a]) ++ ws) = l ++ [a].
Proof.
  intros Hws Ha Hlt. unfold trim_end. rewrite !reverse_app, trim_with_ws by by apply Forall_reverse.
  cbn [app]. rewrite reverse_singleton. cbn [app].
  rewrite trim_with_stop; [by rewrite reverse_cons, reverse_involutive|done|..]; intros;
    [apply ascii_not_ws2|apply ascii_not_ws3]; lia.
Qed.

Lemma trim_end_head a l :
  is_ws1 a = false → a < 128 → head (trim_end (a :: l)) = Some a.
Proof.
  intros Ha Hlt. unfold trim_end. rewrite reverse_cons.
  edestruct (trim_with_keep (λ x y, is_ws2 y x) (λ x y z, is_ws3 z y x) a)
    with (l := reverse l) as [l' ->]; [done|..|done|].
  - intros; apply ascii_not_ws2; lia.
  - intros; apply ascii_not_ws3; lia.
  - intros; apply ascii_not_ws3; lia.
  - intros; apply ascii_not_ws2; lia.
  - by rewrite reverse_app.
Qed.

Section Lemmas.
Context `{SJ : SerdeJson} `{StdWriteOk W}.

Lemma write_stdout_line_ok w line w' :
  write_stdout_line w line = (w', Ok tt) → std_out w' = std_out w ++ line ++ [NEWLINE].
Proof.
  unfold write_stdout_line. destruct (write_all w line) as [w1 [[]|e]] eqn:E1; [|done].
  destruct (write_all w1 [NEWLINE]) as [w2 [[]|e]] eqn:E2; [|done]. intros E3.
  rewrite (std_flush_out _ _ _ E3), (write_all_ok _ _ _ E2), (write_all_ok _ _ _ E1).
  by rewrite app_assoc.
Qed.

Lemma write_stdout_line_err w line w' e :
  write_stdout_line w line = (w', Err e) →
  ∃ p, p `prefix_of` line ++ [NEWLINE] ∧ std_out w' = std_out w ++ p.
Proof.
  unfold write_stdout_line. destruct (write_all w line) as [w1 [[]|e1]] eqn:E1.
  2: { intros [= <- <-]. apply write_all_err in E1 as (p & Hp & ->).
       exists p. split; [by apply prefix_app_r|done]. }
  destruct (write_all w1 [NEWLINE]) as [w2 [[]|e2]] eqn:E2; intros E3.
  - rewrite (std_flush_out _ _ _ E3), (write_all_ok _ _ _ E2), (write_all_ok _ _ _ E1).
    exists (line ++ [NEWLINE]). by rewrite app_assoc.
  - injection E3 as <- <-. apply write_all_err in E2 as (p & Hp & ->).
    rewrite (write_all_ok _ _ _ E1). exists (line ++ p). split; [by apply prefix_app|].
    by rewrite app_assoc.
Qed.

Lemma pongs_S n : pongs (S n) = (PONG_MESSAGE ++ [NEWLINE]) ++ pongs n.
Proof. done. Qed.

(** The loop does what the specification says, or ends on a failed write. *)
Lemma reader_spec reads w c :
  let '(live, stop) := live_reads reads in
  let '(x, w', c') := run_control_reader reads w c in
  (x = stop ∧ c' = (c || bool_decide (stop = Some ShutdownReceived))
   ∧ std_out w' = std_out w ++ pongs (length (filter is_ping live)))
  ∨ (x = Some PongFailed ∧ c' = c
     ∧ ∃ p, p `prefix_of` pongs (length (filter is_ping live)) ∧ std_out w' = std_out w ++ p).
Proof.
  revert w. induction reads as [|r reads IH]; intros w; cbn [live_reads run_control_reader].
  { left. by rewrite orb_false_r, app_nil_r. }
  destruct r as [[|b line]|e]; cbn [stop_of].
  - left. by rewrite orb_false_r, app_nil_r.
  - destruct (parse_control_line (b :: line)) eqn:Ep; case_decide; try done.
    + specialize (IH (write_stdout_line w PONG_MESSAGE).1).
      destruct (live_reads reads) as [live stop].
      rewrite filter_cons_True by (by cbn; rewrite Ep). cbn [length].
      rewrite pongs_S.
      destruct (write_stdout_line w PONG_MESSAGE) as [w1 [[]|e1]] eqn:E1; cbn [fst] in IH.
      * rewrite (write_stdout_line_ok _ _ _ E1) in IH.
        destruct (run_control_reader reads w1 c) as [[x w'] c'].
        destruct IH as [(-> & -> & ->)|(-> & -> & p & Hp & ->)]; [left|right];
          rewrite <- !app_assoc; [done|]. split_and!; [done..|].
        exists (PONG_MESSAGE ++ [NEWLINE] ++ p). split; [|done].
        by do 2 apply prefix_app.
      * right. split_and!; [done..|]. apply write_stdout_line_err in E1 as (p & Hp & ->).
        exists p. split; [by apply prefix_app_r|done].
    + left. cbn. by rewrite bool_decide_true, orb_true_r, app_nil_r.
    + specialize (IH w). destruct (live_reads reads) as [live stop].
      rewrite filter_cons_False; [exact IH|]. cbn. rewrite Ep.
      by intros ?%bool_decide_unpack.
  - left. by rewrite orb_false_r, app_nil_r.
Qed.
End Lemmas.

(** A stdout that never fails. *)
#[export] Instance buffer_stdout : StdWrite bytes := {|
  write_all w bs := (w ++ bs, Ok tt);
  std_flush w := (w, Ok tt);
  std_out w := w
|}.

#[export] Instance buffer_stdout_ok : StdWriteOk bytes.
Proof. split; [by intros w bs w' [= <-]|done|by intros w w' r [= <-]]. Qed.

(** ** Properties *)

(** C33: whatever sequence of lines and errors stdin delivers, the reader
    answers every [$ping] it reads before the first end of input, read error
    or [$shutdown] with exactly one pong line, writes nothing else, cancels
    the shutdown token exactly when [$shutdown] is that first event, and ends
    there; if a write to stdout fails it ends at that point with a prefix of
    those pongs written and the token untouched. *)
Theorem control_reader_answers `{SJ : SerdeJson} `{StdWriteOk W}
  (reads : list read) (w : W) :
  let '(live, stop) := live_reads reads in
  let '(x, w', cancelled) := run_control_reader reads w false in
  (x = stop ∧ cancelled = bool_decide (stop = Some ShutdownReceived)
   ∧ std_out w' = std_out w ++ pongs (length (filter is_ping live)))
  ∨ (x = Some PongFailed ∧ cancelled = false
     ∧ ∃ p, p `prefix_of` pongs (length (filter is_ping live)) ∧ std_out w' = std_out w ++ p).
Proof. exact (reader_spec reads w false). Qed.

(** A JSON object printed by the parent is recognised by its [method]
    member whatever ASCII white space (such as a line ending) surrounds it:
    [$ping] and [$shutdown] cause their actions and every other object is
    ignored; a line whose first visible character is not an opening brace is
    ignored without consulting the JSON parser. *)
Theorem control_line_actions `{SJ : SerdeJson} `{!SerdeJsonOk} (pre post : bytes) :
  Forall is_ws1 pre → Forall is_ws1 post →
  (∀ m t, json_to_string (v_object m) = Ok t →
     parse_control_line (pre ++ t ++ post)
     = match m !! "method" ≫= as_str with
       | Some "$ping" => Pong
       | Some "$shutdown" => Shutdown
       | _ => Ignore
       end)%string
  ∧ (∀ a rest, is_ws1 a = false → a < 128 → a ≠ LEFT_BRACE →
     parse_control_line (pre ++ a :: rest) = Ignore).
Proof.
  intros Hpre Hpost. split.
  - intros m t Ht. destruct (json_print_object _ _ Ht) as [Hh Hl].
    destruct t as [|a t]; [done|]. injection Hh as ->.
    assert (Htrim : trim (pre ++ (LEFT_BRACE :: t) ++ post) = LEFT_BRACE :: t).
    { unfold trim. cbn [app]. rewrite trim_start_stop by done.
      apply last_Some in Hl as [l' Hl]. rewrite app_comm_cons, Hl.
      by apply trim_end_stop. }
    unfold parse_control_line. rewrite Htrim. cbn [head].
    rewrite bool_decide_true by done. cbn [negb].
    destruct (json_print_parse (v_object m)) as (t' & Ht' & Hp & _).
    rewrite Ht in Ht'. injection Ht' as <-. rewrite Hp. unfold get. by rewrite as_object_object.
  - intros a rest Ha Hlt Hne. unfold parse_control_line, trim.
    rewrite trim_start_stop, trim_end_head by done. rewrite bool_decide_false by congruence.
    done.
Qed.

Section Witness.
#[local] Existing Instance string_errors.

Definition ping_object : gmap string Value := {["method" := v_string "$ping"]}.

Lemma control_line_actions_witness :
  parse_control_line ([32] ++ LEFT_BRACE :: print_pos (encode (tree_object ping_object))
                      ++ [13; 10]) = Pong
  ∧ parse_control_line ([9] ++ 104 :: [105; 10]) = Ignore.
Proof.
  split.
  - exact (proj1 (control_line_actions [32] [13; 10] ltac:(by repeat constructor)
             ltac:(by repeat constructor)) ping_object _ eq_refl).
  - apply (proj2 (control_line_actions [9] [] ltac:(by repeat constructor)
             ltac:(by repeat constructor)) 104 [105; 10]); done.
Defined.

(** A ping, a log line, and the end of the input. *)
Definition demo_reads : list read :=
  [Ok (LEFT_BRACE :: print_pos (encode (tree_object ping_object)) ++ [10]);
   Ok [104; 105; 10]; Ok []].

Definition demo_stdout : bytes := [7].

Lemma control_reader_answers_witness :
  let '(live, stop) := live_reads demo_reads in
  let '(x, w', cancelled) := run_control_reader demo_reads demo_stdout false in
  (x = stop ∧ cancelled = bool_decide (stop = Some ShutdownReceived)
   ∧ std_out w' = std_out demo_stdout ++ pongs (length (filter is_ping live)))
  ∨ (x = Some PongFailed ∧ cancelled = false
     ∧ ∃ p, p `prefix_of` pongs (length (filter is_ping live))
       ∧ std_out w' = std_out demo_stdout ++ p).
Proof. pose proof (control_reader_answers demo_reads demo_stdout) as H. exact H. Defined.

(** The run itself: one pong. *)
Example demo_reads_run :
  run_control_reader demo_reads demo_stdout false
  = (Some Eof, 7 :: PONG_MESSAGE ++ [NEWLINE], false).
Proof. vm_compute. reflexivity. Qed.
End Witness.
