(* ===== verification/Program.v ===== *)
(** * Asynchronous programs over shared cells and a writer

    Handler code runs concurrently on clones of one [RequestContext].  A
    program is a tree of its atomic actions on the shared state (the
    [AtomicBool]s and cancellation tokens, and sends to the writer); a pool of
    programs runs by interleaving them, and the writer moves in between: a
    call of [send] is begun by one step of the program and has returned when
    the writer has a result for it.  Code that runs for ever is a tree cut off
    by [Hang]. *)

From S2P Require Import Prelude Errors WireFormat Writer.

(** The address of an [Arc<AtomicBool>] or of a [CancellationToken]. *)
Abbreviation loc := nat (only parsing).

Section Programs.
Context `{TP : ThirdParty}.

Inductive prog :=
| Ret (r : Result unit)
| Panic
| Hang
| Swap (l : loc) (k : bool → prog)       (* [swap(true)] *)
| Load (l : loc) (k : bool → prog)       (* [load], [is_cancelled] *)
| Cancel (l : loc) (k : prog)            (* [CancellationToken::cancel] *)
| Await (l : loc) (k : prog)             (* [cancelled().await] *)
| SendFrame (l : loc) (f : OutboundFrame) (k : Result unit → prog)
    (* [WriterHandle::send]; [l] identifies the request, for the history *)
| Sending (t : nat) (k : Result unit → prog)
    (* the call number [t] of [send] is under way *)
| Input (k : nat → prog)                 (* anything else the code may learn *)
| Fork (p : prog) (k : prog).            (* [tokio::spawn] *)

(** [let r = p.await; k(r)]. *)
Fixpoint pbind (p : prog) (k : Result unit → prog) : prog :=
  match p with
  | Ret r => k r
  | Panic => Panic
  | Hang => Hang
  | Swap l p => Swap l (λ b, pbind (p b) k)
  | Load l p => Load l (λ b, pbind (p b) k)
  | Cancel l p => Cancel l (pbind p k)
  | Await l p => Await l (pbind p k)
  | SendFrame l f p => SendFrame l f (λ r, pbind (p r) k)
  | Sending t p => Sending t (λ r, pbind (p r) k)
  | Input p => Input (λ n, pbind (p n) k)
  | Fork q p => Fork q (pbind p k)
  end.

(** [p.await?; q]. *)
Definition ptry (p q : prog) : prog :=
  pbind p (λ r, match r with Err e => Ret (Err e) | Ok _ => q end).

(** [let x = r?; k(x)] for a computed result. *)
Definition try_ok {T} (r : Result T) (k : T → prog) : prog :=
  match r with Err e => Ret (Err e) | Ok x => k x end.
End Programs.

#[global] Arguments prog {TP}.

(** ** The writer as its clients see it *)

(** The frames of the calls that returned [Ok]. *)
Definition ok_frames `{ThirdParty} (cs : list (OutboundFrame * option (Result unit))) :
  list OutboundFrame :=
  omap (λ c, match c.2 with Some (Ok _) => Some c.1 | _ => None end) cs.

(** [fw_calls] are the calls of [send] in the order in which they began, with
    the result of those that have returned; [fw_begin] starts a call; [fw_step] is what the writer and the calls under
    way do from there; [fw_sent] are the frames accepted so far, in order;
    [fw_ok] holds of the states a writer can be in.  [WriterImpl] shows that
    the writer task implements this interface. *)
Class FrameWriter `{ThirdParty} (W : Type) := {
  fw_begin : W → OutboundFrame → W;
  fw_step : W → W → Prop;
  fw_calls : W → list (OutboundFrame * option (Result unit));
  fw_sent : W → list OutboundFrame;
  fw_ok : W → Prop
}.

(** What a writer promises: calls do not disappear, a call returns once, and
    the frames accepted are exactly those of the calls that returned [Ok]. *)
Class FrameWriterOk W `{FrameWriter W} : Prop := {
  fw_calls_begin w f : fw_calls (fw_begin w f) = fw_calls w ++ [(f, None)];
  fw_calls_step w w' :
    fw_step w w' →
    Forall2 (λ c c', c'.1 = c.1 ∧ (c.2 = None ∨ c'.2 = c.2)) (fw_calls w) (fw_calls w');
  fw_ok_begin w f : ob_wf f → fw_ok w → fw_ok (fw_begin w f);
  fw_ok_step w w' : fw_step w w' → fw_ok w → fw_ok w';
  fw_sent_ok w : fw_ok w → fw_sent w ≡ₚ ok_frames (fw_calls w)
}.

(** The calls, and whether they have returned [Ok]. *)
Definition ok_calls `{TP : ThirdParty} {W} `{!FrameWriter W} (w : W) : list (OutboundFrame * bool) :=
  (λ c, (c.1, match c.2 with Some (Ok _) => true | _ => false end)) <$> fw_calls w.

(** A writer that accepts one frame at a time, at the step that makes its call
    return [Ok], behind those accepted before. *)
Class FrameWriterOrdered W `{FrameWriter W} : Prop := {
  fw_sent_begin w f : fw_sent (fw_begin w f) = fw_sent w;
  fw_sent_step w w' :
    fw_step w w' →
    (fw_sent w' = fw_sent w ∧ ok_calls w' = ok_calls w)
    ∨ ∃ t f, fw_calls w !! t = Some (f, None) ∧ fw_sent w' = fw_sent w ++ [f]
        ∧ ok_calls w' = <[t := (f, true)]> (ok_calls w)
}.

Section WriterLemmas.
Context `{TP : ThirdParty} {W : Type} `{!FrameWriter W} `{!FrameWriterOk W}.

Lemma fw_frames_step (w w' : W) : fw_step w w' → (fw_calls w').*1 = (fw_calls w).*1.
Proof.
  intros Hst%fw_calls_step. induction Hst as [|c c' cs cs' [Hc _] _ IH]; [done|].
  by rewrite !fmap_cons, Hc, IH.
Qed.

Lemma ok_frames_sublist (cs : list (OutboundFrame * option (Result unit))) :
  ok_frames cs `sublist_of` cs.*1.
Proof.
  induction cs as [|[f [[u|e]|]] cs IH]; [constructor|..]; unfold ok_frames in *; cbn;
    by constructor.
Qed.
End WriterLemmas.

(** A writer whose calls return in any order with any result. *)
Record LogWriter `{ThirdParty} := { lw_calls : list (OutboundFrame * option (Result unit)) }.

#[export] Instance log_writer `{ThirdParty} : FrameWriter LogWriter := {|
  fw_begin w f := {| lw_calls := lw_calls w ++ [(f, None)] |};
  fw_step w w' := ∃ t f r, lw_calls w !! t = Some (f, None) ∧
    w' = {| lw_calls := <[t := (f, Some r)]> (lw_calls w) |};
  fw_calls := lw_calls;
  fw_sent w := ok_frames (lw_calls w);
  fw_ok w := True
|}.

#[export] Instance log_writer_ok `{ThirdParty} : FrameWriterOk LogWriter.
Proof.
  split; [done| |done..]. intros [cs] w' (t & f & r & Ht & ->). cbn in *.
  apply Forall2_same_length_lookup_2; [by rewrite length_insert|].
  intros i c c' Hc Hc'. destruct (decide (i = t)) as [->|Hne].
  - rewrite list_lookup_insert_eq in Hc' by (by eapply lookup_lt_Some). simplify_eq. auto.
  - rewrite list_lookup_insert_ne in Hc' by done. simplify_eq. auto.
Qed.

(** ** Runs *)
Section Semantics.
Context `{TP : ThirdParty} {W : Type} `{!FrameWriter W}.

(** The shared state; [sends] is history: the frames handed to [send], with
    the request each belongs to. *)
Record world := {
  cells : gmap loc bool;
  out : W;
  sends : list (loc * OutboundFrame)
}.

Definition cell (w : world) (l : loc) : bool := default false (cells w !! l).

Definition set_cell (l : loc) (w : world) : world :=
  {| cells := <[l := true]> (cells w); out := out w; sends := sends w |}.

(** A call of [send] begins; its number is that of the calls before it. *)
Definition begin_send (l : loc) (f : OutboundFrame) (w : world) : world :=
  {| cells := cells w; out := fw_begin (out w) f; sends := sends w ++ [(l, f)] |}.
Definition next_call (w : world) : nat := length (fw_calls (out w)).
Definition call_result (w : world) (t : nat) : option (Result unit) :=
  fw_calls (out w) !! t ≫= snd.

(** One atomic action of a program: the new state, what is left of it, and
    the programs it has spawned. *)
Inductive pstep (w : world) : prog → world → prog → list prog → Prop :=
| p_swap l k : pstep w (Swap l k) (set_cell l w) (k (cell w l)) []
| p_load l k : pstep w (Load l k) w (k (cell w l)) []
| p_cancel l k : pstep w (Cancel l k) (set_cell l w) k []
| p_await l k : cell w l = true → pstep w (Await l k) w k []
| p_send l f k : pstep w (SendFrame l f k) (begin_send l f w) (Sending (next_call w) k) []
| p_sent t k r : call_result w t = Some r → pstep w (Sending t k) w (k r) []
| p_input n k : pstep w (Input k) w (k n) []
| p_fork q k : pstep w (Fork q k) w k [q].

Definition set_out (o : W) (w : world) : world :=
  {| cells := cells w; out := o; sends := sends w |}.

(** Any program of the pool may move, and the writer. *)
Inductive pool_step : world * list prog → world * list prog → Prop :=
| pool_step_intro w w' p p' qs ps1 ps2 :
    pstep w p w' p' qs →
    pool_step (w, ps1 ++ p :: ps2) (w', ps1 ++ p' :: ps2 ++ qs)
| pool_step_writer w o ps :
    fw_step (out w) o → pool_step (w, ps) (set_out o w, ps).

(** What a program learns from outside: an answer to [Input], or the result
    of a call of [send]. *)
Inductive answer :=
| InNat (n : nat)
| InSend (r : Result unit).

(** A run of one program on its own, given what it will learn; a spawned
    program runs first.  [None]: it panics, blocks, or learns something else. *)
Fixpoint run (p : prog) (w : world) (ins : list answer) :
  option (world * Result unit * list answer) :=
  match p with
  | Ret r => Some (w, r, ins)
  | Panic | Hang | Sending _ _ => None
  | Swap l k => run (k (cell w l)) (set_cell l w) ins
  | Load l k => run (k (cell w l)) w ins
  | Cancel l k => run k (set_cell l w) ins
  | Await l k => if cell w l then run k w ins else None
  | SendFrame l f k =>
    match ins with InSend r :: ins => run (k r) (begin_send l f w) ins | _ => None end
  | Input k =>
    match ins with InNat n :: ins => run (k n) w ins | _ => None end
  | Fork q k =>
    match run q w ins with
    | Some (w, _, ins) => run k w ins
    | None => None
    end
  end.
End Semantics.

#[global] Arguments world : clear implicits.

(** ** Lemmas *)
Section Lemmas.
Context `{TP : ThirdParty} {W : Type} `{!FrameWriter W}.
Implicit Types (w : world W) (p : prog).


Lemma cell_set_same w l : cell (set_cell l w) l = true.
Proof. unfold cell, set_cell. simpl. by rewrite lookup_insert_eq. Qed.

Lemma cell_set_ne w l l' : l ≠ l' → cell (set_cell l w) l' = cell w l'.
Proof. intros Hne. unfold cell, set_cell. simpl. by rewrite lookup_insert_ne. Qed.

Lemma cell_set_mono w l l' : cell w l' = true → cell (set_cell l w) l' = true.
Proof.
  destruct (decide (l = l')) as [->|Hne]; [by rewrite cell_set_same|by rewrite cell_set_ne].
Qed.

(** The run of a sequence. *)
Lemma run_bind p k w ins w1 r ins1 :
  run p w ins = Some (w1, r, ins1) → run (pbind p k) w ins = run (k r) w1 ins1.
Proof.
  revert w ins. induction p as [r0| | |l p IH|l p IH|l p IH|l p IH|l f p IH|t p IH|p IH|q IHq p IH];
    intros w ins Hr; cbn [run pbind] in *; try done; try (by apply IH).
  - by injection Hr as -> -> ->.
  - destruct (cell w l); [by apply IH|done].
  - destruct ins as [|[] ins]; [done|done|by apply IH].
  - destruct ins as [|[] ins]; [done|by apply IH|done].
  - destruct (run q w ins) as [[[w2 r2] ins2]|]; [by apply IH|done].
Qed.

Lemma run_bind_none p k w ins : run p w ins = None → run (pbind p k) w ins = None.
Proof.
  revert w ins. induction p as [r0| | |l p IH|l p IH|l p IH|l p IH|l f p IH|t p IH|p IH|q IHq p IH];
    intros w ins Hr; cbn [run pbind] in *; try done; try (by apply IH).
  - destruct (cell w l); [by apply IH|done].
  - destruct ins as [|[] ins]; [done|done|by apply IH].
  - destruct ins as [|[] ins]; [done|by apply IH|done].
  - destruct (run q w ins) as [[[w2 r2] ins2]|]; [by apply IH|done].
Qed.
End Lemmas.
