(* ===== verification/Schedule.v ===== *)
(** * Runs of one program are schedules

    [run] evaluates a program on its own, given what it will learn.  Here it
    is related to the semantics of pools: what it computes is what one
    schedule does on a writer that can let the calls return these results; the
    other programs of the pool stay where they are. *)

From S2P Require Import Prelude Errors WireFormat Writer Program.

(** ** Writers that serve a call *)

(** From a state that [serves], with [l] the frames served so far, the writer
    can run until a new call has returned one of the results it [allows]. *)
Class ServingWriter `{ThirdParty} (W : Type) `{!FrameWriter W} := {
  serves : list OutboundFrame → W → Prop;
  serves_frame : OutboundFrame → Prop;
  allows : Result unit → Prop;
  call_returns o l f r :
    serves l o → serves_frame f → allows r →
    ∃ o', rtc fw_step (fw_begin o f) o' ∧ fw_calls o' !! length (fw_calls o) = Some (f, Some r)
      ∧ serves (l ++ [f]) o'
}.

(** The writer whose calls return in any order serves every result. *)
#[export] Program Instance log_writer_serving `{ThirdParty} : ServingWriter LogWriter := {|
  serves _ _ := True;
  serves_frame _ := True;
  allows _ := True
|}.
Next Obligation.
  intros HT [cs] l f r _ _ _.
  assert (Hlook : (cs ++ [(f, None)]) !! length cs = Some (f, (None : option (Result unit)))).
  { by rewrite lookup_app_r, Nat.sub_diag. }
  exists {| lw_calls := <[length cs := (f, Some r)]> (cs ++ [(f, None)]) |}. split_and!; [|cbn|done].
  - apply rtc_once. exists (length cs), f, r. by split.
  - rewrite list_lookup_insert_eq; [done|]. by eapply lookup_lt_Some.
Qed.

(** What a run may learn on this writer. *)
Definition allowed_answer `{ThirdParty} {W} `{!FrameWriter W} `{!ServingWriter W} (a : answer) : Prop :=
  match a with InNat _ => True | InSend r => allows r end.

Section Schedule.
Context `{TP : ThirdParty} {W1 W : Type} `{!FrameWriter W1} `{!FrameWriter W} `{!ServingWriter W}.
Implicit Types (w : world W1) (v : world W) (p q : prog).

(** The same flags and tokens and the same history. *)
Record alike w v : Prop := { al_cells : cells w = cells v; al_sends : sends w = sends v }.

Lemma alike_cell w v l : alike w v → cell w l = cell v l.
Proof. intros [Hc _]. unfold cell. by rewrite Hc. Qed.

Lemma alike_set w v l : alike w v → alike (set_cell l w) (set_cell l v).
Proof. intros [Hc Hs]. split; cbn; congruence. Qed.

(** A call of [send] that has returned, the writer being in the state [o]. *)
Definition returned l f o v : world W := set_out o (begin_send l f v).

Lemma alike_returned w v l f o : alike w v → alike (begin_send l f w) (returned l f o v).
Proof. intros [Hc Hs]. split; cbn; congruence. Qed.

(** One step of the program, and what follows. *)
Lemma step_then v v1 p p1 ps1 ps2 c :
  pstep v p v1 p1 [] → rtc pool_step (v1, ps1 ++ p1 :: ps2) c →
  rtc pool_step (v, ps1 ++ p :: ps2) c.
Proof.
  intros Hst Hc. eapply rtc_l; [by apply (pool_step_intro v v1 p p1 [] ps1 ps2)|].
  by rewrite app_nil_r.
Qed.

(** The steps of the writer. *)
Lemma writer_then v o ps : rtc fw_step (out v) o → rtc pool_step (v, ps) (set_out o v, ps).
Proof.
  intros Ho. apply (rtc_ind_r (λ o, rtc pool_step (v, ps) (set_out o v, ps)) (out v)) in Ho;
    [done|..].
  - destruct v. apply rtc_refl.
  - intros o1 o2 _ Hst IH. eapply rtc_r; [exact IH|].
    exact (pool_step_writer (set_out o1 v) o2 ps Hst).
Qed.

(** The steps of a call that returns [r]. *)
Lemma send_steps v l f k r o ps1 ps2 :
  rtc fw_step (fw_begin (out v) f) o → fw_calls o !! next_call v = Some (f, Some r) →
  rtc pool_step (v, ps1 ++ SendFrame l f k :: ps2) (returned l f o v, ps1 ++ k r :: ps2).
Proof.
  intros Ho Hr. eapply step_then; [apply p_send|]. etrans; [by apply writer_then|].
  eapply step_then; [|apply rtc_refl]. apply p_sent. unfold call_result. cbn. by rewrite Hr.
Qed.

(** History only grows. *)
Lemma run_sends p :
  ∀ w ins w' r ins', run p w ins = Some (w', r, ins') → ∃ new, sends w' = sends w ++ new.
Proof.
  induction p as [r0| | |l k IH|l k IH|l k IH|l k IH|l f k IH|t k IH|k IH|q IHq k IHk];
    intros w ins w' r ins' Hrun; cbn [run] in Hrun; try done.
  - injection Hrun as -> -> _. exists []. by rewrite app_nil_r.
  - exact (IH _ _ _ _ _ _ Hrun).
  - exact (IH _ _ _ _ _ _ Hrun).
  - exact (IH _ _ _ _ _ Hrun).
  - destruct (cell w l); [by eapply IH|done].
  - destruct ins as [|[|res] ins]; [done|done|].
    destruct (IH _ _ _ _ _ _ Hrun) as [new H]. exists ((l, f) :: new).
    rewrite H. cbn. by rewrite <- app_assoc.
  - destruct ins as [|[n|] ins]; [done| |done]. by eapply IH.
  - destruct (run q w ins) as [[[w1 r1] ins1]|] eqn:Hq; [|done].
    destruct (IHq _ _ _ _ _ Hq) as [new1 H1], (IHk _ _ _ _ _ Hrun) as [new2 H2].
    exists (new1 ++ new2). by rewrite H2, H1, app_assoc.
Qed.

(** From a writer that has served [l], a run is a schedule; after it the writer
    has served the frames of the run as well. *)
Definition scheduled v (l : list OutboundFrame) p ps1 ps2 w' (r : Result unit) : Prop :=
  ∃ v' qs, rtc pool_step (v, ps1 ++ p :: ps2) (v', ps1 ++ Ret r :: ps2 ++ qs)
    ∧ alike w' v' ∧ Forall (λ q, ∃ r, q = Ret r) qs
    ∧ ∃ new, sends w' = sends v ++ new ∧ serves (l ++ new.*2) (out v').

(** A step of the program that sends nothing. *)
Lemma scheduled_step v v1 l p p1 ps1 ps2 w' r :
  pstep v p v1 p1 [] → sends v1 = sends v →
  scheduled v1 l p1 ps1 ps2 w' r → scheduled v l p ps1 ps2 w' r.
Proof.
  intros Hst Hsends (v' & qs & Hs & Hal & Hf & new & Hnew & Hserves). exists v', qs.
  split; [by eapply step_then|]. rewrite Hsends in Hnew. split_and!; [done|done|by exists new].
Qed.

Lemma run_schedule p :
  ∀ w v ins w' r ins' l ps1 ps2, run p w ins = Some (w', r, ins') → alike w v →
  serves l (out v) → Forall allowed_answer ins →
  Forall (λ e : loc * OutboundFrame, serves_frame e.2) (sends w') →
  scheduled v l p ps1 ps2 w' r ∧ Forall allowed_answer ins'.
Proof.
  induction p as [r0| | |c k IH|c k IH|c k IH|c k IH|c f k IH|t k IH|k IH|q IHq k IHk];
    intros w v ins w' r ins' l ps1 ps2 Hrun Hal Hv Hins Hfr; cbn [run] in Hrun; try done.
  - injection Hrun as -> -> ->. split; [|done]. exists v, []. rewrite app_nil_r.
    split_and!; [done..|]. exists []. by rewrite !app_nil_r, (al_sends _ _ Hal).
  - rewrite (alike_cell _ _ c Hal) in Hrun.
    destruct (IH _ _ (set_cell c v) _ _ _ _ l ps1 ps2 Hrun) as [Hs Hi]; [by apply alike_set|done..|].
    split; [|done]. by eapply scheduled_step; [apply p_swap| |].
  - rewrite (alike_cell _ _ c Hal) in Hrun.
    destruct (IH _ _ v _ _ _ _ l ps1 ps2 Hrun) as [Hs Hi]; [done..|].
    split; [|done]. by eapply scheduled_step; [apply p_load| |].
  - destruct (IH _ (set_cell c v) _ _ _ _ l ps1 ps2 Hrun) as [Hs Hi]; [by apply alike_set|done..|].
    split; [|done]. by eapply scheduled_step; [apply p_cancel| |].
  - destruct (cell w c) eqn:Hc; [|done]. rewrite (alike_cell _ _ c Hal) in Hc.
    destruct (IH _ v _ _ _ _ l ps1 ps2 Hrun) as [Hs Hi]; [done..|].
    split; [|done]. by eapply scheduled_step; [by apply p_await| |].
  - destruct ins as [|[|res] ins]; [done|done|]. apply Forall_cons in Hins as [Hres Hins].
    assert (Hf : serves_frame f).
    { destruct (run_sends _ _ _ _ _ _ Hrun) as [new Hnew]. rewrite Hnew in Hfr.
      cbn [begin_send sends] in Hfr. rewrite !Forall_app, Forall_singleton in Hfr. apply Hfr. }
    destruct (call_returns _ _ _ _ Hv Hf Hres) as (o & Ho & Hcall & Hserves).
    destruct (IH _ _ (returned c f o v) _ _ _ _ (l ++ [f]) ps1 ps2 Hrun)
      as [(v' & qs & Hs & Hal' & Hqs & new & Hnew & Hserves') Hi]; [by apply alike_returned|done..|].
    split; [|done]. exists v', qs. split; [|split_and!; [done|done|]].
    + etrans; [by apply send_steps|exact Hs].
    + exists ((c, f) :: new). cbn in Hnew. rewrite <- app_assoc in Hnew, Hserves'. by split.
  - destruct ins as [|[n|] ins]; [done| |done]. apply Forall_cons in Hins as [_ Hins].
    destruct (IH _ _ v _ _ _ _ l ps1 ps2 Hrun) as [Hs Hi]; [done..|].
    split; [|done]. by eapply scheduled_step; [apply p_input| |].
  - destruct (run q w ins) as [[[w1 r1] ins1]|] eqn:Hq; [|done].
    assert (Hfr1 : Forall (λ e : loc * OutboundFrame, serves_frame e.2) (sends w1)).
    { destruct (run_sends _ _ _ _ _ _ Hrun) as [new Hnew]. rewrite Hnew, Forall_app in Hfr.
      apply Hfr. }
    destruct (IHq _ _ _ _ _ _ l (ps1 ++ k :: ps2) [] Hq Hal Hv Hins Hfr1)
      as [(v1 & qs1 & Hs1 & Hal1 & Hf1 & new1 & Hnew1 & Hserves1) Hins1].
    destruct (IHk _ _ _ _ _ _ _ ps1 (ps2 ++ Ret r1 :: qs1) Hrun Hal1 Hserves1 Hins1 Hfr)
      as [(v' & qs & Hs & Hal' & Hf & new2 & Hnew2 & Hserves2) Hins2].
    split; [|done]. exists v', (Ret r1 :: qs1 ++ qs). split_and!; [|done| |].
    + eapply rtc_l; [apply (pool_step_intro v v (Fork q k) k [q] ps1 ps2), p_fork|].
      cbn [app] in Hs1. rewrite <- !app_assoc in Hs1. cbn [app] in Hs1.
      etrans; [exact Hs1|]. rewrite <- !app_assoc in Hs. exact Hs.
    + constructor; [by exists r1|by apply Forall_app].
    + exists (new1 ++ new2). rewrite <- (al_sends _ _ Hal1), Hnew1 in Hnew2.
      rewrite fmap_app. by rewrite !app_assoc in *.
Qed.
End Schedule.

(** ** Properties *)

(** What [run] computes happens.  Whenever a program run on its own
    returns, there is a schedule of the pool it belongs to that brings it to
    the same result, with the same cells, the same frames passed to [send] in
    the same order, every program it spawned returned, and the other programs
    of the pool untouched. *)
Theorem run_is_a_schedule `{TP : ThirdParty} (p : prog) (w w' : world LogWriter)
  (ins ins' : list answer) (r : Result unit) (ps1 ps2 : list prog) :
  run p w ins = Some (w', r, ins') →
  ∃ v' qs, rtc pool_step (w, ps1 ++ p :: ps2) (v', ps1 ++ Ret r :: ps2 ++ qs)
    ∧ cells v' = cells w' ∧ sends v' = sends w' ∧ Forall (λ q, ∃ r, q = Ret r) qs.
Proof.
  intros Hrun. destruct (run_schedule p w w ins w' r ins' [] ps1 ps2 Hrun)
    as [(v' & qs & Hs & [Hc Hl] & Hf & _) _]; [done|done|..|by exists v', qs].
  - apply Forall_true. by intros [].
  - by apply Forall_true.
Qed.

Section Demo.
#[local] Existing Instance string_errors.

Lemma run_is_a_schedule_witness :
  let f := new_outbound (new_header 1 3 42 2) [1; 2] in
  let w : world LogWriter := {| cells := ∅; out := {| lw_calls := [] |}; sends := [] |} in
  let p := Fork (Swap 5 (λ _, Ret (Ok tt))) (SendFrame 2 f Ret) in
  ∃ v' qs, rtc pool_step (w, [Hang; p]) (v', [Hang; Ret (Ok tt)] ++ qs)
    ∧ cells v' = {[5%nat := true]} ∧ sends v' = [(2%nat, f)] ∧ Forall (λ q, ∃ r, q = Ret r) qs.
Proof.
  intros f w p.
  exact (run_is_a_schedule p w _ [InSend (Ok tt)] [] (Ok tt) [Hang] [] eq_refl).
Defined.
End Demo.
