(* ===== verification/Context.v ===== *)
(** * Request contexts (src/handler/context.rs)

    The methods of [RequestContext] as programs.  A context and its clones
    share the [responded] flag and the cancellation token, which are cells of
    the shared state. *)

From S2P Require Import Prelude Errors WireFormat Codec Writer Init Program.

Record RequestContext := {
  ctx_method_id : u16;
  ctx_request_id : u32;
  ctx_response_type : ResponseType;
  ctx_writer : bool;             (* [Some(handle)]; there is one writer *)
  ctx_token : loc;               (* [cancellation_token] *)
  ctx_responded : loc            (* [responded: Arc<AtomicBool>] *)
}.

#[export] Instance request_context_eq_dec : EqDecision RequestContext.
Proof. solve_decision. Defined.

(** ** Constructors; [token] and [responded] are freshly allocated cells,
    except that [with_writer_and_token] is given its token. *)

Definition new_context (method_id : u16) (request_id : u32) (token responded : loc) :=
  {| ctx_method_id := method_id; ctx_request_id := request_id;
     ctx_response_type := RtResult; ctx_writer := false;
     ctx_token := token; ctx_responded := responded |}.

Definition with_writer (method_id : u16) (request_id : u32) (token responded : loc) :=
  {| ctx_method_id := method_id; ctx_request_id := request_id;
     ctx_response_type := RtResult; ctx_writer := true;
     ctx_token := token; ctx_responded := responded |}.

Definition with_response_type (c : RequestContext) (response_type : ResponseType) :=
  {| ctx_method_id := ctx_method_id c; ctx_request_id := ctx_request_id c;
     ctx_response_type := response_type; ctx_writer := ctx_writer c;
     ctx_token := ctx_token c; ctx_responded := ctx_responded c |}.

Definition with_writer_and_token (method_id : u16) (request_id : u32)
  (response_type : ResponseType) (token responded : loc) :=
  {| ctx_method_id := method_id; ctx_request_id := request_id;
     ctx_response_type := response_type; ctx_writer := true;
     ctx_token := token; ctx_responded := responded |}.

(** ** Methods *)
Section Methods.
Context `{TP : ThirdParty} (c : RequestContext).

Definition has_responded (k : bool → prog) : prog := Load (ctx_responded c) k.
Definition is_cancelled (k : bool → prog) : prog := Load (ctx_token c) k.
Definition cancelled (k : prog) : prog := Await (ctx_token c) k.
Definition cancellation_token : loc := ctx_token c.
Definition cancel (k : prog) : prog := Cancel (ctx_token c) k.

Definition mark_responded : prog :=
  Swap (ctx_responded c) (λ already,
    Ret (if already then Err ResponseAlreadySent else Ok tt)).

Definition send_frame (frame_flags : u8) (payload : bytes) : prog :=
  if ctx_writer c then
    let header :=
      new_header (ctx_method_id c) frame_flags (ctx_request_id c) (wrap 32 (zlen payload)) in
    SendFrame (ctx_responded c) (new_outbound header payload) Ret
  else Ret (Ok tt).

Definition send_frame_empty (frame_flags : u8) : prog :=
  if ctx_writer c then
    let header := new_header (ctx_method_id c) frame_flags (ctx_request_id c) 0 in
    SendFrame (ctx_responded c) (empty_outbound header) Ret
  else Ret (Ok tt).

Definition respond {T} `{!Serialize T} (payload : T) : prog :=
  ptry mark_responded (try_ok (msgpack_encode payload) (send_frame flags.RESPONSE)).

Definition respond_raw (payload : bytes) : prog :=
  ptry mark_responded (send_frame flags.RESPONSE payload).

Definition respond_bytes (payload : bytes) : prog :=
  ptry mark_responded (send_frame flags.RESPONSE payload).

Definition ack : prog := ptry mark_responded (send_frame_empty flags.ACK_RESPONSE).

Definition chunk {T} `{!Serialize T} (payload : T) : prog :=
  try_ok (msgpack_encode payload) (send_frame flags.STREAM_CHUNK).

Definition chunk_raw (payload : bytes) : prog := send_frame flags.STREAM_CHUNK payload.
Definition chunk_bytes (payload : bytes) : prog := send_frame flags.STREAM_CHUNK payload.

Definition end_stream : prog :=
  ptry mark_responded (send_frame_empty flags.STREAM_END_RESPONSE).

Definition error_flags : u8 :=
  if decide (ctx_response_type c = RtStream) then flags.STREAM_ERROR_RESPONSE
  else flags.ERROR_RESPONSE.

Definition error `{!Serialize string} (message : string) : prog :=
  ptry mark_responded (try_ok (msgpack_encode message) (send_frame error_flags)).

Definition error_with {T} `{!Serialize T} (e : T) : prog :=
  ptry mark_responded (try_ok (msgpack_encode e) (send_frame error_flags)).

(** ** What code outside the module can do with a context

    The fields, [mark_responded], [send_frame] and [send_frame_empty] are
    private: handler code reaches the shared state only through the public
    methods, on the context or its clones. *)

(** The methods that send. *)
Inductive ctx_call : prog → Prop :=
| cc_respond {T} `{!Serialize T} (v : T) : ctx_call (respond v)
| cc_respond_raw p : ctx_call (respond_raw p)
| cc_respond_bytes p : ctx_call (respond_bytes p)
| cc_ack : ctx_call ack
| cc_chunk {T} `{!Serialize T} (v : T) : ctx_call (chunk v)
| cc_chunk_raw p : ctx_call (chunk_raw p)
| cc_chunk_bytes p : ctx_call (chunk_bytes p)
| cc_end : ctx_call end_stream
| cc_error `{!Serialize string} m : ctx_call (error m)
| cc_error_with {T} `{!Serialize T} (e : T) : ctx_call (error_with e).

(** Code that uses the context through its methods only. *)
Inductive uses_ctx : prog → Prop :=
| uc_ret r : uses_ctx (Ret r)
| uc_panic : uses_ctx Panic
| uc_hang : uses_ctx Hang
| uc_call p k : ctx_call p → (∀ r, uses_ctx (k r)) → uses_ctx (pbind p k)
| uc_has_responded k : (∀ b, uses_ctx (k b)) → uses_ctx (has_responded k)
| uc_is_cancelled k : (∀ b, uses_ctx (k b)) → uses_ctx (is_cancelled k)
| uc_cancelled k : uses_ctx k → uses_ctx (cancelled k)
| uc_cancel k : uses_ctx k → uses_ctx (cancel k)
| uc_input k : (∀ n, uses_ctx (k n)) → uses_ctx (Input k)
| uc_fork p k : uses_ctx p → uses_ctx k → uses_ctx (Fork p k).
End Methods.

(** [RawPayload]. *)
Record RawPayload := { raw_bytes : bytes }.
Definition new_raw_payload (b : bytes) : RawPayload := {| raw_bytes := b |}.
Definition raw_as_bytes (p : RawPayload) : bytes := raw_bytes p.
Definition raw_into_bytes (p : RawPayload) : bytes := raw_bytes p.

(** ** Specification *)

(** The flag byte of an outbound frame, and whether the frame ends a request:
    every response does but a stream chunk. *)
Definition ob_flags (f : OutboundFrame) : u8 := byte_at (ob_header f) 2.

Definition is_terminal (f : OutboundFrame) : bool :=
  let fl := ob_flags f in
  flags.has_flag fl flags.IS_RESPONSE
  && negb (flags.has_flag fl flags.IS_STREAM
           && negb (flags.has_flag fl flags.STREAM_END)
           && negb (flags.has_flag fl flags.IS_ERROR)).

(** The frames of one request, and the terminal ones among them. *)
Definition sent_by (l : loc) (log : list (loc * OutboundFrame)) : list OutboundFrame :=
  omap (λ e : loc * OutboundFrame, if decide (e.1 = l) then Some e.2 else None) log.

Definition terminals (l : loc) (log : list (loc * OutboundFrame)) : list OutboundFrame :=
  filter is_terminal (sent_by l log).

(** The frames a context can send. *)
Definition ctx_frame (c : RequestContext) (f : OutboundFrame) : Prop :=
  ∃ fl p,
    fl ∈ [flags.RESPONSE; flags.ACK_RESPONSE; flags.STREAM_CHUNK;
          flags.STREAM_END_RESPONSE; error_flags c]
    ∧ f = new_outbound
        (new_header (ctx_method_id c) fl (ctx_request_id c) (wrap 32 (zlen p))) p.

(** The calls that end a request, with the flags and payload of their frame. *)
Inductive terminal_call `{ThirdParty} (c : RequestContext) : prog → u8 → Result bytes → Prop :=
| tc_respond {T} `{!Serialize T} (v : T) :
    terminal_call c (respond c v) flags.RESPONSE (msgpack_encode v)
| tc_respond_raw p : terminal_call c (respond_raw c p) flags.RESPONSE (Ok p)
| tc_respond_bytes p : terminal_call c (respond_bytes c p) flags.RESPONSE (Ok p)
| tc_ack : terminal_call c (ack c) flags.ACK_RESPONSE (Ok [])
| tc_end : terminal_call c (end_stream c) flags.STREAM_END_RESPONSE (Ok [])
| tc_error `{!Serialize string} m :
    terminal_call c (error c m) (error_flags c) (msgpack_encode m)
| tc_error_with {T} `{!Serialize T} (e : T) :
    terminal_call c (error_with c e) (error_flags c) (msgpack_encode e).

(** The calls that send a chunk. *)
Inductive chunk_call `{ThirdParty} (c : RequestContext) : prog → Result bytes → Prop :=
| ck_chunk {T} `{!Serialize T} (v : T) : chunk_call c (chunk c v) (msgpack_encode v)
| ck_chunk_raw p : chunk_call c (chunk_raw c p) (Ok p)
| ck_chunk_bytes p : chunk_call c (chunk_bytes c p) (Ok p).

(** ** Programs that respect the one-terminal-frame rule of a request

    A program may send a terminal frame of request [l] only right after a
    [swap] on its flag that returned [false]. *)
Section Rule.
Context `{TP : ThirdParty}.

Definition harmless (l l' : loc) (f : OutboundFrame) : Prop := l' ≠ l ∨ is_terminal f = false.

Inductive inert (l : loc) : prog → Prop :=
| in_ret r : inert l (Ret r)
| in_panic : inert l Panic
| in_hang : inert l Hang
| in_swap l' k : inert l (k true) → inert l (k false) → inert l (Swap l' k)
| in_swap_send k f k' :
    inert l (k true) → k false = SendFrame l f k' → (∀ r, inert l (k' r)) →
    inert l (Swap l k)
| in_load l' k : (∀ b, inert l (k b)) → inert l (Load l' k)
| in_cancel l' k : inert l k → inert l (Cancel l' k)
| in_await l' k : inert l k → inert l (Await l' k)
| in_send l' f k : harmless l l' f → (∀ r, inert l (k r)) → inert l (SendFrame l' f k)
| in_sending t k : (∀ r, inert l (k r)) → inert l (Sending t k)
| in_input k : (∀ n, inert l (k n)) → inert l (Input k)
| in_fork p k : inert l p → inert l k → inert l (Fork p k).

(** A program in the middle of a terminal call. *)
Definition armed (l : loc) (p : prog) : Prop :=
  ∃ f k, p = SendFrame l f k ∧ ∀ r, inert l (k r).

(** Every frame a program sends satisfies [P], and every cell it sets [Q]. *)
Inductive actions_ok (P : loc → OutboundFrame → Prop) (Q : loc → Prop) : prog → Prop :=
| as_ret r : actions_ok P Q (Ret r)
| as_panic : actions_ok P Q Panic
| as_hang : actions_ok P Q Hang
| as_swap l k : Q l → (∀ b, actions_ok P Q (k b)) → actions_ok P Q (Swap l k)
| as_load l k : (∀ b, actions_ok P Q (k b)) → actions_ok P Q (Load l k)
| as_cancel l k : Q l → actions_ok P Q k → actions_ok P Q (Cancel l k)
| as_await l k : actions_ok P Q k → actions_ok P Q (Await l k)
| as_send l f k : P l f → (∀ r, actions_ok P Q (k r)) → actions_ok P Q (SendFrame l f k)
| as_sending t k : (∀ r, actions_ok P Q (k r)) → actions_ok P Q (Sending t k)
| as_input k : (∀ n, actions_ok P Q (k n)) → actions_ok P Q (Input k)
| as_fork p k : actions_ok P Q p → actions_ok P Q k → actions_ok P Q (Fork p k).
End Rule.

#[export] Hint Constructors inert actions_ok : procwire.

(** What code that uses a context does to the shared state. *)
Abbreviation ctx_actions c :=
  (actions_ok (λ l f, l = ctx_responded c ∧ ctx_frame c f)
              (λ l, l = ctx_token c ∨ l = ctx_responded c)).

(** The frames only. *)
Abbreviation all_sends P := (actions_ok P (λ _, True)).

(** ** Lemmas *)
Section Lemmas.
Context `{TP : ThirdParty} {W : Type} `{!FrameWriter W} `{!FrameWriterOk W}.
Implicit Types (p : prog) (w : world W).

Lemma inert_bind l p k : inert l p → (∀ r, inert l (k r)) → inert l (pbind p k).
Proof.
  intros Hp Hk. induction Hp as [| | | |k0 f k' _ IHt Hf _ IHs| | | | | | |]; cbn [pbind];
    auto with procwire.
  eapply in_swap_send; [done|by rewrite Hf|]. intros r. apply IHs.
Qed.

Lemma actions_ok_bind P Q p k :
  actions_ok P Q p → (∀ r, actions_ok P Q (k r)) → actions_ok P Q (pbind p k).
Proof. intros Hp Hk. induction Hp; cbn [pbind]; auto with procwire. Qed.

Lemma actions_ok_impl (P P' : loc → OutboundFrame → Prop) (Q Q' : loc → Prop) p :
  (∀ l f, P l f → P' l f) → (∀ l, Q l → Q' l) → actions_ok P Q p → actions_ok P' Q' p.
Proof. intros HP HQ. induction 1; auto with procwire. Qed.

(** Programs of other requests do not matter. *)
Lemma all_sends_inert l p : all_sends (λ l' _, l' ≠ l) p → inert l p.
Proof.
  induction 1; auto with procwire. apply in_send; [by left|done].
Qed.

Lemma ob_flags_new h pl : ob_flags (new_outbound h pl) = hflags h.
Proof. unfold ob_flags, new_outbound, byte_at. cbn [ob_header]. by rewrite encode_eq. Qed.

Lemma is_terminal_new h pl h' pl' :
  hflags h = hflags h' → is_terminal (new_outbound h pl) = is_terminal (new_outbound h' pl').
Proof. intros Hf. unfold is_terminal. by rewrite !ob_flags_new, Hf. Qed.

(** [send_frame_empty] is [send_frame] on the empty payload. *)
Lemma send_frame_empty_eq c fl : send_frame_empty c fl = send_frame c fl [].
Proof. done. Qed.

Lemma send_frame_sends (P : loc → OutboundFrame → Prop) Q c fl pl :
  P (ctx_responded c) (new_outbound
    (new_header (ctx_method_id c) fl (ctx_request_id c) (wrap 32 (zlen pl))) pl) →
  actions_ok P Q (send_frame c fl pl).
Proof. intros HP. unfold send_frame. destruct (ctx_writer c); auto with procwire. Qed.

(** The shape shared by the terminal calls. *)
Lemma terminal_shape c fl (body : Result bytes) l :
  inert l (ptry (mark_responded c) (try_ok body (send_frame c fl))).
Proof.
  unfold ptry, mark_responded. cbn [pbind].
  destruct body as [d|e]; cbn [try_ok]; [|by auto with procwire].
  destruct (send_frame c fl d) as [| | | | | | |l' f k| | |] eqn:Hs; unfold send_frame in Hs;
    destruct (ctx_writer c); simplify_eq; [by auto with procwire|].
  destruct (decide (ctx_responded c = l)) as [<-|Hne].
  - eapply in_swap_send; cbn; auto with procwire.
  - apply in_swap; cbn; [by auto with procwire|].
    apply in_send; [by left|auto with procwire].
Qed.

Lemma terminal_call_shape c p fl body :
  terminal_call c p fl body → p = ptry (mark_responded c) (try_ok body (send_frame c fl)).
Proof. by intros []. Qed.

Lemma chunk_call_shape c p body :
  chunk_call c p body → p = try_ok body (send_frame c flags.STREAM_CHUNK).
Proof. by intros []. Qed.

(** A call either ends the request or sends a chunk. *)
Lemma ctx_call_cases c p :
  ctx_call c p → (∃ fl body, terminal_call c p fl body) ∨ (∃ body, chunk_call c p body).
Proof. intros []; eauto using @terminal_call, @chunk_call. Qed.

Lemma terminal_call_flags c p fl body :
  terminal_call c p fl body →
  fl ∈ [flags.RESPONSE; flags.ACK_RESPONSE; flags.STREAM_CHUNK;
        flags.STREAM_END_RESPONSE; error_flags c].
Proof. intros []; set_solver. Qed.

Lemma chunk_shape c (body : Result bytes) l :
  inert l (try_ok body (send_frame c flags.STREAM_CHUNK)).
Proof.
  destruct body as [d|e]; cbn [try_ok]; [|by auto with procwire].
  unfold send_frame. destruct (ctx_writer c); [|by auto with procwire].
  apply in_send; [|by auto with procwire]. right. unfold is_terminal. by rewrite ob_flags_new.
Qed.

Lemma ctx_call_inert c l p : ctx_call c p → inert l p.
Proof.
  intros [(fl & b & ->%terminal_call_shape)|(b & ->%chunk_call_shape)]%ctx_call_cases;
    [apply terminal_shape|apply chunk_shape].
Qed.

Lemma ctx_call_actions c p : ctx_call c p → ctx_actions c p.
Proof.
  assert (Hsend : ∀ fl (body : Result bytes),
    fl ∈ [flags.RESPONSE; flags.ACK_RESPONSE; flags.STREAM_CHUNK;
          flags.STREAM_END_RESPONSE; error_flags c] →
    ctx_actions c (try_ok body (send_frame c fl))).
  { intros fl [d|e] Hfl; cbn [try_ok]; [|by auto with procwire].
    apply send_frame_sends. split; [done|]. by exists fl, d. }
  intros [(fl & b & Hc)|(b & ->%chunk_call_shape)]%ctx_call_cases.
  - rewrite (terminal_call_shape _ _ _ _ Hc). apply terminal_call_flags in Hc.
    unfold ptry, mark_responded. cbn [pbind]. apply as_swap; [by right|].
    intros []; auto with procwire.
  - apply Hsend. set_solver.
Qed.

Lemma uses_ctx_inert c l p : uses_ctx c p → inert l p.
Proof.
  induction 1; unfold has_responded, is_cancelled, cancelled, cancel; auto with procwire.
  apply inert_bind; [by eapply ctx_call_inert|done].
Qed.

Lemma uses_ctx_actions c p : uses_ctx c p → ctx_actions c p.
Proof.
  induction 1; unfold has_responded, is_cancelled, cancelled, cancel; auto with procwire.
  apply actions_ok_bind; [by eapply ctx_call_actions|done].
Qed.

(** *** Steps *)

Lemma pstep_cell w p w' p' qs l :
  pstep w p w' p' qs → cell w l = true → cell w' l = true.
Proof.
  intros Hst Hc. destruct Hst; try exact Hc; by apply cell_set_mono.
Qed.

(** One action of a program that keeps its promises. *)
Lemma pstep_actions P Q w p w' p' qs :
  pstep w p w' p' qs → actions_ok P Q p → Forall (λ e, P e.1 e.2) (sends w) →
  Forall (λ e, P e.1 e.2) (sends w') ∧ actions_ok P Q p' ∧ Forall (actions_ok P Q) qs
  ∧ ∀ l, ¬ Q l → cell w' l = cell w l.
Proof.
  assert (Hset : ∀ l l' : loc, Q l → ¬ Q l' → cell (set_cell l w) l' = cell w l').
  { intros l l' Hl Hl'. apply cell_set_ne. by intros ->. }
  intros Hst Hp Hw. destruct Hst; inversion Hp; subst; split_and!; auto with procwire.
  apply Forall_app. by repeat constructor.
Qed.

(** One action and the state of the writer. *)
Lemma pstep_out P Q (R : W → W → Prop) w p w' p' qs :
  (∀ o, R o o) → (∀ l f o, P l f → R o (fw_begin o f)) →
  pstep w p w' p' qs → actions_ok P Q p → R (out w) (out w').
Proof.
  intros Hrefl Hsend Hst Hp. destruct Hst; inversion Hp; subst; try apply Hrefl.
  by eapply Hsend.
Qed.

(** The history is what the writer has been handed. *)
Lemma pstep_calls w p w' p' qs (cs : list OutboundFrame) :
  pstep w p w' p' qs → (fw_calls (out w)).*1 = cs ++ (sends w).*2 →
  (fw_calls (out w')).*1 = cs ++ (sends w').*2.
Proof.
  intros Hst Hw. destruct Hst; try exact Hw. cbn.
  by rewrite fw_calls_begin, !fmap_app, Hw, <- app_assoc.
Qed.

Lemma terminals_app l log1 log2 : terminals l (log1 ++ log2) = terminals l log1 ++ terminals l log2.
Proof. unfold terminals, sent_by. by rewrite omap_app, filter_app. Qed.

(** Terminal frames a program is about to send. *)
Definition about_to_send (l : loc) p : nat :=
  match p with
  | SendFrame l' f _ => length (terminals l [(l', f)])
  | _ => 0
  end.

Lemma harmless_terminals l l' f : harmless l l' f → terminals l [(l', f)] = [].
Proof.
  intros Hh. unfold terminals, sent_by. cbn. case_decide as Hd; [|done].
  destruct Hh as [?|Hh]; [done|]. cbn. rewrite Hh. by rewrite decide_False by auto.
Qed.

Lemma inert_about l p : inert l p → about_to_send l p = 0%nat.
Proof.
  destruct 1 as [| | | | | | | |? ? ? Hh| | |]; try done.
  cbn [about_to_send]. by rewrite harmless_terminals.
Qed.

Lemma terminals_one l l' f : (length (terminals l [(l', f)]) ≤ 1)%nat.
Proof.
  unfold terminals, sent_by. cbn. case_decide; [|simpl; lia]. rewrite filter_cons.
  case_decide; simpl; lia.
Qed.

Definition obeys (l : loc) p : Prop := inert l p ∨ armed l p.

(** What one action does to the terminal frames of a request. *)
Lemma pstep_terminals l w p w' p' qs :
  pstep w p w' p' qs → obeys l p →
  obeys l p' ∧ Forall (inert l) qs
  ∧ (length (terminals l (sends w')) + about_to_send l p'
     ≤ length (terminals l (sends w)) + about_to_send l p
       + (Nat.b2n (cell w' l) - Nat.b2n (cell w l)))%nat.
Proof.
  intros Hst Hp.
  destruct Hst as [l1 k|l1 k|l1 k|l1 k Hc|l1 f k|t k r Hc|n k|q k].
  5: {
    assert (Hk : inert l (Sending (next_call w) k)).
    { apply in_sending.
      destruct Hp as [Hp|(f' & k' & [= -> -> ->] & Hk)]; [by inversion Hp|done]. }
    split_and!; [by left|done|]. cbn [about_to_send sends begin_send].
    rewrite terminals_app, length_app. lia. }
  all: destruct Hp as [Hp|(f' & k' & [=] & Hk)]; cbn [about_to_send].
  1: {
    inversion Hp as [| | |? ? Ht Hf|? f k' Ht Hf Hk'| | | | | | |]; subst.
    - assert (Hk : inert l (k (cell w l1))) by (by destruct (cell w l1)).
      split_and!; [by left|done|]. rewrite (inert_about _ _ Hk). cbn [sends set_cell]. lia.
    - destruct (cell w l1) eqn:Hc.
      + split_and!; [by left|done|]. rewrite (inert_about _ _ Ht). cbn [sends set_cell]. lia.
      + rewrite Hf. split_and!; [right; by exists f, k'|done|]. rewrite cell_set_same.
        cbn [sends set_cell about_to_send Nat.b2n].
        pose proof (terminals_one l1 l1 f). lia. }
  all: inversion Hp; subst;
    match goal with
    | |- obeys ?l0 ?p0 ∧ _ => assert (Hk : inert l0 p0) by auto
    end;
    split_and!; [by left|by auto|rewrite (inert_about _ _ Hk); cbn [sends set_cell]; lia].
Qed.

(** The rule as an invariant of a pool. *)
Definition rule (l : loc) (x : world W * list prog) : Prop :=
  Forall (obeys l) x.2
  ∧ (length (terminals l (sends x.1)) + sum_list_with (about_to_send l) x.2
     ≤ Nat.b2n (cell x.1 l))%nat.

Lemma pool_step_rule l x y : pool_step x y → rule l x → rule l y.
Proof.
  intros [w w' p p' qs ps1 ps2 Hst|w o ps Hst] [Ho Hc]; [|by split].
  unfold rule in *. cbn [fst snd] in *.
  apply Forall_app in Ho as [Ho1 [Hp Ho2]%Forall_cons].
  destruct (pstep_terminals l _ _ _ _ _ Hst Hp) as (Hp' & Hqs & Hle).
  split.
  - apply Forall_app_2; [done|]. apply Forall_cons_2; [done|]. apply Forall_app_2; [done|].
    eapply Forall_impl; [exact Hqs|]. intros q Hq. by left.
  - assert (Hz : sum_list_with (about_to_send l) qs = 0%nat).
    { clear -Hqs. induction Hqs as [|q qs Hq _ IH]; [done|]. simpl.
      by rewrite (inert_about _ _ Hq), IH. }
    rewrite !sum_list_with_app in *. simpl in *. rewrite sum_list_with_app, Hz.
    assert (Nat.b2n (cell w l) ≤ Nat.b2n (cell w' l))%nat.
    { destruct (cell w l) eqn:Hw; [|simpl; lia].
      by rewrite (pstep_cell _ _ _ _ _ _ Hst Hw). }
    lia.
Qed.

Lemma pool_steps_rule l x y : rtc pool_step x y → rule l x → rule l y.
Proof. induction 1; eauto using pool_step_rule. Qed.

Lemma inert_rule l w ps :
  Forall (inert l) ps → terminals l (sends w) = [] → rule l (w, ps).
Proof.
  intros Hps Hw. split; cbn [fst snd].
  - eapply Forall_impl; [exact Hps|]. intros p Hp. by left.
  - rewrite Hw. assert (Hz : sum_list_with (about_to_send l) ps = 0%nat); [|simpl; lia].
    clear -Hps. induction Hps as [|q qs Hq _ IH]; [done|]. simpl.
    by rewrite (inert_about _ _ Hq), IH.
Qed.

Lemma pool_steps_sends (P : loc → OutboundFrame → Prop) x y :
  rtc pool_step x y → Forall (all_sends P) x.2 → Forall (λ e, P e.1 e.2) (sends x.1) →
  Forall (λ e, P e.1 e.2) (sends y.1).
Proof.
  induction 1 as [|x y z Hst _ IH]; intros Hps Hw; [done|].
  destruct Hst as [w w' p p' qs ps1 ps2 Hst|w o ps Hst]; [|by apply IH].
  cbn [fst snd] in *.
  apply Forall_app in Hps as [Hps1 [Hp Hps2]%Forall_cons].
  destruct (pstep_actions P _ _ _ _ _ _ Hst Hp Hw) as (Hw' & Hp' & Hqs & _).
  apply IH; [|done]. by repeat first [apply Forall_app_2|apply Forall_cons_2].
Qed.

(** *** Runs of single calls *)

Lemma set_cell_id l w : cell w l = true → set_cell l w = w.
Proof.
  destruct w as [cs o log]. unfold cell, set_cell. cbn. intros Hc.
  rewrite insert_id; [done|]. by destruct (cs !! l) as [[]|].
Qed.

(** What a call does after the flag. *)
Definition transmit c fl (body : Result bytes) w (ins : list answer) :
  option (world W * Result unit * list answer) :=
  match body with
  | Err e => Some (w, Err e, ins)
  | Ok d =>
    if ctx_writer c then
      match ins with
      | InSend r :: ins =>
        Some (begin_send (ctx_responded c) (new_outbound
          (new_header (ctx_method_id c) fl (ctx_request_id c) (wrap 32 (zlen d))) d) w, r, ins)
      | _ => None
      end
    else Some (w, Ok tt, ins)
  end.

Lemma run_send_frame c fl (body : Result bytes) w ins :
  run (try_ok body (send_frame c fl)) w ins = transmit c fl body w ins.
Proof.
  destruct body as [d|e]; cbn [try_ok transmit]; [|done]. unfold send_frame.
  by destruct (ctx_writer c).
Qed.

Lemma run_terminal c p fl body w ins :
  terminal_call c p fl body →
  run p w ins =
    if cell w (ctx_responded c) then Some (w, Err ResponseAlreadySent, ins)
    else transmit c fl body (set_cell (ctx_responded c) w) ins.
Proof.
  intros ->%terminal_call_shape. unfold ptry, mark_responded. cbn [pbind run].
  destruct (cell w (ctx_responded c)) eqn:Hc; [by rewrite set_cell_id|].
  apply run_send_frame.
Qed.

Lemma run_chunk c p body w ins :
  chunk_call c p body → run p w ins = transmit c flags.STREAM_CHUNK body w ins.
Proof. intros ->%chunk_call_shape. apply run_send_frame. Qed.
End Lemmas.

(** The Rust types of the identifiers. *)
Definition ctx_wf (c : RequestContext) : Prop :=
  fits 16 (ctx_method_id c) ∧ fits 32 (ctx_request_id c).

Lemma ctx_flags_fit c fl :
  fl ∈ [flags.RESPONSE; flags.ACK_RESPONSE; flags.STREAM_CHUNK;
        flags.STREAM_END_RESPONSE; error_flags c] → fits 8 fl.
Proof.
  unfold error_flags. rewrite !elem_of_cons, elem_of_nil.
  intros [->|[->|[->|[->|[->|[]]]]]]; [..|case_decide]; split; vm_compute; congruence.
Qed.

Lemma ctx_flags_response c fl :
  fl ∈ [flags.RESPONSE; flags.ACK_RESPONSE; flags.STREAM_CHUNK;
        flags.STREAM_END_RESPONSE; error_flags c] → flags.has_flag fl flags.IS_RESPONSE = true.
Proof.
  unfold error_flags. rewrite !elem_of_cons, elem_of_nil.
  intros [->|[->|[->|[->|[->|[]]]]]]; [..|case_decide]; done.
Qed.

Lemma ctx_frame_header c f :
  ctx_wf c → ctx_frame c f →
  ∃ h, decode (ob_header f) = Some h ∧ header_wf h
    ∧ method_id h = ctx_method_id c ∧ request_id h = ctx_request_id c
    ∧ hflags h ∈ [flags.RESPONSE; flags.ACK_RESPONSE; flags.STREAM_CHUNK;
                  flags.STREAM_END_RESPONSE; error_flags c]
    ∧ payload_length h = wrap 32 (zlen (ob_payload f)).
Proof.
  intros [Hm Hr] (fl & p & Hfl & ->). eexists. cbn [new_outbound ob_header ob_payload].
  set (h := new_header _ _ _ _).
  assert (Hwf : header_wf h).
  { split; cbn; [done|by eapply ctx_flags_fit|done|]. by apply wrap_fits. }
  rewrite encode_eq, <- (app_nil_r (header_layout h)). by rewrite decode_layout.
Qed.

(** ** Properties *)

(** However the handler's code, its spawned tasks and everybody else's
    programs interleave, and whatever the writer answers, at most one terminal
    frame of a request is passed to [send], and only after its flag is
    set; every frame the context's code sends carries the method and request
    id of the context, one of the six response flag bytes (an error frame
    tagged as stream exactly for stream methods), and the length of its
    payload modulo 2^32. *)
Theorem one_terminal_frame `{TP : ThirdParty} {W} `{!FrameWriter W}
  (c : RequestContext) (p : prog) (others : list prog) (w w' : world W) (ps : list prog) :
  ctx_wf c → uses_ctx c p → Forall (all_sends (λ l _, l ≠ ctx_responded c)) others →
  sends w = [] →
  rtc pool_step (w, p :: others) (w', ps) →
  (length (terminals (ctx_responded c) (sends w')) ≤ Nat.b2n (cell w' (ctx_responded c)))%nat
  ∧ ∀ f, f ∈ sent_by (ctx_responded c) (sends w') →
    ∃ h, decode (ob_header f) = Some h
      ∧ method_id h = ctx_method_id c ∧ request_id h = ctx_request_id c
      ∧ hflags h ∈ [flags.RESPONSE; flags.ACK_RESPONSE; flags.STREAM_CHUNK;
                    flags.STREAM_END_RESPONSE; error_flags c]
      ∧ payload_length h = wrap 32 (zlen (ob_payload f)).
Proof.
  intros Hwf Hp Hothers Hw Hsteps. split.
  - assert (Hrule : rule (ctx_responded c) (w, p :: others)).
    { apply inert_rule; [|by rewrite Hw]. constructor; [by eapply uses_ctx_inert|].
      eapply Forall_impl; [exact Hothers|]. apply all_sends_inert. }
    destruct (pool_steps_rule _ _ _ Hsteps Hrule) as [_ Hc]. cbn [fst snd] in Hc. lia.
  - intros f Hf. unfold sent_by in Hf. apply list_elem_of_omap in Hf as ([l f'] & Hin & Heq).
    cbn in Heq. case_decide; simplify_eq.
    assert (Hs : Forall (λ e, e.1 = ctx_responded c → ctx_frame c e.2) (sends w')).
    { apply (pool_steps_sends (λ l f, l = ctx_responded c → ctx_frame c f) _ _ Hsteps);
        cbn [fst snd]; [|by rewrite Hw].
      constructor; [eapply actions_ok_impl; [..|by apply uses_ctx_actions]; [by intros ? ? []|done]|].
      eapply Forall_impl; [exact Hothers|]. intros q. by apply actions_ok_impl. }
    rewrite Forall_forall in Hs. specialize (Hs _ Hin eq_refl).
    destruct (ctx_frame_header c f Hwf Hs) as (h & ? & ? & ?). eauto.
Qed.

Section Demo.
#[local] Existing Instance string_errors.
#[local] Existing Instance bytes_serialize.

(** A handler that answers from a spawned task and from its own body. *)
Definition demo_ctx : RequestContext := with_writer_and_token 3 42 RtStream 0 1.
Definition demo_handler : prog :=
  Fork (pbind (respond demo_ctx [1; 2]) Ret)
    (pbind (chunk_raw demo_ctx [7]) (λ _, pbind (end_stream demo_ctx) Ret)).
Definition demo_world : world LogWriter :=
  {| cells := ∅; out := {| lw_calls := [] |}; sends := [] |}.

Lemma demo_uses : uses_ctx demo_ctx demo_handler.
Proof.
  apply uc_fork; apply uc_call; [apply cc_respond|by constructor|apply cc_chunk_raw|].
  intros r. apply uc_call; [apply cc_end|by constructor].
Qed.

Lemma one_terminal_frame_witness :
  let w' := set_cell 1 demo_world in
  (length (terminals 1 (sends w')) ≤ Nat.b2n (cell w' 1))%nat.
Proof.
  assert (Hsteps : ∃ ps, rtc pool_step (demo_world, [demo_handler])
                           (set_cell 1 demo_world, ps)).
  { eexists. eapply rtc_l.
    { eapply pool_step_intro with (ps1 := []) (ps2 := []). apply p_fork. }
    eapply rtc_l; [|apply rtc_refl].
    eapply pool_step_intro with (ps1 := [_]) (ps2 := []). apply p_swap. }
  destruct Hsteps as [ps Hsteps].
  exact (proj1 (one_terminal_frame demo_ctx demo_handler [] demo_world _ ps
    ltac:(split; vm_compute; split; congruence) demo_uses ltac:(constructor) eq_refl Hsteps)).
Defined.
(** After the terminal frame, [chunk] is not rejected. *)
Example chunk_after_end_is_sent :
  let p := ptry (end_stream demo_ctx) (chunk_raw demo_ctx [7]) in
  (λ '(w, r, _), (ob_flags <$> (sends w).*2, is_ok r))
    <$> run p demo_world [InSend (Ok tt); InSend (Ok tt)]
  = Some ([flags.STREAM_END_RESPONSE; flags.STREAM_CHUNK], true).
Proof. vm_compute. reflexivity. Qed.
End Demo.

(** C30: every call that ends a request ([respond], [respond_raw],
    [respond_bytes], [ack], [end], [error], [error_with]) behaves alike: when
    the request is already answered it returns [ResponseAlreadySent] and
    changes nothing; otherwise it sets the flag first, even if encoding then
    fails, and hands exactly one frame with the flags of the call to the
    writer, returning whatever the writer returns (without a writer it just
    succeeds).  Chunks ignore the flag and leave it alone. *)
Theorem context_calls_spec `{TP : ThirdParty} {W} `{!FrameWriter W}
  (c : RequestContext) (w : world W) (ins : list answer) :
  (∀ p fl body, terminal_call c p fl body →
    run p w ins =
      if cell w (ctx_responded c) then Some (w, Err ResponseAlreadySent, ins)
      else transmit c fl body (set_cell (ctx_responded c) w) ins)
  ∧ (∀ p body, chunk_call c p body →
    run p w ins = transmit c flags.STREAM_CHUNK body w ins).
Proof. split; intros; [by apply run_terminal|by apply run_chunk]. Qed.
