(* ===== verification/Registry.v ===== *)
(** * The handler registry (src/handler/registry.rs)

    Registration with sequential ids, the lookups, the schema and dispatch.
    A handler is a function from the payload and the context to a program. *)

From S2P Require Import Prelude Errors WireFormat Codec Json Init Program Context.

(** [trait Handler]. *)
Abbreviation Handler := (bytes → RequestContext → prog).

Section Registry.
Context `{TP : ThirdParty}.

(** [TypedHandler]: decode the payload, then call the function. *)
Record TypedHandler {T} `{!DeserializeOwned T} := { handler : T → RequestContext → prog }.

Definition typed_new {T} `{!DeserializeOwned T} (f : T → RequestContext → prog) :=
  {| handler := f |}.

Definition call {T} `{!DeserializeOwned T} (h : TypedHandler) (data : bytes)
  (ctx : RequestContext) : prog :=
  match msgpack_decode data with
  | Ok v => handler h v ctx
  | Err e => Ret (Err e)
  end.

Record MethodEntry := {
  me_handler : Handler;
  me_response_type : ResponseType;
  me_id : u16
}.

Record HandlerRegistry := {
  methods : gmap string MethodEntry;
  events : gmap string u16;
  next_method_id : u16;
  next_event_id : u16;
  id_to_name : gmap u16 string
}.

Definition new_registry : HandlerRegistry := {|
  methods := ∅; events := ∅; next_method_id := 1; next_event_id := 1; id_to_name := ∅
|}.

Definition default_registry : HandlerRegistry := new_registry.

(** [x += 1] on a [u16]: a panic ([None]) in builds with overflow checks, else
    wraps. *)
Definition incr_u16 (overflow_checks : bool) (x : u16) : option u16 :=
  if decide (x + 1 < 2 ^ 16) then Some (x + 1)
  else if overflow_checks then None else Some (wrap 16 (x + 1)).

(** The part of [register] that does not depend on the type of the handler. *)
Definition register_entry (overflow_checks : bool) (r : HandlerRegistry) (name : string)
  (response_type : ResponseType) (h : Handler) : option HandlerRegistry :=
  let id := next_method_id r in
  next ← incr_u16 overflow_checks (next_method_id r);
  Some {| methods := <[name := {| me_handler := h; me_response_type := response_type;
                                  me_id := id |}]> (methods r);
          events := events r;
          next_method_id := next;
          next_event_id := next_event_id r;
          id_to_name := <[id := name]> (id_to_name r) |}.

Definition register {T} `{!DeserializeOwned T} (overflow_checks : bool) (r : HandlerRegistry)
  (name : string) (response_type : ResponseType) (f : T → RequestContext → prog) :
  option HandlerRegistry :=
  register_entry overflow_checks r name response_type (call (typed_new f)).

Definition register_event (overflow_checks : bool) (r : HandlerRegistry) (name : string) :
  option HandlerRegistry :=
  let id := next_event_id r in
  next ← incr_u16 overflow_checks (next_event_id r);
  Some {| methods := methods r; events := <[name := id]> (events r);
          next_method_id := next_method_id r; next_event_id := next;
          id_to_name := id_to_name r |}.

(** ** Lookups *)
Definition get_handler (r : HandlerRegistry) (name : string) : option Handler :=
  me_handler <$> methods r !! name.
Definition get_handler_by_id (r : HandlerRegistry) (id : u16) : option Handler :=
  name ← id_to_name r !! id; e ← methods r !! name; Some (me_handler e).
Definition get_method_name (r : HandlerRegistry) (id : u16) : option string :=
  id_to_name r !! id.
Definition get_method_id (r : HandlerRegistry) (name : string) : option u16 :=
  me_id <$> methods r !! name.
Definition get_event_id (r : HandlerRegistry) (name : string) : option u16 :=
  events r !! name.
Definition get_response_type (r : HandlerRegistry) (name : string) : option ResponseType :=
  me_response_type <$> methods r !! name.
Definition get_response_type_by_id (r : HandlerRegistry) (id : u16) : option ResponseType :=
  name ← id_to_name r !! id; e ← methods r !! name; Some (me_response_type e).

Definition build_schema (r : HandlerRegistry) : InitSchema :=
  let schema := map_fold (λ name e s, add_method s name (me_id e) (me_response_type e))
                  new_schema (methods r) in
  map_fold (λ name id s, add_event s name id) schema (events r).

Definition dispatch (r : HandlerRegistry) (method_id : u16) (payload : bytes)
  (ctx : RequestContext) : prog :=
  match get_handler_by_id r method_id with
  | None => Ret (Err (HandlerNotFound method_id))
  | Some h => h payload ctx
  end.

(** ** A sequence of registrations, as [ClientBuilder] makes them *)
Inductive registration :=
| RegMethod (name : string) (response_type : ResponseType) (h : Handler)
| RegEvent (name : string).

Definition register_one (oc : bool) (r : HandlerRegistry) (g : registration) :
  option HandlerRegistry :=
  match g with
  | RegMethod name rt h => register_entry oc r name rt h
  | RegEvent name => register_event oc r name
  end.

Fixpoint register_all (oc : bool) (r : HandlerRegistry) (gs : list registration) :
  option HandlerRegistry :=
  match gs with
  | [] => Some r
  | g :: gs => r ← register_one oc r g; register_all oc r gs
  end.

(** ** Specification *)

(** The registrations of methods and of events, in order. *)
Definition method_regs (gs : list registration) : list (string * ResponseType * Handler) :=
  omap (λ g, match g with RegMethod n rt h => Some (n, rt, h) | RegEvent _ => None end) gs.
Definition event_regs (gs : list registration) : list string :=
  omap (λ g, match g with RegEvent n => Some n | RegMethod _ _ _ => None end) gs.

(** The last position of a name. *)
Definition last_index (name : string) (ns : list string) (j : nat) : Prop :=
  ns !! j = Some name ∧ ∀ j', (j < j')%nat → ns !! j' ≠ Some name.

(** The registry after the registrations [gs]: the [i]-th has id [i + 1]. *)
Record reg_spec (gs : list registration) (r : HandlerRegistry) : Prop := {
  rs_next_method : next_method_id r = zlen (method_regs gs) + 1;
  rs_next_event : next_event_id r = zlen (event_regs gs) + 1;
  rs_names id :
    id_to_name r !! id
    = if decide (1 <= id) then (method_regs gs).*1.*1 !! Z.to_nat (id - 1) else None;
  rs_methods name e :
    methods r !! name = Some e ↔
    ∃ j, last_index name (method_regs gs).*1.*1 j
      ∧ method_regs gs !! j = Some (name, me_response_type e, me_handler e)
      ∧ me_id e = Z.of_nat j + 1;
  rs_events name id :
    events r !! name = Some id ↔
    ∃ j, last_index name (event_regs gs) j ∧ id = Z.of_nat j + 1
}.
End Registry.

(** ** Lemmas *)
Section Lemmas.
Context `{TP : ThirdParty}.

Lemma last_index_det n ns i j : last_index n ns i → last_index n ns j → i = j.
Proof.
  intros [Hi Hi'] [Hj Hj']. destruct (lt_eq_lt_dec i j) as [[H|H]|H]; [|done|].
  - by destruct (Hi' j H).
  - by destruct (Hj' i H).
Qed.

Lemma last_index_app_same n ns : last_index n (ns ++ [n]) (length ns).
Proof.
  split; [by rewrite lookup_app_r, Nat.sub_diag by lia|]. intros j Hj.
  rewrite lookup_ge_None_2; [done|]. rewrite length_app. simpl. lia.
Qed.

Lemma last_index_app_other n m ns j : n ≠ m → last_index n (ns ++ [m]) j ↔ last_index n ns j.
Proof.
  intros Hne. unfold last_index.
  assert (Hl : ∀ k, (ns ++ [m]) !! k = Some n ↔ ns !! k = Some n).
  { intros k. rewrite lookup_app. destruct (ns !! k) as [x|] eqn:Hk; [done|].
    split; [|done]. intros H. apply list_lookup_singleton_Some in H as [_ ?]. congruence. }
  split; intros [H1 H2]; (split; [by apply Hl|]); intros k Hk Hc; apply (H2 k Hk); by apply Hl.
Qed.

Lemma last_index_lt n ns j : last_index n ns j → (j < length ns)%nat.
Proof. intros [H _]. by apply lookup_lt_Some in H. Qed.

(** A name that occurs has a last position. *)
Lemma last_index_exists n ns : n ∈ ns → ∃ j, last_index n ns j.
Proof.
  induction ns as [|m ns IH] using rev_ind; [by intros ?%elem_of_nil|].
  intros Hin. destruct (decide (n = m)) as [->|Hne]; [by eexists; apply last_index_app_same|].
  apply elem_of_app in Hin as [Hin|Hin%list_elem_of_singleton]; [|done].
  destruct (IH Hin) as [j Hj]. exists j. by apply last_index_app_other.
Qed.

Lemma incr_u16_ok oc x : x + 1 < 2 ^ 16 → incr_u16 oc x = Some (x + 1).
Proof. intros H. unfold incr_u16. by rewrite decide_True. Qed.

Lemma new_registry_spec : reg_spec [] new_registry.
Proof.
  split; [done..| | |]; cbn.
  - intros id. rewrite lookup_empty. by case_decide.
  - intros name e. rewrite lookup_empty. split; [done|]. by intros (j & [? _] & _).
  - intros name id. rewrite lookup_empty. split; [done|]. by intros (j & [? _] & _).
Qed.

Lemma register_entry_spec oc gs r name rt h :
  reg_spec gs r → zlen (method_regs gs) + 2 < 2 ^ 16 →
  ∃ r', register_entry oc r name rt h = Some r'
    ∧ reg_spec (gs ++ [RegMethod name rt h]) r'.
Proof.
  intros [Hm He Hn Hmethods Hevents] Hlt. unfold register_entry.
  rewrite incr_u16_ok by (rewrite Hm; lia). eexists. split; [reflexivity|].
  assert (Hms : method_regs (gs ++ [RegMethod name rt h]) = method_regs gs ++ [(name, rt, h)]).
  { unfold method_regs. by rewrite omap_app. }
  assert (Hes : event_regs (gs ++ [RegMethod name rt h]) = event_regs gs).
  { unfold event_regs. by rewrite omap_app, app_nil_r. }
  set (ms := method_regs gs) in *.
  split; rewrite ?Hms, ?Hes; cbn; rewrite ?Hm; try done.
  - rewrite length_app. simpl. lia.
  - intros id. rewrite !fmap_app. cbn [fmap list_fmap fst].
    destruct (decide (id = zlen ms + 1)) as [->|Hne].
    + rewrite lookup_insert_eq, decide_True by lia.
      replace (Z.to_nat (zlen ms + 1 - 1)) with (length (ms.*1.*1)) by (rewrite !length_fmap; lia).
      by rewrite list_lookup_middle.
    + rewrite lookup_insert_ne, Hn by done. case_decide; [|done].
      destruct (decide (Z.to_nat (id - 1) < length ms)%nat).
      * by rewrite lookup_app_l by (rewrite !length_fmap; lia).
      * rewrite !lookup_ge_None_2; [done|..]; rewrite ?length_app, !length_fmap; simpl; lia.
  - intros name' e. rewrite !fmap_app. cbn [fmap list_fmap fst].
    destruct (decide (name = name')) as [<-|Hne].
    + rewrite lookup_insert_eq. pose proof (last_index_app_same name (ms.*1.*1)) as Hlast.
      rewrite !length_fmap in Hlast. split.
      * intros [= <-]. exists (length ms). split_and!; [done| |done]. cbn.
        by rewrite list_lookup_middle.
      * intros (j & Hj & Hl & Hid). rewrite (last_index_det _ _ _ _ Hj Hlast) in *.
        rewrite list_lookup_middle in Hl by done. injection Hl as -> ->. by destruct e; cbn in *; subst.
    + rewrite lookup_insert_ne, Hmethods by done. split; intros (j & Hj & Hl & Hid); exists j.
      * split_and!; [by apply last_index_app_other| |done]. by apply lookup_app_l_Some.
      * apply last_index_app_other in Hj; [|done]. split_and!; [done| |done].
        apply last_index_lt in Hj. rewrite !length_fmap in Hj. by rewrite lookup_app_l in Hl.
Qed.

Lemma register_event_spec oc gs r name :
  reg_spec gs r → zlen (event_regs gs) + 2 < 2 ^ 16 →
  ∃ r', register_event oc r name = Some r' ∧ reg_spec (gs ++ [RegEvent name]) r'.
Proof.
  intros [Hm He Hn Hmethods Hevents] Hlt. unfold register_event.
  rewrite incr_u16_ok by (rewrite He; lia). eexists. split; [reflexivity|].
  assert (Hms : method_regs (gs ++ [RegEvent name]) = method_regs gs).
  { unfold method_regs. by rewrite omap_app, app_nil_r. }
  assert (Hes : event_regs (gs ++ [RegEvent name]) = event_regs gs ++ [name]).
  { unfold event_regs. by rewrite omap_app. }
  set (es := event_regs gs) in *.
  split; rewrite ?Hms, ?Hes; cbn; rewrite ?He; try done.
  - rewrite length_app. simpl. lia.
  - intros name' id. destruct (decide (name = name')) as [<-|Hne].
    + rewrite lookup_insert_eq. pose proof (last_index_app_same name es) as Hlast. split.
      * intros [= <-]. by exists (length es).
      * intros (j & Hj & ->). by rewrite (last_index_det _ _ _ _ Hj Hlast).
    + rewrite lookup_insert_ne, Hevents by done.
      by setoid_rewrite last_index_app_other.
Qed.

Lemma register_all_spec oc gs0 r gs :
  reg_spec gs0 r → zlen (gs0 ++ gs) + 1 < 2 ^ 16 →
  ∃ r', register_all oc r gs = Some r' ∧ reg_spec (gs0 ++ gs) r'.
Proof.
  revert gs0 r. induction gs as [|g gs IH]; intros gs0 r Hr Hlt; cbn [register_all].
  { exists r. by rewrite app_nil_r. }
  assert (Hone : ∃ r1, register_one oc r g = Some r1 ∧ reg_spec (gs0 ++ [g]) r1).
  { rewrite length_app in Hlt. cbn [length] in Hlt.
    destruct g; cbn [register_one]; [apply register_entry_spec|apply register_event_spec];
      try done; unfold method_regs, event_regs;
      match goal with |- zlen (omap ?f ?l) + 2 < _ => pose proof (length_omap_le f l) end; lia. }
  destruct Hone as (r1 & -> & Hr1). cbn [mbind option_bind].
  destruct (IH _ _ Hr1) as (r' & Hr' & Hs); rewrite <- ?app_assoc in *; [done|]. by exists r'.
Qed.

(** Every registered id is a positive [u16]. *)
Lemma reg_spec_ids gs r :
  reg_spec gs r → zlen gs + 1 < 2 ^ 16 →
  map_Forall (λ _ e, 1 <= me_id e < 2 ^ 16 - 1) (methods r)
  ∧ map_Forall (λ _ id, 1 <= id < 2 ^ 16 - 1) (events r).
Proof.
  intros [_ _ _ Hm He] Hlt. split.
  - intros n e (j & Hj%last_index_lt & _ & ->)%Hm. rewrite !length_fmap in Hj.
    unfold method_regs in Hj.
    match type of Hj with context [omap ?f ?l] => pose proof (length_omap_le f l) end. lia.
  - intros n id (j & Hj%last_index_lt & ->)%He. unfold event_regs in Hj.
    match type of Hj with context [omap ?f ?l] => pose proof (length_omap_le f l) end. lia.
Qed.

(** The schema is the registry without the handlers. *)
Lemma build_schema_eq r :
  build_schema r =
  {| is_methods :=
       (λ e, {| ms_id := me_id e; ms_response := me_response_type e |}) <$> methods r;
     is_events := (λ id, {| es_id := id |}) <$> events r |}.
Proof.
  unfold build_schema.
  assert (Hmeth : map_fold (λ name e s, add_method s name (me_id e) (me_response_type e))
      new_schema (methods r)
    = {| is_methods :=
           (λ e, {| ms_id := me_id e; ms_response := me_response_type e |}) <$> methods r;
         is_events := ∅ |}).
  { apply (map_fold_weak_ind (λ s (m : gmap string MethodEntry),
      s = {| is_methods :=
               (λ e, {| ms_id := me_id e; ms_response := me_response_type e |}) <$> m;
             is_events := ∅ |})).
    - by rewrite fmap_empty.
    - intros n e m s Hn ->. unfold add_method. cbn. by rewrite fmap_insert. }
  rewrite Hmeth. set (ms := fmap _ _).
  apply (map_fold_weak_ind (λ s (m : gmap string Z),
    s = {| is_methods := ms; is_events := (λ id, {| es_id := id |}) <$> m |})).
  - by rewrite fmap_empty.
  - intros n id m s Hn ->. unfold add_event. cbn. by rewrite fmap_insert.
Qed.

(** An id with a name is that of the last registration of the name, or of an
    earlier one. *)
Lemma served_name gs r id name :
  reg_spec gs r → id_to_name r !! id = Some name →
  ∃ e, methods r !! name = Some e ∧ id_to_name r !! me_id e = Some name ∧ id <= me_id e
    ∧ (NoDup (method_regs gs).*1.*1 → id = me_id e).
Proof.
  intros [_ _ Hn Hm _]. rewrite Hn. case_decide as Hid; [|done]. intros Hi.
  set (names := (method_regs gs).*1.*1) in *.
  destruct (last_index_exists name names) as [j Hj]; [by eapply list_elem_of_lookup_2|].
  pose proof (proj1 Hj) as Hlk. unfold names in Hlk. rewrite !list_lookup_fmap in Hlk.
  destruct (method_regs gs !! j) as [[[n0 rt] h]|] eqn:Hj0; [|done]. injection Hlk as ->.
  exists {| me_handler := h; me_response_type := rt; me_id := Z.of_nat j + 1 |}. split_and!.
  - apply Hm. by exists j.
  - cbn [me_id]. rewrite Hn, decide_True by lia.
    replace (Z.to_nat (Z.of_nat j + 1 - 1)) with j by lia. apply Hj.
  - cbn [me_id]. destruct (decide (j < Z.to_nat (id - 1))%nat) as [Hlt|]; [|lia].
    by destruct (proj2 Hj _ Hlt).
  - intros Hnd. cbn [me_id].
    pose proof (NoDup_lookup _ _ _ _ Hnd Hi (proj1 Hj)). lia.
Qed.

Lemma registered_spec oc gs r :
  zlen gs + 1 < 2 ^ 16 → register_all oc new_registry gs = Some r → reg_spec gs r.
Proof.
  intros Hlen Hr. destruct (register_all_spec oc [] new_registry gs) as (r' & Hr' & Hs);
    [apply new_registry_spec|done|]. rewrite Hr in Hr'. by injection Hr' as <-.
Qed.

Lemma build_schema_wf oc gs r :
  zlen gs + 1 < 2 ^ 16 → register_all oc new_registry gs = Some r → schema_wf (build_schema r).
Proof.
  intros Hlen Hr.
  destruct (reg_spec_ids _ _ (registered_spec _ _ _ Hlen Hr) Hlen) as [Hmi Hei].
  rewrite build_schema_eq. split; apply map_Forall_fmap; cbn.
  - eapply map_Forall_impl; [exact Hmi|]. intros ? ? Hx. unfold fits, compose. cbn [ms_id] in *. lia.
  - eapply map_Forall_impl; [exact Hei|]. intros ? ? Hx. unfold fits, compose. cbn [es_id] in *. lia.
Qed.
End Lemmas.

(** ** Properties *)

(** C27: after any sequence of at most 65534 registrations, ids have been
    assigned sequentially from 1; dispatching the id of any registration of a
    name runs the handler registered last under that name, with its response
    type; every other id, 0 included, is answered [HandlerNotFound]; and an
    event's id is the position of its last registration. *)
Theorem registry_dispatch `{TP : ThirdParty} (oc : bool) (gs : list registration) :
  zlen gs + 1 < 2 ^ 16 →
  let names := (method_regs gs).*1.*1 in
  ∃ r, register_all oc new_registry gs = Some r
    ∧ (∀ i name, names !! i = Some name →
        ∃ j rt h, last_index name names j ∧ method_regs gs !! j = Some (name, rt, h)
          ∧ get_method_id r name = Some (Z.of_nat j + 1)
          ∧ get_response_type_by_id r (Z.of_nat i + 1) = Some rt
          ∧ ∀ payload ctx, dispatch r (Z.of_nat i + 1) payload ctx = h payload ctx)
    ∧ (∀ id, ¬ (1 <= id <= zlen names) →
        get_response_type_by_id r id = None
        ∧ ∀ payload ctx, dispatch r id payload ctx = Ret (Err (HandlerNotFound id)))
    ∧ (∀ name id, get_event_id r name = Some id ↔
        ∃ j, last_index name (event_regs gs) j ∧ id = Z.of_nat j + 1).
Proof.
  intros Hlen names. destruct (register_all_spec oc [] new_registry gs) as (r & Hr & Hs);
    [apply new_registry_spec|done|]. exists r. split; [done|]. destruct Hs as [_ _ Hn Hm He].
  cbn [app] in *. fold names in Hn, Hm. split_and!; [..|exact He].
  - intros i name Hi.
    destruct (last_index_exists name names) as [j Hj]; [by eapply list_elem_of_lookup_2|].
    pose proof (proj1 Hj) as Hlk. unfold names in Hlk.
    rewrite !list_lookup_fmap in Hlk.
    destruct (method_regs gs !! j) as [[[n0 rt] h]|] eqn:Hj0; [|done]. injection Hlk as ->.
    set (e := {| me_handler := h; me_response_type := rt; me_id := Z.of_nat j + 1 |}).
    assert (Hme : methods r !! name = Some e) by (apply Hm; by exists j).
    assert (Hname : id_to_name r !! (Z.of_nat i + 1) = Some name).
    { rewrite Hn, decide_True by lia. by replace (Z.to_nat _) with i by lia. }
    exists j, rt, h. split; [done|]. split; [done|].
    unfold get_method_id, get_response_type_by_id, dispatch, get_handler_by_id.
    rewrite Hname. cbn [mbind option_bind fst]. by rewrite Hme.
  - intros id Hid.
    assert (Hname : id_to_name r !! id = None).
    { rewrite Hn. case_decide; [|done]. apply lookup_ge_None_2. lia. }
    unfold get_response_type_by_id, dispatch, get_handler_by_id. by rewrite Hname.
Qed.

Section Demo.
#[local] Existing Instance string_errors.

Definition demo_regs : list registration :=
  [RegMethod "echo" RtResult (λ _ _, Ret (Ok tt)); RegEvent "tick";
   RegMethod "echo" RtAck (λ _ _, Hang)].

Lemma registry_dispatch_witness :
  ∃ r, register_all true new_registry demo_regs = Some r
    ∧ dispatch r 1 [] demo_ctx = Hang
    ∧ dispatch r 0 [] demo_ctx = Ret (Err (HandlerNotFound 0)).
Proof.
  destruct (registry_dispatch true demo_regs ltac:(reflexivity)) as (r & Hr & H1 & H2 & _).
  exists r. split; [exact Hr|]. destruct (H1 0%nat "echo"%string eq_refl)
    as (j & rt & h & Hj & Hh & _ & _ & Hd).
  rewrite (last_index_det _ _ _ 1%nat Hj) in Hh.
  - injection Hh as <- <-. split; [apply Hd|]. apply (H2 0). cbn. lia.
  - split; [done|]. intros [|[|j']] Hj'; [lia..|done].
Defined.
End Demo.

(** C32: the [$init] message against dispatch.  Reading the message of a
    registry built by at most 65534 registrations gives, for each method, the
    id and response type of the registry, and dispatching that id runs the
    handler registered under that name; and for each event the id [emit] will
    use.  Conversely, an id dispatch serves is announced, or is the smaller id
    of an earlier registration of an announced name and runs the same handler
    as the announced one; with no name registered twice it is announced.  Every
    other id is answered [HandlerNotFound]. *)
Theorem init_announces_registry `{TP : ThirdParty} `{!SerdeJson} `{!SerdeJsonOk}
  (oc : bool) (gs : list registration) (r : HandlerRegistry) (path : string) :
  zlen gs + 1 < 2 ^ 16 → register_all oc new_registry gs = Some r →
  ∃ text schema, build_init_message path (build_schema r) = Some text
    ∧ read_init text = Some (PROTOCOL_VERSION, path, schema)
    ∧ (∀ name m, get_method schema name = Some m ↔
        get_method_id r name = Some (ms_id m)
        ∧ get_response_type r name = Some (ms_response m))
    ∧ (∀ name m, get_method schema name = Some m →
        get_response_type_by_id r (ms_id m) = Some (ms_response m)
        ∧ ∃ h, get_handler r name = Some h
          ∧ ∀ payload ctx, dispatch r (ms_id m) payload ctx = h payload ctx)
    ∧ (∀ name e, get_event schema name = Some e ↔ get_event_id r name = Some (es_id e))
    ∧ (∀ id name, get_method_name r id = Some name →
        ∃ m, get_method schema name = Some m ∧ id <= ms_id m
          ∧ (NoDup (method_regs gs).*1.*1 → id = ms_id m)
          ∧ ∀ payload ctx, dispatch r id payload ctx = dispatch r (ms_id m) payload ctx)
    ∧ (∀ id, get_method_name r id = None →
        ∀ payload ctx, dispatch r id payload ctx = Ret (Err (HandlerNotFound id))).
Proof.
  intros Hlen Hr. pose proof (registered_spec _ _ _ Hlen Hr) as Hs.
  destruct (init_message_reads path (build_schema r)) as (t & Ht & _ & Hread);
    [by eapply build_schema_wf|].
  exists t, (build_schema r). rewrite build_schema_eq in *. split; [done|]. split; [done|].
  unfold get_method, get_event, get_method_id, get_method_name, get_response_type,
    get_response_type_by_id, get_handler, dispatch, get_handler_by_id, get_event_id. cbn.
  pose proof Hs as [_ _ Hn Hm _]. split_and!.
  - intros name m. rewrite lookup_fmap. destruct (methods r !! name) as [e|]; cbn;
      [|by split; [|intros [? _]]].
    split; [by intros [= <-]|]. intros [[= H1] [= H2]]. destruct m. cbn in *. by subst.
  - intros name m. rewrite lookup_fmap. destruct (methods r !! name) as [e|] eqn:He; [|done].
    intros [= <-]. cbn. pose proof He as (j & Hj & _ & Hid)%Hm. rewrite Hn, decide_True by lia.
    replace (Z.to_nat (me_id e - 1)) with j by lia. rewrite (proj1 Hj). cbn. rewrite He. cbn.
    split; [done|]. by eexists.
  - intros name e. rewrite lookup_fmap. destruct (events r !! name) as [id|]; cbn; [|done].
    split; [by intros [= <-]|]. intros [= ->]. by destruct e.
  - intros id name Hid. destruct (served_name gs r id name Hs Hid) as (e & He & Hann & Hle & Hnd).
    exists {| ms_id := me_id e; ms_response := me_response_type e |}.
    cbn [ms_id ms_response]. split; [rewrite lookup_fmap, He; reflexivity|].
    split; [exact Hle|]. split; [exact Hnd|].
    intros payload ctx. rewrite Hid, Hann. cbn. by rewrite He.
  - intros id Hid payload ctx. by rewrite Hid.
Qed.

Section Demo2.
#[local] Existing Instance string_errors.

Lemma init_announces_registry_witness :
  ∃ text schema,
    build_init_message (SJ := tree_json) "/tmp/p.sock"
      (build_schema (default new_registry (register_all true new_registry demo_regs)))
      = Some text
    ∧ read_init (SJ := tree_json) text
      = Some (PROTOCOL_VERSION, "/tmp/p.sock"%string, schema)
    ∧ (get_method schema "echo" = Some {| ms_id := 2; ms_response := RtAck |}).
Proof.
  destruct (register_all true new_registry demo_regs) as [r|] eqn:Hr; [|by vm_compute in Hr].
  destruct (init_announces_registry true demo_regs r "/tmp/p.sock" ltac:(reflexivity) Hr)
    as (t & s & H1 & H2 & H3 & _).
  exists t, s. split; [exact H1|]. split; [exact H2|]. apply H3.
  vm_compute in Hr. injection Hr as <-. by split.
Defined.
End Demo2.

(** At the end of the id space: when the next id is 65535 a build with
    overflow checks panics on the registration, and one without assigns
    [ABORT_METHOD_ID] and goes on with the reserved id 0. *)
Theorem register_overflow `{TP : ThirdParty} (r : HandlerRegistry) (name : string)
  (rt : ResponseType) (h : Handler) :
  next_method_id r = 65535 →
  register_entry true r name rt h = None
  ∧ ∃ r', register_entry false r name rt h = Some r'
    ∧ get_method_id r' name = Some ABORT_METHOD_ID
    ∧ next_method_id r' = RESERVED_METHOD_ID.
Proof.
  intros Hn. unfold register_entry. rewrite Hn. split; [done|].
  eexists. split; [reflexivity|]. unfold get_method_id. cbn [methods next_method_id].
  by rewrite lookup_insert_eq.
Qed.

Lemma register_overflow_witness :
  let r := {| methods := ∅; events := ∅; next_method_id := 65535; next_event_id := 1;
              id_to_name := ∅ |} in
  register_entry (TP := string_errors) true r "m" RtAck (λ _ _, Hang) = None
  ∧ ∃ r', register_entry (TP := string_errors) false r "m" RtAck (λ _ _, Hang) = Some r'
    ∧ get_method_id r' "m" = Some ABORT_METHOD_ID
    ∧ next_method_id r' = RESERVED_METHOD_ID.
Proof. apply register_overflow. reflexivity. Defined.

(** No registration is refused the identifiers of the control frames: the
    65534th method is announced under [AUTH_METHOD_ID]. *)
Theorem reserved_id_assigned `{TP : ThirdParty} (oc : bool) :
  ∃ gs r name, register_all oc new_registry gs = Some r
    ∧ get_method_id r name = Some AUTH_METHOD_ID.
Proof.
  set (n := Z.to_nat 65533).
  assert (Hn : Z.of_nat n = 65533) by (unfold n; lia). clearbody n.
  set (gs := replicate (S n) (RegMethod "m" RtAck (λ _ _, Hang))). exists gs.
  assert (Hms : ∀ k, (method_regs (replicate k (RegMethod "m" RtAck (λ _ _, Hang)))).*1.*1
                     = replicate k "m"%string).
  { intros k. induction k as [|k IH]; [done|]. cbn. f_equal. apply IH. }
  destruct (register_all_spec oc [] new_registry gs) as (r & Hr & Hs);
    [apply new_registry_spec|unfold gs; cbn [app]; rewrite length_replicate; lia|].
  exists r, "m"%string. split; [done|]. destruct Hs as [_ _ _ Hm _]. cbn [app] in Hm.
  unfold get_method_id. unfold gs in Hm. rewrite Hms in Hm.
  assert (Hlast : last_index "m" (replicate (S n) "m"%string) n).
  { split; [by apply lookup_replicate_2; lia|]. intros j Hj Hc.
    apply lookup_replicate in Hc as [_ Hc]. lia. }
  set (e := {| me_handler := λ _ _, Hang; me_response_type := RtAck; me_id := Z.of_nat n + 1 |}).
  assert (He : methods r !! "m"%string = Some e).
  { apply Hm. exists n. split_and!; [done| |done].
    assert (Hk : ∀ k j, (j < k)%nat →
      method_regs (replicate k (RegMethod "m" RtAck (λ _ _, Hang))) !! j
      = Some ("m"%string, RtAck, λ _ _, Hang)).
    { induction k as [|k IH]; intros [|j] Hj; try lia; [done|]. cbn. apply IH. lia. }
    apply Hk. lia. }
  rewrite He. cbn. by rewrite Hn.
Qed.
