(* ===== verification/Transport.v ===== *)
(** * Pipe paths and listeners (src/transport/pipe.rs, Unix)

    The socket path a process announces: base directory, process id and a
    per-call value.  The environment, the clock and the process id are
    arguments.  Then [PipeListener] over the socket files it creates and
    removes; the connections it accepts are in [Session]. *)

From Stdlib Require Import Ascii.
From S2P Require Import Prelude Errors.

(** ** [unix_runtime_dir] *)

(** [str::trim_end_matches('/')]. *)
Fixpoint trim_end_slashes (s : string) : string :=
  match s with
  | EmptyString => EmptyString
  | String c s =>
    match trim_end_slashes s with
    | EmptyString => if decide (c = "/"%char) then EmptyString else String c EmptyString
    | s' => String c s'
    end
  end.

(** The two arguments are the values of [XDG_RUNTIME_DIR] and [TMPDIR]. *)
Definition unix_runtime_dir (xdg_runtime_dir tmpdir : option string) : string :=
  let non_empty := option_filter (λ s, negb (bool_decide (s = EmptyString))) in
  let raw :=
    match non_empty xdg_runtime_dir with
    | Some s => s
    | None => default "/tmp"%string (non_empty tmpdir)
    end in
  let trimmed := trim_end_slashes raw in
  if decide (trimmed = EmptyString) then "/tmp"%string else trimmed.

(** ** [rand_u64] *)

Definition wrapping_mul (a b : u64) : u64 := wrap 64 (a * b).
Definition wrapping_add (a b : u64) : u64 := wrap 64 (a + b).

Definition K_NANOS : u64 := 0x517cc1b727220a95.
Definition K_SEQ : u64 := 0x9E3779B97F4A7C15.

(** One call: the counter before it, the clock ([None]: before the epoch) and
    the process id to the value and the counter after it. *)
Definition rand_u64 (counter : u64) (clock_nanos : option Z) (pid : u32) : u64 * u64 :=
  let seq := counter in
  let nanos := default 0 (wrap 64 <$> clock_nanos) in
  (Z.lxor (wrapping_add (wrapping_mul nanos K_NANOS) (wrapping_mul seq K_SEQ)) pid,
   wrap 64 (counter + 1)).

(** ** [generate_pipe_path] *)

(** The digits of [{:x}]. *)
Definition hex_digit (d : Z) : Ascii.ascii :=
  Ascii.ascii_of_N (Z.to_N (if decide (d < 10) then 48 + d else 87 + d)).

Fixpoint hex_aux (fuel : nat) (x : Z) (acc : string) : string :=
  match fuel with
  | O => acc
  | S fuel =>
    let acc := String (hex_digit (x mod 16)) acc in
    if decide (x / 16 = 0) then acc else hex_aux fuel (x / 16) acc
  end.

(** Sixteen digits hold a [u64]. *)
Definition hex (x : u64) : string := hex_aux 16 x EmptyString.

Definition pipe_path_unix (base : string) (pid : u32) (rand : u64) : string :=
  base +:+ "/procwire-" +:+ pretty (Z.to_N pid) +:+ "-" +:+ hex rand +:+ ".sock".

Definition generate_pipe_path (xdg tmpdir : option string) (pid : u32) (counter : u64)
  (clock_nanos : option Z) : string * u64 :=
  let '(rand, counter) := rand_u64 counter clock_nanos pid in
  (pipe_path_unix (unix_runtime_dir xdg tmpdir) pid rand, counter).

(** ** [PipeListener] *)

(** [Path::exists], [fs::remove_file] and [UnixListener::bind]. *)
Class SocketFs (S : Type) := {
  path_exists : S → string → bool;
  remove_file : S → string → S * result io_Error unit;
  unix_bind : S → string → S * result io_Error unit
}.

(** What the code relies on: a removed file is gone, a bound path exists, a
    removal that fails changes nothing, and other paths are left alone. *)
Class SocketFsOk (S : Type) `{SocketFs S} : Prop := {
  remove_file_ok s p s' q :
    remove_file s p = (s', Ok tt) →
    path_exists s' q = if decide (q = p) then false else path_exists s q;
  remove_file_err s p s' e q :
    remove_file s p = (s', Err e) → path_exists s' q = path_exists s q;
  unix_bind_ok s p s' q :
    unix_bind s p = (s', Ok tt) →
    path_exists s' q = if decide (q = p) then true else path_exists s q;
  unix_bind_other s p s' r q :
    unix_bind s p = (s', r) → q ≠ p → path_exists s' q = path_exists s q
}.

Record PipeListener := { pl_path : string }.

(** [PipeListener::bind]: an existing file at the path is removed first. *)
Definition bind `{ThirdParty} {S} `{!SocketFs S} (s : S) (path : string) : S * Result PipeListener :=
  let '(s, removed) := if path_exists s path then remove_file s path else (s, Ok tt) in
  match removed with
  | Err e => (s, Err (Io e))
  | Ok _ =>
    match unix_bind s path with
    | (s, Err e) => (s, Err (Io e))
    | (s, Ok _) => (s, Ok {| pl_path := path |})
    end
  end.

Definition create_pipe_listener `{ThirdParty} {S} `{!SocketFs S} :
  S → string → S * Result PipeListener := bind.

Definition listener_path (l : PipeListener) : string := pl_path l.

(** [Drop for PipeListener]; the result of the removal is ignored. *)
Definition drop_listener {S} `{!SocketFs S} (s : S) (l : PipeListener) : S :=
  (remove_file s (pl_path l)).1.

(** [PipeCleanup]: removes the file as well. *)
Record PipeCleanup := { pc_path : string }.
Definition cleanup_guard (l : PipeListener) : PipeCleanup := {| pc_path := pl_path l |}.
Definition drop_cleanup {S} `{!SocketFs S} (s : S) (c : PipeCleanup) : S :=
  (remove_file s (pc_path c)).1.

(** A set of paths, for evaluation. *)
Definition os_error (message : string) : io_Error :=
  {| io_kind := OtherKind 2; io_message := message |}.

#[export] Instance set_fs : SocketFs (gset string) := {|
  path_exists s p := bool_decide (p ∈ s);
  remove_file s p :=
    if decide (p ∈ s) then (s ∖ {[p]}, Ok tt) else (s, Err (os_error "No such file"));
  unix_bind s p :=
    if decide (p ∈ s) then (s, Err (os_error "Address in use")) else ({[p]} ∪ s, Ok tt)
|}.

#[export] Instance set_fs_ok : SocketFsOk (gset string).
Proof.
  split; cbn.
  - intros s p s' q. case_decide; [|done]. intros [= <-].
    case_decide; [rewrite bool_decide_eq_false|apply bool_decide_ext]; set_solver.
  - intros s p s' e q. case_decide; [done|]. by intros [= <- _].
  - intros s p s' q. case_decide; [done|]. intros [= <-].
    case_decide; [rewrite bool_decide_eq_true|apply bool_decide_ext]; set_solver.
  - intros s p s' r q. case_decide; intros [= <- _] Hne; [done|].
    apply bool_decide_ext. set_solver.
Qed.

(** ** Lemmas *)

Section Listener.
Context `{TP : ThirdParty} {S : Type} `{SocketFsOk S}.
Implicit Types (s : S).

(** A listener is bound at its path, whether a stale file was there or not,
    and no other path is touched. *)
Lemma bind_ok s path s' l q :
  bind s path = (s', Ok l) →
  pl_path l = path ∧ path_exists s' q = if decide (q = path) then true else path_exists s q.
Proof.
  unfold bind. destruct (path_exists s path) eqn:He.
  - destruct (remove_file s path) as [s1 [[]|e]] eqn:Hr; [|done].
    destruct (unix_bind s1 path) as [s2 [[]|e]] eqn:Hb; [|done]. intros [= <- <-].
    split; [done|]. rewrite (unix_bind_ok _ _ _ q Hb), (remove_file_ok _ _ _ q Hr).
    by case_decide.
  - destruct (unix_bind s path) as [s2 [[]|e]] eqn:Hb; [|done]. intros [= <- <-].
    split; [done|]. by apply unix_bind_ok.
Qed.

(** A binding that fails changes at most its own path. *)
Lemma bind_err s path s' e q :
  bind s path = (s', Err e) → q ≠ path → path_exists s' q = path_exists s q.
Proof.
  unfold bind. intros Hb Hq. destruct (path_exists s path) eqn:He.
  - destruct (remove_file s path) as [s1 [[]|e1]] eqn:Hr.
    + destruct (unix_bind s1 path) as [s2 [[]|e2]] eqn:Hu; [done|]. injection Hb as <- _.
      rewrite (unix_bind_other _ _ _ _ q Hu), (remove_file_ok _ _ _ q Hr) by done.
      by rewrite decide_False.
    + injection Hb as <- _. by apply (remove_file_err _ _ _ _ q Hr).
  - destruct (unix_bind s path) as [s2 [[]|e2]] eqn:Hu; [done|]. injection Hb as <- _.
    by apply (unix_bind_other _ _ _ _ q Hu).
Qed.

(** Dropping it changes at most its own path. *)
Lemma drop_listener_other s l q :
  q ≠ pl_path l → path_exists (drop_listener s l) q = path_exists s q.
Proof.
  intros Hne. unfold drop_listener. destruct (remove_file s (pl_path l)) as [s' [[]|e]] eqn:Hr;
    cbn [fst].
  - rewrite (remove_file_ok _ _ _ q Hr). by rewrite decide_False.
  - by apply (remove_file_err _ _ _ _ q Hr).
Qed.

Lemma drop_listener_gone s l s' :
  remove_file s (pl_path l) = (s', Ok tt) → path_exists (drop_listener s l) (pl_path l) = false.
Proof.
  intros Hr. unfold drop_listener. rewrite Hr. cbn [fst].
  rewrite (remove_file_ok _ _ _ _ Hr). by rewrite decide_True.
Qed.
End Listener.

(** Reading hexadecimal digits up to the first other character. *)
Definition hex_value (c : Ascii.ascii) : option Z :=
  let n := Z.of_N (Ascii.N_of_ascii c) in
  if decide (48 <= n <= 57) then Some (n - 48)
  else if decide (97 <= n <= 102) then Some (n - 87) else None.

Fixpoint read_hex (acc : Z) (s : string) : Z :=
  match s with
  | EmptyString => acc
  | String c s => match hex_value c with Some d => read_hex (16 * acc + d) s | None => acc end
  end.

Lemma hex_value_digit d : 0 <= d < 16 → hex_value (hex_digit d) = Some d.
Proof.
  intros Hd. assert (d ∈ seqZ 0 16) as Hin by (apply elem_of_seqZ; lia).
  revert Hin. change (seqZ 0 16) with [0;1;2;3;4;5;6;7;8;9;10;11;12;13;14;15].
  rewrite !elem_of_cons, elem_of_nil. intros Hin.
  repeat (destruct Hin as [->|Hin]; [reflexivity|]). done.
Qed.

Lemma read_hex_aux fuel x acc rest :
  0 <= x < 16 ^ Z.of_nat fuel →
  read_hex 0 (hex_aux fuel x acc +:+ rest) = read_hex x (acc +:+ rest).
Proof.
  revert x acc. induction fuel as [|fuel IH]; intros x acc Hx.
  { change (16 ^ Z.of_nat 0) with 1 in Hx. cbn. by replace x with 0 by lia. }
  cbn [hex_aux]. pose proof (Z.mod_pos_bound x 16). pose proof (Z.div_mod x 16).
  assert (Hd : 0 <= x / 16 < 16 ^ Z.of_nat fuel).
  { rewrite Nat2Z.inj_succ, Z.pow_succ_r in Hx by lia. split; [apply Z.div_pos; lia|].
    apply Z.div_lt_upper_bound; lia. }
  assert (Hstep : ∀ a, a = x / 16 → read_hex a (String (hex_digit (x mod 16)) acc +:+ rest)
                      = read_hex x (acc +:+ rest)).
  { intros a ->.
    change (read_hex (x / 16) (String (hex_digit (x mod 16)) (acc +:+ rest))
            = read_hex x (acc +:+ rest)).
    cbn [read_hex]. rewrite hex_value_digit by lia. f_equal. lia. }
  case_decide as Hz; [by apply Hstep|]. rewrite IH by done. by apply Hstep.
Qed.

Lemma read_hex_path x : fits 64 x → read_hex 0 (hex x +:+ ".sock") = x.
Proof. intros Hx. unfold hex. rewrite read_hex_aux; [done|]. exact Hx. Qed.

Lemma hex_inj r1 r2 : fits 64 r1 → fits 64 r2 → hex r1 = hex r2 → r1 = r2.
Proof. intros H1 H2 Heq. by rewrite <- (read_hex_path r1), Heq, read_hex_path. Qed.

Lemma pipe_path_inj base pid r1 r2 :
  fits 64 r1 → fits 64 r2 → pipe_path_unix base pid r1 = pipe_path_unix base pid r2 → r1 = r2.
Proof.
  intros H1 H2 Heq. unfold pipe_path_unix in Heq. repeat apply (inj (String.append _)) in Heq.
  by rewrite <- (read_hex_path r1), Heq, read_hex_path.
Qed.

Lemma rand_u64_fits counter clock pid : fits 32 pid → fits 64 (rand_u64 counter clock pid).1.
Proof.
  intros Hp. unfold rand_u64, wrapping_add. cbn [fst].
  pose proof (wrap_fits 64 (wrapping_mul (default 0 (wrap 64 <$> clock)) K_NANOS
                            + wrapping_mul counter K_SEQ) ltac:(lia)) as Hw.
  unfold fits in *. split; [by apply Z.lxor_nonneg; lia|].
  set (a := wrap 64 _) in *. destruct (decide (Z.lxor a pid = 0)) as [->|Hne]; [lia|].
  assert (0 <= Z.lxor a pid) by (apply Z.lxor_nonneg; lia).
  apply Z.log2_lt_pow2; [lia|]. pose proof (Z.log2_lxor a pid) as Hl.
  assert (Hlog : ∀ x w, 0 <= x < 2 ^ w → 0 < w → Z.log2 x < w).
  { intros x w Hx Hw'. destruct (decide (x = 0)) as [->|]; [done|].
    apply Z.log2_lt_pow2; lia. }
  pose proof (Hlog a 64). pose proof (Hlog pid 32). lia.
Qed.

(** The counter's multiplier is odd, hence invertible modulo 2^64. *)
Lemma wrapping_mul_seq_inj s1 s2 :
  fits 64 s1 → fits 64 s2 → wrapping_mul s1 K_SEQ = wrapping_mul s2 K_SEQ → s1 = s2.
Proof.
  unfold wrapping_mul, wrap, fits. intros H1 H2 Heq.
  assert (Hinv : ∀ s, 0 <= s < 2 ^ 64 →
    ((s * K_SEQ) mod 2 ^ 64 * 17428512612931826493) mod 2 ^ 64 = s).
  { intros s Hs. rewrite Z.mul_mod_idemp_l, <- Z.mul_assoc by done.
    rewrite <- Z.mul_mod_idemp_r by done.
    replace ((K_SEQ * 17428512612931826493) mod 2 ^ 64) with 1 by reflexivity.
    rewrite Z.mul_1_r. by apply Z.mod_small. }
  by rewrite <- (Hinv s1), Heq, Hinv.
Qed.

Lemma rand_u64_inj c1 c2 clock pid :
  fits 64 c1 → fits 64 c2 →
  (rand_u64 c1 clock pid).1 = (rand_u64 c2 clock pid).1 → c1 = c2.
Proof.
  intros H1 H2 Heq. unfold rand_u64 in Heq. cbn [fst] in Heq.
  assert (Hx : ∀ a b, Z.lxor (Z.lxor a b) b = a).
  { intros a b. by rewrite Z.lxor_assoc, Z.lxor_nilpotent, Z.lxor_0_r. }
  apply (f_equal (λ z, Z.lxor z pid)) in Heq. rewrite !Hx in Heq.
  unfold wrapping_add, wrap in Heq. set (a := wrapping_mul (default _ _) _) in Heq.
  apply wrapping_mul_seq_inj; [done..|]. unfold wrapping_mul, wrap in *.
  apply (f_equal (λ z, (z - a) mod 2 ^ 64)) in Heq. rewrite !Zminus_mod_idemp_l in Heq.
  rewrite !(Z.add_comm a), !Z.add_simpl_r, !Z.mod_mod in Heq by done. exact Heq.
Qed.

Lemma wrapping_mix n a s b :
  wrapping_add (wrapping_mul (wrap 64 n) a) (wrapping_mul s b) = wrap 64 (n * a + s * b).
Proof.
  unfold wrapping_add, wrapping_mul, wrap.
  by rewrite Zmult_mod_idemp_l, Zplus_mod_idemp_l, Zplus_mod_idemp_r.
Qed.

(** ** Properties *)

(** Two calls of [generate_pipe_path] in one process that see the same
    clock value get different paths, for any of the 2^64 counter values. *)
Theorem pipe_paths_distinct (xdg tmpdir : option string) (pid : u32) (clock : option Z)
  (c1 c2 : u64) :
  fits 32 pid → fits 64 c1 → fits 64 c2 → c1 ≠ c2 →
  (generate_pipe_path xdg tmpdir pid c1 clock).1 ≠ (generate_pipe_path xdg tmpdir pid c2 clock).1.
Proof.
  intros Hp H1 H2 Hne Heq. apply Hne. unfold generate_pipe_path in Heq.
  pose proof (rand_u64_fits c1 clock pid Hp) as F1.
  pose proof (rand_u64_fits c2 clock pid Hp) as F2.
  apply (rand_u64_inj c1 c2 clock pid H1 H2).
  destruct (rand_u64 c1 clock pid) as [r1 n1], (rand_u64 c2 clock pid) as [r2 n2].
  cbn [fst] in *. by eapply pipe_path_inj.
Qed.

Lemma pipe_paths_distinct_witness :
  (generate_pipe_path None None 77 0 None).1 ≠ (generate_pipe_path None None 77 1 None).1.
Proof. apply pipe_paths_distinct; [split; vm_compute; congruence..|congruence]. Defined.

(** The counter does not make every value unique, as the comment on
    [rand_u64] says it does: with a clock that only moves forward, the call
    with sequence number 122241 repeats the value of the very first call when
    it happens 39688.297977599 seconds after it, whatever the process id and
    the time of the first call. *)
Theorem rand_u64_collides (nanos : Z) (pid : u32) :
  (rand_u64 0 (Some nanos) pid).1
  = (rand_u64 122241 (Some (nanos + 39688297977599)) pid).1.
Proof.
  unfold rand_u64. cbn [fst fmap option_fmap option_map default from_option id]. f_equal.
  rewrite !wrapping_mix. unfold wrap. rewrite Z.mul_0_l, Z.add_0_r.
  replace ((nanos + 39688297977599) * K_NANOS + 122241 * K_SEQ)
    with (nanos * K_NANOS + (39688297977599 * K_NANOS + 122241 * K_SEQ) / 2 ^ 64 * 2 ^ 64).
  - by rewrite Z.mod_add.
  - rewrite Z.mul_add_distr_r, <- Z.add_assoc. f_equal.
Qed.
