(* ===== verification/PollIo.v ===== *)
(** * Polled streams (the [AsyncRead] and [AsyncWrite] of the tokio streams)

    What the connected stream of a platform can do.  [PipeStream] passes these
    calls on (src/transport/pipe.rs); the classes are what it is proved
    against. *)

From S2P Require Import Prelude Errors Writer.

(** ** Writing *)

(** What a connected pipe can do, with the bytes it has taken. *)
Class PollWrite (P : Type) := {
  poll_write : P → bytes → P * result io_Error nat;
  poll_flush : P → P * result io_Error unit;
  poll_shutdown : P → P * result io_Error unit;
  taken : P → bytes
}.

Class PollWriteOk (P : Type) `{PollWrite P} : Prop := {
  poll_write_ok p buf p' n :
    poll_write p buf = (p', Ok n) → (n ≤ length buf)%nat ∧ taken p' = taken p ++ take n buf;
  poll_write_err p buf p' e : poll_write p buf = (p', Err e) → taken p' = taken p;
  poll_flush_taken p p' r : poll_flush p = (p', r) → taken p' = taken p
}.

(** ** Reading *)

(** [poll_read] with the room left in the [ReadBuf]: the bytes it adds to it,
    none at the end of the stream.  [incoming] is what has arrived and is to
    come. *)
Class PollRead (P : Type) := {
  poll_read : P → nat → P * result io_Error bytes;
  incoming : P → bytes
}.

Class PollReadOk (P : Type) `{PollRead P} : Prop := {
  poll_read_ok p room p' data :
    poll_read p room = (p', Ok data) →
    (length data ≤ room)%nat ∧ incoming p = data ++ incoming p';
  poll_read_err p room p' e : poll_read p room = (p', Err e) → incoming p' = incoming p
}.

(** ** Splitting *)

(** [UnixStream::into_split] and [tokio::io::split]. *)
Class IntoSplit (P R Wr : Type) := split_halves : P → R * Wr.

(** ** Vectored writes *)

(** The provided [poll_write_vectored] of the trait writes the first slice that
    is not empty. *)
Fixpoint first_slice (sl : list bytes) : bytes :=
  match sl with
  | [] => []
  | [] :: sl => first_slice sl
  | b :: _ => b
  end.

Lemma first_slice_prefix sl : first_slice sl `prefix_of` concat sl.
Proof.
  induction sl as [|[|x b] sl IH]; cbn; [done|done|]. by exists (concat sl).
Qed.

(** What a stream has taken through it. *)
Definition polled_async_write (P : Type) `{PollWrite P} : AsyncWrite P := {|
  write_vectored p sl := poll_write p (first_slice sl);
  flush := poll_flush;
  written := taken
|}.

(** Such a stream is a writer in the sense of [Writer]. *)
Lemma polled_async_write_ok (P : Type) `{PollWriteOk P} :
  AsyncWriteOk P (H := polled_async_write P).
Proof.
  split; cbn.
  - intros p sl p' n Hp. destruct (poll_write_ok _ _ _ _ Hp) as [Hn Ht].
    destruct (first_slice_prefix sl) as [rest Hrest]. rewrite Hrest, length_app.
    split; [lia|]. by rewrite take_app_le.
  - intros p sl p' e. apply poll_write_err.
  - intros p p' r. apply poll_flush_taken.
Qed.
