(* ===== verification/UnixPipe.v ===== *)
(** * Unix streams (src/transport/pipe.rs, [unix_impl])

    The connected stream of the Unix half: what [PipeListener::accept] returns,
    its halves, and the reads and writes it passes on to the socket.  Paths and
    the listener's socket file are in [Transport]. *)

From S2P Require Import Prelude Errors Writer Transport PollIo.

Module unix_impl.

(** ** [PipeStream] *)
Section Stream.
Context {P : Type}.

Record PipeStream := { stream : P }.

(** [accepted]: what [UnixListener::accept] returns, [None] while no client has
    come; the address is dropped. *)
Definition accept `{ThirdParty} {A : Type} (l : PipeListener)
  (accepted : option (result io_Error (P * A))) : option (Result PipeStream) :=
  match accepted with
  | None => None
  | Some (Err e) => Some (Err (Io e))
  | Some (Ok (stream, _)) => Some (Ok {| stream := stream |})
  end.

Definition into_split {R Wr} `{!IntoSplit P R Wr} (s : PipeStream) : R * Wr :=
  split_halves (stream s).

Definition inner (s : PipeStream) : P := stream s.

(** A mutable reference: what it shows and what replacing its target does. *)
Definition inner_mut (s : PipeStream) : P * (P → PipeStream) :=
  (stream s, λ p, {| stream := p |}).

(** ** [AsyncRead] and [AsyncWrite for PipeStream] *)
Context `{!PollRead P, !PollWrite P}.

Definition stream_poll_read (s : PipeStream) (room : nat) : PipeStream * result io_Error bytes :=
  let '(p, r) := poll_read (stream s) room in ({| stream := p |}, r).
Definition stream_poll_write (s : PipeStream) (buf : bytes) : PipeStream * result io_Error nat :=
  let '(p, r) := poll_write (stream s) buf in ({| stream := p |}, r).
Definition stream_poll_flush (s : PipeStream) : PipeStream * result io_Error unit :=
  let '(p, r) := poll_flush (stream s) in ({| stream := p |}, r).
Definition stream_poll_shutdown (s : PipeStream) : PipeStream * result io_Error unit :=
  let '(p, r) := poll_shutdown (stream s) in ({| stream := p |}, r).

#[export] Instance stream_poll_reader : PollRead PipeStream := {|
  poll_read := stream_poll_read;
  incoming s := incoming (stream s)
|}.

#[export] Instance stream_poll_writer : PollWrite PipeStream := {|
  poll_write := stream_poll_write;
  poll_flush := stream_poll_flush;
  poll_shutdown := stream_poll_shutdown;
  taken s := taken (stream s)
|}.
End Stream.
#[global] Arguments PipeStream : clear implicits.
End unix_impl.
Export (hints) unix_impl.

(** ** The contract *)

#[export] Instance unix_stream_write_ok `{PollWriteOk P} : PollWriteOk (unix_impl.PipeStream P).
Proof.
  split; cbn; unfold unix_impl.stream_poll_write, unix_impl.stream_poll_flush.
  - intros [p] buf s' n. cbn. destruct (poll_write p buf) as [p' r] eqn:Hp.
    intros [= <- ->]. by apply poll_write_ok in Hp.
  - intros [p] buf s' e. cbn. destruct (poll_write p buf) as [p' r] eqn:Hp.
    intros [= <- ->]. by apply poll_write_err in Hp.
  - intros [p] s' r. cbn. destruct (poll_flush p) as [p' r'] eqn:Hp.
    intros [= <- _]. by apply poll_flush_taken in Hp.
Qed.

#[export] Instance unix_stream_read_ok `{PollReadOk P} : PollReadOk (unix_impl.PipeStream P).
Proof.
  split; cbn; unfold unix_impl.stream_poll_read.
  - intros [p] room s' data. cbn. destruct (poll_read p room) as [p' r] eqn:Hp.
    intros [= <- ->]. by apply poll_read_ok in Hp.
  - intros [p] room s' e. cbn. destruct (poll_read p room) as [p' r] eqn:Hp.
    intros [= <- ->]. by apply poll_read_err in Hp.
Qed.

#[export] Instance unix_async_write `{PollWrite P} : AsyncWrite (unix_impl.PipeStream P) :=
  polled_async_write _.
#[export] Instance unix_async_write_ok `{PollWriteOk P} : AsyncWriteOk (unix_impl.PipeStream P).
Proof. exact (polled_async_write_ok _). Qed.

(** ** Properties *)

(** Reading a stream to its end: [rooms] are the sizes of the buffers. *)
Fixpoint read_all {P} `{!PollRead P} (p : P) (rooms : list nat) : P * bytes :=
  match rooms with
  | [] => (p, [])
  | room :: rooms =>
    match poll_read p room with
    | (p, Ok data) => let '(p, rest) := read_all p rooms in (p, data ++ rest)
    | (p, Err _) => read_all p rooms
    end
  end.

(** Whatever buffers it is read with, and whatever reads fail in between, the
    stream delivers the bytes of the socket in order, without loss. *)
Theorem reads_in_order `{PollReadOk P} (s : unix_impl.PipeStream P) (rooms : list nat) :
  let '(s', data) := read_all s rooms in incoming s = data ++ incoming s'.
Proof.
  revert s. induction rooms as [|room rooms IH]; intros s; cbn [read_all]; [done|].
  destruct (poll_read s room) as [s1 [data|e]] eqn:Hp.
  - apply poll_read_ok in Hp as [_ ->]. specialize (IH s1).
    destruct (read_all s1 rooms) as [s2 rest]. by rewrite IH, app_assoc.
  - apply poll_read_err in Hp. specialize (IH s1).
    destruct (read_all s1 rooms) as [s2 rest]. by rewrite <- Hp.
Qed.
