(* ===== verification/WindowsPipe.v ===== *)
(** * Named pipes (src/transport/pipe.rs, [windows_impl])

    The Windows half of the transport: the pipe path, [PipeListener] over the
    namespace of named pipes, and [PipeStream] as a writer without vectored
    writes. *)

From S2P Require Import Prelude Errors Writer Transport PollIo.

(** ** The system *)

(** The named pipes of the system: how many instances of a name exist, and
    [ServerOptions::create], whose flag is [first_pipe_instance]; dropping a
    [NamedPipeServer] closes its instance.  A client can open a name only
    while an instance of it exists. *)
Class NamedPipes (N : Type) := {
  pipe_instances : N → string → nat;
  create_instance : N → bool → string → N * result io_Error unit;
  close_instance : N → string → N
}.

(** The documented behaviour: creating adds an instance, or changes nothing
    when it fails, and asked for the first instance it fails when there is
    one; closing removes one. *)
Class NamedPipesOk (N : Type) `{NamedPipes N} : Prop := {
  create_instance_ok n first p n' q :
    create_instance n first p = (n', Ok tt) →
    pipe_instances n' q
    = if decide (q = p) then S (pipe_instances n q) else pipe_instances n q;
  create_instance_first n p n' :
    create_instance n true p = (n', Ok tt) → pipe_instances n p = 0%nat;
  create_instance_err n first p n' e q :
    create_instance n first p = (n', Err e) → pipe_instances n' q = pipe_instances n q;
  close_instance_ok n p q :
    pipe_instances (close_instance n p) q
    = if decide (q = p) then Nat.pred (pipe_instances n q) else pipe_instances n q
}.

(** ** [generate_pipe_path] *)
Definition pipe_path_windows (pid : u32) (rand : u64) : string :=
  "\\.\pipe\procwire-" +:+ pretty (Z.to_N pid) +:+ "-" +:+ hex rand.

Definition generate_pipe_path_windows (pid : u32) (counter : u64) (clock_nanos : option Z) :
  string * u64 :=
  let '(rand, counter) := rand_u64 counter clock_nanos pid in
  (pipe_path_windows pid rand, counter).

Module windows_impl.

(** ** [PipeListener] *)
Section Listener.
Context `{TP : ThirdParty} {N : Type} `{!NamedPipes N} {P : Type}.

Record PipeListener := { path : string }.
Record PipeStream := { pipe : P }.

(** The instance made to verify the path is dropped at the end of the
    statement. *)
Definition bind (n : N) (p : string) : N * Result PipeListener :=
  match create_instance n true p with
  | (n, Err e) => (n, Err (Io e))
  | (n, Ok _) => (close_instance n p, Ok {| path := p |})
  end.

Definition create_pipe_listener : N → string → N * Result PipeListener := bind.

(** [connected]: what [server.connect()] returns, [None] while no client has
    come. *)
Definition accept (n : N) (l : PipeListener) (connected : option (result io_Error P)) :
  N * option (Result PipeStream) :=
  match create_instance n false (path l) with
  | (n, Err e) => (n, Some (Err (Io e)))
  | (n, Ok _) =>
    match connected with
    | None => (n, None)
    | Some (Err e) => (close_instance n (path l), Some (Err (Io e)))
    | Some (Ok p) => (n, Some (Ok {| pipe := p |}))
    end
  end.

(** [PipeCleanup] does nothing. *)
Record PipeCleanup := { cleanup_path : string }.
Definition cleanup_guard (l : PipeListener) : PipeCleanup := {| cleanup_path := path l |}.
Definition drop_cleanup (n : N) (c : PipeCleanup) : N := n.

Definition inner (s : PipeStream) : P := pipe s.

(** A mutable reference: what it shows and what replacing its target does. *)
Definition inner_mut (s : PipeStream) : P * (P → PipeStream) := (pipe s, λ p, {| pipe := p |}).
End Listener.
#[global] Arguments PipeStream : clear implicits.

(** ** [AsyncRead] and [AsyncWrite for PipeStream] *)
Section Stream.
Context {P : Type} `{!PollRead P, !PollWrite P}.

Definition stream_poll_read (s : PipeStream P) (room : nat) : PipeStream P * result io_Error bytes :=
  let '(p, r) := poll_read (pipe s) room in ({| pipe := p |}, r).
Definition stream_poll_write (s : PipeStream P) (buf : bytes) : PipeStream P * result io_Error nat :=
  let '(p, r) := poll_write (pipe s) buf in ({| pipe := p |}, r).
Definition stream_poll_flush (s : PipeStream P) : PipeStream P * result io_Error unit :=
  let '(p, r) := poll_flush (pipe s) in ({| pipe := p |}, r).
Definition stream_poll_shutdown (s : PipeStream P) : PipeStream P * result io_Error unit :=
  let '(p, r) := poll_shutdown (pipe s) in ({| pipe := p |}, r).

(** [tokio::io::split] of the stream itself. *)
Definition into_split {R Wr} `{!IntoSplit (PipeStream P) R Wr} (s : PipeStream P) : R * Wr :=
  split_halves s.

#[export] Instance stream_poll_reader : PollRead (PipeStream P) := {|
  poll_read := stream_poll_read;
  incoming s := incoming (pipe s)
|}.

#[export] Instance stream_poll_writer : PollWrite (PipeStream P) := {|
  poll_write := stream_poll_write;
  poll_flush := stream_poll_flush;
  poll_shutdown := stream_poll_shutdown;
  taken s := taken (pipe s)
|}.
End Stream.
End windows_impl.
Export (hints) windows_impl.

(** ** Lemmas *)

(** The stream keeps the contract of the pipe it passes the calls on to, so
    the halves of its split are a reader and a writer. *)
#[export] Instance windows_stream_write_ok `{PollWriteOk P} :
  PollWriteOk (windows_impl.PipeStream P).
Proof.
  split; cbn; unfold windows_impl.stream_poll_write, windows_impl.stream_poll_flush.
  - intros [p] buf s' n. cbn. destruct (poll_write p buf) as [p' r] eqn:Hp.
    intros [= <- ->]. by apply poll_write_ok in Hp.
  - intros [p] buf s' e. cbn. destruct (poll_write p buf) as [p' r] eqn:Hp.
    intros [= <- ->]. by apply poll_write_err in Hp.
  - intros [p] s' r. cbn. destruct (poll_flush p) as [p' r'] eqn:Hp.
    intros [= <- _]. by apply poll_flush_taken in Hp.
Qed.

#[export] Instance windows_stream_read_ok `{PollReadOk P} :
  PollReadOk (windows_impl.PipeStream P).
Proof.
  split; cbn; unfold windows_impl.stream_poll_read.
  - intros [p] room s' data. cbn. destruct (poll_read p room) as [p' r] eqn:Hp.
    intros [= <- ->]. by apply poll_read_ok in Hp.
  - intros [p] room s' e. cbn. destruct (poll_read p room) as [p' r] eqn:Hp.
    intros [= <- ->]. by apply poll_read_err in Hp.
Qed.

#[export] Instance windows_async_write `{PollWrite P} : AsyncWrite (windows_impl.PipeStream P) :=
  polled_async_write _.
#[export] Instance windows_async_write_ok `{PollWriteOk P} :
  AsyncWriteOk (windows_impl.PipeStream P).
Proof. exact (polled_async_write_ok _). Qed.

(** Counts per name, for evaluation. *)
#[export] Instance counted_pipes : NamedPipes (gmap string nat) := {|
  pipe_instances n p := default 0%nat (n !! p);
  create_instance n first p :=
    if decide (first = true ∧ default 0%nat (n !! p) ≠ 0%nat)
    then (n, Err (os_error "Access is denied"))
    else (<[p := S (default 0%nat (n !! p))]> n, Ok tt);
  close_instance n p := <[p := Nat.pred (default 0%nat (n !! p))]> n
|}.

#[export] Instance counted_pipes_ok : NamedPipesOk (gmap string nat).
Proof.
  split; cbn.
  - intros n first p n' q. case_decide as Hd; [done|]. intros [= <-].
    destruct (decide (q = p)) as [->|Hne]; [by rewrite lookup_insert_eq|].
    by rewrite lookup_insert_ne by done.
  - intros n p n'. case_decide as Hd; [done|]. intros _.
    destruct (default 0%nat (n !! p)); [done|]. by destruct Hd.
  - intros n first p n' e q. case_decide as Hd; [|done]. by intros [= <- _].
  - intros n p q. destruct (decide (q = p)) as [->|Hne]; [by rewrite lookup_insert_eq|].
    by rewrite lookup_insert_ne by done.
Qed.

(** ** Properties *)

(** C40: on Windows a bound listener does not listen.  [bind] creates the pipe
    and drops it again: when it returns [Ok], every name has as many instances
    as before and its own has none, so from there until [accept] a parent that
    tries to open the announced path finds no pipe.  [accept] then creates an
    instance without asking for the first one, so it goes ahead although
    another process has created the pipe in between. *)
Theorem bind_does_not_listen `{TP : ThirdParty} {N : Type} `{NamedPipesOk N} (n n' : N)
  (p : string) (l : windows_impl.PipeListener) :
  windows_impl.bind n p = (n', Ok l) →
  windows_impl.path l = p ∧ pipe_instances n' p = 0%nat
  ∧ (∀ q, pipe_instances n' q = pipe_instances n q)
  ∧ ∀ (P : Type) n1 n2 (r : option (Result (windows_impl.PipeStream P))),
      windows_impl.accept n1 l None = (n2, r) →
      (r = None → pipe_instances n2 p = S (pipe_instances n1 p))
      ∧ (r ≠ None → ∃ e, r = Some (Err (Io e))).
Proof.
  unfold windows_impl.bind.
  destruct (create_instance n true p) as [n1 [[]|e]] eqn:Hc; [|done]. intros [= <- <-].
  pose proof (create_instance_first _ _ _ Hc) as Hzero.
  assert (Hsame : ∀ q, pipe_instances (close_instance n1 p) q = pipe_instances n q).
  { intros q. rewrite close_instance_ok, (create_instance_ok _ _ _ _ q Hc).
    by destruct (decide (q = p)). }
  split_and!; [done|by rewrite Hsame|done|]. intros P n2 n3 r. unfold windows_impl.accept. cbn.
  destruct (create_instance n2 false p) as [n4 [[]|e]] eqn:Hc'; intros [= <- <-].
  - split; [|done]. intros _. rewrite (create_instance_ok _ _ _ _ p Hc').
    by rewrite decide_True.
  - split; [done|]. intros _. by exists e.
Qed.

Lemma bind_does_not_listen_witness :
  let n : gmap string nat := {["other"%string := 1%nat]} in
  ∃ l n', windows_impl.bind (TP := string_errors) n "p" = (n', Ok l)
    ∧ pipe_instances n' "p" = 0%nat.
Proof.
  intros n. eexists _, _. split; [reflexivity|].
  exact (proj1 (proj2 (bind_does_not_listen (TP := string_errors) n _ "p" _ eq_refl))).
Defined.

(** The paths of one process differ on Windows as well. *)
Theorem windows_paths_distinct (pid : u32) (clock : option Z) (c1 c2 : u64) :
  fits 32 pid → fits 64 c1 → fits 64 c2 → c1 ≠ c2 →
  (generate_pipe_path_windows pid c1 clock).1 ≠ (generate_pipe_path_windows pid c2 clock).1.
Proof.
  intros Hp H1 H2 Hne Heq. apply Hne. unfold generate_pipe_path_windows in Heq.
  pose proof (rand_u64_fits c1 clock pid Hp) as F1.
  pose proof (rand_u64_fits c2 clock pid Hp) as F2.
  apply (rand_u64_inj c1 c2 clock pid H1 H2).
  destruct (rand_u64 c1 clock pid) as [r1 m1], (rand_u64 c2 clock pid) as [r2 m2].
  cbn [fst] in *. unfold pipe_path_windows in Heq.
  repeat apply (inj (String.append _)) in Heq. by apply hex_inj.
Qed.
