(* ===== verification/Session.v ===== *)
(** * The data-plane session (src/client.rs: authentication, accepting, reading)

    From accepted connections to the sequence of frames that is dispatched.
    The read half of a connection is the list of what its reads return: a
    chunk, the empty chunk at the end of the stream, or an error; when the list
    is exhausted the next read never returns.  The write half is opaque here;
    the writer task gets that of the adopted connection. *)

From S2P Require Import Prelude Errors WireFormat Frame FrameBuffer Json.

(** ** [constant_time_eq] *)
Definition constant_time_eq (a b : bytes) : bool :=
  if decide (length a ≠ length b) then false
  else
    let diff := foldl (λ diff '(x, y), Z.lor diff (Z.lxor x y)) 0 (zip a b) in
    diff =? 0.

Abbreviation socket_read := (result io_Error bytes).

Section Session.
Context `{TP : ThirdParty}.

(** ** [run_auth_handshake] *)
Inductive AuthOutcome :=
| Adopted (fb : FrameBuffer) (pending_frames : list Frame)
| Rejected.

(** The loop; with the outcome come the reads it has not made.  [None]: it
    waits for a read. *)
Fixpoint auth_loop (fb : FrameBuffer) (token : bytes) (reads : list socket_read) :
  option (AuthOutcome * list socket_read) :=
  match reads with
  | [] => None
  | Ok [] :: reads => Some (Rejected, reads)
  | Err _ :: reads => Some (Rejected, reads)
  | Ok chunk :: reads =>
    match push fb chunk with
    | (_, Err _) => Some (Rejected, reads)
    | (fb, Ok []) => auth_loop fb token reads
    | (fb, Ok (first :: frames)) =>
      if (method_id (header first) =? AUTH_METHOD_ID)
         && constant_time_eq (payload first) token
      then Some (Adopted fb frames, reads)
      else Some (Rejected, reads)
    end
  end.

Definition run_auth_handshake (reads : list socket_read) (token : string) (max : u32) :
  option (AuthOutcome * list socket_read) :=
  auth_loop (with_max_payload max) (as_bytes token) reads.

(** ** The accept loop of [Client::start] *)

(** [PipeStream], as its two halves. *)
Record PipeStream (W : Type) := { ps_reads : list socket_read; ps_write : W }.
#[global] Arguments ps_reads {W} _.
#[global] Arguments ps_write {W} _.

(** The adopted connection: what is left to read, the write half, the buffer
    and the frames pipelined behind the AUTH frame. *)
Record Adoption (W : Type) := {
  ad_reads : list socket_read;
  ad_write : W;
  ad_buffer : FrameBuffer;
  ad_initial : list Frame
}.
#[global] Arguments ad_reads {W} _.
#[global] Arguments ad_write {W} _.
#[global] Arguments ad_buffer {W} _.
#[global] Arguments ad_initial {W} _.

Context {W : Type}.

(** [accepts] is what [accept] returns, call after call; [None]: the loop
    waits, in [accept] or in a handshake. *)
Fixpoint accept_parent (auth_token : option string) (max : u32)
  (accepts : list (result io_Error (PipeStream W))) : option (Result (Adoption W)) :=
  match accepts with
  | [] => None
  | Err e :: _ => Some (Err (Io e))
  | Ok stream :: accepts =>
    match auth_token with
    | None =>
      Some (Ok {| ad_reads := ps_reads stream; ad_write := ps_write stream;
                  ad_buffer := with_max_payload max; ad_initial := [] |})
    | Some token =>
      match run_auth_handshake (ps_reads stream) token max with
      | None => None
      | Some (Adopted fb frames, reads) =>
        Some (Ok {| ad_reads := reads; ad_write := ps_write stream;
                    ad_buffer := fb; ad_initial := frames |})
      | Some (Rejected, _) => accept_parent auth_token max accepts
      end
    end
  end.

(** ** [read_loop] *)

(** The frames dispatched, in order, and the result of the loop ([None]: it
    waits for a read). *)
Fixpoint read_loop_from (fb : FrameBuffer) (reads : list socket_read) :
  list Frame * option (Result unit) :=
  match reads with
  | [] => ([], None)
  | Ok [] :: _ => ([], Some (Ok tt))
  | Err e :: _ => ([], Some (Err (Io e)))
  | Ok chunk :: reads =>
    match push fb chunk with
    | (_, Err e) => ([], Some (Err e))
    | (fb, Ok frames) =>
      let '(frames', x) := read_loop_from fb reads in (frames ++ frames', x)
    end
  end.

Definition read_loop (a : Adoption W) : list Frame * option (Result unit) :=
  let '(frames, x) := read_loop_from (ad_buffer a) (ad_reads a) in
  (ad_initial a ++ frames, x).
End Session.

(** ** Lemmas *)

Lemma lor_eq_0 a b : Z.lor a b = 0 ↔ a = 0 ∧ b = 0.
Proof. apply Z.lor_eq_0_iff. Qed.

Lemma constant_time_diff (l : list (Z * Z)) d :
  foldl (λ diff '(x, y), Z.lor diff (Z.lxor x y)) d l = 0 ↔
  d = 0 ∧ Forall (λ p, p.1 = p.2) l.
Proof.
  revert d. induction l as [|[x y] l IH]; intros d; cbn [foldl].
  { split; [by split|by intros []]. }
  rewrite IH, lor_eq_0, Z.lxor_eq_0_iff, Forall_cons. cbn. tauto.
Qed.

Lemma constant_time_eq_true a b : constant_time_eq a b = true ↔ a = b.
Proof.
  unfold constant_time_eq. case_decide as Hl.
  { split; [done|]. by intros ->. }
  rewrite Z.eqb_eq, constant_time_diff. split; [|intros ->].
  - intros [_ H]. revert b Hl H. induction a as [|x a IH]; intros [|y b] Hl H; try done.
    cbn [zip zip_with] in H. apply Forall_cons in H as [Hxy H]. cbn in Hxy. f_equal; [done|].
    apply IH; [by injection Hl|done].
  - split; [done|]. clear Hl. induction b as [|y b IH]; cbn; by constructor.
Qed.

(** A connection that delivers byte chunks. *)
Definition read_ok (r : socket_read) : Prop :=
  match r with Ok chunk => is_bytes chunk | Err _ => True end.

Definition stream_ok {W} (r : result io_Error (PipeStream W)) : Prop :=
  match r with Ok stream => Forall read_ok (ps_reads stream) | Err _ => True end.

Definition nonempty (chunk : bytes) : Prop := chunk ≠ [].

Section Lemmas.
Context `{TP : ThirdParty}.

(** The buffer after a stream without protocol errors. *)
Definition holds (max : u32) (rest : bytes) (fb : FrameBuffer) : Prop :=
  fb_inv fb ∧ settled fb ∧ max_payload_size fb = max ∧ stream_of fb = rest.

Lemma holds_fresh max : holds max [] (with_max_payload max).
Proof. split_and!; [apply with_max_payload_inv|apply with_max_payload_settled|done|done]. Qed.

(** One chunk of a stream that has no protocol error so far. *)
Lemma push_holds max bs fb c fs rest :
  holds max bs fb → is_bytes c → parse max (bs ++ c) = (fs, rest, None) →
  ∃ fb', push fb c = (fb', Ok fs) ∧ holds max rest fb'.
Proof.
  intros (Hi & _ & Hm & Hs) Hc Hp. pose proof (push_spec fb c Hi Hc) as Hsp.
  rewrite Hm, Hs, Hp in Hsp. destruct (push fb c) as [fb' r].
  destruct Hsp as (Hi' & Hm' & Hs' & -> & Hset). exists fb'. split; [done|].
  by split_and!; [| |rewrite Hm'|].
Qed.

Lemma push_holds_error max bs fb c fs rest e :
  holds max bs fb → is_bytes c → parse max (bs ++ c) = (fs, rest, Some e) →
  ∃ fb', push fb c = (fb', Err e).
Proof.
  intros (Hi & _ & Hm & Hs) Hc Hp. pose proof (push_spec fb c Hi Hc) as Hsp.
  rewrite Hm, Hs, Hp in Hsp. destruct (push fb c) as [fb' r].
  destruct Hsp as (_ & _ & _ & -> & _). by exists fb'.
Qed.

Lemma push_holds_inv max bs fb c fb' fs :
  holds max bs fb → is_bytes c → push fb c = (fb', Ok fs) →
  ∃ rest, parse max (bs ++ c) = (fs, rest, None) ∧ holds max rest fb'.
Proof.
  intros (Hi & _ & Hm & Hs) Hc Hpush. pose proof (push_spec fb c Hi Hc) as Hsp.
  rewrite Hm, Hs, Hpush in Hsp. destruct (parse max (bs ++ c)) as [[gs rest] e].
  destruct Hsp as (Hi' & Hm' & Hs' & He). destruct e; [by destruct He|].
  destruct He as [[= <-] Hset]. exists rest. split; [done|].
  by split_and!; [| |rewrite Hm'|].
Qed.

(** Splitting off the first chunk of an error-free stream. *)
Lemma parse_first_chunk max bs c cs fs rest :
  parse max (bs ++ concat (c :: cs)) = (fs, rest, None) →
  ∃ fs1 rest1 fs2, parse max (bs ++ c) = (fs1, rest1, None)
    ∧ parse max (rest1 ++ concat cs) = (fs2, rest, None) ∧ fs = fs1 ++ fs2.
Proof.
  cbn [concat]. rewrite app_assoc.
  destruct (parse max (bs ++ c)) as [[fs1 rest1] e1] eqn:H1.
  rewrite (parse_app _ _ (concat cs) _ _ _ H1). destruct e1 as [e1|]; [done|].
  destruct (parse max (rest1 ++ concat cs)) as [[fs2 rest2] e2] eqn:H2.
  intros [= <- <- ->]. by exists fs1, rest1, fs2.
Qed.

Lemma read_loop_chunks max bs fb cs tl fs rest :
  holds max bs fb → Forall is_bytes cs → Forall nonempty cs →
  parse max (bs ++ concat cs) = (fs, rest, None) →
  ∃ fb', holds max rest fb'
    ∧ read_loop_from fb ((Ok <$> cs) ++ tl)
      = (let '(fs', x) := read_loop_from fb' tl in (fs ++ fs', x)).
Proof.
  intros Hfb Hb Hne. revert bs fb fs Hfb. induction cs as [|c cs IH]; intros bs fb fs Hfb Hp.
  { cbn [concat] in Hp. rewrite app_nil_r in Hp. exists fb.
    pose proof Hfb as (Hi & Hset & <- & <-). rewrite settled_parse in Hp by done.
    injection Hp as <- <-. split; [done|]. cbn. by destruct (read_loop_from fb tl). }
  apply Forall_cons in Hb as [Hbc Hb]. apply Forall_cons in Hne as [Hc Hne].
  apply parse_first_chunk in Hp as (fs1 & rest1 & fs2 & H1 & H2 & ->).
  destruct (push_holds _ _ _ _ _ _ Hfb Hbc H1) as (fb1 & Hpush & Hfb1).
  destruct (IH Hb Hne _ _ _ Hfb1 H2) as (fb' & Hfb' & Hl). exists fb'. split; [done|].
  destruct c as [|b c]; [done|]. cbn [fmap list_fmap app read_loop_from]. rewrite Hpush.
  change (list_fmap bytes socket_read Ok cs) with (Ok (E := io_Error) <$> cs). rewrite Hl.
  destruct (read_loop_from fb' tl) as [fs' x]. by rewrite app_assoc.
Qed.

(** An adopted connection has sent the token. *)
Lemma auth_loop_adopted max bs fb token reads fb' frames reads' :
  holds max bs fb → Forall read_ok reads →
  auth_loop fb token reads = Some (Adopted fb' frames, reads') →
  ∃ cs f rest, reads = (Ok <$> cs) ++ reads' ∧ Forall is_bytes cs
    ∧ parse max (bs ++ concat cs) = (f :: frames, rest, None) ∧ holds max rest fb'
    ∧ method_id (header f) = AUTH_METHOD_ID ∧ payload f = token.
Proof.
  intros Hfb Hok. revert bs fb Hfb. induction Hok as [|r reads Hr Hok IH]; intros bs fb Hfb Hl;
    cbn [auth_loop] in Hl; [done|]. destruct r as [[|b c]|e]; [done| |done].
  destruct (push fb (b :: c)) as [fb1 [[|f fs]|e]] eqn:Hpush; [| |done].
  - destruct (push_holds_inv _ _ _ _ _ _ Hfb Hr Hpush) as (rest & Hp & Hfb1).
    destruct (IH _ _ Hfb1 Hl) as (cs & f & rest' & -> & Hcs & Hp' & Hh & Ha).
    exists ((b :: c) :: cs), f, rest'. split; [done|]. split; [by constructor|].
    split; [|done]. cbn [concat]. rewrite app_assoc.
    rewrite (parse_app _ _ _ _ _ _ Hp). by rewrite Hp'.
  - destruct (push_holds_inv _ _ _ _ _ _ Hfb Hr Hpush) as (rest & Hp & Hfb1).
    destruct (method_id (header f) =? AUTH_METHOD_ID) eqn:Hm; [|done].
    destruct (constant_time_eq (payload f) token) eqn:Ht; [|done].
    cbn in Hl. injection Hl as <- <- <-. exists [b :: c], f, rest.
    split; [done|]. split; [by constructor|]. cbn [concat]. rewrite app_nil_r.
    split; [done|]. split; [done|]. split; [lia|]. by apply constant_time_eq_true.
Qed.

Definition is_auth_frame (token : bytes) (f : Frame) : bool :=
  (method_id (header f) =? AUTH_METHOD_ID) && constant_time_eq (payload f) token.

(** The handshake on an error-free stream, by its frames. *)
Lemma auth_loop_stream max bs fb token cs tl fs rest :
  holds max bs fb → Forall is_bytes cs → Forall nonempty cs →
  parse max (bs ++ concat cs) = (fs, rest, None) →
  match fs with
  | [] => ∃ fb', holds max rest fb'
      ∧ auth_loop fb token ((Ok <$> cs) ++ tl) = auth_loop fb' token tl
  | f :: fs =>
    if is_auth_frame token f then
      ∃ fb' frames cs' bs' fs', auth_loop fb token ((Ok <$> cs) ++ tl)
          = Some (Adopted fb' frames, (Ok <$> cs') ++ tl)
        ∧ holds max bs' fb' ∧ Forall is_bytes cs' ∧ Forall nonempty cs'
        ∧ parse max (bs' ++ concat cs') = (fs', rest, None) ∧ fs = frames ++ fs'
    else ∃ reads', auth_loop fb token ((Ok <$> cs) ++ tl) = Some (Rejected, reads')
  end.
Proof.
  intros Hfb Hb Hne. revert bs fb fs Hfb. induction cs as [|c cs IH]; intros bs fb fs Hfb Hp.
  { cbn [concat] in Hp. rewrite app_nil_r in Hp.
    pose proof Hfb as (Hi & Hset & <- & <-). rewrite settled_parse in Hp by done.
    injection Hp as <- <-. by exists fb. }
  apply Forall_cons in Hb as [Hbc Hb]. apply Forall_cons in Hne as [Hc Hne].
  apply parse_first_chunk in Hp as (fs1 & rest1 & fs2 & H1 & H2 & ->).
  destruct (push_holds _ _ _ _ _ _ Hfb Hbc H1) as (fb1 & Hpush & Hfb1).
  destruct c as [|b c]; [done|]. cbn [fmap list_fmap app auth_loop]. rewrite Hpush.
  change (list_fmap bytes socket_read Ok cs) with (Ok (E := io_Error) <$> cs).
  destruct fs1 as [|f fs1]; [by apply (IH Hb Hne rest1)|]. cbn [app].
  fold (is_auth_frame token f). destruct (is_auth_frame token f); [|by eexists].
  by exists fb1, fs1, cs, rest1, fs2.
Qed.

(** The handshake on a stream with a protocol error that does not open with
    the right frame. *)
Lemma auth_loop_malformed max bs fb token cs tl fs rest e :
  holds max bs fb → Forall is_bytes cs → Forall nonempty cs →
  parse max (bs ++ concat cs) = (fs, rest, Some e) →
  (∀ f fs', fs = f :: fs' → is_auth_frame token f = false) →
  ∃ reads', auth_loop fb token ((Ok <$> cs) ++ tl) = Some (Rejected, reads').
Proof.
  intros Hfb Hb Hne. revert bs fb fs Hfb. induction cs as [|c cs IH]; intros bs fb fs Hfb Hp Hfs.
  { cbn [concat] in Hp. rewrite app_nil_r in Hp.
    destruct Hfb as (Hi & Hset & <- & <-). by rewrite settled_parse in Hp. }
  apply Forall_cons in Hb as [Hbc Hb]. apply Forall_cons in Hne as [Hc Hne].
  destruct c as [|b c]; [done|]. cbn [fmap list_fmap app auth_loop concat] in *.
  change (list_fmap bytes socket_read Ok cs) with (Ok (E := io_Error) <$> cs).
  rewrite app_comm_cons, app_assoc in Hp.
  destruct (parse max (bs ++ b :: c)) as [[fs1 rest1] [e1|]] eqn:H1.
  { destruct (push_holds_error _ _ _ _ _ _ _ Hfb Hbc H1) as (fb' & ->). by eexists. }
  destruct (push_holds _ _ _ _ _ _ Hfb Hbc H1) as (fb1 & -> & Hfb1).
  rewrite (parse_app _ _ _ _ _ _ H1) in Hp.
  destruct (parse max (rest1 ++ concat cs)) as [[fs2 rest2] e2] eqn:H2. injection Hp as <- -> ->.
  destruct fs1 as [|f fs1]; [by apply (IH Hb Hne rest1 fb1 fs2)|].
  fold (is_auth_frame token f). rewrite (Hfs f (fs1 ++ fs2) eq_refl). by eexists.
Qed.

(** The read loop on a stream without a frame in front of its error. *)
Lemma read_loop_malformed max bs fb cs tl rest e :
  holds max bs fb → Forall is_bytes cs → Forall nonempty cs →
  parse max (bs ++ concat cs) = ([], rest, Some e) →
  read_loop_from fb ((Ok <$> cs) ++ tl) = ([], Some (Err e)).
Proof.
  intros Hfb Hb Hne. revert bs fb Hfb. induction cs as [|c cs IH]; intros bs fb Hfb Hp.
  { cbn [concat] in Hp. rewrite app_nil_r in Hp.
    destruct Hfb as (Hi & Hset & <- & <-). by rewrite settled_parse in Hp. }
  apply Forall_cons in Hb as [Hbc Hb]. apply Forall_cons in Hne as [Hc Hne].
  destruct c as [|b c]; [done|]. cbn [fmap list_fmap app read_loop_from concat] in *.
  change (list_fmap bytes socket_read Ok cs) with (Ok (E := io_Error) <$> cs).
  rewrite app_comm_cons, app_assoc in Hp.
  destruct (parse max (bs ++ b :: c)) as [[fs1 rest1] [e1|]] eqn:H1;
    rewrite (parse_app _ _ _ _ _ _ H1) in Hp.
  { injection Hp as -> _ <-. by destruct (push_holds_error _ _ _ _ _ _ _ Hfb Hbc H1) as (fb' & ->). }
  destruct (push_holds _ _ _ _ _ _ Hfb Hbc H1) as (fb1 & -> & Hfb1).
  destruct (parse max (rest1 ++ concat cs)) as [[fs2 rest2] e2] eqn:H2.
  destruct fs1 as [|f fs1]; [|done]. injection Hp as -> -> ->.
  by rewrite (IH Hb Hne rest1 fb1 Hfb1 H2).
Qed.

(** Everything dispatched obeys the wire contract, whatever the reads return. *)
Lemma read_loop_from_wf max bs fb reads :
  holds max bs fb → Forall read_ok reads → Forall (frame_wf max) (read_loop_from fb reads).1.
Proof.
  intros Hfb Hok. revert bs fb Hfb. induction Hok as [|r reads Hr _ IH]; intros bs fb Hfb;
    cbn [read_loop_from]; [constructor|]. destruct r as [[|b c]|e]; [constructor| |constructor].
  destruct (push fb (b :: c)) as [fb' [fs|e]] eqn:Hpush; [|constructor].
  destruct (push_holds_inv _ _ _ _ _ _ Hfb Hr Hpush) as (rest & Hp & Hfb').
  specialize (IH _ _ Hfb'). destruct (read_loop_from fb' reads) as [fs' x].
  apply Forall_app_2; [|exact IH]. apply parse_frames_wf in Hp as (Hfs & _ & _); [done|].
  apply is_bytes_app. split; [|done]. destruct Hfb as (Hi & _ & _ & <-). by apply stream_of_bytes.
Qed.

Lemma adopted_frames_wf {W} token max (accepts : list (result io_Error (PipeStream W))) a :
  Forall stream_ok accepts → accept_parent token max accepts = Some (Ok a) →
  Forall (frame_wf max) (read_loop a).1.
Proof.
  assert (Hloop : ∀ fs bs fb reads, Forall (frame_wf max) fs → holds max bs fb →
    Forall read_ok reads → Forall (frame_wf max) (fs ++ (read_loop_from fb reads).1)).
  { intros fs bs fb reads Hfs Hfb Hr. apply Forall_app_2; [done|by eapply read_loop_from_wf]. }
  assert (Heq : (read_loop a).1 = ad_initial a ++ (read_loop_from (ad_buffer a) (ad_reads a)).1).
  { unfold read_loop. by destruct (read_loop_from _ _). }
  rewrite Heq. induction 1 as [|r accepts Hr _ IH]; cbn [accept_parent]; [done|].
  destruct r as [[reads wh]|e]; [|done]. cbn [stream_ok ps_reads ps_write] in Hr |- *.
  destruct token as [token|].
  2: { intros [= <-]. by apply (Hloop [] [] (with_max_payload max)); [|apply holds_fresh|]. }
  unfold run_auth_handshake.
  destruct (auth_loop _ _ reads) as [[[fb frames|] reads']|] eqn:Hl; [|exact IH|done].
  intros [= <-]. cbn [ad_initial ad_buffer ad_reads].
  destruct (auth_loop_adopted _ _ _ _ _ _ _ _ (holds_fresh max) Hr Hl)
    as (cs & f & rest & -> & Hcs & Hp & Hfb & _). cbn [app] in Hp.
  apply parse_frames_wf in Hp as (Hfs & _ & _); [|by apply Forall_concat].
  apply Forall_cons in Hfs as [_ Hfs]. apply Forall_app in Hr as [_ Hr].
  by apply (Hloop _ rest).
Qed.

(** The connection adopted with a token has authenticated. *)
Lemma adopted_authenticated {W} token max (accepts : list (result io_Error (PipeStream W))) a :
  Forall stream_ok accepts →
  accept_parent (Some token) max accepts = Some (Ok a) →
  ∃ before conn after cs f, accepts = before ++ Ok conn :: after
    ∧ ps_reads conn = (Ok <$> cs) ++ ad_reads a ∧ ps_write conn = ad_write a
    ∧ method_id (header f) = AUTH_METHOD_ID ∧ payload f = as_bytes token
    ∧ concat cs = frame_bytes f ++ concat (frame_bytes <$> ad_initial a)
                  ++ stream_of (ad_buffer a).
Proof.
  induction 1 as [|r accepts Hr _ IH]; cbn [accept_parent]; [done|].
  destruct r as [[reads wh]|e]; [|done]. unfold run_auth_handshake.
  cbn [stream_ok ps_reads ps_write] in Hr |- *.
  destruct (auth_loop _ _ reads) as [[[fb frames|] reads']|] eqn:Hl; [| |done].
  - intros [= <-]. cbn [ad_reads ad_write ad_buffer ad_initial].
    destruct (auth_loop_adopted _ _ _ _ _ _ _ _ (holds_fresh max) Hr Hl)
      as (cs & f & rest & -> & Hcs & Hp & (_ & _ & _ & <-) & Hm & Ht).
    exists [], {| ps_reads := (Ok <$> cs) ++ reads'; ps_write := wh |}, accepts, cs, f.
    split_and!; try done.
    cbn [app] in Hp. apply parse_frames_wf in Hp as (_ & -> & _); [|by apply Forall_concat].
    cbn [fmap list_fmap concat app]. by rewrite <- app_assoc.
  - intros Ha. destruct (IH Ha) as (before & conn & after & cs & f & -> & H).
    by exists (Ok {| ps_reads := reads; ps_write := wh |} :: before), conn, after, cs, f.
Qed.
End Lemmas.

(** ** Properties *)

(** The comparison of the authentication token decides equality, lengths
    included; accumulating the differences loses none. *)
Theorem constant_time_eq_spec (a b : bytes) : constant_time_eq a b = true ↔ a = b.
Proof. apply constant_time_eq_true. Qed.

(** C28: with a token configured, a connection is adopted only if the bytes it
    has sent begin with an AUTH frame that carries exactly the token; every
    byte after that frame is kept, as the frames handed on to dispatch and the
    contents of the buffer; what the reads have not consumed stays to be read;
    and the write half kept is that of the same connection. *)
Theorem auth_gate `{TP : ThirdParty} {W} (token : string) (max : u32)
  (accepts : list (result io_Error (PipeStream W))) (a : Adoption W) :
  Forall stream_ok accepts →
  accept_parent (Some token) max accepts = Some (Ok a) →
  ∃ before conn after cs f, accepts = before ++ Ok conn :: after
    ∧ ps_reads conn = (Ok <$> cs) ++ ad_reads a ∧ ps_write conn = ad_write a
    ∧ method_id (header f) = AUTH_METHOD_ID ∧ payload f = as_bytes token
    ∧ concat cs = frame_bytes f ++ concat (frame_bytes <$> ad_initial a)
                  ++ stream_of (ad_buffer a).
Proof.
  apply adopted_authenticated.
Qed.

(** A connection that sends whole frames without protocol errors and then
    closes is served exactly: without a token all its frames are dispatched in
    order; with a token it is adopted precisely if its first frame is AUTH
    with the token, and then all later frames are dispatched in order, however
    the stream is cut into reads; otherwise the next connection is tried. *)
Theorem session_frames `{TP : ThirdParty} {W} (token : option string) (max : u32)
  (cs : list bytes) (wh : W) (frames : list Frame) (rest : bytes)
  (accepts : list (result io_Error (PipeStream W))) :
  Forall is_bytes cs → Forall nonempty cs →
  parse max (concat cs) = (frames, rest, None) →
  let stream := {| ps_reads := (Ok <$> cs) ++ [Ok []]; ps_write := wh |} in
  let accepted := accept_parent token max (Ok stream :: accepts) in
  match token, frames with
  | None, _ =>
    ∃ a, accepted = Some (Ok a) ∧ ad_write a = wh ∧ read_loop a = (frames, Some (Ok tt))
  | Some t, f :: fs =>
    if decide (method_id (header f) = AUTH_METHOD_ID ∧ payload f = as_bytes t) then
      ∃ a, accepted = Some (Ok a) ∧ ad_write a = wh ∧ read_loop a = (fs, Some (Ok tt))
    else accepted = accept_parent token max accepts
  | Some _, [] => accepted = accept_parent token max accepts
  end.
Proof.
  intros Hb Hne Hp stream accepted. unfold accepted, stream. clear accepted stream.
  cbn [accept_parent ps_reads ps_write]. destruct token as [t|].
  2: { eexists. split; [reflexivity|]. split; [done|]. unfold read_loop. cbn [ad_buffer ad_reads ad_initial].
       destruct (read_loop_chunks max [] _ cs [Ok []] frames rest (holds_fresh max) Hb Hne Hp)
         as (fb' & _ & ->). cbn [read_loop_from app]. by rewrite app_nil_r. }
  unfold run_auth_handshake.
  pose proof (auth_loop_stream max [] _ (as_bytes t) cs [Ok []] frames rest
                (holds_fresh max) Hb Hne Hp) as Hs.
  destruct frames as [|f fs].
  { destruct Hs as (fb' & _ & ->). done. }
  assert (Hdec : is_auth_frame (as_bytes t) f = true ↔
    method_id (header f) = AUTH_METHOD_ID ∧ payload f = as_bytes t).
  { unfold is_auth_frame. by rewrite andb_true_iff, constant_time_eq_true, Z.eqb_eq. }
  destruct (is_auth_frame (as_bytes t) f).
  - rewrite decide_True by by apply Hdec.
    destruct Hs as (fb' & pend & cs' & bs' & fs' & -> & Hfb & Hb' & Hne' & Hp' & ->).
    eexists. split; [reflexivity|]. split; [done|]. unfold read_loop.
    cbn [ad_buffer ad_reads ad_initial].
    destruct (read_loop_chunks max bs' fb' cs' [Ok []] fs' rest Hfb Hb' Hne' Hp')
      as (fb'' & _ & ->). cbn [read_loop_from]. by rewrite app_nil_r.
  - rewrite decide_False by (rewrite <- Hdec; done). by destruct Hs as [reads' ->].
Qed.

(** There is no bound on the handshake: a connection that stays open
    without completing a first frame keeps the accept loop waiting for ever,
    whatever connections come after it. *)
Theorem silent_connection_blocks `{TP : ThirdParty} {W} (token : string) (max : u32)
  (cs : list bytes) (wh : W) (rest : bytes) (accepts : list (result io_Error (PipeStream W))) :
  Forall is_bytes cs → Forall nonempty cs → parse max (concat cs) = ([], rest, None) →
  accept_parent (Some token) max (Ok {| ps_reads := Ok <$> cs; ps_write := wh |} :: accepts)
  = None.
Proof.
  intros Hb Hne Hp. cbn [accept_parent ps_reads]. unfold run_auth_handshake.
  destruct (auth_loop_stream max [] _ (as_bytes token) cs [] [] rest
              (holds_fresh max) Hb Hne Hp) as (fb' & _ & Hl).
  rewrite app_nil_r in Hl. by rewrite Hl.
Qed.

Section Demo.
#[local] Existing Instance string_errors.

(** An AUTH frame with token "t", cut in two, and a request behind it. *)
Definition demo_auth : Frame := new_frame (new_header AUTH_METHOD_ID 0 0 1) [116].
Definition demo_request : Frame := new_frame (new_header 1 0 7 0) [].
Definition demo_chunks : list bytes :=
  [take 5 (frame_bytes demo_auth); drop 5 (frame_bytes demo_auth) ++ frame_bytes demo_request].

(** A connection that fails, then the parent's. *)
Definition demo_accepts : list (result io_Error (PipeStream nat)) :=
  [Ok {| ps_reads := [Err {| io_kind := WriteZero; io_message := "reset" |}];
         ps_write := 0%nat |};
   Ok {| ps_reads := Ok <$> demo_chunks; ps_write := 1%nat |}].

Lemma demo_chunks_ok :
  Forall is_bytes demo_chunks ∧ Forall nonempty demo_chunks
  ∧ parse 1000 (concat demo_chunks) = ([demo_auth; demo_request], [], None).
Proof.
  split_and!; [|by repeat constructor|reflexivity].
  repeat constructor; vm_compute; congruence.
Qed.

Lemma session_frames_witness :
  ∃ a, accept_parent (Some "t"%string) 1000
         [Ok {| ps_reads := (Ok <$> demo_chunks) ++ [Ok []]; ps_write := 1%nat |}] = Some (Ok a)
    ∧ ad_write a = 1%nat
    ∧ read_loop a = ([demo_request], Some (Ok tt)).
Proof.
  destruct demo_chunks_ok as (H1 & H2 & H3).
  pose proof (session_frames (Some "t"%string) 1000 demo_chunks 1%nat _ [] [] H1 H2 H3) as H.
  cbv beta iota zeta in H. rewrite decide_True in H by done. exact H.
Defined.

Lemma auth_gate_witness :
  let a := {| ad_reads := []; ad_write := 1%nat; ad_buffer := with_max_payload 1000; ad_initial := [demo_request] |} in
  ∃ before conn after cs f,
    demo_accepts = before ++ Ok conn :: after
    ∧ ps_reads conn = (Ok <$> cs) ++ ad_reads a ∧ ps_write conn = ad_write a
    ∧ method_id (header f) = AUTH_METHOD_ID ∧ payload f = as_bytes "t"
    ∧ concat cs = frame_bytes f ++ concat (frame_bytes <$> ad_initial a)
                  ++ stream_of (ad_buffer a).
Proof.
  intros a. apply (auth_gate "t" 1000); [|reflexivity].
  constructor; [by repeat constructor|]. constructor; [|constructor].
  apply Forall_fmap. exact (proj1 demo_chunks_ok).
Defined.

Lemma silent_connection_blocks_witness :
  accept_parent (Some "t"%string) 1000
    [Ok {| ps_reads := Ok <$> [[255]]; ps_write := 0%nat |};
     Ok {| ps_reads := (Ok <$> demo_chunks) ++ [Ok []]; ps_write := 1%nat |}] = None.
Proof.
  apply (silent_connection_blocks _ _ _ _ [255]); [|by repeat constructor|reflexivity].
  repeat constructor; vm_compute; congruence.
Defined.
End Demo.
