(* ===== verification/Streams.v ===== *)
(** * Streams cut into reads (src/client.rs: the accept loop with the read loop)

    A read half is a list of reads; what the parent sent is a byte stream with
    an ending.  Two read halves are equivalent when they deliver the same
    stream, however it is cut, and the whole session, from [accept] to the last
    dispatched frame, is a function of the streams alone, as long as no
    protocol error comes behind a frame that counts ([unambiguous]). *)

From S2P Require Import Prelude Errors WireFormat Frame FrameBuffer Json Session.

(** ** Streams *)

(** How a stream ends: it stays open, it is closed, or a read fails. *)
Abbreviation ending := (option (result io_Error unit)).

Fixpoint stream_of_reads (reads : list socket_read) : bytes * ending :=
  match reads with
  | [] => ([], None)
  | Err e :: _ => ([], Some (Err e))
  | Ok [] :: _ => ([], Some (Ok tt))
  | Ok chunk :: reads => let '(data, e) := stream_of_reads reads in (chunk ++ data, e)
  end.

#[global] Instance reads_equiv : Equiv (list socket_read) :=
  λ rs1 rs2, stream_of_reads rs1 = stream_of_reads rs2.

#[global] Instance reads_equivalence : Equivalence (≡@{list socket_read}).
Proof.
  unfold equiv, reads_equiv.
  split; [by intros rs|by intros rs1 rs2|by intros rs1 rs2 rs3 -> ->].
Qed.

#[global] Instance cons_reads_proper (r : socket_read) : Proper ((≡) ==> (≡)) (cons r).
Proof.
  intros rs1 rs2 Hrs. unfold equiv, reads_equiv in *.
  destruct r as [[|b c]|e]; cbn [stream_of_reads]; [done| |done]. by rewrite Hrs.
Qed.

#[global] Instance app_reads_proper (rs : list socket_read) : Proper ((≡) ==> (≡)) (app rs).
Proof.
  intros rs1 rs2 Hrs. induction rs as [|r rs IH]; cbn [app]; [done|]. by rewrite IH.
Qed.

(** Two reads that become one. *)
Lemma reads_merge c d (reads : list socket_read) :
  nonempty c → nonempty d → (Ok c :: Ok d :: reads) ≡ Ok (c ++ d) :: reads.
Proof.
  unfold nonempty, equiv, reads_equiv. destruct c as [|b c]; [done|]. destruct d as [|b' d]; [done|].
  intros _ _. cbn [stream_of_reads app]. destruct (stream_of_reads reads) as [data e].
  by rewrite app_comm_cons, <- app_assoc.
Qed.

(** The end of the stream hides what would come after it. *)
Lemma reads_end (r : socket_read) reads1 reads2 :
  r = Ok [] ∨ (∃ e, r = Err e) → (r :: reads1) ≡ r :: reads2.
Proof. by intros [->|[e ->]]. Qed.

(** Nothing is delivered any more. *)
Definition ended (reads : list socket_read) : Prop :=
  match reads with [] => True | Ok c :: _ => c = [] | Err _ :: _ => True end.

(** A read half is its chunks, then its end. *)
Lemma reads_split reads :
  ∃ cs tl, reads = (Ok <$> cs) ++ tl ∧ Forall nonempty cs
    ∧ stream_of_reads reads = (concat cs, (stream_of_reads tl).2)
    ∧ ended tl.
Proof.
  induction reads as [|[[|b c]|e] reads (cs & tl & -> & Hne & Hs & Htl)].
  - by exists [], [].
  - by eexists [], (Ok [] :: _).
  - exists ((b :: c) :: cs), tl. split; [done|]. split; [by constructor|]. split; [|done].
    cbn [stream_of_reads]. by rewrite Hs.
  - by eexists [], (Err e :: _).
Qed.

(** ** The session, by streams *)

Section Streams.
Context `{TP : ThirdParty} {W : Type}.

(** What the read loop returns at each ending. *)
Definition loop_result (e : ending) : option (Result unit) :=
  match e with
  | None => None
  | Some (Ok _) => Some (Ok tt)
  | Some (Err e) => Some (Err (Io e))
  end.

(** [Client::start] accepts a connection, then the read loop serves it: the
    write half kept, the frames dispatched and the loop's result. *)
Definition serve (token : option string) (max : u32)
  (accepts : list (result io_Error (PipeStream W))) :
  option (Result (W * (list Frame * option (Result unit)))) :=
  match accept_parent token max accepts with
  | None => None
  | Some (Err e) => Some (Err e)
  | Some (Ok a) => Some (Ok (ad_write a, read_loop a))
  end.

(** The reference: each connection is its whole stream, parsed at once. *)
Fixpoint session_spec (token : option string) (max : u32)
  (conns : list (result io_Error (bytes * ending * W))) :
  option (Result (W * (list Frame * option (Result unit)))) :=
  match conns with
  | [] => None
  | Err e :: _ => Some (Err (Io e))
  | Ok (data, e, wh) :: conns =>
    let frames := (parse max data).1.1 in
    match token, frames with
    | None, _ => Some (Ok (wh, (frames, loop_result e)))
    | Some t, f :: fs =>
      if is_auth_frame (as_bytes t) f then Some (Ok (wh, (fs, loop_result e)))
      else session_spec token max conns
    | Some _, [] =>
      match e with None => None | Some _ => session_spec token max conns end
    end
  end.

Definition connection_of (r : result io_Error (PipeStream W)) :
  result io_Error (bytes * ending * W) :=
  match r with
  | Ok stream => Ok (stream_of_reads (ps_reads stream), ps_write stream)
  | Err e => Err e
  end.

(** Connections are equivalent when they deliver the same stream and keep the
    same write half; sequences of them, pointwise. *)
#[global] Instance connection_equiv : Equiv (result io_Error (PipeStream W)) :=
  λ r1 r2, connection_of r1 = connection_of r2.

#[global] Instance connection_equivalence :
  Equivalence (≡@{result io_Error (PipeStream W)}).
Proof. split; [by intros r|by intros r1 r2|by intros r1 r2 r3; apply eq_trans]. Qed.

#[global] Instance connections_proper :
  Proper ((≡) ==> (=)) (fmap (M := list) connection_of).
Proof. induction 1 as [|r1 r2 l1 l2 Hr _ IH]; [done|]. cbn. f_equal; [exact Hr|exact IH]. Qed.

Lemma stream_equiv_reads reads1 reads2 (wh : W) :
  reads1 ≡ reads2 →
  Ok (E := io_Error) {| ps_reads := reads1; ps_write := wh |}
  ≡ Ok {| ps_reads := reads2; ps_write := wh |}.
Proof. intros H. unfold equiv, connection_equiv. cbn. by rewrite (H : _ = _). Qed.

(** A connection without protocol errors. *)
Definition clean (max : u32) (r : result io_Error (PipeStream W)) : Prop :=
  match r with
  | Ok stream => (parse max (stream_of_reads (ps_reads stream)).1).2 = None
  | Err _ => True
  end.

(** A connection whose fate its bytes decide: a protocol error in it does not
    come after a frame that would be dispatched or would adopt it. *)
Definition unambiguous (token : option string) (max : u32)
  (r : result io_Error (PipeStream W)) : Prop :=
  match r with
  | Err _ => True
  | Ok stream =>
    match parse max (stream_of_reads (ps_reads stream)).1 with
    | (_, _, None) | ([], _, Some _) => True
    | (f :: _, _, Some _) =>
      match token with Some t => is_auth_frame (as_bytes t) f = false | None => False end
    end
  end.

(** That fate. *)
Inductive verdict :=
| Skip
| Wait
| Serve (x : W * (list Frame * option (Result unit))).

Definition judge (token : option string) (max : u32) (conn : bytes * ending * W) : verdict :=
  let '(data, e, wh) := conn in
  let '(frames, _, err) := parse max data in
  match token, frames, err with
  | None, _, None => Serve (wh, (frames, loop_result e))
  | None, _, Some err => Serve (wh, (frames, Some (Err err)))
  | Some t, f :: frames, _ =>
    if is_auth_frame (as_bytes t) f then Serve (wh, (frames, loop_result e)) else Skip
  | Some _, [], Some _ => Skip
  | Some _, [], None => match e with None => Wait | Some _ => Skip end
  end.

Lemma clean_unambiguous token max r : clean max r → unambiguous token max r.
Proof.
  destruct r as [stream|e]; [|done]. cbn.
  destruct (parse max (stream_of_reads (ps_reads stream)).1) as [[fs rest] x]. cbn.
  intros ->. by destruct fs.
Qed.

Lemma read_loop_ended fb tl :
  ended tl → read_loop_from fb tl = ([], loop_result (stream_of_reads tl).2).
Proof. by destruct tl as [|[[|b c]|e] tl]. Qed.

#[global] Instance clean_proper max : Proper ((≡) ==> iff) (clean max).
Proof. intros [s1|e1] [s2|e2] [=]; cbn; [by f_equiv; f_equal; f_equal; f_equal|done]. Qed.

#[global] Instance unambiguous_proper token max : Proper ((≡) ==> iff) (unambiguous token max).
Proof. intros [s1|e1] [s2|e2] [=]; [|done]. unfold unambiguous. by replace (stream_of_reads (ps_reads s1)) with (stream_of_reads (ps_reads s2)). Qed.

(** The read loop on a clean stream. *)
Lemma read_loop_stream max bs fb reads fs rest :
  holds max bs fb → Forall read_ok reads →
  parse max (bs ++ (stream_of_reads reads).1) = (fs, rest, None) →
  read_loop_from fb reads = (fs, loop_result (stream_of_reads reads).2).
Proof.
  intros Hfb Hok Hp. destruct (reads_split reads) as (cs & tl & -> & Hne & Hs & Htl).
  rewrite Hs in Hp |- *. cbn [fst snd] in Hp |- *.
  apply Forall_app in Hok as [Hcs _]. rewrite Forall_fmap in Hcs.
  destruct (read_loop_chunks _ _ _ _ tl _ _ Hfb Hcs Hne Hp) as (fb' & _ & ->).
  by rewrite read_loop_ended, app_nil_r.
Qed.

(** The handshake on a clean stream. *)
Lemma handshake_stream max token reads fs rest :
  Forall read_ok reads → parse max (stream_of_reads reads).1 = (fs, rest, None) →
  match fs with
  | [] => match (stream_of_reads reads).2 with
          | None => run_auth_handshake reads token max = None
          | Some _ => ∃ reads', run_auth_handshake reads token max = Some (Rejected, reads')
          end
  | f :: fs =>
    if is_auth_frame (as_bytes token) f then
      ∃ fb frames reads', run_auth_handshake reads token max = Some (Adopted fb frames, reads')
        ∧ (let '(fs', x) := read_loop_from fb reads' in (frames ++ fs', x))
          = (fs, loop_result (stream_of_reads reads).2)
    else ∃ reads', run_auth_handshake reads token max = Some (Rejected, reads')
  end.
Proof.
  intros Hok Hp. destruct (reads_split reads) as (cs & tl & -> & Hne & Hs & Htl).
  rewrite Hs in Hp |- *. cbn [fst snd] in Hp |- *.
  apply Forall_app in Hok as [Hcs _]. rewrite Forall_fmap in Hcs.
  pose proof (auth_loop_stream max [] _ (as_bytes token) cs tl fs rest
                (holds_fresh max) Hcs Hne Hp) as H.
  unfold run_auth_handshake. destruct fs as [|f fs].
  - destruct H as (fb' & _ & ->).
    by destruct tl as [|[[|b c]|e] tl]; try done; eexists.
  - destruct (is_auth_frame (as_bytes token) f); [|exact H].
    destruct H as (fb' & frames & cs' & bs' & fs' & -> & Hfb & Hcs' & Hne' & Hp' & ->).
    exists fb', frames, ((Ok <$> cs') ++ tl). split; [done|].
    destruct (read_loop_chunks _ _ _ _ tl _ _ Hfb Hcs' Hne' Hp') as (fb'' & _ & ->).
    by rewrite read_loop_ended, app_nil_r.
Qed.

(** A protocol error before any frame, or behind one that is refused. *)
Lemma handshake_malformed max token reads fs rest e :
  Forall read_ok reads → parse max (stream_of_reads reads).1 = (fs, rest, Some e) →
  (∀ f fs', fs = f :: fs' → is_auth_frame (as_bytes token) f = false) →
  ∃ reads', run_auth_handshake reads token max = Some (Rejected, reads').
Proof.
  intros Hok Hp Hfs. destruct (reads_split reads) as (cs & tl & -> & Hne & Hs & _).
  rewrite Hs in Hp. apply Forall_app in Hok as [Hcs _]. rewrite Forall_fmap in Hcs.
  exact (auth_loop_malformed max [] _ _ cs tl fs rest e (holds_fresh max) Hcs Hne Hp Hfs).
Qed.

Lemma serve_judged token max reads wh accepts :
  Forall read_ok reads →
  unambiguous token max (Ok {| ps_reads := reads; ps_write := wh |}) →
  serve token max (Ok {| ps_reads := reads; ps_write := wh |} :: accepts)
  = match judge token max (stream_of_reads reads, wh) with
    | Skip => serve token max accepts
    | Wait => None
    | Serve x => Some (Ok x)
    end.
Proof.
  intros Hok Hun. unfold serve. cbn [accept_parent unambiguous ps_reads ps_write] in *.
  unfold judge. destruct (stream_of_reads reads) as [data e] eqn:Hs. cbn [fst] in Hun.
  destruct (parse max data) as [[fs rest] [err|]] eqn:Hp.
  - assert (Hp' : parse max (stream_of_reads reads).1 = (fs, rest, Some err)) by (by rewrite Hs).
    destruct token as [t|].
    + destruct (handshake_malformed max t reads fs rest err Hok Hp') as [reads' ->].
      { intros f fs' ->. exact Hun. }
      destruct fs as [|f fs]; [done|]. by rewrite Hun.
    + destruct fs as [|f fs]; [|done]. unfold read_loop.
      cbn [ad_write ad_buffer ad_reads ad_initial]. destruct (reads_split reads)
        as (cs & tl & Hreads & Hne & Hcs & _). rewrite Hreads in Hok |- *.
      rewrite Hcs in Hp'. apply Forall_app in Hok as [Hok _]. rewrite Forall_fmap in Hok.
      by rewrite (read_loop_malformed max [] _ cs tl rest err (holds_fresh max) Hok Hne Hp').
  - destruct token as [t|].
    + pose proof (handshake_stream max t reads fs rest Hok) as H. rewrite Hs in H.
      cbn [fst snd] in H. specialize (H Hp). destruct fs as [|f fs].
      * destruct e; [by destruct H as [reads' ->]|by rewrite H].
      * destruct (is_auth_frame (as_bytes t) f); [|by destruct H as [reads' ->]].
        destruct H as (fb & frames & reads' & -> & H). unfold read_loop.
        cbn [ad_write ad_buffer ad_reads ad_initial]. by rewrite H.
    + unfold read_loop. cbn [ad_write ad_buffer ad_reads ad_initial].
      rewrite (read_loop_stream max [] _ reads fs rest (holds_fresh max) Hok) by (by rewrite Hs).
      by rewrite Hs.
Qed.

Lemma serve_streams token max accepts :
  Forall stream_ok accepts → Forall (clean max) accepts →
  serve token max accepts = session_spec token max (connection_of <$> accepts).
Proof.
  induction 1 as [|r accepts Hr _ IH]; [done|]. rewrite Forall_cons. intros [Hc Hcs].
  specialize (IH Hcs). clear Hcs. destruct r as [[reads wh]|e]; [|done].
  rewrite serve_judged by first [done|by apply clean_unambiguous].
  cbn [clean ps_reads fmap list_fmap connection_of session_spec ps_write] in *. unfold judge.
  destruct (stream_of_reads reads) as [data e]. cbn [fst] in Hc |- *.
  destruct (parse max data) as [[fs rest] x]. cbn in Hc. subst x. cbn [fst].
  destruct token as [t|]; [|done]. destruct fs as [|f fs]; [by destruct e|].
  by destruct (is_auth_frame (as_bytes t) f).
Qed.

Lemma serve_equiv token max accepts1 accepts2 :
  Forall stream_ok accepts1 → Forall stream_ok accepts2 → Forall (unambiguous token max) accepts1 →
  accepts1 ≡ accepts2 → serve token max accepts1 = serve token max accepts2.
Proof.
  intros H1 H2 Hun Heq. revert H1 H2 Hun.
  induction Heq as [|r1 r2 l1 l2 Hr _ IH]; [done|].
  rewrite !Forall_cons. intros [H1 H1'] [H2 H2'] [Hun Hun']. specialize (IH H1' H2' Hun').
  assert (Hun2 : unambiguous token max r2) by (by rewrite <- Hr).
  destruct r1 as [[reads1 wh1]|e1], r2 as [[reads2 wh2]|e2]; try by inversion Hr.
  rewrite !serve_judged by done. inversion Hr as [[Hreads Hwh]]. by rewrite Hreads, IH.
Qed.
End Streams.

(** ** Properties *)

(** C9: the session is a function of the byte streams.  On connections without
    protocol errors, accepting and then reading gives exactly what the
    reference gives that parses each whole stream at once: which connection is
    adopted, its write half, every frame dispatched, and how the read loop
    ends; also when it waits for ever. *)
Theorem session_by_streams `{TP : ThirdParty} {W} (token : option string) (max : u32)
  (accepts : list (result io_Error (PipeStream W))) :
  Forall stream_ok accepts → Forall (clean max) accepts →
  serve token max accepts = session_spec token max (connection_of <$> accepts).
Proof. apply serve_streams. Qed.

(** C8: how the kernel cuts the streams into reads is invisible: two sequences
    of connections that deliver the same bytes give the same adoption, the
    same frames in the same order and the same end of the read loop.  The
    streams may be malformed, except that with a token no stream that opens
    with the right AUTH frame may, and without one no stream that opens with a
    well-formed frame: there the cut does matter, see malformed_cut_matters. *)
Theorem session_cut_equivalence `{TP : ThirdParty} {W} (token : option string) (max : u32)
  (accepts1 accepts2 : list (result io_Error (PipeStream W))) :
  Forall stream_ok accepts1 → Forall stream_ok accepts2 →
  Forall (unambiguous token max) accepts1 →
  accepts1 ≡ accepts2 →
  serve token max accepts1 = serve token max accepts2.
Proof. apply serve_equiv. Qed.

(** C38: with a protocol error the cut does matter.  When the AUTH frame and the
    malformed bytes behind it arrive in one read, the connection is rejected
    and the next one is tried; when they arrive in two, it is adopted and the
    read loop ends with the error. *)
Theorem malformed_cut_matters `{TP : ThirdParty} {W} (token : string) (max : u32)
  (f : Frame) (bad rest : bytes) (fs : list Frame) (e : ProcwireError) (wh : W)
  (tl : list socket_read) (accepts : list (result io_Error (PipeStream W))) :
  frame_wf max f → method_id (header f) = AUTH_METHOD_ID → payload f = as_bytes token →
  is_bytes bad → parse max bad = (fs, rest, Some e) →
  serve (Some token) max
    (Ok {| ps_reads := Ok (frame_bytes f ++ bad) :: tl; ps_write := wh |} :: accepts)
  = serve (Some token) max accepts
  ∧ serve (Some token) max
      (Ok {| ps_reads := Ok (frame_bytes f) :: Ok bad :: tl; ps_write := wh |} :: accepts)
    = Some (Ok (wh, ([], Some (Err e)))).
Proof.
  intros Hf Hm Ht Hbad Hp. pose proof (frame_bytes_is_bytes _ _ Hf) as Hfb.
  assert (Hwhole : parse max (frame_bytes f ++ bad) = (f :: fs, rest, Some e)).
  { pose proof (parse_frames max [f] bad) as H. cbn in H. rewrite app_nil_r in H.
    rewrite H, Hp; [done|by constructor]. }
  assert (Hone : parse max (frame_bytes f) = ([f], [], None)).
  { pose proof (parse_frames max [f] []) as H. cbn in H. rewrite !app_nil_r in H.
    rewrite H, parse_nil; [done|by constructor]. }
  assert (Hauth : is_auth_frame (as_bytes token) f = true).
  { unfold is_auth_frame. rewrite Hm, Ht, Z.eqb_refl. by apply constant_time_eq_true. }
  destruct (frame_bytes f) as [|b c] eqn:Hbytes; [by rewrite parse_nil in Hone|].
  destruct bad as [|b' bad]; [by rewrite parse_nil in Hp|].
  unfold serve. cbn [accept_parent ps_reads ps_write app]. unfold run_auth_handshake.
  cbn [auth_loop]. split.
  - destruct (push_holds_error _ _ _ _ _ _ _ (holds_fresh max)
      (Forall_app_2 _ (b :: c) (b' :: bad) Hfb Hbad) Hwhole) as (fb' & Hpush).
    cbn [app] in Hpush. by rewrite Hpush.
  - destruct (push_holds _ _ _ _ _ _ (holds_fresh max) Hfb Hone) as (fb' & -> & Hfb').
    fold (is_auth_frame (as_bytes token) f). rewrite Hauth. unfold read_loop.
    cbn [ad_write ad_buffer ad_reads ad_initial read_loop_from app].
    by destruct (push_holds_error _ _ _ _ _ _ _ Hfb' Hbad Hp) as (fb'' & ->).
Qed.

Section Demo.
#[local] Existing Instance string_errors.

(** The demo stream whole, and the same stream in one-byte reads. *)
Definition whole_connection : result io_Error (PipeStream nat) :=
  Ok {| ps_reads := [Ok (concat demo_chunks); Ok []]; ps_write := 1%nat |}.
Definition bytewise_connection : result io_Error (PipeStream nat) :=
  Ok {| ps_reads := ((λ b, Ok [b]) <$> concat demo_chunks) ++ [Ok []]; ps_write := 1%nat |}.

Lemma demo_connections_ok :
  Forall stream_ok [whole_connection] ∧ Forall stream_ok [bytewise_connection]
  ∧ Forall (clean 1000) [whole_connection].
Proof.
  assert (Hb : is_bytes (concat demo_chunks)) by (apply Forall_concat, demo_chunks_ok).
  split_and!.
  - constructor; [|constructor]. by repeat constructor.
  - constructor; [|constructor]. apply Forall_app_2; [|by repeat constructor].
    apply Forall_fmap, (Forall_impl _ _ _ Hb). intros b Hb'. by apply Forall_singleton.
  - by repeat constructor.
Qed.

Lemma session_by_streams_witness :
  serve (Some "t"%string) 1000 [whole_connection]
  = Some (Ok (1%nat, ([demo_request], Some (Ok tt)))).
Proof.
  destruct demo_connections_ok as (H1 & _ & H2).
  rewrite (session_by_streams _ _ _ H1 H2). reflexivity.
Defined.

(** Twelve bytes whose header claims reserved flag bits. *)
Definition bad_header : bytes := encode (new_header 1 255 7 0).

(** A stranger's bytes, malformed behind the first frame, and then the parent:
    whole and in one-byte reads. *)
Definition stranger (cut : bytes → list socket_read) : result io_Error (PipeStream nat) :=
  Ok {| ps_reads := cut (frame_bytes demo_request ++ bad_header); ps_write := 0%nat |}.
Definition in_one (data : bytes) : list socket_read := [Ok data].
Definition by_bytes (data : bytes) : list socket_read := (λ b, Ok [b]) <$> data.

Lemma session_cut_equivalence_witness :
  serve (Some "t"%string) 1000 [stranger by_bytes; bytewise_connection]
  = Some (Ok (1%nat, ([demo_request], Some (Ok tt)))).
Proof.
  destruct demo_connections_ok as (H1 & H2 & H3).
  assert (Hb : is_bytes (frame_bytes demo_request ++ bad_header))
    by (repeat constructor; vm_compute; congruence).
  transitivity (serve (Some "t"%string) 1000 [stranger in_one; whole_connection]);
    [symmetry|reflexivity].
  apply session_cut_equivalence.
  - constructor; [by repeat constructor|done].
  - constructor; [|done]. apply Forall_fmap, (Forall_impl _ _ _ Hb).
    intros b Hb'. by apply Forall_singleton.
  - constructor; [by vm_compute|].
    eapply Forall_impl; [exact H3|]. intros c. apply clean_unambiguous.
  - by repeat constructor.
Defined.

Lemma malformed_cut_matters_witness :
  ∃ e, serve (Some "t"%string) 1000
      [Ok {| ps_reads := [Ok (frame_bytes demo_auth ++ bad_header)]; ps_write := 1%nat |}] = None
    ∧ serve (Some "t"%string) 1000
        [Ok {| ps_reads := [Ok (frame_bytes demo_auth); Ok bad_header]; ps_write := 1%nat |}]
      = Some (Ok (1%nat, ([], Some (Err e)))).
Proof.
  destruct (parse 1000 bad_header) as [[fs rest] [e|]] eqn:Hp; [|by vm_compute in Hp].
  exists e. destruct (malformed_cut_matters (W := nat) "t" 1000 demo_auth bad_header rest fs e
    1%nat [] []) as [H1 H2]; [|done|done| |done|].
  - split; [by split|done|done|]. repeat constructor; vm_compute; congruence.
  - repeat constructor; vm_compute; congruence.
  - by rewrite H1, H2.
Defined.
End Demo.
