(* ===== verification/Client.v ===== *)
(** * The client runtime (src/client.rs: builder, dispatch, emit, shutdown)

    Options, the dispatch of one frame, the spawned handler tasks with the
    semaphore and the table of active requests, and all of it running
    concurrently. *)

From S2P Require Import Prelude Errors WireFormat Frame Codec Writer Json Init.
From S2P Require Import Program Context Registry.

Definition DEFAULT_MAX_CONCURRENT_HANDLERS : nat := 256.

(** ** [ClientBuilder] *)
Section Builder.
Context `{TP : ThirdParty}.

Record ClientBuilder := {
  cb_registry : HandlerRegistry;
  cb_writer_config : WriterConfig;
  cb_max_concurrent_handlers : nat;
  cb_max_payload_size : u32;
  cb_auth_token : option string
}.

Definition new_builder : ClientBuilder := {|
  cb_registry := new_registry;
  cb_writer_config := default_config;
  cb_max_concurrent_handlers := DEFAULT_MAX_CONCURRENT_HANDLERS;
  cb_max_payload_size := DEFAULT_MAX_PAYLOAD_SIZE;
  cb_auth_token := None
|}.

(** [ClientBuilder::default] and [Client::builder]. *)
Definition default_builder : ClientBuilder := new_builder.
Definition client_builder : ClientBuilder := new_builder.

Definition set_registry (r : HandlerRegistry) (b : ClientBuilder) : ClientBuilder :=
  {| cb_registry := r; cb_writer_config := cb_writer_config b;
     cb_max_concurrent_handlers := cb_max_concurrent_handlers b;
     cb_max_payload_size := cb_max_payload_size b; cb_auth_token := cb_auth_token b |}.
Definition set_writer_config (c : WriterConfig) (b : ClientBuilder) : ClientBuilder :=
  {| cb_registry := cb_registry b; cb_writer_config := c;
     cb_max_concurrent_handlers := cb_max_concurrent_handlers b;
     cb_max_payload_size := cb_max_payload_size b; cb_auth_token := cb_auth_token b |}.

(** Registration panics ([None]) where [register] does. *)
Definition handle {T} `{!DeserializeOwned T} (oc : bool) (b : ClientBuilder) (name : string)
  (f : T → RequestContext → prog) : option ClientBuilder :=
  r ← register oc (cb_registry b) name RtResult f; Some (set_registry r b).
Definition handle_stream {T} `{!DeserializeOwned T} (oc : bool) (b : ClientBuilder)
  (name : string) (f : T → RequestContext → prog) : option ClientBuilder :=
  r ← register oc (cb_registry b) name RtStream f; Some (set_registry r b).
Definition handle_ack {T} `{!DeserializeOwned T} (oc : bool) (b : ClientBuilder)
  (name : string) (f : T → RequestContext → prog) : option ClientBuilder :=
  r ← register oc (cb_registry b) name RtAck f; Some (set_registry r b).
Definition event (oc : bool) (b : ClientBuilder) (name : string) : option ClientBuilder :=
  r ← register_event oc (cb_registry b) name; Some (set_registry r b).

Definition max_concurrent_handlers (b : ClientBuilder) (limit : nat) : ClientBuilder :=
  {| cb_registry := cb_registry b; cb_writer_config := cb_writer_config b;
     cb_max_concurrent_handlers := limit;
     cb_max_payload_size := cb_max_payload_size b; cb_auth_token := cb_auth_token b |}.
Definition builder_max_pending_frames (b : ClientBuilder) (limit : usize) : ClientBuilder :=
  let c := cb_writer_config b in
  set_writer_config {| max_pending_frames := limit; channel_capacity := channel_capacity c;
                       backpressure_timeout := backpressure_timeout c |} b.
Definition builder_channel_capacity (b : ClientBuilder) (capacity : nat) : ClientBuilder :=
  let c := cb_writer_config b in
  set_writer_config {| max_pending_frames := max_pending_frames c; channel_capacity := capacity;
                       backpressure_timeout := backpressure_timeout c |} b.
Definition builder_backpressure_timeout (b : ClientBuilder) (timeout : Z) : ClientBuilder :=
  let c := cb_writer_config b in
  set_writer_config {| max_pending_frames := max_pending_frames c;
                       channel_capacity := channel_capacity c;
                       backpressure_timeout := timeout |} b.
Definition builder_max_payload_size (b : ClientBuilder) (size : u32) : ClientBuilder :=
  {| cb_registry := cb_registry b; cb_writer_config := cb_writer_config b;
     cb_max_concurrent_handlers := cb_max_concurrent_handlers b;
     cb_max_payload_size := Z.min size ABSOLUTE_MAX_PAYLOAD_SIZE;
     cb_auth_token := cb_auth_token b |}.
Definition auth_token (b : ClientBuilder) (token : string) : ClientBuilder :=
  {| cb_registry := cb_registry b; cb_writer_config := cb_writer_config b;
     cb_max_concurrent_handlers := cb_max_concurrent_handlers b;
     cb_max_payload_size := cb_max_payload_size b; cb_auth_token := Some token |}.

(** The token [ClientBuilder::start] passes on; [env] is [PROCWIRE_TOKEN]. *)
Definition effective_token (b : ClientBuilder) (env : option string) : option string :=
  option_filter (λ t, negb (bool_decide (t = EmptyString)))
    (match cb_auth_token b with Some t => Some t | None => env end).
End Builder.

(** ** Handler tasks *)
Section Task.
Context `{TP : ThirdParty} `{!Serialize string}.

(** The task [dispatch_frame] spawns, up to the removal of the request from
    the table. *)
Definition handler_task (r : HandlerRegistry) (method_id : u16) (payload : bytes)
  (ctx : RequestContext) : prog :=
  pbind (dispatch r method_id payload ctx) (λ res,
    match res with
    | Ok _ => Ret (Ok tt)
    | Err e =>
      has_responded ctx (λ responded,
        if responded then Ret (Ok tt)
        else pbind (error ctx (error_to_string e)) (λ _, Ret (Ok tt)))
    end).

(** A running task. *)
Record task := {
  t_ctx : RequestContext;
  t_request_id : u32;
  t_prog : prog
}.
End Task.

#[global] Arguments task {TP}.

(** The history tag of event frames; request cells are allocated from 1. *)
Definition EVENTS : loc := 0%nat.

Section Runtime.
Context `{TP : ThirdParty} `{!Serialize string} {W : Type} `{!FrameWriter W}.

(** [c_background]: programs spawned by handlers, and emits under way.
    [c_requests] is history: the contexts created so far. *)
Record client := {
  c_world : world W;
  c_next : loc;
  c_active : gmap u32 loc;
  c_permits : nat;
  c_tasks : list task;
  c_background : list prog;
  c_requests : list RequestContext
}.

Definition set_world (w : world W) (st : client) : client :=
  {| c_world := w; c_next := c_next st; c_active := c_active st; c_permits := c_permits st;
     c_tasks := c_tasks st; c_background := c_background st; c_requests := c_requests st |}.

(** [CancellationToken::new], [AtomicBool::new(false)]: two fresh cells. *)
Definition alloc_cells (token responded : loc) (w : world W) : world W :=
  {| cells := <[responded := false]> (<[token := false]> (cells w));
     out := out w; sends := sends w |}.

(** [dispatch_frame], with the permit, the table and the spawned task. *)
Definition dispatch_frame (r : HandlerRegistry) (frame : Frame) (st : client) : client :=
  let h := header frame in
  if method_id h =? ABORT_METHOD_ID then
    match c_active st !! request_id h with
    | Some token => set_world (set_cell token (c_world st)) st
    | None => st
    end
  else if method_id h =? AUTH_METHOD_ID then st
  else if is_response h then st
  else
    match c_permits st with
    | O => st
    | S permits =>
      let token := c_next st in
      let responded := S token in
      let response_type := default RtResult (get_response_type_by_id r (method_id h)) in
      let ctx :=
        with_writer_and_token (method_id h) (request_id h) response_type token responded in
      {| c_world := alloc_cells token responded (c_world st);
         c_next := S responded;
         c_active := <[request_id h := token]> (c_active st);
         c_permits := permits;
         c_tasks := c_tasks st ++
           [{| t_ctx := ctx; t_request_id := request_id h;
               t_prog := handler_task r (method_id h) (payload frame) ctx |}];
         c_background := c_background st;
         c_requests := c_requests st ++ [ctx] |}
    end.

(** ** [emit] and [emit_raw] *)

Definition unknown_event (name : string) : ProcwireError :=
  Protocol ("Unknown event: " +:+ name).

Definition event_header (event_id : u16) (len : Z) : Header :=
  new_header event_id flags.DIRECTION_TO_PARENT 0 (wrap 32 len).

Definition emit {T} `{!Serialize T} (r : HandlerRegistry) (name : string) (data : T) : prog :=
  try_ok (ok_or (unknown_event name) (get_event_id r name)) (λ event_id,
    try_ok (msgpack_encode data) (λ pl,
      SendFrame EVENTS (new_outbound (event_header event_id (zlen pl)) pl) Ret)).

Definition emit_raw (r : HandlerRegistry) (name : string) (data : bytes) : prog :=
  try_ok (ok_or (unknown_event name) (get_event_id r name)) (λ event_id,
    SendFrame EVENTS (new_outbound (event_header event_id (zlen data)) data) Ret).

Inductive emit_call (r : HandlerRegistry) : prog → Prop :=
| ec_emit {T} `{!Serialize T} name (v : T) : emit_call r (emit r name v)
| ec_emit_raw name p : emit_call r (emit_raw r name p).

(** ** The running system *)

(** [max] permits, nothing received yet. *)
Definition start_client (max : nat) (o : W) : client :=
  {| c_world := {| cells := ∅; out := o; sends := [] |}; c_next := 1; c_active := ∅;
     c_permits := max; c_tasks := []; c_background := []; c_requests := [] |}.

(** The end of a task: it leaves the table, if it has not panicked, and its
    permit is released. *)
Definition finish_task (panicked : bool) (t : task) (ts1 ts2 : list task) (st : client) :
  client :=
  {| c_world := c_world st; c_next := c_next st;
     c_active := if panicked then c_active st else delete (t_request_id t) (c_active st);
     c_permits := S (c_permits st); c_tasks := ts1 ++ ts2;
     c_background := c_background st; c_requests := c_requests st |}.

(** [arrives]: the frames the read loop may dispatch. *)
Inductive cstep_on {arrives : Frame → Prop} (r : HandlerRegistry) (st : client) : client → Prop :=
| cs_frame f : arrives f → cstep_on r st (dispatch_frame r f st)
| cs_task t ts1 ts2 w p qs :
    c_tasks st = ts1 ++ t :: ts2 → pstep (c_world st) (t_prog t) w p qs →
    cstep_on r st
      {| c_world := w; c_next := c_next st; c_active := c_active st;
         c_permits := c_permits st;
         c_tasks := ts1 ++ {| t_ctx := t_ctx t; t_request_id := t_request_id t;
                              t_prog := p |} :: ts2;
         c_background := c_background st ++ qs; c_requests := c_requests st |}
| cs_done t ts1 ts2 res :
    c_tasks st = ts1 ++ t :: ts2 → t_prog t = Ret res →
    cstep_on r st (finish_task false t ts1 ts2 st)
| cs_panic t ts1 ts2 :
    c_tasks st = ts1 ++ t :: ts2 → t_prog t = Panic →
    cstep_on r st (finish_task true t ts1 ts2 st)
| cs_background p p' ps1 ps2 w qs :
    c_background st = ps1 ++ p :: ps2 → pstep (c_world st) p w p' qs →
    cstep_on r st
      {| c_world := w; c_next := c_next st; c_active := c_active st;
         c_permits := c_permits st; c_tasks := c_tasks st;
         c_background := ps1 ++ p' :: ps2 ++ qs; c_requests := c_requests st |}
| cs_emit p :
    emit_call r p →
    cstep_on r st
      {| c_world := c_world st; c_next := c_next st; c_active := c_active st;
         c_permits := c_permits st; c_tasks := c_tasks st;
         c_background := c_background st ++ [p]; c_requests := c_requests st |}
| cs_writer o :
    fw_step (out (c_world st)) o → cstep_on r st (set_world (set_out o (c_world st)) st).

(** Whatever a connection can deliver. *)
Definition cstep : HandlerRegistry → client → client → Prop :=
  cstep_on (arrives := frame_wf ABSOLUTE_MAX_PAYLOAD_SIZE).

(** The steps between two frames. *)
Definition own_step : HandlerRegistry → client → client → Prop :=
  cstep_on (arrives := λ _, False).

(** [wait_for_shutdown] returns when the read loop has ended or [$shutdown]
    was received; [is_shutdown_requested] looks at the token. *)
Definition wait_for_shutdown (data_plane_closed shutdown_token : bool) : option (Result unit) :=
  if data_plane_closed || shutdown_token then Some (Ok tt) else None.
Definition is_shutdown_requested (shutdown_token : bool) : bool := shutdown_token.
End Runtime.

#[global] Arguments client {TP} W.

(** ** Specification *)
Section Spec.
Context `{TP : ThirdParty} `{!Serialize string} {W : Type} `{!FrameWriter W}.

(** Handlers use the context they are given through its methods only. *)
Definition reg_safe (r : HandlerRegistry) : Prop :=
  ∀ name e, methods r !! name = Some e →
    ∀ payload ctx, uses_ctx ctx (me_handler e payload ctx).

Definition event_frame (f : OutboundFrame) : Prop :=
  ∃ id pl, f = new_outbound (event_header id (zlen pl)) pl.

(** Where a frame of the history may come from. *)
Definition attributed (st : client W) (l : loc) (f : OutboundFrame) : Prop :=
  (l = EVENTS ∧ event_frame f)
  ∨ ∃ c, c ∈ c_requests st ∧ ctx_responded c = l ∧ ctx_frame c f.

Definition programs (st : client W) : list prog := (t_prog <$> c_tasks st) ++ c_background st.

(** The invariant on cells and frames. *)
Record frames_inv (st : client W) : Prop := {
  fi_rule l : rule l (c_world st, programs st);
  fi_actions :
    Forall (actions_ok (attributed st) (λ l, (l < c_next st)%nat)) (programs st);
  fi_log : Forall (λ e, attributed st e.1 e.2) (sends (c_world st));
  fi_fresh l : (c_next st ≤ l)%nat → cell (c_world st) l = false;
  fi_requests :
    Forall (λ c, (ctx_token c < c_next st)%nat
                 ∧ (EVENTS < ctx_responded c < c_next st)%nat) (c_requests st);
  fi_active id l : c_active st !! id = Some l → (l < c_next st)%nat;
  fi_nodup : NoDup (ctx_responded <$> c_requests st)
}.

(** The invariant on permits and the table of active requests. *)
Record table_inv (max : nat) (st : client W) : Prop := {
  ti_permits : (c_permits st + length (c_tasks st))%nat = max;
  ti_tasks :
    Forall (λ t, t_ctx t ∈ c_requests st ∧ t_request_id t = ctx_request_id (t_ctx t))
           (c_tasks st);
  ti_nodup : NoDup (t_ctx <$> c_tasks st);
  ti_requests : Forall (λ c, (ctx_token c < c_next st)%nat) (c_requests st);
  ti_abort t :
    t ∈ c_tasks st →
    c_active st !! t_request_id t = Some (ctx_token (t_ctx t))
    ∨ ∃ c, c ∈ c_requests st ∧ c ≠ t_ctx t ∧ ctx_request_id c = t_request_id t
}.
End Spec.

(** ** Lemmas *)
Section Rules.
Context `{TP : ThirdParty} {W : Type} `{!FrameWriter W}.
Implicit Types (w : world W) (ps : list prog).

Lemma rule_perm l w ps ps' : ps ≡ₚ ps' → rule l (w, ps) → rule l (w, ps').
Proof.
  intros Hp [Ho Hc]. split; cbn [fst snd] in *; [by rewrite <- Hp|].
  assert (Hs : sum_list_with (about_to_send l) ps' = sum_list_with (about_to_send l) ps);
    [|by rewrite Hs].
  clear Ho Hc. induction Hp; simpl; lia.
Qed.

Lemma rule_cons l w p ps : inert l p → rule l (w, ps) → rule l (w, p :: ps).
Proof.
  intros Hp [Ho Hc]. split; cbn [fst snd] in *; [constructor; [by left|done]|].
  simpl. by rewrite (inert_about _ _ Hp).
Qed.

Lemma rule_tail l w p ps : rule l (w, p :: ps) → rule l (w, ps).
Proof.
  intros [Ho Hc]. split; cbn [fst snd] in *; [by inversion Ho|]. simpl in Hc. lia.
Qed.

Lemma rule_step l w p w' p' qs ps :
  pstep w p w' p' qs → rule l (w, p :: ps) → rule l (w', p' :: ps ++ qs).
Proof.
  intros Hst. apply pool_step_rule. by apply (pool_step_intro w w' p p' qs [] ps).
Qed.

(** Only the history and the cells of the state matter, the cells upwards. *)
Lemma rule_world l w w' ps :
  sends w' = sends w → (cell w l = true → cell w' l = true) →
  rule l (w, ps) → rule l (w', ps).
Proof.
  intros Hs Hc [Ho Hr]. split; cbn [fst snd] in *; [done|]. rewrite Hs.
  destruct (cell w l); [by rewrite Hc|]. simpl in Hr |- *. lia.
Qed.

Lemma cell_alloc t r w l :
  cell (alloc_cells t r w) l = if decide (l = t ∨ l = r) then false else cell w l.
Proof.
  unfold cell, alloc_cells. cbn. case_decide as Hd.
  - destruct (decide (l = r)) as [->|Hr]; [by rewrite lookup_insert_eq|].
    destruct Hd as [->|]; [|done]. by rewrite lookup_insert_ne, lookup_insert_eq by done.
  - rewrite !lookup_insert_ne; [done|..]; intros ->; apply Hd; auto.
Qed.
End Rules.

Section Lemmas.
Context `{TP : ThirdParty} `{!Serialize string} {W : Type} `{!FrameWriter W}.
Implicit Types (st : client W).

Lemma dispatch_uses r id pl ctx : reg_safe r → uses_ctx ctx (dispatch r id pl ctx).
Proof.
  intros Hr. unfold dispatch, get_handler_by_id.
  destruct (id_to_name r !! id) as [name|]; cbn; [|constructor].
  destruct (methods r !! name) as [e|] eqn:He; cbn; [|constructor]. by eapply Hr.
Qed.

Lemma handler_task_inert r id pl ctx l : reg_safe r → inert l (handler_task r id pl ctx).
Proof.
  intros Hr. apply inert_bind; [by eapply uses_ctx_inert, dispatch_uses|].
  intros [[]|e]; [constructor|]. apply in_load. intros []; [constructor|].
  apply inert_bind; [eapply ctx_call_inert; constructor|constructor].
Qed.

Lemma handler_task_actions r id pl ctx : reg_safe r → ctx_actions ctx (handler_task r id pl ctx).
Proof.
  intros Hr. apply actions_ok_bind; [by apply uses_ctx_actions, dispatch_uses|].
  intros [[]|e]; [constructor|]. apply as_load. intros []; [constructor|].
  apply actions_ok_bind; [apply ctx_call_actions; constructor|constructor].
Qed.

Lemma emit_inert r p l : emit_call r p → inert l p.
Proof.
  assert (Hh : ∀ id pl, inert l (SendFrame EVENTS (new_outbound (event_header id (zlen pl)) pl)
                                  Ret)).
  { intros id pl. apply in_send; [|by constructor]. right. unfold is_terminal.
    by rewrite ob_flags_new. }
  intros [T S name v|name pl]; unfold emit, emit_raw;
    destruct (ok_or _ _); cbn [try_ok]; [|by constructor|done|by constructor].
  destruct (msgpack_encode v); [apply Hh|constructor].
Qed.

Lemma emit_actions r p (P : loc → OutboundFrame → Prop) Q :
  (∀ f, event_frame f → P EVENTS f) → emit_call r p → actions_ok P Q p.
Proof.
  intros HP [T S name v|name pl]; unfold emit, emit_raw;
    destruct (ok_or _ _); cbn [try_ok]; try constructor.
  - destruct (msgpack_encode v); constructor; [apply HP; by eexists _, _|by constructor].
  - apply HP. by eexists _, _.
  - by constructor.
Qed.

(** *** Frames: each kind of step *)

(** The parts of the invariant that do not look at the programs. *)
Lemma attributed_mono st st' l f :
  (∀ c, c ∈ c_requests st → c ∈ c_requests st') → attributed st l f → attributed st' l f.
Proof. intros Hc [H|(c & Hin & H)]; [by left|right; exists c; auto]. Qed.

(** The programs of a state are rearranged, dropped or joined by harmless
    ones; nothing else changes. *)
Lemma frames_inv_programs st st' news :
  c_world st' = c_world st → c_next st' = c_next st → c_requests st' = c_requests st →
  c_active st' ⊆ c_active st →
  (∃ dropped, news ++ programs st ≡ₚ dropped ++ programs st') →
  Forall (λ p, (∀ l, inert l p) ∧ actions_ok (attributed st) (λ l, (l < c_next st)%nat) p) news →
  frames_inv st → frames_inv st'.
Proof.
  intros Hw Hn Hr Ha [dropped Hp] Hnews [F1 F2 F3 F4 F5 F6 F7].
  assert (Hattr : ∀ l f, attributed st l f → attributed st' l f).
  { intros l f. apply attributed_mono. by rewrite Hr. }
  split; rewrite ?Hw, ?Hn, ?Hr; try done.
  - intros l. assert (Hrule : rule l (c_world st, dropped ++ programs st')).
    { eapply rule_perm; [exact Hp|]. clear Hp.
      induction Hnews as [|p news [Hp _] _ IH]; [apply F1|]. by apply rule_cons. }
    clear Hp. induction dropped as [|p dropped IH]; [done|]. by apply IH, rule_tail with p.
  - assert (Hall : Forall (actions_ok (attributed st) (λ l, (l < c_next st)%nat))
                     (dropped ++ programs st')).
    { rewrite <- Hp. apply Forall_app_2; [|done].
      eapply Forall_impl; [exact Hnews|]. by intros p []. }
    apply Forall_app in Hall as [_ Hall]. eapply Forall_impl; [exact Hall|].
    intros p. by apply actions_ok_impl.
  - eapply Forall_impl; [exact F3|]. intros e. apply Hattr.
  - intros id l Hl. eapply F6. by eapply lookup_weaken.
Qed.

(** One program makes a step. *)
Lemma frames_inv_step st st' p w p' qs ps :
  pstep (c_world st) p w p' qs → programs st ≡ₚ p :: ps → programs st' ≡ₚ p' :: ps ++ qs →
  c_world st' = w → c_next st' = c_next st → c_requests st' = c_requests st →
  c_active st' = c_active st → frames_inv st → frames_inv st'.
Proof.
  intros Hst Hps Hps' <- Hn Hr Ha [F1 F2 F3 F4 F5 F6 F7].
  assert (Hattr : ∀ l f, attributed st l f → attributed st' l f).
  { intros l f. apply attributed_mono. by rewrite Hr. }
  rewrite Hps in F2. apply Forall_cons in F2 as [Fp F2].
  destruct (pstep_actions _ _ _ _ _ _ _ Hst Fp F3) as (Hlog & Hp' & Hqs & Hcells).
  split; rewrite ?Hn, ?Hr, ?Ha; try done.
  - intros l. apply (rule_perm _ _ (p' :: ps ++ qs)); [by rewrite Hps'|].
    eapply rule_step; [exact Hst|].
    eapply rule_perm; [exact Hps|]. apply F1.
  - rewrite Hps'.
    assert (Hall : Forall (actions_ok (attributed st) (λ l, (l < c_next st)%nat)) (p' :: ps ++ qs))
      by (constructor; [done|by apply Forall_app_2]).
    eapply Forall_impl; [exact Hall|]. intros q. by apply actions_ok_impl.
  - eapply Forall_impl; [exact Hlog|]. intros e. apply Hattr.
  - intros l Hl. rewrite Hcells by lia. by apply F4.
Qed.

(** A frame is dispatched. *)
Lemma frames_inv_dispatch r f st :
  reg_safe r → frames_inv st → frames_inv (dispatch_frame r f st).
Proof.
  intros Hsafe Hi. unfold dispatch_frame. pose proof Hi as [F1 F2 F3 F4 F5 F6 F7].
  destruct (_ =? ABORT_METHOD_ID).
  { destruct (c_active st !! _) as [token|] eqn:Htok; [|done]. apply F6 in Htok.
    split; cbn; try done.
    - intros l. eapply rule_world; [..|apply F1]; [done|apply cell_set_mono].
    - intros l Hl. rewrite cell_set_ne by lia. by apply F4. }
  destruct (_ =? AUTH_METHOD_ID); [done|]. destruct (is_response _); [done|].
  destruct (c_permits st) as [|permits]; [done|].
  set (ctx := with_writer_and_token _ _ _ _ _).
  set (tk := handler_task _ _ _ ctx).
  match goal with |- frames_inv ?x => set (st' := x) end.
  assert (Hattr : ∀ l f, attributed st l f → attributed st' l f).
  { intros l g. apply attributed_mono. cbn. set_solver. }
  assert (Hcell : ∀ l, cell (c_world st') l = cell (c_world st) l).
  { intros l. cbn. rewrite cell_alloc. case_decide as Hd; [|done].
    symmetry. apply F4. lia. }
  assert (Hps : programs st' ≡ₚ tk :: programs st).
  { unfold programs. cbn. rewrite fmap_app. cbn. rewrite <- app_assoc. cbn [app].
    by rewrite <- Permutation_middle. }
  assert (Hctx : ctx ∈ c_requests st') by (cbn; set_solver).
  split.
  - intros l. apply (rule_perm _ _ (tk :: programs st)); [by rewrite Hps|].
    apply rule_cons; [by apply handler_task_inert|].
    eapply rule_world; [..|apply F1]; [done|by rewrite Hcell].
  - rewrite Hps. constructor.
    + eapply actions_ok_impl; [..|by apply handler_task_actions].
      * intros l g [-> Hg]. right. by exists ctx.
      * cbn. lia.
    + eapply Forall_impl; [exact F2|]. intros p. apply actions_ok_impl; [done|]. cbn. lia.
  - eapply Forall_impl; [exact F3|]. intros e. apply Hattr.
  - intros l Hl. rewrite Hcell. apply F4. cbn in Hl. lia.
  - cbn. apply Forall_app_2; [|constructor; [cbn; unfold EVENTS; lia|constructor]].
    eapply Forall_impl; [exact F5|]. cbn. intros c. lia.
  - cbn. intros id l. destruct (decide (id = request_id (header f))) as [->|Hne].
    + rewrite lookup_insert_eq. intros [= <-]. lia.
    + rewrite lookup_insert_ne by done. intros Hl%F6. lia.
  - cbn. rewrite fmap_app. apply NoDup_app. split_and!; [done| |by apply NoDup_singleton].
    intros l Hl Hl'. cbn in Hl'. apply list_elem_of_singleton in Hl' as ->.
    apply list_elem_of_fmap in Hl as (c & Hc & Hin). rewrite Forall_forall in F5.
    specialize (F5 _ Hin). lia.
Qed.

(** Where the program of a task stands among the programs. *)
Lemma programs_task st t ts1 ts2 :
  c_tasks st = ts1 ++ t :: ts2 →
  programs st ≡ₚ t_prog t :: (t_prog <$> ts1 ++ ts2) ++ c_background st.
Proof.
  intros Ht. unfold programs. rewrite Ht, !fmap_app, fmap_cons.
  by rewrite <- Permutation_middle.
Qed.

Lemma frames_inv_finish b t ts1 ts2 st :
  c_tasks st = ts1 ++ t :: ts2 → frames_inv st → frames_inv (finish_task b t ts1 ts2 st).
Proof.
  intros Ht Hi. apply (frames_inv_programs st (finish_task b t ts1 ts2 st) []). all: try done.
  - cbn. destruct b; [done|]. apply delete_subseteq.
  - exists [t_prog t]. exact (programs_task _ _ _ _ Ht).
Qed.

Lemma cstep_frames_inv r st st' :
  reg_safe r → cstep r st st' → frames_inv st → frames_inv st'.
Proof.
  intros Hr Hst Hi. destruct Hst as [f Hf|t ts1 ts2 w p qs Ht Hp|t ts1 ts2 res Ht Hp
    |t ts1 ts2 Ht Hp|p p' ps1 ps2 w qs Hb Hp|p Hp|o Ho].
  - by apply frames_inv_dispatch.
  - eapply frames_inv_step; [exact Hp|by apply programs_task|..|exact Hi]; try done.
    unfold programs. cbn. rewrite !fmap_app, fmap_cons. cbn [t_prog].
    rewrite <- Permutation_middle. cbn [app]. by rewrite !app_assoc.
  - by apply frames_inv_finish.
  - by apply frames_inv_finish.
  - eapply (frames_inv_step _ _ _ _ _ _ ((t_prog <$> c_tasks st) ++ ps1 ++ ps2));
      [exact Hp|..|exact Hi]; try done; unfold programs; cbn.
    + rewrite Hb, !app_assoc. by rewrite <- Permutation_middle.
    + rewrite !app_assoc, <- (app_assoc _ ps2). by rewrite <- Permutation_middle, !app_assoc.
  - apply (frames_inv_programs st _ [p]); try done.
    + exists []. unfold programs. cbn [app c_tasks c_background].
      rewrite app_assoc. symmetry. apply Permutation_app_comm.
    + repeat constructor; [intros l; by eapply emit_inert|].
      eapply emit_actions; [|exact Hp]. intros g Hg. by left.
  - destruct Hi as [F1 F2 F3 F4 F5 F6 F7]. by split.
Qed.

(** *** Permits and the table *)

Lemma table_inv_dispatch max r f st :
  table_inv max st → table_inv max (dispatch_frame r f st).
Proof.
  intros Hi. unfold dispatch_frame. pose proof Hi as [T1 T2 T3 T4 T5].
  destruct (_ =? ABORT_METHOD_ID).
  { destruct (c_active st !! _) as [token|]; [|done]. by split. }
  destruct (_ =? AUTH_METHOD_ID); [done|]. destruct (is_response _); [done|].
  destruct (c_permits st) as [|permits] eqn:Hperm; [done|].
  set (ctx := with_writer_and_token _ _ _ _ _).
  assert (Hnew : ctx ∉ c_requests st).
  { intros Hin. rewrite Forall_forall in T4. specialize (T4 _ Hin). cbn in T4. lia. }
  split; cbn.
  - rewrite length_app. cbn. lia.
  - apply Forall_app_2; [|repeat constructor; set_solver].
    eapply Forall_impl; [exact T2|]. intros t [? ?]. set_solver.
  - rewrite fmap_app. apply NoDup_app. split_and!; [done| |by apply NoDup_singleton].
    intros c Hc Hc'. cbn in Hc'. apply list_elem_of_singleton in Hc' as ->.
    apply list_elem_of_fmap in Hc as (t & Ht & Hin). rewrite Forall_forall in T2.
    destruct (T2 _ Hin) as [Hc _]. by rewrite <- Ht in Hc.
  - apply Forall_app_2; [|repeat constructor; cbn; lia].
    eapply Forall_impl; [exact T4|]. cbn. intros c. lia.
  - intros t [Ht|Ht%list_elem_of_singleton]%elem_of_app.
    + destruct (decide (t_request_id t = request_id (header f))) as [Heq|Hne].
      * right. exists ctx. split; [set_solver|]. split; [|done].
        intros ->. rewrite Forall_forall in T2. by destruct (T2 _ Ht).
      * rewrite lookup_insert_ne by done. destruct (T5 _ Ht) as [?|(c & ? & ?)]; [by left|].
        right. exists c. by split; [apply elem_of_app; left|].
    + subst t. cbn. left. by rewrite lookup_insert_eq.
Qed.

Lemma table_inv_finish max b t ts1 ts2 st :
  c_tasks st = ts1 ++ t :: ts2 → table_inv max st →
  table_inv max (finish_task b t ts1 ts2 st).
Proof.
  intros Ht [T1 T2 T3 T4 T5]. rewrite Ht in *.
  assert (Hperm : ts1 ++ t :: ts2 ≡ₚ t :: ts1 ++ ts2) by by rewrite <- Permutation_middle.
  rewrite Hperm in T2. apply Forall_cons in T2 as [[Hc Hid] T2].
  rewrite Hperm in T3. cbn [fmap list_fmap] in T3. apply NoDup_cons in T3 as [Hfresh T3].
  split; cbn; try done.
  - rewrite length_app in *. cbn in T1. lia.
  - intros t' Hin. assert (Hin' : t' ∈ ts1 ++ t :: ts2) by (by rewrite Hperm; right).
    destruct (T5 _ Hin') as [Ha|Ha]; [|by right].
    destruct b; [by left|]. destruct (decide (t_request_id t' = t_request_id t)) as [Heq|Hne].
    + right. exists (t_ctx t). split; [done|]. split; [|by rewrite Heq].
      intros Hct. apply Hfresh. rewrite Hct. by apply list_elem_of_fmap_2.
    + left. by rewrite lookup_delete_ne by done.
Qed.

(** A step of a task only changes its program. *)
Lemma table_inv_program max t ts1 ts2 p st st' :
  c_tasks st = ts1 ++ t :: ts2 →
  c_tasks st' = ts1 ++ {| t_ctx := t_ctx t; t_request_id := t_request_id t; t_prog := p |} :: ts2 →
  c_permits st' = c_permits st → c_active st' = c_active st → c_next st' = c_next st →
  c_requests st' = c_requests st → table_inv max st → table_inv max st'.
Proof.
  intros Ht Ht' Hp Ha Hn Hr [T1 T2 T3 T4 T5]. rewrite Ht in *.
  split; rewrite ?Ht', ?Hp, ?Ha, ?Hn, ?Hr; try done.
  - rewrite length_app in *. cbn in *. lia.
  - apply Forall_app in T2 as [T2 [Ht2 T2']%Forall_cons].
    apply Forall_app_2; [done|]. by constructor.
  - rewrite fmap_app in *. exact T3.
  - intros t' Hin. apply elem_of_app in Hin as [Hin|[->|Hin]%elem_of_cons].
    + apply T5. set_solver.
    + apply (T5 t). set_solver.
    + apply T5. set_solver.
Qed.

Lemma cstep_table_inv max r st st' : cstep r st st' → table_inv max st → table_inv max st'.
Proof.
  intros Hst Hi. destruct Hst as [f Hf|t ts1 ts2 w p qs Ht Hp|t ts1 ts2 res Ht Hp
    |t ts1 ts2 Ht Hp|p p' ps1 ps2 w qs Hb Hp|p Hp|o Ho].
  - by apply table_inv_dispatch.
  - by eapply table_inv_program.
  - by apply table_inv_finish.
  - by apply table_inv_finish.
  - by destruct Hi.
  - by destruct Hi.
  - by destruct Hi.
Qed.

(** ** Reachable states *)

Definition client_reachable (r : HandlerRegistry) (max : nat) (o : W) (st : client W) : Prop :=
  rtc (cstep r) (start_client max o) st.

Lemma start_frames_inv max (o : W) : frames_inv (start_client max o).
Proof.
  split; cbn; try done; by constructor.
Qed.

Lemma start_table_inv max (o : W) : table_inv max (start_client max o).
Proof.
  split; cbn; try done; try by constructor. by intros t Ht%elem_of_nil.
Qed.

Lemma reachable_frames_inv r max o st :
  reg_safe r → client_reachable r max o st → frames_inv st.
Proof.
  intros Hr Hs. unfold client_reachable in Hs.
  apply (rtc_ind_r (λ st, frames_inv st) (start_client max o)) in Hs;
    [done|apply start_frames_inv|]. intros. by eapply cstep_frames_inv.
Qed.

Lemma reachable_table_inv r max o st : client_reachable r max o st → table_inv max st.
Proof.
  intros Hs. unfold client_reachable in Hs.
  apply (rtc_ind_r (λ st, table_inv max st) (start_client max o)) in Hs;
    [done|apply start_table_inv|]. intros. by eapply cstep_table_inv.
Qed.

Lemma own_step_cstep r st st' : own_step r st st' → cstep r st st'.
Proof.
  intros Hst. destruct Hst as [f []| | | | | |];
    [eapply cs_task|eapply cs_done|eapply cs_panic|eapply cs_background|eapply cs_emit
    |eapply cs_writer]; eassumption.
Qed.

(** Frames dispatched one after the other. *)
Lemma dispatched_reachable r max o st fs :
  client_reachable r max o st → Forall (frame_wf ABSOLUTE_MAX_PAYLOAD_SIZE) fs →
  client_reachable r max o (foldl (λ st f, dispatch_frame r f st) st fs).
Proof.
  intros Hs Hfs. revert st Hs. induction Hfs as [|f fs Hf _ IH]; intros st Hs; [done|].
  cbn [foldl]. apply IH. eapply rtc_r; [exact Hs|]. by apply cs_frame.
Qed.
End Lemmas.

(** *** The writer under the client *)
Section Writer.
Context `{TP : ThirdParty} `{!Serialize string} {W : Type} `{!FrameWriter W}
  `{!FrameWriterOk W}.
Implicit Types (st : client W).

Lemma dispatch_out r f st :
  out (c_world (dispatch_frame r f st)) = out (c_world st)
  ∧ sends (c_world (dispatch_frame r f st)) = sends (c_world st).
Proof. unfold dispatch_frame. by repeat case_match. Qed.

(** The history of the client is the list of calls its writer has seen. *)
Lemma reachable_calls r max o st :
  client_reachable r max o st →
  (fw_calls (out (c_world st))).*1 = (fw_calls o).*1 ++ (sends (c_world st)).*2.
Proof.
  intros Hs. unfold client_reachable in Hs.
  apply (rtc_ind_r (λ st, (fw_calls (out (c_world st))).*1
                          = (fw_calls o).*1 ++ (sends (c_world st)).*2)
           (start_client max o)) in Hs; [done|by rewrite app_nil_r|].
  clear st Hs. intros st st' _ Hst IH. destruct Hst; cbn; try exact IH.
  - destruct (dispatch_out r f st) as [-> ->]. exact IH.
  - by eapply pstep_calls.
  - by eapply pstep_calls.
  - by erewrite fw_frames_step.
Qed.

(** What every step does to the writer: nothing, the begin of a call with a
    frame the client may send, or a step of its own. *)
Lemma cstep_out (R : W → W → Prop) r st st' :
  (∀ o, R o o) → (∀ o o', fw_step o o' → R o o') →
  (∀ l f o, attributed st l f → R o (fw_begin o f)) →
  frames_inv st → cstep r st st' → R (out (c_world st)) (out (c_world st')).
Proof.
  intros Hrefl Hwr Hsend [_ F2 _ _ _ _ _] Hst. rewrite Forall_forall in F2.
  destruct Hst as [f Hf|t ts1 ts2 w p qs Ht Hp|t ts1 ts2 res Ht Hp
    |t ts1 ts2 Ht Hp|p p' ps1 ps2 w qs Hb Hp|p Hp|o Ho]; cbn; try apply Hrefl.
  - destruct (dispatch_out r f st) as [-> _]. apply Hrefl.
  - eapply pstep_out; [exact Hrefl|exact Hsend|exact Hp|]. apply F2.
    rewrite (programs_task _ _ _ _ Ht). by left.
  - eapply pstep_out; [exact Hrefl|exact Hsend|exact Hp|]. apply F2.
    unfold programs. rewrite Hb. apply elem_of_app. right. apply elem_of_app. right. by left.
  - by apply Hwr.
Qed.

(** The ids of the requests received are those of decoded headers. *)
Lemma reachable_requests_wf r max o st :
  client_reachable r max o st → Forall ctx_wf (c_requests st).
Proof.
  intros Hs. unfold client_reachable in Hs.
  apply (rtc_ind_r (λ st, Forall ctx_wf (c_requests st)) (start_client max o)) in Hs;
    [done|by constructor|].
  clear st Hs. intros st st' _ Hst IH. destruct Hst as [f [[Hm _ Hr _] _ _ _]| | | | | |];
    try exact IH.
  unfold dispatch_frame. repeat case_match; try exact IH.
  cbn. apply Forall_app_2; [done|]. apply Forall_singleton. by split.
Qed.

Lemma attributed_wf st l f : attributed st l f → ob_wf f.
Proof. intros [[_ (id & pl & ->)]|(c & _ & _ & fl & pl & _ & ->)]; apply new_outbound_wf. Qed.

(** The client keeps its writer in the states a writer can be in. *)
Lemma reachable_fw_ok r max o st :
  reg_safe r → fw_ok o → client_reachable r max o st → fw_ok (out (c_world st)).
Proof.
  intros Hr Ho Hs. unfold client_reachable in Hs.
  apply (rtc_ind_r (λ st, client_reachable r max o st ∧ fw_ok (out (c_world st)))
           (start_client max o)) in Hs; [by apply Hs|by split; [apply rtc_refl|]|].
  clear st Hs. intros st st' _ Hst [Hreach Hok]. split; [by eapply rtc_r|].
  pose proof (reachable_frames_inv _ _ _ _ Hr Hreach) as Hi. revert Hok.
  apply (cstep_out (λ o o', fw_ok o → fw_ok o') r st st'); [done|..|done|done].
  - intros o1 o2. apply fw_ok_step.
  - intros l f o1 Hf. apply fw_ok_begin. by eapply attributed_wf.
Qed.
End Writer.

(** ** Properties *)

(** C5: in every state the running client can reach, whatever frames arrive
    and however handlers, the tasks they spawn, emits and failing sends
    interleave: each request received has its own flag and at most one
    terminal frame passed to [send], none before the flag is set; and every
    frame ever passed to [send] is an event frame or a response
    frame of one of the requests received, with that request's ids. *)
Theorem client_one_terminal_per_request `{TP : ThirdParty} `{!Serialize string} {W}
  `{!FrameWriter W} (r : HandlerRegistry) (max : nat) (o : W) (st : client W) :
  reg_safe r → client_reachable r max o st →
  NoDup (ctx_responded <$> c_requests st)
  ∧ (∀ c, c ∈ c_requests st →
      (length (terminals (ctx_responded c) (sends (c_world st)))
       ≤ Nat.b2n (cell (c_world st) (ctx_responded c)))%nat)
  ∧ (∀ l f, (l, f) ∈ sends (c_world st) →
      (l = EVENTS ∧ event_frame f)
      ∨ ∃ c, c ∈ c_requests st ∧ ctx_responded c = l ∧ ctx_frame c f).
Proof.
  intros Hr Hs. destruct (reachable_frames_inv _ _ _ _ Hr Hs) as [F1 _ F3 _ _ _ F7].
  split; [done|]. split.
  - intros c _. destruct (F1 (ctx_responded c)) as [_ Hc]. cbn [fst snd] in Hc. lia.
  - intros l f Hin. rewrite Forall_forall in F3. exact (F3 _ Hin).
Qed.

(** C22: the semaphore accounts for the running handlers: free permits and
    running tasks always add up to the configured maximum, so never more than
    that many handlers run; a request that arrives with no permit left changes
    nothing at all (it is dropped without an answer), and with one left it
    takes a permit, enters the table under its request id and starts exactly
    one task, in a fresh context with the response type of its method. *)
Theorem handler_capacity `{TP : ThirdParty} `{!Serialize string} {W} `{!FrameWriter W}
  (r : HandlerRegistry) (max : nat) (o : W) (st : client W) (f : Frame) :
  client_reachable r max o st →
  method_id (header f) ≠ ABORT_METHOD_ID → method_id (header f) ≠ AUTH_METHOD_ID →
  is_response (header f) = false →
  let st' := dispatch_frame r f st in
  (c_permits st + length (c_tasks st))%nat = max
  ∧ (length (c_tasks st) = max → st' = st)
  ∧ ((length (c_tasks st) < max)%nat →
     ∃ ctx, c_tasks st' = c_tasks st ++
         [{| t_ctx := ctx; t_request_id := request_id (header f);
             t_prog := handler_task r (method_id (header f)) (payload f) ctx |}]
       ∧ (ctx ∉ c_requests st)
       ∧ ctx_method_id ctx = method_id (header f) ∧ ctx_request_id ctx = request_id (header f)
       ∧ ctx_response_type ctx
         = default RtResult (get_response_type_by_id r (method_id (header f)))
       ∧ c_active st' !! request_id (header f) = Some (ctx_token ctx)
       ∧ S (c_permits st') = c_permits st).
Proof.
  intros Hs H1 H2 H3 st'. destruct (reachable_table_inv _ _ _ _ Hs) as [T1 _ _ T4 _].
  unfold st', dispatch_frame. apply Z.eqb_neq in H1 as ->. apply Z.eqb_neq in H2 as ->.
  rewrite H3. split; [done|]. split.
  - intros Hl. destruct (c_permits st); [done|lia].
  - intros Hl. destruct (c_permits st) as [|permits]; [lia|]. eexists. split; [reflexivity|].
    split_and!; try done; [|cbn; by rewrite lookup_insert_eq].
    intros Hin. rewrite Forall_forall in T4. specialize (T4 _ Hin). cbn in T4. lia.
Qed.

(** C23: an ABORT frame for a running request whose id no other request has
    used cancels exactly that request's token: its handler sees
    [is_cancelled], every other cell and everything else in the client is
    unchanged. *)
Theorem abort_reaches_handler `{TP : ThirdParty} `{!Serialize string} {W} `{!FrameWriter W}
  (r : HandlerRegistry) (max : nat) (o : W) (st : client W) (t : task) (f : Frame) :
  client_reachable r max o st → t ∈ c_tasks st →
  (∀ c, c ∈ c_requests st → ctx_request_id c = t_request_id t → c = t_ctx t) →
  method_id (header f) = ABORT_METHOD_ID → request_id (header f) = t_request_id t →
  dispatch_frame r f st = set_world (set_cell (ctx_token (t_ctx t)) (c_world st)) st
  ∧ cell (c_world (dispatch_frame r f st)) (ctx_token (t_ctx t)) = true
  ∧ ∀ l, l ≠ ctx_token (t_ctx t) →
      cell (c_world (dispatch_frame r f st)) l = cell (c_world st) l.
Proof.
  intros Hs Ht Huniq Hm Hid. destruct (reachable_table_inv _ _ _ _ Hs) as [_ _ _ _ T5].
  assert (Heq : dispatch_frame r f st
                = set_world (set_cell (ctx_token (t_ctx t)) (c_world st)) st).
  { unfold dispatch_frame. rewrite Hm, Hid. cbn.
    destruct (T5 _ Ht) as [->|(c & Hc & Hne & Hcid)]; [done|]. by destruct Hne; apply Huniq. }
  rewrite Heq. split; [done|]. split; [apply cell_set_same|].
  intros l Hl. by apply cell_set_ne.
Qed.

(** C21: a request whose handler fails (or whose method is unknown, or whose
    payload does not decode) without having answered is answered by the
    runtime: the task sets the flag and hands one error frame with the printed
    error to the writer; when the request was already answered, or the handler
    succeeded, the task adds nothing.  The task itself never fails. *)
Theorem failed_request_answered `{TP : ThirdParty} `{!Serialize string} {W} `{!FrameWriter W}
  (r : HandlerRegistry) (method_id : u16) (pl : bytes) (ctx : RequestContext)
  (w w1 : world W) (ins ins1 : list answer) (res : Result unit) :
  run (dispatch r method_id pl ctx) w ins = Some (w1, res, ins1) →
  run (handler_task r method_id pl ctx) w ins
  = match res with
    | Ok _ => Some (w1, Ok tt, ins1)
    | Err e =>
      if cell w1 (ctx_responded ctx) then Some (w1, Ok tt, ins1)
      else
        '(w2, _, ins2) ← transmit ctx (error_flags ctx) (msgpack_encode (error_to_string e))
                           (set_cell (ctx_responded ctx) w1) ins1;
        Some (w2, Ok tt, ins2)
    end.
Proof.
  intros Hrun. unfold handler_task. rewrite (run_bind _ _ _ _ _ _ _ Hrun).
  destruct res as [u|e]; [done|]. unfold has_responded. cbn [run].
  destruct (cell w1 (ctx_responded ctx)) eqn:Hc; [done|].
  pose proof (run_terminal ctx _ _ _ w1 ins1 (tc_error ctx (error_to_string e))) as He.
  rewrite Hc in He. destruct (transmit _ _ _ _ _) as [[[w2 res2] ins2]|].
  - by rewrite (run_bind _ _ _ _ _ _ _ He).
  - by apply run_bind_none.
Qed.

(** [emit] and [emit_raw] on a registered event hand exactly one frame to
    the writer, with the event's id, request id 0, the to-parent flag alone
    and the payload's length modulo 2^32; an unknown event, or a value that
    does not encode, is an error and sends nothing. *)
Theorem emit_spec `{TP : ThirdParty} {W} `{!FrameWriter W} {T} `{!Serialize T}
  (r : HandlerRegistry) (name : string) (v : T) (data : bytes) (w : world W)
  (res : Result unit) (ins : list answer) :
  let emitted body :=
    match get_event_id r name, body with
    | None, _ => (w, Err (unknown_event name), InSend res :: ins)
    | Some _, Err e => (w, Err e, InSend res :: ins)
    | Some id, Ok pl =>
      (begin_send EVENTS (new_outbound (event_header id (zlen pl)) pl) w, res, ins)
    end in
  run (emit r name v) w (InSend res :: ins) = Some (emitted (msgpack_encode v))
  ∧ run (emit_raw r name data) w (InSend res :: ins) = Some (emitted (Ok data)).
Proof.
  cbv zeta. unfold emit, emit_raw. destruct (get_event_id r name) as [id|]; [|done].
  cbn [ok_or try_ok]. split; [|done]. by destruct (msgpack_encode v).
Qed.

(** ** Concrete runs *)
(** A handler that ends with [respond] on a value that does not encode leaves
    its request unanswered: the flag is set before encoding, so the runtime
    takes the request for answered and sends no error frame. *)
Theorem encode_failure_unanswered `{TP : ThirdParty} `{!Serialize string} {W} `{!FrameWriter W}
  {T} `{!Serialize T} (r : HandlerRegistry) (method_id : u16) (pl : bytes)
  (ctx : RequestContext) (v : T) (e : ProcwireError) (w : world W) (ins : list answer) :
  dispatch r method_id pl ctx = respond ctx v → msgpack_encode v = Err e →
  cell w (ctx_responded ctx) = false →
  run (handler_task r method_id pl ctx) w ins
  = Some (set_cell (ctx_responded ctx) w, Ok tt, ins).
Proof.
  intros Hd He Hc. unfold handler_task. rewrite Hd.
  pose proof (run_terminal ctx _ _ _ w ins (tc_respond ctx v)) as Hrun.
  rewrite Hc, He in Hrun. cbn [transmit] in Hrun. rewrite (run_bind _ _ _ _ _ _ _ Hrun).
  unfold has_responded. cbn [run]. by rewrite cell_set_same.
Qed.

Section Demo.
#[local] Existing Instance string_errors.
#[local] Existing Instance bytes_serialize.

Definition text_serialize : Serialize string := λ s, Ok (as_bytes s).
#[local] Existing Instance text_serialize.

(** Depending on its input, returns without an answer or echoes. *)
Definition demo_echo (pl : bytes) (ctx : RequestContext) : prog :=
  Input (λ n, if decide (n = 0%nat) then Ret (Ok tt) else pbind (respond_raw ctx pl) Ret).

Definition demo_registry : HandlerRegistry := {|
  methods := {["echo"%string := {| me_handler := demo_echo; me_response_type := RtResult;
                                   me_id := 1 |}]};
  events := {["tick"%string := 1]};
  next_method_id := 2; next_event_id := 2;
  id_to_name := {[1 := "echo"%string]}
|}.

Lemma demo_registry_eq :
  register_all true new_registry [RegMethod "echo" RtResult demo_echo; RegEvent "tick"]
  = Some demo_registry.
Proof. reflexivity. Qed.

Lemma demo_registry_safe : reg_safe demo_registry.
Proof.
  intros name e He pl ctx. cbn in He. apply lookup_singleton_Some in He as [_ <-].
  apply uc_input. intros n. case_decide; [constructor|].
  apply uc_call; [constructor|by constructor].
Qed.

Definition demo_req (method id : Z) : Frame := new_frame (new_header method 0 id 0) [].

Lemma demo_req_wf method id :
  0 < method < 2 ^ 16 → fits 32 id → frame_wf ABSOLUTE_MAX_PAYLOAD_SIZE (demo_req method id).
Proof.
  intros Hm Hid. split; cbn.
  - split; cbn; unfold fits in *; lia.
  - unfold header_valid, RESERVED_METHOD_ID, ABSOLUTE_MAX_PAYLOAD_SIZE.
    cbn [demo_req header method_id payload_length]. split_and!; [lia..|done].
  - done.
  - constructor.
Qed.

Definition demo_out : LogWriter := {| lw_calls := [] |}.
Definition demo_start : client LogWriter := start_client 2 demo_out.
Definition demo_busy : client LogWriter :=
  dispatch_frame demo_registry (demo_req 1 7) demo_start.

Lemma demo_busy_reachable : client_reachable demo_registry 2 demo_out demo_busy.
Proof.
  apply rtc_once, cs_frame, demo_req_wf; [lia|split; vm_compute; congruence].
Qed.

Lemma client_one_terminal_per_request_witness :
  let st := demo_busy in
  NoDup (ctx_responded <$> c_requests st)
  ∧ (∀ c, c ∈ c_requests st →
      (length (terminals (ctx_responded c) (sends (c_world st)))
       ≤ Nat.b2n (cell (c_world st) (ctx_responded c)))%nat)
  ∧ (∀ l f, (l, f) ∈ sends (c_world st) →
      (l = EVENTS ∧ event_frame f)
      ∨ ∃ c, c ∈ c_requests st ∧ ctx_responded c = l ∧ ctx_frame c f).
Proof.
  exact (client_one_terminal_per_request _ _ _ _ demo_registry_safe demo_busy_reachable).
Defined.

Lemma handler_capacity_witness :
  (c_permits demo_busy + length (c_tasks demo_busy))%nat = 2%nat.
Proof.
  exact (proj1 (handler_capacity demo_registry 2 demo_out demo_busy (demo_req 1 8)
    demo_busy_reachable ltac:(by vm_compute) ltac:(by vm_compute) eq_refl)).
Defined.

Lemma abort_reaches_handler_witness :
  cell (c_world (dispatch_frame demo_registry (demo_req ABORT_METHOD_ID 7) demo_busy)) 1 = true.
Proof.
  set (t := {| t_ctx := with_writer_and_token 1 7 RtResult 1 2; t_request_id := 7;
               t_prog := handler_task demo_registry 1 []
                           (with_writer_and_token 1 7 RtResult 1 2) |}).
  apply (abort_reaches_handler demo_registry 2 demo_out demo_busy t
           (demo_req ABORT_METHOD_ID 7) demo_busy_reachable); [by apply list_elem_of_here| |done..].
  by intros c [->|?%elem_of_nil]%elem_of_cons.
Defined.

(** A request for an unknown method. *)
Lemma failed_request_answered_witness :
  let ctx := with_writer_and_token 9 7 RtResult 1 2 in
  let w : world LogWriter := c_world demo_start in
  let f := new_outbound (new_header 9 flags.ERROR_RESPONSE 7 34)
             (as_bytes "Handler not found for method ID: 9"%string) in
  run (handler_task demo_registry 9 [] ctx) w [InSend (Ok tt)]
  = Some (begin_send 2 f (set_cell 2 w), Ok tt, []).
Proof.
  intros ctx w f.
  exact (failed_request_answered demo_registry 9 [] ctx w w [InSend (Ok tt)] [InSend (Ok tt)]
           (Err (HandlerNotFound 9)) eq_refl).
Defined.

(** ** Requests that share an id *)

(** Two requests with id 7; the first returns, and takes the entry of the
    second, which still runs, out of the table. *)
Definition demo_orphan : client LogWriter :=
  let ctx2 := with_writer_and_token 1 7 RtResult 3 4 in
  {| c_world := {| cells := <[4%nat := false]> (<[3%nat := false]>
                              (<[2%nat := false]> {[1%nat := false]}));
                   out := demo_out; sends := [] |};
     c_next := 5; c_active := ∅; c_permits := 1;
     c_tasks := [{| t_ctx := ctx2; t_request_id := 7;
                    t_prog := handler_task demo_registry 1 [] ctx2 |}];
     c_background := [];
     c_requests := [with_writer_and_token 1 7 RtResult 1 2; ctx2] |}.

Lemma demo_orphan_reachable : client_reachable demo_registry 2 demo_out demo_orphan.
Proof.
  assert (H7 : fits 32 7) by (split; vm_compute; congruence).
  eapply rtc_l; [apply (cs_frame _ _ (demo_req 1 7)), demo_req_wf; [lia|exact H7]|].
  eapply rtc_l; [apply (cs_frame _ _ (demo_req 1 7)), demo_req_wf; [lia|exact H7]|].
  eapply rtc_l.
  { eapply (cs_task _ _ _ []); [reflexivity|]. apply (p_input _ 0). }
  eapply rtc_l.
  { eapply (cs_done _ _ _ []); reflexivity. }
  match goal with |- rtc _ ?x ?y => replace x with y by reflexivity end. apply rtc_refl.
Qed.

(** The runtime does not keep apart requests with the same id: a handler can
    be running with no ABORT frame able to reach it. *)
Theorem duplicate_id_loses_abort :
  ∃ (st : client LogWriter) (t : task),
    client_reachable demo_registry 2 demo_out st ∧ t ∈ c_tasks st
    ∧ ∀ f, method_id (header f) = ABORT_METHOD_ID → dispatch_frame demo_registry f st = st.
Proof.
  exists demo_orphan. eexists. split; [apply demo_orphan_reachable|].
  split; [by apply list_elem_of_here|]. intros f Hm. unfold dispatch_frame. rewrite Hm. cbn.
  by rewrite lookup_empty.
Qed.
End Demo.
