(* ===== verification/Table.v ===== *)
(** * The table of active requests (src/client.rs)

    The entries of the table over the life of the tasks: as long as no handler
    panics every entry belongs to a running task, so the table is as bounded
    as the tasks are; a panicking handler leaves its entry, and its request
    without an answer. *)

From S2P Require Import Prelude Errors WireFormat Frame Codec Writer Init Program.
From S2P Require Import Context Registry Client.

Section Table.
Context `{TP : ThirdParty} `{!Serialize string} {W : Type} `{!FrameWriter W}.
Implicit Types (st : client W).

(** A step that is not the end of a panicked task. *)
Definition calm_step (r : HandlerRegistry) st st' : Prop :=
  cstep r st st' ∧ Forall (λ t, t_prog t ≠ Panic) (c_tasks st).

(** Every entry has a running task. *)
Definition table_tracks st : Prop :=
  ∀ id l, c_active st !! id = Some l → ∃ t, t ∈ c_tasks st ∧ t_request_id t = id.

Lemma table_tracks_program st st' t ts1 ts2 p :
  c_tasks st = ts1 ++ t :: ts2 →
  c_tasks st' = ts1 ++ {| t_ctx := t_ctx t; t_request_id := t_request_id t; t_prog := p |} :: ts2 →
  c_active st' = c_active st → table_tracks st → table_tracks st'.
Proof.
  intros Ht Ht' Ha Hi id l Hl. rewrite Ha in Hl. destruct (Hi id l Hl) as (t0 & Hin & <-).
  rewrite Ht in Hin. apply elem_of_app in Hin as [Hin|[->|Hin]%elem_of_cons].
  - exists t0. rewrite Ht'. split; [apply elem_of_app; by left|done].
  - eexists. rewrite Ht'. split; [apply elem_of_app; right; by left|done].
  - exists t0. rewrite Ht'. split; [apply elem_of_app; right; by right|done].
Qed.

Lemma table_tracks_dispatch r f st : table_tracks st → table_tracks (dispatch_frame r f st).
Proof.
  intros Hi. unfold dispatch_frame. destruct (_ =? ABORT_METHOD_ID).
  { by destruct (c_active st !! _). }
  destruct (_ =? AUTH_METHOD_ID); [done|]. destruct (is_response _); [done|].
  destruct (c_permits st) as [|permits]; [done|]. intros id l. cbn.
  destruct (decide (id = request_id (header f))) as [->|Hne].
  - intros _. eexists. split; [apply elem_of_app; right; by left|done].
  - rewrite lookup_insert_ne by done. intros Hl. destruct (Hi id l Hl) as (t & Hin & <-).
    exists t. split; [apply elem_of_app; by left|done].
Qed.

Lemma table_tracks_finish t ts1 ts2 st :
  c_tasks st = ts1 ++ t :: ts2 → table_tracks st → table_tracks (finish_task false t ts1 ts2 st).
Proof.
  intros Ht Hi id l. cbn. intros [Hne Hl]%lookup_delete_Some.
  destruct (Hi id l Hl) as (t0 & Hin & <-). exists t0. split; [|done].
  rewrite Ht in Hin. assert (t0 ≠ t) by (by intros ->).
  apply elem_of_app in Hin as [?|[?|?]%elem_of_cons]; [|done|];
    apply elem_of_app; [by left|by right].
Qed.

Lemma calm_step_tracks r st st' : calm_step r st st' → table_tracks st → table_tracks st'.
Proof.
  intros [Hst Hcalm] Hi. destruct Hst as [f Hf|t ts1 ts2 w p qs Ht Hp|t ts1 ts2 res Ht Hp
    |t ts1 ts2 Ht Hp|p p' ps1 ps2 w qs Hb Hp|p Hp|o Ho].
  - by apply table_tracks_dispatch.
  - by eapply table_tracks_program.
  - by apply table_tracks_finish.
  - rewrite Ht in Hcalm. apply Forall_app in Hcalm as [_ [? _]%Forall_cons]. done.
  - exact Hi.
  - exact Hi.
  - exact Hi.
Qed.

Lemma table_tracks_size st :
  table_tracks st → (length (map_to_list (c_active st)) ≤ length (c_tasks st))%nat.
Proof.
  intros Hi. rewrite <- (length_fmap fst), <- (length_fmap t_request_id (c_tasks st)).
  apply submseteq_length, NoDup_submseteq; [apply NoDup_fst_map_to_list|].
  intros id ([id' l] & -> & Hl)%list_elem_of_fmap. apply elem_of_map_to_list in Hl.
  destruct (Hi _ _ Hl) as (t & Hin & <-). cbn; by apply (list_elem_of_fmap_2 t_request_id).
Qed.
End Table.

(** ** Properties *)

(** C24: the table does not leak unless a handler panics.  In every state the
    client reaches by steps that end no panicked task, every entry of the table
    of active requests belongs to a running task with that request id; so the
    table has at most as many entries as tasks are running, which is at most
    the configured maximum, and none when no task runs. *)
Theorem table_bounded `{TP : ThirdParty} `{!Serialize string} {W} `{!FrameWriter W}
  (r : HandlerRegistry) (max : nat) (o : W) (st : client W) :
  rtc (calm_step r) (start_client max o) st →
  (∀ id l, c_active st !! id = Some l → ∃ t, t ∈ c_tasks st ∧ t_request_id t = id)
  ∧ (length (map_to_list (c_active st)) ≤ length (c_tasks st) ≤ max)%nat
  ∧ (c_tasks st = [] → c_active st = ∅).
Proof.
  intros Hrun.
  assert (Hreach : client_reachable r max o st).
  { eapply rtc_subrel; [|exact Hrun]. by intros st1 st2 [? _]. }
  assert (Hi : table_tracks st).
  { revert st Hrun Hreach. refine (rtc_ind_r (λ st, client_reachable r max o st → table_tracks st)
      (start_client max o) _ _); [by intros _ id l|].
    intros st1 st2 Hrun Hst IH _. eapply calm_step_tracks; [exact Hst|]. apply IH.
    eapply rtc_subrel; [|exact Hrun]. by intros st3 st4 [? _]. }
  destruct (reachable_table_inv _ _ _ _ Hreach) as [T1 _ _ _ _].
  split; [exact Hi|]. split; [split; [by apply table_tracks_size|lia]|].
  intros Hnil. apply map_empty. intros id. destruct (c_active st !! id) as [l|] eqn:Hl; [|done].
  destruct (Hi id l Hl) as (t & Hin & _). rewrite Hnil in Hin. by apply elem_of_nil in Hin.
Qed.

Section Demo.
#[local] Existing Instance string_errors.
#[local] Existing Instance text_serialize.

Lemma table_bounded_witness :
  (length (map_to_list (c_active demo_busy)) ≤ length (c_tasks demo_busy) ≤ 2)%nat.
Proof.
  refine (proj1 (proj2 (table_bounded demo_registry 2 demo_out demo_busy _))).
  apply rtc_once. split; [|by constructor].
  apply (cs_frame _ _ (demo_req 1 7)), demo_req_wf; [lia|split; vm_compute; congruence].
Defined.

(** ** A handler that panics *)

Definition panic_registry : HandlerRegistry := {|
  methods := {["boom"%string := {| me_handler := λ _ _, Panic; me_response_type := RtResult;
                                   me_id := 1 |}]};
  events := ∅; next_method_id := 2; next_event_id := 1; id_to_name := {[1 := "boom"%string]}
|}.

(** Its permit is released, and that is all: nothing runs any more, nothing
    was sent, the request is still in the table, and only a frame from the
    parent or an emit can change that. *)
Theorem panicked_request_leaks :
  ∃ st : client LogWriter,
    client_reachable panic_registry 2 demo_out st
    ∧ c_tasks st = [] ∧ c_background st = [] ∧ c_permits st = 2%nat
    ∧ sends (c_world st) = [] ∧ c_active st !! 7 = Some 1%nat
    ∧ length (c_requests st) = 1%nat.
Proof.
  eexists. split.
  - eapply rtc_l; [apply (cs_frame _ _ (demo_req 1 7)), demo_req_wf;
                   [lia|split; vm_compute; congruence]|].
    eapply rtc_l; [eapply (cs_panic _ _ _ []); reflexivity|]. apply rtc_refl.
  - by split_and!.
Qed.
End Demo.
