(* ===== verification/Completion.v ===== *)
(** * Requests complete (src/client.rs)

    The schedules of [Schedule] lifted to the running client: a task whose
    program returns when it is run on its own can be run to its end, whatever
    else the client is doing; it then leaves the table and gives back its
    permit.  With [failed_request_answered] and the methods of the context this
    says which frames a request ends with. *)

From S2P Require Import Prelude Errors WireFormat Frame Codec Writer Init Program Schedule.
From S2P Require Import Context Registry Client.

Section Completion.
Context `{TP : ThirdParty} `{!Serialize string} {W : Type} `{!FrameWriter W}.
Variables (arrives : Frame → Prop) (r : HandlerRegistry).
Abbreviation step := (cstep_on (arrives := arrives) r).
Implicit Types (st : client W) (w : world W).

(** The client with the program [p] in the task [t], the world [w], and the
    programs [qs] added to the background. *)
Definition with_program st (ts1 : list task) (t : task) (ts2 : list task) (w : world W) (p : prog)
  (qs : list prog) : client W :=
  {| c_world := w; c_next := c_next st; c_active := c_active st; c_permits := c_permits st;
     c_tasks := ts1 ++ {| t_ctx := t_ctx t; t_request_id := t_request_id t; t_prog := p |} :: ts2;
     c_background := c_background st ++ qs; c_requests := c_requests st |}.

(** From [st] to [st'] the task [t] has come to its end, having done to the
    shared state what [w'] says. *)
Record completed st st' (ts1 : list task) (t : task) (ts2 : list task) (w' : world W) : Prop := {
  cp_sends : sends (c_world st') = sends w';
  cp_cells : cells (c_world st') = cells w';
  cp_tasks : c_tasks st' = ts1 ++ ts2;
  cp_active : c_active st' = delete (t_request_id t) (c_active st);
  cp_permits : c_permits st' = S (c_permits st)
}.

(** A step of the pool of the task and what it has spawned is a step of the
    client. *)
Lemma pool_step_client st ts1 t ts2 w p qs w' ps' :
  pool_step (w, p :: qs) (w', ps') →
  ∃ p' qs', ps' = p' :: qs'
    ∧ step (with_program st ts1 t ts2 w p qs) (with_program st ts1 t ts2 w' p' qs').
Proof.
  inversion 1 as [w1 w2 p1 p2 qs1 ps1 ps2 Hst|w1 o ps Hst]; subst.
  - destruct ps1 as [|p0 ps1]; cbn in *; simplify_eq.
    + eexists _, _. split; [reflexivity|]. unfold with_program. rewrite app_assoc.
      by apply (cs_task r (with_program st ts1 t ts2 w p qs)
        {| t_ctx := t_ctx t; t_request_id := t_request_id t; t_prog := p |} ts1 ts2 w' p2 qs1).
    + eexists _, _. split; [reflexivity|].
      pose proof (cs_background (arrives := arrives) r (with_program st ts1 t ts2 w p (ps1 ++ p1 :: ps2)) p1 p2
        (c_background st ++ ps1) ps2 w' qs1) as Hcs. cbn in Hcs.
      rewrite <- !app_assoc in Hcs. by apply Hcs.
  - eexists _, _. split; [reflexivity|].
    exact (cs_writer r (with_program st ts1 t ts2 w p qs) o Hst).
Qed.

Lemma pool_steps_client st ts1 t ts2 c c' :
  rtc pool_step c c' → ∀ w p qs, c = (w, p :: qs) →
  ∃ w' p' qs', c' = (w', p' :: qs')
    ∧ rtc step (with_program st ts1 t ts2 w p qs) (with_program st ts1 t ts2 w' p' qs').
Proof.
  induction 1 as [c|c [w1 ps1] c2 Hst _ IH]; intros w p qs ->.
  - eexists _, _, _. split; [reflexivity|apply rtc_refl].
  - destruct (pool_step_client st ts1 t ts2 _ _ _ _ _ Hst) as (p1 & qs1 & -> & Hcs).
    destruct (IH _ _ _ eq_refl) as (w2 & p2 & qs2 & -> & Hrun).
    eexists _, _, _. split; [reflexivity|]. by eapply rtc_l.
Qed.

Lemma with_program_self st ts1 t ts2 :
  c_tasks st = ts1 ++ t :: ts2 →
  with_program st ts1 t ts2 (c_world st) (t_prog t) [] = st.
Proof.
  intros Ht. unfold with_program. rewrite app_nil_r.
  destruct st as [w n a p ts bg rq], t as [c i pr]. cbn in *. by rewrite Ht.
Qed.

(** The task runs to its end; the writer has then served its frames too. *)
Lemma task_completes `{!ServingWriter W} st t ts1 ts2 l w' ins ins' res :
  c_tasks st = ts1 ++ t :: ts2 → run (t_prog t) (c_world st) ins = Some (w', res, ins') →
  serves l (out (c_world st)) → Forall allowed_answer ins →
  Forall (λ e : loc * OutboundFrame, serves_frame e.2) (sends w') →
  ∃ st' new, rtc step st st' ∧ completed st st' ts1 t ts2 w'
    ∧ c_requests st' = c_requests st
    ∧ sends w' = sends (c_world st) ++ new ∧ serves (l ++ new.*2) (out (c_world st')).
Proof.
  intros Ht Hrun Hl Hins Hfr.
  destruct (run_schedule _ _ (c_world st) _ _ _ _ l [] [] Hrun)
    as [(v & qs & Hs & [Hc Hsn] & _ & new & Hnew & Hserves) _]; [done..|].
  destruct (pool_steps_client st ts1 t ts2 _ _ Hs _ _ _ eq_refl) as (w1 & p1 & qs1 & Heq & Hsteps).
  cbn in Heq. injection Heq as <- <- <-. rewrite with_program_self in Hsteps by done.
  eexists _, new. split; [|split; [|split; [|split]]].
  - eapply rtc_r; [exact Hsteps|]. by apply (cs_done r _
      {| t_ctx := t_ctx t; t_request_id := t_request_id t; t_prog := Ret res |} ts1 ts2 res).
  - by split; rewrite ?Hsn, ?Hc.
  - done.
  - exact Hnew.
  - exact Hserves.
Qed.
End Completion.

(** The frames a run passes to [send] are those its program may send. *)
Lemma run_actions `{TP : ThirdParty} {W} `{!FrameWriter W} P Q (p : prog) :
  actions_ok P Q p → ∀ (w : world W) ins w' r ins',
  run p w ins = Some (w', r, ins') →
  ∃ new, sends w' = sends w ++ new ∧ Forall (λ e, P e.1 e.2) new.
Proof.
  induction 1 as [r0| | |l k _ _ IH|l k _ IH|l k _ _ IH|l k _ IH|l f k Hf _ IH|t k _ IH|k _ IH
    |q k _ IHq _ IHk]; intros w ins w' r ins' Hrun; cbn [run] in Hrun; try done.
  - injection Hrun as -> -> _. exists []. by rewrite app_nil_r.
  - exact (IH _ _ _ _ _ _ Hrun).
  - exact (IH _ _ _ _ _ _ Hrun).
  - exact (IH _ _ _ _ _ Hrun).
  - destruct (cell w l); [by eapply IH|done].
  - destruct ins as [|[|res] ins]; [done|done|].
    destruct (IH _ _ _ _ _ _ Hrun) as (new & H & Hnew). exists ((l, f) :: new).
    rewrite H. cbn. rewrite <- app_assoc. split; [done|by constructor].
  - destruct ins as [|[n|] ins]; [done| |done]. by eapply IH.
  - destruct (run q w ins) as [[[w1 r1] ins1]|] eqn:Hq; [|done].
    destruct (IHq _ _ _ _ _ Hq) as (new1 & H1 & Hn1), (IHk _ _ _ _ _ Hrun) as (new2 & H2 & Hn2).
    exists (new1 ++ new2). rewrite H2, H1, app_assoc. split; [done|]. by apply Forall_app.
Qed.

(** ** Properties *)

(** A task comes to its end.  If the program of a running task, run on its
    own, returns, then the client can take steps, whatever its other tasks and
    the tasks it spawned are doing, after which the frames passed to [send]
    and all flags and tokens are those of that run, the task is gone, its
    entry has been removed from the table, its permit is free again, and no
    other task has moved. *)
Theorem request_completes `{TP : ThirdParty} `{!Serialize string} (r : HandlerRegistry)
  (st : client LogWriter) (t : task) (ts1 ts2 : list task) (w' : world LogWriter)
  (ins ins' : list answer) (res : Result unit) :
  c_tasks st = ts1 ++ t :: ts2 → run (t_prog t) (c_world st) ins = Some (w', res, ins') →
  ∃ st', rtc (cstep r) st st' ∧ completed st st' ts1 t ts2 w'.
Proof.
  intros Ht Hrun.
  destruct (task_completes (frame_wf ABSOLUTE_MAX_PAYLOAD_SIZE) r st t ts1 ts2 [] w' ins ins' res Ht Hrun)
    as (st' & new & Hs & Hc & _); [done| | |by exists st'].
  - apply Forall_true. by intros [].
  - by apply Forall_true.
Qed.

Section Demo.
#[local] Existing Instance string_errors.
#[local] Existing Instance text_serialize.

(** The request of [demo_busy] is answered and completes. *)
Lemma request_completes_witness :
  let ctx := with_writer_and_token 1 7 RtResult 1 2 in
  ∃ st', rtc (cstep demo_registry) demo_busy st'
    ∧ sends (c_world st') = [(2%nat, new_outbound (new_header 1 flags.RESPONSE 7 0) [])]
    ∧ c_tasks st' = [] ∧ c_active st' = delete 7 (c_active demo_busy) ∧ c_permits st' = 2%nat.
Proof.
  intros ctx.
  destruct (request_completes demo_registry demo_busy
    {| t_ctx := ctx; t_request_id := 7; t_prog := handler_task demo_registry 1 [] ctx |} [] []
    _ [InNat 1; InSend (Ok tt)] [] (Ok tt) eq_refl eq_refl)
    as (st' & Hs & [Hsends _ Htasks Hact Hperm]).
  exists st'. by split_and!.
Defined.
End Demo.
