(* ===== verification/WriterImpl.v ===== *)
(** * The writer task implements the writer interface

    [WriterHandle::send] on the system of [WriterTask], as an instance of
    [FrameWriter]: a call begun by a client of the interface is a call of
    [send] in that system, and goes through its steps while other calls and
    the task go through theirs. *)

From S2P Require Import Prelude Errors WireFormat Writer WriterTask Program.

Section Impl.
Context `{TP : ThirdParty} {W : Type} `{AsyncWrite W}.
Implicit Types (y : wsys W).

(** A step of one of the calls, or of the task. *)
Inductive writer_step (cfg : WriterConfig) y : wsys W → Prop :=
| wr_call t s s' y' :
    w_senders y !! t = Some s → send_step cfg y s s' y' → writer_step cfg y (set_sender t s' y')
| wr_task y' : task_step y y' → writer_step cfg y y'.

Definition call_state (s : sender) : OutboundFrame * option (Result unit) :=
  (s_frame s, match s_pc s with PcDone r => Some r | _ => None end).

#[export] Instance writer_task_frame_writer (cfg : WriterConfig) : FrameWriter (wsys W) := {|
  fw_begin y f := spawn_sender Send f y;
  fw_step := writer_step cfg;
  fw_calls y := call_state <$> w_senders y;
  fw_sent := w_accepted;
  fw_ok y := ∃ base, w_inv base y
|}.

(** ** Lemmas *)

(** The frames of the calls that returned [Ok], on both sides. *)
Lemma ok_frames_sent (ss : list sender) : ok_frames (call_state <$> ss) = sent_frames ss.
Proof.
  unfold ok_frames, sent_frames. induction ss as [|s ss IH]; [done|].
  rewrite fmap_cons. cbn [omap list_omap]. rewrite IH. unfold call_state. cbn [fst snd].
  by destruct (s_pc s) as [| | | | |[]].
Qed.

(** A step of a call keeps its frame, and a call that has returned has no
    step. *)
Lemma send_step_call cfg y s s' y' :
  send_step cfg y s s' y' →
  w_senders y' = w_senders y ∧ s_frame s' = s_frame s ∧ (call_state s).2 = None.
Proof.
  intros [Hp|Hp|Hp|Hp|Hp|Hp|Hp|Hp|Hp|Hp|e Hp]; unfold call_state; by rewrite Hp.
Qed.

(** Steps behind the interface are steps of the system. *)
Lemma writer_step_wstep cfg y y' : writer_step cfg y y' → wstep cfg y y'.
Proof. intros [t s s' y1 Ht Hst|y1 Hst]; [by eapply ws_send|by apply ws_task]. Qed.

Lemma writer_step_alive cfg y y' : writer_step cfg y y' → w_tx_alive y' = w_tx_alive y.
Proof. intros [t s s' y1 _ Hst|y1 Hst]; by destruct Hst. Qed.

Lemma writer_step_calls cfg y y' :
  writer_step cfg y y' →
  Forall2 (λ c c', c'.1 = c.1 ∧ (c.2 = None ∨ c'.2 = c.2))
    (call_state <$> w_senders y) (call_state <$> w_senders y').
Proof.
  intros [t s s' y1 Ht Hst|y1 Hst]; rewrite Forall2_fmap.
  - destruct (send_step_call _ _ _ _ _ Hst) as (Hss & Hf & Hr). cbn. rewrite Hss.
    apply Forall2_same_length_lookup_2; [by rewrite length_insert|].
    intros i c c' Hc Hc'. destruct (decide (i = t)) as [->|Hne].
    + rewrite list_lookup_insert_eq in Hc' by (by eapply lookup_lt_Some).
      simplify_eq. auto.
    + rewrite list_lookup_insert_ne in Hc' by done. simplify_eq. auto.
  - destruct (task_step_frame _ _ Hst) as [_ ->]. by apply Forall_Forall2_diag, Forall_true; auto.
Qed.

(** ** The implementation *)
#[export] Instance writer_task_frame_writer_ok (cfg : WriterConfig) `{!AsyncWriteOk W} :
  @FrameWriterOk (wsys W) TP (writer_task_frame_writer cfg).
Proof.
  split; cbn.
  - intros y f. by rewrite fmap_app.
  - apply writer_step_calls.
  - intros y f Hf [base Hi]. exists base. by apply spawn_sender_inv.
  - intros y y' [t s s' y1 Ht Hst|y1 Hst] [base Hi]; exists base;
      [by eapply send_step_inv|by eapply task_step_inv].
  - intros y [base [_ _ _ _ Hres _]]. rewrite Hres. by rewrite <- ok_frames_sent.
Qed.

(** A call returns [Ok] by the step that puts its frame into the channel. *)
#[export] Instance writer_task_frame_writer_ordered (cfg : WriterConfig) :
  @FrameWriterOrdered (wsys W) TP (writer_task_frame_writer cfg).
Proof.
  assert (Hsame : ∀ y t s s' y1, w_senders y !! t = Some s → w_senders y1 = w_senders y →
    s_frame s' = s_frame s →
    (∀ r, s_pc s ≠ PcDone r) → (∀ u, s_pc s' ≠ PcDone (Ok u)) →
    ok_calls (FrameWriter0 := writer_task_frame_writer cfg) (set_sender t s' y1)
    = ok_calls (FrameWriter0 := writer_task_frame_writer cfg) y).
  { intros y t s s' y1 Ht Hss Hf Hp Hp'. unfold ok_calls. cbn. rewrite Hss, !list_fmap_insert.
    apply list_insert_id. rewrite !list_lookup_fmap, Ht. cbn. rewrite Hf.
    destruct (s_pc s) as [| | | | |r]; [..|by destruct (Hp r)];
      destruct (s_pc s') as [| | | | |[u|]]; try done; by destruct (Hp' u). }
  split; [done|]. intros y y' [t s s' y1 Ht Hst|y1 Hst].
  - destruct Hst as [Hp|Hp|Hp|Hp|Hp|Hp|Hp|Hp|Hp|Hp|e Hp]; try by (left; split; [done|];
      eapply Hsame; [done..|by rewrite Hp|cbn; congruence]).
    right. exists t, (s_frame s). split_and!; [|done|].
    + cbn. rewrite list_lookup_fmap, Ht. cbn. unfold call_state. by rewrite Hp.
    + unfold ok_calls. cbn. by rewrite !list_fmap_insert.
  - left. destruct (task_step_frame _ _ Hst) as [Ha Hs]. unfold ok_calls. cbn. by rewrite Hs.
Qed.
End Impl.
