(* ===== verification/WriterHealthy.v ===== *)
(** * The writer task on a pipe that takes bytes

    On a pipe whose writes go through the task never ends by itself, and a
    call of [send] on a live handle can always be brought to [Ok]: the calls
    before it return, the channel is drained, and there is room. *)

From S2P Require Import Prelude Errors WireFormat Frame Writer WriterTask WriterLive Program Schedule.
From S2P Require Import WriterImpl.

(** ** A pipe that takes bytes *)

(** In the states that satisfy [healthy], a write of something takes some of
    it and a flush succeeds. *)
Class HealthyWrite (W : Type) `{AsyncWrite W} (healthy : W → Prop) : Prop := {
  healthy_write w sl :
    healthy w → concat sl ≠ [] →
    ∃ w' n, write_vectored w sl = (w', Ok n) ∧ n ≠ 0%nat ∧ healthy w';
  healthy_flush w : healthy w → ∃ w', flush w = (w', Ok tt) ∧ healthy w'
}.

(** The scripted writer, while its script never says zero. *)
#[export] Instance script_writer_healthy :
  HealthyWrite ScriptWriter (λ w, Forall (λ k, k ≠ 0%nat) (sw_script w)).
Proof.
  split; [|by eauto]. intros [out script] sl Hs Hsl. cbn in *.
  assert (length (concat sl) ≠ 0%nat) by (by destruct (concat sl)).
  destruct Hs as [|k script Hk Hs]; eexists _, _; (split; [reflexivity|]); cbn; split;
    [lia|constructor|lia|done].
Qed.

Section Batch.
Context `{TP : ThirdParty} {W : Type} `{AsyncWriteOk W} {healthy : W → Prop}.
Context `{!HealthyWrite W healthy}.

Lemma healthy_flush_ok w : healthy w → ∃ w', flush_ok w = (w', Ok tt) ∧ healthy w'.
Proof.
  intros (w' & Hf & Hw')%healthy_flush. exists w'. unfold flush_ok. by rewrite Hf.
Qed.

Lemma write_rest_healthy fuel w batch base k :
  Forall ob_wf batch → healthy w →
  (k ≤ length (batch_bytes batch))%nat → (length (batch_bytes batch) - k < fuel)%nat →
  written w = base ++ take k (batch_bytes batch) →
  ∃ w', write_rest fuel w batch (sum_list_with size batch) k = Some (w', Ok tt) ∧ healthy w'.
Proof.
  intros Hb. rewrite <- length_batch_bytes by done. revert w k.
  induction fuel as [|fuel IH]; intros w k Hh Hk Hfuel Hw; [lia|]. cbn [write_rest].
  case_decide as Hlt; [|by exists w].
  pose proof (remaining_slices_spec batch k 0 Hb) as Hsl. rewrite Nat.sub_0_r in Hsl.
  unfold build_remaining_slices.
  assert (Hne : concat (remaining_slices batch k 0) ≠ []).
  { rewrite Hsl. intros Heq%(f_equal length). rewrite length_drop in Heq. cbn in Heq. lia. }
  destruct (remaining_slices batch k 0) as [|s0 sl]; [done|].
  destruct (healthy_write w _ Hh Hne) as (w1 & n & Hwv & Hn0 & Hh1). rewrite Hwv.
  destruct (write_vectored_ok _ _ _ _ Hwv) as [Hn Hw1]. rewrite Hsl in Hn, Hw1.
  rewrite length_drop in Hn. rewrite Hw, <- app_assoc, take_take_drop in Hw1.
  rewrite decide_False by done. by apply IH; [|lia|lia|].
Qed.

(** Every batch is written. *)
Lemma write_batch_healthy w batch :
  Forall ob_wf batch → healthy w →
  ∃ w', write_batch w batch = Some (w', Ok tt) ∧ healthy w'.
Proof.
  intros Hb Hh. unfold write_batch. destruct batch as [|f fs] eqn:Hbatch; [by exists w|].
  assert (Hne : concat (batch_slices batch) ≠ []).
  { rewrite concat_batch_slices. intros Heq%(f_equal length).
    rewrite Hbatch, length_batch_bytes in Heq by done. unfold size in Heq. simpl in Heq. lia. }
  rewrite <- Hbatch in *. clear f fs Hbatch.
  destruct (healthy_write w _ Hh Hne) as (w1 & n & Hwv & Hn0 & Hh1). rewrite Hwv.
  destruct (write_vectored_ok _ _ _ _ Hwv) as [Hn Hw1]. rewrite concat_batch_slices in Hn, Hw1.
  assert (Hend : ∀ w2, healthy w2 → ∃ w', Some (flush_ok w2) = Some (w', Ok tt) ∧ healthy w').
  { intros w2 (w3 & Hf & Hw3)%healthy_flush_ok. exists w3. by rewrite Hf. }
  case_decide; [by apply Hend|]. rewrite decide_False by done.
  destruct (write_rest_healthy (S (sum_list_with size batch)) w1 batch (written w) n)
    as (w2 & Hr & Hw2); [done..| |done|rewrite Hr; by apply Hend].
  rewrite length_batch_bytes by done. lia.
Qed.
End Batch.

(** ** The system on such a pipe *)
Section System.
Context `{TP : ThirdParty} {W : Type} `{AsyncWriteOk W} {healthy : W → Prop}.
Context `{!HealthyWrite W healthy}.
Variable cfg : WriterConfig.
Implicit Types (y : wsys W) (s : sender).

(** Handles exist, the task runs, and the pipe takes bytes. *)
Record live_writer (base : bytes) y : Prop := {
  lv_inv : w_inv base y;
  lv_alive : w_tx_alive y = true;
  lv_open : w_rx_open y = true;
  lv_healthy : healthy (w_sink y)
}.

Lemma live_writer_step base y y' : writer_step cfg y y' → live_writer base y → live_writer base y'.
Proof.
  intros Hst [Hi Ha Ho Hh]. assert (Hi' : w_inv base y').
  { destruct Hst; [by eapply send_step_inv|by eapply task_step_inv]. }
  destruct Hst as [t s s' y1 Ht Hst|y1 Hst]; [by destruct Hst; split|].
  destruct Hi as [_ [_ Hacc] Hs _ _ _].
  destruct Hst as [f q Hk Hq|Hk Hq Ha'|b f q Hk Hb Hq|b Hk Hb|b w1 Hk Hw|b w1 e Hk Hw|n Hk];
    try (by split); try congruence; rewrite Hk in Hs; destruct Hs as (_ & _ & dn & Hd & _);
    rewrite Hd in Hacc; apply Forall_app in Hacc as [_ [Hb _]%Forall_app];
    destruct (write_batch_healthy (w_sink y) b Hb Hh) as (w2 & Hw2 & Hh2); cbn in *.
  - split; [done..|]. cbn. by simplify_eq.
  - by simplify_eq.
Qed.

Lemma live_writer_steps base y y' :
  rtc (writer_step cfg) y y' → live_writer base y → live_writer base y'.
Proof.
  induction 1 as [|y y1 y2 Hst _ IH]; intros Hl; [done|]. apply IH. by eapply live_writer_step.
Qed.

(** At rest it waits for a frame, and the pipe has all that was accepted. *)
Lemma live_rest base y : live_writer base y → at_rest y → w_task y = TRecv ∧ w_queue y = [].
Proof.
  intros [[_ _ Hs _ _ _] _ Ho _] [(Hk & Hq & _)|[r Hk]]; [done|].
  rewrite Hk, Ho in Hs. destruct r; [by destruct Hs as (_ & ? & _)|by destruct Hs].
Qed.

(** *** Running the calls made so far to their end *)

Definition has_returned s : Prop := match s_pc s with PcDone _ => True | _ => False end.

#[local] Instance has_returned_dec s : Decision (has_returned s).
Proof. unfold has_returned. destruct (s_pc s); apply _. Defined.

(** Steps of the task and of the first [n] calls. *)
Inductive early_step (n : nat) y : wsys W → Prop :=
| es_call t s s' y' :
    (t < n)%nat → w_senders y !! t = Some s → send_step cfg y s s' y' → s' ≠ s →
    early_step n y (set_sender t s' y')
| es_task y' : task_step y y' → early_step n y y'.

Definition settled_calls (n : nat) y : Prop :=
  at_rest y ∧ Forall has_returned (take n (w_senders y)).

Lemma early_writer_step n y y' : early_step n y y' → writer_step cfg y y'.
Proof. intros [t s s' y1 _ Ht Hst _|y1 Hst]; [by eapply wr_call|by apply wr_task]. Qed.

Lemma early_work_step n y y' : early_step n y y' → work_step cfg y y'.
Proof. intros [t s s' y1 _ Ht Hst Hne|y1 Hst]; [by eapply wk_call|by apply wk_task]. Qed.

(** The calls after the first [n] wait; what has been accepted stays. *)
Lemma early_keeps n y y' :
  early_step n y y' →
  (∀ t, (n ≤ t)%nat → w_senders y' !! t = w_senders y !! t)
  ∧ length (w_senders y') = length (w_senders y) ∧ w_accepted y `prefix_of` w_accepted y'.
Proof.
  intros [t s s' y1 Hlt Ht Hst _|y1 Hst].
  - assert (Hss : w_senders y1 = w_senders y) by by destruct Hst. cbn. rewrite Hss.
    split_and!; [|apply length_insert|destruct Hst; try done; by apply prefix_app_r].
    intros t' Ht'. apply list_lookup_insert_ne. lia.
  - by destruct (task_step_frame _ _ Hst) as [-> ->].
Qed.

Lemma early_progress base n y :
  channel_capacity cfg ≠ 0%nat → w_inv base y →
  settled_calls n y ∨ ∃ y', early_step n y y'.
Proof.
  intros Hcap Hi. destruct (task_moves base y Hi) as [Hrest|[y' Hst]].
  2: { right. exists y'. by apply es_task. }
  destruct (decide (Forall has_returned (take n (w_senders y)))) as [Hall|Hex]; [by left|right].
  apply not_Forall_Exists, Exists_exists in Hex as (s & Hin & Hs); [|apply _].
  apply list_elem_of_lookup in Hin as [t Ht]. apply lookup_take_Some in Ht as [Ht Hlt].
  destruct (call_progress cfg base y t s Hcap Hi Hrest Ht) as [[r Hr]|(s' & y' & Hst & Hne)].
  - destruct Hs. unfold has_returned. by rewrite Hr.
  - eexists. by eapply es_call.
Qed.

Lemma early_run base n y :
  channel_capacity cfg ≠ 0%nat → live_writer base y →
  ∃ y', rtc (writer_step cfg) y y' ∧ live_writer base y' ∧ settled_calls n y'
    ∧ (∀ t, (n ≤ t)%nat → w_senders y' !! t = w_senders y !! t)
    ∧ length (w_senders y') = length (w_senders y) ∧ w_accepted y `prefix_of` w_accepted y'.
Proof.
  intros Hcap. induction (work_step_sn cfg y) as [y _ IH]. intros Hl.
  destruct (early_progress base n y Hcap (lv_inv _ _ Hl)) as [Hset|[y1 Hst]].
  { exists y. by split_and!; [apply rtc_refl|..]. }
  destruct (IH y1 (early_work_step _ _ _ Hst)) as (y' & Hrun & Hl' & Hset & Hsame & Hlen & Hacc).
  { eapply live_writer_step; [by eapply early_writer_step|done]. }
  destruct (early_keeps _ _ _ Hst) as (Hsame1 & Hlen1 & Hacc1). exists y'. split_and!; try done.
  - eapply rtc_l; [by eapply early_writer_step|done].
  - intros t Ht. rewrite Hsame by done. by apply Hsame1.
  - congruence.
  - by etrans.
Qed.

(** Everything that has been accepted can be brought onto the pipe. *)
Lemma live_drains base y :
  channel_capacity cfg ≠ 0%nat → live_writer base y →
  ∃ y', rtc (writer_step cfg) y y' ∧ live_writer base y' ∧ w_accepted y `prefix_of` w_accepted y'
    ∧ written (w_sink y') = base ++ batch_bytes (w_accepted y') ∧ writer_pending_count y' = 0.
Proof.
  intros Hcap Hl.
  destruct (early_run base (length (w_senders y)) y Hcap Hl)
    as (y' & Hrun & Hl' & [Hrest Hall] & _ & Hlen & Hacc).
  exists y'. rewrite <- Hlen, firstn_all in Hall.
  destruct (rest_drained base y' (lv_inv _ _ Hl')) as [[e Hk]|(_ & Hout & Hp)].
  - eapply Forall_impl; [exact Hall|]. intros s. unfold has_returned.
    destruct (s_pc s); [done..|eauto].
  - exact Hrest.
  - destruct (live_rest _ _ Hl' Hrest). congruence.
  - by split_and!.
Qed.
(** *** A new call *)

(** With the earlier calls returned, the task at rest and room in the channel
    the call takes its three steps. *)
Lemma call_steps y t s :
  0 < max_pending_frames cfg → channel_capacity cfg ≠ 0%nat →
  w_senders y !! t = Some s → s_pc s = PcStart →
  w_pending y = 0 → w_rx_open y = true → w_queue y = [] →
  ∃ y', rtc (writer_step cfg) y y' ∧ w_accepted y' = w_accepted y ++ [s_frame s]
    ∧ w_senders y' !! t = Some (set_pc s (PcDone (Ok tt))).
Proof.
  intros Hmax Hcap Ht Hpc Hp Ho Hq. pose proof (lookup_lt_Some _ _ _ Ht) as Hlt.
  set (s1 := set_pc s PcAdd). set (s2 := set_pc s PcEnqueue).
  set (y1 := set_sender t s1 y). set (y2 := set_sender t s2 (set_pending (wrap 64 (w_pending y + 1)) y1)).
  assert (Ht1 : w_senders y1 !! t = Some s1) by (by apply list_lookup_insert_eq).
  assert (Hlt1 : (t < length (w_senders y1))%nat) by (by eapply lookup_lt_Some).
  assert (Ht2 : w_senders y2 !! t = Some s2) by (by apply list_lookup_insert_eq).
  assert (Hlt2 : (t < length (w_senders y2))%nat) by (by eapply lookup_lt_Some).
  eexists. split; [|split].
  - eapply rtc_l; [eapply wr_call; [exact Ht|apply st_check_ok; [done|lia]]|]. fold s1 y1.
    eapply rtc_l; [eapply wr_call; [exact Ht1|by apply st_add]|]. fold y2.
    apply rtc_once. eapply wr_call; [exact Ht2|]. apply st_enqueue; [done..|]. cbn. rewrite Hq. cbn. lia.
  - done.
  - apply list_lookup_insert_eq. exact Hlt2.
Qed.

Lemma call_served base y f :
  0 < max_pending_frames cfg → channel_capacity cfg ≠ 0%nat → ob_wf f → live_writer base y →
  ∃ y', rtc (writer_step cfg) (spawn_sender Send f y) y' ∧ live_writer base y'
    ∧ w_senders y' !! length (w_senders y)
      = Some {| s_mode := Send; s_frame := f; s_pc := PcDone (Ok tt) |}
    ∧ ∃ mid, w_accepted y' = w_accepted y ++ mid ++ [f].
Proof.
  intros Hmax Hcap Hf [Hi Ha Ho Hh]. set (n := length (w_senders y)).
  assert (Hl : live_writer base (spawn_sender Send f y)) by (split; [by apply spawn_sender_inv|done..]).
  destruct (early_run base n _ Hcap Hl) as (y1 & Hrun & Hl1 & [Hrest Hall] & Hsame & Hlen & [mid Hmid]).
  assert (Hnew : w_senders y1 !! n = Some {| s_mode := Send; s_frame := f; s_pc := PcStart |}).
  { rewrite Hsame by done. cbn. unfold n. by rewrite lookup_app_r, Nat.sub_diag. }
  cbn in Hlen. rewrite length_app in Hlen. cbn in Hlen.
  destruct (live_rest _ _ Hl1 Hrest) as [Hk Hq].
  assert (Hp : w_pending y1 = 0).
  { destruct (lv_inv _ _ Hl1) as [-> _ Hs _ _ _]. rewrite Hk in Hs. destruct Hs as [Hleak _].
    unfold in_flight. rewrite Hk, Hq, Hleak. cbn [length task_count].
    rewrite <- (take_drop_middle _ _ _ Hnew), drop_ge by (fold n in Hlen; lia).
    rewrite sum_list_with_app. cbn [sum_list_with].
    assert (Hz : sum_list_with counted (take n (w_senders y1)) = 0%nat).
    { induction Hall as [|s ss Hs _ IH]; [done|]. cbn [sum_list_with]. rewrite IH.
      unfold has_returned in Hs. unfold counted. by destruct (s_pc s). }
    by rewrite Hz. }
  destruct (call_steps y1 n _ Hmax Hcap Hnew eq_refl Hp (lv_open _ _ Hl1) Hq)
    as (y2 & Hrun2 & Hacc & Hdone).
  exists y2. split_and!; [by etrans|by eapply live_writer_steps|done|]. exists mid. rewrite Hacc, Hmid. cbn.
  by rewrite <- app_assoc.
Qed.
End System.

(** The task serves calls that are to return [Ok]: their frames are accepted,
    one after the other. *)
Program Definition healthy_serving `{TP : ThirdParty} {W} `{AsyncWriteOk W} {healthy : W → Prop}
  `{!HealthyWrite W healthy} (cfg : WriterConfig) (base : bytes)
  (Hmax : 0 < max_pending_frames cfg) (Hcap : channel_capacity cfg ≠ 0%nat) :
  ServingWriter (FrameWriter0 := writer_task_frame_writer cfg) (wsys W) := {|
  serves l y := live_writer (healthy := healthy) base y ∧ l `sublist_of` w_accepted y;
  serves_frame := ob_wf;
  allows r := r = Ok tt
|}.
Next Obligation.
  intros TP W HW HWok healthy Hhealthy cfg base Hmax Hcap y l f r [Hl Hsub] Hf ->.
  destruct (call_served cfg base y f Hmax Hcap Hf Hl) as (y' & Hrun & Hl' & Hcall & mid & Hacc).
  exists y'. split_and!; [exact Hrun| |exact Hl'|].
  - cbn. by rewrite length_fmap, list_lookup_fmap, Hcall.
  - rewrite Hacc. apply sublist_app; [done|]. by apply sublist_inserts_l.
Qed.
