(* ===== verification/EndToEnd.v ===== *)
(** * Writer to reader: what comes out of the pipe

    The writer task and the frame buffer composed: the parent runs the same
    framing on the bytes the task has written, as far as it has read them.
    Then the client runtime on top of the writer task, through the writer
    interface, down to what the parent parses.  The crate bounds no outbound
    payload: [ob_fits] says that its length fits the header, [over_limit] that
    the parent refuses the frame. *)

From S2P Require Import Prelude Errors WireFormat Frame FrameBuffer Codec Writer WriterTask.
From S2P Require Import Init Program WriterImpl Context Registry Client.

(** The outbound frame that carries a frame. *)
Definition ob_of (f : Frame) : OutboundFrame := new_outbound (header f) (payload f).

(** A frame that declares the length of its payload, whatever that length. *)
Record frame_fits (f : Frame) : Prop := {
  ff_header : header_wf (header f);
  ff_length : zlen (payload f) = payload_length (header f);
  ff_bytes : is_bytes (payload f)
}.

Lemma frame_wf_fits max f : frame_wf max f ↔ frame_fits f ∧ header_valid max (header f).
Proof. split; [intros [? ? ? ?]; split; [by split|done]|intros [[? ? ?] ?]; by split]. Qed.

Lemma frames_wf_fit max fs : Forall (frame_wf max) fs → Forall frame_fits fs.
Proof. intros Hfs. eapply Forall_impl; [exact Hfs|]. intros f [? _]%frame_wf_fits. done. Qed.

(** A payload whose length fits its header: nothing in the crate bounds what is
    sent, and [payload.len() as u32] wraps from 4 GiB on. *)
Definition ob_fits (g : OutboundFrame) : Prop :=
  is_bytes (ob_payload g) ∧ fits 32 (zlen (ob_payload g)).

(** A frame that a reader with the limit [max] refuses. *)
Definition over_limit (max : u32) (g : OutboundFrame) : Prop :=
  match decode (ob_header g) with Some h => ¬ header_valid max h | None => False end.

Lemma decode_ob_of f : frame_fits f → decode (ob_header (ob_of f)) = Some (header f).
Proof.
  intros [Hh _ _]. cbn [ob_of new_outbound ob_header].
  by rewrite encode_eq, <- (app_nil_r (header_layout _)), decode_layout.
Qed.

Lemma over_limit_ob max f :
  frame_fits f → over_limit max (ob_of f) ↔ ¬ header_valid max (header f).
Proof. intros Hf. unfold over_limit. by rewrite decode_ob_of. Qed.

(** Within the limits, the frames are well formed. *)
Lemma within_limit_wf max fs :
  Forall frame_fits fs → ¬ Exists (over_limit max) (ob_of <$> fs) → Forall (frame_wf max) fs.
Proof.
  intros Hfs Hno. rewrite Forall_forall in Hfs. apply Forall_forall. intros f Hf.
  apply frame_wf_fits. split; [by apply Hfs|]. destruct (decide (header_valid max (header f)));
    [done|]. destruct Hno. apply Exists_exists. exists (ob_of f).
  split; [by apply list_elem_of_fmap_2|]. apply over_limit_ob; [by apply Hfs|done].
Qed.

Instance over_limit_dec max g : Decision (over_limit max g).
Proof. unfold over_limit. destruct (decode (ob_header g)); apply _. Defined.

Lemma batch_bytes_frames (fs : list Frame) :
  batch_bytes (ob_of <$> fs) = concat (frame_bytes <$> fs).
Proof. unfold batch_bytes. by rewrite <- list_fmap_compose. Qed.

Section Prefixes.
Context `{TP : ThirdParty}.

(** Where the parser stops in a sequence of frames: at the end, or at the
    first one over the limit. *)
Lemma parse_until_limit max fs :
  Forall frame_fits fs →
  ∃ gs r e, parse max (concat (frame_bytes <$> fs)) = (gs, r, e) ∧ gs `prefix_of` fs
    ∧ match e with
      | None => gs = fs ∧ r = []
      | Some _ => Exists (over_limit max) (ob_of <$> fs)
      end.
Proof.
  induction 1 as [|f fs Hf _ (gs & r & e & IH & Hpre & He)].
  { exists [], [], None. split; [apply parse_nil|done]. }
  cbn [fmap list_fmap concat]. rewrite parse_unfold.
  destruct (decide (header_valid max (header f))) as [Hv|Hv].
  - rewrite parse_one_frame by (by apply frame_wf_fits). rewrite IH.
    exists (f :: gs), r, e. split; [done|]. split; [by apply prefix_cons|].
    destruct e; [by right|]. by destruct He as [-> ->].
  - unfold frame_bytes at 1, build_frame. rewrite encode_eq, <- app_assoc, parse_one_layout by apply Hf.
    destruct (validate_err _ _ Hv) as [m ->]. eexists [], _, (Some _). split; [done|].
    split; [apply prefix_nil|]. left. by apply over_limit_ob.
Qed.

(** A prefix of a stream holds a prefix of its frames, and a protocol error
    only if one of them is over the limit. *)
Lemma parse_prefix max fs p :
  Forall frame_fits fs → p `prefix_of` concat (frame_bytes <$> fs) →
  ∃ gs rest e, parse max p = (gs, rest, e) ∧ gs `prefix_of` fs
    ∧ (e = None ∨ Exists (over_limit max) (ob_of <$> fs)).
Proof.
  intros Hfs [q Hq]. destruct (parse_until_limit max fs Hfs) as (hs & r0 & e0 & Hp & Hpre & He0).
  rewrite Hq in Hp. destruct (parse max p) as [[gs r] e] eqn:Hpp.
  rewrite (parse_app _ _ q _ _ _ Hpp) in Hp. exists gs, r, e. split; [done|].
  destruct e as [e|].
  - injection Hp as -> _ <-. auto.
  - destruct (parse max (r ++ q)) as [[gs' r'] e']. injection Hp as <- _ _.
    split; [by eapply prefix_app_l|by left].
Qed.

(** Outbound payloads are not bounded: one over the absolute maximum of the wire
    format is sent as it is, and a reader refuses it whatever its own limit. *)
Lemma oversized_frame_refused max h pl rest :
  header_wf h → payload_length h = wrap 32 (zlen pl) →
  ABSOLUTE_MAX_PAYLOAD_SIZE < zlen pl < 2 ^ 32 →
  ∃ m, parse max (batch_bytes [new_outbound h pl] ++ rest)
       = ([], batch_bytes [new_outbound h pl] ++ rest, Some (Protocol m)).
Proof.
  intros Hh Hl Hlen. rewrite wrap_id in Hl by (split; lia).
  destruct (validate_err h max) as [m Hm]; [intros (_ & _ & Habs & _); lia|]. exists m.
  rewrite parse_unfold. unfold batch_bytes. cbn [fmap list_fmap concat app].
  unfold ob_bytes. cbn [new_outbound ob_header ob_payload].
  rewrite encode_eq, app_nil_r, <- app_assoc, parse_one_layout by done. by rewrite Hm.
Qed.

(** Cut into chunks, a stream gives at most the frames of its parse. *)
Lemma push_chunks_stream max chunks fs rest e :
  Forall is_bytes chunks → parse max (concat chunks) = (fs, rest, e) →
  ∃ gs fb, push_chunks (with_max_payload max) chunks = (fb, gs, e) ∧ gs `prefix_of` fs
    ∧ (e = None → gs = fs ∧ stream_of fb = rest).
Proof.
  intros Hc Hp. pose proof (push_chunks_spec chunks (with_max_payload max)
    (with_max_payload_inv _) (with_max_payload_settled _) Hc) as Hsp.
  cbn [with_max_payload max_payload_size stream_of state buffer app] in Hsp. rewrite Hp in Hsp.
  destruct (push_chunks _ chunks) as [[fb gs] e1]. destruct Hsp as (-> & _ & Hsp).
  exists gs, fb. split; [done|]. destruct e as [e|]; [by split|].
  by destruct Hsp as (-> & Hs & _).
Qed.
End Prefixes.

(** *** The parent's parser on the output of the writer task *)

(** What a peer can have read: the model takes a batch in one step, but the
    pipe may have any part of one that is being written. *)
Definition in_transit `{ThirdParty} {W} (y : wsys W) : bytes :=
  match w_task y with TWrite batch => batch_bytes batch | _ => [] end.

Definition readable `{ThirdParty} {W} `{AsyncWrite W} (y : wsys W) (data : bytes) : Prop :=
  data `prefix_of` written (w_sink y) ++ in_transit y.

(** The bytes on the pipe are frames accepted, the last of them maybe in part;
    without a failed write exactly those that have left the task. *)
Lemma pipe_frames `{TP : ThirdParty} {W} `{AsyncWriteOk W} (y : wsys W) data :
  w_inv [] y → readable y data →
  data `prefix_of` batch_bytes (w_accepted y)
  ∧ ((∀ x, w_task y ≠ TExit (Err x)) →
     ∃ before, w_accepted y = before ++ task_batch (w_task y) ++ w_queue y
       ∧ written (w_sink y) = batch_bytes before).
Proof.
  intros [_ _ Hs _ _ _] Hdata. unfold readable, in_transit in Hdata. cbn [app] in Hs.
  assert (Hok : (∃ x, w_task y = TExit (Err x)) ∨
    ∃ before, w_accepted y = before ++ task_batch (w_task y) ++ w_queue y
      ∧ written (w_sink y) = batch_bytes before).
  { destruct (w_task y) as [| | | |[|x]]; [right; apply Hs..|by left; exists x]. }
  destruct Hok as [[x Hk]|(before & Hacc & Hout)].
  - rewrite Hk, app_nil_r in Hdata. rewrite Hk in Hs. destruct Hs as (_ & p & Hp & Hout).
    split; [by rewrite Hdata, Hout|]. intros Hne. by destruct (Hne x).
  - split; [|by exists before]. rewrite Hdata, Hacc, Hout, !batch_bytes_app.
    destruct (w_task y); cbn [task_batch]; rewrite ?app_nil_r;
      [by apply prefix_app_r..| |by apply prefix_app_r|by apply prefix_app_r].
    by apply prefix_app, prefix_app_r.
Qed.

Lemma peer_parses `{TP : ThirdParty} {W} `{AsyncWriteOk W}
  (w : W) (cfg : WriterConfig) (y : wsys W) (max : u32) (fs : list Frame)
  (chunks : list bytes) :
  reachable w cfg y → written w = [] →
  w_accepted y = ob_of <$> fs → Forall frame_fits fs →
  Forall is_bytes chunks → readable y (concat chunks) →
  ∃ got missing fb e, push_chunks (with_max_payload max) chunks = (fb, got, e)
    ∧ fs = got ++ missing
    ∧ (e = None ∨ Exists (over_limit max) (w_accepted y))
    ∧ (e = None → (∀ x, w_task y ≠ TExit (Err x)) → concat chunks = written (w_sink y) →
       ob_of <$> missing = task_batch (w_task y) ++ w_queue y ∧ stream_of fb = []).
Proof.
  intros Hr Hw Hacc Hfs Hc Hread. pose proof (reachable_inv _ _ _ Hr) as Hinv. rewrite Hw in Hinv.
  destruct (pipe_frames y _ Hinv Hread) as [Hpre Hbefore].
  rewrite Hacc, batch_bytes_frames in Hpre.
  destruct (parse_prefix max _ _ Hfs Hpre) as (hs & rest & e & Hparse & Hhs & He).
  destruct (push_chunks_stream _ _ _ _ _ Hc Hparse) as (gs & fb & Hpush & Hgs & Hall).
  assert (Hgot : gs `prefix_of` fs) by (by etrans). destruct Hgot as [missing ->].
  exists gs, missing, fb, e. rewrite Hacc. split_and!; [done..|].
  intros -> Hne Hcat. destruct (Hall eq_refl) as [-> ->].
  destruct (Hbefore Hne) as (before & Hsplit & Hout). rewrite Hacc in Hsplit.
  apply fmap_app_inv in Hsplit as (fs1 & fs2 & -> & -> & Hfs12).
  rewrite Hcat, Hout, batch_bytes_frames in Hparse.
  rewrite Hfs12 in Hfs. apply Forall_app in Hfs as [Hfs1 _].
  destruct (parse_until_limit max fs1 Hfs1) as (? & ? & ? & Hp1 & _ & H1).
  rewrite Hparse in Hp1. injection Hp1 as <- <- <-. destruct H1 as [-> ->].
  by apply app_inv_head in Hfs12 as ->.
Qed.

(** *** The client on top of the writer task *)
Section ClientOverTask.
Context `{TP : ThirdParty} `{!Serialize string} {W : Type} `{!AsyncWrite W}.
Variable cfg : WriterConfig.
#[local] Existing Instance writer_task_frame_writer.

(** [Client::is_backpressure_active] and [Client::pending_frames]. *)
Definition client_is_backpressure_active (st : client (wsys W)) : bool :=
  is_backpressure_active cfg (out (c_world st)).
Definition pending_frames (st : client (wsys W)) : usize :=
  writer_pending_count (out (c_world st)).

(** Every run of the client is a run of the writer system below it. *)
Lemma client_runs_writer r max (o : wsys W) (st : client (wsys W)) :
  reg_safe r → w_tx_alive o = true →
  client_reachable (FrameWriter0 := writer_task_frame_writer cfg) r max o st →
  rtc (wstep cfg) o (out (c_world st)) ∧ w_tx_alive (out (c_world st)) = true.
Proof.
  intros Hr Ho Hs.
  apply (rtc_ind_r (λ st, client_reachable (FrameWriter0 := writer_task_frame_writer cfg)
                            r max o st
    ∧ rtc (wstep cfg) o (out (c_world st)) ∧ w_tx_alive (out (c_world st)) = true)
    (start_client max o)) in Hs; [by apply Hs|split; [apply rtc_refl|split; [apply rtc_refl|done]]|].
  clear st Hs. intros st st' _ Hst (Hreach & Hrun & Hal). split; [by eapply rtc_r|].
  pose proof (reachable_frames_inv _ _ _ _ Hr Hreach) as Hi.
  pose proof (cstep_out (FrameWriter0 := writer_task_frame_writer cfg) (λ o1 o2, w_tx_alive o1 = true →
    rtc (wstep cfg) o1 o2 ∧ w_tx_alive o2 = true) r st st') as Hout.
  destruct Hout as [Hrun' Hal']; try done.
  - intros o1 o2 Ht Hal1. split; [by apply rtc_once, writer_step_wstep|].
    by rewrite (writer_step_alive _ _ _ Ht).
  - intros l f o1 Hf Hal1. split; [|done].
    apply rtc_once, ws_spawn; [done|by eapply attributed_wf].
  - split; [by etrans|done].
Qed.

(** And the writer can run on its own. *)
Lemma client_writer_steps r (st : client (wsys W)) o :
  rtc (writer_step cfg) (out (c_world st)) o →
  rtc (cstep (FrameWriter0 := writer_task_frame_writer cfg) r) st
    (set_world (set_out o (c_world st)) st).
Proof.
  intros Ho. apply (rtc_ind_r (λ o, rtc (cstep (FrameWriter0 := writer_task_frame_writer cfg) r) st
    (set_world (set_out o (c_world st)) st)) (out (c_world st))) in Ho; [done|..].
  - replace (set_world _ st) with st; [apply rtc_refl|]. by destruct st as [[] ? ? ? ? ? ?].
  - intros o1 o2 _ Hst IH. eapply rtc_r; [exact IH|].
    exact (cs_writer (FrameWriter0 := writer_task_frame_writer cfg) r
             (set_world (set_out o1 (c_world st)) st) o2 Hst).
Qed.
End ClientOverTask.

(** *** Counting answers *)

(** A frame the parent takes for the end of the request [id], as the parent
    has it and as it is handed to the writer. *)
Definition answers (id : u32) (f : Frame) : bool :=
  (request_id (header f) =? id) && is_terminal (ob_of f).

Definition ob_answers (id : u32) (g : OutboundFrame) : bool :=
  match decode (ob_header g) with
  | Some h => (request_id h =? id) && is_terminal g
  | None => false
  end.

Section Answers.
Context `{TP : ThirdParty} {W : Type} `{!FrameWriter W}.

Lemma answers_ob id fs :
  Forall frame_fits fs →
  length (filter (answers id) fs) = length (filter (ob_answers id) (ob_of <$> fs)).
Proof.
  induction 1 as [|f fs Hf _ IH]; [done|]. rewrite fmap_cons, !filter_cons.
  assert (Heq : ob_answers id (ob_of f) = answers id f).
  { unfold ob_answers. by rewrite decode_ob_of. }
  rewrite Heq. case_decide; cbn [length]; lia.
Qed.

(** An answer to a request comes from the context of that request. *)
Lemma answer_attributed (st : client W) l g c :
  Forall ctx_wf (c_requests st) →
  (∀ c', c' ∈ c_requests st → ctx_request_id c' = ctx_request_id c → c' = c) →
  attributed st l g → ob_answers (ctx_request_id c) g →
  l = ctx_responded c ∧ is_terminal g.
Proof.
  intros Hwf Huniq Hattr. unfold ob_answers.
  destruct (decode (ob_header g)) as [h|] eqn:Hd; [|done].
  intros [Hid Hterm]%andb_prop_elim. split; [|done]. apply Is_true_true, Z.eqb_eq in Hid.
  destruct Hattr as [[_ (id & pl & ->)]|(c' & Hc' & <- & Hframe)].
  - unfold is_terminal in Hterm. by rewrite ob_flags_new in Hterm.
  - rewrite Forall_forall in Hwf.
    destruct (ctx_frame_header c' g (Hwf _ Hc') Hframe) as (h' & Hd' & _ & _ & Hr & _).
    rewrite Hd in Hd'. injection Hd' as <-. f_equal. apply Huniq; [done|congruence].
Qed.

Lemma answers_counted (st : client W) log c :
  Forall ctx_wf (c_requests st) →
  (∀ c', c' ∈ c_requests st → ctx_request_id c' = ctx_request_id c → c' = c) →
  Forall (λ e, attributed st e.1 e.2) log →
  (length (filter (ob_answers (ctx_request_id c)) log.*2)
   ≤ length (terminals (ctx_responded c) log))%nat.
Proof.
  intros Hwf Huniq. induction 1 as [|[l g] log Hg _ IH]; [done|]. cbn [fst snd] in Hg.
  rewrite fmap_cons, filter_cons.
  change ((l, g) :: log) with ([(l, g)] ++ log). rewrite terminals_app, length_app.
  cbn [snd]. case_decide as Ha; [|lia].
  destruct (answer_attributed st l g c Hwf Huniq Hg Ha) as [-> Ht].
  unfold terminals at 1, sent_by. cbn [omap list_omap fst snd].
  rewrite decide_True by done. rewrite filter_cons_True by done. cbn [length]. lia.
Qed.
End Answers.

(** *** What is accepted was passed to [send] *)
Lemma accepted_sent `{TP : ThirdParty} `{!Serialize string} {W} `{!AsyncWrite W}
  `{!AsyncWriteOk W} cfg r max (y0 : wsys W) base (st : client (wsys W)) :
  reg_safe r → w_senders y0 = [] ∧ w_inv base y0 →
  client_reachable (FrameWriter0 := writer_task_frame_writer cfg) r max y0 st →
  ∃ gs, w_accepted (out (c_world st)) ≡ₚ gs ∧ gs `sublist_of` (sends (c_world st)).*2.
Proof.
  intros Hr [Hnone Hinv] Hs.
  pose proof (reachable_calls (FrameWriterOk0 := writer_task_frame_writer_ok cfg) _ _ _ _ Hs)
    as Hcalls.
  pose proof (reachable_fw_ok (FrameWriterOk0 := writer_task_frame_writer_ok cfg) _ _ _ _ Hr
    (ex_intro _ base Hinv : fw_ok (FrameWriter := writer_task_frame_writer cfg) y0) Hs) as Hok.
  apply fw_sent_ok in Hok.
  cbn [fw_calls writer_task_frame_writer] in Hcalls. rewrite Hnone in Hcalls.
  cbn [fmap list_fmap app] in Hcalls. rewrite <- Hcalls.
  eexists. split; [exact Hok|apply ok_frames_sublist].
Qed.

(** At most one accepted frame ends a request. *)
Lemma accepted_answers_le `{TP : ThirdParty} `{!Serialize string} {W} `{!AsyncWrite W}
  `{!AsyncWriteOk W} cfg r max (y0 : wsys W) base (st : client (wsys W)) c fs :
  reg_safe r → w_senders y0 = [] ∧ w_inv base y0 →
  client_reachable (FrameWriter0 := writer_task_frame_writer cfg) r max y0 st →
  (∀ c', c' ∈ c_requests st → ctx_request_id c' = ctx_request_id c → c' = c) →
  w_accepted (out (c_world st)) = ob_of <$> fs → Forall frame_fits fs →
  (length (filter (answers (ctx_request_id c)) fs) ≤ 1)%nat.
Proof.
  intros Hr Hy0 Hs Huniq Hacc Hfs.
  destruct (accepted_sent cfg r max y0 base st Hr Hy0 Hs) as (gs & Hgs & Hsub).
  rewrite Hacc in Hgs. destruct (reachable_frames_inv _ _ _ _ Hr Hs) as [F1 _ F3 _ _ _ _].
  pose proof (answers_counted st _ c (reachable_requests_wf _ _ _ _ Hs) Huniq F3) as Hcount.
  destruct (F1 (ctx_responded c)) as [_ Hrule]. cbn [fst snd] in Hrule.
  assert (Nat.b2n (cell (c_world st) (ctx_responded c)) ≤ 1)%nat
    by (destruct (cell _ _); simpl; lia).
  apply (sublist_filter_mono (ob_answers (ctx_request_id c))), sublist_length in Hsub.
  rewrite <- Hgs, <- answers_ob in Hsub by done. lia.
Qed.

(** A frame of the history, read as a header. *)
Definition origin_ok `{ThirdParty} {W} (st : client W) (f : Frame) : Prop :=
  (request_id (header f) = 0 ∧ hflags (header f) = flags.DIRECTION_TO_PARENT)
  ∨ ∃ c, c ∈ c_requests st ∧ method_id (header f) = ctx_method_id c
      ∧ request_id (header f) = ctx_request_id c ∧ is_response (header f) = true.

Lemma attributed_origin `{TP : ThirdParty} {W} (st : client W) l f :
  Forall ctx_wf (c_requests st) → frame_fits f → attributed st l (ob_of f) → origin_ok st f.
Proof.
  intros Hwf Hf Hattr. pose proof (decode_ob_of _ Hf) as Hdec.
  destruct Hattr as [[_ (id & pl & Heq)]|(c & Hc & _ & Hframe)].
  - left. rewrite Heq in Hdec. cbn [new_outbound ob_header] in Hdec.
    rewrite encode_eq, <- (app_nil_r (header_layout _)), decode_layout_cut in Hdec.
    injection Hdec as <-. done.
  - right. exists c. rewrite Forall_forall in Hwf.
    destruct (ctx_frame_header c _ (Hwf _ Hc) Hframe) as (h & Hd & _ & Hm & Hr & Hfl & _).
    rewrite Hdec in Hd. injection Hd as <-. split_and!; [done..|].
    by apply ctx_flags_response in Hfl.
Qed.

(** What is handed to the writer is a frame, if its payload fits its header. *)
Lemma fitting_frame h pl :
  fits 8 (hflags h) → payload_length h = wrap 32 (zlen pl) → ob_fits (new_outbound h pl) →
  ∃ f, new_outbound h pl = ob_of f ∧ frame_fits f.
Proof.
  intros Hfl Hlen [Hb Hp]. cbn [ob_payload new_outbound] in *.
  destruct (header_layout_cut h Hfl) as [Hwf Heq]. exists (new_frame (header_cut h) pl).
  split; [unfold ob_of, new_outbound; cbn [header payload]; f_equal; by rewrite !encode_eq|].
  split; cbn [header payload header_cut payload_length]; [done| |done].
  by rewrite Hlen, !wrap_id by (rewrite ?wrap_id; done).
Qed.

Lemma attributed_frame `{TP : ThirdParty} {W} (st : client W) l g :
  attributed st l g → ob_fits g → ∃ f, g = ob_of f ∧ frame_fits f.
Proof.
  intros [[_ (id & pl & ->)]|(c & _ & _ & fl & pl & Hfl & ->)] Hg.
  - apply fitting_frame; [split; vm_compute; congruence| |done]. done.
  - apply fitting_frame; [by eapply ctx_flags_fit|done..].
Qed.

(** So the accepted frames are frames, whatever the handlers do. *)
Lemma accepted_frames `{TP : ThirdParty} `{!Serialize string} {W} `{!AsyncWrite W}
  `{!AsyncWriteOk W} cfg r max (y0 : wsys W) base (st : client (wsys W)) :
  reg_safe r → w_senders y0 = [] ∧ w_inv base y0 →
  client_reachable (FrameWriter0 := writer_task_frame_writer cfg) r max y0 st →
  Forall ob_fits (w_accepted (out (c_world st))) →
  ∃ fs, w_accepted (out (c_world st)) = ob_of <$> fs ∧ Forall frame_fits fs
    ∧ Forall (origin_ok st) fs.
Proof.
  intros Hr Hy0 Hs Hfit.
  destruct (accepted_sent cfg r max y0 base st Hr Hy0 Hs) as (gs & Hgs & Hsub).
  destruct (reachable_frames_inv _ _ _ _ Hr Hs) as [_ _ F3 _ _ _ _].
  pose proof (reachable_requests_wf _ _ _ _ Hs) as Hwf. rewrite Forall_forall in F3.
  assert (Hattr : Forall (λ g, ob_fits g ∧ ∃ l, attributed st l g) (w_accepted (out (c_world st)))).
  { rewrite Forall_forall in Hfit. apply Forall_forall. intros g Hg. split; [by apply Hfit|].
    rewrite Hgs in Hg. eapply elem_of_sublist in Hg; [|exact Hsub].
    apply list_elem_of_fmap in Hg as ([l g'] & -> & Hin). exists l. exact (F3 _ Hin). }
  clear Hgs Hfit. induction Hattr as [|g l [Hg [k Hk]] _ (fs & -> & IH1 & IH2)]; [by exists []|].
  destruct (attributed_frame st k g Hk Hg) as (f & -> & Hf). exists (f :: fs).
  split_and!; [done|by constructor|constructor; [by eapply attributed_origin|done]].
Qed.

(** ** Properties *)

(** C1: from the handlers to the wire.  Take any state the client can reach on
    top of its writer task, whatever the handlers do, however they, the tasks
    they spawn, the calls of [send] and the writer interleave, and however
    writes split or fail; no accepted payload has 4 GiB or more, where its
    length would not fit the header.  The parent, with any limit, reading in
    any cut whatever part of the bytes on the pipe, gets a prefix of the accepted frames.
    Each of them is an event or a response to a request the client has
    received, with that request's ids, and at most one of them ends a given
    request whose id was used once.  The parent meets a protocol error only if
    an accepted frame is over its limit, which the client does not check. *)
Theorem parent_gets_one_answer `{TP : ThirdParty} `{!Serialize string} {W}
  `{!AsyncWrite W} `{!AsyncWriteOk W} (cfg : WriterConfig) (r : HandlerRegistry) (max : nat)
  (w : W) (y0 : wsys W) (st : client (wsys W)) (c : RequestContext)
  (pmax : u32) (chunks : list bytes) :
  reg_safe r → spawn_writer_task w cfg = Some y0 → written w = [] →
  client_reachable (FrameWriter0 := writer_task_frame_writer cfg) r max y0 st →
  c ∈ c_requests st →
  (∀ c', c' ∈ c_requests st → ctx_request_id c' = ctx_request_id c → c' = c) →
  Forall ob_fits (w_accepted (out (c_world st))) →
  Forall is_bytes chunks → readable (out (c_world st)) (concat chunks) →
  ∃ got fb e, push_chunks (with_max_payload pmax) chunks = (fb, got, e)
    ∧ (ob_of <$> got) `prefix_of` w_accepted (out (c_world st))
    ∧ Forall (origin_ok st) got
    ∧ (length (filter (answers (ctx_request_id c)) got) ≤ 1)%nat
    ∧ (e = None ∨ Exists (over_limit pmax) (w_accepted (out (c_world st)))).
Proof.
  intros Hr Hy0 Hw Hs Hc Huniq Hfit Hb Hcat. pose proof (spawned_fresh _ _ _ Hy0) as ->.
  assert (Hinv : w_senders (fresh_wsys w) = [] ∧ w_inv (written w) (fresh_wsys w))
    by (split; [done|apply spawn_inv]).
  destruct (client_runs_writer cfg r max (fresh_wsys w) st Hr eq_refl Hs) as [Hrun _].
  destruct (accepted_frames cfg r max _ _ st Hr Hinv Hs Hfit) as (fs & Hacc & Hfs & Horigin).
  destruct (peer_parses w cfg (out (c_world st)) pmax fs chunks)
    as (got & missing & fb & e & Hpush & -> & He & _); try done; [by exists (fresh_wsys w)|].
  exists got, fb, e. split; [exact Hpush|].
  pose proof (accepted_answers_le cfg r max _ _ st c _ Hr Hinv Hs Huniq Hacc Hfs) as Hle.
  rewrite filter_app, length_app in Hle. apply Forall_app in Horigin as [Horigin _].
  split_and!; [rewrite Hacc, fmap_app; by eexists|done|lia|done].
Qed.


Section Demo.
#[local] Existing Instance string_errors.

(** A run in which one frame has been written, in three partial writes. *)
Definition sent_frame : Frame := new_frame (new_header 1 3 42 2) [1; 2].
Definition empty_pipe : ScriptWriter := {| sw_out := []; sw_script := [5%nat; 3%nat] |}.
Definition sent_state : wsys ScriptWriter :=
  {| w_queue := []; w_rx_open := true; w_tx_alive := true; w_pending := 1;
     w_senders := [{| s_mode := Send; s_frame := demo_frame; s_pc := PcDone (Ok tt) |}];
     w_task := TSub 1;
     w_sink := {| sw_out := frame_bytes sent_frame; sw_script := [] |};
     w_accepted := [demo_frame]; w_leaked := 0 |}.

Lemma sent_reachable : reachable empty_pipe default_config sent_state.
Proof.
  destruct (demo_accepted_reachable empty_pipe) as (y0 & Hy0 & Hsteps).
  exists y0. split; [exact Hy0|]. etrans; [exact Hsteps|].
  eapply rtc_l; [apply ws_task; eapply ts_recv; reflexivity|].
  eapply rtc_l; [apply ws_task; eapply ts_collected; [reflexivity|by right]|].
  eapply rtc_l; [apply ws_task; eapply ts_written; reflexivity|].
  match goal with |- rtc _ ?x ?y => replace x with y by reflexivity end. apply rtc_refl.
Qed.

Lemma sent_frame_wf : frame_wf 1000 sent_frame.
Proof.
  split; cbn.
  - split; cbn; unfold fits; lia.
  - unfold header_valid, RESERVED_METHOD_ID, ABSOLUTE_MAX_PAYLOAD_SIZE.
    cbn [sent_frame header method_id payload_length]. split_and!; [lia..|done].
  - done.
  - repeat constructor; vm_compute; congruence.
Qed.


(** A run of the client in which a request is answered and the answer has
    reached the pipe. *)
#[local] Existing Instance text_serialize.

Definition answer_frame : Frame := new_frame (new_header 1 flags.RESPONSE 7 0) [].

(** The call of [send] runs to its end, and the task takes the frame. *)
Definition answer_state (f : Frame) (q : list OutboundFrame) (k : task_pc) (sink : ScriptWriter) :
  wsys ScriptWriter :=
  {| w_queue := q; w_rx_open := true; w_tx_alive := true; w_pending := 1;
     w_senders := [{| s_mode := Send; s_frame := ob_of f; s_pc := PcDone (Ok tt) |}];
     w_task := k; w_sink := sink; w_accepted := [ob_of f]; w_leaked := 0 |}.

Lemma answer_accepted f :
  rtc (writer_step default_config)
    (spawn_sender Send (ob_of f) (fresh_wsys empty_pipe))
    (answer_state f [ob_of f] TRecv empty_pipe).
Proof.
  eapply rtc_l; [eapply (wr_call _ _ 0); [reflexivity|by apply st_check_ok]|].
  eapply rtc_l; [eapply (wr_call _ _ 0); [reflexivity|by apply st_add]|].
  eapply rtc_l; [eapply (wr_call _ _ 0); [reflexivity|apply st_enqueue; [done..|]]|].
  - cbn. unfold DEFAULT_CHANNEL_CAPACITY. lia.
  - match goal with |- rtc _ ?x ?y => replace x with y by reflexivity end. apply rtc_refl.
Qed.

Definition answer_sink (f : Frame) : ScriptWriter :=
  {| sw_out := frame_bytes f; sw_script := [] |}.

Lemma answer_written f :
  write_batch empty_pipe [ob_of f] = Some (answer_sink f, Ok tt) →
  rtc (writer_step default_config) (answer_state f [ob_of f] TRecv empty_pipe)
    (answer_state f [] (TSub 1) (answer_sink f)).
Proof.
  intros Hw.
  eapply rtc_l; [apply wr_task; eapply ts_recv; reflexivity|].
  eapply rtc_l; [apply wr_task; eapply ts_collected; [reflexivity|by right]|].
  eapply rtc_l; [apply wr_task; eapply ts_written; [reflexivity|exact Hw]|].
  match goal with |- rtc _ ?x ?y => replace x with y by reflexivity end. apply rtc_refl.
Qed.

Lemma answered_run :
  ∃ st, rtc (cstep (FrameWriter0 := writer_task_frame_writer default_config) demo_registry)
          (dispatch_frame demo_registry (demo_req 1 7) (start_client 2 (fresh_wsys empty_pipe))) st
    ∧ c_requests st = [with_writer_and_token 1 7 RtResult 1 2]
    ∧ out (c_world st) = answer_state answer_frame [] (TSub 1) (answer_sink answer_frame).
Proof.
  eexists. split; [|shelve].
  eapply rtc_l; [eapply (cs_task _ _ _ []); [reflexivity|apply (p_input _ 1)]|].
  eapply rtc_l; [eapply (cs_task _ _ _ []); [reflexivity|apply p_swap]|].
  eapply rtc_l; [eapply (cs_task _ _ _ []); [reflexivity|apply p_send]|].
  etrans; [apply client_writer_steps, (answer_accepted answer_frame)|].
  eapply rtc_l; [eapply (cs_task _ _ _ []); [reflexivity|apply (p_sent _ _ _ (Ok tt)); reflexivity]|].
  etrans; [apply client_writer_steps, answer_written; reflexivity|].
  apply rtc_refl.
  Unshelve. split; reflexivity.
Qed.

Lemma answered_reachable :
  ∃ st, client_reachable (FrameWriter0 := writer_task_frame_writer default_config)
          demo_registry 2 (fresh_wsys empty_pipe) st
    ∧ c_requests st = [with_writer_and_token 1 7 RtResult 1 2]
    ∧ out (c_world st) = answer_state answer_frame [] (TSub 1) (answer_sink answer_frame).
Proof.
  destruct answered_run as (st & Hrun & Hst). exists st. split; [|exact Hst].
  eapply rtc_l; [|exact Hrun].
  apply cs_frame, demo_req_wf; [lia|split; vm_compute; congruence].
Qed.

Lemma answer_fits : Forall ob_fits [ob_of answer_frame].
Proof. apply Forall_singleton. split; [constructor|split; vm_compute; congruence]. Qed.

(** The parent gets the answer, or nothing. *)
Lemma parent_gets_one_answer_witness :
  ∃ got fb, push_chunks (with_max_payload 1000)
              [take 4 (frame_bytes answer_frame); drop 4 (frame_bytes answer_frame)]
            = (fb, got, None)
    ∧ (ob_of <$> got) `prefix_of` [ob_of answer_frame]
    ∧ (length (filter (answers 7) got) ≤ 1)%nat.
Proof.
  destruct answered_reachable as (st & Hs & Hreq & Hout).
  set (chunks := [take 4 (frame_bytes answer_frame); drop 4 (frame_bytes answer_frame)]).
  set (c := with_writer_and_token 1 7 RtResult 1 2).
  destruct (parent_gets_one_answer default_config demo_registry 2 empty_pipe
              (fresh_wsys empty_pipe) st c 1000 chunks)
    as (got & fb & e & Hpush & Hpre & _ & Hle & He);
    [exact demo_registry_safe|reflexivity|reflexivity|exact Hs|rewrite Hreq; by left
    |intros c'; rewrite Hreq; by intros ->%list_elem_of_singleton
    |rewrite Hout; exact answer_fits
    |repeat constructor; vm_compute; congruence|rewrite Hout; by exists []|].
  rewrite Hout in Hpre, He.
  destruct He as [->|He%(bool_decide_eq_true_2 _)]; [|vm_compute in He; discriminate].
  exists got, fb. by split_and!.
Defined.
End Demo.
