(* ===== verification/Delivery.v ===== *)
(** * From a handler to the wire (src/client.rs on src/writer.rs)

    The client on top of its writer task and of a pipe that takes bytes: the
    frames of a request that comes to its end are on the pipe, whatever else
    the client and the writer are doing. *)

From S2P Require Import Prelude Errors WireFormat Frame FrameBuffer Codec Writer WriterTask WriterLive.
From S2P Require Import Init Program Schedule Context Registry Client Completion.
From S2P Require Import WriterImpl WriterHealthy EndToEnd.

Section Delivery.
Context `{TP : ThirdParty} `{!Serialize string} {W : Type} `{!AsyncWrite W} `{!AsyncWriteOk W}.
Context {healthy : W → Prop} `{!HealthyWrite W healthy}.
Variables (cfg : WriterConfig) (r : HandlerRegistry) (max : nat) (w : W).
#[local] Existing Instance writer_task_frame_writer.
#[local] Existing Instance writer_task_frame_writer_ok.
Implicit Types (st : client (wsys W)).

(** The client has been started on this pipe, and its writer task is running. *)
Record delivering st : Prop := {
  dl_safe : reg_safe r;
  dl_room : 0 < max_pending_frames cfg;
  dl_spawned : spawn_writer_task w cfg = Some (fresh_wsys w);
  dl_reachable :
    client_reachable (FrameWriter0 := writer_task_frame_writer cfg) r max (fresh_wsys w) st;
  dl_open : w_rx_open (out (c_world st)) = true;
  dl_healthy : healthy (w_sink (out (c_world st)))
}.

Lemma delivering_capacity st : delivering st → channel_capacity cfg ≠ 0%nat.
Proof.
  intros [_ _ Hsp _ _ _] Hz. unfold spawn_writer_task in Hsp.
  rewrite decide_True in Hsp by auto. done.
Qed.

Lemma delivering_live st : delivering st →
  live_writer (healthy := healthy) (written w) (out (c_world st)).
Proof.
  intros [Hr _ Hsp Hs Ho Hh].
  destruct (client_runs_writer cfg r max (fresh_wsys w) st Hr eq_refl Hs) as [Hrun Ha].
  split; [|done..]. apply (reachable_inv cfg). by exists (fresh_wsys w).
Qed.

(** The client can let its writer bring everything accepted onto the pipe. *)
Lemma client_drains st : channel_capacity cfg ≠ 0%nat →
  live_writer (healthy := healthy) (written w) (out (c_world st)) →
  ∃ o, rtc (cstep (FrameWriter0 := writer_task_frame_writer cfg) r) st
         (set_world (set_out o (c_world st)) st)
    ∧ w_accepted (out (c_world st)) `prefix_of` w_accepted o
    ∧ written (w_sink o) = written w ++ batch_bytes (w_accepted o) ∧ writer_pending_count o = 0.
Proof.
  intros Hcap Hl. destruct (live_drains cfg (written w) _ Hcap Hl) as (o & Hrun & _ & Hacc & Hout & Hp).
  exists o. split_and!; [by apply client_writer_steps|done..].
Qed.

(** Every frame of the history is well formed, and so is every frame a task
    is going to send. *)
Lemma run_wf st t ts1 ts2 w' ins res ins' :
  reg_safe r →
  client_reachable (FrameWriter0 := writer_task_frame_writer cfg) r max (fresh_wsys w) st →
  c_tasks st = ts1 ++ t :: ts2 →
  run (FrameWriter0 := writer_task_frame_writer cfg) (t_prog t) (c_world st) ins
  = Some (w', res, ins') →
  Forall (λ e : loc * OutboundFrame, ob_wf e.2) (sends w').
Proof.
  intros Hr Hs Ht Hrun. destruct (reachable_frames_inv _ _ _ _ Hr Hs) as [_ F2 F3 _ _ _ _].
  rewrite Forall_forall in F2.
  destruct (run_actions (FrameWriter0 := writer_task_frame_writer cfg) _ _ _
    (F2 _ ltac:(rewrite (programs_task _ _ _ _ Ht); by left)) _ _ _ _ _ Hrun) as (new & -> & Hnew).
  apply Forall_app_2; [eapply Forall_impl; [exact F3|]|eapply Forall_impl; [exact Hnew|]];
    intros [l f]; apply attributed_wf.
Qed.

(** What is on the pipe at the end: every frame accepted, among them [news]
    in this order, and nothing is on its way. *)
Record on_the_wire st (news : list OutboundFrame) : Prop := {
  ow_accepted : news `sublist_of` w_accepted (out (c_world st));
  ow_written : written (w_sink (out (c_world st)))
               = written w ++ batch_bytes (w_accepted (out (c_world st)));
  ow_pending : pending_frames st = 0
}.

(** The parent's parser then has all of them. *)
Lemma on_the_wire_parsed st news pmax fs :
  on_the_wire st news → written w = [] →
  w_accepted (out (c_world st)) = ob_of <$> fs → Forall (frame_wf pmax) fs →
  parse pmax (written (w_sink (out (c_world st)))) = (fs, [], None).
Proof.
  intros [_ -> _] -> -> Hfs. cbn [app]. rewrite batch_bytes_frames.
  pose proof (parse_frames pmax fs [] Hfs) as Hp. by rewrite !app_nil_r, parse_nil, app_nil_r in Hp.
Qed.

Lemma request_delivered st t ts1 ts2 w' ins res ins' :
  delivering st → c_tasks st = ts1 ++ t :: ts2 →
  run (FrameWriter0 := writer_task_frame_writer cfg) (t_prog t) (c_world st) ins
  = Some (w', res, ins') →
  Forall (λ a, match a with InSend x => x = Ok tt | InNat _ => True end) ins →
  ∃ st' new, rtc (cstep (FrameWriter0 := writer_task_frame_writer cfg) r) st st'
    ∧ completed st st' ts1 t ts2 w' ∧ sends w' = sends (c_world st) ++ new
    ∧ on_the_wire st' new.*2.
Proof.
  intros Hd Ht Hrun Hins. pose proof (delivering_capacity _ Hd) as Hcap.
  pose proof (run_wf st t ts1 ts2 w' ins res ins' (dl_safe _ Hd) (dl_reachable _ Hd) Ht Hrun) as Hwf.
  pose (SW := healthy_serving (healthy := healthy) cfg (written w) (dl_room _ Hd) Hcap).
  destruct (task_completes (FrameWriter0 := writer_task_frame_writer cfg) (ServingWriter0 := SW)
    (frame_wf ABSOLUTE_MAX_PAYLOAD_SIZE) r st t ts1 ts2 [] w' ins ins' res Ht Hrun)
    as (st1 & new & Hsteps & Hc & _ & Hnew & Hlive & Hsub); [|exact Hins|exact Hwf|].
  { split; [by apply delivering_live|apply sublist_nil_l]. }
  destruct (client_drains st1 Hcap Hlive) as (o & Hdrain & Hacc & Hout & Hp).
  eexists _, new. split; [etrans; [exact Hsteps|exact Hdrain]|]. split; [|split; [exact Hnew|]].
  - by destruct Hc; split.
  - split; cbn; [|exact Hout|exact Hp]. etrans; [exact Hsub|]. destruct Hacc as [more ->].
    by apply sublist_inserts_r.
Qed.
End Delivery.

(** ** Properties *)

(** C4: a request that is answered reaches the parent.  On a pipe that takes
    bytes, from every state of the running client: a task whose program, run on
    its own with every [send] returning [Ok], comes to a result, can be run to
    its end, whatever the other tasks, the calls of [send] under way and the
    writer task are doing.  The task is then gone, its table entry removed and
    its permit free, and every frame it has sent is on the pipe, in the order
    in which it sent them, together with all other accepted frames; the
    pending counter is back at zero. *)
Theorem request_reaches_wire `{TP : ThirdParty} `{!Serialize string} {W : Type}
  `{!AsyncWrite W} `{!AsyncWriteOk W} (healthy : W → Prop) `{!HealthyWrite W healthy}
  (cfg : WriterConfig) (r : HandlerRegistry) (max : nat) (w : W) (st : client (wsys W))
  (t : task) (ts1 ts2 : list task) (w' : world (wsys W)) (ins ins' : list answer)
  (res : Result unit) :
  delivering (healthy := healthy) cfg r max w st → c_tasks st = ts1 ++ t :: ts2 →
  run (FrameWriter0 := writer_task_frame_writer cfg) (t_prog t) (c_world st) ins
  = Some (w', res, ins') →
  Forall (λ a, match a with InSend x => x = Ok tt | InNat _ => True end) ins →
  ∃ st' new, rtc (cstep (FrameWriter0 := writer_task_frame_writer cfg) r) st st'
    ∧ completed st st' ts1 t ts2 w' ∧ sends w' = sends (c_world st) ++ new
    ∧ on_the_wire w st' new.*2.
Proof. apply request_delivered. Qed.

Section Demo.
#[local] Existing Instance string_errors.
#[local] Existing Instance text_serialize.

(** A request has arrived at a client whose pipe splits its first writes. *)
Definition delivery_state : client (wsys ScriptWriter) :=
  dispatch_frame demo_registry (demo_req 1 7) (start_client 2 (fresh_wsys empty_pipe)).

Lemma delivery_state_delivering :
  delivering (healthy := λ p, Forall (λ k, k ≠ 0%nat) (sw_script p))
    default_config demo_registry 2 empty_pipe delivery_state.
Proof.
  split; [exact demo_registry_safe|done|reflexivity| |done|by repeat constructor].
  apply rtc_once, cs_frame, demo_req_wf; [lia|split; vm_compute; congruence].
Qed.

Lemma request_reaches_wire_witness :
  let ctx := with_writer_and_token 1 7 RtResult 1 2 in
  ∃ st', rtc (cstep (FrameWriter0 := writer_task_frame_writer default_config) demo_registry)
           delivery_state st'
    ∧ c_tasks st' = [] ∧ c_permits st' = 2%nat
    ∧ on_the_wire empty_pipe st' [ob_of answer_frame].
Proof.
  intros ctx.
  destruct (request_reaches_wire (λ p, Forall (λ k, k ≠ 0%nat) (sw_script p)) default_config
    demo_registry 2 empty_pipe delivery_state
    {| t_ctx := ctx; t_request_id := 7; t_prog := handler_task demo_registry 1 [] ctx |} [] [] _
    [InNat 1; InSend (Ok tt)] [] (Ok tt) delivery_state_delivering eq_refl eq_refl)
    as (st' & new & Hs & [_ _ Htasks _ Hperm] & Hnew & Hwire); [by repeat constructor|].
  exists st'. split_and!; [exact Hs|exact Htasks|exact Hperm|].
  change ([(2%nat, ob_of answer_frame)] = new) in Hnew. subst new. exact Hwire.
Defined.
End Demo.
