(* ===== verification/Quiesce.v ===== *)
(** * The client comes to rest (src/client.rs on src/writer.rs)

    Between two frames from the parent and without new events, the tasks, the
    programs they spawned, the calls of [send] and the writer task cannot keep
    each other busy for ever: every schedule of their steps ends, and then a
    program that is not over waits for ever by its own doing, or, while the
    pipe keeps a write pending, for room in the channel.  The order that
    decreases is that of the multiset of programs, then the work of the writer
    system. *)

From S2P Require Import Prelude Errors WireFormat Frame Codec Writer WriterTask WriterLive Program.
From S2P Require Import Context Registry Client Completion WriterImpl EndToEnd.

(** ** Multisets of programs *)
Section Multisets.
Context `{TP : ThirdParty} {W : Type} `{!FrameWriter W}.
Implicit Types (p q : prog) (ps : list prog).

(** One program makes a step, or goes. *)
Inductive shrinks ps : list prog → Prop :=
| sh_step w p w' p' qs rest ps' :
    pstep (W := W) w p w' p' qs → ps ≡ₚ p :: rest → ps' ≡ₚ p' :: rest ++ qs → shrinks ps ps'
| sh_end p ps' : ps ≡ₚ p :: ps' → shrinks ps ps'.

Lemma cons_perm p q ps rest :
  p :: ps ≡ₚ q :: rest → (p = q ∧ ps ≡ₚ rest) ∨ ∃ l, ps ≡ₚ q :: l ∧ rest ≡ₚ p :: l.
Proof.
  intros Hp. assert (Hin : q ∈ p :: ps) by (rewrite Hp; by left).
  apply elem_of_cons in Hin as [<-|[l Hl]%elem_of_Permutation].
  - left. split; [done|]. by apply Permutation_cons_inv in Hp.
  - right. exists l. split; [done|]. apply (Permutation_cons_inv (a := q)).
    rewrite <- Hp, Hl. constructor.
Qed.

Lemma sn_shrinks_perm ps ps' : ps ≡ₚ ps' → sn shrinks ps → sn shrinks ps'.
Proof.
  intros Hp [Hs]. constructor. intros qs Hst. apply Hs. unfold flip in *.
  destruct Hst as [w p w' p' qs1 rest ps1 Hst H1 H2|p ps1 H1].
  - eapply sh_step; [exact Hst|by rewrite Hp|done].
  - eapply sh_end. by rewrite Hp.
Qed.

(** A program can be added. *)
Definition addable p : Prop := ∀ ps, sn shrinks ps → sn shrinks (p :: ps).

Lemma addable_all ps qs : Forall addable qs → sn shrinks ps → sn shrinks (ps ++ qs).
Proof.
  induction 1 as [|q qs Hq _ IH]; intros Hs; [by rewrite app_nil_r|].
  apply (sn_shrinks_perm (q :: ps ++ qs)); [by rewrite Permutation_middle|]. by apply Hq, IH.
Qed.

Lemma addable_steps p :
  (∀ w w' p' qs, pstep (W := W) w p w' p' qs → addable p' ∧ Forall addable qs) → addable p.
Proof.
  intros Hp ps Hs. induction Hs as [ps Hps IH]. constructor. intros ps1 Hst. unfold flip in *.
  assert (Hsn : sn shrinks ps) by by constructor.
  destruct Hst as [w q w' q' qs rest ps1 Hst Hq Hps1|q ps1 Hq];
    apply cons_perm in Hq as [[<- Hrest]|(l & Hl & Hrest)].
  - destruct (Hp _ _ _ _ Hst) as [Hp' Hqs].
    apply (sn_shrinks_perm (q' :: rest ++ qs)); [done|]. apply Hp', addable_all; [done|].
    by eapply sn_shrinks_perm.
  - apply (sn_shrinks_perm (p :: q' :: l ++ qs)).
    { rewrite Hps1, Hrest. constructor. }
    apply IH. by eapply sh_step.
  - by eapply sn_shrinks_perm.
  - apply (sn_shrinks_perm (p :: l)); [by rewrite Hrest|]. apply IH. by eapply sh_end.
Qed.

(** Waiting for a call is the step between making it and what follows. *)
Lemma addable_sending t k : (∀ r, addable (k r)) → addable (Sending t k).
Proof. intros Hk. apply addable_steps. intros w w' p' qs Hst. by inversion Hst; subst. Qed.

Lemma addable_prog p : addable p.
Proof.
  induction p; apply addable_steps; intros w w' p' qs Hst; inversion Hst; subst;
    rewrite ?Forall_singleton; (split; [|try apply Forall_nil_2]);
    first [assumption|by apply addable_sending|match goal with
    | H : ∀ x, addable (?k x) |- _ => apply H
    end].
Qed.

Lemma shrinks_sn ps : sn shrinks ps.
Proof.
  induction ps as [|p ps IH]; [|by apply addable_prog]. constructor. unfold flip.
  intros ps' [w p w' p' qs rest ps1 _ H%Permutation_nil_cons|p ps1 H%Permutation_nil_cons]; done.
Qed.
End Multisets.

(** ** Programs that send through [send] only *)
Section NoSending.
Context `{TP : ThirdParty}.
Implicit Types (p q : prog).

Inductive no_sending : prog → Prop :=
| ns_ret r : no_sending (Ret r)
| ns_panic : no_sending Panic
| ns_hang : no_sending Hang
| ns_swap l k : (∀ b, no_sending (k b)) → no_sending (Swap l k)
| ns_load l k : (∀ b, no_sending (k b)) → no_sending (Load l k)
| ns_cancel l k : no_sending k → no_sending (Cancel l k)
| ns_await l k : no_sending k → no_sending (Await l k)
| ns_send l f k : (∀ r, no_sending (k r)) → no_sending (SendFrame l f k)
| ns_input k : (∀ n, no_sending (k n)) → no_sending (Input k)
| ns_fork p k : no_sending p → no_sending k → no_sending (Fork p k).
#[local] Hint Constructors no_sending : procwire.

Lemma no_sending_bind p k : no_sending p → (∀ r, no_sending (k r)) → no_sending (pbind p k).
Proof. intros Hp Hk. induction Hp; cbn [pbind]; auto with procwire. Qed.

Lemma send_frame_no_sending c fl pl : no_sending (send_frame c fl pl).
Proof. unfold send_frame. destruct (ctx_writer c); auto with procwire. Qed.

Lemma ctx_call_no_sending c p : ctx_call c p → no_sending p.
Proof.
  intros [(fl & b & ->%terminal_call_shape)|(b & ->%chunk_call_shape)]%ctx_call_cases;
    destruct b as [d|e]; cbn; auto using send_frame_no_sending with procwire.
  - apply ns_swap. intros []; cbn; auto using send_frame_no_sending with procwire.
  - apply ns_swap. intros []; cbn; auto with procwire.
Qed.

Lemma uses_ctx_no_sending c p : uses_ctx c p → no_sending p.
Proof.
  induction 1 as [| | |p k Hp _ IH| | | | | |]; try by constructor.
  apply no_sending_bind; [by eapply ctx_call_no_sending|done].
Qed.

Lemma handler_task_no_sending `{!Serialize string} r id pl ctx :
  reg_safe r → no_sending (handler_task r id pl ctx).
Proof.
  intros Hr. apply no_sending_bind; [by eapply uses_ctx_no_sending, dispatch_uses|].
  intros [[]|e]; [constructor|]. apply ns_load. intros []; [constructor|].
  apply no_sending_bind; [eapply ctx_call_no_sending; constructor|constructor].
Qed.

Lemma emit_no_sending r p : emit_call r p → no_sending p.
Proof.
  intros [T S name v|name pl]; unfold emit, emit_raw; destruct (ok_or _ _); cbn [try_ok];
    auto with procwire. destruct (msgpack_encode v); cbn [try_ok]; auto with procwire.
Qed.

(** A program that waits for the result of one of the [n] calls made so far,
    or is not waiting for any. *)
Definition sending_ok (n : nat) p : Prop :=
  no_sending p ∨ ∃ t k, p = Sending t k ∧ (t < n)%nat ∧ ∀ r, no_sending (k r).

Lemma sending_ok_mono n n' p : (n ≤ n')%nat → sending_ok n p → sending_ok n' p.
Proof.
  intros Hn [H|(t & k & -> & Ht & Hk)]; [by left|]. right. exists t, k. split_and!; [done|lia|done].
Qed.

Context {W : Type} `{!FrameWriter W} `{!FrameWriterOk W}.
Implicit Types (w : world W).

Lemma pstep_sending w p w' p' qs :
  pstep w p w' p' qs → sending_ok (next_call w) p →
  (next_call w ≤ next_call w')%nat ∧ sending_ok (next_call w') p' ∧ Forall no_sending qs.
Proof.
  intros Hst [Hp|(t & k & -> & Ht & Hk)].
  - destruct Hst as [l k|l k|l k|l k Hc|l f k|t k r Hr|n k|q k]; inversion Hp; subst;
      split_and!; auto; try (by left; auto).
    + unfold next_call. cbn. rewrite fw_calls_begin, length_app. lia.
    + right. exists (next_call w), k. split_and!; [done| |done].
      unfold next_call. cbn. rewrite fw_calls_begin, length_app. cbn. lia.
  - inversion Hst; subst. split_and!; [done| |done]. by left.
Qed.

Lemma fw_step_next_call w o : fw_step (out w) o → next_call (set_out o w) = next_call w.
Proof. intros Hst%fw_frames_step%(f_equal length). unfold next_call. cbn. by rewrite !length_fmap in Hst. Qed.

(** *** In the client *)
Context `{!Serialize string}.
Implicit Types (st : client W).

Definition calls_known st : Prop :=
  Forall (sending_ok (next_call (c_world st))) (programs st).

Lemma calls_known_intro st st' :
  calls_known st → (next_call (c_world st) ≤ next_call (c_world st'))%nat →
  (∃ news gone, programs st' ++ gone ≡ₚ programs st ++ news
     ∧ Forall (sending_ok (next_call (c_world st'))) news) → calls_known st'.
Proof.
  intros Hst Hn (news & gone & Hp & Hnews).
  assert (Hall : Forall (sending_ok (next_call (c_world st'))) (programs st' ++ gone)).
  { rewrite Hp. apply Forall_app_2; [|done]. eapply Forall_impl; [exact Hst|].
    intros p. by apply sending_ok_mono. }
  by apply Forall_app in Hall as [? _].
Qed.

Lemma calls_known_step st st' p w p' qs rest :
  calls_known st → pstep (c_world st) p w p' qs → programs st ≡ₚ p :: rest →
  c_world st' = w → programs st' ≡ₚ p' :: rest ++ qs → calls_known st'.
Proof.
  intros Hst Hp Hps <- Hps'. unfold calls_known in *. rewrite Hps in Hst.
  apply Forall_cons in Hst as [Hst Hrest].
  destruct (pstep_sending _ _ _ _ _ Hp Hst) as (Hn & Hp' & Hqs). rewrite Hps'.
  constructor; [done|]. apply Forall_app_2.
  - eapply Forall_impl; [exact Hrest|]. intros q. by apply sending_ok_mono.
  - eapply Forall_impl; [exact Hqs|]. intros q. by left.
Qed.
End NoSending.

(** ** The invariant *)
Section Reachable.
Context `{TP : ThirdParty} `{!Serialize string} {W : Type} `{!FrameWriter W} `{!FrameWriterOk W}.
Implicit Types (st : client W).

Lemma finish_task_programs b t ts1 ts2 st :
  c_tasks st = ts1 ++ t :: ts2 → programs st ≡ₚ t_prog t :: programs (finish_task b t ts1 ts2 st).
Proof. intros Ht. by rewrite (programs_task _ _ _ _ Ht). Qed.

Lemma with_program_programs t ts1 ts2 w p qs st :
  programs (with_program st ts1 t ts2 w p qs)
  ≡ₚ p :: ((t_prog <$> ts1 ++ ts2) ++ c_background st) ++ qs.
Proof.
  unfold programs. cbn. rewrite !fmap_app, fmap_cons. cbn [t_prog].
  rewrite <- Permutation_middle. cbn [app]. by rewrite !app_assoc.
Qed.

Lemma background_programs p ps1 ps2 st :
  c_background st = ps1 ++ p :: ps2 →
  programs st ≡ₚ p :: (t_prog <$> c_tasks st) ++ ps1 ++ ps2.
Proof.
  intros Hb. unfold programs. rewrite Hb, !app_assoc. by rewrite <- Permutation_middle.
Qed.

Lemma dispatch_programs r f st :
  programs (dispatch_frame r f st) ≡ₚ programs st
  ∨ ∃ id pl ctx, programs (dispatch_frame r f st) ≡ₚ programs st ++ [handler_task r id pl ctx].
Proof.
  unfold dispatch_frame. repeat case_match; try by left.
  right. eexists _, _, _. unfold programs. cbn. rewrite fmap_app. cbn.
  rewrite <- !app_assoc. by rewrite (Permutation_app_comm _ (c_background st)).
Qed.

Lemma cstep_calls_known r st st' :
  reg_safe r → cstep r st st' → calls_known st → calls_known st'.
Proof.
  intros Hr Hst Hi. destruct Hst as [f Hf|t ts1 ts2 w p qs Ht Hp|t ts1 ts2 res Ht Hp
    |t ts1 ts2 Ht Hp|p p' ps1 ps2 w qs Hb Hp|p Hp|o Ho].
  - assert (Hn : next_call (c_world (dispatch_frame r f st)) = next_call (c_world st)).
    { unfold next_call. by destruct (dispatch_out r f st) as [-> _]. }
    apply (calls_known_intro _ _ Hi); [by rewrite Hn|].
    destruct (dispatch_programs r f st) as [Hp|(id & pl & ctx & Hp)].
    + exists [], []. by rewrite Hp, !app_nil_r.
    + eexists _, []. rewrite app_nil_r. split; [exact Hp|]. apply Forall_singleton. left.
      by apply handler_task_no_sending.
  - by eapply calls_known_step; [exact Hi|exact Hp|by apply programs_task| |apply with_program_programs].
  - apply (calls_known_intro _ _ Hi); [done|]. exists [], [t_prog t].
    rewrite (finish_task_programs false _ _ _ _ Ht), app_nil_r. by rewrite Permutation_app_comm.
  - apply (calls_known_intro _ _ Hi); [done|]. exists [], [t_prog t].
    rewrite (finish_task_programs true _ _ _ _ Ht), app_nil_r. by rewrite Permutation_app_comm.
  - eapply calls_known_step; [exact Hi|exact Hp|by apply background_programs|done|].
    unfold programs. cbn. rewrite !app_assoc, <- (app_assoc _ ps2).
    by rewrite <- Permutation_middle, !app_assoc.
  - apply (calls_known_intro _ _ Hi); [done|]. exists [p], [].
    unfold programs. cbn. rewrite app_nil_r, app_assoc. split; [done|].
    apply Forall_singleton. left. by eapply emit_no_sending.
  - apply (calls_known_intro _ _ Hi); [cbn; by rewrite fw_step_next_call|].
    by exists [], [].
Qed.

Lemma reachable_calls_known r max o st :
  reg_safe r → client_reachable r max o st → calls_known st.
Proof.
  intros Hr Hs. unfold client_reachable in Hs.
  apply (rtc_ind_r calls_known (start_client max o)) in Hs; [done|constructor|].
  intros. by eapply cstep_calls_known.
Qed.
End Reachable.

(** ** Coming to rest *)

(** Whether a program is over, and has panicked. *)
Definition ended `{ThirdParty} (p : prog) : option bool :=
  match p with Ret _ => Some false | Panic => Some true | _ => None end.

Section Busy.
Context `{TP : ThirdParty} `{!Serialize string} {W : Type} `{!AsyncWrite W}.
Variable cfg : WriterConfig.
#[local] Existing Instance writer_task_frame_writer.
Implicit Types (st : client (wsys W)).

(** The client with the background [ps] in the world [w]. *)
Definition with_background st (w : world (wsys W)) (ps : list prog) : client (wsys W) :=
  {| c_world := w; c_next := c_next st; c_active := c_active st; c_permits := c_permits st;
     c_tasks := c_tasks st; c_background := ps; c_requests := c_requests st |}.

(** The steps the client makes by itself: all but a new frame, a new emit and
    a poll that finds the counter still at its maximum. *)
Inductive busy_step st : client (wsys W) → Prop :=
| bz_task t ts1 ts2 w p qs :
    c_tasks st = ts1 ++ t :: ts2 →
    pstep (FrameWriter0 := writer_task_frame_writer cfg) (c_world st) (t_prog t) w p qs →
    busy_step st (with_program st ts1 t ts2 w p qs)
| bz_end t ts1 ts2 panicked :
    c_tasks st = ts1 ++ t :: ts2 → ended (t_prog t) = Some panicked →
    busy_step st (finish_task panicked t ts1 ts2 st)
| bz_background p ps1 ps2 w p' qs :
    c_background st = ps1 ++ p :: ps2 →
    pstep (FrameWriter0 := writer_task_frame_writer cfg) (c_world st) p w p' qs →
    busy_step st (with_background st w (ps1 ++ p' :: ps2 ++ qs))
| bz_writer o :
    work_step cfg (out (c_world st)) o → busy_step st (set_world (set_out o (c_world st)) st).

(** Those that complete no write. *)
Definition free_busy st st' : Prop :=
  busy_step st st' ∧ (writing (out (c_world st)) → writing (out (c_world st'))).

(** Waiting for ever, by its own doing: for something that never comes, or
    for a token nobody has cancelled. *)
Inductive waits (w : world (wsys W)) : prog → Prop :=
| wt_hang : waits w Hang
| wt_await l k : cell w l = false → waits w (Await l k).

(** Waiting for a call of [send] that has no room in the channel. *)
Definition held (w : world (wsys W)) p : Prop :=
  ∃ t k s, p = Sending t k ∧ w_senders (out w) !! t = Some s ∧ waits_for_room cfg (out w) s.

Lemma busy_own r st st' :
  busy_step st st' → own_step (FrameWriter0 := writer_task_frame_writer cfg) r st st'.
Proof.
  intros [t ts1 ts2 w p qs Ht Hp|t ts1 ts2 b Ht Hp|p ps1 ps2 w p' qs Hb Hp|o Ho].
  - by apply (cs_task (FrameWriter0 := writer_task_frame_writer cfg)).
  - destruct (t_prog t) eqn:Hpt; cbn in Hp; simplify_eq;
      [by eapply (cs_done (FrameWriter0 := writer_task_frame_writer cfg))
      |by eapply (cs_panic (FrameWriter0 := writer_task_frame_writer cfg))].
  - by eapply (cs_background (FrameWriter0 := writer_task_frame_writer cfg)).
  - apply (cs_writer (FrameWriter0 := writer_task_frame_writer cfg)).
    destruct Ho as [t s s' y' Ht Hst _|y' Hst]; [by eapply wr_call|by apply wr_task].
Qed.

Lemma busy_order st st' :
  busy_step st st' →
  shrinks (FrameWriter0 := writer_task_frame_writer cfg) (programs st) (programs st')
  ∨ (programs st' = programs st ∧ work_step cfg (out (c_world st)) (out (c_world st'))).
Proof.
  intros [t ts1 ts2 w p qs Ht Hp|t ts1 ts2 b Ht Hp|p ps1 ps2 w p' qs Hb Hp|o Ho];
    [left..|right; by split].
  - eapply (sh_step (FrameWriter0 := writer_task_frame_writer cfg));
      [exact Hp|by apply programs_task|apply with_program_programs].
  - eapply sh_end. by apply finish_task_programs.
  - eapply (sh_step (FrameWriter0 := writer_task_frame_writer cfg));
      [exact Hp|by apply background_programs|].
    unfold programs. cbn. rewrite !app_assoc, <- (app_assoc _ ps2).
    by rewrite <- Permutation_middle, !app_assoc.
Qed.

Lemma busy_sn st : sn busy_step st.
Proof.
  remember (programs st) as ps eqn:Hps. revert st Hps.
  induction (shrinks_sn (FrameWriter0 := writer_task_frame_writer cfg) ps) as [ps _ IHps].
  intros st ->. remember (out (c_world st)) as y eqn:Hy. revert st Hy IHps.
  induction (work_step_sn cfg y) as [y _ IHy]. intros st -> IHps. constructor. unfold flip in *.
  intros st' Hst. destruct (busy_order _ _ Hst) as [Hsh|[Hp Hw]].
  - by eapply IHps.
  - eapply IHy; [exact Hw|done|]. by rewrite Hp.
Qed.
End Busy.

Section Rest.
Context `{TP : ThirdParty} `{!Serialize string} {W : Type} `{!AsyncWrite W} `{!AsyncWriteOk W}.
Variables (cfg : WriterConfig) (r : HandlerRegistry) (max : nat) (w : W).
#[local] Existing Instance writer_task_frame_writer.
#[local] Existing Instance writer_task_frame_writer_ok.
Implicit Types (st : client (wsys W)).

(** A program that cannot move waits, or its call has not returned. *)
Lemma stuck_waits (v : world (wsys W)) p :
  sending_ok (next_call (FrameWriter0 := writer_task_frame_writer cfg) v) p → ended p = None →
  (∀ v' p' qs, ¬ pstep (FrameWriter0 := writer_task_frame_writer cfg) v p v' p' qs) →
  waits v p ∨ ∃ t k s, p = Sending t k ∧ w_senders (out v) !! t = Some s ∧ ¬ returned s.
Proof.
  intros Hok He Hst.
  destruct p as [x| | |l k|l k|l k|l k|l f k|t k|k|q k]; try done; try (left; constructor);
    try (exfalso; eapply Hst; by first [apply (p_input _ 0)|constructor]).
  - destruct (cell v l) eqn:Hc; [|done]. exfalso. eapply Hst. by constructor.
  - right. destruct Hok as [Hok|(t' & k' & [= <- <-] & Ht & _)]; [by inversion Hok|].
    unfold next_call in Ht. cbn in Ht. rewrite length_fmap in Ht.
    apply lookup_lt_is_Some in Ht as [s Hs]. exists t, k, s. split_and!; [done..|].
    intros [x Hx]. eapply Hst.
    apply (p_sent (FrameWriter0 := writer_task_frame_writer cfg) v t k x).
    unfold call_result. cbn. rewrite list_lookup_fmap, Hs. cbn.
    unfold call_state. by rewrite Hx.
Qed.

Lemma pstep_writing (v v' : world (wsys W)) p p' qs :
  pstep (FrameWriter0 := writer_task_frame_writer cfg) v p v' p' qs →
  writing (out v) → writing (out v').
Proof. by intros []. Qed.

(** Where nothing moves any more. *)
Record resting st : Prop := {
  re_tasks : Forall (λ t, waits (c_world st) (t_prog t)) (c_tasks st);
  re_background : Forall (λ p, ended p ≠ None ∨ waits (c_world st) p) (c_background st);
  re_returned : all_returned (out (c_world st));
  re_drained :
    (∃ e, w_task (out (c_world st)) = TExit (Err e))
    ∨ (w_queue (out (c_world st)) = []
       ∧ written (w_sink (out (c_world st)))
         = written w ++ batch_bytes (w_accepted (out (c_world st)))
       ∧ pending_frames st = 0)
}.

(** Where nothing moves but a write that stays pending. *)
Record stalled st : Prop := {
  sl_writing : writing (out (c_world st));
  sl_tasks :
    Forall (λ t, waits (c_world st) (t_prog t) ∨ held cfg (c_world st) (t_prog t)) (c_tasks st);
  sl_background :
    Forall (λ p, ended p ≠ None ∨ waits (c_world st) p ∨ held cfg (c_world st) p)
      (c_background st);
  sl_calls :
    Forall (λ s, returned s ∨ waits_for_room cfg (out (c_world st)) s)
      (w_senders (out (c_world st)))
}.

(** What the programs are doing when none of them can move: [P] holds of those
    whose call has not returned. *)
Lemma idle_programs st (P : prog → Prop) :
  reg_safe r →
  client_reachable (FrameWriter0 := writer_task_frame_writer cfg) r max (fresh_wsys w) st →
  nf (free_busy cfg) st →
  (∀ t k s, w_senders (out (c_world st)) !! t = Some s → ¬ returned s → P (Sending t k)) →
  Forall (λ t, waits (c_world st) (t_prog t) ∨ P (t_prog t)) (c_tasks st)
  ∧ Forall (λ p, ended p ≠ None ∨ waits (c_world st) p ∨ P p) (c_background st).
Proof.
  intros Hr Hs Hnf HP.
  pose proof (reachable_calls_known (FrameWriterOk0 := writer_task_frame_writer_ok cfg)
    _ _ _ _ Hr Hs) as Hk.
  unfold calls_known, programs in Hk. rewrite Forall_app, Forall_fmap in Hk.
  destruct Hk as [Htk Hbk]. rewrite Forall_forall in Htk. rewrite Forall_forall in Hbk.
  assert (Hstuck : ∀ p, sending_ok (next_call (FrameWriter0 := writer_task_frame_writer cfg)
      (c_world st)) p → ended p = None →
    (∀ v' p' qs, ¬ pstep (FrameWriter0 := writer_task_frame_writer cfg) (c_world st) p v' p' qs) →
    waits (c_world st) p ∨ P p).
  { intros p Hok He Hst. destruct (stuck_waits _ p Hok He Hst) as [?|(t & k & s & -> & ? & ?)];
      [by left|right]. by eapply HP. }
  split; apply Forall_forall.
  - intros t Ht. pose proof (Htk _ Ht) as Hok. apply list_elem_of_split in Ht as (ts1 & ts2 & Ht).
    apply Hstuck; [done| |].
    + destruct (ended (t_prog t)) as [b|] eqn:He; [|done]. destruct Hnf.
      eexists. split; [by apply (bz_end cfg st t ts1 ts2 b)|done].
    + intros v' p' qs Hst. destruct Hnf. eexists.
      split; [by eapply bz_task|]. cbn. by eapply pstep_writing.
  - intros p Hp. pose proof (Hbk _ Hp) as Hok. destruct (ended p) eqn:He; [by left|right].
    apply list_elem_of_split in Hp as (ps1 & ps2 & Hp).
    apply Hstuck; [done..|]. intros v' p' qs Hst. destruct Hnf. eexists.
    split; [by eapply bz_background|]. cbn. by eapply pstep_writing.
Qed.

Lemma free_busy_writer st : nf (free_busy cfg) st → nf (free_step cfg) (out (c_world st)).
Proof.
  intros Hnf [o [Ho Hw]]. apply Hnf. eexists. split; [by apply bz_writer|]. done.
Qed.

Lemma busy_stalled st :
  reg_safe r →
  client_reachable (FrameWriter0 := writer_task_frame_writer cfg) r max (fresh_wsys w) st →
  nf (free_busy cfg) st → writing (out (c_world st)) → stalled st.
Proof.
  intros Hr Hs Hnf Hw. pose proof (stalled_calls _ _ (free_busy_writer _ Hnf) Hw) as Hcalls.
  destruct (idle_programs st (held cfg (c_world st))) as [Ht Hb]; try done.
  intros t k s Hts Hno. exists t, k, s. split_and!; [done..|].
  rewrite Forall_lookup in Hcalls. by destruct (Hcalls _ _ Hts).
Qed.

Lemma busy_rest st :
  reg_safe r → spawn_writer_task w cfg = Some (fresh_wsys w) →
  client_reachable (FrameWriter0 := writer_task_frame_writer cfg) r max (fresh_wsys w) st →
  nf (free_busy cfg) st → ¬ writing (out (c_world st)) → resting st.
Proof.
  intros Hr Hsp Hs Hnf Hw.
  destruct (client_runs_writer cfg r max (fresh_wsys w) st Hr eq_refl Hs) as [Hrun _].
  assert (Hi : w_inv (written w) (out (c_world st))).
  { apply (reachable_inv cfg). by exists (fresh_wsys w). }
  destruct (work_progress cfg (written w) (out (c_world st)) (spawned_capacity _ _ _ Hsp) Hi)
    as [Hall Hrest]; [by apply free_not_writing; [apply free_busy_writer|]|].
  destruct (idle_programs st (λ _, False)) as [Ht Hb]; try done.
  { intros t k s Hts Hno. unfold all_returned in Hall. rewrite Forall_lookup in Hall.
    destruct Hno. by apply (Hall t). }
  split; [| |done|by apply rest_drained].
  - eapply Forall_impl; [exact Ht|]. by intros t [?|[]].
  - eapply Forall_impl; [exact Hb|]. intros p [?|[?|[]]]; by auto.
Qed.

Lemma busy_not_writing st :
  reg_safe r →
  client_reachable (FrameWriter0 := writer_task_frame_writer cfg) r max (fresh_wsys w) st →
  spawn_writer_task w cfg = Some (fresh_wsys w) →
  nf (busy_step cfg) st → ¬ writing (out (c_world st)).
Proof.
  intros Hr Hs Hsp Hnf.
  destruct (client_runs_writer cfg r max (fresh_wsys w) st Hr eq_refl Hs) as [Hrun _].
  eapply writing_moves; [apply (reachable_inv cfg); by exists (fresh_wsys w)|].
  intros [o Ho]. apply Hnf. eexists. by apply bz_writer.
Qed.

Lemma busy_reachable st st' :
  client_reachable (FrameWriter0 := writer_task_frame_writer cfg) r max (fresh_wsys w) st →
  rtc (busy_step cfg) st st' →
  client_reachable (FrameWriter0 := writer_task_frame_writer cfg) r max (fresh_wsys w) st'.
Proof.
  intros Hs Hrun. unfold client_reachable in *. etrans; [exact Hs|]. clear Hs.
  eapply rtc_subrel; [|exact Hrun]. intros s1 s2 Hst%(busy_own cfg r). by apply own_step_cstep.
Qed.
End Rest.

(** ** Properties *)


Section Demo.
#[local] Existing Instance string_errors.
#[local] Existing Instance text_serialize.

(** One request has arrived. *)
Definition rest_state : client (wsys ScriptWriter) :=
  dispatch_frame demo_registry (demo_req 1 7) (start_client 2 (fresh_wsys empty_pipe)).

End Demo.
