(* ===== verification/Answered.v ===== *)
(** * Every request is answered (src/handler/context.rs, src/client.rs)

    [Quiesce] says that the client comes to rest; here is what a request has
    got by then.  If every path of its handler ends it or fails, and what it
    sends can be encoded, the request has exactly one terminal frame in the
    end, whatever the schedule; only a handler that waits for ever, a call of
    [send] that gave up, a pipe that takes nothing more, or a frame the parent
    refuses keeps it from the parent. *)

From S2P Require Import Prelude Errors WireFormat Frame FrameBuffer Codec Writer WriterTask Program.
From S2P Require Import WriterLive Init Context Registry Client Completion WriterImpl EndToEnd.
From S2P Require Import Delivery Quiesce.

(** ** What a program does with a flag *)
Section Programs.
Context `{TP : ThirdParty}.
Implicit Types (p q : prog).

(** Whoever takes the flag [l] sends a terminal frame next. *)
Inductive takes (l : loc) : prog → Prop :=
| tk_ret r : takes l (Ret r)
| tk_panic : takes l Panic
| tk_hang : takes l Hang
| tk_swap_other l' k : l' ≠ l → (∀ b, takes l (k b)) → takes l (Swap l' k)
| tk_swap k f k' :
    takes l (k true) → k false = SendFrame l f k' → is_terminal f → (∀ r, takes l (k' r)) →
    takes l (Swap l k)
| tk_load l' k : (∀ b, takes l (k b)) → takes l (Load l' k)
| tk_cancel l' k : l' ≠ l → takes l k → takes l (Cancel l' k)
| tk_await l' k : takes l k → takes l (Await l' k)
| tk_send l' f k : (∀ r, takes l (k r)) → takes l (SendFrame l' f k)
| tk_sending t k : (∀ r, takes l (k r)) → takes l (Sending t k)
| tk_input k : (∀ n, takes l (k n)) → takes l (Input k)
| tk_fork p k : takes l p → takes l k → takes l (Fork p k).

(** Every way the program ends, the flag [l] is set or the result satisfies
    [R]; it does not panic. *)
Inductive ends (l : loc) (R : Result unit → Prop) : prog → Prop :=
| en_ret r : R r → ends l R (Ret r)
| en_hang : ends l R Hang
| en_taken k : ends l R (Swap l k)
| en_swap l' k : (∀ b, ends l R (k b)) → ends l R (Swap l' k)
| en_asked k : ends l R (k false) → ends l R (Load l k)
| en_load l' k : (∀ b, ends l R (k b)) → ends l R (Load l' k)
| en_cancel l' k : ends l R k → ends l R (Cancel l' k)
| en_await l' k : ends l R k → ends l R (Await l' k)
| en_send l' f k : (∀ r, ends l R (k r)) → ends l R (SendFrame l' f k)
| en_sending t k : (∀ r, ends l R (k r)) → ends l R (Sending t k)
| en_input k : (∀ n, ends l R (k n)) → ends l R (Input k)
| en_fork p k : ends l R k → ends l R (Fork p k).
#[local] Hint Constructors takes ends : procwire.

Lemma takes_bind l p k : takes l p → (∀ r, takes l (k r)) → takes l (pbind p k).
Proof.
  intros Hp Hk. induction Hp as [| | | |k0 f k' _ IHt Hf Ht _ IHs| | | | | | |]; cbn [pbind];
    auto with procwire.
  eapply tk_swap; [done|by rewrite Hf|done|]. intros r. apply IHs.
Qed.

Lemma ends_bind l R R' p k :
  ends l R p → (∀ r, R r → ends l R' (k r)) → ends l R' (pbind p k).
Proof. intros Hp Hk. induction Hp; cbn [pbind]; auto with procwire. Qed.

(** Programs that leave the flag alone. *)
Lemma actions_takes P (Q : loc → Prop) l p : actions_ok P Q p → ¬ Q l → takes l p.
Proof.
  intros Hp Hl. induction Hp; auto with procwire.
  - apply tk_swap_other; [by intros ->|done].
  - apply tk_cancel; [by intros ->|done].
Qed.

(** ** The methods of a context *)

Lemma send_frame_takes c fl pl l : takes l (send_frame c fl pl).
Proof. unfold send_frame. destruct (ctx_writer c); auto with procwire. Qed.

Lemma chunk_call_takes c p body l : chunk_call c p body → takes l p.
Proof.
  intros ->%chunk_call_shape. destruct body; cbn; auto using send_frame_takes with procwire.
Qed.

(** A terminal call sends when its payload can be encoded. *)
Lemma terminal_call_takes c p fl d l :
  ctx_writer c = true → terminal_call c p fl (Ok d) → takes l p.
Proof.
  intros Hw Hc. assert (Hfl : is_terminal (new_outbound (new_header (ctx_method_id c) fl
    (ctx_request_id c) (wrap 32 (zlen d))) d)).
  { inversion Hc; subst; unfold is_terminal; rewrite ob_flags_new; cbn [hflags];
      try done; unfold error_flags; by case_decide. }
  rewrite (terminal_call_shape _ _ _ _ Hc). unfold ptry, mark_responded. cbn [pbind try_ok].
  unfold send_frame. rewrite Hw. destruct (decide (ctx_responded c = l)) as [<-|Hne].
  - eapply tk_swap; cbn [pbind]; [constructor|reflexivity|done|auto with procwire].
  - apply tk_swap_other; [done|]. intros []; cbn [pbind]; auto with procwire.
Qed.

Lemma terminal_call_ends c p fl body R : terminal_call c p fl body → ends (ctx_responded c) R p.
Proof. intros ->%terminal_call_shape. apply en_taken. Qed.

Lemma send_frame_ends c fl pl l : ends l (λ _, True) (send_frame c fl pl).
Proof. unfold send_frame. destruct (ctx_writer c); auto with procwire. Qed.

Lemma chunk_call_ends c p body l : chunk_call c p body → ends l (λ _, True) p.
Proof.
  intros ->%chunk_call_shape. destruct body; cbn; auto using send_frame_ends with procwire.
Qed.

(** ** Handlers *)

Definition failed (r : Result unit) : Prop := match r with Ok _ => False | Err _ => True end.

(** On every path the program answers the request or fails. *)
Record answering (c : RequestContext) p : Prop := {
  an_takes : takes (ctx_responded c) p;
  an_ends : ends (ctx_responded c) failed p
}.

(** Whatever a request of method [id] carries. *)
Definition always_answers (r : HandlerRegistry) (id : u16) : Prop :=
  ∀ pl c, ctx_writer c = true → ctx_token c ≠ ctx_responded c → answering c (dispatch r id pl c).

(** Texts can be encoded: [rmp_serde] fails on a string only when its output
    does, and a [Vec] takes everything. *)
Definition texts_encode `{!Serialize string} : Prop :=
  ∀ s : string, ∃ d, msgpack_encode s = Ok d.

Lemma handler_task_takes `{!Serialize string} r id pl c :
  texts_encode → ctx_writer c = true → ctx_token c ≠ ctx_responded c → always_answers r id →
  takes (ctx_responded c) (handler_task r id pl c).
Proof.
  intros Hs Hw Hc Ha. apply takes_bind; [by apply Ha|]. intros [[]|e]; [constructor|].
  apply tk_load. intros []; [constructor|]. apply takes_bind; [|constructor].
  destruct (Hs (error_to_string e)) as [d Hd].
  eapply terminal_call_takes; [done|]. rewrite <- Hd. constructor.
Qed.

Lemma handler_task_ends `{!Serialize string} r id pl c :
  ctx_writer c = true → ctx_token c ≠ ctx_responded c → always_answers r id →
  ends (ctx_responded c) (λ _, False) (handler_task r id pl c).
Proof.
  intros Hw Hc Ha. eapply ends_bind; [by apply Ha|]. intros [[]|e] He; [done|].
  apply en_asked. eapply (ends_bind _ (λ _, False)); [|done].
  eapply terminal_call_ends. constructor.
Qed.

(** An id nobody has registered is answered with an error. *)
Lemma unknown_answers r id : get_handler_by_id r id = None → always_answers r id.
Proof. intros Hn pl c _ _. unfold dispatch. rewrite Hn. split; [constructor|by apply en_ret]. Qed.
End Programs.

(** ** Pools *)
Section Pools.
Context `{TP : ThirdParty} {W : Type} `{!FrameWriter W}.
Implicit Types (w : world W) (p : prog) (ps : list prog).

(** A flag that is set has been taken to send: the frame has been handed to
    the writer, or is about to be. *)
Definition sent_if_taken (l : loc) w ps : Prop :=
  cell w l = true →
  terminals l (sends w) ≠ [] ∨ Exists (λ p, about_to_send l p ≠ 0%nat) ps.

Lemma sent_if_taken_perm l w ps ps' : ps ≡ₚ ps' → sent_if_taken l w ps → sent_if_taken l w ps'.
Proof. intros Hp Hs Hc. destruct (Hs Hc) as [?|He]; [by left|right]. by rewrite <- Hp. Qed.

(** Programs that are not about to send can come and go. *)
Lemma sent_if_taken_drop l w p ps :
  about_to_send l p = 0%nat → sent_if_taken l w (p :: ps) → sent_if_taken l w ps.
Proof.
  intros Hp Hs Hc. destruct (Hs Hc) as [?|[?|He]%Exists_cons]; [by left|done|by right].
Qed.

Lemma sent_if_taken_app l w ps qs : sent_if_taken l w ps → sent_if_taken l w (ps ++ qs).
Proof.
  intros Hs Hc. destruct (Hs Hc) as [?|He]; [by left|right]. apply Exists_app. by left.
Qed.

(** The state changes somewhere else. *)
Lemma sent_if_taken_world l w w' ps :
  cell w' l = cell w l → sends w' = sends w → sent_if_taken l w ps → sent_if_taken l w' ps.
Proof. unfold sent_if_taken. by intros -> ->. Qed.

Lemma pstep_takes l w p w' p' qs rest :
  pstep w p w' p' qs → takes l p → sent_if_taken l w (p :: rest) →
  takes l p' ∧ Forall (takes l) qs ∧ sent_if_taken l w' (p' :: rest ++ qs).
Proof.
  intros Hst Ht Hs.
  assert (Hother : ∀ w1, cell w1 l = cell w l → sends w1 = sends w → about_to_send l p = 0%nat →
    sent_if_taken l w1 (p' :: rest ++ qs)).
  { intros w1 Hc Hl H0. apply (sent_if_taken_perm _ _ (rest ++ qs ++ [p'])).
    { rewrite app_assoc. by rewrite (Permutation_app_comm _ [p']). }
    apply sent_if_taken_app. eapply sent_if_taken_world; [done..|].
    by eapply sent_if_taken_drop. }
  destruct Hst as [l1 k|l1 k|l1 k|l1 k Hc|l1 f k|t k r Hc|n k|q k]; inversion Ht; subst;
    split_and!; auto; try (by apply Hother).
  - apply Hother; [by apply cell_set_ne|done|done].
  - destruct (cell w l1); [done|]. match goal with H : k false = _ |- _ => rewrite H end.
    by constructor.
  - destruct (cell w l1) eqn:Hc.
    + apply Hother; [by rewrite cell_set_same|done|done].
    + intros _. right. apply Exists_cons. left.
      match goal with H : k false = _ |- _ => rewrite H end. cbn [about_to_send].
      unfold terminals, sent_by. cbn. rewrite decide_True by done. cbn.
      by rewrite decide_True.
  - apply Hother; [by apply cell_set_ne|done|done].
  - by constructor.
  - intros Hc. cbn [begin_send sends]. rewrite terminals_app.
    destruct (Hs Hc) as [Hterm|[Ha|He]%Exists_cons].
    + left. by destruct (terminals l (sends w)).
    + left. cbn [about_to_send] in Ha. destruct (terminals l [(l1, f)]); [done|].
      by destruct (terminals l (sends w)).
    + right. apply Exists_cons. right. apply Exists_app. by left.
Qed.

Lemma pstep_ends l w p w' p' qs :
  pstep w p w' p' qs → ends l (λ _, False) p → cell w' l = true ∨ ends l (λ _, False) p'.
Proof.
  intros Hst He. destruct Hst; inversion He; subst; auto.
  - left. apply cell_set_same.
  - destruct (cell w l0) eqn:Hc; [by left|]. by right.
  - right. by constructor.
Qed.
End Pools.

(** ** In the client *)
Section Client.
Context `{TP : ThirdParty} `{!Serialize string} {W : Type} `{!FrameWriter W}.
Implicit Types (st : client W) (c : RequestContext).

(** *** Flags and tokens are different cells: tokens are odd, flags even *)
Record cells_split st : Prop := {
  cs_next : Nat.Odd (c_next st);
  cs_active id l : c_active st !! id = Some l → Nat.Odd l;
  cs_requests :
    Forall (λ c, ctx_writer c = true ∧ Nat.Odd (ctx_token c) ∧ Nat.Even (ctx_responded c))
      (c_requests st)
}.

Lemma odd_ne_even n m : Nat.Odd n → Nat.Even m → n ≠ m.
Proof. intros [a ->] [b ->]. lia. Qed.

(** The context of a request that gets a permit. *)
Definition arriving r (f : Frame) st : RequestContext :=
  with_writer_and_token (method_id (header f)) (request_id (header f))
    (default RtResult (get_response_type_by_id r (method_id (header f))))
    (c_next st) (S (c_next st)).

(** What a dispatched frame is: an ABORT that finds a token, a request with a
    permit, or nothing. *)
Lemma dispatch_kinds r f st :
  (∃ id l, c_active st !! id = Some l
     ∧ dispatch_frame r f st = set_world (set_cell l (c_world st)) st)
  ∨ dispatch_frame r f st = st
  ∨ (c_requests (dispatch_frame r f st) = c_requests st ++ [arriving r f st]
     ∧ c_world (dispatch_frame r f st) = alloc_cells (c_next st) (S (c_next st)) (c_world st)
     ∧ c_next (dispatch_frame r f st) = S (S (c_next st))
     ∧ c_active (dispatch_frame r f st) = <[request_id (header f) := c_next st]> (c_active st)
     ∧ c_background (dispatch_frame r f st) = c_background st
     ∧ ∃ t, c_tasks (dispatch_frame r f st) = c_tasks st ++ [t] ∧ t_ctx t = arriving r f st
         ∧ t_prog t = handler_task r (method_id (header f)) (payload f) (arriving r f st)).
Proof.
  unfold dispatch_frame. destruct (_ =? ABORT_METHOD_ID).
  { destruct (c_active st !! _) as [l|] eqn:Hl; [left; eauto|by right; left]. }
  destruct (_ =? AUTH_METHOD_ID); [by right; left|]. destruct (is_response _); [by right; left|].
  destruct (c_permits st) as [|permits]; [by right; left|].
  right. right. split_and!; try done. by eexists.
Qed.

Lemma start_cells_split max (o : W) : cells_split (start_client max o).
Proof. split; cbn; [by exists 0%nat|done|constructor]. Qed.

Lemma cells_split_same st st' :
  c_next st' = c_next st → c_active st' ⊆ c_active st → c_requests st' = c_requests st →
  cells_split st → cells_split st'.
Proof.
  intros Hn Ha Hr [H1 H2 H3]. split; rewrite ?Hn, ?Hr; try done.
  intros id l Hl. eapply H2. by eapply lookup_weaken.
Qed.

Lemma cstep_cells_split r st st' : cstep r st st' → cells_split st → cells_split st'.
Proof.
  intros Hst Hi. destruct Hst as [f Hf|t ts1 ts2 w p qs Ht Hp|t ts1 ts2 res Ht Hp
    |t ts1 ts2 Ht Hp|p p' ps1 ps2 w qs Hb Hp|p Hp|o Ho];
    try (by apply (cells_split_same st)).
  - destruct (dispatch_kinds r f st) as [(id & l & _ & ->)|[->|(Hr & _ & Hn & Ha & _)]];
      [by apply (cells_split_same st)|done|].
    destruct Hi as [[n H1] H2 H3]. split; rewrite ?Hr, ?Hn, ?Ha.
    + exists (S n). lia.
    + intros id l [[<- <-]|[_ Hl]]%lookup_insert_Some; [by exists n|by eapply H2].
    + apply Forall_app_2; [done|]. apply Forall_singleton. cbn. split_and!; [done|by exists n|].
      exists (S n). lia.
  - apply (cells_split_same st); try done. cbn. apply delete_subseteq.
Qed.

Lemma reachable_cells_split r max o st : client_reachable r max o st → cells_split st.
Proof.
  intros Hs. unfold client_reachable in Hs.
  apply (rtc_ind_r cells_split (start_client max o)) in Hs; [done|apply start_cells_split|].
  intros. by eapply cstep_cells_split.
Qed.

(** *** The state of one request *)
Record answer_inv c st : Prop := {
  ai_takes : Forall (takes (ctx_responded c)) (programs st);
  ai_sent : sent_if_taken (ctx_responded c) (c_world st) (programs st);
  ai_task :
    cell (c_world st) (ctx_responded c) = true
    ∨ ∃ t, t ∈ c_tasks st ∧ t_ctx t = c ∧ ends (ctx_responded c) (λ _, False) (t_prog t)
}.

(** A program that takes no step comes. *)
Lemma answer_inv_join c st st' news :
  c_tasks st ⊆ c_tasks st' → programs st' ≡ₚ programs st ++ news →
  Forall (takes (ctx_responded c)) news →
  cell (c_world st') (ctx_responded c) = cell (c_world st) (ctx_responded c) →
  sends (c_world st') = sends (c_world st) → answer_inv c st → answer_inv c st'.
Proof.
  intros Htasks Hp Hnews Hc Hs [H1 H2 H3]. split.
  - rewrite Hp. by apply Forall_app_2.
  - apply (sent_if_taken_perm _ _ (programs st ++ news)); [by rewrite Hp|].
    apply sent_if_taken_app. by apply (sent_if_taken_world _ (c_world st)).
  - rewrite Hc. destruct H3 as [?|(t & Ht & ? & ?)]; [by left|right].
    exists t. split_and!; [by apply Htasks|done..].
Qed.

(** A program makes a step; it may be that of the request's task. *)
Lemma answer_inv_step c st st' p w p' qs rest :
  pstep (c_world st) p w p' qs → programs st ≡ₚ p :: rest → programs st' ≡ₚ p' :: rest ++ qs →
  c_world st' = w →
  (∀ t, t ∈ c_tasks st →
     t ∈ c_tasks st' ∨ (t_prog t = p ∧ ∃ t', t' ∈ c_tasks st' ∧ t_ctx t' = t_ctx t ∧ t_prog t' = p')) →
  answer_inv c st → answer_inv c st'.
Proof.
  intros Hst Hp Hp' <- Htasks [H1 H2 H3]. rewrite Hp in H1. apply Forall_cons in H1 as [Ht Hrest].
  apply (sent_if_taken_perm _ _ _ _ Hp) in H2.
  destruct (pstep_takes _ _ _ _ _ _ _ Hst Ht H2) as (Ht' & Hqs & Hs). split.
  - rewrite Hp'. constructor; [done|]. by apply Forall_app_2.
  - by apply (sent_if_taken_perm _ _ (p' :: rest ++ qs)).
  - destruct H3 as [Hc|(t & Hin & Hctx & He)]; [left; by eapply pstep_cell|].
    destruct (Htasks t Hin) as [Hin'|(<- & t' & Hin' & Hctx' & Hprog)].
    + right. exists t. by split_and!.
    + destruct (pstep_ends _ _ _ _ _ _ Hst He) as [?|He']; [by left|right].
      exists t'. split_and!; [done|congruence|by rewrite Hprog].
Qed.

(** A task ends. *)
Lemma answer_inv_finish c b t ts1 ts2 st :
  c_tasks st = ts1 ++ t :: ts2 → (t_prog t = Panic ∨ ∃ res, t_prog t = Ret res) →
  answer_inv c st → answer_inv c (finish_task b t ts1 ts2 st).
Proof.
  intros Ht Hend [H1 H2 H3]. pose proof (finish_task_programs b t ts1 ts2 st Ht) as Hp. split.
  - rewrite Hp in H1. by apply Forall_cons in H1 as [_ ?].
  - eapply sent_if_taken_drop; [|eapply sent_if_taken_perm; [exact Hp|exact H2]].
    by destruct Hend as [->|[res ->]].
  - destruct H3 as [?|(t' & Hin & Hctx & He)]; [by left|right]. exists t'. split; [|done].
    rewrite Ht in Hin. cbn. rewrite elem_of_app in Hin |- *. rewrite elem_of_cons in Hin.
    destruct Hin as [?|[->|?]]; [by left| |by right].
    exfalso. destruct Hend as [Hend|[res Hend]]; rewrite Hend in He; by inversion He.
Qed.

Lemma arriving_actions r f st :
  reg_safe r →
  ctx_actions (arriving r f st) (handler_task r (method_id (header f)) (payload f) (arriving r f st)).
Proof. apply handler_task_actions. Qed.

(** Another request arrives, or a frame that is none. *)
Lemma answer_inv_dispatch c r f st :
  reg_safe r → frames_inv st → cells_split st → c ∈ c_requests st →
  answer_inv c st → answer_inv c (dispatch_frame r f st).
Proof.
  intros Hr Hi [Hodd Hact Hreq] Hc Hinv. rewrite Forall_forall in Hreq.
  destruct (Hreq _ Hc) as (_ & _ & Heven).
  destruct Hi as [_ _ _ _ F5 _ _]. rewrite Forall_forall in F5. destruct (F5 _ Hc) as [_ Hlt].
  destruct (dispatch_kinds r f st) as [(id & l & Hl & ->)|[->|(_ & Hw & _ & _ & Hb & t & Ht & _ & Hp)]].
  - pose proof (odd_ne_even _ _ (Hact _ _ Hl) Heven).
    apply (answer_inv_join c st _ []); cbn; rewrite ?app_nil_r; try done. by apply cell_set_ne.
  - done.
  - eapply (answer_inv_join c st _ [t_prog t]); [|..|exact Hinv].
    + rewrite Ht. intros x Hx. apply elem_of_app. by left.
    + unfold programs. rewrite Hb, Ht, fmap_app. cbn.
      rewrite <- !app_assoc. by rewrite (Permutation_app_comm _ (c_background st)).
    + apply Forall_singleton. rewrite Hp. eapply actions_takes; [by apply arriving_actions|].
      cbn. lia.
    + rewrite Hw, cell_alloc, decide_False by lia. done.
    + by rewrite Hw.
Qed.

(** The request itself arrives. *)
Lemma answer_inv_arrival r f st :
  reg_safe r → texts_encode → frames_inv st → cells_split st →
  always_answers r (method_id (header f)) →
  arriving r f st ∈ c_requests (dispatch_frame r f st) →
  arriving r f st ∉ c_requests st →
  answer_inv (arriving r f st) (dispatch_frame r f st).
Proof.
  intros Hr Htx Hi [Hodd _ _] Ha Hin Hnew. destruct Hi as [_ F2 F3 F4 _ _ _].
  destruct (dispatch_kinds r f st) as [(id & l & _ & Heq)|[Heq|(_ & Hw & _ & _ & Hb & t & Ht & Hctx & Hp)]];
    [by rewrite Heq in Hin|by rewrite Heq in Hin|].
  set (c := arriving r f st) in *.
  assert (Hne : ctx_token c ≠ ctx_responded c) by (cbn; lia).
  assert (Hcell : cell (c_world (dispatch_frame r f st)) (ctx_responded c) = false).
  { rewrite Hw, cell_alloc, decide_True by (right; done). done. }
  split.
  - unfold programs. rewrite Hb, Ht, fmap_app, <- app_assoc, Forall_app. cbn [fmap list_fmap app].
    rewrite Forall_cons. unfold programs in F2. rewrite Forall_app in F2. destruct F2 as [F2 F2'].
    assert (Hold : ∀ p, actions_ok (attributed st) (λ l, (l < c_next st)%nat) p →
      takes (ctx_responded c) p).
    { intros p Hok. eapply actions_takes; [exact Hok|]. cbn. lia. }
    split_and!; [by eapply Forall_impl| |by eapply Forall_impl].
    rewrite Hp. by apply handler_task_takes.
  - intros Hc. by rewrite Hcell in Hc.
  - right. exists t. split_and!; [rewrite Ht; set_solver|done|].
    rewrite Hp. by apply handler_task_ends.
Qed.

Lemma cstep_answer_inv c r st st' :
  reg_safe r → texts_encode → frames_inv st → cells_split st → cstep r st st' →
  always_answers r (ctx_method_id c) → (c ∈ c_requests st → answer_inv c st) →
  c ∈ c_requests st' → answer_inv c st'.
Proof.
  intros Hr Htx Hi Hsp Hst Ha Hinv Hc. destruct Hst as [f Hf|t ts1 ts2 w p qs Ht Hp|t ts1 ts2 res Ht Hp
    |t ts1 ts2 Ht Hp|p p' ps1 ps2 w qs Hb Hp|p Hp|o Ho].
  - destruct (decide (c ∈ c_requests st)) as [Hold|Hnew]; [by apply answer_inv_dispatch; auto|].
    assert (c = arriving r f st) as ->.
    { destruct (dispatch_kinds r f st) as [(?&?&?&Heq)|[Heq|[Heq _]]]; rewrite Heq in Hc; [done..|].
      apply elem_of_app in Hc as [?|?%list_elem_of_singleton]; done. }
    by apply answer_inv_arrival.
  - eapply answer_inv_step; [exact Hp|by apply programs_task|apply with_program_programs|done| |by auto].
    intros t' Hin. rewrite Ht in Hin. cbn.
    apply elem_of_app in Hin as [Hin|[->|Hin]%elem_of_cons].
    + left. apply elem_of_app. by left.
    + right. split; [done|]. eexists. split; [apply elem_of_app; right; by left|done].
    + left. apply elem_of_app. right. by right.
  - apply answer_inv_finish; [done|by eauto|by auto].
  - apply answer_inv_finish; [done|by eauto|by auto].
  - eapply answer_inv_step; [exact Hp|by apply background_programs| |done| |by auto].
    + unfold programs. cbn. rewrite !app_assoc, <- (app_assoc _ ps2).
      by rewrite <- Permutation_middle, !app_assoc.
    + intros t' Hin. by left.
  - apply (answer_inv_join c st _ [p]); [done| | |done..|by auto].
    + unfold programs. cbn. by rewrite app_assoc.
    + apply Forall_singleton. eapply (actions_takes (λ _ _, True) (λ _, False)); [|tauto].
      by eapply emit_actions.
  - apply (answer_inv_join c st _ []); rewrite ?app_nil_r; by auto.
Qed.

Lemma reachable_answer_inv r max o st c :
  reg_safe r → texts_encode → client_reachable r max o st → c ∈ c_requests st →
  always_answers r (ctx_method_id c) → answer_inv c st.
Proof.
  intros Hr Htx Hs Hc Ha. revert Hc. unfold client_reachable in Hs.
  apply (rtc_ind_r (λ st, client_reachable r max o st ∧ (c ∈ c_requests st → answer_inv c st))
    (start_client max o)) in Hs; [by apply Hs|split; [apply rtc_refl|by intros ?%elem_of_nil]|].
  clear st Hs. intros st st' _ Hst [Hreach IH]. split; [by eapply rtc_r|].
  eapply cstep_answer_inv; [done..| | |exact Hst|done|done].
  - by eapply reachable_frames_inv.
  - by eapply reachable_cells_split.
Qed.
End Client.

(** ** At rest *)
Section Rest.
Context `{TP : ThirdParty} `{!Serialize string} {W : Type} `{!AsyncWrite W} `{!AsyncWriteOk W}.
Variables (cfg : WriterConfig) (r : HandlerRegistry) (max : nat) (w : W).
#[local] Existing Instance writer_task_frame_writer.
#[local] Existing Instance writer_task_frame_writer_ok.
Implicit Types (st : client (wsys W)) (c : RequestContext).

(** The request has been given one terminal frame, whose call of [send] has
    returned [x]; after [Ok] the frame is among those accepted. *)
Definition answered st c (x : Result unit) : Prop :=
  ∃ i f, sends (c_world st) !! i = Some (ctx_responded c, f)
    ∧ terminals (ctx_responded c) (sends (c_world st)) = [f]
    ∧ call_result (FrameWriter0 := writer_task_frame_writer cfg) (c_world st) i = Some x
    ∧ (x = Ok tt → f ∈ w_accepted (out (c_world st))).

(** The same while the call may still be waiting: its frame and the call. *)
Definition handed st c (s : sender) : Prop :=
  ∃ i f, sends (c_world st) !! i = Some (ctx_responded c, f)
    ∧ terminals (ctx_responded c) (sends (c_world st)) = [f]
    ∧ w_senders (out (c_world st)) !! i = Some s.

(** Exactly one accepted frame ends the request, and a parent reading what is
    on the pipe gets it, together with all frames in front of it, unless one of
    those is over its limit. *)
Definition parent_has_answer st c : Prop :=
  Forall ob_fits (w_accepted (out (c_world st))) →
  ∃ before g after, w_accepted (out (c_world st)) = ob_of <$> before ++ g :: after
    ∧ answers (ctx_request_id c) g ∧ filter (answers (ctx_request_id c)) (before ++ after) = []
    ∧ ∀ pmax, ¬ Exists (over_limit pmax) (ob_of <$> before ++ [g]) →
        ∃ more rest e, parse pmax (written (w_sink (out (c_world st)))) = (before ++ g :: more, rest, e)
          ∧ more `prefix_of` after.

Lemma terminals_elem l f log : f ∈ terminals l log → is_terminal f ∧ ∃ i, log !! i = Some (l, f).
Proof.
  unfold terminals, sent_by. intros [Ht Hin]%list_elem_of_filter. split; [done|].
  apply list_elem_of_omap in Hin as ([l' g] & Hin & Heq). cbn in Heq. case_decide; simplify_eq.
  by apply list_elem_of_lookup.
Qed.

(** A busy step brings no request. *)
Lemma busy_requests st st' : rtc (busy_step cfg) st st' → c_requests st' = c_requests st.
Proof. induction 1 as [|s1 s2 s3 Hst _ ->]; [done|]. by destruct Hst. Qed.

Lemma terminal_at_rest st c (P : prog → Prop) :
  (∀ p l, P p → about_to_send l p = 0%nat) →
  Forall (λ t, waits (c_world st) (t_prog t) ∨ P (t_prog t)) (c_tasks st) →
  Forall (λ p, ended p ≠ None ∨ waits (c_world st) p ∨ P p) (c_background st) →
  frames_inv st → answer_inv c st →
  (∃ t, t ∈ c_tasks st ∧ t_ctx t = c ∧ (waits (c_world st) (t_prog t) ∨ P (t_prog t)))
  ∨ ∃ f, terminals (ctx_responded c) (sends (c_world st)) = [f].
Proof.
  intros HP Rt Rb [F1 _ _ _ _ _ _] [_ Hsent Htask].
  rewrite Forall_forall in Rt. rewrite Forall_forall in Rb.
  destruct Htask as [Hc|(t & Hin & Hctx & _)]; [|left; exists t; by auto]. right.
  assert (Hquiet : ∀ p, p ∈ programs st → about_to_send (ctx_responded c) p = 0%nat).
  { intros p [Hp|Hp]%elem_of_app.
    - apply list_elem_of_fmap in Hp as (t & -> & Hin). destruct (Rt _ Hin) as [[]|?]; by auto.
    - destruct (Rb _ Hp) as [He|[[]|?]]; [|done..|by auto]. by destruct p. }
  destruct (Hsent Hc) as [Hne|(p & Hin & Hp)%Exists_exists]; [|by destruct Hp; apply Hquiet].
  destruct (F1 (ctx_responded c)) as [_ Hrule]. cbn [fst snd] in Hrule. rewrite Hc in Hrule.
  destruct (terminals _ _) as [|f [|g gs]]; [done|by exists f|]. cbn in Hrule. lia.
Qed.

(** The [i]-th frame of the history is that of the [i]-th call. *)
Lemma history_call st i l f :
  client_reachable (FrameWriter0 := writer_task_frame_writer cfg) r max (fresh_wsys w) st →
  sends (c_world st) !! i = Some (l, f) →
  ∃ s, w_senders (out (c_world st)) !! i = Some s ∧ s_frame s = f.
Proof.
  intros Hs Hi.
  pose proof (reachable_calls (FrameWriterOk0 := writer_task_frame_writer_ok cfg) _ _ _ _ Hs)
    as Hcalls. cbn in Hcalls.
  assert (Hl : (sends (c_world st)).*2 !! i = Some f) by (by rewrite list_lookup_fmap, Hi).
  rewrite <- Hcalls, <- list_fmap_compose, list_lookup_fmap in Hl.
  destruct (w_senders _ !! i) as [s|]; [|done]. cbn in Hl. exists s. split; [done|congruence].
Qed.

Lemma handed_terminal st c f :
  client_reachable (FrameWriter0 := writer_task_frame_writer cfg) r max (fresh_wsys w) st →
  terminals (ctx_responded c) (sends (c_world st)) = [f] →
  ∃ s, handed st c s ∧ s_frame s = f.
Proof.
  intros Hs Hterm.
  destruct (terminals_elem (ctx_responded c) f (sends (c_world st))) as [_ [i Hi]];
    [rewrite Hterm; by left|].
  destruct (history_call _ _ _ _ Hs Hi) as (s & Hsi & Hf).
  exists s. split; [|done]. by exists i, f.
Qed.

Lemma answered_returned st c s :
  client_reachable (FrameWriter0 := writer_task_frame_writer cfg) r max (fresh_wsys w) st →
  w_inv (written w) (out (c_world st)) → handed st c s → returned s → ∃ x, answered st c x.
Proof.
  intros Hs [_ _ _ _ Hacc _] (i & f & Hi & Hterm & Hsi) [x Hx].
  destruct (history_call _ _ _ _ Hs Hi) as (s' & Hsi' & Hf).
  rewrite Hsi in Hsi'. injection Hsi' as <-. exists x, i, f. split_and!; [done..| |].
  - unfold call_result. cbn. rewrite list_lookup_fmap, Hsi. cbn. unfold call_state. by rewrite Hx.
  - intros ->. rewrite Hacc. unfold sent_frames. apply list_elem_of_omap. exists s.
    split; [by eapply list_elem_of_lookup_2|]. by rewrite Hx, Hf.
Qed.

(** A terminal frame of the request's history is an answer to the parent. *)
Lemma history_answers st i c f g :
  frames_inv st → Forall ctx_wf (c_requests st) → c ∈ c_requests st →
  sends (c_world st) !! i = Some (ctx_responded c, f) → is_terminal f → f = ob_of g →
  frame_fits g → answers (ctx_request_id c) g.
Proof.
  intros [_ _ F3 _ F5 _ F7] Hwf Hc Hi Hterm -> Hg.
  rewrite Forall_lookup in F3. rewrite Forall_forall in F5. rewrite Forall_forall in Hwf.
  destruct (F3 _ _ Hi) as [[Hev _]|(c' & Hc' & Heq & Hframe)]; cbn in *.
  { destruct (F5 _ Hc) as [_ Hpos]. unfold EVENTS in *. lia. }
  apply (NoDup_fmap_eq ctx_responded _ _ _ F7 Hc' Hc) in Heq as ->.
  destruct (ctx_frame_header _ _ (Hwf _ Hc) Hframe) as (h & Hd & _ & _ & Hid & _).
  rewrite decode_ob_of in Hd by done. injection Hd as <-.
  unfold answers. rewrite Hid, Z.eqb_refl. done.
Qed.

Lemma answer_at_parent st c :
  reg_safe r → written w = [] →
  client_reachable (FrameWriter0 := writer_task_frame_writer cfg) r max (fresh_wsys w) st →
  resting w st → c ∈ c_requests st →
  (∀ c', c' ∈ c_requests st → ctx_request_id c' = ctx_request_id c → c' = c) →
  answered st c (Ok tt) → (∀ e, w_task (out (c_world st)) ≠ TExit (Err e)) →
  parent_has_answer st c.
Proof.
  intros Hr Hw Hs [_ _ _ Hdr] Hc Huniq (i & f & Hi & Hterm & _ & Hin) Hok Hfit.
  destruct Hdr as [[e He]|(_ & Hout & _)]; [by destruct (Hok e)|].
  pose proof (conj eq_refl (spawn_inv w) :
    w_senders (fresh_wsys w) = [] ∧ w_inv (written w) (fresh_wsys w)) as Hinv.
  destruct (accepted_frames cfg r max _ _ st Hr Hinv Hs Hfit) as (fs & Hacc & Hfs & _).
  pose proof (accepted_answers_le cfg r max _ _ st c fs Hr Hinv Hs Huniq Hacc Hfs) as Hle.
  specialize (Hin eq_refl). rewrite Hacc in Hin. apply list_elem_of_fmap in Hin as (g & -> & Hin).
  apply list_elem_of_split in Hin as (before & after & ->). exists before, g, after.
  assert (Hans : answers (ctx_request_id c) g).
  { apply (history_answers st i c (ob_of g) g); try done.
    - by apply (reachable_frames_inv (FrameWriter0 := writer_task_frame_writer cfg) r max (fresh_wsys w)).
    - by apply (reachable_requests_wf (FrameWriter0 := writer_task_frame_writer cfg) r max (fresh_wsys w)).
    - apply (terminals_elem (ctx_responded c) _ (sends (c_world st))). rewrite Hterm. by left.
    - rewrite Forall_forall in Hfs. apply Hfs. set_solver. }
  split_and!; [done|done| |].
  - rewrite filter_app, filter_cons_True, length_app in Hle by done. cbn in Hle.
    rewrite filter_app. apply length_zero_iff_nil. rewrite length_app. lia.
  - intros pmax Hlim. rewrite Hout, Hw, Hacc, batch_bytes_frames. cbn [app].
    destruct (parse_until_limit pmax _ Hfs) as (gs & rest & e & Hp & Hpre & _).
    rewrite cons_middle, app_assoc in Hp |- *. rewrite fmap_app, concat_app in Hp |- *.
    rewrite cons_middle, app_assoc, Forall_app in Hfs. destruct Hfs as [Hfs _].
    rewrite parse_frames in Hp |- * by (by apply within_limit_wf).
    destruct (parse _ _) as [[more r'] e']. injection Hp as <- <- <-.
    exists more, r', e'. split; [by rewrite <- app_assoc|].
    apply (prefix_app_inv (before ++ [g])). by rewrite <- (app_assoc _ _ after).
Qed.
End Rest.

(** ** Properties *)


Section Demo.
#[local] Existing Instance string_errors.
#[local] Existing Instance text_serialize.

(** Fails on an empty payload, and sends any other back. *)
Definition careful_echo : Handler := λ pl ctx,
  match pl with
  | [] => Ret (Err (Protocol "empty"))
  | _ => pbind (respond_raw ctx pl) Ret
  end.

Definition careful_registry : HandlerRegistry := {|
  methods := {["echo"%string := {| me_handler := careful_echo; me_response_type := RtResult;
                                   me_id := 1 |}]};
  events := ∅; next_method_id := 2; next_event_id := 1; id_to_name := {[1 := "echo"%string]}
|}.

Lemma careful_registry_safe : reg_safe careful_registry.
Proof.
  intros name e He pl ctx. cbn in He. apply lookup_singleton_Some in He as [_ <-].
  destruct pl as [|b pl]; [constructor|]. by apply uc_call; constructor.
Qed.

Lemma careful_answers : always_answers careful_registry 1.
Proof.
  intros pl c Hw Hne. change (dispatch careful_registry 1 pl c) with (careful_echo pl c).
  destruct pl as [|b pl]; [split; [constructor|by apply en_ret]|].
  pose proof (tc_respond_raw c (b :: pl)) as Hcall. split.
  - apply takes_bind; [by eapply terminal_call_takes|constructor].
  - eapply ends_bind; [exact (terminal_call_ends _ _ _ _ (λ _, False) Hcall)|done].
Qed.

Lemma texts_encode_text : texts_encode.
Proof. intros s. by eexists. Qed.

(** Its only request so far carries nothing. *)
Definition careful_state : client (wsys ScriptWriter) :=
  dispatch_frame careful_registry (demo_req 1 7) (start_client 2 (fresh_wsys empty_pipe)).
Definition careful_ctx : RequestContext := with_writer_and_token 1 7 RtResult 1 2.

End Demo.
