(* ===== verification/Typing.v ===== *)
(** * The types of the running client's state

    What Rust's types and the channel's capacity say of the state: integers
    within their widths, header arrays of eleven bytes, references to cells
    that have been allocated.  Every step of the client keeps it. *)

From S2P Require Import Prelude Errors WireFormat Frame Codec Writer WriterTask.
From S2P Require Import Init Program WriterImpl Context Registry Client EndToEnd.

(** ** Specification *)
Section Spec.
Context `{TP : ThirdParty} `{!Serialize string} {W : Type}.
Variables (cfg : WriterConfig) (max : nat).

(** [WriterHandle], the channel and [writer_loop]. *)
Record writer_typed (y : wsys W) : Prop := {
  wt_pending : fits 64 (w_pending y);
  wt_senders : Forall (λ s, ob_wf (s_frame s)) (w_senders y);
  wt_queue : Forall ob_wf (w_queue y);
  wt_capacity : (length (w_queue y) ≤ channel_capacity cfg)%nat;
  wt_batch : Forall ob_wf (task_batch (w_task y));
  wt_batch_size : (length (task_batch (w_task y)) ≤ MAX_BATCH_SIZE)%nat
}.

(** A request context and its shared cells. *)
Record context_typed (next : loc) (c : RequestContext) : Prop := {
  ct_ids : ctx_wf c;
  ct_token : (ctx_token c < next)%nat;
  ct_responded : (EVENTS < ctx_responded c < next)%nat
}.

Record client_typed (st : client (wsys W)) : Prop := {
  cl_writer : writer_typed (out (c_world st));
  cl_requests : Forall (context_typed (c_next st)) (c_requests st);
  cl_tasks : Forall (λ t, t_ctx t ∈ c_requests st ∧ fits 32 (t_request_id t)) (c_tasks st);
  cl_active id l : c_active st !! id = Some l → fits 32 id ∧ (l < c_next st)%nat;
  cl_permits : (c_permits st ≤ max)%nat;
  cl_sends : Forall (λ e, ob_wf e.2) (sends (c_world st))
}.
End Spec.

(** ** Lemmas *)
Section Lemmas.
Context `{TP : ThirdParty} `{!Serialize string} {W : Type} `{!AsyncWrite W}.
Implicit Types (y : wsys W).

(** The channel never holds more than its capacity. *)
Lemma wstep_capacity cfg y y' :
  wstep cfg y y' → (length (w_queue y) ≤ channel_capacity cfg)%nat →
  (length (w_queue y') ≤ channel_capacity cfg)%nat.
Proof.
  intros [m f _ _|_|t s s' y1 _ Hst|y1 Hst] Hle; cbn; [done|done| |].
  - destruct Hst; cbn; try done. rewrite length_app. cbn. lia.
  - destruct Hst as [f q Hk Hq|Hk Hq Ha|b f q Hk Hb Hq|b Hk Hb|b w1 Hk Hw|b w1 e Hk Hw|n Hk];
      cbn; try rewrite Hq in Hle; cbn in *; lia.
Qed.

Lemma reachable_capacity cfg w y :
  reachable w cfg y → (length (w_queue y) ≤ channel_capacity cfg)%nat.
Proof.
  intros (y0 & Hy0 & Hs). unfold spawn_writer_task in Hy0. case_decide; [done|].
  injection Hy0 as <-. revert y Hs. refine (rtc_ind_r _ (fresh_wsys w) _ _); [cbn; lia|].
  intros y1 y2 _ Hst. by apply wstep_capacity.
Qed.

Lemma reachable_writer_typed `{!AsyncWriteOk W} cfg w y :
  reachable w cfg y → writer_typed cfg y.
Proof.
  intros Hr. pose proof (reachable_capacity _ _ _ Hr) as Hcap.
  destruct (reachable_inv _ _ _ Hr) as [Hp [Hs Ha] Hsink Hb _ Hc].
  assert (Hall : Forall ob_wf (w_queue y) ∧ Forall ob_wf (task_batch (w_task y))).
  { destruct (w_task y) as [|b|b|n|[u|e]]; cbn in *;
      try (destruct Hsink as (_ & _ & dn & Hd & _); rewrite Hd in Ha;
           apply Forall_app in Ha as [_ Ha]; by (apply Forall_app in Ha as [? ?] || split)).
    destruct Hsink as [Ho _]. by rewrite (Hc Ho). }
  destruct Hall as [Hq Hbatch]. split; try done.
  - rewrite Hp. apply wrap_fits. lia.
  - destruct (w_task y); cbn [task_batch length]; first [lia|by destruct Hb].
Qed.

(** The table is keyed by ids of decoded headers. *)
Lemma reachable_active_ids `{!FrameWriter W} r max (o : W) (st : client W) :
  client_reachable r max o st → ∀ id l, c_active st !! id = Some l → fits 32 id.
Proof.
  intros Hs. unfold client_reachable in Hs. revert st Hs.
  refine (rtc_ind_r _ (start_client max o) _ _); [by intros id l; cbn|].
  intros st st' _ Hst IH.
  assert (Hfin : ∀ b t ts1 ts2 id l,
    c_active (finish_task b t ts1 ts2 st) !! id = Some l → fits 32 id).
  { intros b t ts1 ts2 id l. cbn. destruct b; [apply IH|].
    intros [_ ?]%lookup_delete_Some. by eapply IH. }
  destruct Hst as [f [[_ _ Hid _] _ _ _]| | | | | |]; try exact IH; [|apply Hfin..].
  unfold dispatch_frame. repeat case_match; try exact IH. cbn. intros id l.
  destruct (decide (id = request_id (header f))) as [->|Hne]; [done|].
  rewrite lookup_insert_ne by done. apply IH.
Qed.
End Lemmas.

(** ** Properties *)

(** C25: in every state the client reaches on its writer task the state is
    well typed: the counter is a [usize], every frame has its eleven header
    bytes, the channel holds at most its capacity and the batch at most 64
    frames; ids are within their widths, tokens and flags are cells that have
    been allocated, and no more permits are free than the maximum. *)
Theorem client_state_typed `{TP : ThirdParty} `{!Serialize string} {W} `{!AsyncWrite W}
  `{!AsyncWriteOk W} (cfg : WriterConfig) (r : HandlerRegistry) (max : nat)
  (w : W) (y0 : wsys W) (st : client (wsys W)) :
  reg_safe r → spawn_writer_task w cfg = Some y0 →
  client_reachable (FrameWriter0 := writer_task_frame_writer cfg) r max y0 st →
  client_typed cfg max st.
Proof.
  intros Hr Hy0 Hs.
  assert (Hfresh : y0 = fresh_wsys w)
    by (unfold spawn_writer_task in Hy0; case_decide; by simplify_eq).
  destruct (client_runs_writer cfg r max y0 st Hr ltac:(by rewrite Hfresh) Hs) as [Hrun _].
  destruct (reachable_frames_inv _ _ _ _ Hr Hs) as [_ _ F3 _ F5 F6 _].
  destruct (reachable_table_inv _ _ _ _ Hs) as [T1 T2 _ _ _].
  pose proof (reachable_requests_wf _ _ _ _ Hs) as Hwf. split.
  - eapply reachable_writer_typed. by exists y0.
  - rewrite Forall_forall in Hwf. rewrite Forall_forall in F5. apply Forall_forall. intros c Hc.
    destruct (F5 c Hc). split; [by apply Hwf|done|done].
  - eapply Forall_impl; [exact T2|]. cbn. intros t [Hc ->]. split; [done|].
    rewrite Forall_forall in Hwf. apply (Hwf _ Hc).
  - intros id l Hl. split; [exact (reachable_active_ids _ _ _ _ Hs id l Hl)|by eapply F6].
  - lia.
  - eapply Forall_impl; [exact F3|]. intros [l f]. apply attributed_wf.
Qed.

Section Demo.
#[local] Existing Instance string_errors.
#[local] Existing Instance text_serialize.

Lemma client_state_typed_witness :
  ∃ st : client (wsys ScriptWriter),
    client_typed default_config 2 st
    ∧ c_requests st = [with_writer_and_token 1 7 RtResult 1 2].
Proof.
  destruct answered_reachable as (st & Hs & Hreq & _). exists st. split; [|exact Hreq].
  exact (client_state_typed default_config demo_registry 2 empty_pipe (fresh_wsys empty_pipe) st
           demo_registry_safe eq_refl Hs).
Defined.
End Demo.
