(* ===== verification/Order.v ===== *)
(** * The order of the frames of one request

    A handler that waits for each of its sends before the next one, and spawns
    nothing, has its frames accepted in the order in which it sent them, and
    the parent gets them in that order, while frames of other requests come in
    between.  [scripted] describes such handlers together with what they send. *)

From S2P Require Import Prelude Errors WireFormat Frame FrameBuffer Codec Writer WriterTask.
From S2P Require Import Init Program WriterImpl Context Registry Client EndToEnd.

(** ** Specification *)
Section Spec.
Context `{TP : ThirdParty}.

(** What has been accepted after a call of [send] on [f] has returned [r]. *)
Definition accepts (ok : list OutboundFrame) (f : OutboundFrame) (r : Result unit) :
  list OutboundFrame :=
  match r with Ok _ => ok ++ [f] | Err _ => ok end.

(** Programs of one line of control that send frames of the request [l] only.
    [ok] are the frames whose [send] has returned [Ok] so far: [T] holds of
    them whenever one is added, [K] of them and the result in the end. *)
Inductive scripted (T : list OutboundFrame → Prop)
  (K : list OutboundFrame → Result unit → Prop) (l : loc) (ok : list OutboundFrame) :
  prog → Prop :=
| sc_ret r : K ok r → scripted T K l ok (Ret r)
| sc_panic : scripted T K l ok Panic
| sc_hang : scripted T K l ok Hang
| sc_swap l' k : (∀ b, scripted T K l ok (k b)) → scripted T K l ok (Swap l' k)
| sc_load l' k : (∀ b, scripted T K l ok (k b)) → scripted T K l ok (Load l' k)
| sc_cancel l' k : scripted T K l ok k → scripted T K l ok (Cancel l' k)
| sc_await l' k : scripted T K l ok k → scripted T K l ok (Await l' k)
| sc_send f k :
    T (ok ++ [f]) → (∀ r, scripted T K l (accepts ok f r) (k r)) →
    scripted T K l ok (SendFrame l f k)
| sc_input k : (∀ n, scripted T K l ok (k n)) → scripted T K l ok (Input k).

(** Programs that send no frame of the request [l]. *)
Definition quiet (l : loc) : prog → Prop := actions_ok (λ l' _, l' ≠ l) (λ _, True).

(** The frames of the request [l] whose call of [send] has returned [Ok], in
    the order of the calls. *)
Definition ok_sent (l : loc) (log : list (loc * OutboundFrame))
  (oks : list (OutboundFrame * bool)) : list OutboundFrame :=
  omap (λ x : (loc * OutboundFrame) * (OutboundFrame * bool),
    if decide (x.1.1 = l) then if x.2.2 then Some x.1.2 else None else None) (zip log oks).

(** A response to the request [id], as handed to the writer. *)
Definition ob_belongs (id : u32) (g : OutboundFrame) : bool :=
  match decode (ob_header g) with
  | Some h => is_response h && (request_id h =? id)
  | None => false
  end.
End Spec.

#[export] Hint Constructors scripted : procwire.

(** ** Lemmas *)
Section Logs.
Context `{TP : ThirdParty}.
Implicit Types (log : list (loc * OutboundFrame)) (oks : list (OutboundFrame * bool)).

Lemma ok_sent_app l log log' oks oks' :
  length log = length oks →
  ok_sent l (log ++ log') (oks ++ oks') = ok_sent l log oks ++ ok_sent l log' oks'.
Proof.
  intros Hlen. unfold ok_sent. rewrite <- omap_app. f_equal. by apply zip_with_app.
Qed.

(** A call that has just begun. *)
Lemma ok_sent_begin l log oks e f :
  length log = length oks → ok_sent l (log ++ [e]) (oks ++ [(f, false)]) = ok_sent l log oks.
Proof.
  intros Hlen. rewrite ok_sent_app by done. unfold ok_sent at 2. cbn.
  case_decide; by rewrite app_nil_r.
Qed.

Lemma ok_sent_none l log oks :
  (∀ t f, log !! t ≠ Some (l, f)) → ok_sent l log oks = [].
Proof.
  revert oks. induction log as [|[l' f] log IH]; intros oks Hno; [done|].
  destruct oks as [|o oks]; [done|]. unfold ok_sent in *. cbn. rewrite decide_False.
  - apply IH. intros t g. apply (Hno (S t)).
  - intros ->. by apply (Hno 0%nat f).
Qed.

(** A call returns [Ok]: its frame comes last when its request has made no
    later call. *)
Lemma ok_sent_accept l l' log oks t f :
  length log = length oks → log !! t = Some (l', f) → oks !! t = Some (f, false) →
  (l' = l → ∀ t' f', log !! t' = Some (l, f') → (t' ≤ t)%nat) →
  ok_sent l log (<[t := (f, true)]> oks)
  = if decide (l' = l) then ok_sent l log oks ++ [f] else ok_sent l log oks.
Proof.
  intros Hlen Hl Ho Hlast.
  apply list_elem_of_split_length in Hl as (l1 & l2 & -> & ->).
  apply list_elem_of_split_length in Ho as (o1 & o2 & -> & Ht).
  rewrite Ht, insert_app_r_alt, Nat.sub_diag by lia. cbn [list_insert insert].
  rewrite !(cons_middle _ l1), !(cons_middle _ o1), !ok_sent_app by (cbn; lia).
  unfold ok_sent at 2 5 8. cbn. destruct (decide (l' = l)) as [->|Hne]; [|done].
  rewrite (ok_sent_none l l2); [by rewrite !app_nil_r|]. intros i g Hi.
  assert (Hle : (length l1 + S i ≤ length l1)%nat); [|lia].
  apply (Hlast eq_refl _ g). rewrite lookup_app_r by lia.
  by replace (length l1 + S i - length l1)%nat with (S i) by lia.
Qed.

Lemma ok_sent_sublist l log oks : ok_sent l log oks `sublist_of` sent_by l log.
Proof.
  revert oks. induction log as [|[l' f] log IH]; intros [|[g b] oks];
    [constructor..|apply sublist_nil_l|]. unfold ok_sent, sent_by in *. cbn.
  case_decide; [|apply IH]. destruct b; constructor; apply IH.
Qed.

(** Composition of scripted programs. *)
Lemma scripted_bind T K K' l ok p k :
  scripted T K l ok p → (∀ ok' r, K ok' r → scripted T K' l ok' (k r)) →
  scripted T K' l ok (pbind p k).
Proof. intros Hp Hk. induction Hp; cbn [pbind]; auto with procwire. Qed.

Lemma scripted_impl (T T' : list OutboundFrame → Prop)
  (K K' : list OutboundFrame → Result unit → Prop) l ok p :
  (∀ fs, T fs → T' fs) → (∀ fs r, K fs r → K' fs r) →
  scripted T K l ok p → scripted T' K' l ok p.
Proof. intros HT HK. induction 1; auto with procwire. Qed.
End Logs.

(** *** Frames and their request *)
Section Belongs.
Context `{TP : ThirdParty} {W : Type} `{!FrameWriter W}.
Implicit Types (st : client W) (c : RequestContext).

(** Unless its id was used twice, the frames that belong to a request are
    those of its context. *)
Lemma belongs_attributed st l g c :
  Forall ctx_wf (c_requests st) → NoDup (ctx_responded <$> c_requests st) →
  (∀ c', c' ∈ c_requests st → ctx_request_id c' = ctx_request_id c → c' = c) →
  c ∈ c_requests st → Forall (λ c, (EVENTS < ctx_responded c)%nat) (c_requests st) →
  attributed st l g → ob_belongs (ctx_request_id c) g = bool_decide (l = ctx_responded c).
Proof.
  intros Hwf Hnd Huniq Hc Hpos [[-> (id & pl & ->)]|(c' & Hc' & <- & Hframe)].
  - rewrite Forall_forall in Hpos. specialize (Hpos _ Hc).
    rewrite bool_decide_false by lia. unfold ob_belongs. cbn [new_outbound ob_header].
    rewrite encode_eq, <- (app_nil_r (header_layout _)), decode_layout_cut. done.
  - rewrite Forall_forall in Hwf.
    destruct (ctx_frame_header c' g (Hwf _ Hc') Hframe) as (h & Hd & _ & _ & Hr & Hfl & _).
    unfold ob_belongs. rewrite Hd, Hr.
    assert (Hresp : is_response h = true) by by apply ctx_flags_response in Hfl.
    rewrite Hresp. cbn [andb]. apply eq_true_iff_eq.
    rewrite Z.eqb_eq, bool_decide_eq_true. split; [by intros ->%Huniq|].
    intros Heq. by apply (NoDup_fmap_eq _ _ _ _ Hnd) in Heq as ->.
Qed.
End Belongs.

(** *** The invariant of one request *)
Section Invariant.
Context `{TP : ThirdParty} `{!Serialize string} {W : Type} `{!FrameWriter W}.
Variables (T : list OutboundFrame → Prop) (K : list OutboundFrame → Result unit → Prop).
Variable c : RequestContext.
Implicit Types (st : client W) (w : world W).

(** The frames of the request whose call of [send] has returned [Ok], in the
    order of the calls. *)
Definition accepted_of w : list OutboundFrame :=
  ok_sent (ctx_responded c) (sends w) (ok_calls (out w)).

(** The program of the request, which may be waiting for a call. *)
Definition prog_ok w (p : prog) : Prop :=
  match p with
  | Sending t k =>
    ∃ f, sends w !! t = Some (ctx_responded c, f) ∧
      match call_result w t with
      | Some r => scripted T K (ctx_responded c) (accepted_of w) (k r)
      | None => T (accepted_of w ++ [f]) ∧
          ∀ r, scripted T K (ctx_responded c) (accepts (accepted_of w) f r) (k r)
      end
  | _ => scripted T K (ctx_responded c) (accepted_of w) p
  end.

(** The program of a task: that of the request, or another one. *)
Definition task_ok w (t : task) : Prop :=
  if decide (t_ctx t = c) then prog_ok w (t_prog t) else quiet (ctx_responded c) (t_prog t).

(** While a call of the request is under way, its task waits for it and it is
    the last one. *)
Definition waits st : Prop :=
  ∀ t f, sends (c_world st) !! t = Some (ctx_responded c, f) →
    call_result (c_world st) t = None →
    (∃ tk k, tk ∈ c_tasks st ∧ t_ctx tk = c ∧ t_prog tk = Sending t k)
    ∧ ∀ t' f', sends (c_world st) !! t' = Some (ctx_responded c, f') → (t' ≤ t)%nat.

Definition in_order w : Prop :=
  filter (ob_belongs (ctx_request_id c)) (fw_sent (out w)) = accepted_of w.

Record request_inv st : Prop := {
  ri_trace : accepted_of (c_world st) = [] ∨ T (accepted_of (c_world st));
  ri_tasks : Forall (task_ok (c_world st)) (c_tasks st);
  ri_background : Forall (quiet (ctx_responded c)) (c_background st);
  ri_waits : waits st;
  ri_order : in_order (c_world st)
}.
(** The dispatch of a frame starts the request [c]. *)
Definition arrives_as (r : HandlerRegistry) (f : Frame) st : Prop :=
  c_requests (dispatch_frame r f st) = c_requests st ++ [c].
End Invariant.

Section Steps.
Context `{TP : ThirdParty} `{!Serialize string} {W : Type} `{!FrameWriter W}
  `{!FrameWriterOk W} `{!FrameWriterOrdered W}.
Variables (T : list OutboundFrame → Prop) (K : list OutboundFrame → Result unit → Prop).
Variable c : RequestContext.
Implicit Types (st : client W) (w : world W).
Abbreviation l := (ctx_responded c).

Lemma length_ok_calls (o : W) : length (ok_calls o) = length (fw_calls o).
Proof. apply length_fmap. Qed.

Lemma ok_calls_begin (o : W) f : ok_calls (fw_begin o f) = ok_calls o ++ [(f, false)].
Proof. unfold ok_calls. by rewrite fw_calls_begin, fmap_app. Qed.

Lemma calls_length w :
  (fw_calls (out w)).*1 = (sends w).*2 → length (fw_calls (out w)) = length (sends w).
Proof. intros Hc. by rewrite <- (length_fmap fst), Hc, length_fmap. Qed.

(** A call begins: calls made before are as they were. *)
Lemma begin_result w l' f t :
  (t < length (fw_calls (out w)))%nat →
  call_result (begin_send l' f w) t = call_result w t.
Proof. intros Ht. unfold call_result. cbn. by rewrite fw_calls_begin, lookup_app_l. Qed.

Lemma begin_accepted w l' f :
  (fw_calls (out w)).*1 = (sends w).*2 →
  accepted_of c (begin_send l' f w) = accepted_of c w
  ∧ fw_sent (out (begin_send l' f w)) = fw_sent (out w).
Proof.
  intros Hc. unfold accepted_of. cbn [begin_send sends out]. rewrite ok_calls_begin.
  split; [|apply fw_sent_begin]. apply ok_sent_begin. by rewrite length_ok_calls, calls_length.
Qed.

(** What matters to the request is the same in two worlds. *)
Record same_for w w' : Prop := {
  sf_accepted : accepted_of c w' = accepted_of c w;
  sf_sends t f : sends w' !! t = Some (l, f) ↔ sends w !! t = Some (l, f);
  sf_calls t f : sends w !! t = Some (l, f) → call_result w' t = call_result w t;
  sf_sent : fw_sent (out w') = fw_sent (out w)
}.

Lemma same_for_cells w w' : sends w' = sends w → out w' = out w → same_for w w'.
Proof.
  intros Hs Ho. split; unfold accepted_of, call_result; by rewrite ?Hs, ?Ho.
Qed.

(** A program that sends no frame of the request makes a step. *)
Lemma quiet_step w p w' p' qs :
  pstep w p w' p' qs → quiet l p → (fw_calls (out w)).*1 = (sends w).*2 →
  same_for w w' ∧ quiet l p' ∧ Forall (quiet l) qs.
Proof.
  intros Hst Hq Hc. unfold quiet in *.
  destruct Hst as [l' k|l' k|l' k|l' k Hl|l' f k|t k r Hr|n k|q k]; inversion Hq; subst;
    (split; [|by split; auto with procwire]); try by apply same_for_cells.
  destruct (begin_accepted w l' f Hc) as [Ha Hs]. split; [done| |..|done].
  - cbn. intros t g. split; [|by apply lookup_app_l_Some].
    intros [?|[_ Ht]]%lookup_app_Some; [done|].
    apply list_lookup_singleton_Some in Ht as [_ ?]. congruence.
  - intros t g Ht. apply begin_result. rewrite calls_length by done. by eapply lookup_lt_Some.
Qed.

Lemma prog_ok_same w w' p : same_for w w' → prog_ok T K c w p → prog_ok T K c w' p.
Proof.
  intros [Ha Hs Hc _]. destruct p; cbn; rewrite Ha; try done.
  intros (f & Hf & H). exists f. by rewrite Hs, (Hc _ _ Hf).
Qed.

Lemma task_ok_same w w' t : same_for w w' → task_ok T K c w t → task_ok T K c w' t.
Proof. intros Hsame. unfold task_ok. case_decide; [by apply prog_ok_same|done]. Qed.

(** The invariant in a state in which the task of the request is still there. *)
Lemma request_inv_same st st' :
  same_for (c_world st) (c_world st') →
  Forall (task_ok T K c (c_world st)) (c_tasks st') → Forall (quiet l) (c_background st') →
  (∀ tk t k, tk ∈ c_tasks st → t_ctx tk = c → t_prog tk = Sending t k →
     call_result (c_world st) t = None → tk ∈ c_tasks st') →
  request_inv T K c st → request_inv T K c st'.
Proof.
  intros Hsame Htasks Hbg Hkeep [R1 R2 R3 R4 R5].
  pose proof Hsame as [Ha Hsends Hcalls Hsent].
  split; [by rewrite Ha| |done| |by unfold in_order; rewrite Ha, Hsent].
  - eapply Forall_impl; [exact Htasks|]. intros t. by apply task_ok_same.
  - intros t f Ht%Hsends Hnone. rewrite (Hcalls _ _ Ht) in Hnone.
    destruct (R4 t f Ht Hnone) as [(tk & k & Hin & Hctx & Hprog) Hlast]. split.
    + exists tk, k. split_and!; [|done..]. by eapply Hkeep.
    + intros t' f' Ht'%Hsends. by eapply Hlast.
Qed.

(** *** The task of the request *)

Lemma scripted_prog_ok w p : scripted T K l (accepted_of c w) p → prog_ok T K c w p.
Proof. destruct p; try done. inversion 1. Qed.

Lemma prog_step w p w' p' qs :
  pstep w p w' p' qs → prog_ok T K c w p → (fw_calls (out w)).*1 = (sends w).*2 →
  qs = [] ∧ prog_ok T K c w' p'
  ∧ (same_for w w'
     ∨ ∃ f k, p = SendFrame l f k ∧ w' = begin_send l f w ∧ p' = Sending (next_call w) k).
Proof.
  intros Hst Hp Hcalls.
  assert (Hcells : ∀ w' p', same_for w w' → scripted T K l (accepted_of c w) p' →
    prog_ok T K c w' p').
  { intros w1 p1 Hsame Hp1. by eapply prog_ok_same, scripted_prog_ok. }
  destruct Hst as [l' k|l' k|l' k|l' k Hl|l' f k|t k r Hr|n k|q k];
    cbn in Hp; try (inversion Hp; subst; split; [done|];
      split; [apply Hcells; [by apply same_for_cells|done]|left; by apply same_for_cells]).
  - inversion Hp as [| | | | | | |f' k' HT Hk|]; subst. split; [done|].
    split; [|right; by exists f, k].
    destruct (begin_accepted w l f Hcalls) as [Ha _]. exists f. rewrite Ha.
    pose proof (calls_length _ Hcalls) as Hlen. unfold next_call. rewrite Hlen. split.
    + cbn. by rewrite lookup_app_r, Nat.sub_diag.
    + unfold call_result. cbn. rewrite fw_calls_begin, lookup_app_r by lia.
      by rewrite Hlen, Nat.sub_diag.
  - destruct Hp as (f & _ & Hk). rewrite Hr in Hk. split; [done|].
    split; [by apply scripted_prog_ok|left; by apply same_for_cells].
  - inversion Hp.
Qed.

(** The tasks of other requests do not depend on the world. *)
Lemma task_ok_other w w' ts :
  (∀ t, t ∈ ts → t_ctx t ≠ c) → Forall (task_ok T K c w) ts → Forall (task_ok T K c w') ts.
Proof.
  intros Hne Hts. rewrite Forall_forall in Hts. apply Forall_forall. intros t Ht.
  specialize (Hts t Ht). unfold task_ok in *. by rewrite decide_False in Hts |- * by auto.
Qed.

Lemma other_tasks (ts1 ts2 : list task) t t' :
  NoDup (t_ctx <$> ts1 ++ t :: ts2) → t' ∈ ts1 ++ ts2 → t_ctx t' ≠ t_ctx t.
Proof.
  rewrite <- Permutation_middle. cbn. intros [Hnot _]%NoDup_cons Hin Heq.
  apply Hnot. rewrite <- Heq. by apply list_elem_of_fmap_2.
Qed.

(** There is one task of the request. *)
Lemma same_task st tk t :
  NoDup (t_ctx <$> c_tasks st) → tk ∈ c_tasks st → t ∈ c_tasks st →
  t_ctx tk = c → t_ctx t = c → tk = t.
Proof. intros Hnd H1 H2 H3 H4. apply (NoDup_fmap_eq t_ctx (c_tasks st)); congruence. Qed.

(** The task of the request begins a call. *)
Lemma begin_waits st st' t f k :
  t ∈ c_tasks st → NoDup (t_ctx <$> c_tasks st) → t_ctx t = c →
  (fw_calls (out (c_world st))).*1 = (sends (c_world st)).*2 →
  t_prog t = SendFrame l f k → c_world st' = begin_send l f (c_world st) →
  (∃ tk k', tk ∈ c_tasks st' ∧ t_ctx tk = c ∧ t_prog tk = Sending (next_call (c_world st)) k') →
  waits c st → waits c st'.
Proof.
  intros Ht Hnd Hc Hcalls Hprog Hw Hnext R4 i g Hi Hr.
  pose proof (calls_length _ Hcalls) as Hlen.
  rewrite Hw in Hi, Hr |- *. cbn [begin_send sends] in Hi.
  apply lookup_app_Some in Hi as [Hi|[Hge Hi]].
  - rewrite begin_result in Hr by (rewrite Hlen; by eapply lookup_lt_Some).
    destruct (R4 i g Hi Hr) as [(tk & k' & Hin & Hctx & Hp) _].
    rewrite (same_task st tk t) in Hp by done. congruence.
  - apply list_lookup_singleton_Some in Hi as [Hi _].
    assert (i = next_call (c_world st)) as -> by (unfold next_call; lia).
    split; [done|]. intros j g' Hj%lookup_lt_Some. cbn in Hj. rewrite length_app in Hj.
    cbn in Hj. unfold next_call. lia.
Qed.

Lemma own_step st st' t ts1 ts2 w p qs :
  c_tasks st = ts1 ++ t :: ts2 → NoDup (t_ctx <$> c_tasks st) → t_ctx t = c →
  (fw_calls (out (c_world st))).*1 = (sends (c_world st)).*2 →
  pstep (c_world st) (t_prog t) w p qs → c_world st' = w →
  c_tasks st' = ts1 ++ {| t_ctx := t_ctx t; t_request_id := t_request_id t; t_prog := p |} :: ts2 →
  c_background st' = c_background st ++ qs →
  request_inv T K c st → request_inv T K c st'.
Proof.
  intros Ht Hnd Hc Hcalls Hst <- Ht' Hbg [R1 R2 R3 R4 R5].
  rewrite Ht in R2. apply Forall_app in R2 as [R2a [R2t R2b]%Forall_cons].
  unfold task_ok in R2t. rewrite decide_True in R2t by done.
  destruct (prog_step _ _ _ _ _ Hst R2t Hcalls) as (-> & Hp & Hcase).
  rewrite app_nil_r in Hbg. assert (Hin : t ∈ c_tasks st) by (rewrite Ht; set_solver).
  assert (Htasks : Forall (task_ok T K c (c_world st')) (c_tasks st')).
  { rewrite Ht', <- Permutation_middle. constructor.
    - unfold task_ok. cbn. by rewrite decide_True.
    - apply (task_ok_other (c_world st)); [|by apply Forall_app_2].
      intros t' Hin'. rewrite <- Hc. rewrite Ht in Hnd. by eapply other_tasks. }
  assert (Hsame : (same_for (c_world st) (c_world st') ∧ ∀ i k, t_prog t = Sending i k →
      call_result (c_world st) i ≠ None)
    ∨ ∃ f k, t_prog t = SendFrame l f k ∧ c_world st' = begin_send l f (c_world st)
        ∧ p = Sending (next_call (c_world st)) k).
  { destruct Hcase as [Hsame|?]; [left|by right]. split; [done|].
    intros i k Hpr Hr. rewrite Hpr in Hst. inversion Hst. congruence. }
  clear Hcase. destruct Hsame as [[[Ha Hsends Hres Hsent] Hno]|(f & k & Hprog & Hw & ->)].
  - split; [by rewrite Ha|done|by rewrite Hbg| |by unfold in_order; rewrite Ha, Hsent].
    intros i g Hi%Hsends Hr. rewrite (Hres _ _ Hi) in Hr.
    destruct (R4 i g Hi Hr) as [(tk & k & Hin' & Hctx & Hpr) _].
    rewrite (same_task st tk t) in Hpr by done. by destruct (Hno _ _ Hpr).
  - destruct (begin_accepted (c_world st) l f Hcalls) as [Ha Hsent].
    split; [by rewrite Hw, Ha|done|by rewrite Hbg| |by unfold in_order; rewrite Hw, Ha, Hsent].
    eapply begin_waits; [exact Hin|done..| |exact R4].
    eexists _, k. split; [rewrite Ht'; apply elem_of_app; right; by left|]. done.
Qed.

(** *** The writer *)

(** A call that has returned stays as it is. *)
Lemma call_result_step w o t r :
  fw_step (out w) o → call_result w t = Some r → call_result (set_out o w) t = Some r.
Proof.
  intros Hst%fw_calls_step. unfold call_result. cbn.
  destruct (fw_calls (out w) !! t) as [d|] eqn:Hd; [|done].
  destruct (Forall2_lookup_l _ _ _ _ _ Hst Hd) as (d' & Hd' & _ & Hres). rewrite Hd'. cbn.
  intros Hr. destruct Hres; congruence.
Qed.

(** The request that a call belongs to. *)
Lemma call_tag w t f r :
  (fw_calls (out w)).*1 = (sends w).*2 → fw_calls (out w) !! t = Some (f, r) →
  ∃ l', sends w !! t = Some (l', f).
Proof.
  intros Hc Ht. assert (Hf : (sends w).*2 !! t = Some f).
  { by rewrite <- Hc, list_lookup_fmap, Ht. }
  rewrite list_lookup_fmap in Hf. destruct (sends w !! t) as [[l' g]|]; [|done].
  injection Hf as ->. by exists l'.
Qed.

(** Whether a call has returned [Ok]. *)
Lemma ok_calls_result w t :
  (∃ f, ok_calls (out w) !! t = Some (f, true)) ↔ ∃ u, call_result w t = Some (Ok u).
Proof.
  unfold ok_calls, call_result. rewrite list_lookup_fmap.
  destruct (fw_calls (out w) !! t) as [[g [[u|e]|]]|]; cbn; split; intros [x Hx]; eauto; done.
Qed.

(** What a step of the writer does to the request: nothing, or it accepts a
    frame, which is one of the request or not. *)
Lemma writer_cases st o :
  let w := c_world st in
  let w' := set_out o w in
  fw_step (out w) o → waits c st → (fw_calls (out w)).*1 = (sends w).*2 →
  (accepted_of c w' = accepted_of c w ∧ fw_sent o = fw_sent (out w)
   ∧ ∀ t u, call_result w' t = Some (Ok u) → ∃ u, call_result w t = Some (Ok u))
  ∨ ∃ t l' f, sends w !! t = Some (l', f) ∧ call_result w t = None
      ∧ (∃ u, call_result w' t = Some (Ok u)) ∧ fw_sent o = fw_sent (out w) ++ [f]
      ∧ accepted_of c w'
        = (if decide (l' = l) then accepted_of c w ++ [f] else accepted_of c w)
      ∧ ∀ t' u, t' ≠ t → call_result w' t' = Some (Ok u) → ∃ u, call_result w t' = Some (Ok u).
Proof.
  intros w w' Hst R4 Hcalls. unfold accepted_of. cbn [set_out out sends w'].
  destruct (fw_sent_step _ _ Hst) as [[-> Hok]|(t & f & Ht & -> & Hok)]; [left|right].
  - rewrite Hok. split_and!; [done..|]. intros t u Hr. apply ok_calls_result. rewrite <- Hok.
    apply (ok_calls_result w'). by exists u.
  - destruct (call_tag _ _ _ _ Hcalls Ht) as [l' Hl'].
    assert (Hnone : call_result w t = None) by (unfold call_result; by rewrite Ht).
    assert (Ho : ok_calls (out w) !! t = Some (f, false)).
    { unfold ok_calls. by rewrite list_lookup_fmap, Ht. }
    exists t, l', f. split_and!; [done|done| |done| |].
    + apply ok_calls_result. exists f. cbn [set_out out w']. rewrite Hok.
      apply list_lookup_insert_eq. by eapply lookup_lt_Some.
    + rewrite Hok. apply ok_sent_accept; [by rewrite length_ok_calls, calls_length|done|done|].
      intros ->. by eapply R4.
    + intros t' u Hne Hr. apply ok_calls_result.
      destruct (proj2 (ok_calls_result w' t')) as [g Hg]; [by exists u|].
      exists g. cbn [set_out out w'] in Hg. rewrite Hok in Hg.
      by rewrite list_lookup_insert_ne in Hg by done.
Qed.

(** The program of the request, when no call it waits for has been accepted. *)
Lemma prog_ok_writer w o p :
  fw_step (out w) o → accepted_of c (set_out o w) = accepted_of c w →
  (∀ t k u, p = Sending t k → call_result (set_out o w) t = Some (Ok u) →
     ∃ u, call_result w t = Some (Ok u)) →
  prog_ok T K c w p → prog_ok T K c (set_out o w) p.
Proof.
  intros Hst Ha Hok. destruct p as [| | | | | | | |t k| |]; cbn [prog_ok]; rewrite ?Ha; try done.
  intros (f & Hf & H). exists f. split; [done|].
  destruct (call_result w t) as [r|] eqn:Hr; [by rewrite (call_result_step _ _ _ _ Hst Hr)|].
  destruct H as [HT Hk]. destruct (call_result (set_out o w) t) as [[u|e]|] eqn:Hr'; [|apply (Hk (Err e))|done].
  destruct (Hok t k u eq_refl Hr') as [u' ?]. congruence.
Qed.

Lemma writer_inv st o :
  fw_step (out (c_world st)) o → frames_inv st → Forall ctx_wf (c_requests st) →
  (∀ c', c' ∈ c_requests st → ctx_request_id c' = ctx_request_id c → c' = c) →
  c ∈ c_requests st → NoDup (t_ctx <$> c_tasks st) →
  (fw_calls (out (c_world st))).*1 = (sends (c_world st)).*2 →
  request_inv T K c st → request_inv T K c (set_world (set_out o (c_world st)) st).
Proof.
  intros Hst [_ _ F3 _ F5 _ F7] Hwf Huniq Hc Hnd Hcalls [R1 R2 R3 R4 R5].
  assert (Hwaits : waits c (set_world (set_out o (c_world st)) st)).
  { intros t f Ht Hr. apply (R4 t f Ht). cbn in Hr.
    destruct (call_result (c_world st) t) as [r|] eqn:Hr'; [|done].
    by rewrite (call_result_step _ _ _ _ Hst Hr') in Hr. }
  assert (Htasks : ∀ w', (∀ t, t ∈ c_tasks st → t_ctx t = c → prog_ok T K c (c_world st) (t_prog t) →
    prog_ok T K c w' (t_prog t)) → Forall (task_ok T K c w') (c_tasks st)).
  { intros w' Hw'. rewrite Forall_forall in R2. apply Forall_forall. intros t Ht.
    specialize (R2 t Ht). unfold task_ok in *. case_decide; [by apply Hw'|done]. }
  destruct (writer_cases st o Hst R4 Hcalls)
    as [(Ha & Hs & Hok)|(t & l' & f & Ht & Hr & [u Hr'] & Hs & Ha & Hok)].
  - split; cbn [set_world c_world c_tasks c_background];
      [by rewrite Ha| |done|done|by unfold in_order; rewrite Ha; cbn; rewrite Hs].
    apply Htasks. intros t _ _. apply prog_ok_writer; [done|done|]. intros i k u _. apply Hok.
  - assert (Hpos : Forall (λ c, (EVENTS < ctx_responded c)%nat) (c_requests st)).
    { eapply Forall_impl; [exact F5|]. cbn. lia. }
    rewrite Forall_forall in F3.
    pose proof (F3 (l', f) (list_elem_of_lookup_2 _ _ _ Ht)) as Hattr. cbn [fst snd] in Hattr.
    assert (Hord : in_order c (set_out o (c_world st))).
    { unfold in_order in *. rewrite Ha. cbn [set_out out]. rewrite Hs, filter_app, R5.
      rewrite filter_cons, (belongs_attributed st l' f c Hwf F7 Huniq Hc Hpos Hattr), filter_nil.
      destruct (decide (l' = l)) as [->|Hne].
      - rewrite bool_decide_true by done. cbn. by rewrite decide_True.
      - rewrite bool_decide_false by done. cbn. by rewrite decide_False, app_nil_r by auto. }
    destruct (decide (l' = l)) as [->|Hne].
    + destruct (R4 t f Ht Hr) as [(tk & k & Hin & Hctx & Hpr) _].
      assert (Hp : prog_ok T K c (c_world st) (t_prog tk)).
      { rewrite Forall_forall in R2. specialize (R2 tk Hin). unfold task_ok in R2.
        by rewrite decide_True in R2. }
      rewrite Hpr in Hp. cbn [prog_ok] in Hp. rewrite Hr in Hp.
      destruct Hp as (f' & Hf' & HT & Hk). assert (f' = f) as -> by congruence.
      split; cbn [set_world c_world c_tasks c_background];
        [right; by rewrite Ha| |done|done|done].
      apply Htasks. intros tk' Hin' Hctx' _. rewrite (same_task st tk' tk) by done.
      rewrite Hpr. cbn [prog_ok]. exists f. split; [done|]. rewrite Hr', Ha. apply (Hk (Ok u)).
    + split; cbn [set_world c_world c_tasks c_background]; [by rewrite Ha| |done|done|done].
      apply Htasks. intros tk Hin Hctx Hp. apply prog_ok_writer; [done|done| |done].
      intros i k v Hpr. apply Hok. intros ->. rewrite Hpr in Hp.
      destruct Hp as (f' & Hf' & _). congruence.
Qed.

(** *** The request arrives *)

(** Before a request arrives nothing concerns its flag. *)
Lemma fresh_sends st t f l' :
  frames_inv st → (c_next st < l')%nat → sends (c_world st) !! t ≠ Some (l', f).
Proof.
  intros [_ _ F3 _ F5 F6 _] Hl Ht. rewrite Forall_forall in F3. rewrite Forall_forall in F5.
  destruct (F3 _ (list_elem_of_lookup_2 _ _ _ Ht)) as [[Hev _]|(c' & Hc' & Heq & _)];
    cbn [fst snd] in *; [unfold EVENTS in Hev; lia|specialize (F5 _ Hc'); lia].
Qed.

Lemma fresh_quiet st p l' :
  frames_inv st → (c_next st < l')%nat → p ∈ programs st → quiet l' p.
Proof.
  intros [_ F2 _ _ F5 _ _] Hl Hp. rewrite Forall_forall in F2. rewrite Forall_forall in F5.
  eapply actions_ok_impl; [| |exact (F2 p Hp)]; [|done].
  intros l1 f [[-> _]|(c' & Hc' & <- & _)]; [unfold EVENTS; lia|].
  specialize (F5 _ Hc'). lia.
Qed.

(** A dispatched frame starts a task, or touches nothing but cells. *)
Lemma dispatch_cases r f st :
  let st' := dispatch_frame r f st in
  c_background st' = c_background st ∧ sends (c_world st') = sends (c_world st)
  ∧ out (c_world st') = out (c_world st)
  ∧ ((c_tasks st' = c_tasks st ∧ c_requests st' = c_requests st)
     ∨ ∃ ctx, c_requests st' = c_requests st ++ [ctx] ∧ ctx_responded ctx = S (c_next st)
         ∧ c_tasks st' = c_tasks st ++
             [{| t_ctx := ctx; t_request_id := request_id (header f);
                 t_prog := handler_task r (ctx_method_id ctx) (payload f) ctx |}]).
Proof.
  cbv zeta. destruct (dispatch_out r f st) as [Ho Hs].
  split_and!; [by unfold dispatch_frame; repeat case_match|done|done|].
  unfold dispatch_frame. destruct (_ =? ABORT_METHOD_ID).
  { left. by destruct (c_active st !! _). }
  destruct (_ =? AUTH_METHOD_ID); [by left|]. destruct (is_response _); [by left|].
  destruct (c_permits st) as [|permits]; [by left|]. right. eexists. by split_and!.
Qed.

Lemma arrival_inv r f st :
  reg_safe r → frames_inv st → fw_ok (out (c_world st)) →
  (fw_calls (out (c_world st))).*1 = (sends (c_world st)).*2 →
  let st' := dispatch_frame r f st in
  frames_inv st' → Forall ctx_wf (c_requests st') →
  (∀ c', c' ∈ c_requests st' → ctx_request_id c' = ctx_request_id c → c' = c) →
  scripted T K l [] (handler_task r (ctx_method_id c) (payload f) c) →
  c_requests st' = c_requests st ++ [c] → l = S (c_next st) →
  c_tasks st' = c_tasks st ++
    [{| t_ctx := c; t_request_id := request_id (header f);
        t_prog := handler_task r (ctx_method_id c) (payload f) c |}] →
  c ∉ c_requests st → Forall (λ t, t_ctx t ∈ c_requests st) (c_tasks st) →
  request_inv T K c st'.
Proof.
  intros Hr Hi Hok Hcalls st' Hi' Hwf Huniq Hscr Hreq Hl Htasks Hnew Hold.
  destruct (dispatch_cases r f st) as (Hbg & Hs & Ho & _). fold st' in Hbg, Hs, Ho.
  assert (Hfresh : ∀ t g, sends (c_world st') !! t ≠ Some (l, g)).
  { intros t g. rewrite Hs. apply fresh_sends; [done|lia]. }
  assert (Hquiet : ∀ p, p ∈ programs st → quiet l p).
  { intros p. apply fresh_quiet; [done|lia]. }
  assert (Hnone : accepted_of c (c_world st') = []) by by apply ok_sent_none.
  pose proof Hi' as [_ _ F3 _ F5 _ F7].
  split.
  - by left.
  - rewrite Htasks. apply Forall_app_2; [|apply Forall_singleton].
    + rewrite Forall_forall in Hold. apply Forall_forall. intros t Ht. unfold task_ok.
      rewrite decide_False; [|intros Heq; apply Hnew; rewrite <- Heq; by apply Hold].
      apply Hquiet. apply elem_of_app. left. by apply list_elem_of_fmap_2.
    + unfold task_ok. cbn [t_ctx t_prog]. rewrite decide_True by done.
      apply scripted_prog_ok. by rewrite Hnone.
  - rewrite Hbg. apply Forall_forall. intros p Hp. apply Hquiet. apply elem_of_app. by right.
  - intros t g Ht. by destruct (Hfresh t g).
  - unfold in_order. rewrite Hnone.
    destruct (filter _ _) as [|g gs] eqn:Hf; [done|]. exfalso.
    assert (Hg : g ∈ filter (ob_belongs (ctx_request_id c)) (fw_sent (out (c_world st')))).
    { rewrite Hf. by left. }
    apply list_elem_of_filter in Hg as [Hb Hg]. rewrite Ho, fw_sent_ok in Hg by done.
    eapply elem_of_sublist in Hg; [|apply ok_frames_sublist]. rewrite Hcalls, <- Hs in Hg.
    apply list_elem_of_fmap in Hg as ([l' g'] & -> & Hin). cbn in Hb.
    rewrite Forall_forall in F3.
    rewrite (belongs_attributed st' l' g' c Hwf F7 Huniq) in Hb;
      [|rewrite Hreq; set_solver| |exact (F3 _ Hin)].
    + apply bool_decide_unpack in Hb as ->.
      apply list_elem_of_lookup in Hin as [t Ht]. by destruct (Hfresh t g').
    + eapply Forall_impl; [exact F5|]. cbn. lia.
Qed.

(** A task of another request arrives, ends, or an emit begins. *)
Lemma dispatch_inv r f st :
  reg_safe r → c ∈ c_requests st → frames_inv st →
  request_inv T K c st → request_inv T K c (dispatch_frame r f st).
Proof.
  intros Hr Hc [_ _ _ _ F5 _ _] Hi. pose proof Hi as [_ R2 R3 _ _].
  destruct (dispatch_cases r f st) as (Hbg & Hs & Ho & Hcase).
  apply (request_inv_same st); [by apply same_for_cells| |by rewrite Hbg| |done];
    destruct Hcase as [[-> _]|(ctx & Hreq & Hctx & ->)]; [done| |done|].
  - apply Forall_app_2; [done|]. apply Forall_singleton. unfold task_ok. cbn [t_ctx t_prog].
    rewrite Forall_forall in F5. specialize (F5 _ Hc).
    rewrite decide_False by (intros <-; lia).
    eapply actions_ok_impl; [| |by apply handler_task_actions]; [|done].
    cbn. intros l1 g [-> _]. lia.
  - intros tk t k Hin _ _ _. apply elem_of_app. by left.
Qed.

Lemma finish_inv b t ts1 ts2 st :
  c_tasks st = ts1 ++ t :: ts2 → (∀ i k, t_prog t ≠ Sending i k) →
  request_inv T K c st → request_inv T K c (finish_task b t ts1 ts2 st).
Proof.
  intros Ht Hp Hi. pose proof Hi as [_ R2 R3 _ _].
  apply (request_inv_same st); [by apply same_for_cells| |done| |done]; cbn.
  - rewrite Ht in R2. apply Forall_app in R2 as [? [_ ?]%Forall_cons]. by apply Forall_app_2.
  - intros tk i k Hin _ Hpr _. rewrite Ht in Hin.
    assert (tk ≠ t) by (intros ->; by destruct (Hp i k)). set_solver.
Qed.

(** A step of the client after the request has arrived. *)
Lemma cstep_request_inv r st st' :
  reg_safe r → cstep r st st' → frames_inv st → Forall ctx_wf (c_requests st) →
  (∀ c', c' ∈ c_requests st → ctx_request_id c' = ctx_request_id c → c' = c) →
  c ∈ c_requests st → NoDup (t_ctx <$> c_tasks st) →
  (fw_calls (out (c_world st))).*1 = (sends (c_world st)).*2 →
  request_inv T K c st → request_inv T K c st'.
Proof.
  intros Hr Hst Hf Hwf Huniq Hc Hnd Hcalls Hi. pose proof Hi as [_ R2 R3 _ _].
  destruct Hst as [f _|t ts1 ts2 w p qs Ht Hp|t ts1 ts2 res Ht Hp
    |t ts1 ts2 Ht Hp|p p' ps1 ps2 w qs Hb Hp|p Hp|o Ho].
  - by apply dispatch_inv.
  - destruct (decide (t_ctx t = c)) as [Hct|Hct]; [by eapply own_step|].
    pose proof R2 as R2'. rewrite Ht in R2. apply Forall_app in R2 as [R2a [R2t R2b]%Forall_cons].
    unfold task_ok in R2t. rewrite decide_False in R2t by done.
    destruct (quiet_step _ _ _ _ _ Hp R2t Hcalls) as (Hsame & Hq & Hqs).
    apply (request_inv_same st); [exact Hsame| |by apply Forall_app_2| |done]; cbn.
    + apply Forall_app_2; [done|]. constructor; [|done]. unfold task_ok. cbn.
      by rewrite decide_False.
    + intros tk i k Hin Hctx _ _. rewrite Ht in Hin. assert (tk ≠ t) by (by intros ->). set_solver.
  - apply finish_inv; [done| |done]. intros i k. by rewrite Hp.
  - apply finish_inv; [done| |done]. intros i k. by rewrite Hp.
  - rewrite Hb in R3. apply Forall_app in R3 as [R3a [R3p R3b]%Forall_cons].
    destruct (quiet_step _ _ _ _ _ Hp R3p Hcalls) as (Hsame & Hq & Hqs).
    apply (request_inv_same st); [exact Hsame|done| |by intros|done]; cbn.
    apply Forall_app_2; [done|]. constructor; [done|]. by apply Forall_app_2.
  - apply (request_inv_same st); [by apply same_for_cells|done| |by intros|done]; cbn.
    apply Forall_app_2; [done|]. apply Forall_singleton.
    eapply emit_actions; [|exact Hp]. intros g _. destruct Hf as [_ _ _ _ F5 _ _].
    rewrite Forall_forall in F5. specialize (F5 _ Hc). lia.
  - by apply writer_inv.
Qed.

Lemma cstep_requests r st st' :
  cstep r st st' → c_requests st' = c_requests st
    ∨ ∃ f ctx, st' = dispatch_frame r f st ∧ c_requests st' = c_requests st ++ [ctx].
Proof.
  intros [f _| | | | | |]; [|by left..].
  destruct (dispatch_cases r f st) as (_ & _ & _ & [[_ ?]|(ctx & ? & _)]); [by left|].
  right. by exists f, ctx.
Qed.

(** The request when its frame has just been dispatched. *)
Lemma dispatched_request_inv r max (o : W) st f :
  reg_safe r → fw_ok o → fw_calls o = [] → client_reachable r max o st →
  frame_wf ABSOLUTE_MAX_PAYLOAD_SIZE f → arrives_as c r f st →
  (∀ c', c' ∈ c_requests (dispatch_frame r f st) → ctx_request_id c' = ctx_request_id c → c' = c) →
  scripted T K l [] (handler_task r (ctx_method_id c) (payload f) c) →
  request_inv T K c (dispatch_frame r f st).
Proof.
  intros Hr Hok Hnone Hs Hf Harr Huniq Hscr.
  assert (Hs' : client_reachable r max o (dispatch_frame r f st))
    by (eapply rtc_r; [exact Hs|by apply cs_frame]).
  pose proof (reachable_frames_inv _ _ _ _ Hr Hs) as Hi.
  pose proof (reachable_calls _ _ _ _ Hs) as Hcalls. rewrite Hnone in Hcalls.
  destruct (reachable_table_inv _ _ _ _ Hs) as [_ T2 _ _ _]. unfold arrives_as in Harr.
  destruct (dispatch_cases r f st) as (_ & _ & _ & [[_ Heq]|(ctx & Hreq & Hl & Htasks)]).
  { rewrite Harr in Heq. apply (f_equal length) in Heq. rewrite length_app in Heq. cbn in Heq. lia. }
  rewrite Harr in Hreq. apply app_inj_2 in Hreq as [_ [= <-]]; [|done].
  apply arrival_inv; try done.
  - by eapply reachable_fw_ok.
  - by eapply reachable_frames_inv.
  - by eapply reachable_requests_wf.
  - intros Hin. destruct Hi as [_ _ _ _ F5 _ _]. rewrite Forall_forall in F5.
    specialize (F5 _ Hin). lia.
  - eapply Forall_impl; [exact T2|]. by intros t [? _].
Qed.

(** And in every state after that. *)
Lemma arrived_request_inv r max (o : W) st0 f st :
  reg_safe r → fw_ok o → fw_calls o = [] → client_reachable r max o st0 →
  frame_wf ABSOLUTE_MAX_PAYLOAD_SIZE f → arrives_as c r f st0 →
  rtc (cstep r) (dispatch_frame r f st0) st →
  (∀ c', c' ∈ c_requests st → ctx_request_id c' = ctx_request_id c → c' = c) →
  scripted T K l [] (handler_task r (ctx_method_id c) (payload f) c) →
  client_reachable r max o st ∧ c ∈ c_requests st ∧ request_inv T K c st.
Proof.
  intros Hr Hok Hnone Hs Hf Harr Hrun Huniq Hscr.
  assert (Hs' : client_reachable r max o (dispatch_frame r f st0))
    by (eapply rtc_r; [exact Hs|by apply cs_frame]).
  assert (Hgoal : client_reachable r max o st ∧ c ∈ c_requests st ∧
    ((∀ c', c' ∈ c_requests st → ctx_request_id c' = ctx_request_id c → c' = c) →
     request_inv T K c st)); [|by destruct Hgoal as (? & ? & ?); auto].
  clear Huniq. revert st Hrun. refine (rtc_ind_r _ (dispatch_frame r f st0) _ _).
  { split_and!; [done|unfold arrives_as in Harr; rewrite Harr; set_solver|].
    intros Huniq. by eapply dispatched_request_inv. }
  intros st st' _ Hst (Hreach & Hc & IH).
  assert (Hsub : ∀ c', c' ∈ c_requests st → c' ∈ c_requests st').
  { destruct (cstep_requests _ _ _ Hst) as [->|(g & ctx & _ & ->)]; [done|set_solver]. }
  split_and!; [by eapply rtc_r|by apply Hsub|]. intros Huniq.
  assert (Huniq' : ∀ c', c' ∈ c_requests st → ctx_request_id c' = ctx_request_id c → c' = c)
    by auto.
  destruct (reachable_table_inv _ _ _ _ Hreach) as [_ T2 T3 _ _].
  pose proof (reachable_calls _ _ _ _ Hreach) as Hcalls. rewrite Hnone in Hcalls.
  eapply cstep_request_inv; eauto using reachable_frames_inv, reachable_requests_wf.
Qed.
End Steps.

(** Contexts of requests send. *)
Lemma arrives_as_writer `{TP : ThirdParty} `{!Serialize string} {W} r f (st : client W) c :
  arrives_as c r f st → ctx_writer c = true.
Proof.
  unfold arrives_as, dispatch_frame.
  repeat case_match; cbn [c_requests]; intros Heq;
    try (apply (f_equal length) in Heq; rewrite length_app in Heq; cbn in Heq; lia).
  by apply app_inj_2 in Heq as [_ [= <-]].
Qed.

(** *** Handlers that use their context *)
Section Calls.
Context `{TP : ThirdParty} `{!Serialize string}.
Variables (T : list OutboundFrame → Prop) (K : list OutboundFrame → Result unit → Prop).
Variable c : RequestContext.
Implicit Types (ok : list OutboundFrame) (body : Result bytes).

(** The frame of a call of the context with these flags and this payload. *)
Definition ctx_out (fl : u8) (pl : bytes) : OutboundFrame :=
  new_outbound (new_header (ctx_method_id c) fl (ctx_request_id c) (wrap 32 (zlen pl))) pl.

Hypothesis Hwriter : ctx_writer c = true.

Lemma scripted_chunk ok fl body :
  (∀ e, body = Err e → K ok (Err e)) →
  (∀ pl, body = Ok pl →
    T (ok ++ [ctx_out fl pl]) ∧ ∀ r, K (accepts ok (ctx_out fl pl) r) r) →
  scripted T K (ctx_responded c) ok (try_ok body (send_frame c fl)).
Proof.
  intros He Ho. destruct body as [pl|e]; cbn [try_ok]; [|apply sc_ret; auto].
  destruct (Ho pl eq_refl) as [HT HK]. unfold send_frame. rewrite Hwriter.
  apply sc_send; [exact HT|]. intros r. apply sc_ret, HK.
Qed.

Lemma scripted_terminal ok fl body :
  K ok (Err ResponseAlreadySent) → (∀ e, body = Err e → K ok (Err e)) →
  (∀ pl, body = Ok pl →
    T (ok ++ [ctx_out fl pl]) ∧ ∀ r, K (accepts ok (ctx_out fl pl) r) r) →
  scripted T K (ctx_responded c) ok (ptry (mark_responded c) (try_ok body (send_frame c fl))).
Proof.
  intros Ha He Ho. unfold ptry, mark_responded. cbn [pbind].
  apply sc_swap. intros []; cbn [pbind]; [by apply sc_ret|by apply scripted_chunk].
Qed.
End Calls.

(** The task of a request, from its handler: after an error it may add one
    error frame. *)
Lemma scripted_task `{TP : ThirdParty} `{!Serialize string} T K (r : HandlerRegistry) pl
  (c : RequestContext) :
  ctx_writer c = true →
  scripted T K (ctx_responded c) [] (dispatch r (ctx_method_id c) pl c) →
  (∀ ok e m, K ok (Err e) → msgpack_encode (error_to_string e) = Ok m →
     T (ok ++ [ctx_out c (error_flags c) m])) →
  scripted T (λ _ _, True) (ctx_responded c) [] (handler_task r (ctx_method_id c) pl c).
Proof.
  intros Hw Hd He. unfold handler_task. eapply scripted_bind; [exact Hd|].
  intros ok [u|e] HK; [by apply sc_ret|]. apply sc_load. intros []; [by apply sc_ret|].
  apply (scripted_bind _ (λ _ _, True)); [|intros; by apply sc_ret].
  apply scripted_terminal; [done..|]. intros m Hm. split; [by eapply He|done].
Qed.

(** *** Down to the parent *)
Section Parent.
Context `{TP : ThirdParty} `{!Serialize string} {W : Type} `{!AsyncWrite W} `{!AsyncWriteOk W}.
Variable cfg : WriterConfig.
#[local] Existing Instance writer_task_frame_writer.
Implicit Types (st : client (wsys W)).

(** The frames of the request [c] whose call of [send] has returned [Ok]. *)
Definition sent_ok st (c : RequestContext) : list OutboundFrame := accepted_of (FrameWriter0 := writer_task_frame_writer cfg) c (c_world st).

Lemma arrived_in_task (r : HandlerRegistry) (max : nat) (w : W) st0 f st (c : RequestContext) T K :
  reg_safe r → client_reachable (FrameWriter0 := writer_task_frame_writer cfg) r max (fresh_wsys w) st0 →
  frame_wf ABSOLUTE_MAX_PAYLOAD_SIZE f → arrives_as c r f st0 →
  rtc (cstep (FrameWriter0 := writer_task_frame_writer cfg) r) (dispatch_frame r f st0) st →
  (∀ c', c' ∈ c_requests st → ctx_request_id c' = ctx_request_id c → c' = c) →
  scripted T K (ctx_responded c) [] (handler_task r (ctx_method_id c) (payload f) c) →
  client_reachable (FrameWriter0 := writer_task_frame_writer cfg) r max (fresh_wsys w) st ∧ request_inv (FrameWriter0 := writer_task_frame_writer cfg) T K c st.
Proof.
  intros Hr Hs Hf Harr Hrun Huniq Hscr.
  destruct (arrived_request_inv (FrameWriterOk0 := writer_task_frame_writer_ok cfg)
    (FrameWriterOrdered0 := writer_task_frame_writer_ordered cfg) T K c r max (fresh_wsys w)
    st0 f st) as (Hs' & _ & Hi); try done.
  exists (written w). apply spawn_inv.
Qed.

(** What the parent has got of the request: a beginning of those frames; all of
    them but the ones in the batch and in the channel, as long as nothing is
    refused or fails and the parent has read what was written. *)
Lemma frames_in_order (r : HandlerRegistry) (max : nat) (w : W) st (c : RequestContext) T K
  (pmax : u32) (chunks : list bytes) :
  reg_safe r → spawn_writer_task w cfg = Some (fresh_wsys w) → written w = [] →
  client_reachable (FrameWriter0 := writer_task_frame_writer cfg) r max (fresh_wsys w) st → request_inv (FrameWriter0 := writer_task_frame_writer cfg) T K c st →
  Forall ob_fits (w_accepted (out (c_world st))) →
  Forall is_bytes chunks → readable (out (c_world st)) (concat chunks) →
  let of_request := filter (ob_belongs (ctx_request_id c)) in
  ∃ got fb e, push_chunks (with_max_payload pmax) chunks = (fb, got, e)
    ∧ of_request (ob_of <$> got) `prefix_of` sent_ok st c
    ∧ (sent_ok st c = [] ∨ T (sent_ok st c))
    ∧ sent_ok st c `sublist_of` sent_by (ctx_responded c) (sends (c_world st))
    ∧ (e = None ∨ Exists (over_limit pmax) (w_accepted (out (c_world st))))
    ∧ (e = None → (∀ x, w_task (out (c_world st)) ≠ TExit (Err x)) →
       concat chunks = written (w_sink (out (c_world st))) →
       sent_ok st c = of_request (ob_of <$> got)
         ++ of_request (task_batch (w_task (out (c_world st))) ++ w_queue (out (c_world st)))).
Proof.
  intros Hr Hsp Hw Hs [R1 _ _ _ R5] Hfit Hb Hread of_request.
  assert (Hinv : w_senders (fresh_wsys w) = [] ∧ w_inv (written w) (fresh_wsys w))
    by (split; [done|apply spawn_inv]).
  destruct (client_runs_writer cfg r max (fresh_wsys w) st Hr eq_refl Hs) as [Hrun _].
  destruct (accepted_frames cfg r max _ _ st Hr Hinv Hs Hfit) as (fs & Hacc & Hfs & _).
  destruct (peer_parses w cfg (out (c_world st)) pmax fs chunks)
    as (got & missing & fb & e & Hpush & -> & He & Hall); try done; [by exists (fresh_wsys w)|].
  assert (Hsent : sent_ok st c = of_request (ob_of <$> got) ++ of_request (ob_of <$> missing)).
  { unfold in_order in R5. cbn [fw_sent writer_task_frame_writer] in R5.
    unfold sent_ok. rewrite <- R5, Hacc, fmap_app. apply filter_app. }
  exists got, fb, e. split; [done|].
  split_and!; [rewrite Hsent; by eexists|done|apply ok_sent_sublist|done|].
  intros Hne Hok Hcat. destruct (Hall Hne Hok Hcat) as [<- _]. done.
Qed.
End Parent.

(** ** Properties *)

(** C3: order and gaps.  Let a request arrive whose handler, for the payload it
    carries, waits for each of its sends before the next and spawns nothing,
    and let [T] hold of the frames it has had accepted, whatever [send] returns
    to it.  In every later state of the client on its writer task, whatever
    the other requests do, as long as its id is used for no other request and
    no accepted payload has 4 GiB: the frames of the request which the parent
    has got, with any limit and in any cut, are the first of those whose call
    of [send] has returned [Ok], in the order of the calls, none missing in
    between and none twice; and [T] holds of these.  The parent meets an error
    only if an accepted frame is over its limit; when it meets none, no write
    has failed and it has read everything written, it lacks only the frames of
    the current batch and the channel. *)
Theorem request_frames_in_order `{TP : ThirdParty} `{!Serialize string} {W}
  `{!AsyncWrite W} `{!AsyncWriteOk W} (cfg : WriterConfig) (r : HandlerRegistry) (max : nat)
  (w : W) (y0 : wsys W) (st0 st : client (wsys W)) (f : Frame) (c : RequestContext)
  (T : list OutboundFrame → Prop) (K : list OutboundFrame → Result unit → Prop)
  (pmax : u32) (chunks : list bytes) :
  reg_safe r → spawn_writer_task w cfg = Some y0 → written w = [] →
  client_reachable (FrameWriter0 := writer_task_frame_writer cfg) r max y0 st0 →
  frame_wf ABSOLUTE_MAX_PAYLOAD_SIZE f → arrives_as c r f st0 →
  scripted T K (ctx_responded c) [] (handler_task r (ctx_method_id c) (payload f) c) →
  rtc (cstep (FrameWriter0 := writer_task_frame_writer cfg) r) (dispatch_frame r f st0) st →
  (∀ c', c' ∈ c_requests st → ctx_request_id c' = ctx_request_id c → c' = c) →
  Forall ob_fits (w_accepted (out (c_world st))) →
  Forall is_bytes chunks → readable (out (c_world st)) (concat chunks) →
  let of_request := filter (ob_belongs (ctx_request_id c)) in
  ∃ got fb e, push_chunks (with_max_payload pmax) chunks = (fb, got, e)
    ∧ of_request (ob_of <$> got) `prefix_of` sent_ok cfg st c
    ∧ (sent_ok cfg st c = [] ∨ T (sent_ok cfg st c))
    ∧ sent_ok cfg st c `sublist_of` sent_by (ctx_responded c) (sends (c_world st))
    ∧ (e = None ∨ Exists (over_limit pmax) (w_accepted (out (c_world st))))
    ∧ (e = None → (∀ x, w_task (out (c_world st)) ≠ TExit (Err x)) →
       concat chunks = written (w_sink (out (c_world st))) →
       sent_ok cfg st c = of_request (ob_of <$> got)
         ++ of_request (task_batch (w_task (out (c_world st))) ++ w_queue (out (c_world st)))).
Proof.
  intros Hr Hsp Hw Hs0 Hf Harr Hscr Hrun Huniq Hfit Hb Hread.
  pose proof (spawned_fresh _ _ _ Hsp) as ->.
  destruct (arrived_in_task cfg r max w st0 f st c T K) as [Hs Hi]; try done.
  by apply (frames_in_order cfg r max w st c T K).
Qed.

(** *** A concrete run *)
Section Demo.
#[local] Existing Instance string_errors.
#[local] Existing Instance text_serialize.

Definition one_frame (fs : list OutboundFrame) : Prop := length fs = 1%nat.

(** The handler of [demo_registry] answers at most once. *)
Lemma demo_task_scripted (c : RequestContext) pl :
  ctx_writer c = true → ctx_method_id c = 1 →
  scripted one_frame (λ _ _, True) (ctx_responded c) []
    (handler_task demo_registry (ctx_method_id c) pl c).
Proof.
  intros Hw Hm.
  apply (scripted_task one_frame (λ ok r, ∀ e, r = Err e → ok = [])); [done| |].
  - rewrite Hm. cbn. apply sc_input. intros n. case_decide; [by apply sc_ret|].
    apply (scripted_bind _ (λ ok r, ∀ e, r = Err e → ok = [])); [|by intros; apply sc_ret].
    apply (scripted_terminal _ _ c Hw [] flags.RESPONSE (Ok pl)); [done..|].
    intros pl' [= <-]. split; [done|]. by intros [u|e].
  - intros ok e m Hok _. by rewrite (Hok e eq_refl).
Qed.

Lemma request_frames_in_order_witness :
  ∃ got fb, push_chunks (with_max_payload 1000)
              [take 4 (frame_bytes answer_frame); drop 4 (frame_bytes answer_frame)]
            = (fb, got, None)
    ∧ (length (filter (ob_belongs 7) (ob_of <$> got)) ≤ 1)%nat.
Proof.
  destruct answered_run as (st & Hrun & Hreq & Hout).
  set (chunks := [take 4 (frame_bytes answer_frame); drop 4 (frame_bytes answer_frame)]).
  set (c := with_writer_and_token 1 7 RtResult 1 2).
  destruct (request_frames_in_order default_config demo_registry 2 empty_pipe
              (fresh_wsys empty_pipe) (start_client 2 (fresh_wsys empty_pipe)) st (demo_req 1 7) c
              one_frame (λ _ _, True) 1000 chunks)
    as (got & fb & e & Hpush & Hpre & Hfs & _ & He & _);
    [exact demo_registry_safe|reflexivity|reflexivity|apply rtc_refl
    |apply demo_req_wf; [lia|split; vm_compute; congruence]|reflexivity
    |by apply demo_task_scripted|exact Hrun
    |intros c'; rewrite Hreq; by intros ->%list_elem_of_singleton
    |rewrite Hout; exact answer_fits
    |repeat constructor; vm_compute; congruence|rewrite Hout; by exists []|].
  rewrite Hout in He.
  destruct He as [->|He%(bool_decide_eq_true_2 _)]; [|vm_compute in He; discriminate].
  exists got, fb. split; [exact Hpush|].
  apply prefix_length in Hpre. etrans; [exact Hpre|].
  destruct Hfs as [->|Hfs]; [cbn; lia|unfold one_frame in Hfs; lia].
Defined.
End Demo.
