(* ===== verification/Examples.v ===== *)
(** * The example workers (examples/)

    The handlers of echo.rs, stream.rs and events.rs as programs, the clients
    they build, and what the parent gets from them.  For events.rs, [main], the
    spawned emitter and the [Mutex<Option<Client>>] they share are a small
    system [app_step]. *)

From S2P Require Import Prelude Errors WireFormat Frame FrameBuffer Codec Writer WriterTask.
From S2P Require Import Json Init Program WriterImpl Context Registry Client EndToEnd Answered Order.

(** ** examples/echo.rs *)
Record EchoInput := { message : string }.
Record EchoOutput := { echo : string }.

(** ** examples/events.rs *)
Record WorkInput := { steps : u32 }.
Record ProgressEvent := { percent : u32; progress_message : string }.

(** [(i * 100) / steps] on [u32]; [None] is the panic on overflow in builds
    with overflow checks. *)
Definition percent_of (overflow_checks : bool) (i steps : u32) : option u32 :=
  if decide (i * 100 < 2 ^ 32) then Some (i * 100 / steps)
  else if overflow_checks then None else Some (wrap 32 (i * 100) / steps).

Definition progress_event (i steps percent : u32) : ProgressEvent :=
  {| percent := percent;
     progress_message := "Step " +:+ pretty i +:+ " of " +:+ pretty steps |}.

(** Where the emitter task is: in [rx.recv], in the sleep of a step, about to
    lock the client, in [emit] with the lock held, or panicked. *)
Inductive emitter_pc :=
| EmRecv
| EmSleep (steps i : u32)
| EmLock (steps i : u32) (e : ProgressEvent)
| EmEmit (steps i : u32)
| EmPanicked.

(** Where [main] is: before [client.lock().await.take()], waiting for
    shutdown, or returned. *)
Inductive main_pc := MainTake | MainWait | MainDone.

(** The channel of work, whether the shared option is [Some], and the events
    passed to [emit] so far. *)
Record events_app := {
  ea_queue : list u32;
  ea_client : bool;
  ea_main : main_pc;
  ea_emitter : emitter_pc;
  ea_emits : list ProgressEvent
}.

Definition events_start : events_app :=
  {| ea_queue := []; ea_client := true; ea_main := MainTake; ea_emitter := EmRecv;
     ea_emits := [] |}.

Definition set_emitter (pc : emitter_pc) (a : events_app) : events_app :=
  {| ea_queue := ea_queue a; ea_client := ea_client a; ea_main := ea_main a;
     ea_emitter := pc; ea_emits := ea_emits a |}.

(** The next round of [for i in 1..=steps], after round [i]. *)
Definition next_round (steps i : u32) : emitter_pc :=
  if decide (i < steps) then EmSleep steps (i + 1) else EmRecv.

Inductive app_step (overflow_checks : bool) (a : events_app) : events_app → Prop :=
| ap_work n : (* a handler sends its parameters; the channel holds ten *)
    (length (ea_queue a) < 10)%nat →
    app_step overflow_checks a
      {| ea_queue := ea_queue a ++ [n]; ea_client := ea_client a; ea_main := ea_main a;
         ea_emitter := ea_emitter a; ea_emits := ea_emits a |}
| ap_recv n q :
    ea_emitter a = EmRecv → ea_queue a = n :: q →
    app_step overflow_checks a
      {| ea_queue := q; ea_client := ea_client a; ea_main := ea_main a;
         ea_emitter := next_round n 0; ea_emits := ea_emits a |}
| ap_woken n i p :
    ea_emitter a = EmSleep n i → percent_of overflow_checks i n = Some p →
    app_step overflow_checks a (set_emitter (EmLock n i (progress_event i n p)) a)
| ap_overflow n i :
    ea_emitter a = EmSleep n i → percent_of overflow_checks i n = None →
    app_step overflow_checks a (set_emitter EmPanicked a)
| ap_emit n i e :
    ea_emitter a = EmLock n i e → ea_client a = true →
    app_step overflow_checks a
      {| ea_queue := ea_queue a; ea_client := ea_client a; ea_main := ea_main a;
         ea_emitter := EmEmit n i; ea_emits := ea_emits a ++ [e] |}
| ap_no_client n i e :
    ea_emitter a = EmLock n i e → ea_client a = false →
    app_step overflow_checks a (set_emitter (next_round n i) a)
| ap_emitted n i :
    ea_emitter a = EmEmit n i → app_step overflow_checks a (set_emitter (next_round n i) a)
| ap_emit_failed n i : (* [break] *)
    ea_emitter a = EmEmit n i → app_step overflow_checks a (set_emitter EmRecv a)
| ap_take : (* the lock is free *)
    ea_main a = MainTake → (∀ n i, ea_emitter a ≠ EmEmit n i) →
    app_step overflow_checks a
      {| ea_queue := ea_queue a; ea_client := false;
         ea_main := if ea_client a then MainWait else MainDone;
         ea_emitter := ea_emitter a; ea_emits := ea_emits a |}
| ap_shutdown :
    ea_main a = MainWait →
    app_step overflow_checks a
      {| ea_queue := ea_queue a; ea_client := ea_client a; ea_main := MainDone;
         ea_emitter := ea_emitter a; ea_emits := ea_emits a |}.

(** ** examples/stream.rs *)
Record GenerateInput := { count : usize }.
Record Chunk := { index : usize; data : string }.

Section Workers.
Context `{TP : ThirdParty} `{!Serialize string}.
Context `{!DeserializeOwned EchoInput} `{!Serialize EchoOutput}.
Context `{!DeserializeOwned GenerateInput} `{!Serialize Chunk} `{!DeserializeOwned WorkInput}.

Definition echo_handler (d : EchoInput) (ctx : RequestContext) : prog :=
  pbind (respond ctx {| echo := message d |}) Ret.

Definition echo_builder (oc : bool) : option ClientBuilder :=
  handle oc new_builder "echo" echo_handler.

(** Acknowledges, then waits for room in the channel of work. *)
Definition work_handler (d : WorkInput) (ctx : RequestContext) : prog :=
  ptry (ack ctx) (Input (λ _, Ret (Ok tt))).

Definition events_builder (oc : bool) : option ClientBuilder :=
  b ← handle_ack oc new_builder "start_work" work_handler; event oc b "progress".

Definition chunk_of (i : usize) : Chunk := {| index := i; data := "Chunk " +:+ pretty i |}.

(** [tokio::time::sleep]: time passes. *)
Definition sleep (k : prog) : prog := Input (λ _, k).

(** The loop over [i..i + n], and what follows it. *)
Fixpoint generate_from (ctx : RequestContext) (i : usize) (n : nat) : prog :=
  match n with
  | O => pbind (end_stream ctx) Ret
  | S n => ptry (chunk ctx (chunk_of i)) (sleep (generate_from ctx (i + 1) n))
  end.

Definition generate_handler (d : GenerateInput) (ctx : RequestContext) : prog :=
  generate_from ctx 0 (Z.to_nat (count d)).

Definition stream_builder (oc : bool) : option ClientBuilder :=
  handle_stream oc new_builder "generate" generate_handler.

(** ** Specification *)

(** The payloads of the first chunks, from 0, none missing. *)
Definition chunk_payloads (pls : list bytes) : Prop :=
  ∀ i pl, pls !! i = Some pl → msgpack_encode (chunk_of (Z.of_nat i)) = Ok pl.

(** [k] of [n] chunks are out: the stream goes on, or it has ended after the
    last, or with an error. *)
Definition stream_tail (ctx : RequestContext) (n k : nat) (fs : list OutboundFrame) : Prop :=
  (fs = [] ∧ (k ≤ n)%nat)
  ∨ (fs = [ctx_out ctx flags.STREAM_END_RESPONSE []] ∧ k = n)
  ∨ ((∃ m, fs = [ctx_out ctx (error_flags ctx) m]) ∧ (k ≤ n)%nat).

Definition stream_frames (ctx : RequestContext) (n : nat) (fs : list OutboundFrame) : Prop :=
  ∃ pls tail, chunk_payloads pls ∧ stream_tail ctx n (length pls) tail
    ∧ fs = (ctx_out ctx flags.STREAM_CHUNK <$> pls) ++ tail.

(** What a request of [generate] may have been sent, by what its payload
    decodes to. *)
Definition generate_frames (ctx : RequestContext) (input : Result GenerateInput)
  (fs : list OutboundFrame) : Prop :=
  match input with
  | Ok d => stream_frames ctx (Z.to_nat (count d)) fs
  | Err e => fs = [] ∨ ∃ m, msgpack_encode (error_to_string e) = Ok m
                        ∧ fs = [ctx_out ctx (error_flags ctx) m]
  end.

(** ** Lemmas *)

Lemma generate_uses ctx i n : uses_ctx ctx (generate_from ctx i n).
Proof.
  revert i. induction n as [|n IH]; intros i; cbn [generate_from].
  - apply uc_call; [apply cc_end|intros r; apply uc_ret].
  - unfold ptry. apply uc_call; [apply cc_chunk|]. intros [u|e]; [|apply uc_ret].
    apply uc_input. intros _. apply IH.
Qed.

Lemma stream_registry oc b :
  stream_builder oc = Some b →
  cb_registry b = {|
    methods := {["generate"%string :=
      {| me_handler := call (typed_new generate_handler); me_response_type := RtStream;
         me_id := 1 |}]};
    events := ∅; next_method_id := 2; next_event_id := 1;
    id_to_name := {[1 := "generate"%string]} |}.
Proof. unfold stream_builder, handle_stream, register. cbn. by intros [= <-]. Qed.

Lemma stream_registry_safe oc b : stream_builder oc = Some b → reg_safe (cb_registry b).
Proof.
  intros ->%stream_registry name e He pl ctx. cbn in He.
  apply lookup_singleton_Some in He as [_ <-]. cbn. unfold call.
  destruct (msgpack_decode pl); [apply generate_uses|constructor].
Qed.

Lemma stream_dispatch oc b pl ctx :
  stream_builder oc = Some b →
  dispatch (cb_registry b) 1 pl ctx = call (typed_new generate_handler) pl ctx.
Proof. by intros ->%stream_registry. Qed.

(** The chunks so far and the next one. *)
Lemma chunk_payloads_next pls pl :
  chunk_payloads pls → msgpack_encode (chunk_of (zlen pls)) = Ok pl →
  chunk_payloads (pls ++ [pl]).
Proof.
  intros Hpls Hpl i p [Hi|[Hge Hi]]%lookup_app_Some; [by apply Hpls|].
  apply list_lookup_singleton_Some in Hi as [Hz <-].
  by replace i with (length pls) by lia.
Qed.

(** An error leaves a run of chunks, to which an error frame may be added. *)
Definition stream_result (ctx : RequestContext) (n : nat) (ok : list OutboundFrame)
  (r : Result unit) : Prop :=
  ∀ e, r = Err e → ∃ pls, chunk_payloads pls ∧ (length pls ≤ n)%nat
    ∧ ok = ctx_out ctx flags.STREAM_CHUNK <$> pls.

Lemma generate_scripted ctx pls n :
  ctx_writer ctx = true → chunk_payloads pls →
  scripted (stream_frames ctx (length pls + n)) (stream_result ctx (length pls + n))
    (ctx_responded ctx) (ctx_out ctx flags.STREAM_CHUNK <$> pls) (generate_from ctx (zlen pls) n).
Proof.
  intros Hw. remember (length pls + n)%nat as total eqn:Htotal.
  revert pls Htotal. induction n as [|n IH]; intros pls Htotal Hpls; cbn [generate_from].
  - apply (scripted_bind _ (stream_result ctx total)); [|intros; by apply sc_ret].
    assert (Hres : ∀ r, stream_result ctx total (ctx_out ctx flags.STREAM_CHUNK <$> pls) r)
      by (intros r e _; exists pls; split_and!; [done|lia|done]).
    apply (scripted_terminal _ _ ctx Hw _ _ (Ok [])); [apply Hres|done|].
    intros pl [= <-]. split; [|intros [u|e]; [done|apply Hres]].
    eexists pls, _. split; [done|]. split; [|reflexivity]. right. left. split; [done|lia].
  - set (K := λ ok (r : Result unit),
      match r with
      | Ok _ => ∃ pl, msgpack_encode (chunk_of (zlen pls)) = Ok pl
                 ∧ ok = ctx_out ctx flags.STREAM_CHUNK <$> (pls ++ [pl])
      | Err _ => ok = ctx_out ctx flags.STREAM_CHUNK <$> pls
      end).
    apply (scripted_bind _ K).
    + apply scripted_chunk; [done|by intros|]. intros pl Hpl.
      split.
      * exists (pls ++ [pl]), []. rewrite app_nil_r.
        split_and!; [by apply chunk_payloads_next| |by rewrite fmap_app].
        left. split; [done|]. rewrite length_app. cbn. lia.
      * intros [u|e]; cbn; [|done]. exists pl. by rewrite fmap_app.
    + intros ok [u|e] HK.
      2:{ apply sc_ret. intros e' _. exists pls. split_and!; [done|lia|exact HK]. }
      destruct HK as (pl & Hpl & ->). apply sc_input. intros _.
      replace (zlen pls + 1) with (zlen (pls ++ [pl])) by (rewrite length_app; cbn; lia).
      apply IH; [rewrite length_app; cbn; lia|by apply chunk_payloads_next].
Qed.

(** The whole task of a request. *)
Lemma generate_task_scripted oc b ctx pl :
  stream_builder oc = Some b → ctx_writer ctx = true → ctx_method_id ctx = 1 →
  scripted (generate_frames ctx (msgpack_decode pl)) (λ _ _, True) (ctx_responded ctx) []
    (handler_task (cb_registry b) (ctx_method_id ctx) pl ctx).
Proof.
  intros Hb Hw Hm.
  apply (scripted_task _ (λ ok r, ∀ e, r = Err e →
    match msgpack_decode pl with
    | Ok d => stream_result ctx (Z.to_nat (count d)) ok (Err e)
    | Err e' => e = e' ∧ ok = []
    end)); [done| |].
  - rewrite Hm, (stream_dispatch _ _ _ _ Hb). unfold call, generate_frames.
    destruct (msgpack_decode pl) as [d|e]; [|by apply sc_ret; intros e' [= <-]].
    eapply scripted_impl; [| |apply (generate_scripted ctx []); [done|by intros ??]]; [done|].
    intros ok res Hres e ->. exact Hres.
  - intros ok e m Hok Hm'. specialize (Hok e eq_refl). unfold generate_frames.
    destruct (msgpack_decode pl) as [d|e'].
    + destruct (Hok e eq_refl) as (pls & Hpls & Hlen & ->). eexists pls, _.
      split_and!; [done| |reflexivity]. right. right. split; [by eexists|done].
    + destruct Hok as [-> ->]. right. by exists m.
Qed.

Lemma echo_dispatch oc b pl ctx :
  echo_builder oc = Some b →
  dispatch (cb_registry b) 1 pl ctx = call (typed_new echo_handler) pl ctx.
Proof. unfold echo_builder, handle, register. cbn. by intros [= <-]. Qed.

(** *** The workers answer every request *)

Lemma typed_answers {T} `{!DeserializeOwned T} (f : T → RequestContext → prog) pl ctx :
  (∀ v, answering ctx (f v ctx)) → answering ctx (call (typed_new f) pl ctx).
Proof.
  intros Hf. unfold call. destruct (msgpack_decode pl); [apply Hf|].
  split; [constructor|by apply en_ret].
Qed.

(** A terminal call that can be encoded, and what follows it. *)
Lemma terminal_answers ctx p fl d k :
  ctx_writer ctx = true → terminal_call ctx p fl (Ok d) →
  (∀ r, takes (ctx_responded ctx) (k r)) → answering ctx (pbind p k).
Proof.
  intros Hw Hc Hk. split.
  - apply takes_bind; [by eapply terminal_call_takes|done].
  - eapply ends_bind; [exact (terminal_call_ends _ _ _ _ (λ _, False) Hc)|done].
Qed.

Lemma generate_answers ctx i n : ctx_writer ctx = true → answering ctx (generate_from ctx i n).
Proof.
  intros Hw. revert i. induction n as [|n IH]; intros i; cbn [generate_from].
  - eapply terminal_answers; [done|apply tc_end|constructor].
  - pose proof (ck_chunk ctx (chunk_of i)) as Hc. split.
    + apply takes_bind; [by eapply chunk_call_takes|].
      intros [u|e]; [|constructor]. apply tk_input. intros _. apply IH.
    + eapply ends_bind; [by eapply chunk_call_ends|].
      intros [u|e] _; [|by apply en_ret]. apply en_input. intros _. apply IH.
Qed.

Lemma stream_always_answers oc b : stream_builder oc = Some b → always_answers (cb_registry b) 1.
Proof.
  intros Hb pl ctx Hw _. rewrite (stream_dispatch oc) by done.
  apply typed_answers. intros v. by apply generate_answers.
Qed.

Lemma echo_always_answers oc b :
  (∀ o : EchoOutput, ∃ d, msgpack_encode o = Ok d) →
  echo_builder oc = Some b → always_answers (cb_registry b) 1.
Proof.
  intros Henc Hb pl ctx Hw _. rewrite (echo_dispatch oc) by done.
  apply typed_answers. intros v. destruct (Henc {| echo := message v |}) as [d Hd].
  eapply terminal_answers; [done| |constructor]. rewrite <- Hd. constructor.
Qed.

(** An acknowledgement has nothing to encode. *)
Lemma work_answers v ctx : ctx_writer ctx = true → answering ctx (work_handler v ctx).
Proof.
  intros Hw. eapply terminal_answers; [done|apply tc_ack|].
  intros [u|e]; [apply tk_input; intros _|]; constructor.
Qed.
End Workers.

(** Once [main] has taken the client, nothing is emitted. *)
Lemma app_step_taken oc a a' :
  app_step oc a a' → ea_client a = false ∧ ea_main a ≠ MainTake →
  (ea_client a' = false ∧ ea_main a' ≠ MainTake) ∧ ea_emits a' = ea_emits a.
Proof. intros [] [Hc Hm]; cbn; try congruence; auto; by rewrite Hc. Qed.

Lemma app_step_client oc a a' :
  app_step oc a a' → (ea_client a = true ↔ ea_main a = MainTake) →
  (ea_client a' = true ↔ ea_main a' = MainTake).
Proof.
  intros [| | | | | | | |Hm|Hm] Hi; cbn; try exact Hi.
  - destruct (ea_client a); done.
  - rewrite Hi, Hm. done.
Qed.

(** ** Properties *)

(** C26: the worker of examples/stream.rs.  Let a request of [generate] arrive,
    and let its id be used for no other request and no accepted payload have
    4 GiB.  In every later state, whatever the other requests do and whatever
    [send] returns, the frames the parent has got for it, in any cut and with
    any limit, are a beginning of those accepted, which are: the chunks 0, 1,
    2, ... in this order with none missing, at most as many as the request
    asked for; and then nothing, the end of the stream, which comes after
    exactly that many chunks, or one error frame.  If the payload does not
    decode, it is nothing or one error frame with the printed error.  The
    parent meets an error only if an accepted frame is over its limit. *)
Theorem stream_in_order `{TP : ThirdParty} `{!Serialize string} `{!DeserializeOwned GenerateInput}
  `{!Serialize Chunk} {W} `{!AsyncWrite W} `{!AsyncWriteOk W} (oc : bool) (b : ClientBuilder)
  (cfg : WriterConfig) (max : nat) (w : W) (y0 : wsys W) (st0 st : client (wsys W)) (f : Frame)
  (c : RequestContext) (pmax : u32) (chunks : list bytes) :
  stream_builder oc = Some b → spawn_writer_task w cfg = Some y0 → written w = [] →
  client_reachable (FrameWriter0 := writer_task_frame_writer cfg) (cb_registry b) max y0 st0 →
  frame_wf ABSOLUTE_MAX_PAYLOAD_SIZE f → arrives_as c (cb_registry b) f st0 →
  ctx_method_id c = 1 →
  rtc (cstep (FrameWriter0 := writer_task_frame_writer cfg) (cb_registry b))
    (dispatch_frame (cb_registry b) f st0) st →
  (∀ c', c' ∈ c_requests st → ctx_request_id c' = ctx_request_id c → c' = c) →
  Forall ob_fits (w_accepted (out (c_world st))) →
  Forall is_bytes chunks → readable (out (c_world st)) (concat chunks) →
  ∃ got fb e, push_chunks (with_max_payload pmax) chunks = (fb, got, e)
    ∧ filter (ob_belongs (ctx_request_id c)) (ob_of <$> got) `prefix_of` sent_ok cfg st c
    ∧ generate_frames c (msgpack_decode (payload f)) (sent_ok cfg st c)
    ∧ (e = None ∨ Exists (over_limit pmax) (w_accepted (out (c_world st)))).
Proof.
  intros Hb Hy0 Hw Hs0 Hf Harr Hm Hrun Huniq Hfit Hbytes Hread.
  pose proof (spawned_fresh _ _ _ Hy0) as ->.
  pose proof (stream_registry_safe _ _ Hb) as Hr.
  assert (Hwriter : ctx_writer c = true) by (by eapply arrives_as_writer).
  destruct (arrived_in_task cfg (cb_registry b) max w st0 f st c
    (generate_frames c (msgpack_decode (payload f))) (λ _ _, True)) as [Hs Hi]; try done.
  { by apply (generate_task_scripted oc). }
  destruct (frames_in_order cfg (cb_registry b) max w st c _ _ pmax chunks Hr Hy0 Hw Hs Hi
    Hfit Hbytes Hread) as (got & fb & e & Hpush & Hpre & Hsent & _ & He & _).
  exists got, fb, e. split_and!; [done..| |done]. destruct Hsent as [->|?]; [|done].
  unfold generate_frames. destruct (msgpack_decode (payload f)); [|by left].
  exists [], []. split_and!; [by intros ??|left; split; [done|cbn; lia]|done].
Qed.

(** The worker of examples/events.rs does not emit.  [main] takes the
    client out of the shared option, as its first action after the start and
    without waiting for any work: from then on, in every interleaving with
    the handlers and the emitter task, the emitter finds [None] and no event
    is ever passed to [emit]; and in every state before, [main] can take it
    unless an [emit] holds the lock. *)
Theorem events_worker_silent (oc : bool) (a : events_app) :
  rtc (app_step oc) events_start a →
  (ea_main a ≠ MainTake → ∀ a', rtc (app_step oc) a a' → ea_emits a' = ea_emits a)
  ∧ (ea_main a = MainTake → (∀ n i, ea_emitter a ≠ EmEmit n i) →
     ∃ a', app_step oc a a' ∧ ea_main a' = MainWait ∧ ea_emits a' = ea_emits a).
Proof.
  intros Hrun.
  assert (Hi : ea_client a = true ↔ ea_main a = MainTake).
  { revert a Hrun. refine (rtc_ind_r _ events_start _ _); [done|].
    intros a a' _ Hst. by eapply app_step_client. }
  split.
  - intros Hm a' Ha'.
    assert (Hinv : (ea_client a' = false ∧ ea_main a' ≠ MainTake) ∧ ea_emits a' = ea_emits a);
      [|by apply Hinv].
    revert a' Ha'. refine (rtc_ind_r _ a _ _).
    + split; [|done]. split; [|done]. destruct (ea_client a); [by destruct Hm; apply Hi|done].
    + intros a1 a2 _ Hst [Ht <-]. by eapply app_step_taken.
  - intros Hm Hlock. eexists. split; [by apply ap_take|]. cbn.
    by rewrite (proj2 Hi Hm).
Qed.

(** The progress of examples/events.rs.  With up to 42949672 steps the
    computation of a step's percentage does not overflow, it lies between 0
    and 100, does not decrease, and is 100 at the last step; with more steps
    the program panics at step 42949673 or, without overflow checks, reports
    0 percent there. *)
Theorem progress_percent (oc : bool) (i steps : u32) :
  1 ≤ i ≤ steps → fits 32 steps →
  (steps ≤ 42949672 →
     ∃ p, percent_of oc i steps = Some p ∧ 0 ≤ p ≤ 100
       ∧ percent_of oc steps steps = Some 100
       ∧ (i < steps → ∃ q, percent_of oc (i + 1) steps = Some q ∧ p ≤ q))
  ∧ (42949672 < steps →
     percent_of true 42949673 steps = None ∧ percent_of false 42949673 steps = Some 0).
Proof.
  intros Hi Hs. unfold percent_of. split; intros Hb.
  - rewrite !decide_True by lia. eexists. split_and!; [done| | | |].
    + apply Z.div_pos; lia.
    + apply Z.div_le_upper_bound; lia.
    + by rewrite Z.mul_comm, Z.div_mul by lia.
    + intros Hlt. rewrite decide_True by lia. eexists. split; [done|].
      apply Z.div_le_mono; lia.
  - rewrite !decide_False by lia. split; [done|]. f_equal. apply Z.div_small.
    change (wrap 32 (42949673 * 100)) with 4. lia.
Qed.

(** The worker of examples/echo.rs.  A request of [echo] whose payload
    decodes is answered by one response frame with the encoded message; one
    whose payload does not decode by one error frame with the printed error.
    Only when the answer does not encode nothing is sent. *)
Theorem echo_worker_answers `{TP : ThirdParty} `{!Serialize string} `{!DeserializeOwned EchoInput}
  `{!Serialize EchoOutput} {W} `{!FrameWriter W} (oc : bool) (b : ClientBuilder) (pl : bytes)
  (ctx : RequestContext) (w : world W) :
  echo_builder oc = Some b → ctx_writer ctx = true → cell w (ctx_responded ctx) = false →
  let marked := set_cell (ctx_responded ctx) w in
  let sent fl body :=
    match body with
    | Ok p => (begin_send (ctx_responded ctx) (ctx_out ctx fl p) marked, Ok tt, [])
    | Err _ => (marked, Ok tt, [InSend (Ok tt)])
    end in
  run (handler_task (cb_registry b) 1 pl ctx) w [InSend (Ok tt)]
  = Some match msgpack_decode pl with
         | Ok d => sent flags.RESPONSE (msgpack_encode {| echo := message d |})
         | Err e => sent (error_flags ctx) (msgpack_encode (error_to_string e))
         end.
Proof.
  intros Hb Hw Hc marked sent. unfold handler_task. rewrite (echo_dispatch _ _ _ _ Hb).
  assert (Hmarked : cell marked (ctx_responded ctx) = true) by apply cell_set_same.
  unfold call. destruct (msgpack_decode pl) as [d|e].
  - cbn [handler typed_new]. unfold echo_handler, respond, ptry, mark_responded.
    cbn [pbind run]. rewrite Hc. cbn [pbind].
    destruct (msgpack_encode {| echo := message d |}) as [p|e]; cbn [try_ok pbind].
    + unfold send_frame. rewrite Hw. done.
    + unfold has_responded. cbn [run]. fold marked. by rewrite Hmarked.
  - cbn [pbind]. unfold has_responded. cbn [run]. rewrite Hc.
    unfold error, ptry, mark_responded. cbn [pbind run]. rewrite Hc. cbn [pbind].
    destruct (msgpack_encode (error_to_string e)) as [p|e']; cbn [try_ok pbind]; [|done].
    unfold send_frame. by rewrite Hw.
Qed.

Section Demo.
#[local] Existing Instance string_errors.
#[local] Existing Instance text_serialize.

(** The payload is the number of chunks, the chunk its index. *)
Definition input_decoder : DeserializeOwned GenerateInput := λ bs,
  match bs with [n] => Ok {| count := n |} | _ => Err "input"%string end.
Definition chunk_encoder : Serialize Chunk := λ ch, Ok [index ch].
#[local] Existing Instance input_decoder.
#[local] Existing Instance chunk_encoder.

Definition stream_request : Frame := new_frame (new_header 1 0 7 1) [2].
Definition first_chunk : Frame := new_frame (new_header 1 flags.STREAM_CHUNK 7 1) [0].

Definition stream_client : ClientBuilder :=
  set_registry {|
    methods := {["generate"%string :=
      {| me_handler := call (typed_new generate_handler); me_response_type := RtStream;
         me_id := 1 |}]};
    events := ∅; next_method_id := 2; next_event_id := 1;
    id_to_name := {[1 := "generate"%string]} |} new_builder.

Lemma stream_client_eq : stream_builder true = Some stream_client.
Proof. reflexivity. Qed.

Lemma stream_request_wf : frame_wf ABSOLUTE_MAX_PAYLOAD_SIZE stream_request.
Proof.
  split; [split; split; vm_compute; congruence|vm_compute; split_and!; congruence|done|].
  repeat constructor; vm_compute; congruence.
Qed.

(** A request for two chunks; the first has reached the pipe. *)
Lemma stream_run :
  ∃ st, rtc (cstep (FrameWriter0 := writer_task_frame_writer default_config)
               (cb_registry stream_client))
          (dispatch_frame (cb_registry stream_client) stream_request
             (start_client 2 (fresh_wsys empty_pipe))) st
    ∧ c_requests st = [with_writer_and_token 1 7 RtStream 1 2]
    ∧ out (c_world st) = answer_state first_chunk [] (TSub 1) (answer_sink first_chunk).
Proof.
  eexists. split; [|shelve].
  eapply rtc_l; [eapply (cs_task _ _ _ []); [reflexivity|apply p_send]|].
  etrans; [apply client_writer_steps, (answer_accepted first_chunk)|].
  eapply rtc_l; [eapply (cs_task _ _ _ []); [reflexivity|apply (p_sent _ _ _ (Ok tt)); reflexivity]|].
  etrans; [apply client_writer_steps, answer_written; reflexivity|].
  apply rtc_refl.
  Unshelve. split; reflexivity.
Qed.

Lemma stream_in_order_witness :
  ∃ got fb sent,
    push_chunks (with_max_payload 1000)
      [take 4 (frame_bytes first_chunk); drop 4 (frame_bytes first_chunk)] = (fb, got, None)
    ∧ filter (ob_belongs 7) (ob_of <$> got) `prefix_of` sent
    ∧ stream_frames (with_writer_and_token 1 7 RtStream 1 2) 2 sent.
Proof.
  destruct stream_run as (st & Hrun & Hreq & Hout).
  set (c := with_writer_and_token 1 7 RtStream 1 2).
  destruct (stream_in_order true stream_client default_config 2 empty_pipe (fresh_wsys empty_pipe)
           (start_client 2 (fresh_wsys empty_pipe)) st stream_request c 1000
           [take 4 (frame_bytes first_chunk); drop 4 (frame_bytes first_chunk)])
    as (got & fb & e & Hpush & Hpre & Hsent & He);
    [exact stream_client_eq|reflexivity|reflexivity|apply rtc_refl|exact stream_request_wf
    |reflexivity|reflexivity|exact Hrun
    |intros c'; rewrite Hreq; by intros ->%list_elem_of_singleton
    |rewrite Hout; apply Forall_singleton;
       split; [repeat constructor; vm_compute; congruence|split; vm_compute; congruence]
    |repeat constructor; vm_compute; congruence|rewrite Hout; by exists []|].
  rewrite Hout in He.
  destruct He as [->|He%(bool_decide_eq_true_2 _)]; [|vm_compute in He; discriminate].
  by exists got, fb, (sent_ok default_config st c).
Defined.

(** [main] has taken the client before any work arrived. *)
Definition events_waiting : events_app :=
  {| ea_queue := []; ea_client := false; ea_main := MainWait; ea_emitter := EmRecv;
     ea_emits := [] |}.

Lemma events_worker_silent_witness :
  (ea_main events_waiting ≠ MainTake → ∀ a', rtc (app_step true) events_waiting a' →
     ea_emits a' = ea_emits events_waiting)
  ∧ (ea_main events_waiting = MainTake → (∀ n i, ea_emitter events_waiting ≠ EmEmit n i) →
     ∃ a', app_step true events_waiting a' ∧ ea_main a' = MainWait
       ∧ ea_emits a' = ea_emits events_waiting).
Proof.
  apply (events_worker_silent true events_waiting).
  apply rtc_once, (ap_take true events_start); done.
Defined.

Lemma progress_percent_witness :
  ∃ p, percent_of true 3 10 = Some p ∧ 0 ≤ p ≤ 100 ∧ percent_of true 10 10 = Some 100
    ∧ (3 < 10 → ∃ q, percent_of true (3 + 1) 10 = Some q ∧ p ≤ q).
Proof.
  apply (proj1 (progress_percent true 3 10 ltac:(lia) ltac:(split; vm_compute; congruence))). lia.
Defined.

Definition echo_decoder : DeserializeOwned EchoInput := λ bs,
  match bs with [] => Err "input"%string | _ => Ok {| message := "hi" |} end.
Definition echo_encoder : Serialize EchoOutput := λ o, Ok (as_bytes (echo o)).
#[local] Existing Instance echo_decoder.
#[local] Existing Instance echo_encoder.

Lemma echo_worker_answers_witness :
  ∃ b, echo_builder true = Some b ∧
  let ctx := with_writer_and_token 1 7 RtResult 1 2 in
  let w : world LogWriter := c_world demo_start in
  run (handler_task (cb_registry b) 1 [0] ctx) w [InSend (Ok tt)]
  = Some (begin_send 2 (ctx_out ctx flags.RESPONSE (as_bytes "hi")) (set_cell 2 w), Ok tt, []).
Proof.
  eexists. split; [reflexivity|]. intros ctx w.
  exact (echo_worker_answers true _ [0] ctx w eq_refl eq_refl eq_refl).
Defined.
End Demo.
