(* ===== verification/Start.v ===== *)
(** * Starting a client (src/client.rs: [ClientBuilder::start], [Client::start])

    The sequence that brings a worker up: choose a path, listen, announce
    [$init], start the control reader, adopt the parent's connection, spawn the
    writer task and the read loop.  A small monad carries the state the
    sequence changes; its outcomes are a value, an error, a panic, or waiting
    for the parent. *)

From S2P Require Import Prelude Errors WireFormat Frame FrameBuffer Codec Writer WriterTask.
From S2P Require Import Json Init Control Program WriterImpl Context Registry Transport.
From S2P Require Import Session Client EndToEnd.

Inductive outcome `{ThirdParty} (A : Type) :=
| Done (x : A)
| Fails (e : ProcwireError)
| Panics
| Waits.
Arguments Done {_ A} _.
Arguments Fails {_ A} _.
Arguments Panics {_ A}.
Arguments Waits {_ A}.

Definition is_waiting `{ThirdParty} {A} (x : outcome A) : bool :=
  match x with Waits => true | _ => false end.

(** What has happened, for the order of things. *)
Inductive boot_event :=
| EvBound (path : string)
| EvAnnounced (line : bytes)
| EvControl
| EvAdopted
| EvWriter
| EvReader
| EvUnlinked (path : string).

(** What the sequence finds: the variables it reads, the process, the clock,
    what starting a thread returns, and what [accept] returns, call after
    call. *)
Record environment (W : Type) := {
  env_xdg_runtime_dir : option string;
  env_tmpdir : option string;
  env_procwire_token : option string;
  process_id : u32;
  clock_nanos : option Z;
  thread_spawn : result io_Error unit;
  accepts : list (result io_Error (PipeStream W))
}.
Arguments env_xdg_runtime_dir {W} _.
Arguments env_tmpdir {W} _.
Arguments env_procwire_token {W} _.
Arguments process_id {W} _.
Arguments clock_nanos {W} _.
Arguments thread_spawn {W} _.
Arguments accepts {W} _.

Section Start.
Context `{TP : ThirdParty} `{!SerdeJson} `{!Serialize string}.
Context {F O W : Type} `{!SocketFs F} `{!StdWrite O} `{!AsyncWrite W}.
Variable env : environment W.

(** The state: the socket files, stdout, the counter of [rand_u64], and the
    history. *)
Record boot := {
  bt_fs : F;
  bt_stdout : O;
  bt_counter : u64;
  bt_log : list boot_event
}.

Definition boot_fs (s : F) (b : boot) : boot :=
  {| bt_fs := s; bt_stdout := bt_stdout b; bt_counter := bt_counter b; bt_log := bt_log b |}.
Definition boot_stdout (o : O) (b : boot) : boot :=
  {| bt_fs := bt_fs b; bt_stdout := o; bt_counter := bt_counter b; bt_log := bt_log b |}.
Definition boot_counter (c : u64) (b : boot) : boot :=
  {| bt_fs := bt_fs b; bt_stdout := bt_stdout b; bt_counter := c; bt_log := bt_log b |}.
Definition boot_event_at (ev : boot_event) (b : boot) : boot :=
  {| bt_fs := bt_fs b; bt_stdout := bt_stdout b; bt_counter := bt_counter b;
     bt_log := bt_log b ++ [ev] |}.

Definition M (A : Type) : Type := boot → outcome A * boot.

#[export] Instance boot_ret : MRet M := λ A x b, (Done x, b).
#[export] Instance boot_bind : MBind M := λ A B k m b,
  match m b with
  | (Done x, b) => k x b
  | (Fails e, b) => (Fails e, b)
  | (Panics, b) => (Panics, b)
  | (Waits, b) => (Waits, b)
  end.

Definition new_pipe_path : M string := λ b,
  let '(path, counter) := generate_pipe_path (env_xdg_runtime_dir env) (env_tmpdir env)
                            (process_id env) (bt_counter b) (clock_nanos env) in
  (Done path, boot_counter counter b).

Definition bind_listener (path : string) : M PipeListener := λ b,
  match bind (bt_fs b) path with
  | (s, Ok l) => (Done l, boot_event_at (EvBound path) (boot_fs s b))
  | (s, Err e) => (Fails e, boot_fs s b)
  end.

(** The scope of the listener: it is dropped when the function returns or
    unwinds. *)
Definition while_listening {A} (l : PipeListener) (m : M A) : M A := λ b,
  match m b with
  | (Waits, b) => (Waits, b)
  | (x, b) =>
    (x, boot_event_at (EvUnlinked (pl_path l)) (boot_fs (drop_listener (bt_fs b) l) b))
  end.

(** [build_init_message] unwraps the result of the printer. *)
Definition init_message (path : string) (schema : InitSchema) : M bytes := λ b,
  match build_init_message path schema with
  | Some line => (Done line, b)
  | None => (Panics, b)
  end.

Definition announce (line : bytes) : M unit := λ b,
  match write_stdout_line (bt_stdout b) line with
  | (o, Ok _) => (Done tt, boot_event_at (EvAnnounced line) (boot_stdout o b))
  | (o, Err e) => (Fails (Io e), boot_stdout o b)
  end.

Definition spawn_control : M unit := λ b,
  match thread_spawn env with
  | Ok _ => (Done tt, boot_event_at EvControl b)
  | Err e => (Fails (Io e), b)
  end.

Definition adopt_parent (token : option string) (max : u32) : M (Adoption W) := λ b,
  match accept_parent token max (accepts env) with
  | Some (Ok a) => (Done a, boot_event_at EvAdopted b)
  | Some (Err e) => (Fails e, b)
  | None => (Waits, b)
  end.

Definition spawn_writer (write_half : W) (cfg : WriterConfig) : M (wsys W) := λ b,
  match spawn_writer_task write_half cfg with
  | Some y => (Done y, boot_event_at EvWriter b)
  | None => (Panics, b)
  end.

(** [Semaphore::new] panics above [MAX_PERMITS]. *)
Definition new_semaphore (permits : nat) : M nat := λ b,
  if decide (MAX_PERMITS < Z.of_nat permits) then (Panics, b) else (Done permits, b).

Definition spawn_reader : M unit := λ b, (Done tt, boot_event_at EvReader b).

(** The client, and the connection its read loop works on. *)
Record Started := {
  sd_client : client (wsys W);
  sd_adoption : Adoption W
}.

Definition client_start (registry : HandlerRegistry) (writer_config : WriterConfig)
  (max_handlers : nat) (max_payload_size : u32) (token : option string) : M Started :=
  pipe_path ← new_pipe_path;
  listener ← bind_listener pipe_path;
  while_listening listener (
    init_msg ← init_message pipe_path (build_schema registry);
    announce init_msg;;
    spawn_control;;
    adopted ← adopt_parent token max_payload_size;
    writer ← spawn_writer (ad_write adopted) writer_config;
    permits ← new_semaphore max_handlers;
    spawn_reader;;
    mret {| sd_client := start_client permits writer; sd_adoption := adopted |}).

(** [ClientBuilder::start]. *)
Definition builder_start (b : ClientBuilder) : M Started :=
  client_start (cb_registry b) (cb_writer_config b) (cb_max_concurrent_handlers b)
    (cb_max_payload_size b) (effective_token b (env_procwire_token env)).
End Start.

(** ** Specification *)
Section Spec.
Context `{TP : ThirdParty} `{!SerdeJson} {F O W : Type} `{!StdWrite O}.

(** The path of the socket. *)
Definition boot_path (env : environment W) (b : boot (F := F) (O := O)) : string :=
  (generate_pipe_path (env_xdg_runtime_dir env) (env_tmpdir env) (process_id env)
     (bt_counter b) (clock_nanos env)).1.

(** One line has been printed, and it tells the parent the path and the
    schema. *)
Definition announced (b b' : boot (F := F) (O := O)) (path : string) (schema : InitSchema) : Prop :=
  ∃ text, std_out (bt_stdout b') = std_out (bt_stdout b) ++ text ++ [NEWLINE]
    ∧ (NEWLINE ∉ text) ∧ read_init text = Some (PROTOCOL_VERSION, path, schema).

(** The order of a complete start. *)
Definition start_events (path : string) (line : bytes) : list boot_event :=
  [EvBound path; EvAnnounced line; EvControl; EvAdopted; EvWriter; EvReader].
End Spec.

(** ** Lemmas *)
Section Lemmas.
Context `{TP : ThirdParty} `{!SerdeJson} `{!Serialize string}.
Context {F O W : Type} `{!SocketFs F} `{!StdWrite O} `{!AsyncWrite W}.
Variable env : environment W.
Implicit Types (b : boot (F := F) (O := O)).
Abbreviation M := (M (F := F) (O := O)).

(** A computation that emits the events [evs], up to the point where it ends
    early; it can only wait after one of the numbers [ws] of events, and it
    does not touch the socket files.  [strict]: it only emits all of them when
    it returns a value. *)
Definition emits {A} (strict : bool) (evs : list boot_event) (ws : list nat) (m : M A) : Prop :=
  ∀ b x b', m b = (x, b') →
    bt_fs b' = bt_fs b ∧
    ∃ n, (n ≤ length evs)%nat ∧ bt_log b' = bt_log b ++ take n evs
      ∧ (∀ y, x = Done y → n = length evs) ∧ (x = Waits → n ∈ ws)
      ∧ (strict → n = length evs → ∃ y, x = Done y).

Lemma emits_bind {A B} strict evs1 evs2 ws1 ws2 (m : M A) (k : A → M B) :
  emits false evs1 ws1 m → (∀ x, emits strict evs2 ws2 (k x)) → (strict → evs2 ≠ []) →
  emits strict (evs1 ++ evs2) (ws1 ++ (Nat.add (length evs1) <$> ws2)) (m ≫= k).
Proof.
  intros Hm Hk Hne b x b'. unfold mbind, boot_bind.
  destruct (m b) as [r b1] eqn:Hr.
  destruct (Hm _ _ _ Hr) as (Hf1 & n1 & Hn1 & Hl1 & Hd1 & Hw1 & _).
  assert (Hearly : ∀ x : outcome B, (∀ y, x ≠ Done y) → (x = Waits → r = Waits) →
    bt_fs b1 = bt_fs b ∧ ∃ n, (n ≤ length (evs1 ++ evs2))%nat
      ∧ bt_log b1 = bt_log b ++ take n (evs1 ++ evs2)
      ∧ (∀ y, x = Done y → n = length (evs1 ++ evs2))
      ∧ (x = Waits → n ∈ ws1 ++ (Nat.add (length evs1) <$> ws2))
      ∧ (strict → n = length (evs1 ++ evs2) → ∃ y, x = Done y)).
  { intros x0 Hx0 Hx1. split; [done|]. exists n1. rewrite length_app, take_app_le by done.
    split_and!; [lia|done| | |].
    - intros y Hy. by destruct (Hx0 y).
    - intros Hx. apply elem_of_app. left. auto.
    - intros Hs Hn. destruct evs2; [by destruct (Hne Hs)|cbn in Hn; lia]. }
  destruct r as [y|e| |]; [|by intros [= <- <-]; apply Hearly..].
  intros Hrun. destruct (Hk y _ _ _ Hrun) as (Hf2 & n2 & Hn2 & Hl2 & Hd2 & Hw2 & Hs2).
  pose proof (Hd1 y eq_refl) as ->. split; [by rewrite Hf2|]. exists (length evs1 + n2)%nat.
  rewrite length_app, take_app_add, Hl2, Hl1, take_ge, <- app_assoc by done.
  split_and!; [lia|done|intros z Hz; rewrite (Hd2 _ Hz); lia| |].
  - intros Hx. apply elem_of_app. right. by apply list_elem_of_fmap_2, Hw2.
  - intros Hs Hn. apply Hs2; [done|lia].
Qed.

(** A step that fails, panics or waits without an event, or emits one. *)
Lemma emits_step {A} evs ws (m : M A) :
  (∀ b, (∃ x b', m b = (x, b') ∧ bt_fs b' = bt_fs b ∧ bt_log b' = bt_log b
           ∧ (∀ y, x = Done y → evs = []) ∧ (x = Waits → 0%nat ∈ ws))
        ∨ ∃ y b', m b = (Done y, b') ∧ bt_fs b' = bt_fs b ∧ bt_log b' = bt_log b ++ evs) →
  emits false evs ws m.
Proof.
  intros Hm b x b' Hrun. destruct (Hm b) as [(x0 & b0 & Heq & Hf & Hl & Hd & Hw)|(y & b0 & Heq & Hf & Hl)];
    rewrite Hrun in Heq; simplify_eq.
  - split; [done|]. exists 0%nat. rewrite app_nil_r. split_and!; [lia|done| |done|done].
    intros y Hy. by rewrite (Hd y Hy).
  - split; [done|]. exists (length evs). rewrite take_ge by done. split_and!; [lia|done..].
Qed.

Lemma announce_emits line : emits false [EvAnnounced line] [] (announce line).
Proof.
  apply emits_step. intros b. unfold announce.
  destruct (write_stdout_line _ _) as [o [[]|e]]; [right|left]; eexists _, _; by split_and!.
Qed.

Lemma spawn_control_emits : emits false [EvControl] [] (spawn_control env).
Proof.
  apply emits_step. intros b. unfold spawn_control.
  destruct (thread_spawn env) as [[]|e]; [right|left]; eexists _, _; by split_and!.
Qed.

Lemma adopt_parent_emits token max : emits false [EvAdopted] [0%nat] (adopt_parent env token max).
Proof.
  apply emits_step. intros b. unfold adopt_parent.
  destruct (accept_parent token max (accepts env)) as [[a|e]|]; [right|left..];
    eexists _, _; split_and!; try done. by intros _; left.
Qed.

Lemma spawn_writer_emits (w : W) cfg : emits false [EvWriter] [] (spawn_writer w cfg).
Proof.
  apply emits_step. intros b. unfold spawn_writer.
  destruct (spawn_writer_task w cfg); [right|left]; eexists _, _; by split_and!.
Qed.

Lemma new_semaphore_emits permits : emits false [] [] (new_semaphore permits).
Proof.
  apply emits_step. intros b. left. unfold new_semaphore.
  case_decide; eexists _, _; by split_and!.
Qed.

Lemma spawn_reader_emits {A} (x : A) : emits true [EvReader] [] (spawn_reader;; mret x).
Proof.
  intros b y b' [= <- <-]. split; [done|]. exists 1%nat. split_and!; [done..|]. by eexists.
Qed.

Lemma start_emits path r cfg max pmax token :
  ∀ line, build_init_message path (build_schema r) = Some line →
  emits true (tail (start_events path line)) [2%nat]
    (init_msg ← init_message path (build_schema r);
     announce init_msg;;
     spawn_control env;;
     adopted ← adopt_parent env token pmax;
     writer ← spawn_writer (ad_write adopted) cfg;
     permits ← new_semaphore max;
     spawn_reader;;
     mret {| sd_client := start_client permits writer; sd_adoption := adopted |} : M _).
Proof.
  intros line Hline.
  assert (Hrest : emits true (tail (start_events path line)) [2%nat]
    (announce line;;
     spawn_control env;;
     adopted ← adopt_parent env token pmax;
     writer ← spawn_writer (ad_write adopted) cfg;
     permits ← new_semaphore max;
     spawn_reader;;
     mret {| sd_client := start_client permits writer; sd_adoption := adopted |} : M _)).
  { apply (emits_bind true [_] [_;_;_;_] [] [1%nat]); [apply announce_emits|intros _|done].
    apply (emits_bind true [_] [_;_;_] [] [0%nat]); [apply spawn_control_emits|intros _|done].
    apply (emits_bind true [_] [_;_] [0%nat] []); [apply adopt_parent_emits|intros a|done].
    apply (emits_bind true [_] [_] [] []); [apply spawn_writer_emits|intros y|done].
    apply (emits_bind true [] [_] [] []); [apply new_semaphore_emits|intros n|done].
    apply spawn_reader_emits. }
  intros b x b' Hb. apply Hrest. unfold mbind, boot_bind at 1 in Hb.
  unfold init_message in Hb. by rewrite Hline in Hb.
Qed.

(** The scope of the listener adds the event of the binding in front, and that
    of the removal behind. *)
Lemma listening_order {A} evs ws (m : M A) path b x b' :
  emits true evs ws m →
  (l ← bind_listener path; while_listening l m : M A) b = (x, b') →
  ∃ n, (n ≤ S (length evs))%nat ∧ (n = S (length evs) ↔ ∃ y, x = Done y)
    ∧ (x = Waits → ∃ k, k ∈ ws ∧ n = S k)
    ∧ bt_log b' = bt_log b ++ take n (EvBound path :: evs)
        ++ (if (n =? 0)%nat || is_waiting x then [] else [EvUnlinked path]).
Proof.
  intros Hm. unfold mbind, boot_bind, bind_listener.
  destruct (bind (bt_fs b) path) as [s [l|e]] eqn:Hbind.
  2: { intros [= <- <-]. exists 0%nat. rewrite app_nil_r. split_and!; [lia| |done|done].
       split; [done|by intros []]. }
  assert (Hl : pl_path l = path).
  { revert Hbind. unfold bind. repeat case_match; intros; by simplify_eq. }
  unfold while_listening. destruct (m _) as [x1 b1] eqn:Hr.
  destruct (Hm _ _ _ Hr) as (_ & n & Hn & Hlog & Hd & Hw & Hs). cbn [bt_log boot_event_at boot_fs] in Hlog.
  rewrite Hl. intros Hx.
  assert (Hx' : x = x1 ∧ bt_log b' = bt_log b1 ++ (if is_waiting x1 then [] else [EvUnlinked path])).
  { destruct x1; injection Hx as <- <-; split; try done. by rewrite app_nil_r. }
  destruct Hx' as [-> ->]. exists (S n). split; [lia|]. split; [|split].
  - split; [intros [= Heq]; by apply Hs|]. intros [y Hy]. by rewrite (Hd y Hy).
  - intros Hx1. exists n. auto.
  - cbn [take Nat.eqb orb]. rewrite Hlog, <- !app_assoc. done.
Qed.

Lemma listening_outcome {A} (m : M A) path b x b' :
  (l ← bind_listener path; while_listening l m : M A) b = (x, b') →
  (∃ e, bind (bt_fs b) path = (bt_fs b', Err e) ∧ x = Fails e)
  ∨ ∃ s l b1, bind (bt_fs b) path = (s, Ok l)
      ∧ m (boot_event_at (EvBound path) (boot_fs s b)) = (x, b1)
      ∧ bt_stdout b' = bt_stdout b1
      ∧ bt_fs b' = if is_waiting x then bt_fs b1 else drop_listener (bt_fs b1) l.
Proof.
  unfold mbind, boot_bind, bind_listener.
  destruct (bind (bt_fs b) path) as [s [l|e]] eqn:Hbind.
  2: { intros [= <- <-]. left. by exists e. }
  unfold while_listening. destruct (m _) as [x1 b1] eqn:Hr. intros Hx. right.
  exists s, l, b1. destruct x1; injection Hx as <- <-; by rewrite Hr.
Qed.

(** The part done while listening, by its outcome. *)
Lemma body_outcome path r cfg max pmax token line b x b' :
  build_init_message path (build_schema r) = Some line →
  (init_msg ← init_message path (build_schema r);
   announce init_msg;;
   spawn_control env;;
   adopted ← adopt_parent env token pmax;
   writer ← spawn_writer (ad_write adopted) cfg;
   permits ← new_semaphore max;
   spawn_reader;;
   mret {| sd_client := start_client permits writer; sd_adoption := adopted |} : M _) b = (x, b') →
  let accepted := accept_parent token pmax (accepts env) in
  match x with
  | Done s =>
    accepted = Some (Ok (sd_adoption s))
    ∧ sd_client s = start_client max (fresh_wsys (ad_write (sd_adoption s)))
    ∧ write_stdout_line (bt_stdout b) line = (bt_stdout b', Ok tt)
  | Waits => accepted = None ∧ write_stdout_line (bt_stdout b) line = (bt_stdout b', Ok tt)
  | Fails e =>
    accepted = Some (Err e)
    ∨ ∃ io, e = Io io ∧
        (thread_spawn env = Err io ∨ (write_stdout_line (bt_stdout b) line).2 = Err io)
  | Panics =>
    channel_capacity cfg = 0%nat ∨ MAX_PERMITS < Z.of_nat (channel_capacity cfg)
    ∨ MAX_PERMITS < Z.of_nat max
  end.
Proof.
  intros Hline. unfold mbind, boot_bind, init_message. rewrite Hline. unfold announce.
  destruct (write_stdout_line (bt_stdout b) line) as [o [[]|e]];
    [|intros [= <- <-]; right; exists e; by split; [|right]].
  unfold spawn_control. destruct (thread_spawn env) as [[]|e];
    [|intros [= <- <-]; right; exists e; by split; [|left]].
  unfold adopt_parent.
  destruct (accept_parent token pmax (accepts env)) as [[a|e]|];
    [|by intros [= <- <-]; left|by intros [= <- <-]].
  unfold spawn_writer, spawn_writer_task. case_decide as Hcap; [intros [= <- <-]; tauto|].
  unfold new_semaphore. case_decide as Hmax; [intros [= <- <-]; tauto|].
  unfold spawn_reader. by intros [= <- <-].
Qed.
End Lemmas.

(** What a successful start has brought about. *)
Lemma started_facts `{TP : ThirdParty} `{!SerdeJson} `{!SerdeJsonOk} `{!Serialize string}
  {F O W} `{!SocketFs F} `{!StdWrite O} `{!AsyncWrite W} (env : environment W)
  (oc : bool) (gs : list registration) (bd : ClientBuilder) (b b' : boot (F := F) (O := O))
  (s : Started (W := W)) :
  zlen gs + 1 < 2 ^ 16 → register_all oc new_registry gs = Some (cb_registry bd) →
  Forall stream_ok (accepts env) → builder_start env bd b = (Done s, b') →
  Forall (frame_wf (cb_max_payload_size bd)) (read_loop (sd_adoption s)).1
  ∧ sd_client s = start_client (cb_max_concurrent_handlers bd) (fresh_wsys (ad_write (sd_adoption s)))
  ∧ accept_parent (effective_token bd (env_procwire_token env)) (cb_max_payload_size bd) (accepts env)
    = Some (Ok (sd_adoption s)).
Proof.
  intros Hlen Hr Hok Hrun.
  destruct (init_message_reads (boot_path env b) (build_schema (cb_registry bd)))
    as (text & Hb & _); [by eapply build_schema_wf|].
  destruct (listening_outcome _ (boot_path env b) _ _ _ Hrun)
    as [(e & _ & He)|(fs & l & b1 & _ & Hbody & _)]; [done|].
  destruct (body_outcome _ _ _ _ _ _ _ _ _ _ _ Hb Hbody) as (Ha & Hc & _).
  split_and!; [by eapply adopted_frames_wf|exact Hc|exact Ha].
Qed.

(** ** Properties *)

(** C15: the order of a start.  Whatever the environment does, what has
    happened is a beginning of: the socket listens, [$init] is on stdout, the
    control reader runs, the parent's connection is adopted, the writer task
    runs, the read loop runs; all of it exactly when the start succeeds.  So
    the parent reads the path only when it can connect, and nothing is written
    to a connection before it is adopted.  The start can only wait for the
    parent, after the control reader was started; when it ends in any other
    way after binding, the socket file is removed. *)
Theorem start_order `{TP : ThirdParty} `{!SerdeJson} `{!SerdeJsonOk} `{!Serialize string}
  {F O W} `{!SocketFs F} `{!StdWrite O} `{!AsyncWrite W} (env : environment W)
  (oc : bool) (gs : list registration) (r : HandlerRegistry) (cfg : WriterConfig) (max : nat)
  (pmax : u32) (token : option string) (b b' : boot (F := F) (O := O))
  (x : outcome (Started (W := W))) :
  zlen gs + 1 < 2 ^ 16 → register_all oc new_registry gs = Some r →
  client_start env r cfg max pmax token b = (x, b') →
  let path := boot_path env b in
  ∃ text n, read_init text = Some (PROTOCOL_VERSION, path, build_schema r)
    ∧ (n ≤ 6)%nat ∧ (n = 6%nat ↔ ∃ s, x = Done s) ∧ (x = Waits → n = 3%nat)
    ∧ bt_log b' = bt_log b ++ take n (start_events path text)
        ++ (if (n =? 0)%nat || is_waiting x then [] else [EvUnlinked path]).
Proof.
  intros Hlen Hr Hrun path.
  destruct (init_message_reads path (build_schema r)) as (text & Hb & _ & Hread);
    [by eapply build_schema_wf|]. exists text.
  pose proof (start_emits (F := F) (O := O) env path r cfg max pmax token text Hb) as Hemit.
  destruct (listening_order _ _ _ _ _ _ _ Hemit Hrun) as (n & Hn & Hdone & Hw & Hlog).
  exists n. split_and!; [done|done|done| |exact Hlog].
  intros Hx. by destruct (Hw Hx) as (k & ->%list_elem_of_singleton & ->).
Qed.

(** C16: what a start gives.  When it succeeds, the client is the one of the
    builder's options on the connection the accept loop adopted, with the
    writer task on the write half of that same connection, and the parent has
    been told on one line of stdout the path of the socket and exactly the
    registered schema.  While it waits, that line is out and the socket is
    there.  It fails only with the error of the listener, stdout, the thread or
    [accept], panics only on a channel capacity or handler limit out of range,
    and touches no other socket file. *)
Theorem start_outcome `{TP : ThirdParty} `{!SerdeJson} `{!SerdeJsonOk} `{!Serialize string}
  {F O W} `{!SocketFs F} `{!SocketFsOk F} `{!StdWrite O} `{!StdWriteOk O} `{!AsyncWrite W}
  (env : environment W) (oc : bool) (gs : list registration) (r : HandlerRegistry)
  (cfg : WriterConfig) (max : nat) (pmax : u32) (token : option string)
  (b b' : boot (F := F) (O := O)) (x : outcome (Started (W := W))) :
  zlen gs + 1 < 2 ^ 16 → register_all oc new_registry gs = Some r →
  client_start env r cfg max pmax token b = (x, b') →
  let path := boot_path env b in
  let accepted := accept_parent token pmax (accepts env) in
  match x with
  | Done s =>
    accepted = Some (Ok (sd_adoption s))
    ∧ sd_client s = start_client max (fresh_wsys (ad_write (sd_adoption s)))
    ∧ announced b b' path (build_schema r)
  | Waits =>
    accepted = None ∧ announced b b' path (build_schema r)
    ∧ path_exists (bt_fs b') path = true
  | Fails e =>
    (bind (bt_fs b) path).2 = Err e ∨ accepted = Some (Err e)
    ∨ ∃ io, e = Io io ∧
        (thread_spawn env = Err io ∨ ∃ line, (write_stdout_line (bt_stdout b) line).2 = Err io)
  | Panics =>
    channel_capacity cfg = 0%nat ∨ MAX_PERMITS < Z.of_nat (channel_capacity cfg)
    ∨ MAX_PERMITS < Z.of_nat max
  end
  ∧ ∀ q, q ≠ path → path_exists (bt_fs b') q = path_exists (bt_fs b) q.
Proof.
  intros Hlen Hr Hrun path accepted.
  destruct (init_message_reads path (build_schema r)) as (text & Hb & Hnl & Hread);
    [by eapply build_schema_wf|].
  assert (Hann : write_stdout_line (bt_stdout b) text = (bt_stdout b', Ok tt) →
    announced b b' path (build_schema r)).
  { intros Ho. exists text. split; [by apply write_stdout_line_ok|done]. }
  destruct (listening_outcome _ path _ _ _ Hrun) as [(e & Hbind & ->)|(s & l & b1 & Hbind & Hbody & Ho & Hf)];
    cbn [bt_fs bt_stdout boot_counter] in Hbind.
  { rewrite Hbind. split; [by left|]. intros q Hq. by apply (bind_err _ _ _ _ _ Hbind). }
  pose proof (body_outcome _ _ _ _ _ _ _ _ _ _ _ Hb Hbody) as Hout.
  destruct (start_emits env path r cfg max pmax token text Hb _ _ _ Hbody) as [Hfs _].
  cbn [bt_fs bt_stdout boot_event_at boot_fs boot_counter] in Hout, Hfs.
  rewrite Hfs in Hf. rewrite <- Ho in Hout. split.
  - destruct x as [s'|e| |]; [|right; naive_solver|done|].
    + destruct Hout as (? & ? & ?). auto.
    + destruct Hout as (? & ?). split_and!; [done|auto|]. rewrite Hf. cbn [is_waiting].
      destruct (bind_ok _ _ _ _ path Hbind) as [_ ->]. by rewrite decide_True.
  - intros q Hq. rewrite Hf. destruct (bind_ok _ _ _ _ q Hbind) as [Hl Hex].
    rewrite decide_False in Hex by done. destruct (is_waiting x); [done|].
    rewrite drop_listener_other by congruence. done.
Qed.

(** C17: from the builder to the running client.  After a successful start,
    every frame the read loop dispatches obeys the wire contract with the
    configured maximum payload, and dispatching any number of them, in order,
    leads to a state the running client can reach on top of its writer task;
    and when a token is set, by the builder or in PROCWIRE_TOKEN, the writer
    task writes to a connection that has sent that token in an AUTH frame
    before anything else. *)
Theorem started_session `{TP : ThirdParty} `{!SerdeJson} `{!SerdeJsonOk} `{!Serialize string}
  {F O W} `{!SocketFs F} `{!StdWrite O} `{!AsyncWrite W} (env : environment W)
  (oc : bool) (gs : list registration) (bd : ClientBuilder) (b b' : boot (F := F) (O := O))
  (s : Started (W := W)) :
  zlen gs + 1 < 2 ^ 16 → register_all oc new_registry gs = Some (cb_registry bd) →
  Forall stream_ok (accepts env) → builder_start env bd b = (Done s, b') →
  let frames := (read_loop (sd_adoption s)).1 in
  let write_half := ad_write (sd_adoption s) in
  Forall (frame_wf (cb_max_payload_size bd)) frames
  ∧ (∀ n, client_reachable (FrameWriter0 := writer_task_frame_writer (cb_writer_config bd))
       (cb_registry bd) (cb_max_concurrent_handlers bd) (fresh_wsys write_half)
       (foldl (λ st f, dispatch_frame (cb_registry bd) f st) (sd_client s) (take n frames)))
  ∧ ∀ token, effective_token bd (env_procwire_token env) = Some token →
      ∃ conn cs f rest, Ok conn ∈ accepts env ∧ ps_write conn = write_half
        ∧ ps_reads conn = (Ok <$> cs) ++ ad_reads (sd_adoption s)
        ∧ concat cs = frame_bytes f ++ rest
        ∧ method_id (header f) = AUTH_METHOD_ID ∧ payload f = as_bytes token.
Proof.
  intros Hlen Hr Hok Hrun frames write_half.
  destruct (started_facts env oc gs bd b b' s Hlen Hr Hok Hrun) as (Hwf & Hc & Ha).
  split; [exact Hwf|]. split.
  - intros n. rewrite Hc. apply dispatched_reachable; [apply rtc_refl|].
    apply Forall_take. eapply Forall_impl; [exact Hwf|]. intros f. apply frame_wf_absolute.
  - intros token Ht. rewrite Ht in Ha.
    destruct (adopted_authenticated _ _ _ _ Hok Ha)
      as (before & conn & after & cs & f & -> & Hreads & Hw & Hm & Hp & Hcs).
    exists conn, cs, f. eexists. split_and!; [|done..].
    apply elem_of_app. right. by left.
Qed.

(** ** A concrete start *)
Section Demo.
#[local] Existing Instance string_errors.
#[local] Existing Instance tree_json.
#[local] Existing Instance text_serialize.

(** A token in the environment; one connection that fails, then the parent's. *)
Definition demo_env : environment ScriptWriter := {|
  env_xdg_runtime_dir := Some "/run/user/7/"%string; env_tmpdir := None;
  env_procwire_token := Some "t"%string; process_id := 7; clock_nanos := Some 1;
  thread_spawn := Ok tt;
  accepts := [Ok {| ps_reads := [Ok [0; 1]; Err (os_error "reset")]; ps_write := empty_pipe |};
              Ok {| ps_reads := Ok <$> demo_chunks; ps_write := empty_pipe |}]
|}.
Definition demo_boot : boot (F := gset string) (O := bytes) :=
  {| bt_fs := ∅; bt_stdout := []; bt_counter := 0; bt_log := [] |}.
Definition demo_builder : ClientBuilder := set_registry demo_registry new_builder.
Definition demo_gs : list registration := [RegMethod "echo" RtResult demo_echo; RegEvent "tick"].

Lemma demo_starts : ∃ s b', builder_start demo_env demo_builder demo_boot = (Done s, b').
Proof. eexists _, _. vm_compute. reflexivity. Qed.

Lemma demo_env_ok : Forall stream_ok (accepts demo_env).
Proof. repeat constructor; vm_compute; congruence. Qed.

Lemma start_order_witness :
  let path := boot_path demo_env demo_boot in
  ∃ s b' text, builder_start demo_env demo_builder demo_boot = (Done s, b')
    ∧ bt_log b' = start_events path text ++ [EvUnlinked path].
Proof.
  intros path. destruct demo_starts as (s & b' & Hrun).
  destruct (start_order demo_env true demo_gs demo_registry _ _ _ _ demo_boot b' (Done s)
              ltac:(reflexivity) demo_registry_eq Hrun) as (text & n & _ & _ & Hn & _ & Hlog).
  rewrite (proj2 Hn) in Hlog by eauto. exists s, b', text. by split.
Defined.

Lemma start_outcome_witness :
  ∃ s b', builder_start demo_env demo_builder demo_boot = (Done s, b')
    ∧ sd_client s = start_client 256 (fresh_wsys (ad_write (sd_adoption s)))
    ∧ announced demo_boot b' (boot_path demo_env demo_boot) (build_schema demo_registry).
Proof.
  destruct demo_starts as (s & b' & Hrun). exists s, b'. split; [exact Hrun|].
  exact (proj2 (proj1 (start_outcome demo_env true demo_gs demo_registry _ _ _ _ demo_boot b'
                         (Done s) ltac:(reflexivity) demo_registry_eq Hrun))).
Defined.

Lemma started_session_witness :
  ∃ s b', builder_start demo_env demo_builder demo_boot = (Done s, b')
    ∧ ∃ conn cs f rest, Ok conn ∈ accepts demo_env ∧ ps_write conn = ad_write (sd_adoption s)
      ∧ ps_reads conn = (Ok <$> cs) ++ ad_reads (sd_adoption s)
      ∧ concat cs = frame_bytes f ++ rest
      ∧ method_id (header f) = AUTH_METHOD_ID ∧ payload f = as_bytes "t".
Proof.
  destruct demo_starts as (s & b' & Hrun). exists s, b'. split; [exact Hrun|].
  destruct (started_session demo_env true demo_gs demo_builder demo_boot b' s
              ltac:(reflexivity) demo_registry_eq demo_env_ok Hrun) as (_ & _ & Htoken).
  exact (Htoken "t"%string eq_refl).
Defined.
End Demo.
