(* ===== verification/Process.v ===== *)
(** * The running process (src/client.rs: what [Client::start] has spawned)

    The read loop, the control-plane reader, the writer task, the handlers and
    [main], which awaits [wait_for_shutdown], side by side: each has its own
    steps, and the process is gone when [main] returns. *)

From S2P Require Import Prelude Errors WireFormat Frame FrameBuffer Codec Writer WriterTask.
From S2P Require Import Json Init Control Program WriterImpl Context Registry Transport.
From S2P Require Import Session Client EndToEnd Start.

Section Process.
Context `{TP : ThirdParty} `{!SerdeJson} `{!Serialize string}.
Context {O W : Type} `{!StdWrite O} `{!AsyncWrite W}.
Variables (cfg : WriterConfig) (r : HandlerRegistry).
#[local] Existing Instance writer_task_frame_writer.

(** [p_frames]: frames of the last read, or pipelined behind the AUTH frame,
    that are still to be dispatched; [p_reader], [p_control] and [p_main] hold
    what the read loop, the control reader and [main] have returned.
    [p_dispatched] is history. *)
Record process := {
  p_client : client (wsys W);
  p_frames : list Frame;
  p_buffer : FrameBuffer;
  p_reads : list socket_read;
  p_reader : option (Result unit);
  p_stdin : list Control.read;
  p_stdout : O;
  p_control : option reader_exit;
  p_shutdown_token : bool;
  p_main : option (Result unit);
  p_dispatched : list Frame
}.

Definition set_client (c : client (wsys W)) (s : process) : process :=
  {| p_client := c; p_frames := p_frames s; p_buffer := p_buffer s; p_reads := p_reads s;
     p_reader := p_reader s; p_stdin := p_stdin s; p_stdout := p_stdout s;
     p_control := p_control s; p_shutdown_token := p_shutdown_token s; p_main := p_main s;
     p_dispatched := p_dispatched s |}.

(** One turn of the read loop. *)
Definition dispatch_next (f : Frame) (fs : list Frame) (s : process) : process :=
  {| p_client := dispatch_frame r f (p_client s); p_frames := fs; p_buffer := p_buffer s;
     p_reads := p_reads s; p_reader := p_reader s; p_stdin := p_stdin s;
     p_stdout := p_stdout s; p_control := p_control s;
     p_shutdown_token := p_shutdown_token s; p_main := p_main s;
     p_dispatched := p_dispatched s ++ [f] |}.

Definition reader_state (fs : list Frame) (fb : FrameBuffer) (reads : list socket_read)
  (x : option (Result unit)) (s : process) : process :=
  {| p_client := p_client s; p_frames := fs; p_buffer := fb; p_reads := reads; p_reader := x;
     p_stdin := p_stdin s; p_stdout := p_stdout s; p_control := p_control s;
     p_shutdown_token := p_shutdown_token s; p_main := p_main s;
     p_dispatched := p_dispatched s |}.

Definition read_once (x : socket_read) (reads : list socket_read) (s : process) : process :=
  match x with
  | Ok [] => reader_state [] (p_buffer s) reads (Some (Ok tt)) s
  | Err e => reader_state [] (p_buffer s) reads (Some (Err (Io e))) s
  | Ok chunk =>
    match push (p_buffer s) chunk with
    | (fb, Err e) => reader_state [] fb reads (Some (Err e)) s
    | (fb, Ok frames) => reader_state frames fb reads None s
    end
  end.

(** One turn of the control-plane reader. *)
Definition control_once (l : Control.read) (stdin : list Control.read) (s : process) : process :=
  let '(x, o, cancelled) := run_control_reader [l] (p_stdout s) (p_shutdown_token s) in
  {| p_client := p_client s; p_frames := p_frames s; p_buffer := p_buffer s;
     p_reads := p_reads s; p_reader := p_reader s; p_stdin := stdin; p_stdout := o;
     p_control := x; p_shutdown_token := cancelled; p_main := p_main s;
     p_dispatched := p_dispatched s |}.

Definition set_main (x : Result unit) (s : process) : process :=
  {| p_client := p_client s; p_frames := p_frames s; p_buffer := p_buffer s;
     p_reads := p_reads s; p_reader := p_reader s; p_stdin := p_stdin s;
     p_stdout := p_stdout s; p_control := p_control s;
     p_shutdown_token := p_shutdown_token s; p_main := Some x;
     p_dispatched := p_dispatched s |}.

(** The end of the read loop is what the oneshot channel tells [main]. *)
Definition data_plane_closed (s : process) : bool := bool_decide (p_reader s ≠ None).

Inductive process_step (s : process) : process → Prop :=
| ps_client c :
    p_main s = None → own_step (FrameWriter0 := writer_task_frame_writer cfg) r (p_client s) c →
    process_step s (set_client c s)
| ps_dispatch f fs :
    p_main s = None → p_reader s = None → p_frames s = f :: fs →
    process_step s (dispatch_next f fs s)
| ps_read x reads :
    p_main s = None → p_reader s = None → p_frames s = [] → p_reads s = x :: reads →
    process_step s (read_once x reads s)
| ps_control l stdin :
    p_main s = None → p_control s = None → p_stdin s = l :: stdin →
    process_step s (control_once l stdin s)
| ps_main x :
    p_main s = None → wait_for_shutdown (data_plane_closed s) (p_shutdown_token s) = Some x →
    process_step s (set_main x s).

(** What [Client::start] leaves behind, with what stdin will deliver. *)
Definition start_process (d : Started (W := W)) (stdin : list Control.read) (o : O) : process :=
  {| p_client := sd_client d; p_frames := ad_initial (sd_adoption d);
     p_buffer := ad_buffer (sd_adoption d); p_reads := ad_reads (sd_adoption d);
     p_reader := None; p_stdin := stdin; p_stdout := o; p_control := None;
     p_shutdown_token := false; p_main := None; p_dispatched := [] |}.

(** ** Lemmas *)

(** What the read loop is still going to dispatch, and return. *)
Definition still_to_read (s : process) : list Frame * option (Result unit) :=
  match p_reader s with
  | Some x => ([], Some x)
  | None => read_loop_from (p_buffer s) (p_reads s)
  end.

(** What the control reader comes to. *)
Definition control_outcome (s : process) : option reader_exit * O * bool :=
  match p_control s with
  | Some x => (Some x, p_stdout s, p_shutdown_token s)
  | None => run_control_reader (p_stdin s) (p_stdout s) (p_shutdown_token s)
  end.

(** The whole session, as [Session] has it, is preserved. *)
Definition session_of (s : process) : list Frame * option (Result unit) :=
  let '(fs, x) := still_to_read s in (p_dispatched s ++ p_frames s ++ fs, x).

Lemma process_step_session s s' : process_step s s' → session_of s' = session_of s.
Proof.
  unfold session_of, still_to_read.
  intros [c _ _|f fs _ Hr Hf|x reads _ Hr Hf Hx|l stdin _ _ _|x _ _]; cbn; try done.
  - rewrite Hr, Hf. destruct (read_loop_from (p_buffer s) (p_reads s)) as [gs y].
    by rewrite <- app_assoc.
  - rewrite Hr, Hf, Hx. destruct x as [[|b c]|e]; cbn [read_once read_loop_from]; [done| |done].
    destruct (push (p_buffer s) (b :: c)) as [fb [frames|e]]; cbn; [|done].
    by destruct (read_loop_from fb reads).
  - unfold control_once. by destruct (run_control_reader _ _ _) as [[y o] c].
Qed.

Lemma run_control_cons l stdin (o : O) c :
  run_control_reader (l :: stdin) o c
  = match run_control_reader [l] o c with
    | (None, o', c') => run_control_reader stdin o' c'
    | y => y
    end.
Proof.
  cbn [run_control_reader]. destruct l as [[|b line]|e]; [done| |done].
  destruct (parse_control_line (b :: line)); [|done|done].
  by destruct (write_stdout_line o PONG_MESSAGE) as [o' [[]|e]].
Qed.

Lemma process_step_control s s' : process_step s s' → control_outcome s' = control_outcome s.
Proof.
  unfold control_outcome.
  intros [c _ _|f fs _ Hr Hf|x reads _ Hr Hf Hx|l stdin _ Hc Hl|x _ _]; cbn; try done.
  - destruct x as [[|b c]|e]; cbn [read_once]; [done| |done].
    by destruct (push (p_buffer s) (b :: c)) as [fb [frames|e]].
  - rewrite Hc, Hl, run_control_cons. unfold control_once.
    by destruct (run_control_reader [l] (p_stdout s) (p_shutdown_token s)) as [[[y|] o] c].
Qed.

(** The token is cancelled by [$shutdown] only. *)
Definition token_ok (s : process) : Prop :=
  p_shutdown_token s = true → p_control s = Some ShutdownReceived.

Lemma control_once_token l (o : O) c x o' c' :
  run_control_reader [l] o c = (x, o', c') →
  (c' = c ∧ x ≠ Some ShutdownReceived) ∨ (c' = true ∧ x = Some ShutdownReceived).
Proof.
  cbn [run_control_reader]. destruct l as [[|b line]|e]; [by intros [= <- _ <-]; left| |].
  - destruct (parse_control_line (b :: line)).
    + destruct (write_stdout_line o PONG_MESSAGE) as [o1 [[]|e]]; intros [= <- _ <-]; by left.
    + intros [= <- _ <-]. by right.
    + intros [= <- _ <-]. by left.
  - intros [= <- _ <-]. by left.
Qed.

Lemma process_step_token s s' : process_step s s' → token_ok s → token_ok s'.
Proof.
  unfold token_ok.
  intros [c _ _|f fs _ Hr Hf|x reads _ Hr Hf Hx|l stdin _ Hc Hl|x _ _] Hok; cbn; try done.
  - destruct x as [[|b c]|e]; cbn [read_once]; [done| |done].
    by destruct (push (p_buffer s) (b :: c)) as [fb [frames|e]].
  - unfold control_once. destruct (run_control_reader [l] _ _) as [[y o] c] eqn:Hrun. cbn.
    apply control_once_token in Hrun as [[-> _]|[-> ->]]; [|done].
    intros Ht%Hok. congruence.
Qed.

(** [main] has returned for a reason. *)
Definition main_ok (s : process) : Prop :=
  match p_main s with
  | None => True
  | Some x => x = Ok tt ∧ (p_reader s ≠ None ∨ p_shutdown_token s = true)
  end.

Lemma process_step_main s s' : process_step s s' → main_ok s'.
Proof.
  unfold main_ok.
  intros [c Hm _|f fs Hm Hr Hf|x reads Hm Hr Hf Hx|l stdin Hm Hc Hl|x Hm Hw]; cbn.
  - by rewrite Hm.
  - by rewrite Hm.
  - destruct x as [[|b c]|e]; cbn [read_once]; [by cbn; rewrite Hm| |by cbn; rewrite Hm].
    destruct (push (p_buffer s) (b :: c)) as [fb [frames|e]]; cbn; by rewrite Hm.
  - unfold control_once. destruct (run_control_reader [l] _ _) as [[y o] c]. cbn. by rewrite Hm.
  - unfold wait_for_shutdown, data_plane_closed in Hw.
    destruct (bool_decide_reflect (p_reader s ≠ None)); cbn in Hw; [by simplify_eq; auto|].
    destruct (p_shutdown_token s); [by simplify_eq; auto|done].
Qed.
End Process.

(** *** Reachable states *)
Section Reach.
Context `{TP : ThirdParty} `{!SerdeJson} `{!Serialize string}.
Context {O W : Type} `{!StdWrite O} `{!AsyncWrite W}.
Variables (cfg : WriterConfig) (r : HandlerRegistry).
Variables (d : Started (W := W)) (stdin : list Control.read) (o : O).
#[local] Existing Instance writer_task_frame_writer.
Implicit Types (s : process (O := O) (W := W)).

Definition process_reachable s : Prop :=
  rtc (process_step cfg r) (start_process d stdin o) s.

(** The parts of the invariant that speak of the start. *)
Record process_inv s : Prop := {
  pi_session : session_of s = read_loop (sd_adoption d);
  pi_control : control_outcome s = run_control_reader stdin o false;
  pi_token : token_ok s;
  pi_main : main_ok s;
  pi_done : p_reader s ≠ None → p_frames s = []
}.

Lemma process_step_done s s' :
  process_step cfg r s s' → (p_reader s ≠ None → p_frames s = []) →
  p_reader s' ≠ None → p_frames s' = [].
Proof.
  intros [c _ _|f fs _ Hr Hf|x reads _ Hr Hf Hx|l ls _ Hc Hl|x _ _] Hok; cbn; try done.
  - destruct x as [[|b c]|e]; cbn [read_once]; [done| |done].
    by destruct (push (p_buffer s) (b :: c)) as [fb [frames|e]].
  - unfold control_once. by destruct (run_control_reader [l] _ _) as [[y ?] c].
Qed.

Lemma reachable_process_inv s : process_reachable s → process_inv s.
Proof.
  intros Hs. apply (rtc_ind_r process_inv (start_process d stdin o)) in Hs; [done|..].
  - by split.
  - intros s1 s2 _ Hst [H1 H2 H3 _ H5]. split.
    + by rewrite (process_step_session _ _ _ _ Hst).
    + by rewrite (process_step_control _ _ _ _ Hst).
    + by eapply process_step_token.
    + by eapply process_step_main.
    + by eapply process_step_done.
Qed.

(** The frames dispatched so far are the first of the session. *)
Lemma dispatched_prefix s :
  process_inv s → ∃ later, (read_loop (sd_adoption d)).1 = p_dispatched s ++ p_frames s ++ later.
Proof.
  intros [<- _ _ _ _]. unfold session_of. destruct (still_to_read s) as [fs x]. by exists fs.
Qed.

Lemma process_client_reachable max w s :
  sd_client d = start_client max (fresh_wsys w) →
  Forall (frame_wf ABSOLUTE_MAX_PAYLOAD_SIZE) (read_loop (sd_adoption d)).1 →
  process_reachable s →
  client_reachable (FrameWriter0 := writer_task_frame_writer cfg) r max (fresh_wsys w) (p_client s).
Proof.
  intros Hc Hwf Hs. unfold client_reachable.
  apply (rtc_ind_r (λ s, process_inv s ∧
    rtc (cstep (FrameWriter0 := writer_task_frame_writer cfg) r)
      (start_client max (fresh_wsys w)) (p_client s)) (start_process d stdin o)) in Hs;
    [by apply Hs|..].
  - split; [by apply reachable_process_inv, rtc_refl|]. cbn. rewrite Hc. apply rtc_refl.
  - intros s1 s2 Hrun Hst [Hi IH]. split; [eapply reachable_process_inv, rtc_r; eassumption|].
    destruct Hst as [c _ Hst|f fs _ Hr Hf|x reads _ Hr Hf Hx|l ls _ _ _|x _ _]; cbn; try exact IH.
    + eapply rtc_r; [exact IH|by apply own_step_cstep].
    + eapply rtc_r; [exact IH|]. apply cs_frame.
      destruct (dispatched_prefix _ Hi) as [later Heq]. rewrite Heq, Hf in Hwf.
      rewrite Forall_forall in Hwf. apply Hwf. apply elem_of_app. right. by left.
    + destruct x as [[|b c]|e]; cbn [read_once]; [done| |done].
      by destruct (push (p_buffer s1) (b :: c)) as [fb [frames|e]].
    + unfold control_once. by destruct (run_control_reader [l] _ _) as [[y ?] c].
Qed.

(** *** The process can end *)

Lemma main_exits s :
  p_main s = None → p_reader s ≠ None ∨ p_shutdown_token s = true →
  process_step cfg r s (set_main (Ok tt) s).
Proof.
  intros Hm Hw. apply ps_main; [done|]. unfold wait_for_shutdown, data_plane_closed.
  destruct (bool_decide_reflect (p_reader s ≠ None)); cbn; [done|]. by destruct Hw as [?| ->].
Qed.

(** The control reader runs on its own. *)
Lemma control_runs s x o' c :
  p_main s = None → control_outcome s = (Some x, o', c) →
  ∃ s', rtc (process_step cfg r) s s' ∧ p_control s' = Some x ∧ p_shutdown_token s' = c
    ∧ p_main s' = None ∧ p_client s' = p_client s ∧ p_dispatched s' = p_dispatched s.
Proof.
  unfold control_outcome. destruct (p_control s) as [y|] eqn:Hc.
  { intros Hm [= -> _ <-]. exists s. by split_and!; [apply rtc_refl|..]. }
  remember (p_stdin s) as ls eqn:Hl. revert s Hc Hl.
  induction ls as [|l ls IH]; intros s Hc Hl Hm; [done|]. rewrite run_control_cons.
  assert (Hst : process_step cfg r s (control_once l ls s)) by (by apply ps_control).
  destruct (run_control_reader [l] (p_stdout s) (p_shutdown_token s)) as [[[y|] o1] c1] eqn:Hrun.
  - intros [= -> -> ->]. exists (control_once l ls s). split; [by apply rtc_once|].
    unfold control_once. by rewrite Hrun.
  - intros Hout.
    destruct (IH (control_once l ls s)) as (s' & Hs & Hx & Ht & Hm' & Hcl & Hd);
      try (by unfold control_once; rewrite Hrun).
    exists s'. unfold control_once in Hcl, Hd. rewrite Hrun in Hcl, Hd. cbn in Hcl, Hd.
    split_and!; [by eapply rtc_l|done..].
Qed.

(** The read loop runs on its own: it dispatches what it has, then reads. *)
Lemma dispatch_runs s :
  p_main s = None → p_reader s = None →
  ∃ s', rtc (process_step cfg r) s s' ∧ p_main s' = None ∧ p_reader s' = None ∧ p_frames s' = []
    ∧ p_reads s' = p_reads s ∧ p_buffer s' = p_buffer s.
Proof.
  remember (p_frames s) as fs eqn:Hf. revert s Hf.
  induction fs as [|f fs IH]; intros s Hf Hm Hr.
  { exists s. by split_and!; [apply rtc_refl|..]. }
  destruct (IH (dispatch_next r f fs s)) as (s' & Hs & Hend); [done..|].
  exists s'. split; [|exact Hend]. eapply rtc_l; [by apply ps_dispatch|exact Hs].
Qed.

Lemma reader_runs reads : ∀ s x,
  p_reads s = reads → p_main s = None → p_reader s = None →
  (read_loop_from (p_buffer s) reads).2 = Some x →
  ∃ s', rtc (process_step cfg r) s s' ∧ p_main s' = None ∧ p_reader s' = Some x.
Proof.
  induction reads as [|y reads IH]; intros s x Hx Hm Hr; cbn [read_loop_from]; [done|].
  destruct (dispatch_runs s Hm Hr) as (s1 & Hs1 & Hm1 & Hr1 & Hf1 & Hx1 & Hb1).
  rewrite Hx in Hx1. rewrite <- Hb1.
  assert (Hst : process_step cfg r s1 (read_once y reads s1)) by (by apply ps_read).
  destruct y as [[|b c]|e]; cbn [snd]; [|destruct (push (p_buffer s1) (b :: c)) as [fb [fs|e]] eqn:Hpush|].
  - intros [= <-]. eexists. split; [by eapply rtc_r|]. by split.
  - destruct (read_loop_from fb reads) as [fs' z] eqn:Hloop. cbn [snd]. intros ->.
    destruct (IH (read_once (Ok (b :: c)) reads s1) x) as (s' & Hs' & Hend);
      try (by unfold read_once; rewrite Hpush).
    { unfold read_once. rewrite Hpush. cbn [reader_state p_buffer]. by rewrite Hloop. }
    exists s'. split; [|exact Hend]. etrans; [exact Hs1|]. by eapply rtc_l.
  - intros [= <-]. eexists. split; [by eapply rtc_r|]. unfold read_once. by rewrite Hpush.
  - intros [= <-]. eexists. split; [by eapply rtc_r|]. by split.
Qed.
End Reach.

(** ** Properties *)

(** A start that succeeded: the registrations of the builder and the state
    [Client::start] has returned in. *)
Record booted `{TP : ThirdParty} `{!SerdeJson} `{!Serialize string} {F O W}
  `{!SocketFs F} `{!StdWrite O} `{!AsyncWrite W} (env : environment W) (oc : bool)
  (gs : list registration) (bd : ClientBuilder) (b b' : boot (F := F) (O := O))
  (d : Started (W := W)) : Prop := {
  bo_few : zlen gs + 1 < 2 ^ 16;
  bo_registered : register_all oc new_registry gs = Some (cb_registry bd);
  bo_streams : Forall stream_ok (accepts env);
  bo_started : builder_start env bd b = (Done d, b')
}.

(** C7: the running process is the composition of its parts.  In every state
    it can reach after a successful start: its client is in a state the client
    of the other theorems can reach on the pipe of the adopted connection; the
    frames dispatched so far are the first ones of those the read loop makes
    of the connection, and all of them once the loop has ended, with its
    result; and the shutdown token is cancelled only if what stdin delivers
    makes the control reader see [$shutdown]. *)
Theorem process_refines `{TP : ThirdParty} `{!SerdeJson} `{!SerdeJsonOk} `{!Serialize string}
  {F O W} `{!SocketFs F} `{!StdWrite O} `{!AsyncWrite W} (env : environment W) (oc : bool)
  (gs : list registration) (bd : ClientBuilder) (b b' : boot (F := F) (O := O))
  (d : Started (W := W)) (stdin : list Control.read) (s : process (O := O) (W := W)) :
  booted env oc gs bd b b' d →
  process_reachable (cb_writer_config bd) (cb_registry bd) d stdin (bt_stdout b') s →
  client_reachable (FrameWriter0 := writer_task_frame_writer (cb_writer_config bd))
    (cb_registry bd) (cb_max_concurrent_handlers bd) (fresh_wsys (ad_write (sd_adoption d)))
    (p_client s)
  ∧ (∃ later, (read_loop (sd_adoption d)).1 = p_dispatched s ++ later
      ∧ ∀ x, p_reader s = Some x → later = [] ∧ (read_loop (sd_adoption d)).2 = Some x)
  ∧ (p_shutdown_token s = true →
     ∃ o', run_control_reader stdin (bt_stdout b') false = (Some ShutdownReceived, o', true)).
Proof.
  intros [Hfew Hreg Hok Hst] Hs.
  destruct (started_facts env oc gs bd b b' d Hfew Hreg Hok Hst) as (Hwf & Hc & _).
  pose proof (reachable_process_inv _ _ _ _ _ _ Hs) as [Hses Hctl Htok _ Hdone].
  split; [|split].
  - eapply process_client_reachable; [exact Hc| |exact Hs].
    eapply Forall_impl; [exact Hwf|]. intros f. apply frame_wf_absolute.
  - rewrite <- Hses. unfold session_of, still_to_read in *. destruct (p_reader s) as [x|] eqn:Hr.
    + exists []. rewrite Hdone by done. split; [done|]. by intros y [= ->].
    + destruct (read_loop_from _ _) as [fs y]. exists (p_frames s ++ fs). by split.
  - intros Ht. rewrite <- Hctl. unfold control_outcome. rewrite (Htok Ht), Ht. by eexists.
Qed.

(** [main] returns for one of two reasons, and never with an error: the
    read loop has ended and every frame it made of the connection has been
    dispatched, or [$shutdown] was received. *)
Theorem main_returns `{TP : ThirdParty} `{!SerdeJson} `{!Serialize string}
  {O W} `{!StdWrite O} `{!AsyncWrite W} (cfg : WriterConfig) (r : HandlerRegistry)
  (d : Started (W := W)) (stdin : list Control.read) (o : O) (s : process (O := O) (W := W))
  (x : Result unit) :
  process_reachable cfg r d stdin o s → p_main s = Some x →
  x = Ok tt
  ∧ ((∃ y, read_loop (sd_adoption d) = (p_dispatched s, Some y))
     ∨ ∃ o', run_control_reader stdin o false = (Some ShutdownReceived, o', true)).
Proof.
  intros Hs Hx. pose proof (reachable_process_inv _ _ _ _ _ _ Hs) as [Hses Hctl Htok Hm Hdone].
  unfold main_ok in Hm. rewrite Hx in Hm. destruct Hm as [-> [Hr|Ht]]; split; [done| |done|].
  - left. rewrite <- Hses. unfold session_of, still_to_read. rewrite Hdone by done.
    destruct (p_reader s) as [y|]; [|done]. exists y. cbn. by rewrite app_nil_r.
  - right. rewrite <- Hctl. unfold control_outcome. rewrite (Htok Ht), Ht. by eexists.
Qed.

(** C18: the process can always end.  Once stdin delivers [$shutdown], from
    every reachable state [main] can return although no handler, no call of
    [send] and no write makes a step: what is accepted and not written then is
    abandoned with the process.  And once the connection is closed or fails,
    [main] can return with every frame of it dispatched. *)
Theorem process_exits `{TP : ThirdParty} `{!SerdeJson} `{!Serialize string}
  {O W} `{!StdWrite O} `{!AsyncWrite W} (cfg : WriterConfig) (r : HandlerRegistry)
  (d : Started (W := W)) (stdin : list Control.read) (o : O) (s : process (O := O) (W := W)) :
  process_reachable cfg r d stdin o s → p_main s = None →
  (∀ o', run_control_reader stdin o false = (Some ShutdownReceived, o', true) →
     ∃ s', rtc (process_step cfg r) s s' ∧ p_main s' = Some (Ok tt)
       ∧ p_client s' = p_client s ∧ p_dispatched s' = p_dispatched s)
  ∧ (∀ fs y, read_loop (sd_adoption d) = (fs, Some y) →
     ∃ s', rtc (process_step cfg r) s s' ∧ p_main s' = Some (Ok tt) ∧ p_dispatched s' = fs).
Proof.
  intros Hs Hm. pose proof (reachable_process_inv _ _ _ _ _ _ Hs) as [Hses Hctl _ _ _]. split.
  - intros o' Hrun. rewrite <- Hctl in Hrun.
    destruct (control_runs cfg r s _ _ _ Hm Hrun) as (s1 & Hs1 & _ & Ht & Hm1 & Hc & Hd).
    exists (set_main (Ok tt) s1). split; [|done]. eapply rtc_r; [exact Hs1|].
    apply main_exits; [done|by right].
  - intros fs y Hread.
    assert (Hend : ∃ s1, rtc (process_step cfg r) s s1 ∧ p_main s1 = None ∧ p_reader s1 ≠ None).
    { destruct (p_reader s) as [z|] eqn:Hr; [exists s; split_and!; [apply rtc_refl|done|by rewrite Hr]|].
      rewrite Hread in Hses. unfold session_of, still_to_read in Hses. rewrite Hr in Hses.
      destruct (reader_runs cfg r (p_reads s) s y eq_refl Hm Hr) as (s1 & Hs1 & Hm1 & Hr1).
      - destruct (read_loop_from _ _) as [gs z]. by simplify_eq.
      - exists s1. by rewrite Hr1. }
    destruct Hend as (s1 & Hs1 & Hm1 & Hr1). exists (set_main (Ok tt) s1). split_and!; [|done|].
    + eapply rtc_r; [exact Hs1|]. apply main_exits; [done|by left].
    + assert (Hreach : process_reachable cfg r d stdin o s1) by (unfold process_reachable; by etrans).
      pose proof (reachable_process_inv _ _ _ _ _ _ Hreach) as [Hses1 _ _ _ Hdone1].
      rewrite Hread in Hses1. unfold session_of, still_to_read in Hses1.
      rewrite Hdone1 in Hses1 by done. destruct (p_reader s1); [|done]. cbn in *.
      rewrite app_nil_r in Hses1. by simplify_eq.
Qed.

Section Demo.
#[local] Existing Instance string_errors.
#[local] Existing Instance tree_json.
#[local] Existing Instance text_serialize.

(** A ping, then [$shutdown]. *)
Definition shutdown_object : gmap string Value := {["method" := v_string "$shutdown"]}.
Definition shutdown_stdin : list Control.read :=
  [Ok (LEFT_BRACE :: print_pos (countable.encode (tree_object ping_object)) ++ [10]);
   Ok (LEFT_BRACE :: print_pos (countable.encode (tree_object shutdown_object)) ++ [10])].

Lemma demo_booted :
  ∃ d b', booted demo_env true demo_gs demo_builder demo_boot b' d.
Proof.
  destruct demo_starts as (d & b' & Hrun). exists d, b'. by split; [|exact demo_registry_eq|exact demo_env_ok|].
Qed.

Lemma shutdown_run (o : bytes) :
  run_control_reader shutdown_stdin o false
  = (Some ShutdownReceived, (o ++ PONG_MESSAGE) ++ [NEWLINE], true).
Proof. vm_compute. reflexivity. Qed.

(** The state [main] is in when it has returned on [$shutdown]. *)
Definition shut_down (d : Started (W := ScriptWriter)) (o : bytes) :
  process (O := bytes) (W := ScriptWriter) :=
  let s := start_process d shutdown_stdin o in
  set_main (Ok tt)
    (control_once (Ok (LEFT_BRACE :: print_pos (countable.encode (tree_object shutdown_object)) ++ [10])) []
       (control_once (Ok (LEFT_BRACE :: print_pos (countable.encode (tree_object ping_object)) ++ [10]))
          (tail shutdown_stdin) s)).

Lemma shut_down_reachable d o :
  process_reachable (cb_writer_config demo_builder) demo_registry d shutdown_stdin o (shut_down d o).
Proof.
  eapply rtc_l; [by eapply ps_control|]. eapply rtc_l; [by eapply ps_control|].
  apply rtc_once. by eapply ps_main.
Qed.

Lemma process_refines_witness :
  ∃ d b', booted demo_env true demo_gs demo_builder demo_boot b' d
    ∧ p_shutdown_token (shut_down d (bt_stdout b')) = true
    ∧ client_reachable
        (FrameWriter0 := writer_task_frame_writer (cb_writer_config demo_builder))
        demo_registry 256 (fresh_wsys (ad_write (sd_adoption d)))
        (p_client (shut_down d (bt_stdout b'))).
Proof.
  destruct demo_booted as (d & b' & Hb). exists d, b'. split; [exact Hb|]. split; [reflexivity|].
  exact (proj1 (process_refines demo_env true demo_gs demo_builder demo_boot b' d shutdown_stdin _ Hb
                  (shut_down_reachable d (bt_stdout b')))).
Defined.

Lemma main_returns_witness :
  ∃ d, p_main (shut_down d []) = Some (Ok tt)
    ∧ ((∃ y, read_loop (sd_adoption d) = (p_dispatched (shut_down d []), Some y))
       ∨ ∃ o', run_control_reader shutdown_stdin [] false = (Some ShutdownReceived, o', true)).
Proof.
  destruct demo_booted as (d & _ & _). exists d. split; [reflexivity|].
  exact (proj2 (main_returns (cb_writer_config demo_builder) demo_registry d shutdown_stdin [] _ _
                  (shut_down_reachable d []) eq_refl)).
Defined.

Lemma process_exits_witness :
  ∃ d s', rtc (process_step (cb_writer_config demo_builder) demo_registry)
            (start_process d shutdown_stdin []) s'
    ∧ p_main s' = Some (Ok tt) ∧ p_client s' = sd_client d.
Proof.
  destruct demo_booted as (d & _ & _). exists d.
  destruct (proj1 (process_exits (cb_writer_config demo_builder) demo_registry d shutdown_stdin []
              (start_process d shutdown_stdin []) (rtc_refl _ _) eq_refl) _ (shutdown_run []))
    as (s' & Hs & Hm & Hc & _).
  exists s'. by split_and!.
Defined.
End Demo.
