(* ===== verification/Simulate.v ===== *)
(** * Running the client

    One schedule of the running client as a function: the first task, spawned
    program, call of [send] or writer step that can be made is made; a waiting
    call times out only when nothing else moves.  What it computes is an
    execution of the step relations, and it stops only where nothing can move;
    the unit tests of the source run on it. *)

From S2P Require Import Prelude Errors WireFormat Frame Codec Writer WriterTask WriterLive Program.
From S2P Require Import Context Registry Client Completion WriterImpl EndToEnd Quiesce.

(** ** Iterating a move *)
Section Iterate.
Context {A : Type} (move : A → option A) (stop : A → bool).

(** Move until [stop], or as long as there is a move, at most [fuel] times. *)
Fixpoint iterate (fuel : nat) (a : A) : A :=
  match fuel with
  | O => a
  | S fuel =>
    if stop a then a
    else match move a with Some a' => iterate fuel a' | None => a end
  end.

Lemma iterate_sound (R : A → A → Prop) fuel a :
  (∀ a a', move a = Some a' → R a a') → rtc R a (iterate fuel a).
Proof.
  intros Hm. revert a. induction fuel as [|fuel IH]; intros a; cbn; [done|].
  destruct (stop a); [done|]. destruct (move a) as [a'|] eqn:Ha; [|done].
  eapply rtc_l; [by apply Hm|]. apply IH.
Qed.
End Iterate.

(** ** The writer *)
Section WriterMoves.
Context `{TP : ThirdParty} {W : Type} `{AsyncWrite W} (cfg : WriterConfig).
Implicit Types (y : wsys W) (s : sender).

(** A call of [send] or [try_send]; one that waits for the counter gives up
    when it is [late], one that waits for room in the channel stays. *)
Definition call_move (late : bool) y s : option (sender * wsys W) :=
  match s_pc s with
  | PcStart =>
    if decide (w_pending y < max_pending_frames cfg) then Some (set_pc s PcAdd, y)
    else match s_mode s with
         | Send => Some (set_pc s PcWait, y)
         | TrySend => Some (set_pc s (PcDone (Err BackpressureTimeout)), y)
         end
  | PcWait =>
    if decide (w_pending y < max_pending_frames cfg) then Some (set_pc s PcAdd, y)
    else if late then Some (set_pc s (PcDone (Err BackpressureTimeout)), y) else None
  | PcAdd => Some (set_pc s PcEnqueue, set_pending (wrap 64 (w_pending y + 1)) y)
  | PcEnqueue =>
    if w_rx_open y then
      if decide (length (w_queue y) < channel_capacity cfg)%nat
      then Some (set_pc s (PcDone (Ok tt)), enqueue (s_frame s) y)
      else match s_mode s with
           | Send => None
           | TrySend => Some (set_pc s (PcUndo BackpressureTimeout), y)
           end
    else Some (set_pc s (PcUndo ConnectionClosed), y)
  | PcUndo e => Some (set_pc s (PcDone (Err e)), set_pending (wrap 64 (w_pending y - 1)) y)
  | PcDone _ => None
  end.

Definition loop_move y : option (wsys W) :=
  match w_task y with
  | TRecv =>
    match w_queue y with
    | f :: q => Some (set_queue q (set_task (TCollect [f]) y))
    | [] => if w_tx_alive y then None else Some (close_rx (Ok tt) 0 y)
    end
  | TCollect batch =>
    match w_queue y with
    | f :: q =>
      if decide (length batch < MAX_BATCH_SIZE)%nat
      then Some (set_queue q (set_task (TCollect (batch ++ [f])) y))
      else Some (set_task (TWrite batch) y)
    | [] => Some (set_task (TWrite batch) y)
    end
  | TWrite batch =>
    match write_batch (w_sink y) batch with
    | Some (w, Ok _) => Some (set_sink w (set_task (TSub (length batch)) y))
    | Some (w, Err e) => Some (close_rx (Err e) (length batch) (set_sink w y))
    | None => None
    end
  | TSub n => Some (set_task TRecv (set_pending (wrap 64 (w_pending y - Z.of_nat n)) y))
  | TExit _ => None
  end.

(** The first of the calls [ss], from number [t] on, that can move. *)
Fixpoint first_call (late : bool) y (t : nat) (ss : list sender) : option (wsys W) :=
  match ss with
  | [] => None
  | s :: ss =>
    match call_move late y s with
    | Some (s', y') => Some (set_sender t s' y')
    | None => first_call late y (S t) ss
    end
  end.

(** A call is late only when nothing else moves. *)
Definition writer_move y : option (wsys W) :=
  match first_call false y 0 (w_senders y) with
  | Some y' => Some y'
  | None =>
    match loop_move y with
    | Some y' => Some y'
    | None => first_call true y 0 (w_senders y)
    end
  end.

Lemma set_pc_ne s pc : pc ≠ s_pc s → set_pc s pc ≠ s.
Proof. intros Hne Heq. apply Hne. by rewrite <- Heq. Qed.

Lemma call_move_sound late y s s' y' :
  call_move late y s = Some (s', y') → send_step cfg y s s' y' ∧ s' ≠ s.
Proof.
  unfold call_move. intros Hm. destruct (s_pc s) eqn:Hp; repeat case_match; simplify_eq;
    (split; [eauto using @send_step with lia|apply set_pc_ne; by rewrite Hp]).
Qed.

Lemma call_move_complete y s s' y' :
  call_move true y s = None → send_step cfg y s s' y' → s' = s.
Proof.
  unfold call_move. intros Hm [Hp|Hp|Hp|Hp|Hp|Hp|Hp|Hp|Hp|Hp|e Hp]; rewrite Hp in Hm;
    repeat case_match; simplify_eq; try done; congruence || lia.
Qed.

Lemma loop_move_sound y y' : loop_move y = Some y' → task_step y y'.
Proof.
  unfold loop_move. intros Hm.
  destruct (w_task y) as [|batch|batch|n|r] eqn:Hk; repeat case_match; simplify_eq;
    eauto using @task_step with lia.
  match goal with u : unit |- _ => destruct u end. by apply ts_written.
Qed.

Lemma loop_move_complete y y' : loop_move y = None → ¬ task_step y y'.
Proof.
  unfold loop_move. intros Hm Hst. destruct Hst; repeat case_match; simplify_eq; congruence.
Qed.

Lemma first_call_sound late y y' ss t :
  (∀ i s, ss !! i = Some s → w_senders y !! (t + i)%nat = Some s) →
  first_call late y t ss = Some y' → work_step cfg y y'.
Proof.
  revert t. induction ss as [|s ss IH]; intros t Hss; cbn; [done|].
  destruct (call_move late y s) as [[s' y1]|] eqn:Hm.
  - intros [= <-]. apply call_move_sound in Hm as [Hst Hne].
    apply (wk_call cfg y t s); [|done..]. rewrite <- (Nat.add_0_r t). by apply Hss.
  - apply IH. intros i x Hi. rewrite Nat.add_succ_comm. by apply Hss.
Qed.

Lemma first_call_complete late y ss t :
  first_call late y t ss = None → Forall (λ s, call_move late y s = None) ss.
Proof.
  revert t. induction ss as [|s ss IH]; intros t; cbn; [constructor|].
  destruct (call_move late y s) as [[s' y1]|] eqn:Hm; [done|]. intros Hn. constructor; eauto.
Qed.

Lemma writer_move_sound y y' : writer_move y = Some y' → work_step cfg y y'.
Proof.
  unfold writer_move.
  destruct (first_call false y 0 (w_senders y)) as [y1|] eqn:Hf;
    [intros [= <-]; by apply (first_call_sound false y y1 (w_senders y) 0)|].
  destruct (loop_move y) as [y1|] eqn:Hl; [intros [= <-]; by apply wk_task, loop_move_sound|].
  by apply (first_call_sound true y y' (w_senders y) 0).
Qed.

Lemma writer_move_complete y : writer_move y = None → nf (work_step cfg) y.
Proof.
  unfold writer_move. destruct (first_call false _ _ _) as [y1|]; [done|].
  destruct (loop_move y) as [y1|] eqn:Hl; [done|].
  intros Hf%first_call_complete [y' [t s s' y1 Ht Hst Hne|y1 Hst]].
  - rewrite Forall_lookup in Hf. by apply Hne, (call_move_complete y s s' y1 (Hf _ _ Ht)).
  - by destruct (loop_move_complete _ _ Hl Hst).
Qed.
End WriterMoves.

(** ** Programs *)
Section ProgramMoves.
Context `{TP : ThirdParty} {W : Type} `{!FrameWriter W}.
(** What [Input] answers. *)
Variable input : nat.
Implicit Types (w : world W) (p : prog).

Definition prog_move w p : option (world W * prog * list prog) :=
  match p with
  | Ret _ | Panic | Hang => None
  | Swap l k => Some (set_cell l w, k (cell w l), [])
  | Load l k => Some (w, k (cell w l), [])
  | Cancel l k => Some (set_cell l w, k, [])
  | Await l k => if cell w l then Some (w, k, []) else None
  | SendFrame l f k => Some (begin_send l f w, Sending (next_call w) k, [])
  | Sending t k => match call_result w t with Some r => Some (w, k r, []) | None => None end
  | Input k => Some (w, k input, [])
  | Fork q k => Some (w, k, [q])
  end.

Lemma prog_move_sound w p w' p' qs : prog_move w p = Some (w', p', qs) → pstep w p w' p' qs.
Proof.
  intros Hm. destruct p; cbn [prog_move] in Hm; repeat case_match; simplify_eq;
    by constructor.
Qed.

Lemma prog_move_complete w p w' p' qs : prog_move w p = None → ¬ pstep w p w' p' qs.
Proof. intros Hm Hst. destruct Hst; cbn [prog_move] in Hm; repeat case_match; congruence. Qed.
End ProgramMoves.

(** ** The client *)
Section ClientMoves.
Context `{TP : ThirdParty} `{!Serialize string} {W : Type} `{!AsyncWrite W}.
Variables (input : nat) (cfg : WriterConfig).
#[local] Existing Instance writer_task_frame_writer.
Implicit Types (st : client (wsys W)).
Abbreviation move_of := (prog_move (FrameWriter0 := writer_task_frame_writer cfg) input).

Definition task_move st (ts1 : list task) (t : task) (ts2 : list task) :
  option (client (wsys W)) :=
  match ended (t_prog t) with
  | Some panicked => Some (finish_task panicked t ts1 ts2 st)
  | None =>
    '(w, p, qs) ← move_of (c_world st) (t_prog t); Some (with_program st ts1 t ts2 w p qs)
  end.

Definition background_move st (ps1 : list prog) (p : prog) (ps2 : list prog) :
  option (client (wsys W)) :=
  '(w, p, qs) ← move_of (c_world st) p; Some (with_background st w (ps1 ++ p :: ps2 ++ qs)).

(** The first element that moves, given those before and behind it. *)
Fixpoint first_of {A B} (move : list A → A → list A → option B) (before : list A)
  (l : list A) : option B :=
  match l with
  | [] => None
  | x :: l =>
    match move before x l with
    | Some b => Some b
    | None => first_of move (before ++ [x]) l
    end
  end.

Definition client_move st : option (client (wsys W)) :=
  match first_of (task_move st) [] (c_tasks st) with
  | Some st' => Some st'
  | None =>
    match first_of (background_move st) [] (c_background st) with
    | Some st' => Some st'
    | None =>
      o ← writer_move cfg (out (c_world st)); Some (set_world (set_out o (c_world st)) st)
    end
  end.

(** Until [stop], or until nothing moves. *)
Definition simulate_until (stop : client (wsys W) → bool) (fuel : nat) st : client (wsys W) :=
  iterate client_move stop fuel st.
Definition simulate : nat → client (wsys W) → client (wsys W) := simulate_until (λ _, false).

Lemma first_of_some {A B} (move : list A → A → list A → option B) before l b :
  first_of move before l = Some b →
  ∃ l1 x l2, before ++ l = l1 ++ x :: l2 ∧ move l1 x l2 = Some b.
Proof.
  revert before. induction l as [|x l IH]; intros before; cbn; [done|].
  destruct (move before x l) as [b'|] eqn:Hm; [intros [= ->]; by exists before, x, l|].
  intros Hf. destruct (IH _ Hf) as (l1 & x' & l2 & Heq & Hb). exists l1, x', l2.
  split; [by rewrite <- Heq, <- app_assoc|done].
Qed.

Lemma first_of_none {A B} (move : list A → A → list A → option B) before l l1 x l2 :
  first_of move before l = None → l = l1 ++ x :: l2 → move (before ++ l1) x l2 = None.
Proof.
  revert before l. induction l1 as [|y l1 IH]; intros before l Hf ->; cbn in Hf.
  - rewrite app_nil_r. by destruct (move before x l2).
  - destruct (move before y (l1 ++ x :: l2)); [done|].
    rewrite cons_middle, app_assoc. by eapply IH.
Qed.

Lemma client_move_sound st st' : client_move st = Some st' → busy_step cfg st st'.
Proof.
  unfold client_move.
  destruct (first_of (task_move st) [] (c_tasks st)) as [st1|] eqn:Ht.
  { intros [= ->]. apply first_of_some in Ht as (ts1 & t & ts2 & Hts & Hm). cbn in Hts.
    unfold task_move in Hm. destruct (ended (t_prog t)) as [panicked|] eqn:He.
    { injection Hm as <-. by apply bz_end. }
    destruct (move_of _ _) as [[[w p'] qs]|] eqn:Hpm; [|done]. cbn in Hm. simplify_eq.
    apply bz_task; [done|]. by eapply prog_move_sound. }
  destruct (first_of (background_move st) [] (c_background st)) as [st1|] eqn:Hb.
  { intros [= ->]. apply first_of_some in Hb as (ps1 & p & ps2 & Hps & Hm). cbn in Hps.
    unfold background_move in Hm.
    destruct (move_of _ _) as [[[w p'] qs]|] eqn:Hpm; [|done]. cbn in Hm. simplify_eq.
    eapply bz_background; [done|]. by eapply prog_move_sound. }
  destruct (writer_move _ _) as [o|] eqn:Hout; [|done]. intros [= <-].
  by apply bz_writer, writer_move_sound.
Qed.

Lemma client_move_complete st : client_move st = None → nf (busy_step cfg) st.
Proof.
  unfold client_move.
  destruct (first_of (task_move st) [] (c_tasks st)) as [st1|] eqn:Htf; [done|].
  destruct (first_of (background_move st) [] (c_background st)) as [st1|] eqn:Hbf; [done|].
  destruct (writer_move _ _) as [o|] eqn:Hout; [done|]. intros _ [st' Hst].
  destruct Hst as [t ts1 ts2 w p qs Ht Hp|t ts1 ts2 b Ht Hp|p ps1 ps2 w p' qs Hb Hp|o Ho].
  - pose proof (first_of_none _ _ _ _ _ _ Htf Ht) as Hm. unfold task_move in Hm.
    destruct (ended _); [done|]. destruct (move_of _ _) as [[[??]?]|] eqn:Hpm; [done|].
    by destruct (prog_move_complete input _ _ _ _ _ Hpm Hp).
  - pose proof (first_of_none _ _ _ _ _ _ Htf Ht) as Hm. unfold task_move in Hm.
    by rewrite Hp in Hm.
  - pose proof (first_of_none _ _ _ _ _ _ Hbf Hb) as Hm. unfold background_move in Hm.
    destruct (move_of _ _) as [[[??]?]|] eqn:Hpm; [done|].
    by destruct (prog_move_complete input _ _ _ _ _ Hpm Hp).
  - destruct (writer_move_complete cfg _ Hout). by exists o.
Qed.

(** A simulation is an execution of the client. *)
Theorem simulate_is_execution r stop fuel st :
  rtc (own_step (FrameWriter0 := writer_task_frame_writer cfg) r) st
    (simulate_until stop fuel st).
Proof.
  apply iterate_sound. intros st1 st2 Hm%client_move_sound. by apply (busy_own cfg r).
Qed.

(** With enough fuel it stops where only a frame or an emit can start
    anything. *)
Theorem simulate_reaches_rest st :
  ∃ fuel, nf (busy_step cfg) (simulate fuel st) ∧ rtc (busy_step cfg) st (simulate fuel st).
Proof.
  induction (busy_sn cfg st) as [st _ IH]. unfold flip in IH.
  destruct (client_move st) as [st1|] eqn:Hm.
  - destruct (IH st1 (client_move_sound _ _ Hm)) as (fuel & Hnf & Hrun).
    exists (S fuel). unfold simulate, simulate_until. cbn [iterate]. rewrite Hm.
    split; [done|]. eapply rtc_l; [by apply client_move_sound|done].
  - exists 0%nat. split; [by apply client_move_complete|apply rtc_refl].
Qed.
End ClientMoves.
