(* ===== verification/UnitTest.v ===== *)
(** * Unit tests (the [mod tests] of the files under src/)

    The tests the crate has next to its code, run on the definitions: a test is
    a computation that ends in [Some tt] when all its assertions hold and is
    [None] when one fails or the code panics.  The files [Tests*] hold one
    definition per test function and evaluate them. *)

From S2P Require Import Prelude Errors.

(** ** Assertions *)

Definition assert_that (b : bool) : option unit := if b then Some tt else None.
Definition assert_eq {A} `{EqDecision A} (x y : A) : option unit := assert_that (bool_decide (x = y)).
Definition assert_ne {A} `{EqDecision A} (x y : A) : option unit := assert_that (bool_decide (x ≠ y)).

(** [Result::unwrap], [Result::unwrap_err] and the tests on the constructor. *)
Definition unwrap {E A} (r : result E A) : option A :=
  match r with Ok x => Some x | Err _ => None end.
Definition unwrap_err {E A} (r : result E A) : option E :=
  match r with Ok _ => None | Err e => Some e end.
Definition is_ok {E A} (r : result E A) : bool := match r with Ok _ => true | Err _ => false end.
Definition is_err {E A} (r : result E A) : bool := negb (is_ok r).
Definition is_some {A} (o : option A) : bool := match o with Some _ => true | None => false end.
Definition is_none {A} (o : option A) : bool := negb (is_some o).

(** [str::contains]. *)
Definition contains (s needle : string) : bool := is_some (String.index 0 needle s).

(** [str::ends_with]. *)
Definition ends_with (s suffix : string) : bool :=
  let n := (String.length s - String.length suffix)%nat in
  bool_decide (String.substring n (String.length suffix) s = suffix).

(** [&a[i..j]], [&a[i..]] and [&a[..j]], which panic out of range. *)
Definition slice {A} (i j : nat) (l : list A) : option (list A) :=
  if decide (i ≤ j ≤ length l)%nat then Some (take (j - i) (drop i l)) else None.
Definition slice_from {A} (i : nat) (l : list A) : option (list A) := slice i (length l) l.
Definition slice_to {A} (j : nat) (l : list A) : option (list A) := slice 0 j l.

(** A test that passes, and a suite. *)
Definition passes (t : option unit) : bool := is_some t.
Definition all_pass (ts : list (option unit)) : bool := forallb passes ts.
