(* ===== verification/UnitTestRuntime.v ===== *)
(** * Running asynchronous unit tests

    What the tests of the context and of the client share: a duplex pipe and an
    executor. *)

From S2P Require Import Prelude Errors WireFormat Frame FrameBuffer Codec Json Writer WriterTask.
From S2P Require Import Program WriterImpl Context Registry Client Quiesce Simulate.
From S2P Require Import Msgpack UnitTest.

#[local] Existing Instance string_errors.

(** ** Pipes and the executor *)

(** The near end of [tokio::io::duplex]: it takes everything it is given, and
    the tests stay below its capacity. *)
Definition duplex : ScriptWriter := {| sw_out := []; sw_script := [] |}.

(** More steps than a test makes. *)
Definition STEPS : nat := 500.

(** The far end: the frames in what has been written so far, at least [count]. *)
Definition read_frames (w : ScriptWriter) (count : nat) : option (list Frame) :=
  '(_, r) ← Some (push new_buffer (sw_out w));
  frames ← unwrap r;
  assert_that (bool_decide (count ≤ length frames)%nat);;
  Some frames.

(** ** [await] in a running client *)
Abbreviation test_client := (client (wsys ScriptWriter)).

Definition settle (st : test_client) : test_client := simulate 0 default_config STEPS st.

(** [tokio::spawn]: the program joins the others. *)
Definition spawn (p : prog) (st : test_client) : test_client :=
  with_background st (c_world st) (c_background st ++ [p]).

(** The result of the last program, when it is over. *)
Definition last_result (st : test_client) : option (Result unit) :=
  p ← last (c_background st);
  match p with Ret r => Some r | _ => None end.

Definition await (p : prog) (st : test_client) : option (test_client * Result unit) :=
  let st := settle (spawn p st) in
  r ← last_result st; Some (st, r).

(** [p.await.unwrap()] and [assert!(p.await.is_ok())]. *)
Definition await_ok (p : prog) (st : test_client) : option test_client :=
  '(st, r) ← await p st; _ ← unwrap r; Some st.

(** What a method like [is_cancelled] says. *)
Definition observe (m : (bool → prog) → prog) (st : test_client) : option bool :=
  '(_, r) ← await (m (λ b, Ret (if b then Ok tt else Err ConnectionClosed))) st; Some (is_ok r).

(** A client with nothing in it but a writer task on a duplex pipe; the tests
    of the context use its cells and its writer. *)
Definition idle_client : test_client := start_client 256 (fresh_wsys duplex).

Definition server_end (st : test_client) : ScriptWriter := w_sink (out (c_world st)).
