(* ===== verification/TestsProtocol.v ===== *)
(** * The unit tests of src/protocol/, run on the model *)

From S2P Require Import Prelude Errors WireFormat Frame HeaderPool FrameBuffer Json Session UnitTest.

#[local] Existing Instance string_errors.

(** ** wire_format.rs *)
Module wire_format_tests.

Definition test_header_encode_decode_roundtrip : option unit :=
  let original := new_header 1 flags.RESPONSE 42 100 in
  let encoded := encode original in
  decoded ← decode encoded;
  assert_eq original decoded.

Definition test_header_big_endian_byte_order : option unit :=
  let header := new_header 0x0102 0x03 0x04050607 0x08090A0B in
  let bytes := encode header in
  assert_eq (bytes !! 0%nat) (Some 0x01);;
  assert_eq (bytes !! 1%nat) (Some 0x02);;
  assert_eq (bytes !! 2%nat) (Some 0x03);;
  assert_eq (bytes !! 3%nat) (Some 0x04);;
  assert_eq (bytes !! 4%nat) (Some 0x05);;
  assert_eq (bytes !! 5%nat) (Some 0x06);;
  assert_eq (bytes !! 6%nat) (Some 0x07);;
  assert_eq (bytes !! 7%nat) (Some 0x08);;
  assert_eq (bytes !! 8%nat) (Some 0x09);;
  assert_eq (bytes !! 9%nat) (Some 0x0A);;
  assert_eq (bytes !! 10%nat) (Some 0x0B).

Definition test_header_size_is_exactly_11 : option unit :=
  assert_eq HEADER_SIZE 11%nat;;
  let header := new_header 1 0 1 0 in
  assert_eq (length (encode header)) 11%nat.

Definition test_decode_too_short_buffer : option unit :=
  let buf := replicate 10 0 in
  assert_that (is_none (decode buf)).

Definition test_validate_method_id_zero_rejected : option unit :=
  let header := new_header 0 0 1 0 in
  let result := validate header DEFAULT_MAX_PAYLOAD_SIZE in
  assert_that (is_err result);;
  e ← unwrap_err result;
  assert_that (contains (error_to_string e) "Method ID 0 is reserved").

Definition test_validate_method_id_abort_allowed : option unit :=
  let header := new_header ABORT_METHOD_ID 0 0 0 in
  let result := validate header DEFAULT_MAX_PAYLOAD_SIZE in
  assert_that (is_ok result);;
  assert_that (is_abort header).

Definition test_validate_method_id_auth_allowed : option unit :=
  let header := new_header AUTH_METHOD_ID 0 0 64 in
  let result := validate header DEFAULT_MAX_PAYLOAD_SIZE in
  assert_that (is_ok result);;
  assert_that (is_auth header);;
  assert_that (negb (is_abort header)).

Definition test_auth_method_id_value : option unit := assert_eq AUTH_METHOD_ID 0xFFFE.

Definition u32_MAX : u32 := 2 ^ 32 - 1.

Definition test_validate_payload_exceeds_absolute_max : option unit :=
  let header := new_header 1 0 1 u32_MAX in
  let result := validate header u32_MAX in
  assert_that (is_err result);;
  e ← unwrap_err result;
  assert_that (contains (error_to_string e) "absolute maximum").

Definition test_validate_payload_too_large : option unit :=
  let header := new_header 1 0 1 1000000 in
  let result := validate header 100 in
  assert_that (is_err result);;
  e ← unwrap_err result;
  assert_that (contains (error_to_string e) "exceeds maximum").

Definition test_validate_reserved_bits_must_be_zero : option unit :=
  let header := new_header 1 128 1 0 in
  let result := validate header DEFAULT_MAX_PAYLOAD_SIZE in
  assert_that (is_err result);;
  e ← unwrap_err result;
  assert_that (contains (error_to_string e) "Reserved flag bits").

Definition test_flags_has_flag : option unit :=
  assert_that (flags.has_flag flags.RESPONSE flags.DIRECTION_TO_PARENT);;
  assert_that (flags.has_flag flags.RESPONSE flags.IS_RESPONSE);;
  assert_that (negb (flags.has_flag flags.RESPONSE flags.IS_ERROR)).

Definition test_flag_combinations : option unit :=
  assert_eq flags.RESPONSE 0x03;;
  assert_eq flags.ERROR_RESPONSE 0x07;;
  assert_eq flags.STREAM_ERROR_RESPONSE 0x0F;;
  assert_eq flags.STREAM_CHUNK 0x0B;;
  assert_eq flags.STREAM_END_RESPONSE 0x1B;;
  assert_eq flags.ACK_RESPONSE 0x23.

Definition test_header_accessors : option unit :=
  let header := new_header 1 flags.STREAM_END_RESPONSE 0 0 in
  assert_that (is_response header);;
  assert_that (is_stream header);;
  assert_that (is_stream_end header);;
  assert_that (is_to_parent header);;
  assert_that (is_event header);;
  assert_that (negb (is_error header));;
  assert_that (negb (is_ack header));;
  assert_that (negb (is_abort header)).

Definition test_min_max_values : option unit :=
  let min_header := new_header 1 0 0 0 in
  assert_that (is_ok (validate min_header DEFAULT_MAX_PAYLOAD_SIZE));;
  let max_header := new_header 0xFFFE 0 u32_MAX ABSOLUTE_MAX_PAYLOAD_SIZE in
  assert_that (is_ok (validate max_header u32_MAX)).

Definition test_encode_into : option unit :=
  let header := new_header 1 flags.RESPONSE 42 100 in
  let buf := replicate HEADER_SIZE 0 in
  buf ← encode_into header buf;
  decoded ← decode buf;
  assert_eq header decoded.

Definition test_standalone_functions : option unit :=
  let header := new_header 1 0 1 0 in
  let encoded := encode_header header in
  decoded ← decode_header encoded;
  assert_eq header decoded;;
  let buf := replicate HEADER_SIZE 0 in
  buf ← encode_header_into buf header;
  assert_eq buf encoded;;
  assert_that (is_ok (validate_header header DEFAULT_MAX_PAYLOAD_SIZE)).

Definition tests : list (option unit) :=
  [test_header_encode_decode_roundtrip; test_header_big_endian_byte_order;
   test_header_size_is_exactly_11; test_decode_too_short_buffer;
   test_validate_method_id_zero_rejected; test_validate_method_id_abort_allowed;
   test_validate_method_id_auth_allowed; test_auth_method_id_value;
   test_validate_payload_exceeds_absolute_max; test_validate_payload_too_large;
   test_validate_reserved_bits_must_be_zero; test_flags_has_flag; test_flag_combinations;
   test_header_accessors; test_min_max_values; test_encode_into; test_standalone_functions].

Example wire_format_tests_pass : all_pass tests = true.
Proof. vm_compute. reflexivity. Qed.
End wire_format_tests.

(** ** frame.rs *)
Module frame_tests.

Definition test_frame_creation : option unit :=
  let header := new_header 1 flags.RESPONSE 42 5 in
  let frame := new_frame header (as_bytes "hello") in
  assert_eq (frame_method_id frame) 1;;
  assert_eq (frame_flags frame) flags.RESPONSE;;
  assert_eq (frame_request_id frame) 42;;
  assert_eq (payload frame) (as_bytes "hello");;
  assert_eq (frame_payload_len frame) 5.

Definition test_frame_from_parts : option unit :=
  let header := new_header 2 0 100 4 in
  let frame := from_parts header (as_bytes "test") in
  assert_eq (frame_method_id frame) 2;;
  assert_eq (payload frame) (as_bytes "test").

Definition test_frame_empty_payload : option unit :=
  let header := new_header 1 0 1 0 in
  let frame := new_frame header [] in
  assert_eq (frame_payload_len frame) 0;;
  assert_eq (payload frame) [].

Definition test_frame_flag_accessors : option unit :=
  let response_frame := new_frame (new_header 1 flags.RESPONSE 1 0) [] in
  assert_that (frame_is_response response_frame);;
  assert_that (frame_is_to_parent response_frame);;
  assert_that (negb (frame_is_error response_frame));;
  assert_that (negb (frame_is_stream response_frame));;
  let error_frame := new_frame (new_header 1 flags.ERROR_RESPONSE 1 0) [] in
  assert_that (frame_is_response error_frame);;
  assert_that (frame_is_error error_frame);;
  let stream_frame := new_frame (new_header 1 flags.STREAM_CHUNK 1 0) [] in
  assert_that (frame_is_stream stream_frame);;
  assert_that (negb (frame_is_stream_end stream_frame));;
  let stream_end_frame := new_frame (new_header 1 flags.STREAM_END_RESPONSE 1 0) [] in
  assert_that (frame_is_stream stream_end_frame);;
  assert_that (frame_is_stream_end stream_end_frame);;
  let ack_frame := new_frame (new_header 1 flags.ACK_RESPONSE 1 0) [] in
  assert_that (frame_is_ack ack_frame).

Definition test_frame_is_event : option unit :=
  let event_frame := new_frame (new_header 1 flags.DIRECTION_TO_PARENT 0 0) [] in
  assert_that (frame_is_event event_frame);;
  let response_frame := new_frame (new_header 1 flags.RESPONSE 0 0) [] in
  assert_that (negb (frame_is_event response_frame));;
  let request_frame := new_frame (new_header 1 0 42 0) [] in
  assert_that (negb (frame_is_event request_frame)).

Definition test_frame_is_abort : option unit :=
  let abort_frame := new_frame (new_header ABORT_METHOD_ID 0 0 0) [] in
  assert_that (frame_is_abort abort_frame);;
  let normal_frame := new_frame (new_header 1 0 1 0) [] in
  assert_that (negb (frame_is_abort normal_frame)).

Definition test_build_frame : option unit :=
  let header := new_header 1 flags.RESPONSE 42 5 in
  let bytes := build_frame header (as_bytes "hello") in
  assert_eq (length bytes) (HEADER_SIZE + 5)%nat;;
  head ← slice_to HEADER_SIZE bytes;
  parsed_header ← decode head;
  assert_eq parsed_header header;;
  rest ← slice_from HEADER_SIZE bytes;
  assert_eq rest (as_bytes "hello").

Definition test_build_frame_empty_payload : option unit :=
  let header := new_header 1 0 1 0 in
  let bytes := build_frame header (as_bytes "") in
  assert_eq (length bytes) HEADER_SIZE.

Definition test_build_frame_parts : option unit :=
  let header := new_header 1 flags.RESPONSE 42 5 in
  let payload := as_bytes "hello" in
  let '(header_bytes, payload_ref) := build_frame_parts header payload in
  assert_eq (length header_bytes) HEADER_SIZE;;
  assert_eq payload_ref (as_bytes "hello");;
  parsed ← decode header_bytes;
  assert_eq parsed header.

Definition test_build_frame_roundtrip : option unit :=
  let header := new_header 123 flags.STREAM_CHUNK 456 10 in
  let payload := as_bytes "0123456789" in
  let bytes := build_frame header payload in
  let '(buffer, r) := push new_buffer bytes in
  frames ← unwrap r;
  assert_eq (length frames) 1%nat;;
  frame ← frames !! 0%nat;
  assert_eq (frame_method_id frame) 123;;
  assert_eq (frame_request_id frame) 456;;
  assert_eq (Frame.payload frame) payload;;
  assert_that (frame_is_stream frame).

Definition tests : list (option unit) :=
  [test_frame_creation; test_frame_from_parts; test_frame_empty_payload;
   test_frame_flag_accessors; test_frame_is_event; test_frame_is_abort; test_build_frame;
   test_build_frame_empty_payload; test_build_frame_parts; test_build_frame_roundtrip].

Example frame_tests_pass : all_pass tests = true.
Proof. vm_compute. reflexivity. Qed.
End frame_tests.

(** ** header_pool.rs *)
Module header_pool_tests.

(** [buf.fill(..)] and [buf[i] = x] through a reference of the pool. *)
Definition store_at (p : HeaderPool) (r : nat) (f : bytes → option bytes) : option HeaderPool :=
  buf ← buffers p !! r;
  buf' ← f buf;
  Some {| buffers := <[r := buf']> (buffers p); index := index p |}.

Definition test_pool_creation : option unit :=
  let pool := new_pool in
  assert_eq (current_index pool) 0%nat.

Definition test_pool_acquire_round_robin : option unit :=
  pool ← foldl (λ pool i,
    pool ← pool;
    '(pool, _) ← acquire pool;
    assert_eq (current_index pool) ((i + 1) mod HEADER_POOL_SIZE)%nat;;
    Some pool) (Some new_pool) (seq 0 HEADER_POOL_SIZE);
  assert_eq (current_index pool) 0%nat.

Definition test_pool_acquire_returns_different_buffers : option unit :=
  let pool := new_pool in
  '(pool, buf1_ptr) ← acquire pool;
  '(pool, buf2_ptr) ← acquire pool;
  '(pool, buf3_ptr) ← acquire pool;
  assert_ne buf1_ptr buf2_ptr;;
  assert_ne buf2_ptr buf3_ptr;;
  assert_ne buf1_ptr buf3_ptr.

Definition test_pool_encode : option unit :=
  let pool := new_pool in
  let header := new_header 1 0x03 42 100 in
  '(pool, r) ← pool_encode pool header;
  let encoded := deref pool r in
  a ← slice 0 2 encoded; assert_eq a [0x00; 0x01];;
  assert_eq (encoded !! 2%nat) (Some 0x03);;
  b ← slice 3 7 encoded; assert_eq b [0x00; 0x00; 0x00; 0x2A];;
  c ← slice 7 11 encoded; assert_eq c [0x00; 0x00; 0x00; 0x64].

Definition test_pool_reset : option unit :=
  let pool := new_pool in
  '(pool, _) ← acquire pool;
  '(pool, _) ← acquire pool;
  '(pool, _) ← acquire pool;
  assert_eq (current_index pool) 3%nat;;
  let pool := reset pool in
  assert_eq (current_index pool) 0%nat.

Definition test_encode_header_pooled : option unit :=
  let header := new_header 5 0x07 1000 50 in
  '(_, encoded) ← encode_header_pooled THREAD_LOCAL_POOL header;
  a ← slice 0 2 encoded; assert_eq a [0x00; 0x05];;
  assert_eq (encoded !! 2%nat) (Some 0x07);;
  b ← slice 3 7 encoded; assert_eq b [0x00; 0x00; 0x03; 0xE8];;
  c ← slice 7 11 encoded; assert_eq c [0x00; 0x00; 0x00; 0x32].

Definition test_with_header_pool : option unit :=
  let header1 := new_header 1 0x00 1 10 in
  let header2 := new_header 2 0x00 2 20 in
  let '(_, r) := with_header_pool THREAD_LOCAL_POOL (λ pool,
    match pool_encode pool header1 with
    | None => (pool, None)
    | Some (pool, r1) =>
      let e1 := deref pool r1 in
      match pool_encode pool header2 with
      | None => (pool, None)
      | Some (pool, r2) => (pool, Some (e1, deref pool r2))
      end
    end) in
  '(enc1, enc2) ← r;
  a ← slice 0 2 enc1; assert_eq a [0x00; 0x01];;
  b ← slice 0 2 enc2; assert_eq b [0x00; 0x02].

Definition test_pool_default : option unit :=
  let pool := default_pool in
  assert_eq (current_index pool) 0%nat.

Definition test_pool_buffers_are_mutable : option unit :=
  let pool := new_pool in
  '(pool, buf) ← acquire pool;
  pool ← store_at pool buf (index_set 0 0xFF);
  pool ← store_at pool buf (index_set 10 0xAA);
  assert_eq (deref pool buf !! 0%nat) (Some 0xFF);;
  assert_eq (deref pool buf !! 10%nat) (Some 0xAA).

Definition test_pool_wrap_around_overwrites : option unit :=
  let pool := new_pool in
  '(pool, buf) ← acquire pool;
  pool ← store_at pool buf (λ b, Some (replicate (length b) 0xAB));
  pool ← Nat.iter (HEADER_POOL_SIZE - 1) (λ pool, pool ← pool; fst <$> acquire pool) (Some pool);
  '(pool, buf) ← acquire pool;
  assert_eq (deref pool buf !! 0%nat) (Some 0xAB).

Definition tests : list (option unit) :=
  [test_pool_creation; test_pool_acquire_round_robin;
   test_pool_acquire_returns_different_buffers; test_pool_encode; test_pool_reset;
   test_encode_header_pooled; test_with_header_pool; test_pool_default;
   test_pool_buffers_are_mutable; test_pool_wrap_around_overwrites].

Example header_pool_tests_pass : all_pass tests = true.
Proof. vm_compute. reflexivity. Qed.
End header_pool_tests.

(** ** frame_buffer.rs *)
Module frame_buffer_tests.

Definition state_name (fb : FrameBuffer) : string :=
  match state fb with
  | WaitingForHeader => "WaitingForHeader"%string
  | WaitingForPayload _ _ => "WaitingForPayload"%string
  end.

Definition make_frame_bytes (method_id flags request_id : Z) (payload : bytes) : bytes :=
  let header := new_header method_id flags request_id (wrap 32 (zlen payload)) in
  encode header ++ payload.

Definition test_single_complete_frame : option unit :=
  let buffer := new_buffer in
  let frame_bytes := make_frame_bytes 1 flags.RESPONSE 42 (as_bytes "hello") in
  let '(buffer, r) := push buffer frame_bytes in
  frames ← unwrap r;
  assert_eq (length frames) 1%nat;;
  frame ← frames !! 0%nat;
  assert_eq (frame_method_id frame) 1;;
  assert_eq (frame_request_id frame) 42;;
  assert_eq (payload frame) (as_bytes "hello");;
  assert_that (fb_is_empty buffer).

Definition test_multiple_frames_in_one_push : option unit :=
  let buffer := new_buffer in
  let frame1 := make_frame_bytes 1 0 1 (as_bytes "first") in
  let frame2 := make_frame_bytes 2 0 2 (as_bytes "second") in
  let frame3 := make_frame_bytes 3 0 3 (as_bytes "third") in
  let combined := frame1 ++ frame2 ++ frame3 in
  let '(buffer, r) := push buffer combined in
  frames ← unwrap r;
  assert_eq (length frames) 3%nat;;
  assert_eq (frame_method_id <$> frames) [1; 2; 3];;
  assert_that (fb_is_empty buffer).

Definition test_fragmented_header : option unit :=
  let buffer := new_buffer in
  let frame_bytes := make_frame_bytes 1 0 42 (as_bytes "test") in
  part ← slice_to 5 frame_bytes;
  let '(buffer, r) := push buffer part in
  frames ← unwrap r;
  assert_eq frames [];;
  assert_eq (state_name buffer) "WaitingForHeader"%string;;
  part ← slice_from 5 frame_bytes;
  let '(buffer, r) := push buffer part in
  frames ← unwrap r;
  assert_eq (length frames) 1%nat;;
  assert_eq (frame_method_id <$> frames !! 0%nat) (Some 1);;
  assert_that (fb_is_empty buffer).

Definition test_fragmented_payload : option unit :=
  let buffer := new_buffer in
  let payload := as_bytes "this is a longer payload that will be fragmented" in
  let frame_bytes := make_frame_bytes 1 0 42 payload in
  let partial_len := (HEADER_SIZE + 10)%nat in
  part ← slice_to partial_len frame_bytes;
  let '(buffer, r) := push buffer part in
  frames ← unwrap r;
  assert_eq frames [];;
  assert_eq (state_name buffer) "WaitingForPayload"%string;;
  part ← slice_from partial_len frame_bytes;
  let '(buffer, r) := push buffer part in
  frames ← unwrap r;
  assert_eq (length frames) 1%nat;;
  assert_eq (Frame.payload <$> frames !! 0%nat) (Some payload);;
  assert_that (fb_is_empty buffer).

Definition test_empty_payload : option unit :=
  let buffer := new_buffer in
  let frame_bytes := make_frame_bytes 1 0 42 (as_bytes "") in
  let '(_, r) := push buffer frame_bytes in
  frames ← unwrap r;
  assert_eq (length frames) 1%nat;;
  frame ← frames !! 0%nat;
  assert_eq (payload frame) [];;
  assert_eq (payload_length (header frame)) 0.

(** With a payload of [n] bytes. *)
Definition large_payload (n : nat) : option unit :=
  let buffer := new_buffer in
  let payload := replicate n 0xAB in
  let frame_bytes := make_frame_bytes 1 0 42 payload in
  let '(_, r) := push buffer frame_bytes in
  frames ← unwrap r;
  assert_eq (length frames) 1%nat;;
  frame ← frames !! 0%nat;
  assert_eq (length (Frame.payload frame)) n;;
  assert_that (forallb (λ b, b =? 0xAB) (Frame.payload frame)).

Definition test_large_payload : option unit := large_payload (Z.to_nat (1024 * 1024)).

Definition test_max_payload_validation : option unit :=
  let buffer := with_max_payload 100 in
  let header := new_header 1 0 42 1000 in
  let header_bytes := encode header in
  let '(_, result) := push buffer header_bytes in
  assert_that (is_err result);;
  e ← unwrap_err result;
  assert_that (contains (error_to_string e) "exceeds maximum").

Definition test_receive_rejects_method_id_zero : option unit :=
  let buffer := new_buffer in
  let header := new_header 0 0 42 0 in
  let '(_, result) := push buffer (encode header) in
  assert_that (is_err result);;
  e ← unwrap_err result;
  assert_that (contains (error_to_string e) "Method ID 0").

Definition test_receive_rejects_reserved_flag_bits : option unit :=
  let buffer := new_buffer in
  let header := new_header 1 128 42 0 in
  let '(_, result) := push buffer (encode header) in
  assert_that (is_err result);;
  e ← unwrap_err result;
  assert_that (contains (error_to_string e) "Reserved flag bits").

Definition test_receive_allows_abort_and_auth_method_ids : option unit :=
  let buffer := new_buffer in
  let abort := make_frame_bytes ABORT_METHOD_ID 0 7 (as_bytes "") in
  let auth := make_frame_bytes AUTH_METHOD_ID 0 0 (as_bytes "token-bytes") in
  let combined := abort ++ auth in
  let '(_, r) := push buffer combined in
  frames ← unwrap r;
  assert_eq (length frames) 2%nat;;
  assert_eq (frame_method_id <$> frames !! 0%nat) (Some ABORT_METHOD_ID);;
  assert_eq (frame_method_id <$> frames !! 1%nat) (Some AUTH_METHOD_ID);;
  assert_eq (payload <$> frames !! 1%nat) (Some (as_bytes "token-bytes")).

Definition test_frame_with_all_header_fields : option unit :=
  let buffer := new_buffer in
  let frame_bytes :=
    make_frame_bytes 0x1234 flags.STREAM_END_RESPONSE 0xDEADBEEF (as_bytes "data") in
  let '(_, r) := push buffer frame_bytes in
  frames ← unwrap r;
  assert_eq (length frames) 1%nat;;
  frame ← frames !! 0%nat;
  assert_eq (frame_method_id frame) 0x1234;;
  assert_eq (hflags (header frame)) flags.STREAM_END_RESPONSE;;
  assert_eq (frame_request_id frame) 0xDEADBEEF;;
  assert_that (frame_is_stream frame);;
  assert_that (frame_is_stream_end frame).

Definition test_clear_resets_state : option unit :=
  let buffer := new_buffer in
  let frame_bytes := make_frame_bytes 1 0 42 (as_bytes "test") in
  part ← slice_to 5 frame_bytes;
  let '(buffer, r) := push buffer part in
  unwrap r;;
  assert_eq (state_name buffer) "WaitingForHeader"%string;;
  assert_that (negb (fb_is_empty buffer));;
  assert_eq (fb_len buffer) 5;;
  part ← slice 5 HEADER_SIZE frame_bytes;
  let '(buffer, r) := push buffer part in
  unwrap r;;
  assert_eq (state_name buffer) "WaitingForPayload"%string;;
  let buffer := clear buffer in
  assert_eq (state_name buffer) "WaitingForHeader"%string;;
  assert_that (fb_is_empty buffer).

Definition test_mixed_complete_and_partial : option unit :=
  let buffer := new_buffer in
  let frame1 := make_frame_bytes 1 0 1 (as_bytes "first") in
  let frame2 := make_frame_bytes 2 0 2 (as_bytes "second") in
  part ← slice_to 5 frame2;
  let data := frame1 ++ part in
  let '(buffer, r) := push buffer data in
  frames ← unwrap r;
  assert_eq (length frames) 1%nat;;
  assert_eq (frame_method_id <$> frames !! 0%nat) (Some 1);;
  assert_eq (state_name buffer) "WaitingForHeader"%string;;
  part ← slice_from 5 frame2;
  let '(buffer, r) := push buffer part in
  frames ← unwrap r;
  assert_eq (length frames) 1%nat;;
  assert_eq (frame_method_id <$> frames !! 0%nat) (Some 2).

Definition test_byte_at_a_time : option unit :=
  let frame_bytes := make_frame_bytes 1 0 42 (as_bytes "hi") in
  '(_, all_frames) ← foldl (λ acc byte,
    '(buffer, all_frames) ← acc;
    let '(buffer, r) := push buffer [byte] in
    frames ← unwrap r;
    Some (buffer, all_frames ++ frames)) (Some (new_buffer, [])) frame_bytes;
  assert_eq (length all_frames) 1%nat;;
  assert_eq (frame_method_id <$> all_frames !! 0%nat) (Some 1);;
  assert_eq (payload <$> all_frames !! 0%nat) (Some (as_bytes "hi")).

(** The tests that are evaluated; the large payload is proved instead. *)
Definition tests : list (option unit) :=
  [test_single_complete_frame; test_multiple_frames_in_one_push; test_fragmented_header;
   test_fragmented_payload; test_empty_payload; test_max_payload_validation;
   test_receive_rejects_method_id_zero; test_receive_rejects_reserved_flag_bits;
   test_receive_allows_abort_and_auth_method_ids; test_frame_with_all_header_fields;
   test_clear_resets_state; test_mixed_complete_and_partial; test_byte_at_a_time].

Example frame_buffer_tests_pass : all_pass tests = true.
Proof. vm_compute. reflexivity. Qed.

Lemma large_payload_passes n :
  Z.of_nat n ≤ DEFAULT_MAX_PAYLOAD_SIZE → large_payload n = Some tt.
Proof.
  intros Hn. set (p := replicate n 0xAB). assert (Hlen : length p = n) by apply length_replicate.
  assert (Hwrap : wrap 32 (zlen p) = zlen p).
  { apply wrap_id. rewrite Hlen. unfold DEFAULT_MAX_PAYLOAD_SIZE in Hn. split; lia. }
  set (f := new_frame (new_header 1 0 42 (wrap 32 (zlen p))) p).
  assert (Hf : frame_wf DEFAULT_MAX_PAYLOAD_SIZE f).
  { unfold f. rewrite Hwrap, Hlen. unfold DEFAULT_MAX_PAYLOAD_SIZE in *.
    split; cbn [header payload payload_length].
    - split; cbn; [by split..|split; lia].
    - unfold header_valid, ABSOLUTE_MAX_PAYLOAD_SIZE. cbn. split_and!; [done|lia|lia|done].
    - by rewrite Hlen.
    - apply Forall_replicate. by split. }
  pose proof (parse_frames DEFAULT_MAX_PAYLOAD_SIZE [f] [] ltac:(by constructor)) as Hp.
  rewrite parse_nil, app_nil_r in Hp. cbn [fmap list_fmap concat app] in Hp. rewrite !app_nil_r in Hp.
  destruct (push_holds DEFAULT_MAX_PAYLOAD_SIZE [] new_buffer (frame_bytes f) [f] []
    (holds_fresh _) (frame_bytes_is_bytes _ _ Hf) Hp) as (fb & Hpush & _).
  unfold large_payload. fold p. change (make_frame_bytes 1 0 42 p) with (frame_bytes f).
  cbv zeta. rewrite Hpush. cbn [unwrap mbind option_bind length lookup list_lookup].
  unfold assert_eq at 1. cbn [bool_decide assert_that]. change (payload f) with p.
  unfold assert_eq. rewrite bool_decide_eq_true_2 by done. cbn [assert_that mbind option_bind].
  assert (Hall : forallb (λ b, b =? 0xAB) p = true); [|by rewrite Hall].
  apply Is_true_true, forallb_True, Forall_replicate. done.
Qed.

Example large_payload_test_passes : passes test_large_payload = true.
Proof.
  unfold test_large_payload. rewrite large_payload_passes; [done|].
  by rewrite Z2Nat.id.
Qed.
End frame_buffer_tests.
