(* ===== verification/TestsRuntime.v ===== *)
(** * The unit tests of src/backpressure.rs and src/codec/raw.rs, run on the model *)

From S2P Require Import Prelude Errors Backpressure Codec Json UnitTest.

#[local] Existing Instance string_errors.

(** ** backpressure.rs *)
Module backpressure_tests.

(** A call repeated, each time with [unwrap]. *)
Definition times (n : nat) (f : cells → cells * Result unit) (m : cells) : option cells :=
  Nat.iter n (λ m, m ← m; let '(m, r) := f m in unwrap r;; Some m) (Some m).

Definition timed_out (r : Result unit) : bool :=
  match r with Err BackpressureTimeout => true | _ => false end.

Definition test_controller_creation : option unit :=
  let '(m, ctrl) := bp_new 0 100 ∅ in
  assert_eq (max_pending ctrl) 100;;
  assert_eq (pending_count ctrl m) 0;;
  assert_that (can_accept ctrl m);;
  assert_that (negb (is_active ctrl m)).

Definition test_controller_default : option unit :=
  let '(m, ctrl) := bp_default 0 ∅ in
  assert_eq (max_pending ctrl) DEFAULT_MAX_PENDING.

Definition test_try_reserve_success : option unit :=
  let '(m, ctrl) := bp_new 0 10 ∅ in
  m ← times 10 (try_reserve ctrl) m;
  assert_eq (pending_count ctrl m) 10;;
  assert_that (is_active ctrl m).

Definition test_try_reserve_at_capacity : option unit :=
  let '(m, ctrl) := bp_new 0 5 ∅ in
  m ← times 5 (try_reserve ctrl) m;
  let '(m, result) := try_reserve ctrl m in
  assert_that (timed_out result).

Definition test_release : option unit :=
  let '(m, ctrl) := bp_new 0 10 ∅ in
  m ← times 2 (try_reserve ctrl) m;
  assert_eq (pending_count ctrl m) 2;;
  let m := release ctrl m in
  assert_eq (pending_count ctrl m) 1;;
  let m := release ctrl m in
  assert_eq (pending_count ctrl m) 0.

Definition test_release_many : option unit :=
  let '(m, ctrl) := bp_new 0 100 ∅ in
  m ← times 50 (try_reserve ctrl) m;
  assert_eq (pending_count ctrl m) 50;;
  let m := release_many ctrl 30 m in
  assert_eq (pending_count ctrl m) 20.

Definition test_available_capacity : option unit :=
  let '(m, ctrl) := bp_new 0 100 ∅ in
  assert_eq (available_capacity ctrl m) 100;;
  m ← times 1 (try_reserve ctrl) m;
  assert_eq (available_capacity ctrl m) 99;;
  m ← times 50 (try_reserve ctrl) m;
  assert_eq (available_capacity ctrl m) 49.

Definition test_clone_shares_state : option unit :=
  let '(m, ctrl1) := bp_new 0 10 ∅ in
  let ctrl2 := bp_clone ctrl1 in
  m ← times 1 (try_reserve ctrl1) m;
  assert_eq (pending_count ctrl2 m) 1;;
  m ← times 1 (try_reserve ctrl2) m;
  assert_eq (pending_count ctrl1 m) 2.

Definition test_from_shared : option unit :=
  let pending := 0%nat in
  let m : cells := store pending 5 ∅ in
  let ctrl := from_shared pending 10 (10 ^ 9) in
  assert_eq (pending_count ctrl m) 5;;
  assert_that (negb (is_active ctrl m));;
  let m := store pending 10 m in
  assert_that (is_active ctrl m).

Definition test_reserve_immediate : option unit :=
  let '(m, ctrl) := bp_new 0 10 ∅ in
  '(m, r) ← reserve ctrl m [];
  unwrap r;;
  assert_eq (pending_count ctrl m) 1.

(** Nobody releases; the loop looks at the counter until the 10 ms are over. *)
Definition test_reserve_timeout : option unit :=
  let '(m, ctrl) := bp_with_timeout 0 1 (10 * 10 ^ 6) ∅ in
  m ← times 1 (try_reserve ctrl) m;
  let elapsed := 10 * 10 ^ 6 + CHECK_INTERVAL in
  '(m, result) ← reserve ctrl m [(m, 0); (m, CHECK_INTERVAL); (m, elapsed)];
  assert_that (timed_out result);;
  assert_that (10 * 10 ^ 6 <=? elapsed).

(** The spawned task releases after 10 ms. *)
Definition test_reserve_wait_success : option unit :=
  let '(m, ctrl) := bp_with_timeout 0 1 (10 ^ 9) ∅ in
  m ← times 1 (try_reserve ctrl) m;
  let ctrl_clone := bp_clone ctrl in
  let later := release ctrl_clone m in
  '(m, result) ← reserve ctrl m [(m, 0); (m, CHECK_INTERVAL); (later, 10 * 10 ^ 6 + CHECK_INTERVAL)];
  assert_that (is_ok result).

Definition test_reset : option unit :=
  let '(m, ctrl) := bp_new 0 100 ∅ in
  m ← times 50 (try_reserve ctrl) m;
  assert_eq (pending_count ctrl m) 50;;
  let m := bp_reset ctrl m in
  assert_eq (pending_count ctrl m) 0.

Definition test_guard_release_on_drop : option unit :=
  let '(m, ctrl) := bp_new 0 10 ∅ in
  m ← times 1 (try_reserve ctrl) m;
  let guard := guard_new (bp_clone ctrl) in
  assert_eq (pending_count ctrl m) 1;;
  let m := guard_drop guard m in
  assert_eq (pending_count ctrl m) 0.

Definition test_guard_manual_release : option unit :=
  let '(m, ctrl) := bp_new 0 10 ∅ in
  m ← times 1 (try_reserve ctrl) m;
  let guard := guard_new (bp_clone ctrl) in
  assert_eq (pending_count ctrl m) 1;;
  let m := guard_release guard m in
  assert_eq (pending_count ctrl m) 0.

Definition test_guard_disarm : option unit :=
  let '(m, ctrl) := bp_new 0 10 ∅ in
  m ← times 1 (try_reserve ctrl) m;
  let guard := guard_new (bp_clone ctrl) in
  let guard := disarm guard in
  let m := guard_drop guard m in
  assert_eq (pending_count ctrl m) 1.

Definition tests : list (option unit) :=
  [test_controller_creation; test_controller_default; test_try_reserve_success;
   test_try_reserve_at_capacity; test_release; test_release_many; test_available_capacity;
   test_clone_shares_state; test_from_shared; test_reserve_immediate; test_reserve_timeout;
   test_reserve_wait_success; test_reset; test_guard_release_on_drop;
   test_guard_manual_release; test_guard_disarm].

Example backpressure_tests_pass : all_pass tests = true.
Proof. vm_compute. reflexivity. Qed.
End backpressure_tests.

(** ** codec/raw.rs *)
Module raw_tests.

Definition test_serialize_round_trip : option unit :=
  let original := as_bytes "hello world" in
  let serialized := raw_serialize original in
  let deserialized := raw_deserialize serialized in
  assert_eq deserialized original.

Definition test_serialize_empty : option unit :=
  let empty := as_bytes "" in
  let serialized := raw_serialize empty in
  assert_eq serialized [];;
  assert_eq (raw_deserialize serialized) [].

(** With a buffer of [n] bytes. *)
Definition large_buffer (n : nat) : option unit :=
  let large := replicate n 0xAB in
  let serialized := raw_serialize large in
  assert_eq (length serialized) n;;
  assert_eq (raw_deserialize serialized) large.

Definition test_serialize_large_buffer : option unit := large_buffer (Z.to_nat (1024 * 1024)).

Definition test_binary_data_preserved : option unit :=
  let all_bytes := seqZ 0 256 in
  let serialized := raw_serialize all_bytes in
  assert_eq (raw_deserialize serialized) all_bytes.

Definition tests : list (option unit) :=
  [test_serialize_round_trip; test_serialize_empty; test_binary_data_preserved].

Example raw_tests_pass : all_pass tests = true.
Proof. vm_compute. reflexivity. Qed.

Lemma large_buffer_passes n : large_buffer n = Some tt.
Proof.
  unfold large_buffer, assert_eq, raw_serialize, raw_deserialize.
  rewrite length_replicate, !bool_decide_eq_true_2 by done. done.
Qed.

Example raw_large_buffer_passes : passes test_serialize_large_buffer = true.
Proof. unfold test_serialize_large_buffer. by rewrite large_buffer_passes. Qed.
End raw_tests.
