(* ===== verification/TestsControl.v ===== *)
(** * The unit tests of src/control/ and src/handler/registry.rs, run on the model

    [serde_json] is a parameter of the model; here it is the JSON of the tests:
    objects, strings without escapes and unsigned numbers, printed without
    spaces and parsed from text. *)

From S2P Require Import Prelude Errors WireFormat Codec Json Init Control Program Context Registry Msgpack UnitTest.

#[local] Existing Instance string_errors.

(** ** JSON text *)

#[warnings="-register-all"]
Inductive json_text :=
| JString (s : string)
| JNumber (n : Z)
| JObject (members : list (string * json_text)).

Definition QUOTE : Z := 34.

Definition print_string (s : string) : bytes := QUOTE :: as_bytes s ++ [QUOTE].

Fixpoint print_text (v : json_text) : bytes :=
  match v with
  | JString s => print_string s
  | JNumber n => as_bytes (pretty n)
  | JObject ms =>
    let fix members (ms : list (string * json_text)) : bytes :=
      match ms with
      | [] => []
      | [(k, v)] => print_string k ++ 58 :: print_text v
      | (k, v) :: ms => (print_string k ++ 58 :: print_text v) ++ 44 :: members ms
      end in
    LEFT_BRACE :: members ms ++ [RIGHT_BRACE]
  end.

(** Up to the closing quote; escapes are not supported. *)
Fixpoint text_string (bs : bytes) : option (bytes * bytes) :=
  match bs with
  | [] => None
  | b :: bs =>
    if b =? QUOTE then Some ([], bs)
    else if b =? 92 then None
    else '(s, rest) ← text_string bs; Some (b :: s, rest)
  end.

Fixpoint text_number (acc : Z) (bs : bytes) : Z * bytes :=
  match bs with
  | b :: rest => if (48 <=? b) && (b <=? 57) then text_number (10 * acc + (b - 48)) rest else (acc, bs)
  | [] => (acc, [])
  end.

(** A value at the front of the text; [members] of an object after the brace. *)
Fixpoint text_value (fuel : nat) (bs : bytes) : option (json_text * bytes) :=
  match fuel with
  | O => None
  | S fuel =>
    match bs with
    | [] => None
    | b :: rest =>
      if b =? QUOTE then '(s, rest) ← text_string rest; Some (JString (of_bytes s), rest)
      else if b =? LEFT_BRACE then
        '(ms, rest) ← text_members fuel rest; Some (JObject ms, rest)
      else if (48 <=? b) && (b <=? 57) then
        let '(n, rest) := text_number 0 bs in Some (JNumber n, rest)
      else None
    end
  end
with text_members (fuel : nat) (bs : bytes) : option (list (string * json_text) * bytes) :=
  match fuel with
  | O => None
  | S fuel =>
    match bs with
    | 125 :: rest => Some ([], rest)
    | 34 :: rest =>
      '(k, rest) ← text_string rest;
      match rest with
      | 58 :: rest =>
        '(v, rest) ← text_value fuel rest;
        match rest with
        | 44 :: rest =>
          '(ms, rest) ← text_members fuel rest; Some ((of_bytes k, v) :: ms, rest)
        | 125 :: rest => Some ([(of_bytes k, v)], rest)
        | _ => None
        end
      | _ => None
      end
    | _ => None
    end
  end.

Definition parse_text (bs : bytes) : result string json_text :=
  match text_value (S (length bs)) bs with
  | Some (v, []) => Ok v
  | _ => Err "syntax error"%string
  end.

#[local] Instance text_json : SerdeJson := {|
  Value := json_text;
  v_string := JString;
  v_number := JNumber;
  v_object m := JObject (map_to_list m);
  as_object v := match v with JObject ms => Some (list_to_map ms) | _ => None end;
  as_str v := match v with JString s => Some s | _ => None end;
  as_u64 v := match v with JNumber n => Some n | _ => None end;
  json_to_string v := Ok (print_text v);
  json_from_str := parse_text
|}.

(** [parsed[key]] and the comparison with a string or a number. *)
Definition at_key (v : option Value) (key : string) : option Value := v ≫= λ v, get v key.
Definition str_at (v : option Value) (key : string) : option string := at_key v key ≫= as_str.
Definition u64_at (v : option Value) (key : string) : option Z := at_key v key ≫= as_u64.

(** Single quotes stand for the double quotes of the Rust raw strings. *)
Definition raw_text (s : string) : bytes := (λ b, if b =? 39 then QUOTE else b) <$> as_bytes s.

(** ** stdin.rs *)
Module stdin_tests.

Definition test_ping_maps_to_pong : option unit :=
  let line := raw_text "{'jsonrpc':'2.0','method':'$ping'}" in
  assert_eq (parse_control_line line) Pong.

Definition test_shutdown_maps_to_shutdown : option unit :=
  let line := raw_text "{'jsonrpc':'2.0','method':'$shutdown','params':{}}" in
  assert_eq (parse_control_line line) Shutdown.

Definition test_trailing_newline_is_tolerated : option unit :=
  let line := raw_text "{'jsonrpc':'2.0','method':'$ping'}" ++ [NEWLINE] in
  assert_eq (parse_control_line line) Pong.

Definition test_non_json_line_is_ignored : option unit :=
  assert_eq (parse_control_line (as_bytes "hello, this is a log line")) Ignore;;
  assert_eq (parse_control_line (as_bytes "")) Ignore;;
  assert_eq (parse_control_line (as_bytes "   ")) Ignore.

Definition test_unknown_method_is_ignored : option unit :=
  let line := raw_text "{'jsonrpc':'2.0','method':'$something-else'}" in
  assert_eq (parse_control_line line) Ignore.

Definition test_missing_method_is_ignored : option unit :=
  let line := raw_text "{'jsonrpc':'2.0','id':1}" in
  assert_eq (parse_control_line line) Ignore.

Definition test_malformed_json_is_ignored : option unit :=
  let line := raw_text "{'jsonrpc':'2.0','method':" in
  assert_eq (parse_control_line line) Ignore.

Definition test_pong_message_shape : option unit :=
  parsed ← unwrap (json_from_str PONG_MESSAGE);
  assert_eq (str_at (Some parsed) "jsonrpc") (Some "2.0"%string);;
  assert_eq (str_at (Some parsed) "method") (Some "$pong"%string).

Definition tests : list (option unit) :=
  [test_ping_maps_to_pong; test_shutdown_maps_to_shutdown; test_trailing_newline_is_tolerated;
   test_non_json_line_is_ignored; test_unknown_method_is_ignored;
   test_missing_method_is_ignored; test_malformed_json_is_ignored; test_pong_message_shape].

Example stdin_tests_pass : all_pass tests = true.
Proof. vm_compute. reflexivity. Qed.
End stdin_tests.


(** ** init.rs *)
Module init_tests.

Definition socket : string := "/tmp/test.sock".

Definition parsed_message (schema : InitSchema) : option Value :=
  msg ← build_init_message socket schema;
  unwrap (json_from_str msg).

Definition params (schema : InitSchema) : option Value :=
  at_key (parsed_message schema) "params".
Definition schema_key (schema : InitSchema) (key : string) : option Value :=
  at_key (at_key (params schema) "schema") key.

Definition test_build_init_message_format : option unit :=
  let schema := new_schema in
  let schema := add_method schema "echo" 1 RtResult in
  let schema := add_method schema "generate" 2 RtStream in
  let schema := add_event schema "progress" 3 in
  let parsed := parsed_message schema in
  assert_eq (str_at parsed "jsonrpc") (Some "2.0"%string);;
  assert_eq (str_at parsed "method") (Some "$init"%string);;
  assert_eq (str_at (at_key parsed "params") "pipe") (Some "/tmp/test.sock"%string);;
  assert_eq (str_at (at_key parsed "params") "version") (Some "1.0.0"%string).

Definition test_method_schema : option unit :=
  let schema := add_method new_schema "echo" 1 RtResult in
  let echo := at_key (schema_key schema "methods") "echo" in
  assert_eq (u64_at echo "id") (Some 1);;
  assert_eq (str_at echo "response") (Some "result"%string).

Definition test_event_schema : option unit :=
  let schema := add_event new_schema "progress" 5 in
  assert_eq (u64_at (at_key (schema_key schema "events") "progress") "id") (Some 5).

Definition test_response_types : option unit :=
  let schema := add_method new_schema "result_method" 1 RtResult in
  let schema := add_method schema "stream_method" 2 RtStream in
  let schema := add_method schema "ack_method" 3 RtAck in
  let schema := add_method schema "none_method" 4 RtNone in
  let methods := schema_key schema "methods" in
  assert_eq (str_at (at_key methods "result_method") "response") (Some "result"%string);;
  assert_eq (str_at (at_key methods "stream_method") "response") (Some "stream"%string);;
  assert_eq (str_at (at_key methods "ack_method") "response") (Some "ack"%string);;
  assert_eq (str_at (at_key methods "none_method") "response") (Some "none"%string).

Definition empty_object (v : option Value) : option bool :=
  v ← v; m ← as_object v; Some (bool_decide (dom m = (∅ : gset string))).

Definition test_empty_schema : option unit :=
  let schema := new_schema in
  assert_that (schema_is_empty schema);;
  methods ← empty_object (schema_key schema "methods");
  assert_that methods;;
  events ← empty_object (schema_key schema "events");
  assert_that events.

Definition test_schema_get_method : option unit :=
  let schema := add_method new_schema "echo" 1 RtResult in
  method ← get_method schema "echo";
  assert_eq (ms_id method) 1;;
  assert_eq (ms_response method) RtResult;;
  assert_that (is_none (get_method schema "nonexistent")).

Definition test_schema_get_event : option unit :=
  let schema := add_event new_schema "progress" 5 in
  event ← get_event schema "progress";
  assert_eq (es_id event) 5;;
  assert_that (is_none (get_event schema "nonexistent")).

Definition tests : list (option unit) :=
  [test_build_init_message_format; test_method_schema; test_event_schema;
   test_response_types; test_empty_schema; test_schema_get_method; test_schema_get_event].

Example init_tests_pass : all_pass tests = true.
Proof. vm_compute. reflexivity. Qed.
End init_tests.

(** ** stdio.rs, on a stdout that works *)
Module stdio_tests.

Definition test_write_stdout_line_does_not_panic : option unit :=
  let '(_, result) := write_stdout_line ([] : bytes) (raw_text "{'test': true}") in
  assert_that (is_ok result).

Record TestData := { value : Z }.

(** [#[derive(Serialize)]]. *)
#[export] Instance TestData_serialize : JsonSerialize TestData :=
  λ d, Ok (print_text (JObject [("value"%string, JNumber (value d))])).

Definition test_write_stdout_json_serializes : option unit :=
  let data := {| value := 42 |} in
  let '(_, result) := write_stdout_json ([] : bytes) data in
  assert_that (is_ok result).

Definition tests : list (option unit) :=
  [test_write_stdout_line_does_not_panic; test_write_stdout_json_serializes].

Example stdio_tests_pass : all_pass tests = true.
Proof. vm_compute. reflexivity. Qed.
End stdio_tests.

(** ** registry.rs: the handlers are registered, never called, so the tests
    pass whatever decodes their payloads *)
Module registry_tests.
Section Tests.
Context (decoder : ∀ T, DeserializeOwned T).

(** [|_: T, _ctx| async { Ok(()) }]. *)
Definition ok_handler {T} (_ : T) (_ : RequestContext) : prog := Ret (Ok tt).

(** [register] in a build with overflow checks, as [cargo test] makes it. *)
Definition reg (T : Type) (r : HandlerRegistry) (name : string) (rt : ResponseType) :
  option HandlerRegistry :=
  register (DeserializeOwned0 := decoder T) true r name rt ok_handler.

Definition test_register_method : option unit :=
  registry ← reg string new_registry "echo" RtResult;
  assert_that (is_some (get_handler registry "echo"));;
  assert_eq (get_method_id registry "echo") (Some 1);;
  assert_eq (get_method_name registry 1) (Some "echo"%string).

Definition test_id_assignment_sequential : option unit :=
  registry ← reg unit new_registry "method1" RtResult;
  registry ← reg unit registry "method2" RtStream;
  registry ← reg unit registry "method3" RtAck;
  assert_eq (get_method_id registry "method1") (Some 1);;
  assert_eq (get_method_id registry "method2") (Some 2);;
  assert_eq (get_method_id registry "method3") (Some 3).

Definition test_register_event : option unit :=
  registry ← register_event true new_registry "progress";
  registry ← register_event true registry "status";
  assert_eq (get_event_id registry "progress") (Some 1);;
  assert_eq (get_event_id registry "status") (Some 2).

Definition test_build_schema : option unit :=
  registry ← reg string new_registry "echo" RtResult;
  registry ← reg Z registry "generate" RtStream;
  registry ← register_event true registry "progress";
  let schema := build_schema registry in
  echo ← get_method schema "echo";
  assert_eq (ms_id echo) 1;;
  assert_eq (ms_response echo) RtResult;;
  generate ← get_method schema "generate";
  assert_eq (ms_id generate) 2;;
  assert_eq (ms_response generate) RtStream;;
  progress ← get_event schema "progress";
  assert_eq (es_id progress) 1.

Definition test_handler_not_found : option unit :=
  let registry := new_registry in
  assert_that (is_none (get_handler registry "nonexistent"));;
  assert_that (is_none (get_handler_by_id registry 99)).

Definition test_response_type : option unit :=
  registry ← reg unit new_registry "result_method" RtResult;
  registry ← reg unit registry "stream_method" RtStream;
  assert_eq (get_response_type registry "result_method") (Some RtResult);;
  assert_eq (get_response_type registry "stream_method") (Some RtStream).

Definition tests : list (option unit) :=
  [test_register_method; test_id_assignment_sequential; test_register_event;
   test_build_schema; test_handler_not_found; test_response_type].
End Tests.

Example registry_tests_pass decoder : all_pass (tests decoder) = true.
Proof. vm_compute. reflexivity. Qed.
End registry_tests.
