(* ===== verification/TestsWriter.v ===== *)
(** * The unit tests of src/writer.rs and src/transport/pipe.rs, run on the model

    [tokio::io::duplex] and [Cursor] are here a pipe that takes everything it
    is given; an [await] runs the writer task and the call until nothing moves. *)

From stdpp Require Import pretty.
From S2P Require Import Prelude Errors WireFormat Frame Writer WriterTask Json Transport Simulate.
From S2P Require Import UnitTest UnitTestRuntime.

#[local] Existing Instance string_errors.

(** ** writer.rs *)
Module writer_tests.

Definition hello : bytes := as_bytes "hello".

Definition settle (cfg : WriterConfig) (y : wsys ScriptWriter) : wsys ScriptWriter :=
  iterate (writer_move cfg) (λ _, false) STEPS y.

(** The result of the last call, when it has returned. *)
Definition last_result (y : wsys ScriptWriter) : option (Result unit) :=
  s ← last (w_senders y);
  match s_pc s with PcDone r => Some r | _ => None end.

(** [handle.send(frame).await] and [handle.try_send(frame)]. *)
Definition call (m : send_mode) (cfg : WriterConfig) (f : OutboundFrame) (y : wsys ScriptWriter) :
  option (wsys ScriptWriter * Result unit) :=
  let y := settle cfg (spawn_sender m f y) in
  r ← last_result y; Some (y, r).

Definition test_outbound_frame_creation : option unit :=
  let header := new_header 1 3 42 5 in
  let frame := new_outbound header hello in
  assert_eq (length (ob_header frame)) HEADER_SIZE;;
  assert_eq (length (ob_payload frame)) 5%nat;;
  assert_eq (Writer.size frame) (HEADER_SIZE + 5)%nat.

Definition test_outbound_frame_empty : option unit :=
  let header := new_header 1 0x23 42 0 in
  let frame := empty_outbound header in
  assert_eq (ob_payload frame) [];;
  assert_eq (Writer.size frame) HEADER_SIZE.

Definition test_writer_config_default : option unit :=
  let config := default_config in
  assert_eq (max_pending_frames config) DEFAULT_MAX_PENDING_FRAMES;;
  assert_eq (channel_capacity config) DEFAULT_CHANNEL_CAPACITY;;
  assert_eq (backpressure_timeout config) DEFAULT_BACKPRESSURE_TIMEOUT.

Definition test_writer_handle_send : option unit :=
  y ← spawn_writer_task_default duplex;
  let frame := new_outbound (new_header 1 3 42 5) hello in
  '(y, r) ← call Send default_config frame y;
  _ ← unwrap r;
  assert_eq (length (sw_out (w_sink y))) (HEADER_SIZE + 5)%nat.

Definition test_writer_handle_pending_count : option unit :=
  let config := {| max_pending_frames := 1000; channel_capacity := 100;
                   backpressure_timeout := 10 ^ 9 |} in
  y ← spawn_writer_task duplex config;
  assert_eq (writer_pending_count y) 0;;
  assert_that (negb (is_backpressure_active config y)).

(** Ten sends, one after the other. *)
Fixpoint send_all (fs : list OutboundFrame) (y : wsys ScriptWriter) :
  option (wsys ScriptWriter) :=
  match fs with
  | [] => Some y
  | f :: fs =>
    '(y, r) ← call Send default_config f y;
    _ ← unwrap r; send_all fs y
  end.

Definition test_writer_batching : option unit :=
  y ← spawn_writer_task_default duplex;
  y ← send_all ((λ i, new_outbound (new_header 1 3 i 4) (to_be_bytes 4 i)) <$> seqZ 0 10) y;
  assert_eq (length (sw_out (w_sink y))) (10 * (HEADER_SIZE + 4))%nat.

Definition test_try_send_at_capacity : option unit :=
  let config := {| max_pending_frames := 100; channel_capacity := 10;
                   backpressure_timeout := 10 ^ 9 |} in
  let y := set_pending 100 (fresh_wsys duplex) in
  let frame := empty_outbound (new_header 1 3 42 0) in
  '(y, result) ← call TrySend config frame y;
  assert_that (match result with Err BackpressureTimeout => true | _ => false end).

Definition hello_batch : list OutboundFrame := [new_outbound (new_header 1 3 42 5) hello].

Definition test_build_remaining_slices_no_skip : option unit :=
  let slices := build_remaining_slices hello_batch 0 in
  assert_eq (length slices) 2%nat.

Definition test_build_remaining_slices_partial_header : option unit :=
  let slices := build_remaining_slices hello_batch 5 in
  assert_eq (length slices) 2%nat;;
  s0 ← slices !! 0%nat;
  assert_eq (length s0) (HEADER_SIZE - 5)%nat;;
  s1 ← slices !! 1%nat;
  assert_eq (length s1) 5%nat.

Definition test_build_remaining_slices_skip_header : option unit :=
  let slices := build_remaining_slices hello_batch HEADER_SIZE in
  assert_eq (length slices) 1%nat;;
  s0 ← slices !! 0%nat;
  assert_eq (length s0) 5%nat.

Definition test_write_batch_single : option unit :=
  '(buf, r) ← write_batch duplex hello_batch;
  _ ← unwrap r;
  assert_eq (length (sw_out buf)) (HEADER_SIZE + 5)%nat.

Definition test_write_batch_multiple : option unit :=
  let batch := (λ i, new_outbound (new_header 1 3 i 3) (as_bytes "abc")) <$> seqZ 0 5 in
  '(buf, r) ← write_batch duplex batch;
  _ ← unwrap r;
  assert_eq (length (sw_out buf)) (5 * (HEADER_SIZE + 3))%nat.

Definition test_writer_shutdown_on_channel_close : option unit :=
  y ← spawn_writer_task_default duplex;
  let y := settle default_config (drop_handles y) in
  match w_task y with
  | TExit result => assert_that (is_ok result)
  | _ => None
  end.

Definition tests : list (option unit) :=
  [test_outbound_frame_creation; test_outbound_frame_empty; test_writer_config_default;
   test_writer_handle_send; test_writer_handle_pending_count; test_writer_batching;
   test_try_send_at_capacity; test_build_remaining_slices_no_skip;
   test_build_remaining_slices_partial_header; test_build_remaining_slices_skip_header;
   test_write_batch_single; test_write_batch_multiple; test_writer_shutdown_on_channel_close].

Example writer_tests_pass : all_pass tests = true.
Proof. vm_compute. reflexivity. Qed.
End writer_tests.

(** ** pipe.rs: the tests in a process environment *)
Module pipe_tests.
Section Tests.
(** The variables [XDG_RUNTIME_DIR] and [TMPDIR], the process id, the sequence
    number the counter is at, and the clock. *)
Context (xdg tmpdir : option string) (pid : u32) (counter : u64) (clock : option Z).

Definition test_generate_pipe_path_format : option unit :=
  let '(path, _) := generate_pipe_path xdg tmpdir pid counter clock in
  assert_that (contains path "/procwire-");;
  assert_that (ends_with path ".sock").

Definition test_unix_runtime_dir_strips_trailing_slash : option unit :=
  let dir := unix_runtime_dir xdg tmpdir in
  assert_that (negb (bool_decide (dir = EmptyString)));;
  assert_that (bool_decide (dir = "/tmp"%string) || negb (ends_with dir "/")).

(** [n] paths, one after the other, all at the same clock. *)
Fixpoint paths (n : nat) (counter : u64) : list string :=
  match n with
  | O => []
  | S n =>
    let '(path, counter) := generate_pipe_path xdg tmpdir pid counter clock in
    path :: paths n counter
  end.

Definition test_generate_pipe_path_uniqueness : option unit :=
  assert_that (bool_decide (NoDup (paths 10 counter))).

Definition test_pipe_path_contains_pid : option unit :=
  let '(path, _) := generate_pipe_path xdg tmpdir pid counter clock in
  assert_that (contains path (pretty (Z.to_N pid))).

Definition tests : list (option unit) :=
  [test_generate_pipe_path_format; test_unix_runtime_dir_strips_trailing_slash;
   test_generate_pipe_path_uniqueness; test_pipe_path_contains_pid].
End Tests.

(** In several environments; the last has a clock before the epoch. *)
Example pipe_tests_pass :
  all_pass (tests None None 4242 0 (Some 1700000000000000000)
    ++ tests (Some "/run/user/1000/"%string) None 1 7 (Some 1)
    ++ tests (Some EmptyString) (Some "/var/tmp//"%string) 99999 (2 ^ 64 - 3) (Some (2 ^ 70 + 5))
    ++ tests (Some "/"%string) (Some "/x"%string) 17 3 None) = true.
Proof. vm_compute. reflexivity. Qed.
End pipe_tests.
