(* ===== verification/TestsMsgpack.v ===== *)
(** * The unit tests of src/codec/msgpack.rs, run on the model

    [rmp_serde] is the codec of Msgpack.v; the crate's [MsgPackCodec] is the
    one of Codec.v.  The integer types are all [Z], the type annotations of the
    tests are aliases. *)

From S2P Require Import Prelude Errors Codec Json Msgpack UnitTest.

#[local] Existing Instance string_errors.

Module msgpack_tests.

Record TestStruct := { id : Z; name : string; active : bool }.
#[export] Instance TestStruct_eq_dec : EqDecision TestStruct.
Proof. solve_decision. Defined.
#[export] Instance TestStruct_mp : Mp TestStruct := {|
  to_mp t :=
    struct_mp [("id", to_mp (id t)); ("name", to_mp (name t)); ("active", to_mp (active t))]%string;
  of_mp v :=
    id ← field_mp "id" v; name ← field_mp "name" v; active ← field_mp "active" v;
    Some {| id := id; name := name; active := active |}
|}.

(** [decode(&encode(&x).unwrap()).unwrap() == x]: the pattern of most tests. *)
Definition round_trip {T} `{EqDecision T, Mp T} (x : T) : option unit :=
  encoded ← unwrap (msgpack_encode x);
  decoded ← unwrap (msgpack_decode (T := T) encoded);
  assert_eq decoded x.

Definition test_encode_decode_struct : option unit :=
  let original := {| id := 42; name := "test"; active := true |} in
  encoded ← unwrap (msgpack_encode original);
  decoded ← unwrap (msgpack_decode encoded);
  assert_eq decoded original.

Definition test_encode_decode_primitives : option unit :=
  round_trip "hello world"%string;;
  round_trip 12345;;
  round_trip true.

Definition test_encode_decode_collections : option unit :=
  round_trip [1; 2; 3; 4; 5];;
  let map : gmap string Z := ∅ in
  let map := <["key1"%string := 100]> map in
  let map := <["key2"%string := 200]> map in
  round_trip map.

Record Inner := { value : Z }.
Record Outer := { inner : Inner; items : list string }.
#[export] Instance Inner_eq_dec : EqDecision Inner.
Proof. solve_decision. Defined.
#[export] Instance Outer_eq_dec : EqDecision Outer.
Proof. solve_decision. Defined.
#[export] Instance Inner_mp : Mp Inner := {|
  to_mp i := struct_mp [("value"%string, to_mp (value i))];
  of_mp v := value ← field_mp "value" v; Some {| value := value |}
|}.
#[export] Instance Outer_mp : Mp Outer := {|
  to_mp o := struct_mp [("inner", to_mp (inner o)); ("items", to_mp (items o))]%string;
  of_mp v :=
    inner ← field_mp "inner" v; items ← field_mp "items" v;
    Some {| inner := inner; items := items |}
|}.

Definition test_encode_decode_nested : option unit :=
  let original := {| inner := {| value := 999 |}; items := ["a"; "b"]%string |} in
  encoded ← unwrap (msgpack_encode original);
  decoded ← unwrap (msgpack_decode encoded);
  assert_eq decoded original.

Definition test_encode_decode_option : option unit :=
  round_trip (Some 42);;
  round_trip (None : option Z).

Definition test_to_vec_named_produces_map_format : option unit :=
  let test := {| id := 1; name := "x"; active := false |} in
  encoded ← unwrap (msgpack_encode test);
  b ← encoded !! 0%nat;
  assert_eq (Z.land b 0xF0) 0x80.

Definition test_decode_error_on_invalid_data : option unit :=
  let invalid := as_bytes "not valid msgpack" in
  let result := msgpack_decode (T := TestStruct) invalid in
  assert_that (is_err result).

Record Empty := {}.
#[export] Instance Empty_eq_dec : EqDecision Empty.
Proof. solve_decision. Defined.
#[export] Instance Empty_mp : Mp Empty := {|
  to_mp _ := struct_mp [];
  of_mp v := match v with MMap _ => Some Build_Empty | _ => None end
|}.

Definition test_empty_struct : option unit :=
  let empty := Build_Empty in
  encoded ← unwrap (msgpack_encode empty);
  decoded ← unwrap (msgpack_decode encoded);
  assert_eq decoded empty.

Record SimpleObj := { so_id : Z; so_name : string }.
#[export] Instance SimpleObj_eq_dec : EqDecision SimpleObj.
Proof. solve_decision. Defined.
#[export] Instance SimpleObj_mp : Mp SimpleObj := {|
  to_mp o := struct_mp [("id", to_mp (so_id o)); ("name", to_mp (so_name o))]%string;
  of_mp v :=
    id ← field_mp "id" v; name ← field_mp "name" v; Some {| so_id := id; so_name := name |}
|}.

Definition test_nodejs_interop_simple_object : option unit :=
  let obj := {| so_id := 1; so_name := "test" |} in
  encoded ← unwrap (msgpack_encode obj);
  b ← encoded !! 0%nat;
  assert_eq b 0x82;;
  decoded ← unwrap (msgpack_decode encoded);
  assert_eq decoded obj.

(** 1.5 by its bits; the decoded float is the very one encoded, which is more
    than the test asks for. *)
#[export] Instance f64_eq_dec : EqDecision f64.
Proof. solve_decision. Defined.
Definition one_and_a_half : f64 := {| f_bits := 0x3FF8000000000000 |}.

Definition test_nodejs_interop_number_types : option unit :=
  round_trip 255;;
  round_trip (-12345);;
  round_trip one_and_a_half.

Definition test_nodejs_interop_array : option unit :=
  let arr := ["hello"; "world"; "test"]%string in
  encoded ← unwrap (msgpack_encode arr);
  b ← encoded !! 0%nat;
  assert_eq b 0x93;;
  decoded ← unwrap (msgpack_decode encoded);
  assert_eq decoded arr.

Definition test_nodejs_interop_null : option unit :=
  let val : option Z := None in
  encoded ← unwrap (msgpack_encode val);
  assert_eq encoded [0xC0];;
  decoded ← unwrap (msgpack_decode (T := option Z) encoded);
  assert_eq decoded None.

Definition test_nodejs_interop_binary_buffer : option unit :=
  let data := [0x01; 0x02; 0x03; 0x04; 0x05] in
  encoded ← unwrap (msgpack_encode {| buf_bytes := data |});
  b ← encoded !! 0%nat;
  assert_eq b 0xC4;;
  decoded ← unwrap (msgpack_decode (T := ByteBuf) encoded);
  assert_eq (buf_bytes decoded) data.

Definition tests : list (option unit) :=
  [test_encode_decode_struct; test_encode_decode_primitives; test_encode_decode_collections;
   test_encode_decode_nested; test_encode_decode_option; test_to_vec_named_produces_map_format;
   test_decode_error_on_invalid_data; test_empty_struct; test_nodejs_interop_simple_object;
   test_nodejs_interop_number_types; test_nodejs_interop_array; test_nodejs_interop_null;
   test_nodejs_interop_binary_buffer].

Example msgpack_tests_pass : all_pass tests = true.
Proof. vm_compute. reflexivity. Qed.

End msgpack_tests.
