(* ===== verification/TestsContext.v ===== *)
(** * The unit tests of src/handler/context.rs, run on the model

    A test without a writer runs the methods in an idle client, one with a
    writer on its writer task, whose output is parsed at the far end. *)

From S2P Require Import Prelude Errors WireFormat Frame Codec Json Writer WriterTask Init Program.
From S2P Require Import Context Registry Client Quiesce Simulate Msgpack UnitTest UnitTestRuntime.

#[local] Existing Instance string_errors.

Module context_tests.

(** The cells of the contexts of a test; a test with several contexts makes
    the others with other cells. *)
Definition TOKEN : nat := 1.
Definition RESPONDED : nat := 2.

Definition ctx : RequestContext := new_context 1 42 TOKEN RESPONDED.
Definition stream_ctx : RequestContext := with_response_type ctx RtStream.

(** On a fresh context, in a client of its own. *)
Definition ok_alone (p : prog) : option unit := _ ← await_ok p idle_client; Some tt.

Definition rejected (p : prog) (st : test_client) : option unit :=
  '(_, r) ← await p st;
  assert_that (match r with Err ResponseAlreadySent => true | _ => false end).

Definition test_context_creation : option unit :=
  assert_eq (ctx_method_id ctx) 1;;
  assert_eq (ctx_request_id ctx) 42.

Definition test_respond_without_writer : option unit :=
  ok_alone (respond ctx "test"%string).

Definition test_all_response_methods_without_writer : option unit :=
  ok_alone (respond ctx "test"%string);;
  ok_alone (respond_raw ctx (as_bytes "test"));;
  ok_alone (respond_bytes ctx (as_bytes "test"));;
  ok_alone (ack ctx);;
  ok_alone (error ctx "error message");;
  st ← await_ok (chunk ctx 1) idle_client;
  st ← await_ok (chunk_raw ctx (as_bytes "chunk")) st;
  st ← await_ok (chunk_bytes ctx (as_bytes "chunk")) st;
  _ ← await_ok (end_stream ctx) st;
  Some tt.

Definition test_second_terminal_response_is_rejected : option unit :=
  st ← await_ok (respond ctx "first"%string) idle_client;
  responded ← observe (has_responded ctx) st;
  assert_that responded;;
  rejected (respond ctx "second"%string) st;;
  rejected (ack ctx) st;;
  rejected (end_stream ctx) st;;
  rejected (error ctx "boom") st.

Definition test_error_is_terminal_for_stream : option unit :=
  st ← await_ok (chunk stream_ctx 1) idle_client;
  st ← await_ok (error stream_ctx "boom") st;
  rejected (end_stream stream_ctx) st.

(** A clone shares the cells. *)
Definition clone (c : RequestContext) : RequestContext := c.

Definition test_responded_state_is_shared_across_clones : option unit :=
  let ctx2 := clone ctx in
  st ← await_ok (respond ctx "done"%string) idle_client;
  responded ← observe (has_responded ctx2) st;
  assert_that responded;;
  '(_, r) ← await (respond ctx2 "again"%string) st;
  assert_that (is_err r).

Record StructuredError := { message : string; code : Z }.

#[export] Instance structured_mp : Mp StructuredError := {|
  to_mp e := struct_mp [("message", to_mp (message e)); ("code", to_mp (code e))]%string;
  of_mp v :=
    message ← field_mp "message" v; code ← field_mp "code" v;
    Some {| message := message; code := code |}
|}.

Definition structured_boom : StructuredError := {| message := "boom"; code := 500 |}.

Definition test_error_with_structured_payload : option unit :=
  ok_alone (error_with ctx structured_boom).

Definition test_chunk_allows_multiple_calls : option unit :=
  st ← await_ok (chunk ctx 1) idle_client;
  st ← await_ok (chunk ctx 2) st;
  st ← await_ok (chunk ctx 3) st;
  _ ← await_ok (end_stream ctx) st;
  Some tt.

Definition test_end_can_be_called_after_chunks : option unit :=
  st ← await_ok (chunk ctx "first"%string) idle_client;
  st ← await_ok (chunk ctx "second"%string) st;
  _ ← await_ok (end_stream ctx) st;
  Some tt.

Definition test_context_is_clone : option unit :=
  let ctx2 := clone ctx in
  assert_eq (ctx_method_id ctx) (ctx_method_id ctx2);;
  assert_eq (ctx_request_id ctx) (ctx_request_id ctx2).

Definition test_raw_payload : option unit :=
  let data := as_bytes "hello world" in
  let payload := new_raw_payload data in
  assert_eq (raw_as_bytes payload) (as_bytes "hello world");;
  assert_eq (raw_into_bytes payload) data.

Definition writer_ctx (method_id : u16) : RequestContext :=
  with_writer method_id 42 TOKEN RESPONDED.
Definition stream_writer_ctx (method_id : u16) : RequestContext :=
  with_response_type (writer_ctx method_id) RtStream.

Definition test_context_with_writer : option unit :=
  let ctx := stream_writer_ctx 1 in
  st ← await_ok (chunk ctx 123) idle_client;
  _ ← await_ok (end_stream ctx) st;
  Some tt.

(** The only frame at the far end after [p]. *)
Definition frame_of (p : prog) : option Frame :=
  st ← await_ok p idle_client;
  frames ← read_frames (server_end st) 1;
  frames !! 0%nat.

Definition test_error_flags_for_result_method : option unit :=
  frame ← frame_of (error (writer_ctx 7) "boom");
  assert_eq (hflags (header frame)) flags.ERROR_RESPONSE;;
  assert_eq (method_id (header frame)) 7;;
  assert_eq (request_id (header frame)) 42;;
  assert_eq (payload frame) (0xA4 :: as_bytes "boom").

Definition test_error_flags_for_stream_method_include_is_stream : option unit :=
  frame ← frame_of (error (stream_writer_ctx 7) "boom");
  let header := header frame in
  assert_eq (hflags header) flags.STREAM_ERROR_RESPONSE;;
  assert_that (is_stream header);;
  assert_that (is_error header);;
  assert_that (negb (is_stream_end header)).

Definition test_error_with_structured_payload_on_stream_method : option unit :=
  frame ← frame_of (error_with (stream_writer_ctx 7) structured_boom);
  assert_eq (hflags (header frame)) flags.STREAM_ERROR_RESPONSE;;
  first ← payload frame !! 0%nat;
  assert_eq first 0x82.

Definition assert_cancelled (c : RequestContext) (expected : bool) (st : test_client) :
  option unit :=
  b ← observe (is_cancelled c) st; assert_eq b expected.

Definition test_cancellation_token_initially_not_cancelled : option unit :=
  assert_cancelled ctx false idle_client.

Definition test_cancellation_after_cancel : option unit :=
  assert_cancelled ctx false idle_client;;
  st ← await_ok (cancel ctx (Ret (Ok tt))) idle_client;
  assert_cancelled ctx true st.

Definition test_cancellation_propagates_to_clones : option unit :=
  let ctx_clone := clone ctx in
  assert_cancelled ctx false idle_client;;
  assert_cancelled ctx_clone false idle_client;;
  st ← await_ok (cancel ctx (Ret (Ok tt))) idle_client;
  assert_cancelled ctx true st;;
  assert_cancelled ctx_clone true st.

(** The spawned task cancels; [cancelled] then returns. *)
Definition test_cancelled_future_completes_after_cancel : option unit :=
  let ctx_clone := clone ctx in
  let st := spawn (cancel ctx_clone (Ret (Ok tt))) idle_client in
  _ ← await_ok (cancelled ctx (Ret (Ok tt))) st;
  Some tt.

(** The child waits for the token; before the cancellation it has not
    returned, afterwards it has. *)
Definition test_cancellation_token_can_be_passed_to_child_task : option unit :=
  let token := cancellation_token ctx in
  let st := settle (spawn (Await token (Ret (Ok tt))) idle_client) in
  assert_that (is_none (last_result st));;
  st ← await_ok (cancel ctx (Ret (Ok tt))) st;
  child ← c_background st !! 0%nat;
  assert_that (match child with Ret (Ok _) => true | _ => false end).

Definition test_with_writer_and_token : option unit :=
  let ctx := with_writer_and_token 1 42 RtResult TOKEN RESPONDED in
  assert_cancelled ctx false idle_client;;
  st ← await_ok (Cancel TOKEN (Ret (Ok tt))) idle_client;
  assert_cancelled ctx true st.

Definition tests : list (option unit) :=
  [test_context_creation; test_respond_without_writer;
   test_all_response_methods_without_writer; test_second_terminal_response_is_rejected;
   test_error_is_terminal_for_stream; test_responded_state_is_shared_across_clones;
   test_error_with_structured_payload; test_chunk_allows_multiple_calls;
   test_end_can_be_called_after_chunks; test_context_is_clone; test_raw_payload;
   test_context_with_writer; test_error_flags_for_result_method;
   test_error_flags_for_stream_method_include_is_stream;
   test_error_with_structured_payload_on_stream_method;
   test_cancellation_token_initially_not_cancelled; test_cancellation_after_cancel;
   test_cancellation_propagates_to_clones; test_cancelled_future_completes_after_cancel;
   test_cancellation_token_can_be_passed_to_child_task; test_with_writer_and_token].

Example context_tests_pass : all_pass tests = true.
Proof. vm_compute. reflexivity. Qed.
End context_tests.
