(* ===== verification/TestsClient.v ===== *)
(** * The unit tests of src/client.rs, run on the model

    The builder, the handshake on what the parent has written before it, and
    the dispatch of a frame in a client that then runs until nothing moves. *)

From S2P Require Import Prelude Errors WireFormat Frame FrameBuffer Codec Json Writer WriterTask.
From S2P Require Import Init Program Context Registry Session Client Quiesce Simulate.
From S2P Require Import Msgpack UnitTest UnitTestRuntime.

#[local] Existing Instance string_errors.

Module client_tests.

(** [|_: T, _ctx| async { Ok(()) }]. *)
Definition ok_handler {T} (_ : T) (_ : RequestContext) : prog := Ret (Ok tt).

(** ** The builder *)

Definition test_builder_creation : option unit :=
  let builder := new_builder in Some tt.

Definition test_builder_default : option unit :=
  let builder := default_builder in Some tt.

Definition test_builder_method_chaining : option unit :=
  builder ← handle (T := string) true client_builder "echo" ok_handler;
  builder ← handle_stream (T := Z) true builder "stream" ok_handler;
  builder ← handle_ack (T := unit) true builder "ack" ok_handler;
  builder ← event true builder "progress";
  let schema := build_schema (cb_registry builder) in
  assert_that (is_some (get_method schema "echo"));;
  assert_that (is_some (get_method schema "stream"));;
  assert_that (is_some (get_method schema "ack"));;
  assert_that (is_some (get_event schema "progress")).

Definition test_builder_response_types : option unit :=
  builder ← handle (T := unit) true client_builder "result" ok_handler;
  builder ← handle_stream (T := unit) true builder "stream" ok_handler;
  builder ← handle_ack (T := unit) true builder "ack" ok_handler;
  assert_eq (get_response_type (cb_registry builder) "result") (Some RtResult);;
  assert_eq (get_response_type (cb_registry builder) "stream") (Some RtStream);;
  assert_eq (get_response_type (cb_registry builder) "ack") (Some RtAck).

Definition test_builder_configuration : option unit :=
  let builder := max_concurrent_handlers client_builder 512 in
  let builder := builder_max_pending_frames builder 2048 in
  let builder := builder_channel_capacity builder 512 in
  let builder := builder_backpressure_timeout builder (10 * 10 ^ 9) in
  assert_eq (cb_max_concurrent_handlers builder) 512%nat;;
  assert_eq (max_pending_frames (cb_writer_config builder)) 2048;;
  assert_eq (channel_capacity (cb_writer_config builder)) 512%nat;;
  assert_eq (backpressure_timeout (cb_writer_config builder)) (10 * 10 ^ 9).

Definition test_builder_max_payload_size_default : option unit :=
  assert_eq (cb_max_payload_size client_builder) DEFAULT_MAX_PAYLOAD_SIZE.

Definition test_builder_max_payload_size_custom : option unit :=
  assert_eq (cb_max_payload_size (builder_max_payload_size client_builder 4096)) 4096.

Definition test_builder_max_payload_size_clamped_to_absolute_max : option unit :=
  let builder := builder_max_payload_size client_builder (2 ^ 32 - 1) in
  assert_eq (cb_max_payload_size builder) ABSOLUTE_MAX_PAYLOAD_SIZE.

Definition test_builder_auth_token_default_none : option unit :=
  assert_that (is_none (cb_auth_token client_builder)).

Definition test_builder_auth_token_set : option unit :=
  let builder := auth_token client_builder "secret-token" in
  assert_eq (cb_auth_token builder) (Some "secret-token"%string).

Definition test_constant_time_eq : option unit :=
  let eq a b := constant_time_eq (as_bytes a) (as_bytes b) in
  assert_that (eq "" "");;
  assert_that (eq "abc" "abc");;
  assert_that (negb (eq "abc" "abd"));;
  assert_that (negb (eq "abc" "ab"));;
  assert_that (negb (eq "ab" "abc"));;
  let token := of_bytes (replicate 64 97) in
  assert_that (eq token token).

(** ** The handshake; one read brings what the parent has written *)

Definition auth_frame_bytes (token : bytes) : bytes :=
  let header := new_header AUTH_METHOD_ID 0 0 (zlen token) in encode header ++ token.

Definition rejects (reads : list socket_read) (token : string) : option unit :=
  '(outcome, _) ← run_auth_handshake reads token DEFAULT_MAX_PAYLOAD_SIZE;
  assert_that (match outcome with Rejected => true | Adopted _ _ => false end).

Definition test_auth_handshake_accepts_matching_token : option unit :=
  let token := of_bytes (concat (replicate 8 (as_bytes "deadbeef"))) in
  '(outcome, _) ← run_auth_handshake [Ok (auth_frame_bytes (as_bytes token))] token
                    DEFAULT_MAX_PAYLOAD_SIZE;
  match outcome with
  | Adopted _ pending_frames => assert_eq (length pending_frames) 0%nat
  | Rejected => None
  end.

Definition test_auth_handshake_rejects_wrong_token : option unit :=
  rejects [Ok (auth_frame_bytes (as_bytes "the-wrong-token"))] "the-expected-token".

(** The bytes of a request with the payload "hi". *)
Definition request_bytes : option bytes :=
  payload ← unwrap (msgpack_encode "hi"%string);
  Some (encode (new_header 1 0 7 (zlen payload)) ++ payload).

Definition test_auth_handshake_rejects_non_auth_first_frame : option unit :=
  bytes ← request_bytes;
  rejects [Ok bytes] "token".

Definition test_auth_handshake_returns_pipelined_frames : option unit :=
  request ← request_bytes;
  let token := "token-1234"%string in
  '(outcome, _) ← run_auth_handshake [Ok (auth_frame_bytes (as_bytes token) ++ request)] token
                    DEFAULT_MAX_PAYLOAD_SIZE;
  match outcome with
  | Adopted _ pending_frames =>
    assert_eq (length pending_frames) 1%nat;;
    first ← pending_frames !! 0%nat;
    assert_eq (method_id (header first)) 1;;
    assert_eq (request_id (header first)) 7
  | Rejected => None
  end.

Definition test_auth_handshake_rejects_on_eof : option unit := rejects [Ok []] "token".

(** ** Dispatch *)

(** The client after the frame has been dispatched, before anything runs. *)
Definition dispatched (registry : HandlerRegistry) (method_id : u16) (request_id : u32)
  (payload : bytes) : test_client :=
  let header := new_header method_id 0 request_id (zlen payload) in
  dispatch_frame registry (new_frame header payload) idle_client.

(** The far end of the pipe when nothing moves any more. *)
Definition dispatch_request (registry : HandlerRegistry) (method_id : u16) (request_id : u32)
  (payload : bytes) : ScriptWriter :=
  server_end (simulate 0 default_config STEPS (dispatched registry method_id request_id payload)).

Definition reg (name : string) (rt : ResponseType) (f : unit → RequestContext → prog) :
  option (HandlerRegistry * u16) :=
  registry ← register true new_registry name rt f;
  method_id ← get_method_id registry name;
  Some (registry, method_id).

Definition message_contains (f : Frame) (needle : string) : option unit :=
  message ← unwrap (msgpack_decode (T := string) (payload f));
  assert_that (contains message needle).

Definition test_failing_handler_sends_error_response : option unit :=
  '(registry, method_id0) ← reg "boom" RtResult (λ _ _,
    Ret (Err (Protocol "handler exploded")));
  payload ← unwrap (msgpack_encode tt);
  frames ← read_frames (dispatch_request registry method_id0 42 payload) 1;
  f ← frames !! 0%nat;
  assert_eq (hflags (header f)) flags.ERROR_RESPONSE;;
  assert_eq (method_id (header f)) method_id0;;
  assert_eq (request_id (header f)) 42;;
  message_contains f "handler exploded".

Definition test_failing_stream_handler_sends_stream_error_response : option unit :=
  '(registry, method_id0) ← reg "boom" RtStream (λ _ ctx,
    ptry (chunk ctx 1) (Ret (Err (Protocol "stream exploded"))));
  payload ← unwrap (msgpack_encode tt);
  frames ← read_frames (dispatch_request registry method_id0 42 payload) 2;
  f0 ← frames !! 0%nat;
  assert_eq (hflags (header f0)) flags.STREAM_CHUNK;;
  f1 ← frames !! 1%nat;
  assert_eq (hflags (header f1)) flags.STREAM_ERROR_RESPONSE;;
  assert_that (negb (is_stream_end (header f1)));;
  message_contains f1 "stream exploded".

Definition test_unknown_method_sends_error_response : option unit :=
  let registry := new_registry in
  payload ← unwrap (msgpack_encode tt);
  frames ← read_frames (dispatch_request registry 99 7 payload) 1;
  f ← frames !! 0%nat;
  assert_eq (hflags (header f)) flags.ERROR_RESPONSE;;
  assert_eq (method_id (header f)) 99;;
  assert_eq (request_id (header f)) 7;;
  message_contains f "99".

Definition test_no_error_frame_after_handler_already_responded : option unit :=
  '(registry, method_id0) ← reg "late" RtResult (λ _ ctx,
    ptry (respond ctx "done"%string) (Ret (Err (Protocol "after the fact"))));
  payload ← unwrap (msgpack_encode tt);
  frames ← read_frames (dispatch_request registry method_id0 42 payload) 1;
  f ← frames !! 0%nat;
  assert_eq (hflags (header f)) flags.RESPONSE;;
  assert_eq (length frames) 1%nat.

(** A client in which the request 42 is active, with the token in cell 1. *)
Definition with_active_request : test_client :=
  {| c_world := c_world idle_client; c_next := 2; c_active := {[42 := 1%nat]};
     c_permits := c_permits idle_client; c_tasks := []; c_background := []; c_requests := [] |}.

Definition abort_frame (request_id : u32) : Frame :=
  new_frame (new_header ABORT_METHOD_ID 0 request_id 0) [].

Definition test_abort_cancels_active_handler : option unit :=
  let st := with_active_request in
  assert_that (negb (cell (c_world st) 1));;
  let st := dispatch_frame new_registry (abort_frame 42) st in
  assert_that (cell (c_world st) 1).

(** It does not panic. *)
Definition test_abort_for_unknown_request_logs_warning : option unit :=
  let st := dispatch_frame new_registry (abort_frame 999) idle_client in Some tt.

(** The handler's own flags. *)
Definition STARTED : nat := 1000.
Definition COMPLETED : nat := 1001.

(** [store(true)] sets a flag as [Cancel] does; the sleep of 10 ms only takes
    a step. *)
Definition slow_handler (_ : unit) (ctx : RequestContext) : prog :=
  Cancel STARTED (Input (λ _,
    ptry (respond ctx "done"%string) (Cancel COMPLETED (Ret (Ok tt))))).

Definition wait_for (flag : nat) (st : test_client) : option test_client :=
  let st := simulate_until 0 default_config (λ st, cell (c_world st) flag) STEPS st in
  assert_that (cell (c_world st) flag);; Some st.

Definition test_handler_context_is_removed_after_completion : option unit :=
  '(registry, method_id) ← reg "test" RtResult slow_handler;
  payload ← unwrap (msgpack_encode tt);
  st ← wait_for STARTED (dispatched registry method_id 123 payload);
  assert_that (is_some (c_active st !! 123));;
  st ← wait_for COMPLETED st;
  assert_that (is_none (c_active (simulate 0 default_config STEPS st) !! 123)).

Definition tests : list (option unit) :=
  [test_builder_creation; test_builder_default; test_builder_method_chaining;
   test_builder_response_types; test_builder_configuration;
   test_builder_max_payload_size_default; test_builder_max_payload_size_custom;
   test_builder_max_payload_size_clamped_to_absolute_max;
   test_builder_auth_token_default_none; test_builder_auth_token_set; test_constant_time_eq;
   test_auth_handshake_accepts_matching_token; test_auth_handshake_rejects_wrong_token;
   test_auth_handshake_rejects_non_auth_first_frame;
   test_auth_handshake_returns_pipelined_frames; test_auth_handshake_rejects_on_eof;
   test_failing_handler_sends_error_response;
   test_failing_stream_handler_sends_stream_error_response;
   test_unknown_method_sends_error_response;
   test_no_error_frame_after_handler_already_responded; test_abort_cancels_active_handler;
   test_abort_for_unknown_request_logs_warning;
   test_handler_context_is_removed_after_completion].

Example client_tests_pass : all_pass tests = true.
Proof. vm_compute. reflexivity. Qed.
End client_tests.
