(* ===== verification/TestsIntegration.v ===== *)
(** * The integration tests (tests/integration.rs), run on the model

    Payloads go through [MsgPackCodec], frames through [build_frame] and
    [FrameBuffer]; [rmp_serde] is the codec of Msgpack.v. *)

From stdpp Require Import pretty.
From S2P Require Import Prelude Errors WireFormat Frame FrameBuffer Codec Json Msgpack UnitTest.

#[local] Existing Instance string_errors.

Module integration_tests.

Record TestPayload := { id : Z; message : string }.
#[export] Instance TestPayload_eq_dec : EqDecision TestPayload.
Proof. solve_decision. Defined.
#[export] Instance TestPayload_mp : Mp TestPayload := {|
  to_mp p := struct_mp [("id", to_mp (id p)); ("message", to_mp (message p))]%string;
  of_mp v :=
    id ← field_mp "id" v; message ← field_mp "message" v;
    Some {| id := id; message := message |}
|}.

(** [buffer.push(bytes).unwrap()]. *)
Definition push_ok (buffer : FrameBuffer) (data : bytes) : option (FrameBuffer * list Frame) :=
  let '(buffer, r) := push buffer data in
  frames ← unwrap r; Some (buffer, frames).

(** [data.len() as u32]. *)
Definition len_u32 (data : bytes) : u32 := wrap 32 (zlen data).

Definition test_frame_with_msgpack_payload : option unit :=
  let value := {| id := 42; message := "Hello, world!" |} in
  payload_bytes ← unwrap (msgpack_encode value);
  let h := new_header 1 flags.RESPONSE 12345 (len_u32 payload_bytes) in
  let frame_bytes := build_frame h payload_bytes in
  '(_, frames) ← push_ok new_buffer frame_bytes;
  assert_eq (length frames) 1%nat;;
  frame ← frames !! 0%nat;
  assert_eq (method_id (header frame)) 1;;
  assert_eq (request_id (header frame)) 12345;;
  assert_that (frame_is_response frame);;
  decoded ← unwrap (msgpack_decode (payload frame));
  assert_eq decoded value.

(** [format!("message_{}", i)]. *)
Definition numbered (i : nat) : string := "message_" +:+ pretty i.

Definition numbered_frame (i : nat) : option bytes :=
  payload ← unwrap (msgpack_encode (numbered i));
  let h := new_header (Z.of_nat i) flags.RESPONSE (Z.of_nat i * 100) (len_u32 payload) in
  Some (build_frame h payload).

Definition check_numbered (i : nat) (frame : Frame) : option unit :=
  assert_eq (method_id (header frame)) (Z.of_nat i);;
  assert_eq (request_id (header frame)) (Z.of_nat i * 100);;
  decoded ← unwrap (msgpack_decode (payload frame));
  assert_eq decoded (numbered i).

Definition test_multiple_frames_sequence : option unit :=
  parts ← mapM numbered_frame (seq 1 5);
  '(_, frames) ← push_ok new_buffer (concat parts);
  assert_eq (length frames) 5%nat;;
  _ ← mapM (λ '(i, frame), check_numbered (i + 1) frame) (imap (λ i f, (i, f)) frames);
  Some tt.

Definition chunk_frame (request_id : u32) (n : Z) : option bytes :=
  payload ← unwrap (msgpack_encode n);
  Some (build_frame (new_header 1 flags.STREAM_CHUNK request_id (len_u32 payload)) payload).

Definition check_chunk (i : nat) (frame : Frame) : option unit :=
  assert_that (frame_is_stream frame);;
  assert_that (negb (frame_is_stream_end frame));;
  value ← unwrap (msgpack_decode (payload frame));
  assert_eq value (Z.of_nat (i + 1)).

Definition test_stream_pattern : option unit :=
  let request_id := 999 in
  chunk1 ← chunk_frame request_id 1;
  chunk2 ← chunk_frame request_id 2;
  chunk3 ← chunk_frame request_id 3;
  let header_end := new_header 1 flags.STREAM_END_RESPONSE request_id 0 in
  let all_bytes := chunk1 ++ chunk2 ++ chunk3 ++ build_frame header_end [] in
  '(_, frames) ← push_ok new_buffer all_bytes;
  assert_eq (length frames) 4%nat;;
  _ ← mapM (λ '(i, frame), check_chunk i frame) (imap (λ i f, (i, f)) (take 3 frames));
  frame ← frames !! 3%nat;
  assert_that (frame_is_stream frame);;
  assert_that (frame_is_stream_end frame);;
  assert_eq (payload frame) [].

Definition test_error_response : option unit :=
  let error_message := "Something went wrong"%string in
  data ← unwrap (msgpack_encode error_message);
  let h := new_header 1 flags.ERROR_RESPONSE 123 (len_u32 data) in
  '(_, frames) ← push_ok new_buffer (build_frame h data);
  assert_eq (length frames) 1%nat;;
  frame ← frames !! 0%nat;
  assert_that (frame_is_error frame);;
  assert_that (frame_is_response frame);;
  decoded ← unwrap (msgpack_decode (payload frame));
  assert_eq decoded error_message.

Definition test_ack_response : option unit :=
  let h := new_header 1 flags.ACK_RESPONSE 456 0 in
  '(_, frames) ← push_ok new_buffer (build_frame h []);
  assert_eq (length frames) 1%nat;;
  frame ← frames !! 0%nat;
  assert_that (frame_is_ack frame);;
  assert_that (frame_is_response frame);;
  assert_eq (payload frame) [].

Definition test_event_to_parent : option unit :=
  event_data ← unwrap (msgpack_encode "progress update"%string);
  let h := new_header 5 flags.DIRECTION_TO_PARENT 0 (len_u32 event_data) in
  '(_, frames) ← push_ok new_buffer (build_frame h event_data);
  assert_eq (length frames) 1%nat;;
  frame ← frames !! 0%nat;
  assert_that (frame_is_event frame);;
  assert_that (negb (frame_is_response frame));;
  assert_eq (request_id (header frame)) 0;;
  decoded ← unwrap (msgpack_decode (payload frame));
  assert_eq decoded "progress update"%string.

Definition test_auth_frame_wire_format : option unit :=
  let token := "0123456789abcdef0123456789abcdef0123456789abcdef0123456789abcdef"%string in
  let token_bytes := as_bytes token in
  let h := new_header AUTH_METHOD_ID 0 0 (len_u32 token_bytes) in
  '(_, frames) ← push_ok new_buffer (build_frame h token_bytes);
  assert_eq (length frames) 1%nat;;
  frame ← frames !! 0%nat;
  assert_eq (method_id (header frame)) AUTH_METHOD_ID;;
  assert_eq (hflags (header frame)) 0;;
  assert_eq (request_id (header frame)) 0;;
  assert_that (negb (frame_is_response frame));;
  assert_eq (payload frame) token_bytes.

Definition test_fragmented_frame_parsing : option unit :=
  data ← unwrap (msgpack_encode "test data for fragmentation"%string);
  let h := new_header 1 flags.RESPONSE 789 (len_u32 data) in
  let frame_bytes := build_frame h data in
  part ← slice_to 5 frame_bytes;
  '(buffer, frames1) ← push_ok new_buffer part;
  assert_eq (length frames1) 0%nat;;
  part ← slice 5 HEADER_SIZE frame_bytes;
  '(buffer, frames2) ← push_ok buffer part;
  assert_eq (length frames2) 0%nat;;
  let mid := (HEADER_SIZE + length data / 2)%nat in
  part ← slice HEADER_SIZE mid frame_bytes;
  '(buffer, frames3) ← push_ok buffer part;
  assert_eq (length frames3) 0%nat;;
  part ← slice_from mid frame_bytes;
  '(buffer, frames4) ← push_ok buffer part;
  assert_eq (length frames4) 1%nat;;
  frame ← frames4 !! 0%nat;
  decoded ← unwrap (msgpack_decode (payload frame));
  assert_eq decoded "test data for fragmentation"%string.

Definition tests : list (option unit) :=
  [test_frame_with_msgpack_payload; test_multiple_frames_sequence; test_stream_pattern;
   test_error_response; test_ack_response; test_event_to_parent; test_auth_frame_wire_format;
   test_fragmented_frame_parsing].

Example integration_tests_pass : all_pass tests = true.
Proof. vm_compute. reflexivity. Qed.

End integration_tests.
